(* ===== verification/_CoqProject ===== *)
-Q . S2P
Prelude.v
Xlease.v
XleaseFacts.v
XleaseSpec.v
XleaseFormat.v
DirectFile.v
XleaseWitness.v
RWLock.v
Guarded.v
Contexts.v
ResourceManager.v
ResourceFacts.v
ResourceSpec.v
ResourceOwner.v
ResourceWitness.v
Text.v
VolumeMetadata.v
Persistent.v
Mailbox.v
MailboxFacts.v
MailboxSpec.v
MailboxManager.v
MailboxWitness.v
Wp.v
Task.v
TaskFacts.v
TaskSettle.v
TaskSpec.v
TaskOps.v
TaskMain.v
TaskStore.v
TaskLoad.v
TaskWitness.v
Stomp.v
JsonRpc.v
JsonRpcSpec.v
Heap.v
Schedule.v
Jobs.v
JobsSpec.v
Executor.v
ExecutorSpec.v
ThreadPool.v
TaskManager.v
Check.v
Concurrent.v
ClusterLock.v
ClusterLockSpec.v
LocalLock.v
EventLoop.v
EventLoopSpec.v
Monitor.v
MonitorSpec.v
DomainMonitor.v
Sampling.v
Operation.v
DomainCache.v
Periodic.v
Misc.v
Utils.v
StompServer.v
StompServerSpec.v
StompDispatcher.v
ThinProvisioning.v
