(* ===== verification/Prelude.v ===== *)
(** * VDSM: verification of the storage core

    VDSM is the oVirt host agent. An engine sends it commands over JSON-RPC on
    STOMP ([src/lib/yajsonrpc]); its storage part ([src/lib/vdsm/storage]) runs
    them as tasks that lock resources, change metadata on shared storage and, for
    thin volumes, ask the storage pool manager (SPM) on another host to extend
    them.  This development models the parts of that path that keep state and must
    not go wrong, translated from the Python source, and proves what they promise.

    ** The program's parts and how they interact

    - A command arrives as a frame ([stomp.py]) with a JSON-RPC message; the broker
      ([stompserver.py]) routes it to subscribers and to the server
      ([yajsonrpc/__init__.py]), which runs its requests on the workers of an executor
      ([executor.py]), whose blocked workers are found by calls of a scheduler
      ([schedule.py]), and sends the reply when none is outstanding.
    - A long command of the storage becomes a [Task] ([task.py]), a state machine with
      jobs, recoveries and a directory in the task store; the task manager
      ([taskManager.py]) registers it and queues it to its thread pool
      ([threadPool.py]), and after a restart queues the recovery of stored tasks.
    - Other long commands are jobs ([jobs.py]), which send events and are deleted
      by the scheduler some time after they ended.
    - A task holds resources through an [Owner] of the resource manager
      ([resourceManager.py]), released when the task is done.  Operations on
      volumes take several locks in one [context] ([guarded.py]); in-process
      locks are readers-writer locks ([rwlock.py]).
    - Metadata on storage: volume metadata in 512 byte slots
      ([volumemetadata.py]), domain and pool metadata in checksummed dicts
      ([persistent.py]), and the index of external leases with the sanlock
      resources behind it ([xlease.py]).
    - Hosts and the SPM exchange requests in mailboxes on shared storage
      ([mailbox.py]).
    - Every storage domain has a monitor ([monitor.py]): a thread sets it up and checks it, the path
      checkers ([check.py]) read its storage from an event loop ([asyncevent.py]), and
      a change of its state is announced.  The monitor acquires the host's id in the
      domain's cluster lock ([clusterlock.py]), on which leases are acquired; [acquire] waits for the host id on an
      event that can be invalidated ([common/concurrent.py]).
    - Domains are looked up through a cache ([sdc.py]), which rescans the storage once for all
      the threads that wait for it (the sampling methods of [misc.py]); commands on storage can be
      aborted ([operation.py]), and periodic operations ([virt/periodic.py]) are clients of the
      executor and the scheduler.  One of them checks the thin provisioned drives of a machine
      ([virt/drivemonitor.py]), whose volumes are extended through the mailbox.

    ** Files

    - [Prelude.v] (this file): Python values (bytes and text as [list Z], slices,
      integers in text, UTF-8, packing), exceptions as [res], the state and
      exception monad [M] with its notation, shared lemmas, tactics and hints.
    - [Text.v]: insertion-ordered dicts, splitting, the round trip of UTF-8.
    - [Wp.v]: weakest preconditions for [M], used by the task files.
    - [Xlease.v] (data and operations of [LeasesVolume], [VolumeIndex],
      [ChangeBlock], [Record], [IndexMetadata], [format_index], [rebuild_index]),
      [XleaseFacts.v] (codecs, the search in the index, the invariant), [XleaseSpec.v]
      and [XleaseFormat.v] (theorems), [DirectFile.v] (the file object, and the proof
      that it keeps the promises [FileLaws]), [XleaseWitness.v].
    - [RWLock.v]: [rwlock.py], as a step relation on the lock and the positions of
      the threads in its methods.
    - [Guarded.v]: [guarded.py] over any lock with [LockOps] and [LockLaws]; [Contexts.v]: the calls of
      [with context(locks)] one by one, for threads that wait for each other.
    - [ResourceManager.v], [ResourceFacts.v], [ResourceSpec.v]: the manager, its
      invariant and theorems; [ResourceOwner.v]: [Owner] over the interface
      [ResourceAPI]; [ResourceWitness.v].
    - [VolumeMetadata.v], [Persistent.v] (over the storage interface [MetaRW]).
    - [Mailbox.v] (messages and both monitors), [MailboxFacts.v], [MailboxSpec.v]
      (host side), [MailboxManager.v] (manager side and the exchange),
      [MailboxWitness.v].
    - [Task.v] (the task and its operations), [TaskFacts.v] (rules for transitions),
      [TaskSettle.v] (what a running function can change), [TaskSpec.v]
      (transitions), [TaskOps.v] and [TaskMain.v] (operations and theorems),
      [TaskStore.v] (metadata files and directories of the store), [TaskLoad.v] (saving
      and loading whole tasks), [TaskWitness.v].
    - [Stomp.v]: encoding of frames and the parser; [StompServer.v] and
      [StompServerSpec.v]: the broker with its subscriptions and replies;
      [StompDispatcher.v]: writing, heartbeats and timeouts of a connection.
    - [JsonRpc.v] (requests, responses, the request context and the server) and
      [JsonRpcSpec.v].
    - [Heap.v] (the algorithm of [heapq]) and [Schedule.v] (the scheduler as steps of its
      thread, between which callers schedule and cancel, also between the test of a call and its function).
    - [Jobs.v] and [JobsSpec.v]: job objects, the table of jobs, and the system of both
      with the scheduler of [Schedule.v].
    - [Executor.v] and [ExecutorSpec.v]: queue, workers, checks, start and stop.
    - [ThreadPool.v]: the pool of the storage tasks; [TaskManager.v]: the manager over
      that pool.
    - [Check.v]: path checkers under the callbacks of an event loop, the looping call
      and the check service.
    - [Concurrent.v]: [ValidatingEvent], [Barrier] and [tmap] of [common/concurrent.py].
    - [ClusterLock.v] ([SANLock] over any daemon, the class [Sanlock]) and
      [ClusterLockSpec.v]; [LocalLock.v]: [LocalLock] over descriptors and flocks,
      [SafeLease] and [alignment].
    - [EventLoop.v] and [EventLoopSpec.v]: [EventLoop], handles and timers (over
      [Heap.v]), [BufferedReader] and [Reaper].
    - [Monitor.v] and [MonitorSpec.v]: statuses and the thread of a monitor;
      [DomainMonitor.v]: the monitors of all domains.
    - [Sampling.v] ([DynamicBarrier], [SamplingMethod]) and [DomainCache.v]
      ([StorageDomainCache] over it); [Operation.v]: [Command]; [Periodic.v]:
      [Operation], [VmDispatcher]; [Misc.v]: [readblock] over any [dd] and
      [Event]; [Utils.v]: [RollbackContext], [CallbackChain].
    - [ThinProvisioning.v]: thresholds, sizes and extensions of thin provisioned drives, with checks, ends of extensions,
      events and the guest's writes as steps.

    Definitions keep the names of the source.  A Python object is a record; a
    method is a function from the object to the object and a result [Ok] or
    [Raise]; a dict is an association list in insertion order where the order
    matters and a [gmap] where it does not; objects that are shared and mutated
    (requests of the resource manager) live in a store under their ids.

    ** What the theorems show

    - External leases, C1-C3: adding and removing leases on every branch, sanlock and
      I/O failures included, in terms of the leases that the volume lists; rebuilding.  Also
      proved: whole transfers over short system calls ([direct_io_spec]), looking up,
      reopening, codecs, byte searches, formatting ([lookup_spec], [reopen_spec],
      [codec_roundtrip], [find_spec], [format_index_spec]).
    - Readers-writer lock, C4-C5: exclusion, wakeups and progress in every
      reachable state of any threads; and order and misuse ([rwlock_fifo], [rwlock_misuse]).
    - Guarded operations, C6-C7: release on every path, no deadlock between threads
      in contexts, from the calls of [with_context]; and the validation and order of the locks ([validate_spec]).
    - Resource manager, C8-C11: exclusion, the fate of every request under
      concurrent cancels, the order of grants with the requests that a factory refuses, owners that leak nothing; and the
      outcome of acquiring ([acquire_outcome]).
    - Volume metadata, C12-C13: round trip and the bound of 512 bytes.
    - Persistent dicts, C14: transactions of bodies that use the dict, its nested transactions included, are atomic; and the seal and the validator
      ([seal_roundtrip], [validator_spec]).
    - Mailbox, C15-C16: refinement of an abstract outbox by the host's monitor, and
      the whole exchange, with the replies that are passed over as old; and messages, replies and requests ([extend_roundtrip],
      [replies_handled], [requests_handled]).
    - Tasks, C17-C21: outcomes of committing, stopping and recovering, termination of every operation,
      round trip of saved tasks through a crash;
      and preparing and the crash safety of the store ([prepare_outcome], [save_crash_safe]).
    - STOMP, C22: round trip of frames over a stream cut into any chunks.
    - JSON-RPC, C23-C24: the replies to a batch whose requests end in threads that interleave, one when their ends do not overlap
      (and a run with two, [batch_race]), and what other messages get.
    - STOMP broker, C25-C26: messages and replies reach exactly their subscribers; and
      the bytes on a connection, and its heartbeats ([write_stream], [heartbeats]).
    - Scheduler, C27: each call runs at most once and in time, not when it was canceled before the thread had read its function,
      and no call is overslept; and which calls are taken ([expired_calls]).
    - Jobs, C28-C29: the life cycle under concurrent runs and aborts, and the events, with those that the notifier does not
      take; and what an
      answer of the API means, automatic deletion over the scheduler and the
      report of jobs ([abort_answer], [autodelete_delayed], [info_reports]).
    - Executor, C30-C31: bounds on the workers, termination of a stop; and the
      replacement of discarded workers and the accounts of its queue
      ([pool_replenished], [executor_queue]).
    - Thin provisioned drives, C32: a volume that is short of space is extended, to the right
      size, but for two races that are named; one of them is run in [extension_missed].
    - Task manager, C33: recovery after a restart; and registering, views
      ([queue_outcomes], [manager_views]), and the thread pool: every task is accounted for,
      joining ([pool_accounts], [join_completes]).
    - Path checker, C34: no assertion fails and every check gives one result; and
      stopping and the deadlines of the looping call ([checker_stops],
      [next_deadline]).
    - Cluster locks, C35: when a lease may be acquired, also after the host id was released; and the locks of one
      host, who owns a lease, that acquiring ends, and the sizes of leases
      ([local_lock_safety], [inquire_answer], [acquire_ends], [alignment_fits]).
    - Event loop, C36: handles run once, in time and never after they were cancelled; and
      a cycle runs exactly what was ready, readers and reapers
      ([cycle_runs_ready], [reader_and_reaper]).
    - Domain monitor, C37-C39: what is announced of a domain, when a host id is asked for and that it is given back, that
      no monitor is lost.
    - Domain cache, C40: the storage counts as updated only after a rescan that began
      after its invalidation, and a domain is looked up once at a time; the proof
      rests on the invariant of sampling methods ([sampling_fresh]).
    - Storage commands, periodic operations, block reads, events and rollback
      ([command_outcomes], [periodic_operation], [vm_dispatch], [readblock_range],
      [event_emit], [rollback_undoes]).
    - Waiting threads: no waiter of an event is lost, a barrier lets threads pass
      in whole rounds, [tmap] yields every result ([validating_event], [barrier_rounds],
      [tmap_yields_all]).

    Theorems about code that calls other components are stated for any
    implementation of an interface that keeps its laws, and each law record is
    inhabited in a witness.

    ** Bounds and fuel

    - [DirectFile.pread_loop] and [pwrite_loop] take the remaining length as fuel;
      [direct_io_spec] proves that it is never used up.
    - [Mailbox.take_messages] takes the length of the queue and one more.
    - [Task._updateState] takes the depth of nested transitions; [depth] is 6, and
      C18 and C20 prove that no operation runs out of it.  [run_recoveries] takes
      one more than the number of recoveries and [_recoverDone] two rounds; the same
      theorems cover them.
    - [Stomp.parse_loop] takes one more than the length of the buffer: every step
      consumes a byte ([step_more], [loop_ends]).
    - [Heap.siftdown] and [to_leaf] take the length of the heap, [Schedule.pop_expired]
      the number of calls, of which every round removes one; the theorems about the
      heap and [expired_calls] show that this is enough.  [EventLoop.drop_cancelled] and [take_due]
      take the number of timers in the same way.
    - [Misc.align_loop] takes the 20 halvings of a mebibyte and [readblock_loop] 22 rounds, one more
      than the units there are ([readblock_range]).
    - [ClusterLock.acquire_loop] takes one more than the number of times the daemon goes
      away ([acquire_ends]).

    ** What is assumed

    Code outside the repository is a parameter with its documented behaviour as a
    law: files and system calls, sanlock, SHA-1, resource factories and their
    objects.  The functions that tasks run are arbitrary scripts of calls of the
    task's methods; where a theorem needs it, recovery functions do not edit the
    list of recoveries.  What requests, jobs and queued commands do is chosen by the
    steps or given by a parameter, as are the JSON codec, the bridge of the API and
    the clock.  Bodies guarded by one lock are single steps;
    without a lock, a step goes up to the next access to what threads share.  The code of the process that is not
    modelled does not close the descriptors of local locks or descriptor 0.

    ** Not modelled

    Running virtual machines ([virt/] but for its periodic operations and the
    monitoring of drives), networking ([network/]), gluster, tools,
    configuration, hooks, supervdsm and the RPC schema are other programs of the
    repository; they drive libvirt, netlink, nmstate and command line tools.  In
    storage: [hsm.py], [sp.py], [sd.py] and its subclasses, [volume.py],
    [image.py], [lvm.py] and the multipath, iSCSI and mount code, mostly glue over
    devices and commands; sockets, reactors and logging.  What is left is calls of devices, processes and
    libvirt in sequence: a model of it would be a model of those. *)
From Stdlib Require Import ZArith Lia String Ascii Sorted.
From stdpp Require Import base gmap list strings.

#[global] Open Scope Z_scope.

(** ** Python text and bytes

    A Python [bytes] object is the list of its byte values, a Python [str] the
    list of its code points; both are [list Z].  Two names keep statements
    readable; they are notations, so that list lemmas apply directly. *)

Abbreviation bytes := (list Z) (only parsing).
Abbreviation text := (list Z) (only parsing).

(** [str "abc"] is the literal ["abc"] or [b"abc"] of the source. *)
Definition str (s : string) : list Z :=
  map (fun c => Z.of_N (N_of_ascii c)) (list_ascii_of_string s).

(** Length of a Python sequence as an integer. *)
Definition zlen {A} (l : list A) : Z := Z.of_nat (length l).

(** [l[i:j]] for [0 <= i <= j]: out-of-range ends are clipped, as in Python. *)
Definition slice {A} (i j : Z) (l : list A) : list A :=
  take (Z.to_nat (j - i)) (drop (Z.to_nat i) l).

(** [n * b"\x.."] *)
Definition zrepeat {A} (n : Z) (x : A) : list A := replicate (Z.to_nat n) x.

(** ** Exceptions as values *)

Inductive res (E A : Type) : Type :=
| Ok (a : A)
| Raise (e : E).
Arguments Ok {E A} a.
Arguments Raise {E A} e.

#[export] Instance res_ret {E} : MRet (res E) := fun A a => Ok a.
#[export] Instance res_bind {E} : MBind (res E) := fun A B f m =>
  match m with Ok a => f a | Raise e => Raise e end.

Definition is_ok {E A} (r : res E A) : bool :=
  match r with Ok _ => true | Raise _ => false end.

(** ** A state and exception monad

    A Python operation that mutates an object of type [S] and may raise: the
    mutations done before an exception persist. *)

Definition M (S E A : Type) : Type := S → S * res E A.

#[export] Instance M_ret {S E} : MRet (M S E) := fun A a s => (s, Ok a).
#[export] Instance M_bind {S E} : MBind (M S E) := fun A B f m s =>
  match m s with
  | (s', Ok a) => f a s'
  | (s', Raise e) => (s', Raise e)
  end.

Definition get {S E} : M S E S := fun s => (s, Ok s).
Definition put {S E} (s : S) : M S E unit := fun _ => (s, Ok tt).
Definition modify {S E} (f : S → S) : M S E unit := fun s => (f s, Ok tt).
Definition raise {S E A} (e : E) : M S E A := fun s => (s, Raise e).
Definition lift {S E A} (r : res E A) : M S E A := fun s => (s, r).

(** [try: m except e: h e] *)
Definition try_except {S E A} (m : M S E A) (h : E → M S E A) : M S E A := fun s =>
  match m s with
  | (s', Ok a) => (s', Ok a)
  | (s', Raise e) => h e s'
  end.

(** [for x in l: f x] *)
Fixpoint for_each {S E A} (l : list A) (f : A → M S E unit) : M S E unit :=
  match l with
  | [] => mret ()
  | x :: l' => f x ;; for_each l' f
  end.

(** ** Python string and bytes operations *)

(** [l.startswith(p)] *)
Fixpoint prefixb (p l : list Z) : bool :=
  match p, l with
  | [], _ => true
  | a :: p', b :: l' => (a =? b) && prefixb p' l'
  | _ :: _, [] => false
  end.

(** Offset of the first occurrence of [sub] in [l]. *)
Fixpoint search (sub l : list Z) : option nat :=
  if prefixb sub l then Some 0%nat
  else match l with
       | [] => None
       | _ :: l' => S <$> search sub l'
       end.

(** [l.find(sub, start)] for [0 <= start]. *)
Definition py_find (l sub : list Z) (start : Z) : Z :=
  if zlen l <? start then -1
  else match search sub (drop (Z.to_nat start) l) with
       | Some i => start + Z.of_nat i
       | None => -1
       end.

(** Stripping the characters that satisfy [p] at either end. *)
Fixpoint lstripp (p : Z → bool) (l : list Z) : list Z :=
  match l with
  | [] => []
  | c :: l' => if p c then lstripp p l' else l
  end.

Fixpoint rstripp (p : Z → bool) (l : list Z) : list Z :=
  match l with
  | [] => []
  | c :: l' => match rstripp p l' with
               | [] => if p c then [] else [c]
               | r => c :: r
               end
  end.

Definition stripp (p : Z → bool) (l : list Z) : list Z := rstripp p (lstripp p l).

(** [b.rstrip(b"\0")] *)
Definition rstrip_nul : list Z → list Z := rstripp (Z.eqb 0).

(** ASCII white space: what [bytes.strip] and [int(bytes)] skip. *)
Definition is_space_b (c : Z) : bool := (c =? 32) || ((9 <=? c) && (c <=? 13)).

(** [str.isspace] of one code point. *)
Definition is_space_u (c : Z) : bool :=
  is_space_b c || ((28 <=? c) && (c <=? 31)) || (c =? 133) || (c =? 160)
  || (c =? 5760) || ((8192 <=? c) && (c <=? 8202)) || (c =? 8232) || (c =? 8233)
  || (c =? 8239) || (c =? 8287) || (c =? 12288).

Definition is_digit (c : Z) : bool := (48 <=? c) && (c <=? 57).

Definition is_ascii (c : Z) : bool := (0 <=? c) && (c <? 128).

(** ** Integers in decimal: [int(b)] and ["%0*d"] *)

(** The digits after the first one: single underscores may separate digits. *)
Fixpoint int_digits (acc : Z) (under : bool) (l : list Z) : option Z :=
  match l with
  | [] => if under then None else Some acc
  | c :: l' =>
      if is_digit c then int_digits (10 * acc + (c - 48)) false l'
      else if (c =? 95) && negb under then int_digits acc true l'
      else None
  end.

Definition int_unsigned (l : list Z) : option Z :=
  match l with
  | c :: l' => if is_digit c then int_digits (c - 48) false l' else None
  | [] => None
  end.

Definition int_signed (l : list Z) : option Z :=
  match l with
  | c :: l' =>
      if c =? 45 then Z.opp <$> int_unsigned l'
      else if c =? 43 then int_unsigned l'
      else int_unsigned l
  | [] => None
  end.

(** [int(b)] of a bytes object: [None] is ValueError. *)
Definition py_int (l : list Z) : option Z := int_signed (stripp is_space_b l).

(** [int(s)] of a str with ASCII digits: [None] is ValueError. *)
Definition py_int_str (l : list Z) : option Z := int_signed (stripp is_space_u l).

(** Decimal digits of a non-negative number; [fuel] bounds their count. *)
Fixpoint dec_digits (fuel : nat) (n : Z) : list Z :=
  match fuel with
  | O => []
  | S fuel' =>
      if n <? 10 then [48 + n]
      else dec_digits fuel' (n / 10) ++ [48 + n mod 10]
  end.

(** A number [n] has at most [log2 n + 1] decimal digits. *)
Definition dec (n : Z) : list Z := dec_digits (S (Z.to_nat (Z.log2 n))) n.

(** Zero padding on the left. *)
Definition zpad (w : Z) (l : list Z) : list Z := zrepeat (w - zlen l) 48 ++ l.

(** ["%0wd" % n]: the sign counts towards the width. *)
Definition fmt_d (w n : Z) : list Z :=
  if n <? 0 then 45 :: zpad (w - 1) (dec (- n)) else zpad w (dec n).

(** ["%d" % n] and [str(n)] *)
Definition str_d (n : Z) : list Z := if n <? 0 then 45 :: dec (- n) else dec n.

(** ** Proof automation *)

Create HintDb vdsm.
Create Rewrite HintDb zlen.

(** Case analysis on the boolean tests and matches of a translated body. *)
Ltac step_case :=
  match goal with
  | |- context [if ?b then _ else _] => destruct b eqn:?
  | |- context [match ?x with _ => _ end] => destruct x eqn:?
  | H : context [if ?b then _ else _] |- _ => destruct b eqn:?
  | H : context [match ?x with _ => _ end] |- _ => destruct x eqn:?
  end; simplify_eq/=.

(** Turn the boolean comparisons of the context into propositions. *)
Ltac boolp :=
  repeat match goal with
  | H : (_ && _) = true |- _ => apply andb_true_iff in H as [? ?]
  | H : (_ && _) = false |- _ => apply andb_false_iff in H
  | H : (_ || _) = true |- _ => apply orb_true_iff in H
  | H : (_ || _) = false |- _ => apply orb_false_iff in H as [? ?]
  | H : negb _ = true |- _ => apply negb_true_iff in H
  | H : negb _ = false |- _ => apply negb_false_iff in H
  | H : (_ <? _) = true |- _ => apply Z.ltb_lt in H
  | H : (_ <? _) = false |- _ => apply Z.ltb_ge in H
  | H : (_ <=? _) = true |- _ => apply Z.leb_le in H
  | H : (_ <=? _) = false |- _ => apply Z.leb_gt in H
  | H : (_ =? _) = true |- _ => apply Z.eqb_eq in H
  | H : (_ =? _) = false |- _ => apply Z.eqb_neq in H
  | H : bool_decide _ = true |- _ => apply bool_decide_eq_true_1 in H
  | H : bool_decide _ = false |- _ => apply bool_decide_eq_false_1 in H
  end.

(** One step of the monadic code in a hypothesis or in the goal. *)
Ltac munfold H := cbv beta iota zeta delta [mbind M_bind res_bind lift raise mret M_ret res_ret] in H.
Ltac munfold_goal := cbv beta iota zeta delta [mbind M_bind res_bind lift raise mret M_ret res_ret].

(** Linear arithmetic with division and modulo by constants. *)
Ltac divlia := Z.to_euclidean_division_equations; lia.

(** ** Lists and slices *)

Section Lists.
  Context {A : Type}.
  Implicit Types l k : list A.

Lemma zlen_app l k : zlen (l ++ k) = zlen l + zlen k.
Proof. unfold zlen. rewrite length_app. lia. Qed.

Lemma zlen_nonneg l : 0 <= zlen l.
Proof. unfold zlen. lia. Qed.

Lemma zlen_cons x l : zlen (x :: l) = 1 + zlen l.
Proof. unfold zlen. simpl. lia. Qed.

Lemma zlen_nil : zlen (@nil A) = 0.
Proof. done. Qed.

Lemma zlen_zrepeat n (x : A) : zlen (zrepeat n x) = Z.max 0 n.
Proof. unfold zlen, zrepeat. rewrite length_replicate. lia. Qed.

Lemma zlen_slice i j l :
    0 <= i <= j → j <= zlen l → zlen (slice i j l) = j - i.
Proof.
    unfold zlen, slice. intros ??. rewrite length_take, length_drop. lia.
Qed.

Lemma slice_app_l i j l k : 0 <= i → j <= zlen l → slice i j (l ++ k) = slice i j l.
Proof.
    intros ? Hj. unfold slice, zlen in *.
    destruct (decide (i <= zlen l)) as [Hi|Hi]; unfold zlen in Hi.
    - rewrite drop_app_le by lia. rewrite take_app_le; [done|].
      rewrite length_drop. lia.
    - replace (Z.to_nat (j - i)) with 0%nat by lia. done.
Qed.

Lemma slice_app_r i j l k :
    zlen l <= i → slice i j (l ++ k) = slice (i - zlen l) (j - zlen l) k.
Proof.
    intros Hi. unfold slice, zlen in *. rewrite drop_app_ge by lia.
    f_equal; [lia|f_equal; lia].
Qed.

Lemma slice_full l j : zlen l = j → slice 0 j l = l.
Proof.
    intros <-. unfold slice, zlen. simpl. rewrite drop_0.
    apply take_ge. lia.
Qed.

Lemma zrepeat_S n (x : A) : 0 <= n → zrepeat (1 + n) x = x :: zrepeat n x.
Proof.
    intros. unfold zrepeat. replace (Z.to_nat (1 + n)) with (S (Z.to_nat n)) by lia. done.
Qed.

Lemma Forall_zrepeat (P : A → Prop) n x : P x → Forall P (zrepeat n x).
Proof. intros. by apply Forall_replicate. Qed.
End Lists.

#[export] Hint Rewrite @zlen_app @zlen_cons @zlen_nil @zlen_zrepeat : zlen.

(** Lengths of concatenations, by rewriting and linear arithmetic. *)
Ltac zlen_solve := autorewrite with zlen in *; try lia.

(** ** Searching *)

Lemma prefixb_app p l : prefixb p (p ++ l) = true.
Proof. induction p; simpl; [done|]. by rewrite Z.eqb_refl. Qed.

Lemma prefixb_true p l : prefixb p l = true ↔ ∃ k, l = p ++ k.
Proof.
  split.
  - revert l. induction p as [|a p IH]; intros [|b l]; simpl; try naive_solver.
    intros ?. boolp. subst. destruct (IH l) as [k ->]; [done|]. by exists k.
  - intros [k ->]. apply prefixb_app.
Qed.

Lemma search_Some sub l i :
  search sub l = Some i →
  (∃ k, drop i l = sub ++ k) ∧ ∀ j, (j < i)%nat → prefixb sub (drop j l) = false.
Proof.
  revert i. induction l as [|x l IH]; intros i; cbn -[prefixb].
  - destruct (prefixb sub []) eqn:E; [|done]. intros [= <-]. split; [|lia].
    apply prefixb_true in E as [k Hk]. by exists k.
  - destruct (prefixb sub (x :: l)) eqn:E.
    + intros [= <-]. split; [|lia]. by apply prefixb_true in E.
    + destruct (search sub l) as [m|]; [|done]. intros [= <-].
      destruct (IH m eq_refl) as [Hk Hj]. split; [done|].
      intros [|j] ?; [done|]. apply Hj. lia.
Qed.

Lemma search_None sub l j :
  search sub l = None → prefixb sub (drop j l) = false.
Proof.
  revert j. induction l as [|x l IH]; intros j; cbn -[prefixb].
  - destruct (prefixb sub []) eqn:E; [done|]. intros _. by rewrite drop_nil.
  - destruct (prefixb sub (x :: l)) eqn:E; [done|].
    destruct (search sub l) eqn:E'; [done|]. intros _.
    destruct j; [done|]. by apply IH.
Qed.

(** A first occurrence is characterised by its two properties. *)
Lemma search_first sub l i :
  prefixb sub (drop i l) = true →
  (∀ j, (j < i)%nat → prefixb sub (drop j l) = false) →
  search sub l = Some i.
Proof.
  intros Hi Hlt. destruct (search sub l) as [m|] eqn:E.
  - apply search_Some in E as [[k Hk] Hm]. f_equal.
    destruct (lt_eq_lt_dec m i) as [[?|?]|?]; [|done|].
    + specialize (Hlt m ltac:(lia)). rewrite Hk, prefixb_app in Hlt. done.
    + specialize (Hm i ltac:(lia)). congruence.
  - rewrite (search_None _ _ i E) in Hi. done.
Qed.

Lemma search_absent sub l :
  sub ≠ [] → (∀ j, (j < length l)%nat → prefixb sub (drop j l) = false) →
  search sub l = None.
Proof.
  intros Hne Hall. destruct (search sub l) as [m|] eqn:E; [|done].
  apply search_Some in E as [[k Hk] _].
  destruct (decide (m < length l)%nat) as [Hlt|Hge].
  - specialize (Hall m Hlt). rewrite Hk, prefixb_app in Hall. done.
  - rewrite drop_ge in Hk by lia. destruct sub; done.
Qed.

(** ** Stripping *)

Lemma rstripp_id p l : Forall (fun c => p c = false) l → rstripp p l = l.
Proof.
  induction 1 as [|c l Hc Hl IH]; simpl; [done|]. rewrite IH.
  destruct l; [by rewrite Hc|done].
Qed.

Lemma stripp_id p l : Forall (fun c => p c = false) l → stripp p l = l.
Proof.
  intros H. unfold stripp. replace (lstripp p l) with l; [by apply rstripp_id|].
  destruct H as [|c l Hc ?]; simpl; [done|]. by rewrite Hc.
Qed.

(** Trailing characters to strip disappear when what precedes has none at its end. *)
Lemma rstripp_replicate p c n : p c = true → rstripp p (replicate n c) = [].
Proof. intros Hc. induction n as [|n IH]; simpl; [done|]. by rewrite IH, Hc. Qed.

Lemma rstripp_app_replicate p c n l :
  p c = true → Forall (fun c => p c = false) l →
  rstripp p (l ++ replicate n c) = l.
Proof.
  intros Hc. induction 1 as [|d l Hd Hl IH]; simpl.
  - by apply rstripp_replicate.
  - rewrite IH. destruct l; [by rewrite Hd|done].
Qed.

(** ** Decimal round trips *)

Definition dval (acc : Z) (l : list Z) : Z :=
  foldl (fun a c => 10 * a + (c - 48)) acc l.

Lemma dval_app acc l k : dval acc (l ++ k) = dval (dval acc l) k.
Proof. unfold dval. apply foldl_app. Qed.

Lemma dval_zeros n : dval 0 (replicate n 48) = 0.
Proof. induction n; simpl; [done|]. unfold dval in *. simpl. done. Qed.

Lemma int_digits_all acc l :
  Forall (fun c => is_digit c = true) l → int_digits acc false l = Some (dval acc l).
Proof.
  intros H. revert acc. induction H as [|c l Hc Hl IH]; intros acc; simpl; [done|].
  rewrite Hc. by rewrite IH.
Qed.

Lemma int_unsigned_all l :
  l ≠ [] → Forall (fun c => is_digit c = true) l → int_unsigned l = Some (dval 0 l).
Proof.
  intros Hne H. destruct H as [|c l Hc Hl]; [done|]. simpl. rewrite Hc.
  by rewrite int_digits_all.
Qed.

Lemma is_digit_not_space c : is_digit c = true → is_space_b c = false ∧ is_space_u c = false.
Proof.
  unfold is_digit, is_space_u, is_space_b. intros. boolp.
  rewrite !orb_false_iff, !andb_false_iff, !Z.eqb_neq, !Z.leb_gt. lia.
Qed.

Lemma int_signed_all l :
  l ≠ [] → Forall (fun c => is_digit c = true) l → int_signed l = Some (dval 0 l).
Proof.
  intros Hne H. pose proof (int_unsigned_all l Hne H) as Hu.
  destruct H as [|c l Hc Hl]; [done|]. simpl in *. unfold is_digit in Hc. boolp.
  destruct (Z.eqb_spec c 45); [lia|]. destruct (Z.eqb_spec c 43); [lia|]. done.
Qed.

Lemma py_int_all l :
  l ≠ [] → Forall (fun c => is_digit c = true) l → py_int l = Some (dval 0 l).
Proof.
  intros Hne H. unfold py_int. rewrite stripp_id; [by apply int_signed_all|].
  eapply Forall_impl; [exact H|]. intros c Hc. by apply is_digit_not_space.
Qed.

Lemma py_int_str_all l :
  l ≠ [] → Forall (fun c => is_digit c = true) l → py_int_str l = Some (dval 0 l).
Proof.
  intros Hne H. unfold py_int_str. rewrite stripp_id; [by apply int_signed_all|].
  eapply Forall_impl; [exact H|]. intros c Hc. by apply is_digit_not_space.
Qed.

Lemma dec_digits_digits fuel n :
  0 <= n → Forall (fun c => is_digit c = true) (dec_digits fuel n).
Proof.
  revert n. induction fuel as [|fuel IH]; intros n Hn; simpl; [constructor|].
  destruct (Z.ltb_spec n 10).
  - constructor; [|done]. unfold is_digit. apply andb_true_iff. rewrite !Z.leb_le. lia.
  - apply Forall_app. split; [apply IH; apply Z.div_pos; lia|].
    constructor; [|done]. unfold is_digit. apply andb_true_iff. rewrite !Z.leb_le.
    pose proof (Z.mod_pos_bound n 10). lia.
Qed.

Lemma dec_digits_val fuel n :
  0 <= n < 2 ^ Z.of_nat fuel → (0 < fuel)%nat → dval 0 (dec_digits fuel n) = n.
Proof.
  revert n. induction fuel as [|fuel IH]; intros n Hn Hf; [lia|]. cbn [dec_digits].
  destruct (Z.ltb_spec n 10).
  - unfold dval. simpl. lia.
  - assert (0 <= n / 10 < 2 ^ Z.of_nat fuel).
    { split; [apply Z.div_pos; lia|]. apply Z.div_lt_upper_bound; [lia|].
      rewrite Nat2Z.inj_succ, Z.pow_succ_r in Hn by lia. lia. }
    rewrite dval_app, IH.
    + unfold dval. simpl. pose proof (Z.div_mod n 10). lia.
    + done.
    + destruct fuel; [simpl in *; lia|lia].
Qed.

Lemma dec_digits_length fuel n w :
  0 <= n < 10 ^ Z.of_nat (S w) → zlen (dec_digits fuel n) <= Z.of_nat (S w).
Proof.
  revert n w. induction fuel as [|fuel IH]; intros n w Hn; cbn [dec_digits]; [by zlen_solve|].
  destruct (Z.ltb_spec n 10); [zlen_solve|].
  destruct w as [|w]; [simpl in Hn; lia|].
  assert (0 <= n / 10 < 10 ^ Z.of_nat (S w)) as Hdiv.
  { split; [apply Z.div_pos; lia|]. apply Z.div_lt_upper_bound; [lia|].
    rewrite (Nat2Z.inj_succ (S w)), Z.pow_succ_r in Hn by lia. lia. }
  specialize (IH (n / 10) w Hdiv). zlen_solve.
Qed.

Lemma dec_nonempty n : dec n ≠ [].
Proof.
  unfold dec. cbn [dec_digits]. destruct (n <? 10); [done|].
  intros H%app_eq_nil. naive_solver.
Qed.

Lemma dec_is_digits n : 0 <= n → Forall (fun c => is_digit c = true) (dec n).
Proof. apply dec_digits_digits. Qed.

Lemma dval_dec n : 0 <= n → dval 0 (dec n) = n.
Proof.
  intros Hn. unfold dec. apply dec_digits_val; [|lia]. split; [done|].
  destruct (decide (n = 0)) as [->|]; [by compute|].
  destruct (Z.log2_spec n) as [_ H]; [lia|].
  rewrite Nat2Z.inj_succ, Z2Nat.id by apply Z.log2_nonneg. done.
Qed.

(** [int(str(n))] *)
Lemma py_int_str_d n : 0 <= n → py_int_str (str_d n) = Some n.
Proof.
  intros Hn. unfold str_d. rewrite (proj2 (Z.ltb_ge n 0)) by done.
  rewrite py_int_str_all by (by apply dec_nonempty || by apply dec_is_digits). by rewrite dval_dec.
Qed.

Lemma str_d_digits n : 0 <= n → Forall (fun c => is_digit c = true) (str_d n).
Proof. intros Hn. unfold str_d. rewrite (proj2 (Z.ltb_ge n 0)) by done. by apply dec_is_digits. Qed.

Lemma str_d_inj m n : 0 <= m → 0 <= n → str_d m = str_d n → m = n.
Proof. intros Hm Hn E. apply py_int_str_d in Hm, Hn. congruence. Qed.

Lemma zlen_dec n w : 0 <= n < 10 ^ w → 1 <= w → zlen (dec n) <= w.
Proof.
  intros Hn Hw. unfold dec.
  replace w with (Z.of_nat (S (Z.to_nat (w - 1)))) in * by lia.
  by apply dec_digits_length.
Qed.

Lemma zpad_digits w l :
  Forall (fun c => is_digit c = true) l → Forall (fun c => is_digit c = true) (zpad w l).
Proof. intros. apply Forall_app. split; [|done]. by apply Forall_zrepeat. Qed.

Lemma dval_zpad w l : dval 0 (zpad w l) = dval 0 l.
Proof. unfold zpad, zrepeat. by rewrite dval_app, dval_zeros. Qed.

Lemma zlen_zpad w l : zlen l <= w → zlen (zpad w l) = w.
Proof. unfold zpad. intros. zlen_solve. Qed.

Lemma zlen_fmt_d w n : 0 <= n < 10 ^ w → 1 <= w → zlen (fmt_d w n) = w.
Proof.
  intros ??. unfold fmt_d. destruct (Z.ltb_spec n 0); [lia|].
  apply zlen_zpad. by apply zlen_dec.
Qed.

Lemma fmt_d_digits w n : 0 <= n → Forall (fun c => is_digit c = true) (fmt_d w n).
Proof.
  intros. unfold fmt_d. destruct (Z.ltb_spec n 0); [lia|].
  by apply zpad_digits, dec_is_digits.
Qed.

(** [int("%0wd" % n) == n] *)
Lemma py_int_fmt_d w n : 0 <= n → py_int (fmt_d w n) = Some n.
Proof.
  intros Hn. rewrite py_int_all; [| |by apply fmt_d_digits].
  - unfold fmt_d. destruct (Z.ltb_spec n 0); [lia|]. by rewrite dval_zpad, dval_dec.
  - unfold fmt_d. destruct (Z.ltb_spec n 0); [lia|]. unfold zpad.
    intros [_ Hd]%app_eq_nil. by apply dec_nonempty in Hd.
Qed.

(** ** Codecs *)

(** [s.encode("ascii")]: [None] is UnicodeEncodeError. *)
Definition encode_ascii (s : text) : option bytes :=
  if forallb is_ascii s then Some s else None.

(** [b.decode("ascii")]: [None] is UnicodeDecodeError. *)
Definition decode_ascii (b : bytes) : option text :=
  if forallb is_ascii b then Some b else None.

Definition is_surrogate (c : Z) : bool := (55296 <=? c) && (c <=? 57343).

(** UTF-8 of one code point; surrogates cannot be encoded. *)
Definition utf8_encode1 (c : Z) : option bytes :=
  if (c <? 0) || (1114111 <? c) || is_surrogate c then None
  else if c <? 128 then Some [c]
  else if c <? 2048 then Some [192 + c / 64; 128 + c mod 64]
  else if c <? 65536 then
    Some [224 + c / 4096; 128 + c / 64 mod 64; 128 + c mod 64]
  else
    Some [240 + c / 262144; 128 + c / 4096 mod 64; 128 + c / 64 mod 64; 128 + c mod 64].

(** [s.encode("utf-8")]: [None] is UnicodeEncodeError. *)
Fixpoint utf8_encode (s : text) : option bytes :=
  match s with
  | [] => Some []
  | c :: s' => b ← utf8_encode1 c; r ← utf8_encode s'; Some (b ++ r)
  end.

Definition is_cont (b : Z) : bool := (128 <=? b) && (b <? 192).

(** [b.decode("utf-8")], strict: over-long forms, surrogates and truncated
    sequences are refused; [None] is UnicodeDecodeError. *)
Fixpoint utf8_decode (b : bytes) : option text :=
  match b with
  | [] => Some []
  | b0 :: t0 =>
      if (0 <=? b0) && (b0 <? 128) then cons b0 <$> utf8_decode t0
      else if (194 <=? b0) && (b0 <? 224) then
        match t0 with
        | b1 :: t1 =>
            if is_cont b1 then
              cons ((b0 - 192) * 64 + (b1 - 128)) <$> utf8_decode t1
            else None
        | _ => None
        end
      else if (224 <=? b0) && (b0 <? 240) then
        match t0 with
        | b1 :: b2 :: t2 =>
            let c := (b0 - 224) * 4096 + (b1 - 128) * 64 + (b2 - 128) in
            if is_cont b1 && is_cont b2 && (2048 <=? c) && negb (is_surrogate c) then
              cons c <$> utf8_decode t2
            else None
        | _ => None
        end
      else if (240 <=? b0) && (b0 <? 245) then
        match t0 with
        | b1 :: b2 :: b3 :: t3 =>
            let c := (b0 - 240) * 262144 + (b1 - 128) * 4096
                     + (b2 - 128) * 64 + (b3 - 128) in
            if is_cont b1 && is_cont b2 && is_cont b3
               && (65536 <=? c) && (c <=? 1114111) then
              cons c <$> utf8_decode t3
            else None
        | _ => None
        end
      else None
  end.

(** ** Adjacent slices *)

Lemma slice_app_slice {A} (l : list A) i j k :
  0 <= i <= j → j <= k → slice i j l ++ slice j k l = slice i k l.
Proof.
  intros ??. unfold slice. replace (Z.to_nat j) with (Z.to_nat i + Z.to_nat (j - i))%nat by lia.
  rewrite <- drop_drop. replace (Z.to_nat (k - i)) with (Z.to_nat (j - i) + Z.to_nat (k - j))%nat by lia.
  by rewrite take_take_drop.
Qed.

Lemma slice_past_end {A} (l : list A) i j : zlen l <= i → slice i j l = [].
Proof. intros. unfold slice, zlen in *. rewrite drop_ge by lia. apply take_nil. Qed.

(** ** Anonymous memory maps

    [mmap.mmap(-1, size)] with the seek-then-read and seek-then-write accesses
    the storage code makes; [None] is ValueError. *)

(** [buf.seek(off); buf.read(n)] *)
Definition mm_read (buf : bytes) (off n : Z) : option bytes :=
  if (off <? 0) || (zlen buf <? off) then None else Some (slice off (off + n) buf).

Definition splice {A} (off : Z) (data l : list A) : list A :=
  take (Z.to_nat off) l ++ data ++ drop (Z.to_nat off + length data) l.

(** [buf.seek(off); buf.write(data)] *)
Definition mm_write (buf : bytes) (off : Z) (data : bytes) : option bytes :=
  if (off <? 0) || (zlen buf <? off) then None
  else if zlen buf <? off + zlen data then None
  else Some (splice off data buf).

(** ** Reading fields of packed structures *)

Lemma slice_skip {A} n i j (l k : list A) :
  zlen l = n → n <= i → slice i j (l ++ k) = slice (i - n) (j - n) k.
Proof. intros <- ?. by apply slice_app_r. Qed.

Lemma slice_head {A} n (l k : list A) : zlen l = n → slice 0 n (l ++ k) = l.
Proof.
  intros <-. rewrite slice_app_l by lia. by apply slice_full.
Qed.

(** Evaluate the differences of numerals that [slice_skip] leaves. *)
Ltac zconst :=
  repeat match goal with
  | |- context [Zpos ?a - Zpos ?b] =>
      let r := eval vm_compute in (Zpos a - Zpos b) in change (Zpos a - Zpos b) with r
  | |- context [Z0 - ?b] =>
      let r := eval vm_compute in (Z0 - b) in change (Z0 - b) with r
  end.

(** [skip_field n tac]: drop a leading field of [n] bytes, [tac] proving its
    length. *)
Tactic Notation "skip_field" constr(n) "by" tactic3(tac) :=
  erewrite (slice_skip n) by first [lia | tac]; zconst.

Lemma splice_at {A} (l m k data : list A) off :
  zlen l = off → zlen m = zlen data → splice off data (l ++ m ++ k) = l ++ data ++ k.
Proof.
  unfold splice, zlen. intros <- Hm. rewrite Nat2Z.id, take_app_length. f_equal. f_equal.
  rewrite drop_app_ge by lia. rewrite drop_app_ge by lia.
  replace (_ - _ - _)%nat with 0%nat by lia. apply drop_0.
Qed.

Lemma zlen_splice {A} off (data l : list A) :
  0 <= off → off + zlen data <= zlen l → zlen (splice off data l) = zlen l.
Proof.
  unfold splice, zlen. intros ??. rewrite !length_app, length_take, length_drop. lia.
Qed.

(** ** Sequences of equally long chunks *)

Section Chunks.
  Context {A : Type}.
  Implicit Types (ls : list (list A)) (n i : nat).

Lemma concat_drop n i ls :
    Forall (fun c => length c = n) ls → drop (i * n) (concat ls) = concat (drop i ls).
Proof.
    intros H. revert i. induction H as [|c ls Hc Hls IH]; intros [|i]; simpl; try done.
    - apply drop_nil.
    - rewrite drop_app_ge by lia. rewrite <- IH. f_equal. lia.
Qed.

Lemma concat_take n i ls :
    Forall (fun c => length c = n) ls → take (i * n) (concat ls) = concat (take i ls).
Proof.
    intros H. revert i. induction H as [|c ls Hc Hls IH]; intros [|i]; simpl; try done.
    - apply take_nil.
    - rewrite take_app_ge by lia. rewrite <- IH. do 2 f_equal. lia.
Qed.

Lemma length_concat_chunks n ls :
    Forall (fun c => length c = n) ls → length (concat ls) = (length ls * n)%nat.
Proof. induction 1 as [|c ls Hc Hls IH]; simpl; [done|]. rewrite length_app. lia. Qed.

Lemma drop_S_lookup i ls c : ls !! i = Some c → drop i ls = c :: drop (S i) ls.
Proof.
    revert i. induction ls as [|x ls IH]; intros [|i] ?; simplify_eq/=; [done|].
    by apply IH.
Qed.

  (** Replacing one chunk in the concatenation replaces it in the sequence. *)
Lemma splice_chunk n i ls c :
    Forall (fun c => length c = n) ls → (i < length ls)%nat → length c = n →
    splice (Z.of_nat (i * n)) c (concat ls) = concat (<[i:=c]> ls).
Proof.
    intros Hls Hi Hc. unfold splice.
    replace (Z.to_nat (Z.of_nat (i * n)) + length c)%nat with (S i * n)%nat by lia.
    rewrite Nat2Z.id, (concat_drop n), (concat_take n) by done.
    rewrite insert_take_drop by done. rewrite concat_app. done.
Qed.
End Chunks.

(** Searching a chunk sequence: when every occurrence of [sub] starts a chunk
    that satisfies [Q], the first occurrence is the first such chunk. *)
Lemma search_chunks (n : nat) (sub : list Z) (ls : list (list Z)) (Q : list Z → Prop)
    `{!∀ c, Decision (Q c)} :
  (0 < n)%nat → sub ≠ [] →
  Forall (fun c => length c = n) ls →
  (∀ j, prefixb sub (drop j (concat ls)) = true →
        ∃ i c, j = (i * n)%nat ∧ ls !! i = Some c ∧ Q c) →
  (∀ i c, ls !! i = Some c → Q c → prefixb sub (drop (i * n) (concat ls)) = true) →
  search sub (concat ls) = (fun p => (fst p * n)%nat) <$> list_find Q ls.
Proof.
  intros Hn Hsub Hls Hocc Hpre.
  destruct (list_find Q ls) as [[i c]|] eqn:E; simpl.
  - apply list_find_Some in E as (Hi & HQ & Hfirst). apply search_first; [by eapply Hpre|].
    intros j Hj. destruct (prefixb _ _) eqn:Ep; [|done].
    apply Hocc in Ep as (i' & c' & -> & Hi' & HQ'). destruct (Hfirst i' c'); [done| |done].
    nia.
  - apply list_find_None in E. apply search_absent; [done|]. intros j Hj.
    destruct (prefixb _ _) eqn:Ep; [|done]. exfalso.
    apply Hocc in Ep as (i & c & -> & Hi & HQ).
    rewrite Forall_lookup in E. by eapply E.
Qed.

Lemma list_find_ext_in {A} (P Q : A → Prop) `{!∀ x, Decision (P x), !∀ x, Decision (Q x)} l :
  Forall (fun x => P x ↔ Q x) l → list_find P l = list_find Q l.
Proof.
  induction 1 as [|x l Hx Hl IH]; simpl; [done|]. rewrite IH.
  destruct (decide (P x)), (decide (Q x)); naive_solver.
Qed.

(** ** Element-wise view of slices and splices *)

Lemma lookup_slice {A} i j (l : list A) (k : nat) :
  0 <= i → slice i j l !! k = if decide (Z.of_nat k < j - i) then l !! (Z.to_nat i + k)%nat else None.
Proof.
  intros Hi. unfold slice. destruct (decide _).
  - rewrite lookup_take_lt by lia. by rewrite lookup_drop.
  - rewrite lookup_take_ge by lia. done.
Qed.

Lemma lookup_splice {A} off (data l : list A) (k : nat) :
  0 <= off → off + zlen data <= zlen l →
  splice off data l !! k =
    if decide (off <= Z.of_nat k < off + zlen data) then data !! (k - Z.to_nat off)%nat else l !! k.
Proof.
  unfold zlen. intros ??. unfold splice.
  destruct (decide (Z.of_nat k < off)).
  { rewrite lookup_app_l by (rewrite length_take; lia). rewrite lookup_take_lt by lia.
    by rewrite decide_False by lia. }
  rewrite lookup_app_r by (rewrite length_take; lia). rewrite length_take.
  replace (k - _ `min` _)%nat with (k - Z.to_nat off)%nat by lia.
  destruct (decide _) as [|].
  - by rewrite lookup_app_l by lia.
  - rewrite lookup_app_r by lia. rewrite lookup_drop. f_equal. lia.
Qed.

(** Element-wise proof of equalities between slices and splices; every side
    condition is linear arithmetic once lengths are known. *)
Ltac splice_eq :=
  apply list_eq; intros ?k;
  repeat first
    [ rewrite lookup_slice by lia
    | rewrite lookup_splice by (first [lia | autorewrite with zlen; lia]) ];
  repeat case_decide; try lia; try done;
  match goal with |- _ !! ?a = _ !! ?b => replace a with b by lia; done end.

(** Writing at [off] does not change a disjoint slice. *)
Lemma slice_splice_disjoint {A} i j off (data l : list A) :
  0 <= i → 0 <= off → off + zlen data <= zlen l → j <= off ∨ off + zlen data <= i →
  slice i j (splice off data l) = slice i j l.
Proof. intros. splice_eq. Qed.

(** Writing inside a slice is writing in the slice. *)
Lemma slice_splice_inside {A} i j off (data l : list A) :
  0 <= i <= off → off + zlen data <= j → j <= zlen l →
  slice i j (splice off data l) = splice (off - i) data (slice i j l).
Proof.
  intros. pose proof (zlen_nonneg data).
  assert (zlen (slice i j l) = j - i) by (apply zlen_slice; lia). splice_eq.
Qed.

(** Writing a block copied from [l] with a change at [off] is making the change. *)
Lemma splice_block {A} bs n off (data l : list A) :
  0 <= bs → bs <= off → off + zlen data <= bs + n → bs + n <= zlen l →
  splice bs (splice (off - bs) data (slice bs (bs + n) l)) l = splice off data l.
Proof.
  intros. pose proof (zlen_nonneg data).
  assert (zlen (slice bs (bs + n) l) = n) as Hb by (rewrite zlen_slice; lia).
  assert (zlen (splice (off - bs) data (slice bs (bs + n) l)) = n) as Hs.
  { rewrite zlen_splice; lia. }
  splice_eq.
Qed.

Lemma mm_read_ok buf off n :
  0 <= off <= zlen buf → mm_read buf off n = Some (slice off (off + n) buf).
Proof.
  intros. unfold mm_read. destruct (Z.ltb_spec off 0); [lia|].
  destruct (Z.ltb_spec (zlen buf) off); [lia|]. done.
Qed.

Lemma mm_write_ok buf off data :
  0 <= off → off + zlen data <= zlen buf → mm_write buf off data = Some (splice off data buf).
Proof.
  intros. pose proof (zlen_nonneg data). unfold mm_write.
  destruct (Z.ltb_spec off 0); [lia|]. destruct (Z.ltb_spec (zlen buf) off); [lia|]. simpl.
  destruct (Z.ltb_spec (zlen buf) (off + zlen data)); [lia|]. done.
Qed.

Lemma utf8_encode_ascii s : Forall (fun c => 0 <= c < 128) s → utf8_encode s = Some s.
Proof.
  induction 1 as [|c s Hc Hs IH]; [done|]. cbn [utf8_encode]. rewrite IH.
  unfold utf8_encode1, is_surrogate.
  destruct (Z.ltb_spec c 0); [lia|]. destruct (Z.ltb_spec 1114111 c); [lia|].
  destruct (Z.leb_spec 55296 c); [lia|]. destruct (Z.ltb_spec c 128); [done|lia].
Qed.

Lemma utf8_decode_ascii s : Forall (fun c => 0 <= c < 128) s → utf8_decode s = Some s.
Proof.
  induction 1 as [|c s Hc Hs IH]; [done|]. cbn [utf8_decode]. rewrite IH.
  destruct (Z.leb_spec 0 c); [|lia]. destruct (Z.ltb_spec c 128); [done|lia].
Qed.

Lemma utf8_decode_nil b : utf8_decode b = Some [] → b = [].
Proof.
  destruct b as [|b0 t]; [done|]. cbn [utf8_decode]. intros H. exfalso.
  repeat (step_case; try done);
    match goal with H : _ <$> _ = Some [] |- _ => apply fmap_Some in H as (? & _ & ?); done end.
Qed.

(** ** Ordering and sorting *)

(** [a < b] of two str objects: by code points, a proper prefix first. *)
Fixpoint text_ltb (a b : list Z) : bool :=
  match a, b with
  | _, [] => false
  | [], _ :: _ => true
  | x :: a', y :: b' => (x <? y) || ((x =? y) && text_ltb a' b')
  end.

Lemma text_ltb_irrefl a : text_ltb a a = false.
Proof. induction a as [|x a IH]; [done|]. simpl. by rewrite Z.ltb_irrefl, Z.eqb_refl, IH. Qed.

Lemma text_ltb_trans a b c :
  text_ltb a b = true → text_ltb b c = true → text_ltb a c = true.
Proof.
  revert b c. induction a as [|x a IH]; intros [|y b] [|z c]; simpl; try done.
  intros H1 H2. boolp. apply orb_true_iff.
  destruct H1 as [H1|H1], H2 as [H2|H2]; boolp; [left; apply Z.ltb_lt; lia..|].
  right. subst. rewrite Z.eqb_refl. simpl. eauto.
Qed.

Lemma text_ltb_total a b : text_ltb a b = true ∨ a = b ∨ text_ltb b a = true.
Proof.
  revert b. induction a as [|x a IH]; intros [|y b]; simpl; auto.
  destruct (Z.lt_trichotomy x y) as [H|[->|H]].
  - left. by rewrite (proj2 (Z.ltb_lt _ _) H).
  - rewrite Z.ltb_irrefl, Z.eqb_refl. simpl. destruct (IH b) as [?|[->|?]]; auto.
  - do 2 right. by rewrite (proj2 (Z.ltb_lt _ _) H).
Qed.

(** [sorted(l)], which asks only for [<] and keeps the order of equals. *)
Section Sorted.
  Context {A : Type} (lt : A → A → bool).

Fixpoint insert_sorted (x : A) (l : list A) : list A :=
  match l with
  | [] => [x]
  | y :: l' => if lt y x then y :: insert_sorted x l' else x :: l
  end.

Definition py_sorted (l : list A) : list A := foldr insert_sorted [] l.

Lemma insert_sorted_Permutation x l : insert_sorted x l ≡ₚ x :: l.
Proof.
  induction l as [|y l IH]; [done|]. simpl. destruct (lt y x); [|done].
  rewrite IH. apply Permutation_swap.
Qed.

Lemma py_sorted_Permutation l : py_sorted l ≡ₚ l.
Proof.
  induction l as [|x l IH]; [done|]. simpl. rewrite insert_sorted_Permutation. by constructor.
Qed.

  Context (lt_trans : ∀ a b c, lt a b = true → lt b c = true → lt a c = true).
  Context (lt_neg_trans : ∀ a b c, lt a b = false → lt b c = false → lt a c = false).
  Context (lt_asym : ∀ a b, lt a b = true → lt b a = false).

(** No element is smaller than one before it. *)
Lemma insert_sorted_ordered x l :
  StronglySorted (fun a b => lt b a = false) l →
  StronglySorted (fun a b => lt b a = false) (insert_sorted x l).
Proof.
  induction 1 as [|y l Hl IH Hy]; simpl; [by repeat constructor|].
  destruct (lt y x) eqn:E.
  - constructor; [done|]. rewrite insert_sorted_Permutation. constructor; [by apply lt_asym|done].
  - constructor; [by constructor|]. constructor; [done|].
    eapply Forall_impl; [exact Hy|]. simpl. intros z Hz. eauto.
Qed.

Lemma py_sorted_ordered l : StronglySorted (fun a b => lt b a = false) (py_sorted l).
Proof. induction l; [constructor|]. by apply insert_sorted_ordered. Qed.
End Sorted.

(** ** One element of a list changes *)

Lemma insert_delete_perm {A} (l : list A) i x y : l !! i = Some x → <[i := y]> l ≡ₚ y :: base.delete i l.
Proof.
  revert i. induction l as [|z l IH]; intros [|i] Hi; simplify_eq/=; [done|]. rewrite IH by done. apply Permutation_swap.
Qed.
