(* ===== verification/Xlease.v ===== *)
(** * External leases: [storage/xlease.py] (data and operations) *)
From Stdlib Require Import ZArith Lia String Ascii.
From stdpp Require Import base gmap list strings.
From S2P Require Import Prelude.

(** ** Layout constants *)

Definition RESERVED_SLOTS : Z := 3.
Definition METADATA_SIZE : Z := 512.
Definition RECORD_BASE : Z := METADATA_SIZE.
Definition RECORD_SIZE : Z := 64.
Definition INDEX_SIZE : Z := 62 * 4096.
Definition MAX_RECORDS : Z := (INDEX_SIZE - METADATA_SIZE) / RECORD_SIZE.
Definition INDEX_VERSION : Z := 1.
Definition INDEX_MAGIC : Z := 303374358. (* 0x12152016 *)
Definition RECORD_TERM : Z := 10.
Definition FLAG_NONE : Z := 45.
Definition FLAG_UPDATING : Z := 117.
Definition SANLK_LEADER_MAGIC : Z := -223.

(** ** Data *)

Record IndexMetadata := mkMetadata {
  md_version : Z;
  md_lockspace : text;
  md_mtime : Z;
  md_updating : bool;
}.

Record Record_ := mkRecord {
  r_resource : text;
  r_offset : Z;
  r_updating : bool;
}.

Record LeaseInfo := mkLeaseInfo {
  li_lockspace : text;
  li_resource : text;
  li_path : text;
  li_offset : Z;
}.

Record ResourceInfo := mkResourceInfo {
  ri_lockspace : text;
  ri_resource : text;
  ri_version : Z;
}.

(** Reasons given by InvalidMetadata and InvalidRecord. *)
Inductive metadata_reason :=
| CannotUnpackMetadata
| InvalidMagic (magic : Z)
| InvalidVersion (version : bytes)
| UnsupportedVersion (version : Z)
| CannotDecodeLockspace (lockspace : bytes)
| CannotParseMtime (mtime : bytes).

Inductive record_reason :=
| CannotUnpackRecord
| CannotDecodeResource (resource : bytes)
| CannotParseOffset (offset : bytes).

(** The module's errors, [se.NoSuchLease], and the exceptions of the calls it
    makes. *)
Inductive error :=
| LeaseExists (lease_id : text)
| LeaseUpdating (lease_id : text)
| NoSpace (lease_id : text)
| InvalidRecord (reason : record_reason) (record : bytes)
| NoSuchResource (path : text) (offset : Z)
| IndexIsUpdating (metadata : IndexMetadata)
| InvalidMetadata (reason : metadata_reason) (data : bytes)
| TruncatedIndex (expected available : Z)
| NoSuchLease (lease_id : text)
| UnicodeEncodeError
| UnicodeDecodeError
| ValueError
| IndexError
| OSError
| SanlockException (errno : Z)
| OutOfFuel. (* no Python exception: a loop of the model reached its bound *)

(** A failed call as an exception. *)
Definition or_raise {A} (e : error) (o : option A) : res error A :=
  match o with Some a => Ok a | None => Raise e end.

(** ** [struct] formats *)

(** ["Ns"]: truncated, or padded with null bytes. *)
Definition pack_s (n : Z) (l : bytes) : bytes :=
  take (Z.to_nat n) l ++ zrepeat (n - zlen l) 0.

(** [">i"]: big-endian signed 32 bits. *)
Definition pack_i32_be (n : Z) : bytes :=
  [ Z.land (Z.shiftr n 24) 255; Z.land (Z.shiftr n 16) 255;
    Z.land (Z.shiftr n 8) 255; Z.land n 255 ].

Definition unpack_i32_be (l : bytes) : Z :=
  let u := foldl (fun a b => Z.lor (Z.shiftl a 8) b) 0 l in
  if u <? 2 ^ 31 then u else u - 2 ^ 32.

Definition flag_byte (updating : bool) : Z :=
  if updating then FLAG_UPDATING else FLAG_NONE.

(** [META_STRUCT.pack] *)
Definition META_STRUCT_pack (magic : Z) (version lockspace mtime : bytes)
    (updating term : Z) : bytes :=
  pack_i32_be magic ++ [0] ++ pack_s 4 version ++ [0] ++ pack_s 48 lockspace ++ [0]
  ++ pack_s 10 mtime ++ [0] ++ [updating] ++ zrepeat 440 0 ++ [term].

(** [RECORD_STRUCT.pack] *)
Definition RECORD_STRUCT_pack (resource offset : bytes) (updating reserved term : Z) : bytes :=
  pack_s 48 resource ++ [0] ++ pack_s 11 offset ++ [0] ++ [updating; reserved; term].

(** [LOOKUP_STRUCT.pack] *)
Definition LOOKUP_STRUCT_pack (resource : bytes) : bytes := pack_s 48 resource ++ [0].

(** ** IndexMetadata *)

Definition IndexMetadata_fromebytes (data : bytes) : res error IndexMetadata :=
  if negb (zlen data =? METADATA_SIZE) then
    Raise (InvalidMetadata CannotUnpackMetadata data)
  else
  let magic := unpack_i32_be (slice 0 4 data) in
  let version := slice 5 9 data in
  let lockspace := slice 10 58 data in
  let mtime := slice 59 69 data in
  let updating := slice 70 71 data in
  if negb (magic =? INDEX_MAGIC) then
    Raise (InvalidMetadata (InvalidMagic magic) data)
  else
  match py_int version with
  | None => Raise (InvalidMetadata (InvalidVersion version) data)
  | Some version =>
  if negb (version =? INDEX_VERSION) then
    Raise (InvalidMetadata (UnsupportedVersion version) data)
  else
  let lockspace := rstrip_nul lockspace in
  match decode_ascii lockspace with
  | None => Raise (InvalidMetadata (CannotDecodeLockspace lockspace) data)
  | Some lockspace =>
  match py_int mtime with
  | None => Raise (InvalidMetadata (CannotParseMtime mtime) data)
  | Some mtime =>
  let updating := bool_decide (updating = [FLAG_UPDATING]) in
  Ok (mkMetadata version lockspace mtime updating)
  end end end.

Definition IndexMetadata_bytes (md : IndexMetadata) : res error bytes :=
  lockspace ← or_raise UnicodeEncodeError (encode_ascii (md_lockspace md));
  Ok (META_STRUCT_pack INDEX_MAGIC (fmt_d 4 (md_version md)) lockspace
        (fmt_d 10 (md_mtime md)) (flag_byte (md_updating md)) RECORD_TERM).

(** ** Record *)

Definition Record_frombytes (record : bytes) : res error Record_ :=
  if negb (zlen record =? RECORD_SIZE) then
    Raise (InvalidRecord CannotUnpackRecord record)
  else
  let resource := rstrip_nul (slice 0 48 record) in
  let offset := slice 49 60 record in
  let updating := slice 61 62 record in
  match decode_ascii resource with
  | None => Raise (InvalidRecord (CannotDecodeResource resource) record)
  | Some resource =>
  let updating := bool_decide (updating = [FLAG_UPDATING]) in
  match py_int offset with
  | None => Raise (InvalidRecord (CannotParseOffset offset) record)
  | Some offset => Ok (mkRecord resource offset updating)
  end end.

Definition Record_bytes (r : Record_) : res error bytes :=
  resource ← or_raise UnicodeEncodeError (encode_ascii (r_resource r));
  Ok (RECORD_STRUCT_pack resource (fmt_d 11 (r_offset r))
        (flag_byte (r_updating r)) FLAG_NONE RECORD_TERM).

Definition EMPTY_RECORD : Record_ := mkRecord [] 0 false.

Definition lease_offset (recnum alignment : Z) : Z := (RESERVED_SLOTS + recnum) * alignment.

(** ** What the module uses of files and of sanlock

    [File] is the interface of DirectFile and InterruptibleDirectFile: a file
    object has a name and a size, reads at most [len] bytes at an offset, and
    writes a buffer at an offset.  [Sanlock] is the sanlock client: it reads
    and writes resources in the lease areas of the same volume, and reports
    failures by an error number. *)

Class File (F : Type) := {
  f_name : F → text;
  f_size : F → Z;
  f_pread : Z → Z → F → F * res error bytes;
  f_pwrite : Z → bytes → F → F * res error unit;
}.

Record sanlock_resource := mkSanlockResource {
  slr_lockspace : bytes;
  slr_resource : bytes;
  slr_version : Z;
}.

Class Sanlock (F : Type) := {
  sl_write_resource :
    bytes → bytes → text → Z → Z → Z → F → F * res Z unit;
  sl_read_resource : text → Z → Z → Z → F → res Z sanlock_resource;
}.

(** ** VolumeIndex *)

Record VolumeIndex := mkIndex {
  vi_offset : Z;
  vi_block_size : Z;
  vi_buf : bytes;
}.

Definition VolumeIndex_init (offset block_size : Z) : VolumeIndex :=
  mkIndex offset block_size (zrepeat INDEX_SIZE 0).

Definition set_buf (buf : bytes) (i : VolumeIndex) : VolumeIndex :=
  mkIndex (vi_offset i) (vi_block_size i) buf.

Definition record_offset (recnum : Z) : Z := RECORD_BASE + recnum * RECORD_SIZE.

Definition record_number (offset : Z) : Z := (offset - RECORD_BASE) / RECORD_SIZE.

Definition find_record (i : VolumeIndex) (lease_id : text) : res error Z :=
  resource ← or_raise UnicodeEncodeError (encode_ascii lease_id);
  let prefix := LOOKUP_STRUCT_pack resource in
  let offset := py_find (vi_buf i) prefix RECORD_BASE in
  if offset =? -1 then Ok (-1) else Ok (record_number offset).

Definition find_free_record (i : VolumeIndex) : res error Z :=
  empty ← Record_bytes EMPTY_RECORD;
  let offset := py_find (vi_buf i) empty RECORD_BASE in
  if offset =? -1 then Ok (-1) else Ok (record_number offset).

Definition read_record (i : VolumeIndex) (recnum : Z) : res error Record_ :=
  data ← or_raise ValueError (mm_read (vi_buf i) (record_offset recnum) RECORD_SIZE);
Record_frombytes data.

Definition write_record (i : VolumeIndex) (recnum : Z) (record : Record_) : res error VolumeIndex :=
  data ← Record_bytes record;
  buf ← or_raise ValueError (mm_write (vi_buf i) (record_offset recnum) data);
  Ok (set_buf buf i).

Definition read_metadata (i : VolumeIndex) : res error IndexMetadata :=
  data ← or_raise ValueError (mm_read (vi_buf i) 0 METADATA_SIZE);
  IndexMetadata_fromebytes data.

Definition write_metadata (i : VolumeIndex) (metadata : IndexMetadata) : res error VolumeIndex :=
  data ← IndexMetadata_bytes metadata;
  buf ← or_raise ValueError (mm_write (vi_buf i) 0 data);
  Ok (set_buf buf i).

(** ** ChangeBlock *)

Record ChangeBlock := mkBlock {
  cb_index_offset : Z;
  cb_offset : Z;
  cb_size : Z;
  cb_buf : bytes;
}.

Definition ChangeBlock_init (index_offset : Z) (index_buf : bytes) (offset size : Z) :
    res error ChangeBlock :=
  let data := slice offset (offset + size) index_buf in
  if zlen data =? size then Ok (mkBlock index_offset offset size data) else Raise IndexError.

Definition block_record_offset (b : ChangeBlock) (recnum : Z) : res error Z :=
  let offset := RECORD_BASE + recnum * RECORD_SIZE - cb_offset b in
  let last_offset := cb_size b - RECORD_SIZE in
  if (0 <=? offset) && (offset <=? last_offset) then Ok offset else Raise ValueError.

Definition block_write_record (b : ChangeBlock) (recnum : Z) (record : Record_) :
    res error ChangeBlock :=
  offset ← block_record_offset b recnum;
  data ← Record_bytes record;
  buf ← or_raise ValueError (mm_write (cb_buf b) offset data);
  Ok (mkBlock (cb_index_offset b) (cb_offset b) (cb_size b) buf).

Definition copy_record_block (i : VolumeIndex) (recnum : Z) : res error ChangeBlock :=
  let offset := record_offset recnum in
  let block_start := offset - offset mod vi_block_size i in
  ChangeBlock_init (vi_offset i) (vi_buf i) block_start (vi_block_size i).

Section Volume.
  Context {F : Type} `{!File F, !Sanlock F}.

Definition block_dump (b : ChangeBlock) : M F error unit :=
  f_pwrite (cb_index_offset b + cb_offset b) (cb_buf b).

(** [VolumeIndex.load]: the bytes read replace the head of the buffer. *)
Definition load (i : VolumeIndex) : M F error VolumeIndex :=
  data ← f_pread (vi_offset i) (zlen (vi_buf i));
  let buf := data ++ drop (length data) (vi_buf i) in
  if zlen data <? zlen (vi_buf i) then raise (TruncatedIndex (zlen (vi_buf i)) (zlen data))
  else mret (set_buf buf i).

Definition dump (i : VolumeIndex) : M F error unit := f_pwrite (vi_offset i) (vi_buf i).

(** The [updating] context manager around [body], which works on the index;
    [t0] and [t1] are the times at its two calls of [time.time()]. *)
Definition updating (lockspace : text) (t0 t1 : Z)
    (body : VolumeIndex → M F error VolumeIndex) (i : VolumeIndex) : M F error VolumeIndex :=
  i ← lift (write_metadata i (mkMetadata INDEX_VERSION lockspace t0 true));
  i ← body i;
  i ← lift (write_metadata i (mkMetadata INDEX_VERSION lockspace t1 false));
  block ← lift (ChangeBlock_init (vi_offset i) (vi_buf i) 0 (vi_block_size i));
  block_dump block;;
  mret i.

(** ** LeasesVolume *)

Record LeasesVolume := mkVolume {
  lv_file : F;
  lv_alignment : Z;
  lv_block_size : Z;
  lv_index : VolumeIndex;
  lv_md : IndexMetadata;
}.

Definition LeasesVolume_init (alignment block_size : Z) : M F error LeasesVolume :=
  let index := VolumeIndex_init alignment block_size in
  index ← load index;
  md ← lift (read_metadata index);
  if md_updating md then raise (IndexIsUpdating md)
  else fun file => (file, Ok (mkVolume file alignment block_size index md)).

Definition set_file (f : F) (v : LeasesVolume) : LeasesVolume :=
  mkVolume f (lv_alignment v) (lv_block_size v) (lv_index v) (lv_md v).

Definition set_index (i : VolumeIndex) (v : LeasesVolume) : LeasesVolume :=
  mkVolume (lv_file v) (lv_alignment v) (lv_block_size v) i (lv_md v).

(** An operation on the volume's file. *)
Definition on_file {A} (m : M F error A) : M LeasesVolume error A := fun v =>
  let '(f, r) := m (lv_file v) in (set_file f v, r).

Definition lockspace (v : LeasesVolume) : text := md_lockspace (lv_md v).

Definition lease_info (v : LeasesVolume) (lease_id : text) (offset : Z) : LeaseInfo :=
  mkLeaseInfo (lockspace v) lease_id (f_name (lv_file v)) offset.

Definition lookup_lease (lease_id : text) : M LeasesVolume error LeaseInfo := fun v => (
  recnum ← lift (find_record (lv_index v) lease_id);
  if recnum =? -1 then raise (NoSuchLease lease_id)
  else
  record ← lift (read_record (lv_index v) recnum);
  if r_updating record then raise (LeaseUpdating lease_id)
  else
  let offset := lease_offset recnum (lv_alignment v) in
  mret (lease_info v lease_id offset)) v.

(** [LeasesVolume._write_record]: the block is changed and written to storage,
    then the index. *)
Definition lv_write_record (recnum : Z) (record : Record_) : M LeasesVolume error unit := fun v => (
  block ← lift (copy_record_block (lv_index v) recnum);
  block ← lift (block_write_record block recnum record);
  on_file (block_dump block);;
  index ← lift (write_record (lv_index v) recnum record);
  modify (set_index index)) v.

(** [sanlock.write_resource] with its error number as SanlockException. *)
Definition sanlock_write (ls resource : bytes) (offset align sector : Z) : M F error unit := fun f =>
  match sl_write_resource ls resource (f_name f) offset align sector f with
  | (f', Ok _) => (f', Ok ())
  | (f', Raise errno) => (f', Raise (SanlockException errno))
  end.

Definition add (lease_id : text) : M LeasesVolume error LeaseInfo := fun v => (
  recnum ← lift (find_record (lv_index v) lease_id);
  if negb (recnum =? -1) then
    record ← lift (read_record (lv_index v) recnum);
    if r_updating record then raise (LeaseUpdating lease_id)
    else raise (LeaseExists lease_id)
  else
  recnum ← lift (find_free_record (lv_index v));
  if recnum =? -1 then raise (NoSpace lease_id)
  else
  let offset := lease_offset recnum (lv_alignment v) in
  lv_write_record recnum (mkRecord lease_id offset true);;
  ls ← lift (or_raise UnicodeEncodeError (utf8_encode (lockspace v)));
  resource ← lift (or_raise UnicodeEncodeError (utf8_encode lease_id));
  on_file (sanlock_write ls resource offset (lv_alignment v) (lv_block_size v));;
  lv_write_record recnum (mkRecord lease_id offset false);;
  mret (lease_info v lease_id offset)) v.

Definition remove (lease_id : text) : M LeasesVolume error unit := fun v => (
  recnum ← lift (find_record (lv_index v) lease_id);
  if recnum =? -1 then raise (NoSuchLease lease_id)
  else
  let offset := lease_offset recnum (lv_alignment v) in
  lv_write_record recnum (mkRecord lease_id offset true);;
  on_file (sanlock_write [] [] offset (lv_alignment v) (lv_block_size v));;
  lv_write_record recnum EMPTY_RECORD) v.

(** The body of the loop of [LeasesVolume.leases]: a bad record is skipped. *)
Definition leases_step (i : VolumeIndex) (alignment : Z) (leases : gmap text (Z * bool))
    (recnum : Z) : res error (gmap text (Z * bool)) :=
  match read_record i recnum with
  | Raise (InvalidRecord _ _) => Ok leases
  | Raise e => Raise e
  | Ok record =>
      match r_resource record with
      | [] => Ok leases
      | _ :: _ => Ok (<[r_resource record := (lease_offset recnum alignment, r_updating record)]> leases)
      end
  end.

Fixpoint leases_from (i : VolumeIndex) (alignment : Z) (recnums : list Z)
    (leases : gmap text (Z * bool)) : res error (gmap text (Z * bool)) :=
  match recnums with
  | [] => Ok leases
  | recnum :: rest =>
      leases ← leases_step i alignment leases recnum;
      leases_from i alignment rest leases
  end.

Definition leases (v : LeasesVolume) : res error (gmap text (Z * bool)) :=
  leases_from (lv_index v) (lv_alignment v) (seqZ 0 MAX_RECORDS) ∅.

(** ** Formatting and rebuilding *)

Fixpoint format_records (recnums : list Z) (i : VolumeIndex) : res error VolumeIndex :=
  match recnums with
  | [] => Ok i
  | recnum :: rest => i ← write_record i recnum EMPTY_RECORD; format_records rest i
  end.

Definition format_index (lockspace : text) (alignment block_size t0 t1 : Z) : M F error unit :=
  let index := VolumeIndex_init alignment block_size in
  updating lockspace t0 t1 (fun index =>
    index ← lift (format_records (seqZ 0 MAX_RECORDS) index);
    dump index;;
    mret index) index;;
  mret ().

Definition read_resource (path : text) (offset alignment block_size : Z) (f : F) :
    res error ResourceInfo :=
  match sl_read_resource path offset alignment block_size f with
  | Raise errno =>
      if negb (errno =? SANLK_LEADER_MAGIC) then Raise (SanlockException errno)
      else Raise (NoSuchResource path offset)
  | Ok res =>
      match slr_resource res with
      | [] => Raise (NoSuchResource path offset)
      | _ :: _ =>
          ls ← or_raise UnicodeDecodeError (utf8_decode (slr_lockspace res));
          resource ← or_raise UnicodeDecodeError (utf8_decode (slr_resource res));
          Ok (mkResourceInfo ls resource (slr_version res))
      end
  end.

(** The record [rebuild_index] writes for one slot. *)
Definition rebuild_record (f : F) (alignment block_size max_offset recnum : Z) : res error Record_ :=
  let offset := lease_offset recnum alignment in
  if max_offset <? offset then Ok EMPTY_RECORD
  else match read_resource (f_name f) offset alignment block_size f with
       | Raise (NoSuchResource _ _) => Ok EMPTY_RECORD
       | Raise e => Raise e
       | Ok res => Ok (mkRecord (ri_resource res) offset false)
       end.

Fixpoint rebuild_records (f : F) (alignment block_size max_offset : Z) (recnums : list Z)
    (i : VolumeIndex) : res error VolumeIndex :=
  match recnums with
  | [] => Ok i
  | recnum :: rest =>
      record ← rebuild_record f alignment block_size max_offset recnum;
      i ← write_record i recnum record;
      rebuild_records f alignment block_size max_offset rest i
  end.

Definition rebuild_index (lockspace : text) (alignment block_size t0 t1 : Z) : M F error unit :=
  let index := VolumeIndex_init alignment block_size in
  updating lockspace t0 t1 (fun index f => (
    let max_offset := f_size f - alignment in
    index ← lift (rebuild_records f alignment block_size max_offset (seqZ 0 MAX_RECORDS) index);
    dump index;;
    mret index) f) index;;
  mret ().

End Volume.

Arguments LeasesVolume F : clear implicits.
