(* ===== verification/XleaseFacts.v ===== *)
(** * External leases: properties of [storage/xlease.py] *)
From Stdlib Require Import ZArith Lia String Ascii.
From stdpp Require Import base gmap list strings.
From S2P Require Import Prelude Xlease.

(** ** Packed fields *)

Lemma zlen_pack_s n l : 0 <= n → zlen (pack_s n l) = n.
Proof.
  intros. unfold pack_s. zlen_solve. unfold zlen. rewrite length_take. lia.
Qed.

Lemma pack_s_short n l : zlen l <= n → pack_s n l = l ++ zrepeat (n - zlen l) 0.
Proof. intros. unfold pack_s. rewrite take_ge; [done|]. unfold zlen in *. lia. Qed.

Lemma pack_s_exact n l : zlen l = n → pack_s n l = l.
Proof.
  intros <-. rewrite pack_s_short by lia. rewrite Z.sub_diag. apply app_nil_r.
Qed.

Lemma zlen_record resource offset u x t :
  zlen (RECORD_STRUCT_pack resource offset u x t) = RECORD_SIZE.
Proof.
  unfold RECORD_STRUCT_pack. zlen_solve. rewrite !zlen_pack_s by lia. done.
Qed.

Lemma zlen_metadata m v l t u x : zlen (META_STRUCT_pack m v l t u x) = METADATA_SIZE.
Proof.
  unfold META_STRUCT_pack. zlen_solve. rewrite !zlen_pack_s by lia. done.
Qed.

(** Lockspace and lease names: ASCII without null bytes, at most 48 bytes. *)
Definition valid_name (s : text) : Prop := Forall (fun c => 0 < c < 128) s ∧ zlen s <= 48.

Definition valid_record (r : Record_) : Prop :=
  valid_name (r_resource r) ∧ 0 <= r_offset r < 10 ^ 11.

Definition valid_metadata (md : IndexMetadata) : Prop :=
  md_version md = INDEX_VERSION ∧ valid_name (md_lockspace md) ∧ 0 <= md_mtime md < 10 ^ 10.

#[export] Instance valid_name_dec s : Decision (valid_name s).
Proof. unfold valid_name. apply _. Defined.

#[export] Instance valid_record_dec r : Decision (valid_record r).
Proof. unfold valid_record. apply _. Defined.

#[export] Instance valid_metadata_dec r : Decision (valid_metadata r).
Proof. unfold valid_metadata. apply _. Defined.

#[export] Instance IndexMetadata_eq_dec : EqDecision IndexMetadata.
Proof. solve_decision. Defined.

#[export] Instance Record_eq_dec : EqDecision Record_.
Proof. solve_decision. Defined.

Lemma valid_name_ascii s : valid_name s → forallb is_ascii s = true.
Proof.
  intros [H _]. apply Is_true_true_1, forallb_True. eapply Forall_impl; [exact H|]. intros c Hc. simpl in *.
  unfold is_ascii. apply Is_true_true_2, andb_true_iff. rewrite Z.leb_le, Z.ltb_lt. lia.
Qed.

Lemma valid_name_not_nul s : valid_name s → Forall (fun c => (0 =? c) = false) s.
Proof.
  intros [H _]. eapply Forall_impl; [exact H|]. intros c Hc. cbv beta in *. apply Z.eqb_neq. lia.
Qed.

Lemma rstrip_pack s : valid_name s → rstrip_nul (pack_s 48 s) = s.
Proof.
  intros Hs. rewrite pack_s_short by apply Hs. apply rstripp_app_replicate; [done|].
  by apply valid_name_not_nul.
Qed.

Lemma pack_name_inj s t : valid_name s → valid_name t → pack_s 48 s = pack_s 48 t → s = t.
Proof. intros Hs Ht E. by rewrite <- (rstrip_pack s), <- (rstrip_pack t), E. Qed.

(** The total encoding of a record whose resource is ASCII. *)
Definition rec_bytes (r : Record_) : bytes :=
  RECORD_STRUCT_pack (r_resource r) (fmt_d 11 (r_offset r)) (flag_byte (r_updating r))
    FLAG_NONE RECORD_TERM.

Definition md_bytes (md : IndexMetadata) : bytes :=
  META_STRUCT_pack INDEX_MAGIC (fmt_d 4 (md_version md)) (md_lockspace md)
    (fmt_d 10 (md_mtime md)) (flag_byte (md_updating md)) RECORD_TERM.

Lemma Record_bytes_valid r : valid_name (r_resource r) → Record_bytes r = Ok (rec_bytes r).
Proof.
  intros Hr. unfold Record_bytes, encode_ascii. by rewrite valid_name_ascii.
Qed.

Lemma IndexMetadata_bytes_valid md :
  valid_name (md_lockspace md) → IndexMetadata_bytes md = Ok (md_bytes md).
Proof.
  intros Hr. unfold IndexMetadata_bytes, encode_ascii. by rewrite valid_name_ascii.
Qed.

Lemma flag_byte_updating u : bool_decide ([flag_byte u] = [FLAG_UPDATING]) = u.
Proof. by destruct u. Qed.

Lemma Record_frombytes_bytes r : valid_record r → Record_frombytes (rec_bytes r) = Ok r.
Proof.
  intros [Hn Ho]. unfold Record_frombytes. unfold rec_bytes at 1.
  rewrite zlen_record, Z.eqb_refl. cbn [negb].
  assert (slice 0 48 (rec_bytes r) = pack_s 48 (r_resource r)) as ->.
  { apply slice_head. by rewrite zlen_pack_s. }
  assert (slice 49 60 (rec_bytes r) = fmt_d 11 (r_offset r)) as ->.
  { unfold rec_bytes, RECORD_STRUCT_pack. skip_field 48 by (by rewrite zlen_pack_s).
    skip_field 1 by done. rewrite slice_head by (by rewrite zlen_pack_s).
    apply pack_s_exact, zlen_fmt_d; lia. }
  assert (slice 61 62 (rec_bytes r) = [flag_byte (r_updating r)]) as ->.
  { unfold rec_bytes, RECORD_STRUCT_pack. skip_field 48 by (by rewrite zlen_pack_s).
    skip_field 1 by done. skip_field 11 by (by rewrite zlen_pack_s).
    skip_field 1 by done. done. }
  cbv zeta. rewrite rstrip_pack by done. unfold decode_ascii.
  rewrite valid_name_ascii by done. rewrite py_int_fmt_d by lia.
  rewrite flag_byte_updating. by destruct r.
Qed.

Lemma fromebytes_bytes md :
  valid_metadata md → IndexMetadata_fromebytes (md_bytes md) = Ok md.
Proof.
  intros (Hv & Hn & Hm). unfold IndexMetadata_fromebytes. unfold md_bytes at 1.
  rewrite zlen_metadata, Z.eqb_refl. cbn [negb]. cbv zeta.
  assert (slice 0 4 (md_bytes md) = pack_i32_be INDEX_MAGIC) as -> by done.
  assert (slice 5 9 (md_bytes md) = fmt_d 4 (md_version md)) as ->.
  { unfold md_bytes, META_STRUCT_pack. skip_field 4 by done. skip_field 1 by done.
    rewrite slice_head by (by rewrite zlen_pack_s).
    apply pack_s_exact, zlen_fmt_d; rewrite ?Hv; unfold INDEX_VERSION; lia. }
  assert (slice 10 58 (md_bytes md) = pack_s 48 (md_lockspace md)) as ->.
  { unfold md_bytes, META_STRUCT_pack. skip_field 4 by done. skip_field 1 by done.
    skip_field 4 by (by rewrite zlen_pack_s). skip_field 1 by done.
    by rewrite slice_head by (by rewrite zlen_pack_s). }
  assert (slice 59 69 (md_bytes md) = fmt_d 10 (md_mtime md)) as ->.
  { unfold md_bytes, META_STRUCT_pack. skip_field 4 by done. skip_field 1 by done.
    skip_field 4 by (by rewrite zlen_pack_s). skip_field 1 by done.
    skip_field 48 by (by rewrite zlen_pack_s). skip_field 1 by done.
    rewrite slice_head by (by rewrite zlen_pack_s).
    apply pack_s_exact, zlen_fmt_d; lia. }
  assert (slice 70 71 (md_bytes md) = [flag_byte (md_updating md)]) as ->.
  { unfold md_bytes, META_STRUCT_pack. skip_field 4 by done. skip_field 1 by done.
    skip_field 4 by (by rewrite zlen_pack_s). skip_field 1 by done.
    skip_field 48 by (by rewrite zlen_pack_s). skip_field 1 by done.
    skip_field 10 by (by rewrite zlen_pack_s). skip_field 1 by done. done. }
  change (unpack_i32_be (pack_i32_be INDEX_MAGIC)) with INDEX_MAGIC.
  rewrite Z.eqb_refl. cbn [negb].
  rewrite py_int_fmt_d by (rewrite Hv; unfold INDEX_VERSION; lia).
  rewrite Hv, Z.eqb_refl. cbn [negb].
  rewrite rstrip_pack by done. unfold decode_ascii. rewrite valid_name_ascii by done.
  rewrite py_int_fmt_d by lia. rewrite flag_byte_updating. destruct md; simpl in *. by subst.
Qed.

(** ** Searching the index

    The bytes of a record at fixed positions: a null byte after the name, the
    digits of the offset, a null byte, the flags and the newline.  The proofs
    below only use these to exclude matches that do not start at a record. *)

Lemma zlen_rec_bytes r : zlen (rec_bytes r) = 64.
Proof. apply zlen_record. Qed.

Lemma length_rec_bytes r : length (rec_bytes r) = 64%nat.
Proof. pose proof (zlen_rec_bytes r). unfold zlen in *. lia. Qed.

Lemma rec_bytes_split r :
  valid_record r →
  rec_bytes r = pack_s 48 (r_resource r) ++ [0] ++ fmt_d 11 (r_offset r)
    ++ [0; flag_byte (r_updating r); 45; 10].
Proof.
  intros [_ Ho]. unfold rec_bytes, RECORD_STRUCT_pack.
  rewrite (pack_s_exact 11) by (apply zlen_fmt_d; lia). done.
Qed.

Lemma rec_bytes_at r p x :
  valid_record r → rec_bytes r !! p = Some x →
  (p = 48%nat → x = 0) ∧ ((49 <= p < 60)%nat → is_digit x = true) ∧
  ((p = 61 ∨ p = 62)%nat → x = 45 ∨ x = 117) ∧ (p = 63%nat → x = 10).
Proof.
  intros Hr. rewrite rec_bytes_split by done. destruct Hr as [_ Ho].
  pose proof (zlen_pack_s 48 (r_resource r) ltac:(lia)) as H1.
  pose proof (zlen_fmt_d 11 (r_offset r) ltac:(lia) ltac:(lia)) as H2.
  pose proof (fmt_d_digits 11 (r_offset r) ltac:(lia)) as Hd.
  unfold zlen in *. intros Hp.
  destruct (decide (p < 48)%nat); [lia|]. rewrite lookup_app_r in Hp by lia.
  destruct (decide (p = 48)%nat) as [->|].
  { replace (_ - _)%nat with 0%nat in Hp by lia. simpl in Hp. split_and!; [congruence|lia..]. }
  rewrite lookup_app_r in Hp by (simpl; lia). simpl length in Hp.
  destruct (decide (p < 60)%nat).
  { rewrite lookup_app_l in Hp by lia. split_and!; [lia| |lia..].
    intros _. rewrite Forall_lookup in Hd. by eapply Hd. }
  rewrite lookup_app_r in Hp by lia.
  destruct (_ - _ - _ - _)%nat as [|[|[|[|]]]] eqn:E; simpl in Hp; simplify_eq;
    (split_and!; intros; try lia; destruct (r_updating r); auto).
Qed.

(** A lease id that can be looked up: a valid name without newlines. *)
Definition valid_lease_id (s : text) : Prop := valid_name s ∧ Forall (fun c => c ≠ 10) s.

#[export] Instance valid_lease_id_dec s : Decision (valid_lease_id s).
Proof. unfold valid_lease_id. apply _. Defined.

Lemma lookup_prefix_at s k x :
  zlen s <= 48 → LOOKUP_STRUCT_pack s !! k = Some x →
  s !! k = Some x ∨ (length s <= k)%nat ∧ x = 0.
Proof.
  intros Hs. unfold LOOKUP_STRUCT_pack. rewrite pack_s_short by done. rewrite <- app_assoc.
  intros [|[Hk Hx]]%lookup_app_Some; [by left|]. right. split; [done|].
  unfold zrepeat in Hx. apply lookup_app_Some in Hx as [Hx|[_ Hx]].
  - by apply lookup_replicate in Hx as [-> _].
  - destruct (_ - _ - _)%nat as [|[]]; by simplify_eq/=.
Qed.

Lemma zlen_lookup_prefix s : zlen (LOOKUP_STRUCT_pack s) = 49.
Proof. unfold LOOKUP_STRUCT_pack. zlen_solve. rewrite zlen_pack_s; lia. Qed.

(** The window at offset [j] of a sequence of 64-byte chunks. *)
Lemma window_lookup (ls : list (list Z)) sub j :
  Forall (fun c => length c = 64%nat) ls → sub ≠ [] →
  prefixb sub (drop j (concat ls)) = true →
  ∃ i o c, j = (i * 64 + o)%nat ∧ (o < 64)%nat ∧ ls !! i = Some c ∧
    (∀ k, (o + k < 64)%nat → (k < length sub)%nat → c !! (o + k)%nat = sub !! k) ∧
    (o = 0%nat → (length sub <= 64)%nat → ∃ k, c = sub ++ k).
Proof.
  intros Hls Hne Hp. apply prefixb_true in Hp as [k Hk].
  exists (j / 64)%nat, (j mod 64)%nat.
  pose proof (Nat.div_mod_eq j 64). pose proof (Nat.mod_upper_bound j 64 ltac:(lia)).
  assert (j < length (concat ls))%nat as Hj.
  { destruct (decide (j < length (concat ls))%nat); [done|].
    rewrite drop_ge in Hk by lia. by destruct sub. }
  rewrite (length_concat_chunks 64) in Hj by done.
  destruct (lookup_lt_is_Some_2 ls (j / 64)) as [c Hc]; [apply Nat.Div0.div_lt_upper_bound; lia|].
  exists c. assert (length c = 64%nat) as Hlc by (rewrite Forall_lookup in Hls; by eapply Hls).
  assert (drop (j mod 64) (c ++ concat (drop (S (j / 64)) ls)) = sub ++ k) as Hw.
  { rewrite <- Hk. change (c ++ concat (drop (S (j / 64)) ls))
      with (concat (c :: drop (S (j / 64)) ls)).
    rewrite <- (drop_S_lookup _ _ _ Hc), <- (concat_drop 64) by done.
    rewrite drop_drop. f_equal. lia. }
  split_and!; [lia|done|done| |].
  - intros m ? ?. apply (f_equal (lookup m)) in Hw. rewrite lookup_drop in Hw.
    rewrite !lookup_app_l in Hw by lia. done.
  - intros Ho0 ?. rewrite Ho0, drop_0 in Hw. exists (drop (length sub) c).
    apply (f_equal (take (length sub))) in Hw. rewrite take_app_length, take_app_le in Hw by lia.
    rewrite <- Hw at 1. symmetry. apply take_drop.
Qed.

Lemma map_rec_bytes_chunks recs : Forall (fun c => length c = 64%nat) (map rec_bytes recs).
Proof. apply Forall_map, Forall_forall. intros r _. apply length_rec_bytes. Qed.

(** A match of a lease id starts at a record. *)
Lemma lookup_window_aligned recs s i o c :
  Forall valid_record recs → valid_lease_id s → (o < 64)%nat →
  map rec_bytes recs !! i = Some c →
  (∀ k, (o + k < 64)%nat → (k < 49)%nat → c !! (o + k)%nat = LOOKUP_STRUCT_pack s !! k) →
  o = 0%nat.
Proof.
  intros Hrecs [[Hs Hlen] Hnl] Ho Hc Hwin.
  apply list_lookup_fmap_Some in Hc as (r & -> & Hr).
  rewrite Forall_lookup in Hrecs. specialize (Hrecs _ _ Hr).
  assert (∀ k, (o + k < 64)%nat → (k < 49)%nat → ∃ x, rec_bytes r !! (o + k)%nat = Some x ∧
    LOOKUP_STRUCT_pack s !! k = Some x ∧ (s !! k = Some x ∨ (length s <= k)%nat ∧ x = 0)) as Hat.
  { intros k ??. destruct (lookup_lt_is_Some_2 (rec_bytes r) (o + k)%nat) as [x Hx].
    { rewrite length_rec_bytes. lia. }
    exists x. rewrite <- Hwin by done. split_and!; [done..|].
    apply lookup_prefix_at; [done|]. by rewrite <- Hwin. }
  rewrite Forall_lookup in Hs, Hnl.
  destruct (decide (o = 0)%nat) as [|Hne]; [done|exfalso].
  destruct (decide (15 <= o)%nat).
  - destruct (Hat (63 - o)%nat) as (x & Hx & _ & Hk); [lia..|].
    apply rec_bytes_at in Hx as (_ & _ & _ & Hx); [|done]. rewrite Hx in Hk by lia.
    destruct Hk as [Hk|[_ ?]]; [by eapply Hnl|done].
  - destruct (Hat 48%nat) as (x & Hx & _ & Hk); [lia..|].
    assert (x = 0) as ->.
    { destruct Hk as [Hk|[_ ?]]; [|done]. apply lookup_lt_Some in Hk. unfold zlen in Hlen. lia. }
    pose proof (rec_bytes_at r _ _ Hrecs Hx) as (_ & Hdig & Hflag & _).
    assert (o = 12)%nat as ->.
    { destruct (decide (o < 12)%nat); [specialize (Hdig ltac:(lia)); done|].
      destruct (decide (o = 12)%nat); [done|]. destruct Hflag; lia. }
    destruct (Hat 47%nat) as (d & Hd & _ & Hk47); [lia..|].
    apply rec_bytes_at in Hd as (_ & Hd & _ & _); [|done].
    specialize (Hd ltac:(lia)).
    destruct Hk47 as [Hk47|[_ ->]]; [|done]. apply lookup_lt_Some in Hk47.
    destruct (Hat 36%nat) as (z & Hz & _ & Hk36); [lia..|].
    apply rec_bytes_at in Hz as (Hz & _); [|done]. rewrite Hz in Hk36 by lia.
    destruct Hk36 as [Hk36|[? _]]; [|lia]. apply Hs in Hk36. lia.
Qed.

Lemma lookup_prefix_rec_bytes r s :
  valid_record r → valid_name s →
  prefixb (LOOKUP_STRUCT_pack s) (rec_bytes r) = true ↔ r_resource r = s.
Proof.
  intros Hr Hs. rewrite prefixb_true. rewrite rec_bytes_split by done.
  unfold LOOKUP_STRUCT_pack. split.
  - intros [k Hk]. apply pack_name_inj; [apply Hr|done|].
    rewrite <- app_assoc in Hk. apply app_inj_1 in Hk as [-> _]; [done|].
    pose proof (zlen_pack_s 48 (r_resource r)). pose proof (zlen_pack_s 48 s).
    unfold zlen in *. lia.
  - intros ->. eexists. rewrite <- app_assoc. done.
Qed.

Definition index_bytes (meta : bytes) (recs : list Record_) : bytes :=
  meta ++ concat (map rec_bytes recs).

(** An index whose buffer holds the metadata block [meta] and the records
    [recs]. *)
Record wf_index (i : VolumeIndex) (meta : bytes) (recs : list Record_) : Prop := {
  wf_buf : vi_buf i = index_bytes meta recs;
  wf_meta : zlen meta = METADATA_SIZE;
  wf_recs : zlen recs = MAX_RECORDS;
  wf_valid : Forall valid_record recs;
}.

(** The record number of the first record satisfying [P], or -1. *)
Definition first_record (P : Record_ → Prop) `{!∀ r, Decision (P r)} (recs : list Record_) : Z :=
  match list_find P recs with Some (k, _) => Z.of_nat k | None => -1 end.

Lemma py_find_records sub (P : Record_ → Prop) `{!∀ r, Decision (P r)} i meta recs :
  wf_index i meta recs →
  search sub (concat (map rec_bytes recs)) = (fun p => (fst p * 64)%nat) <$> list_find P recs →
  (let offset := py_find (vi_buf i) sub RECORD_BASE in
   if offset =? -1 then -1 else record_number offset) = first_record P recs.
Proof.
  intros [Hb Hm _ _] Hs. unfold py_find, first_record. rewrite Hb.
  unfold index_bytes. rewrite zlen_app.
  pose proof (zlen_nonneg (concat (map rec_bytes recs))).
  destruct (Z.ltb_spec (zlen meta + zlen (concat (map rec_bytes recs))) RECORD_BASE) as [Hlt|_].
  { unfold RECORD_BASE in *. lia. }
  rewrite drop_app_ge by (unfold RECORD_BASE, zlen in *; lia).
  replace (_ - _)%nat with 0%nat by (unfold RECORD_BASE, zlen in *; lia).
  rewrite drop_0, Hs. destruct (list_find P recs) as [[k r]|]; simpl; [|done].
  unfold record_number, RECORD_BASE, METADATA_SIZE, RECORD_SIZE.
  destruct (Z.eqb_spec (512 + Z.of_nat (k * 64)) (-1)); [lia|].
  replace (512 + Z.of_nat (k * 64) - 512) with (Z.of_nat k * 64) by lia.
  apply Z.div_mul. lia.
Qed.

Lemma find_record_first i meta recs s :
  wf_index i meta recs → valid_lease_id s →
  find_record i s = Ok (first_record (fun r => r_resource r = s) recs).
Proof.
  intros Hwf Hs. unfold find_record, encode_ascii.
  rewrite valid_name_ascii by apply Hs. simpl.
  rewrite <- (py_find_records (LOOKUP_STRUCT_pack s) _ _ _ _ Hwf).
  { cbv zeta. by destruct (_ =? -1). }
  destruct Hwf as [_ _ _ Hv]. pose proof (zlen_lookup_prefix s) as Hlen.
  rewrite (search_chunks 64 _ _ (fun c => prefixb (LOOKUP_STRUCT_pack s) c = true)).
  - change (map rec_bytes recs) with (rec_bytes <$> recs). rewrite list_find_fmap.
    erewrite (list_find_ext_in _ (fun r => r_resource r = s)).
    + by destruct (list_find _ _) as [[]|].
    + eapply Forall_impl; [exact Hv|]. intros r Hr. simpl.
      apply lookup_prefix_rec_bytes; [done|apply Hs].
  - lia.
  - intros E. by rewrite E in Hlen.
  - apply map_rec_bytes_chunks.
  - intros j Hj. apply window_lookup in Hj as (k & o & c & -> & Ho & Hc & Hwin & H0);
      [|apply map_rec_bytes_chunks|intros E; by rewrite E in Hlen].
    assert (o = 0%nat) as ->.
    { eapply lookup_window_aligned; [done..|]. intros m ??. apply Hwin; [done|].
      unfold zlen in Hlen. lia. }
    exists k, c. split_and!; [lia|done|]. apply prefixb_true, H0; [done|]. unfold zlen in Hlen. lia.
  - intros k c Hc HQ. rewrite (concat_drop 64) by apply map_rec_bytes_chunks.
    rewrite (drop_S_lookup _ _ _ Hc). simpl. apply prefixb_true in HQ as [m ->].
    rewrite <- app_assoc. apply prefixb_app.
Qed.

Lemma EMPTY_RECORD_valid : valid_record EMPTY_RECORD.
Proof. split; [split; [constructor|done]|simpl; lia]. Qed.

#[export] Hint Resolve EMPTY_RECORD_valid : vdsm.

(** The empty record is found at a record boundary too. *)
Lemma find_free_record_first i meta recs :
  wf_index i meta recs →
  find_free_record i = Ok (first_record (fun r => r = EMPTY_RECORD) recs).
Proof.
  intros Hwf. unfold find_free_record. rewrite Record_bytes_valid by (split; [constructor|done]).
  set (sub := rec_bytes EMPTY_RECORD). cbn [mbind res_bind].
  rewrite <- (py_find_records sub _ _ _ _ Hwf).
  { cbv zeta. by destruct (_ =? -1). }
  destruct Hwf as [_ _ _ Hv].
  rewrite (search_chunks 64 _ _ (fun c => c = sub)).
  - change (map rec_bytes recs) with (rec_bytes <$> recs). rewrite list_find_fmap.
    erewrite (list_find_ext_in _ (fun r => r = EMPTY_RECORD)).
    + by destruct (list_find _ _) as [[]|].
    + eapply Forall_impl; [exact Hv|]. intros r Hr. simpl. split; [|by intros ->].
      intros E. apply (f_equal Record_frombytes) in E. unfold sub in E.
      rewrite !Record_frombytes_bytes in E by auto with vdsm. by simplify_eq.
  - lia.
  - done.
  - apply map_rec_bytes_chunks.
  - intros j Hj. apply window_lookup in Hj as (k & o & c & -> & Ho & Hc & Hwin & H0);
      [|apply map_rec_bytes_chunks|done].
    pose proof Hc as Hr. apply list_lookup_fmap_Some in Hr as (r & -> & Hr).
    assert (o = 0%nat) as ->.
    { specialize (Hwin (63 - o)%nat ltac:(lia) ltac:(unfold sub; rewrite length_rec_bytes; lia)).
      replace (o + (63 - o))%nat with 63%nat in Hwin by lia.
      destruct (lookup_lt_is_Some_2 (rec_bytes r) 63%nat) as [x Hx]; [rewrite length_rec_bytes; lia|].
      rewrite Hx in Hwin. apply rec_bytes_at in Hx as (_ & _ & _ & Hx);
        [|rewrite Forall_lookup in Hv; by eapply Hv].
      rewrite Hx in Hwin by done. symmetry in Hwin.
      destruct (decide (o = 0)%nat); [done|exfalso].
      assert (forallb (fun x => negb (x =? 10)) (take 63 sub) = true) as Hno by done.
      rewrite <- (lookup_take_lt sub 63) in Hwin by lia.
      rewrite forallb_forall in Hno. apply list_elem_of_lookup_2, list_elem_of_In, Hno in Hwin.
      done. }
    exists k, (rec_bytes r). split_and!; [lia|done|].
    destruct (H0 eq_refl) as [m Hm]; [unfold sub; by rewrite length_rec_bytes|].
    apply (f_equal length) in Hm as Hm'. unfold sub in Hm'.
    rewrite length_app, !length_rec_bytes in Hm'. destruct m; [|simpl in *; lia].
    by rewrite app_nil_r in Hm.
  - intros k c Hc ->. rewrite (concat_drop 64) by apply map_rec_bytes_chunks.
    rewrite (drop_S_lookup _ _ _ Hc). apply prefixb_app.
Qed.

(** ** Reading and writing records *)

Lemma MAX_RECORDS_eq : MAX_RECORDS = 3960.
Proof. done. Qed.

Lemma zlen_concat_records recs : zlen (concat (map rec_bytes recs)) = 64 * zlen recs.
Proof.
  unfold zlen. rewrite (length_concat_chunks 64) by apply map_rec_bytes_chunks.
  rewrite length_map. lia.
Qed.

Lemma zlen_index_bytes meta recs :
  zlen meta = METADATA_SIZE → zlen recs = MAX_RECORDS → zlen (index_bytes meta recs) = INDEX_SIZE.
Proof.
  intros Hm Hr. unfold index_bytes. rewrite zlen_app, zlen_concat_records, Hm, Hr. done.
Qed.

Lemma index_bytes_record meta recs (k : nat) r :
  zlen meta = METADATA_SIZE → recs !! k = Some r →
  slice (record_offset (Z.of_nat k)) (record_offset (Z.of_nat k) + RECORD_SIZE) (index_bytes meta recs) = rec_bytes r.
Proof.
  intros Hm Hr. unfold index_bytes, record_offset, RECORD_BASE, RECORD_SIZE.
  rewrite slice_app_r by lia. unfold slice.
  replace (Z.to_nat (512 + Z.of_nat k * 64 + 64 - zlen meta - _)) with (length (rec_bytes r))
    by (rewrite length_rec_bytes; unfold METADATA_SIZE in *; lia).
  replace (Z.to_nat (_ - zlen meta)) with (k * 64)%nat by (unfold METADATA_SIZE in *; lia).
  rewrite (concat_drop 64) by apply map_rec_bytes_chunks.
  rewrite (drop_S_lookup k _ (rec_bytes r)) by (by apply list_lookup_fmap_Some; exists r).
  apply take_app_length.
Qed.

Lemma index_bytes_splice meta recs (k : nat) r :
  zlen meta = METADATA_SIZE → (k < length recs)%nat →
  splice (record_offset (Z.of_nat k)) (rec_bytes r) (index_bytes meta recs) = index_bytes meta (<[k:=r]> recs).
Proof.
  intros Hm Hk. unfold index_bytes.
  replace (record_offset (Z.of_nat k)) with (zlen meta + Z.of_nat (k * 64))
    by (unfold record_offset, RECORD_BASE, RECORD_SIZE; lia).
  transitivity (meta ++ splice (Z.of_nat (k * 64)) (rec_bytes r) (concat (map rec_bytes recs))).
  - unfold splice, zlen. rewrite take_app_ge by lia. rewrite <- app_assoc.
    f_equal. f_equal; [f_equal; lia|]. f_equal. rewrite drop_app_ge by lia. f_equal. lia.
  - f_equal. rewrite (splice_chunk 64); [|apply map_rec_bytes_chunks|by rewrite length_map|
      apply length_rec_bytes].
    f_equal. symmetry. apply (list_fmap_insert rec_bytes).
Qed.

Lemma record_offset_bounds (k n : nat) :
  Z.of_nat n = MAX_RECORDS → (k < n)%nat →
  0 <= record_offset (Z.of_nat k) ∧ record_offset (Z.of_nat k) + RECORD_SIZE <= INDEX_SIZE.
Proof.
  rewrite MAX_RECORDS_eq. unfold record_offset, RECORD_BASE, METADATA_SIZE, RECORD_SIZE, INDEX_SIZE.
  lia.
Qed.

Lemma read_record_spec i meta recs (k : nat) r :
  wf_index i meta recs → recs !! k = Some r → read_record i (Z.of_nat k) = Ok r.
Proof.
  intros [Hb Hm Hn Hv] Hr. unfold read_record. rewrite Hb.
  pose proof (record_offset_bounds k (length recs) Hn (lookup_lt_Some _ _ _ Hr)).
  rewrite mm_read_ok by (rewrite zlen_index_bytes; unfold RECORD_SIZE in *; lia). simpl.
  rewrite (index_bytes_record _ _ _ r) by done. apply Record_frombytes_bytes.
  rewrite Forall_lookup in Hv. by eapply Hv.
Qed.

Lemma wf_index_insert i meta recs (k : nat) r :
  wf_index i meta recs → valid_record r →
  wf_index (set_buf (index_bytes meta (<[k:=r]> recs)) i) meta (<[k:=r]> recs).
Proof.
  intros [Hb Hm Hn Hv] Hr. split; [done|done|unfold zlen in *; by rewrite length_insert|].
  by apply Forall_insert.
Qed.

Lemma write_record_spec i meta recs (k : nat) r :
  wf_index i meta recs → (k < length recs)%nat → valid_record r →
  write_record i (Z.of_nat k) r = Ok (set_buf (index_bytes meta (<[k:=r]> recs)) i).
Proof.
  intros [Hb Hm Hn Hv] Hk Hr. unfold write_record. rewrite Record_bytes_valid by apply Hr. simpl.
  pose proof (record_offset_bounds k (length recs) Hn Hk).
  rewrite Hb, mm_write_ok by (rewrite ?zlen_rec_bytes, ?zlen_index_bytes; unfold RECORD_SIZE in *; lia).
  simpl. by rewrite index_bytes_splice.
Qed.

(** ** What files and sanlock promise

    [contents] is the content of the underlying volume.  A write that succeeds
    inside the volume replaces exactly its range; one that fails touches only
    its range, and a failed write of one aligned block is all or nothing (the
    promise the module relies on, see [ChangeBlock.dump]). *)

Definition is_block_size (bs : Z) : Prop := bs = 512 ∨ bs = 4096.

Class FileLaws (F : Type) `{!File F} := {
  contents : F → bytes;
  size_spec f : f_size f = zlen (contents f);
  pread_ok off n f f' data :
    0 <= off → 0 <= n → f_pread off n f = (f', Ok data) →
    data = slice off (off + n) (contents f) ∧ contents f' = contents f ∧ f_name f' = f_name f;
  pread_err off n f f' e :
    0 <= off → 0 <= n → f_pread off n f = (f', Raise e) →
    e = OSError ∧ contents f' = contents f ∧ f_name f' = f_name f;
  pwrite_ok off data f f' :
    0 <= off → off + zlen data <= zlen (contents f) →
    f_pwrite off data f = (f', Ok ()) →
    contents f' = splice off data (contents f) ∧ f_name f' = f_name f;
  pwrite_err off data f f' e :
    0 <= off → off + zlen data <= zlen (contents f) →
    f_pwrite off data f = (f', Raise e) →
    e = OSError ∧ f_name f' = f_name f ∧ zlen (contents f') = zlen (contents f) ∧
    ∀ i j, 0 <= i → j <= off ∨ off + zlen data <= i →
      slice i j (contents f') = slice i j (contents f);
  pwrite_atomic bs off data f f' e :
    is_block_size bs → off mod bs = 0 → zlen data = bs →
    0 <= off → off + zlen data <= zlen (contents f) →
    f_pwrite off data f = (f', Raise e) →
    contents f' = contents f ∨ contents f' = splice off data (contents f);
}.

(** Sanlock stays inside the lease area it is given, also when it fails. *)
Class SanlockLaws (F : Type) `{!File F, !Sanlock F, !FileLaws F} := {
  write_resource_frame ls resource path off align sector f f' r :
    sl_write_resource ls resource path off align sector f = (f', r) →
    f_name f' = f_name f ∧ zlen (contents f') = zlen (contents f) ∧
    ∀ i j, 0 <= i → j <= off ∨ off + align <= i →
      slice i j (contents f') = slice i j (contents f);
}.

Section VolumeFacts.
  Context {F : Type} `{!File F, !Sanlock F, !FileLaws F, !SanlockLaws F}.

(** The index slot of the volume. *)
Definition disk (al : Z) (f : F) : bytes := slice al (al + INDEX_SIZE) (contents f).

Definition is_alignment (al : Z) : Prop :=
  al = 2 ^ 20 ∨ al = 2 ^ 21 ∨ al = 2 ^ 22 ∨ al = 2 ^ 23.

(** A record is free, or names a lease at the offset of its slot. *)
Definition record_ok (al : Z) (k : nat) (r : Record_) : Prop :=
  r = EMPTY_RECORD ∨
  valid_lease_id (r_resource r) ∧ r_resource r ≠ [] ∧ r_offset r = lease_offset (Z.of_nat k) al.

(** The records of a leases volume: at most one record per lease. *)
Record recs_ok (al : Z) (recs : list Record_) : Prop := {
  ro_record k r : recs !! k = Some r → record_ok al k r;
  ro_unique j k r s : recs !! j = Some r → recs !! k = Some s →
    r_resource r = r_resource s → r_resource r ≠ [] → j = k;
}.

(** The invariant of an open volume, apart from the agreement with storage. *)
Record mem_ok (v : LeasesVolume F) (meta : bytes) (recs : list Record_) : Prop := {
  mo_index : wf_index (lv_index v) meta recs;
  mo_offset : vi_offset (lv_index v) = lv_alignment v;
  mo_bs : vi_block_size (lv_index v) = lv_block_size v;
  mo_block : is_block_size (lv_block_size v);
  mo_align : is_alignment (lv_alignment v);
  mo_lockspace : valid_name (lockspace v);
  mo_recs : recs_ok (lv_alignment v) recs;
  mo_size : RESERVED_SLOTS * lv_alignment v <= zlen (contents (lv_file v));
}.

(** The invariant of an open volume: storage holds the index in memory. *)
Definition vol_ok (v : LeasesVolume F) (meta : bytes) (recs : list Record_) : Prop :=
  mem_ok v meta recs ∧ disk (lv_alignment v) (lv_file v) = vi_buf (lv_index v).

(** What no operation changes. *)
Record same_volume (v v' : LeasesVolume F) : Prop := {
  sv_align : lv_alignment v' = lv_alignment v;
  sv_bs : lv_block_size v' = lv_block_size v;
  sv_md : lv_md v' = lv_md v;
  sv_name : f_name (lv_file v') = f_name (lv_file v);
  sv_size : zlen (contents (lv_file v')) = zlen (contents (lv_file v));
}.

#[export] Instance same_volume_refl : Reflexive same_volume.
Proof. by constructor. Qed.

#[export] Instance same_volume_trans : Transitive same_volume.
Proof. intros ??? [] []. constructor; congruence. Qed.

Lemma is_alignment_bounds al : is_alignment al → 2 ^ 20 <= al <= 2 ^ 23.
Proof. intros [-> | [-> | [-> | ->]]]; lia. Qed.

Lemma lease_offset_bounds al k :
  is_alignment al → 0 <= k < MAX_RECORDS → 0 <= lease_offset k al < 10 ^ 11.
Proof.
  intros Hal%is_alignment_bounds. rewrite MAX_RECORDS_eq. unfold lease_offset, RESERVED_SLOTS. nia.
Qed.

Lemma record_block (k n : nat) bs :
  is_block_size bs → Z.of_nat n = MAX_RECORDS → (k < n)%nat →
  let ro := record_offset (Z.of_nat k) in
  let b := ro - ro mod bs in
  0 <= b <= ro ∧ ro + 64 <= b + bs ∧ b + bs <= INDEX_SIZE ∧ b mod bs = 0.
Proof.
  rewrite MAX_RECORDS_eq. unfold record_offset, RECORD_BASE, METADATA_SIZE, RECORD_SIZE, INDEX_SIZE.
  intros [-> | ->] Hn Hk; cbv zeta; divlia.
Qed.

Lemma aligned_add al bs b :
  is_alignment al → is_block_size bs → b mod bs = 0 → (al + b) mod bs = 0.
Proof.
  intros Hal Hbs Hb. assert (al mod bs = 0 ∧ bs ≠ 0) as [Ha Hne].
  { destruct Hal as [-> | [-> | [-> | ->]]], Hbs as [-> | ->]; done. }
  by rewrite Z.add_mod, Ha, Hb.
Qed.

(** Writing one record: storage first, then the index in memory. *)
Lemma lv_write_record_spec v meta recs (k : nat) r v' (x : res error unit) :
  vol_ok v meta recs → (k < length recs)%nat → valid_record r →
  lv_write_record (Z.of_nat k) r v = (v', x) →
  same_volume v v' ∧
  let buf := index_bytes meta (<[k:=r]> recs) in
  (x = Ok () ∧ lv_index v' = set_buf buf (lv_index v) ∧
     disk (lv_alignment v) (lv_file v') = buf ∨
   x = Raise OSError ∧ lv_index v' = lv_index v ∧
     (disk (lv_alignment v) (lv_file v') = vi_buf (lv_index v) ∨
      disk (lv_alignment v) (lv_file v') = buf)).
Proof.
  intros [Hmem Hsync] Hk Hr Hw. destruct Hmem as [Hi Ho Hbs Hblk Hal _ _ Hsize].
  pose proof (wf_recs _ _ _ Hi) as Hn. pose proof (wf_meta _ _ _ Hi) as Hm.
  pose proof (record_block k (length recs) _ Hblk Hn Hk) as Hb. cbv zeta in Hb.
  pose proof (is_alignment_bounds _ Hal) as Hal'.
  set (ro := record_offset (Z.of_nat k)) in *. set (al := lv_alignment v) in *.
  set (bs := lv_block_size v) in *. set (b := ro - ro mod bs) in *.
  assert (zlen (vi_buf (lv_index v)) = INDEX_SIZE) as Hbuf.
  { rewrite (wf_buf _ _ _ Hi). by apply zlen_index_bytes. }
  set (blk := slice b (b + bs) (vi_buf (lv_index v))).
  assert (zlen blk = bs) as Hblklen by (unfold blk; rewrite zlen_slice; lia).
  set (blk' := splice (ro - b) (rec_bytes r) blk).
  assert (zlen blk' = bs) as Hblk'.
  { unfold blk'. rewrite zlen_splice; rewrite ?zlen_rec_bytes; lia. }
  assert (copy_record_block (lv_index v) (Z.of_nat k) = Ok (mkBlock al b bs blk)) as Hcopy.
  { unfold copy_record_block, ChangeBlock_init. rewrite Ho, Hbs. fold ro. fold b. fold blk.
    by rewrite Hblklen, Z.eqb_refl. }
  assert (block_write_record (mkBlock al b bs blk) (Z.of_nat k) r = Ok (mkBlock al b bs blk'))
    as Hbw.
  { unfold block_write_record, block_record_offset. simpl. fold (record_offset (Z.of_nat k)).
    fold ro. unfold RECORD_SIZE. destruct (Z.leb_spec 0 (ro - b)); [|lia].
    destruct (Z.leb_spec (ro - b) (bs - 64)); [|lia]. simpl.
    rewrite Record_bytes_valid by apply Hr. simpl.
    rewrite mm_write_ok by (rewrite ?zlen_rec_bytes; lia). done. }
  assert (∀ c, disk al c = vi_buf (lv_index v) →
    zlen (contents c) = zlen (contents (lv_file v)) →
    slice al (al + INDEX_SIZE) (splice (al + b) blk' (contents c)) = index_bytes meta (<[k:=r]> recs))
    as Hsplice.
  { intros c Hc Hl. unfold disk, INDEX_SIZE, RESERVED_SLOTS in *.
    rewrite slice_splice_inside by lia. rewrite Hc.
    replace (al + b - al) with b by lia. unfold blk', blk.
    rewrite splice_block by (rewrite ?zlen_rec_bytes; lia).
    rewrite (wf_buf _ _ _ Hi). by apply index_bytes_splice. }
  unfold lv_write_record in Hw. unfold mbind, M_bind, lift in Hw. rewrite Hcopy, Hbw in Hw.
  unfold on_file, block_dump in Hw. simpl in Hw.
  unfold INDEX_SIZE, RESERVED_SLOTS in *.
  destruct (f_pwrite (al + b) blk' (lv_file v)) as [f' [[]|e]] eqn:Hp; simpl in Hw.
  - rewrite (write_record_spec _ _ _ _ _ Hi Hk Hr) in Hw. unfold modify in Hw. simplify_eq/=.
    apply pwrite_ok in Hp as [Hp Hname]; [|lia..]. split; [|left].
    + constructor; simpl; try done. rewrite Hp. apply zlen_splice; lia.
    + simpl. split_and!; [done..|]. unfold disk. rewrite Hp. by apply Hsplice.
  - simplify_eq.
    pose proof Hp as Herr. apply pwrite_err in Herr as (-> & Hname & Hlen & _); [|lia..].
    split; [by constructor|right]. simpl. split_and!; [done..|].
    apply (pwrite_atomic (lv_block_size v)) in Hp as [Hp|Hp]; try lia; try done.
    + left. unfold disk. by rewrite Hp.
    + right. unfold disk. rewrite Hp. by apply Hsplice.
    + apply aligned_add; [done..|]. apply Hb.
Qed.

(** ** The leases of a volume as a map *)

Fixpoint lease_map_from (al k : Z) (recs : list Record_) (m : gmap text (Z * bool)) :
    gmap text (Z * bool) :=
  match recs with
  | [] => m
  | r :: rest =>
      lease_map_from al (k + 1) rest
        match r_resource r with
        | [] => m
        | _ :: _ => <[r_resource r := (lease_offset k al, r_updating r)]> m
        end
  end.

Definition lease_map (al : Z) (recs : list Record_) : gmap text (Z * bool) :=
  lease_map_from al 0 recs ∅.

Lemma leases_from_spec i meta recs al (k n : nat) m :
  wf_index i meta recs → (k + n = length recs)%nat →
  leases_from i al (seqZ (Z.of_nat k) (Z.of_nat n)) m
    = Ok (lease_map_from al (Z.of_nat k) (drop k recs) m).
Proof.
  intros Hwf. revert k m. induction n as [|n IH]; intros k m Hk.
  - rewrite drop_ge by lia. done.
  - destruct (lookup_lt_is_Some_2 recs k) as [r Hr]; [lia|].
    rewrite (seqZ_cons (Z.of_nat k)) by lia.
    replace (Z.succ (Z.of_nat k)) with (Z.of_nat (S k)) by lia.
    replace (Z.pred (Z.of_nat (S n))) with (Z.of_nat n) by lia.
    rewrite (drop_S recs r k Hr). cbn [leases_from lease_map_from].
    replace (Z.of_nat k + 1) with (Z.of_nat (S k)) by lia.
    unfold leases_step. rewrite (read_record_spec _ _ _ _ _ Hwf Hr).
    destruct (r_resource r); cbn [mbind res_bind]; by rewrite <- IH by lia.
Qed.

Lemma leases_spec v meta recs :
  mem_ok v meta recs → leases v = Ok (lease_map (lv_alignment v) recs).
Proof.
  intros Hmem. unfold leases. pose proof (wf_recs _ _ _ (mo_index _ _ _ Hmem)) as Hn.
  rewrite <- Hn. by apply (leases_from_spec _ _ _ _ 0 (length recs) ∅ (mo_index _ _ _ Hmem)).
Qed.

(** The lease a record stands for. *)
Definition names (s : text) (r : Record_) : Prop := r_resource r = s.

#[export] Instance names_dec s r : Decision (names s r).
Proof. unfold names. apply _. Defined.

Lemma lease_map_from_lookup al k recs m s :
  s ≠ [] →
  (∀ i j r t, recs !! i = Some r → recs !! j = Some t → names s r → names s t → i = j) →
  lease_map_from al k recs m !! s =
    match list_find (names s) recs with
    | Some (j, r) => Some (lease_offset (k + Z.of_nat j) al, r_updating r)
    | None => m !! s
    end.
Proof.
  intros Hs. revert k m. induction recs as [|r recs IH]; intros k m Huniq; [done|]. simpl.
  rewrite IH; [|intros i j ???? ??; eapply (Nat.succ_inj i j), Huniq; by eauto].
  destruct (decide (names s r)) as [Hr|Hr]; unfold names in Hr.
  - destruct (list_find (names s) recs) as [[j t]|] eqn:E.
    + apply list_find_Some in E as (Hj & Ht & _).
      specialize (Huniq 0%nat (S j) r t eq_refl Hj Hr Ht). done.
    + rewrite Hr. destruct s; [done|]. rewrite lookup_insert_eq. rewrite Z.add_0_r. done.
  - assert (∀ m', m' = match r_resource r with [] => m
        | _ :: _ => <[r_resource r:=(lease_offset k al, r_updating r)]> m end → m' !! s = m !! s)
      as Hm by (intros m' ->; destruct (r_resource r) eqn:E; [done|]; by rewrite lookup_insert_ne).
    destruct (list_find (names s) recs) as [[j t]|]; simpl; [|by apply Hm].
    do 3 f_equal. lia.
Qed.

Lemma lease_map_from_nil al k recs m : m !! [] = None → lease_map_from al k recs m !! [] = None.
Proof.
  revert k m. induction recs as [|r recs IH]; intros k m Hm; [done|]. simpl. apply IH.
  destruct (r_resource r) eqn:E; [done|]. by rewrite lookup_insert_ne.
Qed.

Lemma lease_map_lookup al recs s :
  recs_ok al recs → s ≠ [] →
  lease_map al recs !! s =
    (fun p => (lease_offset (Z.of_nat (fst p)) al, r_updating (snd p))) <$> list_find (names s) recs.
Proof.
  intros Hok Hs. unfold lease_map. rewrite lease_map_from_lookup; [|done|].
  - by destruct (list_find _ _) as [[]|].
  - unfold names. intros i j r t Hi Hj Hr Ht. eapply ro_unique; [done..| |]; congruence.
Qed.

Lemma lease_map_Some al recs s p :
  recs_ok al recs →
  lease_map al recs !! s = Some p ↔
  s ≠ [] ∧ ∃ k r, recs !! k = Some r ∧ names s r ∧ p = (lease_offset (Z.of_nat k) al, r_updating r).
Proof.
  intros Hok. destruct (decide (s = [])) as [->|Hs].
  { unfold lease_map. rewrite lease_map_from_nil by done. naive_solver. }
  rewrite lease_map_lookup by done. split.
  - intros ([k r] & E & ->)%fmap_Some. apply list_find_Some in E as (Hk & Hr & _). eauto 6.
  - intros (_ & k & r & Hk & Hr & ->).
    destruct (list_find_elem_of (names s) recs r) as [[j t] Hj];
      [by eapply list_elem_of_lookup_2|done|].
    rewrite Hj. simpl. apply list_find_Some in Hj as (Hj & Ht & _). unfold names in *.
    assert (j = k) as -> by (eapply ro_unique; [done..| |]; congruence).
    by simplify_eq.
Qed.

Lemma lease_map_None al recs s :
  recs_ok al recs → s ≠ [] → lease_map al recs !! s = None ↔ list_find (names s) recs = None.
Proof. intros. by rewrite lease_map_lookup, fmap_None. Qed.

Lemma recs_ok_insert al recs k r :
  recs_ok al recs → record_ok al k r →
  (∀ j t, recs !! j = Some t → r_resource r ≠ [] → names (r_resource r) t → j = k) →
  recs_ok al (<[k:=r]> recs).
Proof.
  intros [Hrec Huniq] Hr Hk. split.
  - intros j t [(-> & -> & _)|[_ ?]]%list_lookup_insert_Some; auto.
  - unfold names in Hk.
    intros i j t u [(-> & -> & _)|[? Hi]]%list_lookup_insert_Some
      [(<- & -> & _)|[? Hj]]%list_lookup_insert_Some E Hne; [done| | |eauto].
    + symmetry. eapply Hk; eauto; congruence.
    + eapply Hk; eauto; congruence.
Qed.

(** Replacing a free record, or the record of the same lease. *)
Lemma lease_map_insert al recs k r t :
  recs_ok al recs → recs !! k = Some t → record_ok al k r → r_resource r ≠ [] →
  t = EMPTY_RECORD ∨ names (r_resource r) t →
  recs_ok al (<[k:=r]> recs) →
  lease_map al (<[k:=r]> recs)
    = <[r_resource r := (lease_offset (Z.of_nat k) al, r_updating r)]> (lease_map al recs).
Proof.
  intros Hok Hk Hr Hne Ht Hok'. apply map_eq. intros s. apply option_eq. intros p.
  rewrite lease_map_Some by done. rewrite lookup_insert_Some, lease_map_Some by done.
  pose proof (lookup_lt_Some _ _ _ Hk) as Hlt. unfold names in *. split.
  - intros (Hs & j & u & [(-> & -> & _)|[Hj Hu]]%list_lookup_insert_Some & <- & ->).
    + by left.
    + right. split; [|eauto 6]. intros E. apply Hj.
      eapply (ro_unique _ _ Hok' k j r u); [by apply list_lookup_insert_eq| |done..].
      by rewrite list_lookup_insert_ne.
  - intros [[<- <-]|(Hs & Hs' & j & u & Hu & <- & ->)].
    + split; [done|]. exists k, r. by rewrite list_lookup_insert_eq.
    + split; [done|]. exists j, u. rewrite list_lookup_insert_ne; [done|].
      intros ->. simplify_eq. destruct Ht as [->|?]; [done|congruence].
Qed.

Lemma lease_map_delete al recs k t :
  recs_ok al recs → recs !! k = Some t → r_resource t ≠ [] →
  lease_map al (<[k:=EMPTY_RECORD]> recs) = delete (r_resource t) (lease_map al recs).
Proof.
  intros Hok Hk Hne.
  assert (recs_ok al (<[k:=EMPTY_RECORD]> recs)) as Hok'.
  { apply recs_ok_insert; [done|by left|done]. }
  apply map_eq. intros s. apply option_eq. intros p.
  rewrite lease_map_Some by done. rewrite lookup_delete_Some, lease_map_Some by done.
  pose proof (lookup_lt_Some _ _ _ Hk) as Hlt. unfold names in *. split.
  - intros (Hs & j & u & [(-> & <- & _)|[Hj Hu]]%list_lookup_insert_Some & <- & ->); [done|].
    split; [|eauto 6]. intros E. apply Hj. by eapply (ro_unique _ _ Hok).
  - intros (Hs & Hs' & j & u & Hu & <- & ->). split; [done|]. exists j, u.
    rewrite list_lookup_insert_ne; [done|]. intros ->. congruence.
Qed.
End VolumeFacts.
