(* ===== verification/XleaseSpec.v ===== *)
(** * External leases: what the operations of a leases volume do

    The theorems about [LeasesVolume], [format_index] and [rebuild_index], each
    stated for any file object and any sanlock that keep their promises
    ([FileLaws], [SanlockLaws] of XleaseFacts). *)
From Stdlib Require Import ZArith Lia String Ascii.
From stdpp Require Import base gmap list strings.
From S2P Require Import Prelude Xlease XleaseFacts.

Section Operations.
  Context {F : Type} `{!File F, !Sanlock F, !FileLaws F, !SanlockLaws F}.

(** Storage holds a well-formed index. *)
Definition storage_ok (al : Z) (meta : bytes) (f : F) : Prop :=
  ∃ recs, disk al f = index_bytes meta recs ∧ recs_ok al recs ∧
    Forall valid_record recs ∧ zlen recs = MAX_RECORDS.

Lemma record_ok_valid al (k n : nat) r :
  is_alignment al → Z.of_nat n = MAX_RECORDS → (k < n)%nat → record_ok al k r → valid_record r.
Proof.
  intros Hal Hn Hk [-> | (Hid & _ & Ho)]; [apply EMPTY_RECORD_valid|].
  split; [apply Hid|]. rewrite Ho. apply lease_offset_bounds; [done|lia].
Qed.

Lemma mem_ok_same (v v' : LeasesVolume F) meta recs :
  mem_ok v meta recs → same_volume v v' → lv_index v' = lv_index v → mem_ok v' meta recs.
Proof.
  intros [] [Ha Hb Hm _ Hs] Hi.
  constructor; rewrite ?Hi, ?Ha, ?Hb, ?Hs; try done. unfold lockspace. by rewrite Hm.
Qed.

Lemma vol_ok_storage (v : LeasesVolume F) meta recs :
  vol_ok v meta recs → storage_ok (lv_alignment v) meta (lv_file v).
Proof.
  intros [Hm Hd]. exists recs. pose proof (mo_index _ _ _ Hm) as Hi. rewrite Hd.
  split_and!; [apply Hi|apply Hm|apply Hi|apply Hi].
Qed.

(** Writing record [k] keeps the invariant; when the write fails the index in
    memory is unchanged and storage holds the old or the new index. *)
Lemma vol_ok_write (v : LeasesVolume F) meta recs (k : nat) t r v' x :
  vol_ok v meta recs → recs !! k = Some t → record_ok (lv_alignment v) k r →
  recs_ok (lv_alignment v) (<[k:=r]> recs) →
  lv_write_record (Z.of_nat k) r v = (v', x) →
  same_volume v v' ∧
  (x = Ok () ∧ vol_ok v' meta (<[k:=r]> recs) ∨
   x = Raise OSError ∧ mem_ok v' meta recs ∧ storage_ok (lv_alignment v) meta (lv_file v')).
Proof.
  intros Hv Hk Hr Hok Hw. pose proof Hv as [Hm _]. pose proof (mo_index _ _ _ Hm) as Hi.
  pose proof (lookup_lt_Some _ _ _ Hk) as Hlt.
  assert (valid_record r) as Hvr by (eapply record_ok_valid; [apply Hm|apply Hi|done..]).
  destruct (lv_write_record_spec _ _ _ _ _ _ _ Hv Hlt Hvr Hw) as [Hs [(-> & Hix & Hd)|(-> & Hix & Hd)]];
    (split; [done|]).
  - left. split; [done|]. pose proof (wf_index_insert _ _ _ k r Hi Hvr) as Hi'. split.
    + destruct Hm, Hs. constructor; rewrite ?Hix, ?sv_align, ?sv_bs, ?sv_size; try done.
      unfold lockspace. by rewrite sv_md.
    + rewrite (sv_align _ _ Hs), Hd, Hix. done.
  - right. split_and!; [done|by eapply mem_ok_same|]. destruct Hd as [Hd|Hd].
    + exists recs. rewrite Hd. split_and!; [apply Hi|apply Hm|apply Hi|apply Hi].
    + exists (<[k:=r]> recs). pose proof (wf_index_insert _ _ _ k r Hi Hvr) as Hi'.
      split_and!; [done|done|apply Hi'|apply Hi'].
Qed.

(** Sanlock writes a lease area and never the index. *)
Lemma vol_ok_sanlock (v : LeasesVolume F) meta recs (k : nat) ls resource v' x :
  vol_ok v meta recs →
  on_file (sanlock_write ls resource (lease_offset (Z.of_nat k) (lv_alignment v))
    (lv_alignment v) (lv_block_size v)) v = (v', x) →
  same_volume v v' ∧ vol_ok v' meta recs ∧ (x = Ok () ∨ ∃ e, x = Raise (SanlockException e)).
Proof.
  intros [Hm Hd] Hw. unfold on_file, sanlock_write in Hw.
  destruct (sl_write_resource _ _ _ _ _ _ _) as [f' r] eqn:Hsl.
  apply write_resource_frame in Hsl as (Hname & Hlen & Hframe).
  assert (same_volume v (set_file f' v)) as Hs by by constructor.
  assert (vol_ok (set_file f' v) meta recs) as Hv.
  { split; [by eapply mem_ok_same|]. simpl. unfold disk in *. rewrite <- Hd. apply Hframe.
    - pose proof (is_alignment_bounds _ (mo_align _ _ _ Hm)). lia.
    - left. pose proof (is_alignment_bounds _ (mo_align _ _ _ Hm)).
      unfold lease_offset, RESERVED_SLOTS, INDEX_SIZE. lia. }
  destruct r; simplify_eq; eauto.
Qed.

Lemma valid_name_utf8 s : valid_name s → utf8_encode s = Some s.
Proof.
  intros [H _]. apply utf8_encode_ascii. eapply Forall_impl; [exact H|]. intros c ?. simpl in *. lia.
Qed.

Lemma list_find_record (recs : list Record_) s (k : nat) r :
  list_find (names s) recs = Some (k, r) → recs !! k = Some r ∧ r_resource r = s.
Proof. intros (? & ? & _)%list_find_Some. done. Qed.

Lemma first_record_names (recs : list Record_) s :
  first_record (fun r => r_resource r = s) recs =
    match list_find (names s) recs with Some (k, _) => Z.of_nat k | None => -1 end.
Proof. reflexivity. Qed.

(** Looking up a lease, by the state of the map of leases. *)
Lemma lookup_lease_spec (v : LeasesVolume F) meta recs s :
  mem_ok v meta recs → valid_lease_id s → s ≠ [] →
  lookup_lease s v = (v,
    match lease_map (lv_alignment v) recs !! s with
    | None => Raise (NoSuchLease s)
    | Some (_, true) => Raise (LeaseUpdating s)
    | Some (offset, false) => Ok (lease_info v s offset)
    end).
Proof.
  intros Hm Hs Hne. unfold lookup_lease. munfold_goal. pose proof (mo_index _ _ _ Hm) as Hi.
  rewrite (find_record_first _ _ _ _ Hi Hs), first_record_names.
  rewrite lease_map_lookup; [|apply Hm|done].
  destruct (list_find (names s) recs) as [[k r]|] eqn:E; simpl; [|done].
  apply list_find_record in E as [Hk _].
  destruct (Z.eqb_spec (Z.of_nat k) (-1)); [lia|].
  rewrite (read_record_spec _ _ _ _ _ Hi Hk). by destruct (r_updating r).
Qed.

Lemma lease_offset_inj al j k :
  is_alignment al → lease_offset j al = lease_offset k al → j = k.
Proof. intros Hal%is_alignment_bounds. unfold lease_offset. nia. Qed.

(** A free slot is not the slot of any lease. *)
Lemma free_slot_fresh al recs (k : nat) s p :
  is_alignment al → recs_ok al recs → recs !! k = Some EMPTY_RECORD →
  lease_map al recs !! s = Some p → fst p ≠ lease_offset (Z.of_nat k) al.
Proof.
  intros Hal Hok Hk Hp E. apply lease_map_Some in Hp as (Hs & j & r & Hj & Hr & ->); [|done].
  simpl in E. apply lease_offset_inj in E; [|done]. assert (j = k) as -> by lia. simplify_eq.
Qed.

(** When no record is free every slot belongs to a lease. *)
Lemma no_free_slot al recs k :
  recs_ok al recs → zlen recs = MAX_RECORDS → list_find (fun r => r = EMPTY_RECORD) recs = None →
  0 <= k < MAX_RECORDS → ∃ s u, lease_map al recs !! s = Some (lease_offset k al, u).
Proof.
  intros Hok Hn Hfind Hk. apply list_find_None in Hfind.
  destruct (lookup_lt_is_Some_2 recs (Z.to_nat k)) as [r Hr]; [unfold zlen in *; lia|].
  rewrite Forall_lookup in Hfind. specialize (Hfind _ _ Hr).
  destruct (ro_record _ _ Hok _ _ Hr) as [?|(_ & Hne & _)]; [done|].
  exists (r_resource r), (r_updating r). apply lease_map_Some; [done|]. split; [done|].
  exists (Z.to_nat k), r. by rewrite Z2Nat.id by lia.
Qed.

(** The records after naming a slot for lease [s], which has no other record. *)
Lemma recs_ok_name al recs (k : nat) s u :
  recs_ok al recs → valid_lease_id s → s ≠ [] →
  (∀ j t, recs !! j = Some t → names s t → j = k) →
  record_ok al k (mkRecord s (lease_offset (Z.of_nat k) al) u) ∧
  recs_ok al (<[k := mkRecord s (lease_offset (Z.of_nat k) al) u]> recs).
Proof.
  intros Hok Hs Hne Hk.
  assert (record_ok al k (mkRecord s (lease_offset (Z.of_nat k) al) u)) as Hr by (by right).
  split; [done|]. apply recs_ok_insert; [done..|]. intros j t Hj _ Ht. by eapply Hk.
Qed.

Lemma names_insert_eq (recs : list Record_) (k : nat) s o u t :
  recs !! k = Some t → (∀ j r, recs !! j = Some r → names s r → j = k) →
  ∀ j r, <[k := mkRecord s o u]> recs !! j = Some r → names s r → j = k.
Proof.
  intros Hk Huniq j r [(-> & _)|[_ Hj]]%list_lookup_insert_Some Hr; [done|]. by eapply Huniq.
Qed.

(** The outcome of [add] in terms of the leases before ([m]) and after. *)
Definition add_outcome (v v' : LeasesVolume F) (meta : bytes) (m : gmap text (Z * bool))
    (s : text) (x : res error LeaseInfo) : Prop :=
  match x with
  | Ok info =>
      m !! s = None ∧
      (∃ k, 0 <= k < MAX_RECORDS ∧ info = lease_info v s (lease_offset k (lv_alignment v))) ∧
      (∀ t p, m !! t = Some p → fst p ≠ li_offset info) ∧
      leases v' = Ok (<[s := (li_offset info, false)]> m) ∧
      ∃ recs', vol_ok v' meta recs'
  | Raise (LeaseExists s') => s' = s ∧ v' = v ∧ ∃ o, m !! s = Some (o, false)
  | Raise (LeaseUpdating s') => s' = s ∧ v' = v ∧ ∃ o, m !! s = Some (o, true)
  | Raise (NoSpace s') =>
      s' = s ∧ v' = v ∧ m !! s = None ∧
      ∀ k, 0 <= k < MAX_RECORDS → ∃ t u, m !! t = Some (lease_offset k (lv_alignment v), u)
  | Raise (SanlockException _) =>
      m !! s = None ∧ ∃ o recs', leases v' = Ok (<[s := (o, true)]> m) ∧ vol_ok v' meta recs'
  | Raise OSError =>
      m !! s = None ∧ storage_ok (lv_alignment v) meta (lv_file v') ∧
      (leases v' = Ok m ∨ ∃ o, leases v' = Ok (<[s := (o, true)]> m))
  | Raise _ => False
  end.

(** [add] once the name is known to be new and slot [k] to be free. *)
Lemma add_at_slot (v : LeasesVolume F) meta recs (k : nat) s v' x :
  vol_ok v meta recs → valid_lease_id s → s ≠ [] →
  list_find (names s) recs = None → recs !! k = Some EMPTY_RECORD →
  (let offset := lease_offset (Z.of_nat k) (lv_alignment v) in
   lv_write_record (Z.of_nat k) (mkRecord s offset true);;
   on_file (sanlock_write (lockspace v) s offset (lv_alignment v) (lv_block_size v));;
   lv_write_record (Z.of_nat k) (mkRecord s offset false);;
   mret (lease_info v s offset)) v = (v', x) →
  same_volume v v' ∧ add_outcome v v' meta (lease_map (lv_alignment v) recs) s x.
Proof.
  intros Hv Hs Hne Hnone Hk. set (al := lv_alignment v).
  set (r u := mkRecord s (lease_offset (Z.of_nat k) al) u).
  pose proof Hv as [Hm _]. pose proof (mo_recs _ _ _ Hm) as Hok. fold al in Hok.
  pose proof (wf_recs _ _ _ (mo_index _ _ _ Hm)) as Hlen.
  pose proof (lookup_lt_Some _ _ _ Hk) as Hlt.
  assert (lease_map al recs !! s = None) as HmN by (by apply lease_map_None).
  assert (∀ j t, recs !! j = Some t → names s t → j = k) as Huniq.
  { intros j t Hj Ht. apply list_find_None in Hnone. rewrite Forall_lookup in Hnone.
    by destruct (Hnone _ _ Hj). }
  destruct (recs_ok_name al recs k s true Hok Hs Hne Huniq) as [Hr1 Hok1]. fold (r true) in Hr1, Hok1.
  assert (lease_map al (<[k:=r true]> recs) = <[s := (lease_offset (Z.of_nat k) al, true)]> (lease_map al recs))
    as Hmap1 by (by eapply (lease_map_insert al recs k (r true)); auto).
  cbv zeta. munfold_goal.
  destruct (lv_write_record _ _ v) as [v1 x1] eqn:W1.
  destruct (vol_ok_write _ _ _ _ _ _ _ _ Hv Hk Hr1 Hok1 W1) as [Hs1 [(-> & Hv1)|(-> & Hm1 & Hst)]];
    [|intros [= <- <-]; split; [done|]; simpl; split_and!; [done|done|left];
      by rewrite (leases_spec _ _ _ Hm1), (sv_align _ _ Hs1)].
  pose proof (sv_align _ _ Hs1) as Ha1. pose proof (sv_bs _ _ Hs1) as Hb1. fold al in Ha1.
  destruct (on_file _ v1) as [v2 x2] eqn:W2. rewrite <- Hb1 in W2. fold al in W2. rewrite <- Ha1 in W2.
  destruct (vol_ok_sanlock _ _ _ _ _ _ _ _ Hv1 W2) as (Hs2 & Hv2 & Hx2).
  pose proof (sv_align _ _ Hs2) as Ha2. rewrite Ha1 in Ha2. pose proof Hv2 as [Hm2 _].
  assert (leases v2 = Ok (<[s := (lease_offset (Z.of_nat k) al, true)]> (lease_map al recs))) as Hl2
    by (by rewrite (leases_spec _ _ _ Hm2), Ha2, Hmap1).
  destruct Hx2 as [-> | [e ->]];
    [|intros [= <- <-]; split; [by etrans|]; simpl; eauto 6].
  destruct (recs_ok_name al (<[k:=r true]> recs) k s false Hok1 Hs Hne) as [Hr2 Hok2];
    [by eapply names_insert_eq|]. fold (r false) in Hr2, Hok2.
  assert (<[k:=r true]> recs !! k = Some (r true)) as Hk1 by (by apply list_lookup_insert_eq).
  destruct (lv_write_record _ _ v2) as [v3 x3] eqn:W3. fold al in W3. rewrite <- Ha2 in Hr2, Hok2.
  destruct (vol_ok_write _ _ _ _ _ _ _ _ Hv2 Hk1 Hr2 Hok2 W3) as [Hs3 [(-> & Hv3)|(-> & Hm3 & Hst)]];
    pose proof (sv_align _ _ Hs3) as Ha3; intros [= <- <-]; (split; [do 2 (etrans; [done|]); done|]).
  - pose proof Hv3 as [Hm3 _]. rewrite list_insert_insert_eq in Hv3, Hm3. simpl. split_and!; [done| | | |by eauto].
    + exists (Z.of_nat k). split; [unfold zlen in *; lia|done].
    + intros t p Hp. eapply (free_slot_fresh al recs); [apply Hm|done..].
    + rewrite (leases_spec _ _ _ Hm3), Ha3, Ha2. f_equal. rewrite list_insert_insert_eq, Ha2 in Hok2.
      rewrite Ha2 in Hr2. by eapply (lease_map_insert al recs k (r false)); auto.
  - simpl. split_and!; [done|by rewrite Ha2 in Hst|]. right. eexists.
    rewrite (leases_spec _ _ _ Hm3), Ha3, Ha2, Hmap1. done.
Qed.

Definition remove_outcome (v v' : LeasesVolume F) (meta : bytes) (m : gmap text (Z * bool))
    (s : text) (x : res error unit) : Prop :=
  match x with
  | Ok _ => is_Some (m !! s) ∧ leases v' = Ok (delete s m) ∧ ∃ recs', vol_ok v' meta recs'
  | Raise (NoSuchLease s') => s' = s ∧ v' = v ∧ m !! s = None
  | Raise (SanlockException _) =>
      ∃ o u recs', m !! s = Some (o, u) ∧ leases v' = Ok (<[s := (o, true)]> m) ∧
        vol_ok v' meta recs'
  | Raise OSError =>
      storage_ok (lv_alignment v) meta (lv_file v') ∧
      ∃ o u, m !! s = Some (o, u) ∧
        (leases v' = Ok m ∨ leases v' = Ok (<[s := (o, true)]> m))
  | Raise _ => False
  end.

Lemma remove_at_slot (v : LeasesVolume F) meta recs (k : nat) t s v' x :
  vol_ok v meta recs → valid_lease_id s → s ≠ [] →
  recs !! k = Some t → names s t →
  (let offset := lease_offset (Z.of_nat k) (lv_alignment v) in
   lv_write_record (Z.of_nat k) (mkRecord s offset true);;
   on_file (sanlock_write [] [] offset (lv_alignment v) (lv_block_size v));;
   lv_write_record (Z.of_nat k) EMPTY_RECORD) v = (v', x) →
  same_volume v v' ∧ remove_outcome v v' meta (lease_map (lv_alignment v) recs) s x.
Proof.
  intros Hv Hs Hne Hk Ht. set (al := lv_alignment v).
  set (r := mkRecord s (lease_offset (Z.of_nat k) al) true).
  pose proof Hv as [Hm _]. pose proof (mo_recs _ _ _ Hm) as Hok. fold al in Hok.
  pose proof (lookup_lt_Some _ _ _ Hk) as Hlt.
  assert (lease_map al recs !! s = Some (lease_offset (Z.of_nat k) al, r_updating t)) as HmS
    by (apply lease_map_Some; eauto 6).
  assert (∀ j u, recs !! j = Some u → names s u → j = k) as Huniq.
  { unfold names in *. intros j u Hj Hu. eapply (ro_unique _ _ Hok); [done..| |]; congruence. }
  destruct (recs_ok_name al recs k s true Hok Hs Hne Huniq) as [Hr1 Hok1]. fold r in Hr1, Hok1.
  assert (lease_map al (<[k:=r]> recs) = <[s := (lease_offset (Z.of_nat k) al, true)]> (lease_map al recs))
    as Hmap1 by (eapply (lease_map_insert al recs k r t); try done; by right).
  cbv zeta. munfold_goal.
  destruct (lv_write_record _ _ v) as [v1 x1] eqn:W1.
  destruct (vol_ok_write _ _ _ _ _ _ _ _ Hv Hk Hr1 Hok1 W1) as [Hs1 [(-> & Hv1)|(-> & Hm1 & Hst)]];
    [|intros [= <- <-]; split; [done|]; simpl; split; [done|]; do 2 eexists; split; [done|left];
      by rewrite (leases_spec _ _ _ Hm1), (sv_align _ _ Hs1)].
  pose proof (sv_align _ _ Hs1) as Ha1. pose proof (sv_bs _ _ Hs1) as Hb1. fold al in Ha1.
  destruct (on_file _ v1) as [v2 x2] eqn:W2. rewrite <- Hb1 in W2. fold al in W2. rewrite <- Ha1 in W2.
  destruct (vol_ok_sanlock _ _ _ _ _ _ _ _ Hv1 W2) as (Hs2 & Hv2 & Hx2).
  pose proof (sv_align _ _ Hs2) as Ha2. rewrite Ha1 in Ha2. pose proof Hv2 as [Hm2 _].
  assert (leases v2 = Ok (<[s := (lease_offset (Z.of_nat k) al, true)]> (lease_map al recs))) as Hl2
    by (by rewrite (leases_spec _ _ _ Hm2), Ha2, Hmap1).
  destruct Hx2 as [-> | [e ->]];
    [|intros [= <- <-]; split; [by etrans|]; simpl; eauto 7].
  assert (<[k:=r]> recs !! k = Some r) as Hk1 by (by apply list_lookup_insert_eq).
  assert (recs_ok al (<[k:=EMPTY_RECORD]> (<[k:=r]> recs))) as Hok2
    by (apply recs_ok_insert; [done|by left|done]).
  destruct (lv_write_record _ _ v2) as [v3 x3] eqn:W3. rewrite <- Ha2 in Hok2.
  assert (record_ok (lv_alignment v2) k EMPTY_RECORD) as Hr2 by by left.
  destruct (vol_ok_write _ _ _ _ _ _ _ _ Hv2 Hk1 Hr2 Hok2 W3) as [Hs3 [(-> & Hv3)|(-> & Hm3 & Hst)]];
    pose proof (sv_align _ _ Hs3) as Ha3; intros [= <- <-]; (split; [do 2 (etrans; [done|]); done|]).
  - pose proof Hv3 as [Hm3 _]. rewrite list_insert_insert_eq in Hv3, Hm3. simpl.
    split_and!; [by eauto| |by eauto].
    rewrite (leases_spec _ _ _ Hm3), Ha3, Ha2. f_equal. rewrite <- Ht.
    apply lease_map_delete; [done..|]. by rewrite Ht.
  - simpl. split; [by rewrite Ha2 in Hst|]. do 2 eexists. split; [done|]. right.
    by rewrite (leases_spec _ _ _ Hm3), Ha3, Ha2, Hmap1.
Qed.

(** C1: [LeasesVolume.add] on every branch.  On an open volume whose index
    agrees with storage, adding a valid lease id either returns a LeaseInfo at
    the offset of a slot no other lease uses, with exactly that lease added to
    the leases and storage still in agreement; or refuses a known lease
    (LeaseExists, LeaseUpdating) or a full index (NoSpace) without any change;
    or fails in sanlock, leaving the lease recorded as updating; or fails in
    storage I/O, leaving a well-formed index on storage. *)
Theorem add_spec (v : LeasesVolume F) meta recs m s v' x :
  vol_ok v meta recs → leases v = Ok m → valid_lease_id s → s ≠ [] →
  add s v = (v', x) →
  same_volume v v' ∧ add_outcome v v' meta m s x.
Proof.
  intros Hv Hl Hs Hne. pose proof Hv as [Hm _]. pose proof (mo_index _ _ _ Hm) as Hi.
  rewrite (leases_spec _ _ _ Hm) in Hl. injection Hl as <-.
  unfold add. munfold_goal. rewrite (find_record_first _ _ _ _ Hi Hs), first_record_names.
  destruct (list_find (names s) recs) as [[k r]|] eqn:E.
  - apply list_find_record in E as [Hk Hr]. destruct (Z.eqb_spec (Z.of_nat k) (-1)); [lia|].
    cbn [negb]. rewrite (read_record_spec _ _ _ _ _ Hi Hk).
    assert (lease_map (lv_alignment v) recs !! s
      = Some (lease_offset (Z.of_nat k) (lv_alignment v), r_updating r))
      by (apply lease_map_Some; [apply Hm|]; eauto 6).
    destruct (r_updating r); intros [= <- <-]; (split; [done|]; simpl; eauto).
  - change (negb (-1 =? -1)) with false. cbv iota. rewrite (find_free_record_first _ _ _ Hi). unfold first_record.
    destruct (list_find (fun r => r = EMPTY_RECORD) recs) as [[k t]|] eqn:Ef.
    + apply list_find_Some in Ef as (Hk & -> & _).
      destruct (Z.eqb_spec (Z.of_nat k) (-1)); [lia|].
      rewrite (valid_name_utf8 (lockspace v)) by apply Hm. rewrite (valid_name_utf8 s) by apply Hs.
      intros Hrun. by eapply add_at_slot.
    + intros [= <- <-]. split; [done|]. simpl. split_and!; [done..|by apply lease_map_None; [apply Hm|..]|].
      intros k Hk. eapply no_free_slot; [apply Hm|apply Hi|done..].
Qed.

(** C2: [LeasesVolume.remove] on every branch.  Removing a known lease deletes
    exactly that lease; an unknown lease raises NoSuchLease without any change;
    a sanlock failure leaves the lease recorded as updating, an I/O failure
    leaves a well-formed index on storage. *)
Theorem remove_spec (v : LeasesVolume F) meta recs m s v' x :
  vol_ok v meta recs → leases v = Ok m → valid_lease_id s → s ≠ [] →
  remove s v = (v', x) →
  same_volume v v' ∧ remove_outcome v v' meta m s x.
Proof.
  intros Hv Hl Hs Hne. pose proof Hv as [Hm _]. pose proof (mo_index _ _ _ Hm) as Hi.
  rewrite (leases_spec _ _ _ Hm) in Hl. injection Hl as <-.
  unfold remove. munfold_goal. rewrite (find_record_first _ _ _ _ Hi Hs), first_record_names.
  destruct (list_find (names s) recs) as [[k r]|] eqn:E.
  - apply list_find_record in E as [Hk Hr]. destruct (Z.eqb_spec (Z.of_nat k) (-1)); [lia|].
    intros Hrun. by eapply remove_at_slot.
  - intros [= <- <-]. split; [done|]. simpl. split_and!; [done..|].
    by apply lease_map_None; [apply Hm|..].
Qed.

(** [LeasesVolume.lookup] agrees with [LeasesVolume.leases]: an unknown
    lease raises NoSuchLease, an updating one LeaseUpdating, and any other
    lease is returned with its own offset; the volume does not change. *)
Theorem lookup_spec (v : LeasesVolume F) meta recs m s :
  vol_ok v meta recs → leases v = Ok m → valid_lease_id s → s ≠ [] →
  lookup_lease s v = (v,
    match m !! s with
    | None => Raise (NoSuchLease s)
    | Some (_, true) => Raise (LeaseUpdating s)
    | Some (offset, false) => Ok (lease_info v s offset)
    end).
Proof.
  intros [Hm _] Hl. rewrite (leases_spec _ _ _ Hm) in Hl. injection Hl as <-.
  by eapply lookup_lease_spec.
Qed.

(** ** Opening a volume *)

Lemma load_spec al bs (f f' : F) x :
  is_alignment al → RESERVED_SLOTS * al <= zlen (contents f) →
  load (VolumeIndex_init al bs) f = (f', x) →
  contents f' = contents f ∧ f_name f' = f_name f ∧
  (x = Ok (mkIndex al bs (disk al f)) ∨ x = Raise OSError).
Proof.
  intros Hal%is_alignment_bounds Hsize Hl. unfold load in Hl. munfold Hl. simpl in Hl.
  rewrite zlen_zrepeat in Hl. change (Z.max 0 INDEX_SIZE) with INDEX_SIZE in Hl.
  destruct (f_pread al INDEX_SIZE f) as [f1 [data|e]] eqn:Hp; simplify_eq.
  - apply pread_ok in Hp as (-> & Hc & Hname); [|lia|done].
    assert (zlen (disk al f) = INDEX_SIZE) as Hd.
    { unfold disk. rewrite zlen_slice; unfold INDEX_SIZE, RESERVED_SLOTS in *; lia. }
    unfold disk in Hd. rewrite Hd in Hl. destruct (Z.ltb_spec INDEX_SIZE INDEX_SIZE); [lia|].
    simplify_eq. split_and!; [done..|]. left. unfold set_buf. simpl. do 2 f_equal.
    rewrite drop_ge; [by rewrite app_nil_r|]. unfold zlen, zrepeat in *. rewrite length_replicate. lia.
  - apply pread_err in Hp as (-> & Hc & Hname); [auto|lia|done].
Qed.

Lemma wf_index_md al bs md recs :
  valid_metadata md → Forall valid_record recs → zlen recs = MAX_RECORDS →
  wf_index (mkIndex al bs (index_bytes (md_bytes md) recs)) (md_bytes md) recs ∧
  read_metadata (mkIndex al bs (index_bytes (md_bytes md) recs)) = Ok md.
Proof.
  intros Hmd Hv Hn. assert (zlen (md_bytes md) = METADATA_SIZE) as Hm by apply zlen_metadata.
  split; [by constructor|]. unfold read_metadata. cbn [vi_buf].
  pose proof (zlen_index_bytes _ _ Hm Hn) as Hl.
  rewrite mm_read_ok by (rewrite Hl; unfold INDEX_SIZE; lia). cbn [or_raise mbind res_bind]. unfold index_bytes.
  rewrite slice_head by done. by apply fromebytes_bytes.
Qed.

(** Opening a volume whose index slot holds metadata [md] and records [recs]. *)
Lemma init_spec al bs md recs (f f' : F) x :
  is_alignment al → is_block_size bs → RESERVED_SLOTS * al <= zlen (contents f) →
  valid_metadata md → recs_ok al recs → Forall valid_record recs → zlen recs = MAX_RECORDS →
  disk al f = index_bytes (md_bytes md) recs →
  LeasesVolume_init al bs f = (f', x) →
  contents f' = contents f ∧ f_name f' = f_name f ∧
  (x = Raise OSError ∨
   if md_updating md then x = Raise (IndexIsUpdating md)
   else ∃ v, x = Ok v ∧ vol_ok v (md_bytes md) recs ∧
     lv_alignment v = al ∧ lv_md v = md ∧ leases v = Ok (lease_map al recs)).
Proof.
  intros Hal Hbs Hsize Hmd Hok Hv Hn Hd Hi. unfold LeasesVolume_init in Hi. munfold Hi.
  destruct (load _ _) as [f1 x1] eqn:Hl. apply load_spec in Hl as (Hc & Hname & Hx1); [|done..].
  destruct Hx1 as [-> | ->]; [|simplify_eq; auto].
  rewrite Hd in Hi. destruct (wf_index_md al bs md recs) as [Hwf Hread]; [done..|].
  rewrite Hread in Hi. destruct (md_updating md) eqn:Hu; simplify_eq; split_and!; auto.
  right. eexists. split; [done|]. set (v := mkVolume _ _ _ _ _).
  assert (mem_ok v (md_bytes md) recs) as Hmem.
  { constructor; simpl; try done; [apply Hmd|by rewrite Hc]. }
  split_and!; [|done..|by rewrite (leases_spec _ _ _ Hmem)].
  split; [done|]. simpl. unfold disk in *. by rewrite Hc.
Qed.

(** what an open volume reports is what storage holds: opening the file
    again gives the same leases, or fails with the I/O error of the read. *)
Theorem reopen_spec (v : LeasesVolume F) recs m f' x :
  vol_ok v (md_bytes (lv_md v)) recs → valid_metadata (lv_md v) → md_updating (lv_md v) = false →
  leases v = Ok m →
  LeasesVolume_init (lv_alignment v) (lv_block_size v) (lv_file v) = (f', x) →
  x = Raise OSError ∨ ∃ v', x = Ok v' ∧ leases v' = Ok m ∧ vol_ok v' (md_bytes (lv_md v)) recs.
Proof.
  intros [Hm Hd] Hmd Hu Hl Hi. pose proof (mo_index _ _ _ Hm) as Hwf.
  rewrite (leases_spec _ _ _ Hm) in Hl. injection Hl as <-.
  rewrite (wf_buf _ _ _ Hwf) in Hd.
  eapply init_spec in Hi as (_ & _ & [->|Hx]); [by left| |apply Hm..|done|apply Hm|apply Hwf|apply Hwf|done].
  rewrite Hu in Hx. destruct Hx as (v' & -> & Hv' & _ & _ & Hl'). eauto.
Qed.
End Operations.

(** metadata blocks and records survive storage: what [bytes] writes,
    [fromebytes] and [frombytes] read back, for every valid value. *)
Theorem codec_roundtrip r md :
  valid_record r → valid_metadata md →
  (b ← Record_bytes r; Record_frombytes b) = Ok r ∧
  (b ← IndexMetadata_bytes md; IndexMetadata_fromebytes b) = Ok md.
Proof.
  intros Hr Hmd. split.
  - rewrite Record_bytes_valid by apply Hr. by apply Record_frombytes_bytes.
  - rewrite IndexMetadata_bytes_valid by apply Hmd. by apply fromebytes_bytes.
Qed.

(** the byte searches of the index find records.  In a well-formed index
    [find_record] returns the number of the first record of the lease and
    [find_free_record] the number of the first empty record, -1 when there is
    none: no match straddles two records. *)
Theorem find_spec i meta recs s :
  wf_index i meta recs → valid_lease_id s →
  find_record i s = Ok (first_record (fun r => r_resource r = s) recs) ∧
  find_free_record i = Ok (first_record (fun r => r = EMPTY_RECORD) recs).
Proof.
  intros Hi Hs. split; [by eapply find_record_first|by eapply find_free_record_first].
Qed.
