(* ===== verification/XleaseFormat.v ===== *)
(** * External leases: formatting and rebuilding the index *)
From Stdlib Require Import ZArith Lia String Ascii.
From stdpp Require Import base gmap list strings.
From S2P Require Import Prelude Xlease XleaseFacts XleaseSpec.

(** ** Filling an index record by record *)

(** An index with [pre] written after the metadata and [rest] still to fill. *)
Definition filling (meta : bytes) (pre : list Record_) (rest : bytes) (i : VolumeIndex) : Prop :=
  zlen meta = METADATA_SIZE ∧ vi_buf i = index_bytes meta pre ++ rest.

Lemma write_record_next i meta pre rest r :
  filling meta pre rest i → 64 <= zlen rest → valid_record r →
  ∃ i', write_record i (zlen pre) r = Ok i' ∧
    filling meta (pre ++ [r]) (drop 64 rest) i' ∧
    vi_offset i' = vi_offset i ∧ vi_block_size i' = vi_block_size i.
Proof.
  intros [Hm Hb] Hrest Hr. unfold write_record. rewrite Record_bytes_valid by apply Hr.
  cbn [mbind res_bind]. rewrite Hb.
  assert (zlen (index_bytes meta pre) = record_offset (zlen pre)) as Hl.
  { unfold index_bytes, record_offset, RECORD_BASE, RECORD_SIZE.
    rewrite zlen_app, zlen_concat_records, Hm. lia. }
  assert (zlen (take 64 rest) = 64) as Ht by (unfold zlen in *; rewrite length_take; lia).
  rewrite mm_write_ok; [|rewrite <- Hl; apply zlen_nonneg|rewrite zlen_app, zlen_rec_bytes; lia].
  replace (index_bytes meta pre ++ rest)
    with (index_bytes meta pre ++ take 64 rest ++ drop 64 rest) by (by rewrite take_drop).
  rewrite splice_at; [|done|by rewrite zlen_rec_bytes]. eexists. split; [done|].
  split_and!; [split; [done|]|done..]. simpl. unfold index_bytes.
  rewrite map_app, concat_app. simpl. by rewrite app_nil_r, <- !app_assoc.
Qed.

Lemma format_records_spec (n : nat) i meta pre rest :
  filling meta pre rest i → zlen rest = 64 * Z.of_nat n →
  ∃ i', format_records (seqZ (zlen pre) (Z.of_nat n)) i = Ok i' ∧
    filling meta (pre ++ replicate n EMPTY_RECORD) [] i' ∧
    vi_offset i' = vi_offset i ∧ vi_block_size i' = vi_block_size i.
Proof.
  revert i pre rest. induction n as [|n IH]; intros i pre rest Hf Hn.
  - destruct rest; [|unfold zlen in *; simpl in *; lia]. exists i. simpl. by rewrite app_nil_r.
  - rewrite seqZ_cons by lia. cbn [format_records].
    destruct (write_record_next i meta pre rest EMPTY_RECORD) as (i1 & Hw & Hf1 & Ho1 & Hb1);
      [done|lia|apply EMPTY_RECORD_valid|]. rewrite Hw. cbn [mbind res_bind].
    replace (Z.succ (zlen pre)) with (zlen (pre ++ [EMPTY_RECORD])) by (zlen_solve).
    replace (Z.pred (Z.of_nat (S n))) with (Z.of_nat n) by lia.
    destruct (IH i1 (pre ++ [EMPTY_RECORD]) (drop 64 rest)) as (i2 & -> & Hf2 & Ho2 & Hb2);
      [done|unfold zlen in *; rewrite length_drop; lia|].
    exists i2. rewrite <- app_assoc in Hf2. split_and!; [done..|congruence|congruence].
Qed.

Section Rebuild.
  Context {F : Type} `{!File F, !Sanlock F, !FileLaws F, !SanlockLaws F}.
  Variables (f : F) (al bs max_offset : Z).

  (** The records rebuilding finds in the slots from [k]. *)
Definition rebuilt (k : Z) (recs : list Record_) : Prop :=
    ∀ (j : nat) r, recs !! j = Some r →
      rebuild_record f al bs max_offset (k + Z.of_nat j) = Ok r.

  (** The slots whose records rebuilding can store. *)
  Hypothesis rebuild_valid : ∀ k r, 0 <= k < MAX_RECORDS →
    rebuild_record f al bs max_offset k = Ok r → valid_record r.

Lemma rebuild_records_spec (n : nat) i meta pre rest :
    filling meta pre rest i → zlen rest = 64 * Z.of_nat n →
    zlen pre + Z.of_nat n <= MAX_RECORDS →
    (∃ e k, rebuild_records f al bs max_offset (seqZ (zlen pre) (Z.of_nat n)) i = Raise e ∧
       zlen pre <= k < zlen pre + Z.of_nat n ∧ rebuild_record f al bs max_offset k = Raise e) ∨
    ∃ i' recs, rebuild_records f al bs max_offset (seqZ (zlen pre) (Z.of_nat n)) i = Ok i' ∧
      zlen recs = Z.of_nat n ∧ rebuilt (zlen pre) recs ∧ filling meta (pre ++ recs) [] i' ∧
      vi_offset i' = vi_offset i ∧ vi_block_size i' = vi_block_size i.
Proof.
    revert i pre rest. induction n as [|n IH]; intros i pre rest Hf Hn Hmax;
      pose proof (zlen_nonneg pre).
    - right. exists i, []. destruct rest; [|unfold zlen in *; simpl in *; lia].
      rewrite app_nil_r. by split_and!.
    - rewrite seqZ_cons by lia. cbn [rebuild_records].
      destruct (rebuild_record _ _ _ _ (zlen pre)) as [r|e] eqn:Hr; cbn [mbind res_bind];
        [|left; exists e, (zlen pre); split_and!; [done|lia..|done]].
      destruct (write_record_next i meta pre rest r) as (i1 & Hw & Hf1 & Ho1 & Hb1);
        [done|lia|by eapply rebuild_valid; [|exact Hr]; lia|]. rewrite Hw. cbn [mbind res_bind].
      replace (Z.succ (zlen pre)) with (zlen (pre ++ [r])) by (zlen_solve).
      replace (Z.pred (Z.of_nat (S n))) with (Z.of_nat n) by lia.
      destruct (IH i1 (pre ++ [r]) (drop 64 rest))
        as [(e & k & He & Hk & Hrk)|(i2 & recs & Hw2 & Hl & Hr2 & Hf2 & Ho2 & Hb2)];
        [done|unfold zlen in *; rewrite length_drop; lia|zlen_solve| |].
      + left. exists e, k. split_and!; [done|zlen_solve..|done].
      + right. exists i2, (r :: recs). split_and!; [done|zlen_solve| | |congruence|congruence].
        * intros [|j] t Ht; simpl in Ht; simplify_eq; [by rewrite Z.add_0_r|].
          rewrite <- (Hr2 j t Ht). f_equal. zlen_solve.
        * by rewrite <- app_assoc in Hf2.
Qed.
End Rebuild.

(** ** The [updating] context manager *)

Lemma splice_first_block (meta meta' R : bytes) bs :
  zlen meta = METADATA_SIZE → zlen meta' = METADATA_SIZE → METADATA_SIZE <= bs →
  bs <= zlen (meta' ++ R) →
  splice 0 (slice 0 bs (meta' ++ R)) (meta ++ R) = meta' ++ R.
Proof.
  intros Hm Hm' Hbs Hl. unfold splice, slice. rewrite drop_0, take_0. simpl.
  rewrite length_take. replace (Z.to_nat (bs - 0)) with (Z.to_nat bs) by lia.
  replace (_ `min` _)%nat with (Z.to_nat bs) by (unfold zlen in *; lia).
  replace (drop (Z.to_nat bs) (meta ++ R)) with (drop (Z.to_nat bs) (meta' ++ R)).
  - apply take_drop.
  - rewrite !drop_app_ge by (unfold zlen in *; lia). f_equal. unfold zlen in *. lia.
Qed.

Lemma write_metadata_fresh al bs md :
  valid_name (md_lockspace md) →
  ∃ i, write_metadata (VolumeIndex_init al bs) md = Ok i ∧ vi_offset i = al ∧
    vi_block_size i = bs ∧ filling (md_bytes md) [] (zrepeat (64 * MAX_RECORDS) 0) i.
Proof.
  intros Hn. unfold write_metadata. rewrite IndexMetadata_bytes_valid by done.
  cbn [mbind res_bind vi_buf VolumeIndex_init].
  assert (zlen (md_bytes md) = METADATA_SIZE) as Hm by apply zlen_metadata.
  rewrite mm_write_ok by (rewrite ?zlen_zrepeat, ?Hm; unfold METADATA_SIZE, INDEX_SIZE; lia).
  eexists. split; [reflexivity|]. split; [reflexivity|]. split; [reflexivity|]. split; [done|].
  cbn [vi_buf set_buf VolumeIndex_init]. unfold splice, index_bytes.
  change (Z.to_nat 0) with 0%nat. rewrite take_0. cbn [map concat app Nat.add].
  rewrite app_nil_r. f_equal. unfold zrepeat. rewrite drop_replicate. f_equal.
  unfold zlen in Hm. unfold METADATA_SIZE, INDEX_SIZE in *. rewrite MAX_RECORDS_eq. lia.
Qed.

Lemma write_metadata_over i meta recs md :
  filling meta recs [] i → valid_name (md_lockspace md) →
  write_metadata i md = Ok (set_buf (index_bytes (md_bytes md) recs) i).
Proof.
  intros [Hm Hb] Hn. unfold write_metadata. rewrite IndexMetadata_bytes_valid by done.
  cbn [mbind res_bind]. rewrite app_nil_r in Hb. rewrite Hb.
  assert (zlen (md_bytes md) = METADATA_SIZE) as Hm' by apply zlen_metadata.
  unfold index_bytes.
  rewrite mm_write_ok by
    (rewrite ?zlen_app, ?Hm', ?Hm; pose proof (zlen_nonneg (concat (map rec_bytes recs))); lia).
  cbn [or_raise mbind res_bind]. do 2 f_equal. apply (splice_at []); [done|congruence].
Qed.

Section Format.
  Context {F : Type} `{!File F, !Sanlock F, !FileLaws F, !SanlockLaws F}.
  Variables (ls : text) (al bs t0 t1 : Z).
  Hypothesis (Hls : valid_name ls) (Hal : is_alignment al) (Hbs : is_block_size bs).
  Hypothesis (Ht1 : 0 <= t1 < 10 ^ 10).

Definition final_md : IndexMetadata := mkMetadata INDEX_VERSION ls t1 false.

Lemma final_md_valid : valid_metadata final_md.
Proof. split; [done|]. split; [exact Hls|exact Ht1]. Qed.

  (** The end of an update: dump the index, clear the flag, write the first
      block. *)
Lemma updating_end (f f' : F) i meta recs x :
    RESERVED_SLOTS * al <= zlen (contents f) → zlen recs = MAX_RECORDS →
    filling meta recs [] i → vi_offset i = al → vi_block_size i = bs →
    (dump i;;
     i ← lift (write_metadata i final_md);
     block ← lift (ChangeBlock_init (vi_offset i) (vi_buf i) 0 (vi_block_size i));
     block_dump block;; mret ()) f = (f', x) →
    f_name f' = f_name f ∧ zlen (contents f') = zlen (contents f) ∧
    (∀ i j, 0 <= i → j <= al ∨ al + INDEX_SIZE <= i →
       slice i j (contents f') = slice i j (contents f)) ∧
    (x = Raise OSError ∨
     x = Ok () ∧ disk al f' = index_bytes (md_bytes final_md) recs).
Proof.
    intros Hsize Hn Hf Ho Hb. pose proof (is_alignment_bounds _ Hal) as Hal'.
    assert (zlen (vi_buf i) = INDEX_SIZE) as Hl.
    { destruct Hf as [Hm ->]. rewrite app_nil_r. by apply zlen_index_bytes. }
    assert (zlen (index_bytes (md_bytes final_md) recs) = INDEX_SIZE) as Hl1.
    { apply zlen_index_bytes; [apply zlen_metadata|done]. }
    assert (METADATA_SIZE <= bs <= INDEX_SIZE) as Hbs'
      by (unfold METADATA_SIZE, INDEX_SIZE; destruct Hbs as [-> | ->]; lia).
    unfold INDEX_SIZE, RESERVED_SLOTS, METADATA_SIZE in *.
    munfold_goal. unfold dump. rewrite Ho.
    destruct (f_pwrite al (vi_buf i) f) as [f1 [[]|e]] eqn:Hp.
    2:{ intros [= <- <-]. apply pwrite_err in Hp as (-> & Hname & Hlen & Hfr); [|lia..].
        split_and!; [done..| |by left]. intros a b ??. apply Hfr; lia. }
    apply pwrite_ok in Hp as [Hc1 Hname1]; [|lia..].
    assert (zlen (contents f1) = zlen (contents f)) as Hlen1 by (rewrite Hc1; apply zlen_splice; lia).
    rewrite (write_metadata_over _ _ _ final_md Hf Hls). cbn [vi_offset vi_buf vi_block_size set_buf].
    rewrite Ho, Hb. unfold ChangeBlock_init. rewrite zlen_slice by lia.
    replace (0 + bs - 0) with bs by lia. rewrite Z.eqb_refl.
    unfold block_dump. cbn [cb_index_offset cb_offset cb_buf]. rewrite Z.add_0_r.
    set (blk := slice 0 (0 + bs) _). assert (zlen blk = bs) as Hblk by (unfold blk; rewrite zlen_slice; lia).
    destruct (f_pwrite al blk f1) as [f2 [[]|e]] eqn:Hp2; intros [= <- <-].
    - apply pwrite_ok in Hp2 as [Hc2 Hname2]; [|lia..].
      split_and!; [congruence|rewrite Hc2, zlen_splice; lia| |right; split; [done|]].
      + intros a b ??. rewrite Hc2, Hc1, !slice_splice_disjoint; rewrite ?zlen_splice; lia || done.
      + unfold disk. rewrite Hc2, Hc1. unfold INDEX_SIZE.
        rewrite !slice_splice_inside by (rewrite ?zlen_splice; lia). rewrite Z.sub_diag.
        destruct Hf as [Hm Hbuf]. rewrite app_nil_r in Hbuf.
        replace (splice 0 (vi_buf i) _) with (vi_buf i).
        * rewrite Hbuf. unfold blk. apply splice_first_block; [done|apply zlen_metadata| |].
          -- unfold METADATA_SIZE. lia.
          -- fold (index_bytes (md_bytes final_md) recs). lia.
        * unfold splice. rewrite take_0. simpl. rewrite drop_ge; [by rewrite app_nil_r|].
          assert (zlen (slice al (al + 62 * 4096) (contents f)) = 62 * 4096) as Hsl
            by (rewrite zlen_slice; lia). unfold zlen in *. lia.
    - apply pwrite_err in Hp2 as (-> & Hname2 & Hlen2 & Hfr); [|lia..].
      split_and!; [congruence|congruence| |by left].
      intros a b ??. rewrite Hfr by lia. rewrite Hc1, slice_splice_disjoint; lia || done.
Qed.

  (** Files that agree outside the index slot. *)
Definition same_outside (f f' : F) : Prop :=
    f_name f' = f_name f ∧ zlen (contents f') = zlen (contents f) ∧
    ∀ i j, 0 <= i → j <= al ∨ al + INDEX_SIZE <= i →
      slice i j (contents f') = slice i j (contents f).

  (** What opening the volume gives once the index holds [recs]. *)
Definition opens_with (f : F) (recs : list Record_) : Prop :=
    ∀ f' y, LeasesVolume_init al bs f = (f', y) →
      y = Raise OSError ∨
      ∃ v, y = Ok v ∧ vol_ok v (md_bytes final_md) recs ∧ lockspace v = ls ∧
        leases v = Ok (lease_map al recs).

Lemma opens_with_intro f recs :
    RESERVED_SLOTS * al <= zlen (contents f) → recs_ok al recs → Forall valid_record recs →
    zlen recs = MAX_RECORDS → disk al f = index_bytes (md_bytes final_md) recs →
    opens_with f recs.
Proof.
    intros Hs Hok Hv Hn Hd f' y Hy.
    pose proof (init_spec al bs final_md recs f f' y Hal Hbs Hs final_md_valid Hok Hv Hn Hd Hy)
      as (_ & _ & [->|(v & -> & Hv' & _ & Hmd & Hl)]); [by left|right].
    exists v. unfold lockspace. by rewrite Hmd.
Qed.

  (** An update whose body fills the index with [recs] and dumps it. *)
Lemma updating_run (f f' : F) body i1 meta recs x :
    (∀ i0, vi_offset i0 = al → vi_block_size i0 = bs →
       filling (md_bytes (mkMetadata INDEX_VERSION ls t0 true)) [] (zrepeat (64 * MAX_RECORDS) 0) i0 →
       body i0 f = (dump i1;; mret i1) f) →
    RESERVED_SLOTS * al <= zlen (contents f) → zlen recs = MAX_RECORDS →
    filling meta recs [] i1 → vi_offset i1 = al → vi_block_size i1 = bs →
    (updating ls t0 t1 body (VolumeIndex_init al bs);; mret ()) f = (f', x) →
    same_outside f f' ∧
    (x = Raise OSError ∨ x = Ok () ∧ disk al f' = index_bytes (md_bytes final_md) recs).
Proof.
    intros Hbody Hsize Hn Hf Ho Hb Hrun.
    enough (Hend : (dump i1;;
      i ← lift (write_metadata i1 final_md);
      block ← lift (ChangeBlock_init (vi_offset i) (vi_buf i) 0 (vi_block_size i));
      block_dump block;; mret ()) f = (f', x)).
    { pose proof (updating_end _ _ _ _ _ _ Hsize Hn Hf Ho Hb Hend). unfold same_outside. tauto. }
    rewrite <- Hrun. unfold updating. munfold_goal.
    destruct (write_metadata_fresh al bs (mkMetadata INDEX_VERSION ls t0 true) Hls)
      as (i0 & -> & Ho0 & Hb0 & Hf0).
    rewrite (Hbody i0 Ho0 Hb0 Hf0). munfold_goal. fold final_md.
    destruct (dump i1 f) as [f1 [[]|]]; [|done].
    destruct (write_metadata i1 final_md); [|done]. destruct (ChangeBlock_init _ _ _ _); [|done].
    by destruct (block_dump _ f1) as [f2 [[]|]].
Qed.
End Format.

(** ** Formatting and rebuilding *)

Section Results.
  Context {F : Type} `{!File F, !Sanlock F, !FileLaws F, !SanlockLaws F}.
  Variables (ls : text) (al bs t0 t1 : Z).
  Hypothesis (Hls : valid_name ls) (Hal : is_alignment al) (Hbs : is_block_size bs).
  Hypothesis (Ht1 : 0 <= t1 < 10 ^ 10).

Lemma replicate_empty_ok n : recs_ok al (replicate n EMPTY_RECORD).
Proof.
  split.
  - intros k r [-> _]%lookup_replicate. by left.
  - intros j k r s [-> _]%lookup_replicate _ _ H. done.
Qed.

Lemma lease_map_from_empty n k m : lease_map_from al k (replicate n EMPTY_RECORD) m = m.
Proof. revert k. induction n as [|n IH]; intros k; simpl; auto. Qed.

(** The slots rebuilding reads: those inside the volume. *)
Definition slot_resource (f : F) (k : Z) (info : ResourceInfo) : Prop :=
  0 <= k < MAX_RECORDS ∧ lease_offset k al <= f_size f - al ∧
  read_resource (f_name f) (lease_offset k al) al bs f = Ok info.

Lemma read_resource_nonempty path off (f : F) info :
  read_resource path off al bs f = Ok info → ri_resource info ≠ [].
Proof.
  unfold read_resource. destruct (sl_read_resource _ _ _ _ _) as [r|e]; [|by case_match].
  destruct (slr_resource r) as [|b t] eqn:Er; [done|]. unfold or_raise.
  destruct (utf8_decode (slr_lockspace r)); [|done]. cbn [mbind res_bind].
  destruct (utf8_decode (b :: t)) eqn:Ed; [|done]. intros [= <-] E.
  simpl in E. subst. by apply utf8_decode_nil in Ed.
Qed.

(** The record of a slot: of its resource, or empty. *)
Lemma rebuild_record_inv (f : F) k r :
  0 <= k < MAX_RECORDS → rebuild_record f al bs (f_size f - al) k = Ok r →
  r = EMPTY_RECORD ∧ (∀ info, ¬ slot_resource f k info) ∨
  ∃ info, slot_resource f k info ∧ r = mkRecord (ri_resource info) (lease_offset k al) false.
Proof.
  intros Hk. unfold rebuild_record, slot_resource.
  destruct (Z.ltb_spec (f_size f - al) (lease_offset k al)); [intros [= <-]; left; split; [done|lia]|].
  destruct (read_resource _ _ _ _ _) as [info|e] eqn:Er; [intros [= <-]; eauto 7|].
  destruct e; intros [= <-]; left; split; [done|]; intros info (_ & _ & ?); congruence.
Qed.

Section Resources.
  Variable f : F.
  (** The resources in the volume have valid, distinct names. *)
  Hypothesis resource_valid : ∀ k info, slot_resource f k info → valid_lease_id (ri_resource info).
  Hypothesis resource_unique : ∀ j k i1 i2,
    slot_resource f j i1 → slot_resource f k i2 → ri_resource i1 = ri_resource i2 → j = k.

Lemma rebuild_record_ok k r :
  0 <= k < MAX_RECORDS → rebuild_record f al bs (f_size f - al) k = Ok r →
  record_ok al (Z.to_nat k) r.
Proof.
  intros Hk [[-> _]|(info & Hs & ->)]%rebuild_record_inv; [by left| |done].
  right. simpl. split_and!; [by eapply resource_valid| |by rewrite Z2Nat.id by lia].
  destruct Hs as (_ & _ & Hr). by eapply read_resource_nonempty.
Qed.

Lemma rebuilt_ok recs :
  zlen recs = MAX_RECORDS → rebuilt f al bs (f_size f - al) 0 recs →
  recs_ok al recs ∧ Forall valid_record recs.
Proof.
  intros Hn Hr.
  assert (∀ (j : nat) r, recs !! j = Some r → 0 <= Z.of_nat j < MAX_RECORDS) as Hb.
  { intros j r Hj%lookup_lt_Some. unfold zlen in Hn. lia. }
  assert (∀ j r, recs !! j = Some r → record_ok al j r) as Hrec.
  { intros j r Hj. pose proof (Hb _ _ Hj). rewrite <- (Nat2Z.id j).
    apply rebuild_record_ok; [done|]. by apply Hr. }
  split; [split; [done|]|].
  - intros j k r s Hj Hk E Hne. pose proof (Hb _ _ Hj). pose proof (Hb _ _ Hk).
    apply Hr, rebuild_record_inv in Hj as [[-> _]|(i1 & H1 & ->)]; [done| |done].
    apply Hr, rebuild_record_inv in Hk as [[-> _]|(i2 & H2 & ->)]; [simpl in *; congruence| |done].
    simpl in E. pose proof (resource_unique _ _ _ _ H1 H2 E). lia.
  - apply Forall_lookup. intros j r Hj. eapply record_ok_valid; [done|exact Hn| |by apply Hrec].
    by eapply lookup_lt_Some.
Qed.

(** The leases of a rebuilt index are the resources in the volume. *)
Lemma rebuilt_lease_map recs s p :
  zlen recs = MAX_RECORDS → rebuilt f al bs (f_size f - al) 0 recs →
  lease_map al recs !! s = Some p ↔
  ∃ k info, slot_resource f k info ∧ ri_resource info = s ∧ p = (lease_offset k al, false).
Proof.
  intros Hn Hr. destruct (rebuilt_ok recs Hn Hr) as [Hok _]. rewrite lease_map_Some by done.
  unfold names. split.
  - intros (Hs & k & r & Hk & <- & ->). pose proof (lookup_lt_Some _ _ _ Hk).
    apply Hr, rebuild_record_inv in Hk as [[-> _]|(info & Hi & ->)]; [done| |unfold zlen in Hn; lia].
    eauto.
  - intros (k & info & Hi & <- & ->). pose proof Hi as (Hk & _ & Hread).
    split; [by eapply read_resource_nonempty|].
    destruct (lookup_lt_is_Some_2 recs (Z.to_nat k)) as [r Hrk]; [unfold zlen in Hn; lia|].
    exists (Z.to_nat k), r. split; [done|]. rewrite Z2Nat.id by lia.
    apply Hr in Hrk. rewrite Z2Nat.id, Z.add_0_l in Hrk by lia.
    apply rebuild_record_inv in Hrk as [[-> Hno]|(i2 & Hi2 & ->)]; [by destruct (Hno info)| |done].
    destruct Hi2 as (_ & _ & Hread2). simpl. split; congruence.
Qed.

(** C3: [rebuild_index].  When it succeeds, the volume opens with exactly the
    sanlock resources found in the slots inside the volume, each at the offset
    of its slot and not updating.  When reading a slot fails, nothing at all has
    been written: storage keeps the index it had. *)
Theorem rebuild_index_spec f' x :
  RESERVED_SLOTS * al <= zlen (contents f) →
  rebuild_index ls al bs t0 t1 f = (f', x) →
  (∃ e k, x = Raise e ∧ f' = f ∧ 0 <= k < MAX_RECORDS ∧
     rebuild_record f al bs (f_size f - al) k = Raise e) ∨
  same_outside al f f' ∧
  (x = Raise OSError ∨
   x = Ok () ∧ ∀ f'' y, LeasesVolume_init al bs f' = (f'', y) →
     y = Raise OSError ∨
     ∃ v m, y = Ok v ∧ lockspace v = ls ∧ leases v = Ok m ∧
       ∀ s p, m !! s = Some p ↔
         ∃ k info, slot_resource f k info ∧ ri_resource info = s ∧ p = (lease_offset k al, false)).
Proof.
  intros Hsize Hrun. unfold rebuild_index in Hrun.
  assert (zlen (zrepeat (64 * MAX_RECORDS) 0) = 64 * Z.of_nat (Z.to_nat MAX_RECORDS)) as Hz
    by (rewrite zlen_zrepeat, MAX_RECORDS_eq; lia).
  set (n := Z.to_nat MAX_RECORDS) in *.
  assert (Z.of_nat n = MAX_RECORDS) as Hnn by (unfold n; rewrite MAX_RECORDS_eq; lia).
  set (md0 := mkMetadata INDEX_VERSION ls t0 true).
  destruct (write_metadata_fresh al bs md0 Hls) as (i0 & Hw0 & Ho0 & Hb0 & Hf0).
  assert (∀ k r, 0 <= k < MAX_RECORDS → rebuild_record f al bs (f_size f - al) k = Ok r →
    valid_record r) as Hvalid.
  { intros k r Hk Hr. eapply (record_ok_valid al (Z.to_nat k) n); [done..|lia|].
    by apply rebuild_record_ok. }
  destruct (rebuild_records_spec f al bs (f_size f - al) Hvalid n i0 (md_bytes md0) []
    (zrepeat (64 * MAX_RECORDS) 0) Hf0 Hz) as
    [(e & k & He & Hk & Hrk)|(i1 & recs & Hreb & Hl & Hr & Hf1 & Ho1 & Hb1)];
    [rewrite zlen_nil; lia| |]; rewrite zlen_nil, Hnn in *.
  - left. exists e, k. munfold Hrun. unfold updating in Hrun. munfold Hrun. fold md0 in Hrun.
    rewrite Hw0, He in Hrun. injection Hrun as <- <-. split_and!; [reflexivity|reflexivity|lia|lia|exact Hrk].
  - right. assert (∀ i, vi_offset i = al → vi_block_size i = bs →
      filling (md_bytes md0) [] (zrepeat (64 * MAX_RECORDS) 0) i →
      (fun index f => (
        let max_offset := f_size f - al in
        index ← lift (rebuild_records f al bs max_offset (seqZ 0 MAX_RECORDS) index);
        dump index;;
        mret index) f) i f = (dump i1;; mret i1) f) as Hbody.
    { intros i Ho Hb Hf. munfold_goal. assert (i = i0) as ->.
      { destruct i, i0, Hf as [_ Hf], Hf0 as [_ Hf0]. simpl in *. congruence. }
      by rewrite Hreb. }
    rewrite Ho0 in Ho1. rewrite Hb0 in Hb1.
    destruct (updating_run _ _ _ _ _ Hls Hal Hbs Ht1 _ _ _ _ _ _ _ Hbody Hsize Hl Hf1 Ho1 Hb1 Hrun)
      as [Hout Hx].
    split; [done|]. destruct Hx as [->|[-> Hd]]; [by left|right]. split; [done|]. intros f'' y Hy.
    assert (RESERVED_SLOTS * al <= zlen (contents f')) as Hsize' by (by destruct Hout as (_ & -> & _)).
    destruct (rebuilt_ok recs Hl Hr) as [Hok Hv].
    destruct (opens_with_intro _ _ _ _ Hls Hal Hbs Ht1 _ _ Hsize' Hok Hv Hl Hd f'' y Hy)
      as [->|(v & -> & _ & Hls' & Hlv)]; [by left|right].
    exists v, (lease_map al recs). split_and!; [done..|]. intros s p. by apply rebuilt_lease_map.
Qed.
End Resources.

(** [format_index] writes only the index slot; when it succeeds, opening
    the volume gives the requested lockspace, no leases, and the invariant of an
    open volume. *)
Theorem format_index_spec (f f' : F) x :
  RESERVED_SLOTS * al <= zlen (contents f) →
  format_index ls al bs t0 t1 f = (f', x) →
  same_outside al f f' ∧
  (x = Raise OSError ∨
   x = Ok () ∧ ∀ f'' y, LeasesVolume_init al bs f' = (f'', y) →
     y = Raise OSError ∨
     ∃ v, y = Ok v ∧ leases v = Ok ∅ ∧ lockspace v = ls ∧ ∃ meta recs, vol_ok v meta recs).
Proof.
  intros Hsize Hrun. unfold format_index in Hrun.
  assert (zlen (zrepeat (64 * MAX_RECORDS) 0) = 64 * Z.of_nat (Z.to_nat MAX_RECORDS)) as Hz
    by (rewrite zlen_zrepeat, MAX_RECORDS_eq; lia).
  set (n := Z.to_nat MAX_RECORDS) in *.
  set (i0 := set_buf (index_bytes (md_bytes (mkMetadata INDEX_VERSION ls t0 true)) []
      ++ zrepeat (64 * MAX_RECORDS) 0) (VolumeIndex_init al bs)).
  destruct (format_records_spec n i0 (md_bytes (mkMetadata INDEX_VERSION ls t0 true)) []
    (zrepeat (64 * MAX_RECORDS) 0)) as (i1 & Hfmt & Hf1 & Ho1 & Hb1);
    [split; [apply zlen_metadata|done]|done|].
  change ([] ++ replicate n EMPTY_RECORD) with (replicate n EMPTY_RECORD) in Hf1.
  assert (zlen (replicate n EMPTY_RECORD) = MAX_RECORDS) as Hn.
  { unfold zlen. rewrite length_replicate. unfold n. rewrite MAX_RECORDS_eq. lia. }
  assert (∀ i, vi_offset i = al → vi_block_size i = bs →
    filling (md_bytes (mkMetadata INDEX_VERSION ls t0 true)) [] (zrepeat (64 * MAX_RECORDS) 0) i →
    (index ← lift (format_records (seqZ 0 MAX_RECORDS) i); dump index;; mret index) f
    = (dump i1;; mret i1) f) as Hbody.
  { intros i Ho Hb Hf. munfold_goal. assert (i = i0) as ->.
    { destruct i, Hf as [_ Hf]. simpl in Ho, Hb, Hf. subst. reflexivity. }
    replace (seqZ 0 MAX_RECORDS) with (seqZ (zlen (@nil Record_)) (Z.of_nat n))
      by (unfold n; rewrite Z2Nat.id by (rewrite MAX_RECORDS_eq; lia); done).
    by rewrite Hfmt. }
  destruct (updating_run _ _ _ _ _ Hls Hal Hbs Ht1 _ _ _ _ _ _ _ Hbody Hsize Hn Hf1 Ho1 Hb1 Hrun)
    as [Hout Hx].
  split; [done|]. destruct Hx as [->|[-> Hd]]; [by left|right]. split; [done|]. intros f'' y Hy.
  assert (RESERVED_SLOTS * al <= zlen (contents f')) as Hsize' by (by destruct Hout as (_ & -> & _)).
  destruct (opens_with_intro _ _ _ _ Hls Hal Hbs Ht1 _ _ Hsize' (replicate_empty_ok n)
    (Forall_replicate _ _ _ EMPTY_RECORD_valid) Hn Hd f'' y Hy)
    as [->|(v & -> & Hv & Hls' & Hl)]; [by left|right].
  exists v. split_and!; [done|by rewrite Hl; unfold lease_map; rewrite lease_map_from_empty|done|by eauto].
Qed.
End Results.
