(* ===== verification/DirectFile.v ===== *)
(** * DirectFile: reading and writing whole buffers over short transfers

    [storage/xlease.py], class DirectFile.  The loops of [pread] and [pwrite]
    are translated over a kernel interface; the theorems show that they
    transfer the whole buffer whatever sizes the kernel chooses, and that a
    DirectFile keeps the promises of [FileLaws] on which the leases volume
    relies. *)
From Stdlib Require Import ZArith Lia String Ascii.
From stdpp Require Import base gmap list strings.
From S2P Require Import Prelude Xlease XleaseFacts.

(** ** The system calls

    [sys_read off n] is [readinto] of a buffer of [n] bytes at file position
    [off], [sys_write off data] is [write], both after retrying interrupted
    calls ([osutils.uninterruptible]); [sys_fsync] is [os.fsync]. *)
Class Kernel (K : Type) := {
  sys_size : K → Z;
  sys_read : Z → Z → K → K * res error bytes;
  sys_write : Z → bytes → K → K * res error Z;
  sys_fsync : K → K * res error unit;
}.

Record DirectFile (K : Type) := mkDirectFile {
  df_path : text;
  df_kernel : K;
}.
Arguments mkDirectFile {K}.
Arguments df_path {K}.
Arguments df_kernel {K}.

Section DirectFileOps.
  Context {K : Type} `{!Kernel K}.

(** [while pos < len(buf)]: read at the current position until the buffer is
    full or the file ends. *)
Fixpoint pread_loop (fuel : nat) (offset pos len : Z) (buf : bytes) : M K error bytes :=
  match fuel with
  | O => if pos <? len then raise OutOfFuel else mret buf
  | S fuel' =>
      if pos <? len then
        data ← sys_read (offset + pos) (len - pos);
        if zlen data =? 0 then mret buf
        else pread_loop fuel' offset (pos + zlen data) len (buf ++ data)
      else mret buf
  end.

(** Every iteration but the last reads at least one byte. *)
Definition DirectFile_pread (offset len : Z) : M K error bytes :=
  pread_loop (Z.to_nat len) offset 0 len [].

Fixpoint pwrite_loop (fuel : nat) (offset pos : Z) (buf : bytes) : M K error unit :=
  match fuel with
  | O => if pos <? zlen buf then raise OutOfFuel else mret ()
  | S fuel' =>
      if pos <? zlen buf then
        n ← sys_write (offset + pos) (drop (Z.to_nat pos) buf);
        pwrite_loop fuel' offset (pos + n) buf
      else mret ()
  end.

Definition DirectFile_pwrite (offset : Z) (buf : bytes) : M K error unit :=
  pwrite_loop (length buf) offset 0 buf;; sys_fsync.

Definition on_kernel {A} (m : M K error A) : M (DirectFile K) error A := fun f =>
  let '(k, r) := m (df_kernel f) in (mkDirectFile (df_path f) k, r).

#[export] Instance DirectFile_File : File (DirectFile K) := {
  f_name := df_path;
  f_size f := sys_size (df_kernel f);
  f_pread off len := on_kernel (DirectFile_pread off len);
  f_pwrite off buf := on_kernel (DirectFile_pwrite off buf);
}.
End DirectFileOps.

(** ** What the kernel promises

    A read returns bytes of the file, none only at its end; a write inside the
    file transfers a non-empty prefix; a failed call touches at most the range
    it was given, and a write of one aligned block is all or nothing. *)
Class KernelLaws (K : Type) `{!Kernel K} := {
  kcontents : K → bytes;
  sys_size_spec k : sys_size k = zlen (kcontents k);
  sys_read_ok off n k k' data :
    0 <= off → 0 < n → sys_read off n k = (k', Ok data) →
    kcontents k' = kcontents k ∧ zlen data <= n ∧ data = slice off (off + zlen data) (kcontents k) ∧
    (data = [] → zlen (kcontents k) <= off);
  sys_read_err off n k k' e :
    sys_read off n k = (k', Raise e) → e = OSError ∧ kcontents k' = kcontents k;
  sys_write_ok off data k k' n :
    0 <= off → off + zlen data <= zlen (kcontents k) → data ≠ [] →
    sys_write off data k = (k', Ok n) →
    0 < n <= zlen data ∧ kcontents k' = splice off (take (Z.to_nat n) data) (kcontents k);
  sys_write_err off data k k' e :
    0 <= off → off + zlen data <= zlen (kcontents k) →
    sys_write off data k = (k', Raise e) →
    e = OSError ∧ zlen (kcontents k') = zlen (kcontents k) ∧
    ∀ i j, 0 <= i → j <= off ∨ off + zlen data <= i →
      slice i j (kcontents k') = slice i j (kcontents k);
  sys_write_block bs off data k k' x :
    is_block_size bs → off mod bs = 0 → zlen data = bs →
    0 <= off → off + zlen data <= zlen (kcontents k) →
    sys_write off data k = (k', x) →
    match x with
    | Ok n => n = bs
    | Raise _ => kcontents k' = kcontents k ∨ kcontents k' = splice off data (kcontents k)
    end;
  sys_fsync_spec k k' x :
    sys_fsync k = (k', x) → kcontents k' = kcontents k ∧ (x = Ok () ∨ x = Raise OSError);
}.

Section DirectFileFacts.
  Context {K : Type} `{!Kernel K, !KernelLaws K}.

(** The read loop returns the bytes of the file from [off], to the end of the
    buffer or of the file. *)
Lemma pread_loop_spec fuel off pos len buf k k' x :
  0 <= off → 0 <= pos <= len → len - pos <= Z.of_nat fuel →
  buf = slice off (off + pos) (kcontents k) →
  pread_loop fuel off pos len buf k = (k', x) →
  kcontents k' = kcontents k ∧
  (x = Ok (slice off (off + len) (kcontents k)) ∨ x = Raise OSError).
Proof.
  intros Hoff. revert pos buf k. induction fuel as [|fuel IH]; intros pos buf k Hpos Hfuel -> Hrun; simpl in Hrun.
  - destruct (Z.ltb_spec pos len); [lia|]. munfold Hrun. simplify_eq.
    assert (pos = len) as -> by lia. auto.
  - destruct (Z.ltb_spec pos len) as [Hlt|Hge].
    2:{ munfold Hrun. simplify_eq. assert (pos = len) as -> by lia. auto. }
    munfold Hrun. destruct (sys_read _ _ k) as [k1 [data|e]] eqn:Hr.
    2:{ simplify_eq. apply sys_read_err in Hr as [-> ->]. auto. }
    apply sys_read_ok in Hr as (Hc & Hn & Hd & Heof); [|lia..].
    destruct (Z.eqb_spec (zlen data) 0) as [Hz|Hz].
    + simplify_eq. split; [done|]. left. f_equal.
      destruct data; [|unfold zlen in Hz; simpl in Hz; lia]. specialize (Heof eq_refl).
      rewrite <- (slice_app_slice _ off (off + pos) (off + len)) by lia.
      by rewrite (slice_past_end _ (off + pos)), app_nil_r by lia.
    + pose proof (zlen_nonneg data). apply IH in Hrun; [by rewrite Hc in Hrun|lia|lia|].
      rewrite Hc, Hd at 1. rewrite slice_app_slice by lia. f_equal. lia.
Qed.

(** The write loop replaces exactly its range, or fails inside it. *)
Lemma pwrite_loop_spec fuel off pos buf k k' x :
  0 <= off → off + zlen buf <= zlen (kcontents k) →
  0 <= pos <= zlen buf → zlen buf - pos <= Z.of_nat fuel →
  pwrite_loop fuel off pos buf k = (k', x) →
  zlen (kcontents k') = zlen (kcontents k) ∧
  (∀ i j, 0 <= i → j <= off ∨ off + zlen buf <= i →
     slice i j (kcontents k') = slice i j (kcontents k)) ∧
  (x = Ok () ∧ kcontents k' = splice (off + pos) (drop (Z.to_nat pos) buf) (kcontents k) ∨
   x = Raise OSError).
Proof.
  intros Hoff. revert pos k. induction fuel as [|fuel IH]; intros pos k Hin Hpos Hfuel Hrun; simpl in Hrun.
  all: assert (pos = zlen buf →
    kcontents k = splice (off + pos) (drop (Z.to_nat pos) buf) (kcontents k)) as Hid
    by (intros ->; unfold zlen; rewrite Nat2Z.id, drop_all; unfold splice; simpl;
        by rewrite Nat.add_0_r, take_drop).
  - destruct (Z.ltb_spec pos (zlen buf)); [lia|]. munfold Hrun. simplify_eq.
    split_and!; [done..|]. left. split; [done|]. apply Hid. lia.
  - destruct (Z.ltb_spec pos (zlen buf)) as [Hlt|Hge].
    2:{ munfold Hrun. simplify_eq. split_and!; [done..|]. left. split; [done|]. apply Hid. lia. }
    clear Hid. munfold Hrun. set (rest := drop (Z.to_nat pos) buf) in *.
    assert (zlen rest = zlen buf - pos) as Hrest by (unfold rest, zlen in *; rewrite length_drop; lia).
    destruct (sys_write _ rest k) as [k1 [n|e]] eqn:Hw.
    2:{ simplify_eq. apply sys_write_err in Hw as (-> & Hl & Hfr); [|lia..].
        split_and!; [done| |by right]. intros i j ??. apply Hfr; lia. }
    apply sys_write_ok in Hw as [Hn Hc]; [|lia|lia|intros E; rewrite E in Hrest; unfold zlen in *; simpl in *; lia].
    assert (zlen (take (Z.to_nat n) rest) = n) as Htk by (unfold zlen in *; rewrite length_take; lia).
    assert (zlen (kcontents k1) = zlen (kcontents k)) as Hl1 by (rewrite Hc; apply zlen_splice; lia).
    apply IH in Hrun as (Hl & Hfr & Hx); [|lia..].
    split_and!; [congruence| |].
    + intros i j ??. rewrite Hfr by done. rewrite Hc. apply slice_splice_disjoint; lia.
    + destruct Hx as [[-> Hx]| ->]; [left|by right]. split; [done|]. rewrite Hx, Hc.
      assert (zlen (drop (Z.to_nat (pos + n)) buf) = zlen buf - pos - n) as Hdr
        by (unfold zlen in *; rewrite length_drop; lia).
      apply list_eq. intros m.
      rewrite !lookup_splice by (rewrite ?zlen_splice; lia).
      rewrite Htk, Hdr, Hrest. unfold rest. repeat case_decide; try lia; try done.
      * rewrite !lookup_drop. f_equal. lia.
      * rewrite lookup_take_lt by lia. rewrite !lookup_drop. f_equal.
Qed.

(** A write of one aligned block goes to the kernel in one call. *)
Lemma pwrite_block bs off data k k' e :
  is_block_size bs → off mod bs = 0 → zlen data = bs →
  0 <= off → off + zlen data <= zlen (kcontents k) →
  DirectFile_pwrite off data k = (k', Raise e) →
  kcontents k' = kcontents k ∨ kcontents k' = splice off data (kcontents k).
Proof.
  intros Hbs Hmod Hlen Hoff Hin. assert (0 < zlen data) as Hpos by (destruct Hbs; lia).
  unfold DirectFile_pwrite. munfold_goal.
  destruct (length data) as [|fuel] eqn:El; [unfold zlen in Hpos; lia|].
  cbn [pwrite_loop]. munfold_goal. rewrite (proj2 (Z.ltb_lt _ _)) by done.
  rewrite Z.add_0_r. change (drop (Z.to_nat 0) data) with data.
  destruct (sys_write off data k) as [k1 [n|e1]] eqn:Hw.
  - pose proof (sys_write_block _ _ _ _ _ _ Hbs Hmod Hlen Hoff Hin Hw) as ->.
    apply sys_write_ok in Hw as [_ Hc]; [|done..|by destruct data].
    rewrite take_ge in Hc by (unfold zlen in *; lia).
    assert (pwrite_loop fuel off (0 + bs) data k1 = (k1, Ok ())) as ->.
    { destruct fuel; cbn [pwrite_loop]; (destruct (Z.ltb_spec (0 + bs) (zlen data)); [lia|done]). }
    intros Hf. apply sys_fsync_spec in Hf as [-> _]. by right.
  - intros [= <- <-]. by apply (sys_write_block _ _ _ _ _ _ Hbs Hmod Hlen Hoff Hin Hw).
Qed.

Lemma pread_spec off len k k' x :
  0 <= off → 0 <= len → DirectFile_pread off len k = (k', x) →
  kcontents k' = kcontents k ∧
  (x = Ok (slice off (off + len) (kcontents k)) ∨ x = Raise OSError).
Proof.
  intros Hoff Hlen Hrun.
  eapply (pread_loop_spec (Z.to_nat len) off 0 len []); [done|lia|lia| |exact Hrun].
  rewrite Z.add_0_r. unfold slice. by rewrite Z.sub_diag.
Qed.

Lemma pwrite_spec off buf k k' x :
  0 <= off → off + zlen buf <= zlen (kcontents k) → DirectFile_pwrite off buf k = (k', x) →
  zlen (kcontents k') = zlen (kcontents k) ∧
  (∀ i j, 0 <= i → j <= off ∨ off + zlen buf <= i →
     slice i j (kcontents k') = slice i j (kcontents k)) ∧
  (x = Ok () ∧ kcontents k' = splice off buf (kcontents k) ∨ x = Raise OSError).
Proof.
  intros Hoff Hin Hrun. unfold DirectFile_pwrite in Hrun. munfold Hrun.
  destruct (pwrite_loop _ _ _ _ _) as [k1 x1] eqn:Hl. pose proof (zlen_nonneg buf).
  apply pwrite_loop_spec in Hl as (Hz & Hfr & Hx); [|done|done|lia|unfold zlen; lia].
  destruct Hx as [[-> Hc]| ->]; [|by simplify_eq; auto].
  apply sys_fsync_spec in Hrun as [Hf Hx]. rewrite Hf. split_and!; [done..|].
  rewrite Z.add_0_r in Hc. destruct Hx as [-> | ->]; auto.
Qed.

(** DirectFile transfers whole buffers.  However many bytes each system
    call moves, [pread] returns the bytes of the file up to the end of the
    buffer or of the file, and [pwrite] replaces exactly its range, or raises
    the I/O error having touched only that range; neither loop runs out of its
    bound. *)
Theorem direct_io_spec off buf len k :
  0 <= off → 0 <= len → off + zlen buf <= zlen (kcontents k) →
  (∀ k' x, DirectFile_pread off len k = (k', x) →
     kcontents k' = kcontents k ∧
     (x = Ok (slice off (off + len) (kcontents k)) ∨ x = Raise OSError)) ∧
  (∀ k' x, DirectFile_pwrite off buf k = (k', x) →
     zlen (kcontents k') = zlen (kcontents k) ∧
     (∀ i j, 0 <= i → j <= off ∨ off + zlen buf <= i →
        slice i j (kcontents k') = slice i j (kcontents k)) ∧
     (x = Ok () ∧ kcontents k' = splice off buf (kcontents k) ∨ x = Raise OSError)).
Proof.
  intros Hoff Hlen Hin. split; intros k' x Hrun; [by apply pread_spec|by apply pwrite_spec].
Qed.

(** A DirectFile keeps the promises of the file interface. *)
#[export] Program Instance DirectFile_FileLaws : FileLaws (DirectFile K) := {
  contents f := kcontents (df_kernel f);
}.
Next Obligation. intros f. apply sys_size_spec. Qed.
Next Obligation.
  intros off n f f' data Hoff Hn. simpl. unfold on_kernel.
  destruct (DirectFile_pread _ _ _) as [k' x] eqn:E. intros [= <- ->]. simpl.
  apply pread_spec in E as [-> [[= ->]|?]]; done.
Qed.
Next Obligation.
  intros off n f f' e Hoff Hn. simpl. unfold on_kernel.
  destruct (DirectFile_pread _ _ _) as [k' x] eqn:E. intros [= <- ->]. simpl.
  apply pread_spec in E as [-> [?|[= ->]]]; done.
Qed.
Next Obligation.
  intros off data f f' Hoff Hin. simpl. unfold on_kernel.
  destruct (DirectFile_pwrite _ _ _) as [k' x] eqn:E. intros [= <- ->]. simpl.
  apply pwrite_spec in E as (_ & _ & [[_ ->]|?]); done.
Qed.
Next Obligation.
  intros off data f f' e Hoff Hin. simpl. unfold on_kernel.
  destruct (DirectFile_pwrite _ _ _) as [k' x] eqn:E. intros [= <- ->]. simpl.
  apply pwrite_spec in E as (? & ? & [[? _]|[= ->]]); done.
Qed.
Next Obligation.
  intros bs off data f f' e Hbs Hmod Hlen Hoff Hin. simpl. unfold on_kernel.
  destruct (DirectFile_pwrite _ _ _) as [k' x] eqn:E. intros [= <- ->]. simpl.
  by eapply pwrite_block.
Qed.
End DirectFileFacts.

(** ** A kernel that keeps its promises

    A file in memory that reads at most [mk_chunk] bytes at a time, with the
    sanlock resources of its lease areas.  It shows that the laws can hold, and
    is where the theorems about leases volumes are tried out. *)
Record memory := mkMemory {
  mk_data : bytes;
  mk_chunk : Z;
  mk_resources : gmap Z sanlock_resource;
}.

#[export] Instance memory_Kernel : Kernel memory := {
  sys_size k := zlen (mk_data k);
  sys_read off n k := (k, Ok (slice off (off + Z.min n (Z.max 1 (mk_chunk k))) (mk_data k)));
  sys_write off data k :=
    if (off <? 0) || (zlen (mk_data k) <? off + zlen data) then (k, Raise OSError)
    else (mkMemory (splice off data (mk_data k)) (mk_chunk k) (mk_resources k), Ok (zlen data));
  sys_fsync k := (k, Ok ());
}.

#[export] Program Instance memory_KernelLaws : KernelLaws memory := { kcontents := mk_data }.
Next Obligation. done. Qed.
Next Obligation.
  intros off n k k' data Hoff Hn. simpl. intros [= <- <-].
  set (c := Z.min n (Z.max 1 (mk_chunk k))). assert (0 < c <= n) as Hc by lia.
  assert (zlen (slice off (off + c) (mk_data k)) = Z.max 0 (Z.min c (zlen (mk_data k) - off))) as Hl.
  { unfold slice, zlen. rewrite length_take, length_drop. lia. }
  split_and!; [done|lia| |].
  - rewrite Hl. apply list_eq. intros m. rewrite !lookup_slice by done.
    repeat case_decide; try lia; try done. apply lookup_ge_None_2. unfold zlen in *. lia.
  - intros E. rewrite E in Hl. unfold zlen in Hl at 1. simpl in Hl. lia.
Qed.
Next Obligation. simpl. by intros. Qed.
Next Obligation.
  intros off data k k' n Hoff Hin Hne. simpl.
  destruct (Z.ltb_spec off 0); [lia|]. destruct (Z.ltb_spec (zlen (mk_data k)) (off + zlen data)); [lia|].
  simpl. intros [= <- <-]. simpl. destruct data; [done|]. split.
  - unfold zlen. simpl length. lia.
  - rewrite take_ge; [done|]. unfold zlen. lia.
Qed.
Next Obligation.
  intros off data k k' e Hoff Hin. simpl. step_case; intros; simplify_eq; done.
Qed.
Next Obligation.
  intros bs off data k k' x _ _ Hlen Hoff Hin. simpl. step_case; intros; simplify_eq; auto.
Qed.
Next Obligation. simpl. intros. simplify_eq. auto. Qed.

(** Sanlock over the memory: the lease areas are kept apart. *)
#[export] Instance memory_Sanlock : Sanlock (DirectFile memory) := {
  sl_write_resource ls resource path off align sector f :=
    let k := df_kernel f in
    (mkDirectFile (df_path f) (mkMemory (mk_data k) (mk_chunk k)
       (<[off := mkSanlockResource ls resource 0]> (mk_resources k))), Ok ());
  sl_read_resource path off align sector f :=
    match mk_resources (df_kernel f) !! off with
    | Some r => Ok r
    | None => Raise SANLK_LEADER_MAGIC
    end;
}.

#[export] Program Instance memory_SanlockLaws : SanlockLaws (DirectFile memory).
Next Obligation. simpl. intros. by simplify_eq. Qed.
