(* ===== verification/XleaseWitness.v ===== *)
(** * External leases: the theorems at concrete volumes *)
From Stdlib Require Import ZArith Lia String Ascii.
From stdpp Require Import base gmap list strings.
From S2P Require Import Prelude Xlease XleaseFacts XleaseSpec XleaseFormat DirectFile.

(** A volume in memory, formatted with metadata [md] and records [recs] over
    the bytes [blank], opened with 512 byte blocks. *)
Definition volume (al : Z) (blank : bytes) (md : IndexMetadata) (recs : list Record_) :
    LeasesVolume (DirectFile memory) :=
  let buf := index_bytes (md_bytes md) recs in
  mkVolume
    (mkDirectFile (str "/dom/xleases") (mkMemory (splice al buf blank) 4096 ∅))
    al 512 (mkIndex al 512 buf) md.

Lemma volume_ok al blank md recs :
  is_alignment al → RESERVED_SLOTS * al <= zlen blank →
  valid_metadata md → recs_ok al recs → Forall valid_record recs → zlen recs = MAX_RECORDS →
  vol_ok (volume al blank md recs) (md_bytes md) recs.
Proof.
  intros Hal Hblank Hmd Hok Hv Hn. pose proof (is_alignment_bounds _ Hal) as Hal'.
  set (buf := index_bytes (md_bytes md) recs).
  assert (zlen buf = INDEX_SIZE) as Hl by (apply zlen_index_bytes; [apply zlen_metadata|done]).
  unfold RESERVED_SLOTS, INDEX_SIZE in *.
  assert (zlen (splice al buf blank) = zlen blank) as Hz by (apply zlen_splice; lia).
  split.
  - constructor; try done.
    + constructor; [reflexivity|apply zlen_metadata|done|done].
    + by left.
    + apply Hmd.
    + change (RESERVED_SLOTS * al <= zlen (splice al buf blank)). rewrite Hz. done.
  - change (slice al (al + INDEX_SIZE) (splice al buf blank) = buf). unfold INDEX_SIZE.
    rewrite slice_splice_inside by lia. rewrite Z.sub_diag. unfold splice.
    change (Z.to_nat 0) with 0%nat. rewrite take_0. cbn [app Nat.add].
    rewrite drop_ge; [by rewrite app_nil_r|].
    assert (zlen (slice al (al + 62 * 4096) blank) = 62 * 4096) as Hs by (rewrite zlen_slice; lia).
    unfold zlen in *. lia.
Qed.

(** The volume of the examples: 4 MiB, 1 MiB alignment. *)
Definition AL : Z := 2 ^ 20.
Definition SIZE : Z := 4 * AL.

Definition blank_file : DirectFile memory :=
  mkDirectFile (str "/dom/xleases") (mkMemory (zrepeat SIZE 0) 4096 ∅).

Definition md0 : IndexMetadata := mkMetadata INDEX_VERSION (str "domain-1") 1000 false.

(** One lease, in the first slot. *)
Definition lease_a : text := str "lease-a".
Definition recs0 : list Record_ :=
  <[0%nat := mkRecord lease_a (lease_offset 0 AL) false]>
    (replicate (Z.to_nat MAX_RECORDS) EMPTY_RECORD).

Lemma AL_alignment : is_alignment AL.
Proof. by left. Qed.

Lemma lease_a_valid : valid_lease_id lease_a.
Proof. apply (bool_decide_unpack _). by vm_compute. Qed.

Lemma md0_valid : valid_metadata md0.
Proof. apply (bool_decide_unpack _). by vm_compute. Qed.

Lemma recs0_ok : recs_ok AL recs0 ∧ Forall valid_record recs0 ∧ zlen recs0 = MAX_RECORDS.
Proof.
  assert (zlen (replicate (Z.to_nat MAX_RECORDS) EMPTY_RECORD) = MAX_RECORDS) as Hn.
  { unfold zlen. rewrite length_replicate, MAX_RECORDS_eq. lia. }
  destruct (recs_ok_name AL (replicate (Z.to_nat MAX_RECORDS) EMPTY_RECORD) 0 lease_a false)
    as [Hr Hok]; [apply replicate_empty_ok|apply lease_a_valid|done| |].
  { intros j t [-> _]%lookup_replicate Ht. done. }
  split_and!; [exact Hok| |unfold zlen in *; unfold recs0; by rewrite length_insert].
  apply Forall_insert; [apply Forall_replicate, EMPTY_RECORD_valid|].
  eapply (record_ok_valid AL 0 3960); [apply AL_alignment|by rewrite MAX_RECORDS_eq|lia|exact Hr].
Qed.

Lemma zlen_blank : zlen (zrepeat SIZE 0) = SIZE.
Proof. rewrite zlen_zrepeat. unfold SIZE, AL. lia. Qed.

Definition v0 : LeasesVolume (DirectFile memory) := volume AL (zrepeat SIZE 0) md0 recs0.
Definition m0 : gmap text (Z * bool) := lease_map AL recs0.

Lemma v0_ok : vol_ok v0 (md_bytes md0) recs0.
Proof.
  apply volume_ok; [apply AL_alignment| |apply md0_valid|apply recs0_ok..].
  rewrite zlen_blank. unfold RESERVED_SLOTS, SIZE. unfold AL. lia.
Qed.

Lemma v0_leases : leases v0 = Ok m0.
Proof. apply (leases_spec v0 (md_bytes md0) recs0), v0_ok. Qed.

Lemma m0_lease_a : m0 !! lease_a = Some (lease_offset 0 AL, false).
Proof.
  apply lease_map_Some; [apply recs0_ok|]. split; [done|].
  exists 0%nat, (mkRecord lease_a (lease_offset 0 AL) false). split; [|done].
  unfold recs0. apply list_lookup_insert_eq. rewrite length_replicate, MAX_RECORDS_eq. lia.
Qed.

Lemma add_spec_witness :
  let '(v', x) := add lease_a v0 in
  same_volume v0 v' ∧ add_outcome v0 v' (md_bytes md0) m0 lease_a x.
Proof.
  destruct (add lease_a v0) as [v' x] eqn:E.
  exact (add_spec v0 (md_bytes md0) recs0 m0 lease_a v' x v0_ok v0_leases lease_a_valid
    ltac:(discriminate) E).
Defined.

Lemma remove_spec_witness :
  let '(v', x) := remove lease_a v0 in
  same_volume v0 v' ∧ remove_outcome v0 v' (md_bytes md0) m0 lease_a x.
Proof.
  destruct (remove lease_a v0) as [v' x] eqn:E.
  exact (remove_spec v0 (md_bytes md0) recs0 m0 lease_a v' x v0_ok v0_leases lease_a_valid
    ltac:(discriminate) E).
Defined.

Lemma lookup_spec_witness :
  lookup_lease lease_a v0 = (v0, Ok (lease_info v0 lease_a (lease_offset 0 AL))).
Proof.
  rewrite (lookup_spec v0 (md_bytes md0) recs0 m0 lease_a v0_ok v0_leases lease_a_valid
    ltac:(discriminate)).
  rewrite m0_lease_a. reflexivity.
Defined.

Lemma reopen_spec_witness :
  let '(f', x) := LeasesVolume_init AL 512 (lv_file v0) in
  x = Raise OSError ∨ ∃ v', x = Ok v' ∧ leases v' = Ok m0 ∧ vol_ok v' (md_bytes md0) recs0.
Proof.
  destruct (LeasesVolume_init AL 512 (lv_file v0)) as [f' x] eqn:E.
  exact (reopen_spec v0 recs0 m0 f' x v0_ok md0_valid eq_refl v0_leases E).
Defined.

Lemma blank_file_size : RESERVED_SLOTS * AL <= zlen (contents blank_file).
Proof.
  change (contents blank_file) with (zrepeat SIZE 0). rewrite zlen_blank.
  unfold RESERVED_SLOTS, SIZE. unfold AL. lia.
Qed.

Lemma domain_valid : valid_name (str "domain-1").
Proof. apply (bool_decide_unpack _). by vm_compute. Qed.

Lemma format_index_spec_witness :
  let '(f', x) := format_index (str "domain-1") AL 512 1000 1001 blank_file in
  same_outside AL blank_file f' ∧
  (x = Raise OSError ∨
   x = Ok () ∧ ∀ f'' y, LeasesVolume_init AL 512 f' = (f'', y) →
     y = Raise OSError ∨
     ∃ v, y = Ok v ∧ leases v = Ok ∅ ∧ lockspace v = str "domain-1" ∧
       ∃ meta recs, vol_ok v meta recs).
Proof.
  destruct (format_index (str "domain-1") AL 512 1000 1001 blank_file) as [f' x] eqn:E.
  exact (format_index_spec (str "domain-1") AL 512 1000 1001 domain_valid AL_alignment
    (or_introl eq_refl) ltac:(lia) blank_file f' x blank_file_size E).
Defined.

(** A volume with one sanlock resource, in its first slot. *)
Definition resource_file : DirectFile memory :=
  mkDirectFile (str "/dom/xleases") (mkMemory (zrepeat SIZE 0) 4096
    {[ lease_offset 0 AL := mkSanlockResource (str "domain-1") lease_a 1 ]}).

Lemma resource_file_slot k info :
  slot_resource AL 512 resource_file k info →
  k = 0 ∧ info = mkResourceInfo (str "domain-1") lease_a 1.
Proof.
  intros (_ & _ & Hr). unfold read_resource in Hr.
  cbn [sl_read_resource memory_Sanlock resource_file df_kernel mk_resources] in Hr.
  destruct (decide (lease_offset 0 AL = lease_offset k AL)) as [E|E].
  - split; [symmetry; by eapply lease_offset_inj; [apply AL_alignment|]|].
    rewrite <- E, lookup_singleton_eq in Hr. vm_compute in Hr. by injection Hr.
  - rewrite lookup_singleton_ne in Hr by done. done.
Qed.

Lemma resource_file_size : RESERVED_SLOTS * AL <= zlen (contents resource_file).
Proof.
  change (contents resource_file) with (zrepeat SIZE 0). rewrite zlen_blank.
  unfold RESERVED_SLOTS, SIZE. unfold AL. lia.
Qed.

Lemma rebuild_index_spec_witness :
  let f := resource_file in
  let '(f', x) := rebuild_index (str "domain-1") AL 512 1000 1001 f in
  (∃ e k, x = Raise e ∧ f' = f ∧ 0 <= k < MAX_RECORDS ∧
     rebuild_record f AL 512 (f_size f - AL) k = Raise e) ∨
  same_outside AL f f' ∧
  (x = Raise OSError ∨
   x = Ok () ∧ ∀ f'' y, LeasesVolume_init AL 512 f' = (f'', y) →
     y = Raise OSError ∨
     ∃ v m, y = Ok v ∧ lockspace v = str "domain-1" ∧ leases v = Ok m ∧
       ∀ s p, m !! s = Some p ↔
         ∃ k info, slot_resource AL 512 f k info ∧ ri_resource info = s ∧
           p = (lease_offset k AL, false)).
Proof.
  cbv zeta.
  destruct (rebuild_index (str "domain-1") AL 512 1000 1001 resource_file) as [f' x] eqn:E.
  refine (rebuild_index_spec (str "domain-1") AL 512 1000 1001 domain_valid AL_alignment
    (or_introl eq_refl) ltac:(lia) resource_file _ _ f' x _ E).
  - intros k info [_ ->]%resource_file_slot. apply lease_a_valid.
  - intros j k i1 i2 [-> _]%resource_file_slot [-> _]%resource_file_slot _. reflexivity.
  - exact resource_file_size.
Defined.

Lemma direct_io_spec_witness :
  let k := mkMemory [1; 2; 3; 4; 5; 6; 7; 8; 9; 10] 3 ∅ in
  DirectFile_pread 2 7 k = (k, Ok [3; 4; 5; 6; 7; 8; 9]) ∧
  ∀ k' x, DirectFile_pwrite 4 [50; 60] k = (k', x) →
    zlen (kcontents k') = 10 ∧
    (x = Ok () ∧ kcontents k' = [1; 2; 3; 4; 50; 60; 7; 8; 9; 10] ∨ x = Raise OSError).
Proof.
  cbv zeta. split; [vm_compute; reflexivity|]. intros k' x E.
  destruct (direct_io_spec 4 [50; 60] 7 (mkMemory [1; 2; 3; 4; 5; 6; 7; 8; 9; 10] 3 ∅)) as [_ H];
    [lia|lia|by vm_compute|].
  destruct (H k' x E) as (Hl & _ & Hx). exact (conj Hl Hx).
Defined.

Lemma codec_roundtrip_witness :
  (b ← Record_bytes (mkRecord lease_a (lease_offset 7 AL) true); Record_frombytes b)
    = Ok (mkRecord lease_a (lease_offset 7 AL) true) ∧
  (b ← IndexMetadata_bytes md0; IndexMetadata_fromebytes b) = Ok md0.
Proof.
  apply (codec_roundtrip (mkRecord lease_a (lease_offset 7 AL) true) md0); [|exact md0_valid].
  apply (bool_decide_unpack _). vm_compute. exact I.
Defined.

Lemma find_spec_witness :
  find_record (lv_index v0) lease_a
    = Ok (first_record (fun r => r_resource r = lease_a) recs0) ∧
  find_free_record (lv_index v0) = Ok (first_record (fun r => r = EMPTY_RECORD) recs0).
Proof.
  apply (find_spec (lv_index v0) (md_bytes md0) recs0 lease_a);
    [apply (mo_index v0 (md_bytes md0) recs0), v0_ok|exact lease_a_valid].
Defined.
