(* ===== verification/RWLock.v ===== *)
(** * Readers-writer lock: [storage/rwlock.py]

    The state of an RWLock shared by threads, with the position of every thread
    inside the lock's methods.  A body guarded by [with self._lock] is one
    step; [_wait] releases the guard, so an acquire that must wait is two steps,
    the second enabled by the waiter's event.  The code outside the guard reads
    and writes only the entry of the calling thread and is a step of its own. *)
From Stdlib Require Import ZArith Lia.
From stdpp Require Import base gmap list relations.
From S2P Require Import Prelude.

Abbreviation tid := nat (only parsing).

(** A waiter: its thread, what it waits for, whether its event is set. *)
Record Waiter := mkWaiter {
  w_thread : tid;
  wants_write : bool;
  w_event : bool;
}.

Record RWLock := mkLock {
  _waiters : list Waiter;
  _holders : gmap tid Z;
  _writer : option tid;
}.

(** Where a thread is: outside the lock's methods, at the guard of an acquire
    or of a release, or blocked in [waiter.wait()]. *)
Inductive position :=
| Outside
| AtAcquire (write : bool)
| InWait (write : bool)
| AtRelease.

#[export] Instance Waiter_eq_dec : EqDecision Waiter.
Proof. solve_decision. Defined.

#[export] Instance position_eq_dec : EqDecision position.
Proof. solve_decision. Defined.

(** What a method call did: returned, raised RuntimeError, or is still inside
    the method. *)
Inductive outcome := Returned | RuntimeError | Inside (p : position).

Definition RWLock_init : RWLock := mkLock [] ∅ None.

(** ** The methods, step by step *)

Definition grant (w : Waiter) : Waiter := mkWaiter (w_thread w) (wants_write w) true.

(** [_grant_next_waiter]; its callers check that there is a waiter. *)
Definition _grant_next_waiter (l : RWLock) : RWLock :=
  match _waiters l with
  | [] => l
  | w :: ws =>
      if bool_decide (_holders l ≠ ∅) && wants_write w then l
      else mkLock (grant w :: ws) (_holders l) (_writer l)
  end.

Definition incr_holder (me : tid) (l : RWLock) : RWLock :=
  mkLock (_waiters l) (alter (Z.add 1) me (_holders l)) (_writer l).

(** [acquire_write] up to [with self._lock] *)
Definition acquire_write (me : tid) (l : RWLock) : RWLock * outcome :=
  if bool_decide (_writer l = Some me) then (incr_holder me l, Returned)
  else if bool_decide (is_Some (_holders l !! me)) then (l, RuntimeError)
  else (l, Inside (AtAcquire true)).

(** [acquire_read] up to [with self._lock] *)
Definition acquire_read (me : tid) (l : RWLock) : RWLock * outcome :=
  if bool_decide (_writer l = Some me) then (l, RuntimeError)
  else if bool_decide (is_Some (_holders l !! me)) then (incr_holder me l, Returned)
  else (l, Inside (AtAcquire false)).

(** The end of the guarded body of the two acquire methods. *)
Definition hold (write : bool) (me : tid) (l : RWLock) : RWLock :=
  let l := mkLock (_waiters l) (<[me := 1]> (_holders l))
             (if write then Some me else _writer l) in
  if write then l
  else match _waiters l with [] => l | _ :: _ => _grant_next_waiter l end.

(** The first half of [_wait]: append a waiter, release the guard. *)
Definition wait_start (write : bool) (me : tid) (l : RWLock) : RWLock :=
  mkLock (_waiters l ++ [mkWaiter me write false]) (_holders l) (_writer l).

(** The second half of [_wait]: [self._waiters.remove(waiter)]. *)
Definition wait_end (me : tid) (l : RWLock) : RWLock :=
  mkLock (filter (fun w => w_thread w ≠ me) (_waiters l)) (_holders l) (_writer l).

(** The guarded body of [acquire_write] and [acquire_read], until it returns or
    waits. *)
Definition acquire_guarded (write : bool) (me : tid) (l : RWLock) : RWLock * outcome :=
  let must_wait :=
    if write then bool_decide (_holders l ≠ ∅) || bool_decide (_waiters l ≠ [])
    else bool_decide (_writer l ≠ None) || bool_decide (_waiters l ≠ []) in
  if must_wait then (wait_start write me l, Inside (InWait write))
  else (hold write me l, Returned).

(** The rest of the body once the event is set. *)
Definition acquire_granted (write : bool) (me : tid) (l : RWLock) : RWLock * outcome :=
  (hold write me (wait_end me l), Returned).

(** [release] up to [with self._lock] *)
Definition release (me : tid) (l : RWLock) : RWLock * outcome :=
  match _holders l !! me with
  | None => (l, RuntimeError)
  | Some n =>
      let l := mkLock (_waiters l) (<[me := n - 1]> (_holders l)) (_writer l) in
      if 0 <? n - 1 then (l, Returned) else (l, Inside AtRelease)
  end.

Definition release_guarded (me : tid) (l : RWLock) : RWLock * outcome :=
  let l := mkLock (_waiters l) (delete me (_holders l)) None in
  (match _waiters l with [] => l | _ :: _ => _grant_next_waiter l end, Returned).

(** ** Threads running the methods *)

Record state := mkState {
  lock : RWLock;
  pos : gmap tid position;
}.

Definition at_pos (s : state) (t : tid) : position := default Outside (pos s !! t).

Definition pos_after (o : outcome) : position :=
  match o with Inside p => p | _ => Outside end.

Definition move (t : tid) (r : RWLock * outcome) (s : state) : state :=
  mkState (fst r) (<[t := pos_after (snd r)]> (pos s)).

Definition waiter_set (t : tid) (l : RWLock) : Prop :=
  ∃ w, w ∈ _waiters l ∧ w_thread w = t ∧ w_event w = true.

(** A step of thread [t]: a call from outside, a guarded body, or the return
    from [waiter.wait()] once its event is set. *)
Inductive step (s : state) (t : tid) : state → Prop :=
| step_acquire_write : at_pos s t = Outside → step s t (move t (acquire_write t (lock s)) s)
| step_acquire_read : at_pos s t = Outside → step s t (move t (acquire_read t (lock s)) s)
| step_release : at_pos s t = Outside → step s t (move t (release t (lock s)) s)
| step_acquire_guarded write : at_pos s t = AtAcquire write →
    step s t (move t (acquire_guarded write t (lock s)) s)
| step_granted write : at_pos s t = InWait write → waiter_set t (lock s) →
    step s t (move t (acquire_granted write t (lock s)) s)
| step_release_guarded : at_pos s t = AtRelease →
    step s t (move t (release_guarded t (lock s)) s).

Definition init : state := mkState RWLock_init ∅.

Definition reachable (s : state) : Prop := rtc (fun s s' => ∃ t, step s t s') init s.

(** ** The invariant *)

(** The threads in line and what they wait for. *)
Definition line (l : RWLock) : list (tid * bool) :=
  (fun w => (w_thread w, wants_write w)) <$> _waiters l.

(** Every thread's position agrees with its entries in the lock. *)
Definition thread_at (l : RWLock) (t : tid) (p : position) : Prop :=
  match p with
  | Outside => (∀ n, _holders l !! t = Some n → 0 < n) ∧ ∀ b, (t, b) ∉ line l
  | AtAcquire _ => _holders l !! t = None ∧ ∀ b, (t, b) ∉ line l
  | InWait write => _holders l !! t = None ∧ ∀ b, (t, b) ∈ line l ↔ b = write
  | AtRelease => is_Some (_holders l !! t) ∧ ∀ b, (t, b) ∉ line l
  end.

(** The queue: a granted waiter is first in line and may take the lock at once;
    the first in line is granted as soon as it may. *)
Definition queue_ok (l : RWLock) : Prop :=
  NoDup (w_thread <$> _waiters l) ∧
  match _waiters l with
  | [] => True
  | w :: ws =>
      Forall (fun w => w_event w = false) ws ∧
      (w_event w = true → _writer l = None ∧ (wants_write w = true → _holders l = ∅)) ∧
      (_holders l = ∅ → w_event w = true) ∧
      (_writer l = None → wants_write w = false → w_event w = true)
  end.

(** A writer is the only holder. *)
Definition exclusive_ok (l : RWLock) : Prop :=
  ∀ t, _writer l = Some t → ∀ u, is_Some (_holders l !! u) ↔ u = t.

Record inv (s : state) : Prop := {
  inv_threads : ∀ t, thread_at (lock s) t (at_pos s t);
  inv_queue : queue_ok (lock s);
  inv_exclusive : exclusive_ok (lock s);
}.

(** ** Preservation *)

Lemma grant_line l : line (_grant_next_waiter l) = line l.
Proof.
  unfold line, _grant_next_waiter. destruct (_waiters l) as [|w ws] eqn:E; [by rewrite E|].
  destruct (_ && _); simpl; [by rewrite E|done].
Qed.

Lemma grant_holders l : _holders (_grant_next_waiter l) = _holders l.
Proof. unfold _grant_next_waiter. by repeat case_match. Qed.

Lemma grant_writer l : _writer (_grant_next_waiter l) = _writer l.
Proof. unfold _grant_next_waiter. by repeat case_match. Qed.

Lemma line_threads l : w_thread <$> _waiters l = (line l).*1.
Proof. unfold line. rewrite <- list_fmap_compose. done. Qed.

(** What granting needs: no writer, and only the first in line may be granted. *)
Definition grantable (l : RWLock) : Prop :=
  NoDup (line l).*1 ∧ _writer l = None ∧
  match _waiters l with
  | [] => True
  | w :: ws => Forall (fun w => w_event w = false) ws ∧
      (w_event w = true → wants_write w = true → _holders l = ∅)
  end.

Lemma grant_queue_ok l : grantable l → queue_ok (_grant_next_waiter l).
Proof.
  intros (Hnd & Hw & Hq). unfold queue_ok. rewrite line_threads, grant_line, grant_holders, grant_writer.
  split; [done|]. unfold _grant_next_waiter. destruct (_waiters l) as [|w ws] eqn:E; [by rewrite E|].
  destruct Hq as [Hws Hev]. destruct (bool_decide_reflect (_holders l ≠ ∅)) as [Hh|Hh]; simpl.
  - destruct (wants_write w) eqn:Hwr; simpl.
    + rewrite E. repeat split; try done; intros; congruence || auto.
    + repeat split; try done; intros; congruence.
  - apply dec_stable in Hh. by repeat split.
Qed.

(** Moving one thread: the others keep their entries. *)
Lemma inv_move s t l p :
  inv s → thread_at l t p →
  (∀ u, u ≠ t → _holders l !! u = _holders (lock s) !! u) →
  (∀ u b, u ≠ t → (u, b) ∈ line l ↔ (u, b) ∈ line (lock s)) →
  queue_ok l → exclusive_ok l →
  inv (mkState l (<[t := p]> (pos s))).
Proof.
  intros Hinv Ht Hh Hl Hq He. split; [|done..]. intros u. unfold at_pos. simpl.
  destruct (decide (u = t)) as [->|Hne]; [by rewrite lookup_insert_eq|].
  rewrite lookup_insert_ne by done. pose proof (inv_threads _ Hinv u) as Hu. unfold at_pos in Hu.
  pose proof (fun b => Hl u b Hne) as Hlu. pose proof (Hh u Hne) as Hhu.
  destruct (default Outside (pos s !! u)); simpl in *; rewrite Hhu; by setoid_rewrite Hlu.
Qed.

Lemma inv_holders s (l : RWLock) t p :
  inv s → _waiters l = _waiters (lock s) → _writer l = _writer (lock s) →
  (∀ u, u ≠ t → _holders l !! u = _holders (lock s) !! u) →
  (is_Some (_holders l !! t) ↔ is_Some (_holders (lock s) !! t)) →
  thread_at l t p → inv (mkState l (<[t := p]> (pos s))).
Proof.
  intros Hinv Hws Hwr Hne Ht Hp.
  assert (∀ u, is_Some (_holders l !! u) ↔ is_Some (_holders (lock s) !! u)) as Hdom.
  { intros u. destruct (decide (u = t)) as [->|]; [done|by rewrite Hne]. }
  assert (_holders l = ∅ ↔ _holders (lock s) = ∅) as Hemp.
  { rewrite !map_empty. setoid_rewrite eq_None_not_Some. by setoid_rewrite Hdom. }
  apply inv_move; try done.
  - intros u b _. unfold line. by rewrite Hws.
  - pose proof (inv_queue _ Hinv) as Hq. unfold queue_ok in *. rewrite Hws, Hwr.
    destruct (_waiters (lock s)); [done|]. by rewrite Hemp.
  - pose proof (inv_exclusive _ Hinv) as He. unfold exclusive_ok in *. rewrite Hwr.
    intros u Hu v. rewrite Hdom. by apply He.
Qed.

Lemma elem_of_line l t b :
  (t, b) ∈ line l ↔ ∃ w, w ∈ _waiters l ∧ w_thread w = t ∧ wants_write w = b.
Proof.
  unfold line. rewrite list_elem_of_fmap. split.
  - intros (w & [= -> ->] & Hw). eauto.
  - intros (w & Hw & <- & <-). eauto.
Qed.

Lemma inv_stay s t p :
  inv s → thread_at (lock s) t p → inv (mkState (lock s) (<[t := p]> (pos s))).
Proof. intros. by apply inv_holders. Qed.

Lemma inv_incr s t :
  inv s → at_pos s t = Outside → is_Some (_holders (lock s) !! t) →
  inv (mkState (incr_holder t (lock s)) (<[t := Outside]> (pos s))).
Proof.
  intros Hinv Hpos Hsome. pose proof (inv_threads _ Hinv t) as Ht. rewrite Hpos in Ht.
  apply inv_holders; try done; simpl.
  - intros u Hu. by rewrite lookup_alter_ne.
  - rewrite lookup_alter_eq. destruct Hsome as [n ->]. done.
  - split; [|apply Ht]. simpl. intros n. rewrite lookup_alter_eq.
    intros (m & Hm & ->)%fmap_Some. apply Ht in Hm. lia.
Qed.

Lemma rw_inv_release s t :
  inv s → at_pos s t = Outside → inv (move t (release t (lock s)) s).
Proof.
  intros Hinv Hpos. pose proof (inv_threads _ Hinv t) as Ht. rewrite Hpos in Ht.
  unfold move, release. destruct (_holders (lock s) !! t) as [n|] eqn:En; [|by apply inv_stay].
  pose proof (proj1 Ht n En) as Hn.
  destruct (Z.ltb_spec 0 (n - 1)); (apply inv_holders; simpl; try done);
    try (intros u Hu; by rewrite lookup_insert_ne); rewrite ?lookup_insert_eq, ?En; try done.
  - split; [intros m [= <-]; lia|apply Ht].
  - split; [eauto|apply Ht].
Qed.

(** Joining the line. *)
Lemma inv_wait_start s t write :
  inv s → at_pos s t = AtAcquire write →
  (_waiters (lock s) = [] →
     if write then _holders (lock s) ≠ ∅ else _writer (lock s) ≠ None) →
  inv (mkState (wait_start write t (lock s)) (<[t := InWait write]> (pos s))).
Proof.
  intros Hinv Hpos Hwait. pose proof (inv_threads _ Hinv t) as Ht. rewrite Hpos in Ht.
  destruct Ht as [Hh Hl].
  assert (line (wait_start write t (lock s)) = line (lock s) ++ [(t, write)]) as Hline.
  { unfold line, wait_start. simpl. by rewrite fmap_app. }
  apply inv_move; try done.
  - split; [done|]. intros b. rewrite Hline. set_solver.
  - intros u b Hu. rewrite Hline. set_solver.
  - pose proof (inv_queue _ Hinv) as [Hnd Hq]. split.
    { rewrite line_threads, Hline, fmap_app. simpl. rewrite line_threads in Hnd.
      apply NoDup_app. split_and!; [done| |by apply NoDup_singleton].
      intros u Hu ->%list_elem_of_singleton. apply list_elem_of_fmap in Hu as ([? b] & -> & Hb).
      by apply (Hl b). }
    simpl. destruct (_waiters (lock s)) as [|w ws] eqn:E; simpl.
    + specialize (Hwait eq_refl). repeat split; try done.
      * intros He. destruct write; [done|]. destruct (_writer (lock s)) as [v|] eqn:Ew; [|done].
        pose proof (proj2 (inv_exclusive _ Hinv v Ew v) eq_refl) as [n Hn]. by rewrite He in Hn.
      * intros Hw ->. done.
    + destruct Hq as [Hws Hq]. split; [|done]. apply Forall_app. split; [done|by constructor].
  - apply (inv_exclusive _ Hinv).
Qed.

(** Taking the lock. *)
Lemma hold_write_ok s t ws :
  inv s → (∀ b, (t, b) ∉ (fun w => (w_thread w, wants_write w)) <$> ws) →
  _holders (lock s) = ∅ → Forall (fun w => w_event w = false) ws → NoDup (w_thread <$> ws) →
  (∀ u b, u ≠ t → (u, b) ∈ (fun w => (w_thread w, wants_write w)) <$> ws ↔ (u, b) ∈ line (lock s)) →
  inv (mkState (hold true t (mkLock ws (_holders (lock s)) (_writer (lock s))))
         (<[t := Outside]> (pos s))).
Proof.
  intros Hinv Ht Hemp Hws Hnd Hl. unfold hold. simpl. rewrite Hemp. apply inv_move; try done; simpl.
  - split; [|done]. intros n. simpl. rewrite lookup_insert_eq. intros [= <-]. lia.
  - intros u Hu. by rewrite lookup_insert_ne, Hemp.
  - split; [done|]. destruct Hws as [|w ws Hw Hws]; [done|]. simpl.
    repeat split; try done; congruence.
  - intros u [= <-] v. simpl. rewrite insert_empty. split.
    + intros [n [-> _]%lookup_singleton_Some]. done.
    + intros ->. rewrite lookup_singleton_eq. eauto.
Qed.

Lemma hold_read_ok s t ws :
  inv s → (∀ b, (t, b) ∉ (fun w => (w_thread w, wants_write w)) <$> ws) →
  _writer (lock s) = None → Forall (fun w => w_event w = false) ws → NoDup (w_thread <$> ws) →
  (∀ u b, u ≠ t → (u, b) ∈ (fun w => (w_thread w, wants_write w)) <$> ws ↔ (u, b) ∈ line (lock s)) →
  inv (mkState (hold false t (mkLock ws (_holders (lock s)) (_writer (lock s))))
         (<[t := Outside]> (pos s))).
Proof.
  intros Hinv Ht Hnone Hws Hnd Hl. unfold hold. simpl.
  set (l := mkLock ws (<[t:=1]> (_holders (lock s))) (_writer (lock s))).
  replace (match ws with [] => l | _ :: _ => _grant_next_waiter l end)
    with (_grant_next_waiter l) by (by destruct ws).
  apply inv_move; try done.
  - unfold thread_at. rewrite grant_holders, grant_line. split; [|done]. simpl.
    intros n. rewrite lookup_insert_eq. intros [= <-]. lia.
  - intros u Hu. rewrite grant_holders. simpl. by rewrite lookup_insert_ne.
  - intros u b Hu. rewrite grant_line. by apply Hl.
  - apply grant_queue_ok. split_and!; [by rewrite <- line_threads|done|]. simpl.
    destruct Hws as [|w ws Hw Hws]; [done|]. split; [done|]. congruence.
  - intros u. rewrite grant_writer. simpl. congruence.
Qed.

Lemma inv_acquire_guarded s t write :
  inv s → at_pos s t = AtAcquire write → inv (move t (acquire_guarded write t (lock s)) s).
Proof.
  intros Hinv Hpos. pose proof (inv_threads _ Hinv t) as Ht. rewrite Hpos in Ht.
  unfold move, acquire_guarded. destruct (if write then _ else _) eqn:Hmust; simpl.
  - apply inv_wait_start; [done..|]. intros Hw. rewrite Hw in Hmust.
    destruct write; apply orb_true_iff in Hmust as [H|H]; by apply bool_decide_eq_true_1 in H.
  - assert (_waiters (lock s) = [] ∧
      if write then _holders (lock s) = ∅ else _writer (lock s) = None) as [Hw Hfree].
    { destruct write; apply orb_false_iff in Hmust as [H1 H2];
        apply bool_decide_eq_false_1, dec_stable in H1, H2; done. }
    replace (lock s) with (mkLock [] (_holders (lock s)) (_writer (lock s))) at 1
      by (rewrite <- Hw; by destruct (lock s)).
    assert (∀ u b, u ≠ t → (u, b) ∈ (fun w => (w_thread w, wants_write w)) <$> ([] : list Waiter)
      ↔ (u, b) ∈ line (lock s)) as Hl by (intros; unfold line; by rewrite Hw).
    destruct write; [apply hold_write_ok|apply hold_read_ok]; try done; try constructor;
      intros b; apply not_elem_of_nil.
Qed.

(** The granted waiter is the first in line. *)
Lemma granted_first l t :
  queue_ok l → waiter_set t l →
  ∃ w ws, _waiters l = w :: ws ∧ w_thread w = t ∧ w_event w = true ∧
    filter (fun w => w_thread w ≠ t) (w :: ws) = ws ∧
    Forall (fun w => w_event w = false) ws ∧ NoDup (w_thread <$> ws) ∧ t ∉ w_thread <$> ws.
Proof.
  intros [Hnd Hq] (w & Hw & Ht & He). destruct (_waiters l) as [|h ws]; [by apply elem_of_nil in Hw|].
  destruct Hq as [Hws _]. simpl in Hnd. apply NoDup_cons in Hnd as [Hni Hnd].
  apply elem_of_cons in Hw as [->|Hw].
  2:{ rewrite Forall_forall in Hws. specialize (Hws _ Hw). congruence. }
  exists h, ws. rewrite <- Ht. split_and!; try done.
  rewrite filter_cons_False by (intros H; by apply H). clear Hnd Hws.
  induction ws as [|v ws IH]; [done|]. simpl in Hni. apply not_elem_of_cons in Hni as [Hne Hni].
  rewrite filter_cons_True by congruence. by rewrite IH.
Qed.

Lemma inv_granted s t write :
  inv s → at_pos s t = InWait write → waiter_set t (lock s) →
  inv (move t (acquire_granted write t (lock s)) s).
Proof.
  intros Hinv Hpos Hset. pose proof (inv_threads _ Hinv t) as Ht. rewrite Hpos in Ht.
  destruct Ht as [_ Hl]. pose proof (inv_queue _ Hinv) as Hq.
  destruct (granted_first _ _ Hq Hset) as (w & ws & E & Hwt & Hev & Hfil & Hws & Hnd & Hni).
  destruct Hq as [_ Hq]. rewrite E in Hq. destruct Hq as (_ & Hfree & _).
  destruct (Hfree Hev) as [Hnone Hemp].
  assert (wants_write w = write) as Hwr.
  { apply Hl. unfold line. rewrite E, <- Hwt. apply elem_of_cons. by left. }
  unfold move, acquire_granted, wait_end. rewrite E, Hfil. simpl.
  assert (∀ b, (t, b) ∉ (fun w => (w_thread w, wants_write w)) <$> ws) as Hout.
  { intros b (v & [= ->] & Hv)%list_elem_of_fmap. apply Hni. by apply list_elem_of_fmap_2. }
  assert (∀ u b, u ≠ t → (u, b) ∈ (fun w => (w_thread w, wants_write w)) <$> ws
    ↔ (u, b) ∈ line (lock s)) as Hsame.
  { intros u b Hu. unfold line. rewrite E. simpl. rewrite elem_of_cons. split; [by right|].
    intros [[= -> _]|]; done. }
  destruct write; [apply hold_write_ok|apply hold_read_ok]; auto.
Qed.

Lemma inv_release_guarded s t :
  inv s → at_pos s t = AtRelease → inv (move t (release_guarded t (lock s)) s).
Proof.
  intros Hinv Hpos. pose proof (inv_threads _ Hinv t) as Ht. rewrite Hpos in Ht.
  destruct Ht as [Hh Hl]. unfold move, release_guarded. simpl.
  set (l := mkLock (_waiters (lock s)) (delete t (_holders (lock s))) None).
  replace (match _waiters (lock s) with [] => l | _ :: _ => _grant_next_waiter l end)
    with (_grant_next_waiter l) by (unfold _grant_next_waiter; simpl; by case_match).
  apply inv_move; try done.
  - unfold thread_at. rewrite grant_holders, grant_line. simpl. rewrite lookup_delete_eq. done.
  - intros u Hu. rewrite grant_holders. simpl. by rewrite lookup_delete_ne.
  - intros u b _. rewrite grant_line. done.
  - apply grant_queue_ok. pose proof (inv_queue _ Hinv) as [Hnd Hq].
    split_and!; [by rewrite <- line_threads|done|]. simpl.
    destruct (_waiters (lock s)) as [|w ws]; [done|]. destruct Hq as (Hws & Hev & _).
    split; [done|]. intros He Hw. destruct (Hev He) as [_ Hemp]. rewrite (Hemp Hw) in Hh.
    by destruct Hh.
  - intros u. rewrite grant_writer. done.
Qed.

Lemma inv_acquire s t (r : RWLock * outcome) write :
  inv s → at_pos s t = Outside →
  (r = (incr_holder t (lock s), Returned) ∧ is_Some (_holders (lock s) !! t)) ∨
  r = (lock s, RuntimeError) ∨
  (r = (lock s, Inside (AtAcquire write)) ∧ _holders (lock s) !! t = None) →
  inv (move t r s).
Proof.
  intros Hinv Hpos Hr. pose proof (inv_threads _ Hinv t) as Ht. rewrite Hpos in Ht.
  destruct Hr as [[-> Hs]|[->|[-> Hn]]]; unfold move; simpl.
  - by apply inv_incr.
  - by apply inv_stay.
  - apply inv_stay; [done|]. split; [done|apply Ht].
Qed.

(** The three ways in which the code before the guard of an acquire ends. *)
Lemma acquire_write_cases s t :
  inv s → at_pos s t = Outside →
  (_writer (lock s) = Some t ∧ acquire_write t (lock s) = (incr_holder t (lock s), Returned) ∧
     is_Some (_holders (lock s) !! t)) ∨
  (_writer (lock s) ≠ Some t ∧ is_Some (_holders (lock s) !! t) ∧
     acquire_write t (lock s) = (lock s, RuntimeError)) ∨
  (_holders (lock s) !! t = None ∧
     acquire_write t (lock s) = (lock s, Inside (AtAcquire true))).
Proof.
  intros Hinv Hpos. unfold acquire_write.
  destruct (bool_decide_reflect (_writer (lock s) = Some t)) as [Hw|Hw].
  { left. split_and!; [done..|]. by apply (inv_exclusive _ Hinv t Hw). }
  destruct (bool_decide_reflect (is_Some (_holders (lock s) !! t))) as [Hs|Hs]; [by right; left|].
  right; right. by rewrite eq_None_not_Some.
Qed.

Lemma acquire_read_cases s t :
  inv s → at_pos s t = Outside →
  (_writer (lock s) = Some t ∧ acquire_read t (lock s) = (lock s, RuntimeError)) ∨
  (_writer (lock s) ≠ Some t ∧ is_Some (_holders (lock s) !! t) ∧
     acquire_read t (lock s) = (incr_holder t (lock s), Returned)) ∨
  (_holders (lock s) !! t = None ∧
     acquire_read t (lock s) = (lock s, Inside (AtAcquire false))).
Proof.
  intros Hinv Hpos. unfold acquire_read.
  destruct (bool_decide_reflect (_writer (lock s) = Some t)) as [Hw|Hw]; [by left|].
  destruct (bool_decide_reflect (is_Some (_holders (lock s) !! t))) as [Hs|Hs]; [by right; left|].
  right; right. by rewrite eq_None_not_Some.
Qed.

Lemma rw_inv_init : inv init.
Proof.
  split.
  - intros t. unfold at_pos, init. simpl. rewrite lookup_empty. simpl. split; [done|].
    intros b. apply not_elem_of_nil.
  - split; [constructor|done].
  - done.
Qed.

Lemma rw_inv_step s t s' : inv s → step s t s' → inv s'.
Proof.
  intros Hinv Hstep. destruct Hstep as [Hp|Hp|Hp|w Hp|w Hp Hset|Hp].
  - apply (inv_acquire _ _ _ true Hinv Hp). pose proof (acquire_write_cases _ _ Hinv Hp). naive_solver.
  - apply (inv_acquire _ _ _ false Hinv Hp). pose proof (acquire_read_cases _ _ Hinv Hp). naive_solver.
  - by apply rw_inv_release.
  - by apply inv_acquire_guarded.
  - by apply inv_granted.
  - by apply inv_release_guarded.
Qed.

Lemma rw_reachable_inv s : reachable s → inv s.
Proof.
  unfold reachable. intros H. pattern s. eapply rtc_ind_r; [apply rw_inv_init| |exact H].
  intros x y _ [t Ht] Hi. by apply (rw_inv_step _ _ _ Hi Ht).
Qed.

(** ** What the lock promises *)

(** A step that ends an acquire, and only such a step, makes its thread a
    holder. *)
Definition acquires (s : state) (t : tid) (write : bool) (s' : state) : Prop :=
  (at_pos s t = AtAcquire write ∨ at_pos s t = InWait write) ∧ at_pos s' t = Outside.

Lemma at_pos_move s t r : at_pos (move t r s) t = pos_after (snd r).
Proof. unfold at_pos, move. simpl. by rewrite lookup_insert_eq. Qed.

Lemma at_pos_move_ne s t u r : u ≠ t → at_pos (move t r s) u = at_pos s u.
Proof. intros. unfold at_pos, move. simpl. by rewrite lookup_insert_ne. Qed.

Lemma hold_holders write t l : _holders (hold write t l) = <[t := 1]> (_holders l).
Proof. unfold hold. destruct write; [done|]. simpl. case_match; [done|by rewrite grant_holders]. Qed.

Lemma hold_writer write t l :
  _writer (hold write t l) = if write then Some t else _writer l.
Proof. unfold hold. destruct write; [done|]. simpl. case_match; [done|by rewrite grant_writer]. Qed.

Lemma hold_line write t l : line (hold write t l) = line l.
Proof.
  unfold hold. destruct write; [done|]. simpl. case_match eqn:E; [unfold line; simpl; by rewrite E|].
  rewrite grant_line. unfold line. simpl. by rewrite E.
Qed.

(** The two ways to acquire: with nobody in line, or as the first in line. *)
Lemma acquires_inv s t write s' :
  inv s → step s t s' → acquires s t write s' →
  _holders (lock s') = <[t := 1]> (_holders (lock s)) ∧
  _writer (lock s') = (if write then Some t else None) ∧
  (write = true → _holders (lock s) = ∅) ∧
  ((line (lock s) = [] ∧ line (lock s') = []) ∨ line (lock s) = (t, write) :: line (lock s')).
Proof.
  intros Hinv Hstep [Hp Hout]. destruct Hstep as [H|H|H|w H|w H Hset|H];
    try (destruct Hp; congruence); assert (w = write) as -> by (destruct Hp; congruence);
    rewrite at_pos_move in Hout; clear Hp.
  - unfold acquire_guarded in *. destruct (if write then _ else _) eqn:Hm in Hout; [done|].
    rewrite Hm. unfold move. simpl. rewrite hold_holders, hold_writer, hold_line.
    unfold line. destruct write; apply orb_false_iff in Hm as [H1 H2];
      apply bool_decide_eq_false_1, dec_stable in H1, H2; rewrite H2; split_and!; auto; done.
  - pose proof (inv_queue _ Hinv) as Hq. pose proof (inv_threads _ Hinv t) as Ht.
    rewrite H in Ht. destruct Ht as [_ Hl].
    destruct (granted_first _ _ Hq Hset) as (w & ws & E & Hwt & Hev & Hfil & Hws & Hnd & Hni).
    assert (wants_write w = write) as Hwr.
    { apply Hl. unfold line. rewrite E, <- Hwt. apply elem_of_cons. by left. }
    destruct Hq as [_ Hq]. rewrite E in Hq. destruct Hq as (_ & Hfree & _).
    destruct (Hfree Hev) as [Hnone Hemp].
    unfold move, acquire_granted. simpl. rewrite hold_holders, hold_writer, hold_line. simpl.
    rewrite Hnone. split_and!; [done|by destruct write|intros ->; auto|].
    right. unfold wait_end, line. rewrite E, Hfil. simpl. by rewrite Hwt, Hwr.
Qed.

(** Every other step keeps the line, but for the waiter it may append, and adds
    no holder. *)
Lemma not_acquires_inv s t s' :
  inv s → step s t s' → (∀ write, ¬ acquires s t write s') →
  (line (lock s') = line (lock s) ∨ ∃ b, line (lock s') = line (lock s) ++ [(t, b)]) ∧
  (∀ u, is_Some (_holders (lock s') !! u) → is_Some (_holders (lock s) !! u)).
Proof.
  intros Hinv Hstep Hna. destruct Hstep as [H|H|H|w H|w H Hset|H]; unfold move; simpl.
  - destruct (acquire_write_cases _ _ Hinv H) as [(_ & -> & Hs)|[(_ & _ & ->)|(_ & ->)]]; simpl; auto.
    split; [by left|]. intros u. destruct (decide (u = t)) as [->|]; [done|]. by rewrite lookup_alter_ne.
  - destruct (acquire_read_cases _ _ Hinv H) as [(_ & ->)|[(_ & Hs & ->)|(_ & ->)]]; simpl; auto.
    split; [by left|]. intros u. destruct (decide (u = t)) as [->|]; [done|]. by rewrite lookup_alter_ne.
  - unfold release. destruct (_holders (lock s) !! t) as [n|] eqn:E; [|auto].
    destruct (0 <? n - 1); simpl; (split; [by left|]); intros u;
      (destruct (decide (u = t)) as [->|]; [by rewrite E|by rewrite lookup_insert_ne]).
  - unfold acquire_guarded in *. destruct (if w then _ else _); simpl.
    + split; [right; exists w; unfold line; simpl; by rewrite fmap_app|done].
    + destruct (Hna w). split; [by left|]. by rewrite at_pos_move.
  - destruct (Hna w). split; [by right|]. by rewrite at_pos_move.
  - unfold release_guarded. simpl. set (l := mkLock _ _ _).
    replace (match _waiters (lock s) with [] => l | _ :: _ => _grant_next_waiter l end)
      with (_grant_next_waiter l) by (unfold _grant_next_waiter; simpl; by case_match).
    rewrite grant_line, grant_holders. split; [by left|]. simpl.
    intros u. destruct (decide (u = t)) as [->|]; [by rewrite lookup_delete_eq; intros []|].
    by rewrite lookup_delete_ne.
Qed.

Lemma acquires_dec s t s' : (∃ write, acquires s t write s') ∨ (∀ write, ¬ acquires s t write s').
Proof.
  unfold acquires. destruct (decide (at_pos s' t = Outside)) as [|H]; [|right; naive_solver].
  destruct (at_pos s t) eqn:E; [right|left; eauto|left; eauto|right]; naive_solver.
Qed.

(** C4: mutual exclusion.  In every state the threads can reach, a thread that
    holds the lock for writing is its only holder; and the call of acquire_write
    or acquire_read that returns has made its thread a holder, alone when it
    asked for writing and without a writer when it asked for reading. *)
Theorem rwlock_exclusion (s : state) (t : tid) :
  reachable s →
  (_writer (lock s) = Some t → ∀ u, is_Some (_holders (lock s) !! u) ↔ u = t) ∧
  (∀ write s', step s t s' → acquires s t write s' →
     _holders (lock s') !! t = Some 1 ∧
     if write then _writer (lock s') = Some t ∧ ∀ u, u ≠ t → _holders (lock s') !! u = None
     else _writer (lock s') = None).
Proof.
  intros Hr%rw_reachable_inv. split; [apply (inv_exclusive _ Hr)|].
  intros write s' Hstep Ha. destruct (acquires_inv _ _ _ _ Hr Hstep Ha) as (-> & -> & Hemp & _).
  rewrite lookup_insert_eq. split; [done|]. destruct write; [|done]. split; [done|].
  intros u Hu. rewrite Hemp by done. by rewrite lookup_insert_ne.
Qed.

(** the lock is served in the order of the requests.  A step appends its
    thread to the line, or removes the first in line, which then holds the lock,
    or leaves the line; a thread becomes a holder only by being first in line,
    or while nobody is in line. *)
Theorem rwlock_fifo (s : state) (t : tid) (s' : state) :
  reachable s → step s t s' →
  (line (lock s') = line (lock s) ∨
   (∃ b, line (lock s') = line (lock s) ++ [(t, b)]) ∨
   (∃ b, line (lock s) = (t, b) :: line (lock s') ∧ is_Some (_holders (lock s') !! t))) ∧
  (∀ u, _holders (lock s) !! u = None → is_Some (_holders (lock s') !! u) →
     u = t ∧ (line (lock s) = [] ∨ ∃ b, head (line (lock s)) = Some (t, b))).
Proof.
  intros Hr%rw_reachable_inv Hstep. destruct (acquires_dec s t s') as [[write Ha]|Hna].
  - destruct (acquires_inv _ _ _ _ Hr Hstep Ha) as (-> & _ & _ & Hl). split.
    + destruct Hl as [[-> ->]|Hl]; [by left|]. right; right. exists write.
      by rewrite lookup_insert_eq.
    + intros u Hn Hs. destruct (decide (u = t)) as [->|Hu].
      * split; [done|]. destruct Hl as [[-> _]|Hl]; [by left|]. rewrite Hl. right. by exists write.
      * rewrite lookup_insert_ne, Hn in Hs by done. by destruct Hs.
  - destruct (not_acquires_inv _ _ _ Hr Hstep Hna) as [Hl Hh]. split; [naive_solver|].
    intros u Hn Hs%Hh. rewrite Hn in Hs. by destruct Hs.
Qed.

(** ** Progress *)

Definition steps : relation state := rtc (fun s s' => ∃ t, step s t s').

Lemma rw_inv_steps s s' : inv s → steps s s' → inv s'.
Proof. intros Hi H. induction H as [|x y z [t Ht] _ IH]; [done|]. eauto using rw_inv_step. Qed.

(** A holder is never blocked in the lock, and can give it up. *)
Lemma release_guarded_effect s t :
  at_pos s t = AtRelease →
  ∃ s', step s t s' ∧ line (lock s') = line (lock s) ∧
    _holders (lock s') = delete t (_holders (lock s)) ∧ ∀ u, u ≠ t → at_pos s' u = at_pos s u.
Proof.
  intros H. eexists. split; [by apply step_release_guarded|]. split_and!.
  - unfold move, release_guarded. simpl. set (l := mkLock _ _ _).
    destruct (_waiters (lock s)) eqn:E; [by unfold line; simpl; rewrite E|].
    rewrite grant_line. unfold line. simpl. by rewrite E.
  - unfold move, release_guarded. simpl. case_match; [done|by rewrite grant_holders].
  - intros u Hu. by apply at_pos_move_ne.
Qed.

Lemma holder_releases (n : nat) s t m :
  inv s → _holders (lock s) !! t = Some m → m ≤ Z.of_nat n →
  ∃ s', steps s s' ∧ line (lock s') = line (lock s) ∧
    _holders (lock s') = delete t (_holders (lock s)) ∧ ∀ u, u ≠ t → at_pos s' u = at_pos s u.
Proof.
  revert s m. induction n as [|n IH]; intros s m Hinv Hm Hle;
    pose proof (inv_threads _ Hinv t) as Ht; unfold thread_at in Ht; rewrite Hm in Ht;
    destruct (at_pos s t) eqn:Hp; try (destruct Ht as [Ht _]; done);
    try (destruct (release_guarded_effect s t Hp) as (s' & Hs & Hrest); exists s';
         split; [by apply rtc_once; eauto|exact Hrest]).
  { pose proof (proj1 Ht m eq_refl). lia. }
  pose proof (proj1 Ht m eq_refl) as Hpos.
  pose (s1 := move t (release t (lock s)) s).
  assert (step s t s1) as Hs1 by by apply step_release.
  assert (inv s1) as Hi1 by eauto using rw_inv_step.
  assert (line (lock s1) = line (lock s) ∧ _holders (lock s1) = <[t := m - 1]> (_holders (lock s)))
    as [Hl1 Hh1] by (unfold s1, move, release; rewrite Hm; by destruct (0 <? m - 1)).
  destruct (IH s1 (m - 1)) as (s' & Hs & Hl & Hh & Hu); [done| |lia|].
  { by rewrite Hh1, lookup_insert_eq. }
  exists s'. split_and!; [eapply rtc_l; eauto|congruence| |].
  - rewrite Hh, Hh1. apply delete_insert_eq.
  - intros u Hne. rewrite Hu by done. by apply at_pos_move_ne.
Qed.

(** When every holder gives the lock up, the first in line is granted. *)
Lemma first_granted s u b ws :
  inv s → line (lock s) = (u, b) :: ws →
  ∃ s', steps s s' ∧ line (lock s') = line (lock s) ∧ waiter_set u (lock s') ∧
    ∀ v c, (v, c) ∈ line (lock s) → at_pos s' v = at_pos s v.
Proof.
  remember (_holders (lock s)) as hs eqn:Hhs. revert s Hhs.
  induction (map_wf hs) as [hs _ IH]. intros s Hhs Hinv Hline.
  destruct (decide (hs = ∅)) as [->|Hne].
  - exists s. split_and!; [apply rtc_refl|done| |done].
    pose proof (inv_queue _ Hinv) as [_ Hq]. unfold line in Hline.
    destruct (_waiters (lock s)) as [|w ws'] eqn:E; [done|]. simpl in Hline. simplify_eq.
    exists w. rewrite E. split_and!; [by left|done|]. destruct Hq as (_ & _ & He & _). by apply He.
  - apply map_choose in Hne as (h & m & Hm). subst hs.
    destruct (holder_releases (Z.to_nat m) s h m) as (s1 & Hs1 & Hl1 & Hh1 & Hp1); [done|done|lia|].
    assert (inv s1) as Hi1 by eauto using rw_inv_steps.
    destruct (IH (_holders (lock s1))) with s1 as (s' & Hs' & Hl' & Hw' & Hp'); [|done|done|congruence|].
    { rewrite Hh1. by eapply delete_subset. }
    exists s'. split_and!; [by etrans|congruence|done|].
    intros v c Hv. rewrite (Hp' v c) by by rewrite Hl1. apply Hp1. intros ->.
    pose proof (inv_threads _ Hinv h) as Ht. unfold thread_at in Ht. rewrite Hm in Ht.
    destruct (at_pos s h); destruct Ht as [Hx Ht]; try done; by destruct (Ht c).
Qed.

Lemma line_serves (n : nat) s t write :
  inv s → at_pos s t = InWait write → (length (line (lock s)) ≤ n)%nat →
  ∃ s', steps s s' ∧ at_pos s' t = Outside ∧ _holders (lock s') !! t = Some 1 ∧
    (_writer (lock s') = if write then Some t else None).
Proof.
  revert s. induction n as [|n IH]; intros s Hinv Hp Hlen; pose proof (inv_threads _ Hinv t) as Ht;
    rewrite Hp in Ht; destruct Ht as [_ Ht]; specialize (Ht write);
    destruct (line (lock s)) as [|[u b] ws] eqn:El; simpl in Hlen; try lia;
    try (by apply proj2, (fun f => f eq_refl), elem_of_nil in Ht).
  destruct (first_granted s u b ws Hinv El) as (s1 & Hs1 & Hl1 & Hw & Hp1).
  assert (inv s1) as Hi1 by eauto using rw_inv_steps.
  assert (at_pos s1 t = InWait write) as Hp1t.
  { rewrite (Hp1 t write); [done|]. rewrite El. by apply Ht. }
  assert (at_pos s1 u = InWait b) as Hpu.
  { pose proof (inv_threads _ Hi1 u) as Hu. assert ((u, b) ∈ line (lock s1)) as Hin by (rewrite Hl1, El; by left).
    destruct (at_pos s1 u) eqn:E; destruct Hu as [_ Hu]; try (by destruct (Hu b)). f_equal. symmetry. by apply Hu. }
  pose (s2 := move u (acquire_granted b u (lock s1)) s1).
  assert (step s1 u s2) as Hs2 by by apply step_granted.
  assert (acquires s1 u b s2) as Ha by (split; [by right|unfold s2; by rewrite at_pos_move]).
  destruct (acquires_inv _ _ _ _ Hi1 Hs2 Ha) as (Hh2 & Hw2 & _ & Hl2).
  assert (steps s s2) as Hss2 by (etrans; [done|apply rtc_once; eauto]).
  destruct (decide (u = t)) as [->|Hne].
  - exists s2. assert (b = write) as -> by congruence.
    split_and!; [done|unfold s2; by rewrite at_pos_move|by rewrite Hh2, lookup_insert_eq|done].
  - destruct (IH s2) as (s' & Hs' & Hrest); [eauto using rw_inv_step| | |exists s'; by split; [etrans|]].
    { unfold s2. by rewrite at_pos_move_ne by done. }
    rewrite Hl1, El in Hl2. destruct Hl2 as [[? _]|Hl2]; [done|]. 
    apply (f_equal length) in Hl2. unfold s2 in *. simpl in *. lia.
Qed.

(** C5: no lost wakeup and no deadlock inside the lock.  In every reachable
    state, whenever nobody holds the lock, or a reader is first in line and there
    is no writer, the first in line has been woken; and from every reachable
    state a waiting thread can be served: there is an execution in which the
    holders release, the line is served, and the thread's acquire returns with
    the lock held the way it asked for. *)
Theorem rwlock_progress (s : state) (t : tid) (write : bool) :
  reachable s →
  (head (line (lock s)) = Some (t, write) →
   _holders (lock s) = ∅ ∨ (_writer (lock s) = None ∧ write = false) →
   waiter_set t (lock s)) ∧
  (at_pos s t = InWait write →
   ∃ s', steps s s' ∧ at_pos s' t = Outside ∧ _holders (lock s') !! t = Some 1 ∧
     _writer (lock s') = if write then Some t else None).
Proof.
  intros Hr%rw_reachable_inv. split.
  - intros Hhd Hfree. pose proof (inv_queue _ Hr) as [_ Hq]. unfold line in Hhd.
    destruct (_waiters (lock s)) as [|w ws] eqn:E; [done|]. simpl in Hhd. simplify_eq.
    exists w. rewrite E. split_and!; [by left|done|]. destruct Hq as (_ & _ & H1 & H2).
    destruct Hfree as [|[]]; auto.
  - intros Hp. by eapply line_serves.
Qed.

(** misuse and recursion, in every reachable state, for a thread outside
    the lock's methods.  Asking for promotion or demotion, or releasing a lock
    that is not held, raises RuntimeError and changes nothing; asking again for
    the lock the thread holds returns at once, and the release that follows
    gives the lock back as it was. *)
Theorem rwlock_misuse (s : state) (t : tid) :
  reachable s → at_pos s t = Outside →
  let l := lock s in
  (_holders l !! t = None → release t l = (l, RuntimeError)) ∧
  (_writer l = Some t → acquire_read t l = (l, RuntimeError) ∧
     ∃ l', acquire_write t l = (l', Returned) ∧ release t l' = (l, Returned)) ∧
  (_writer l ≠ Some t → is_Some (_holders l !! t) → acquire_write t l = (l, RuntimeError) ∧
     ∃ l', acquire_read t l = (l', Returned) ∧ release t l' = (l, Returned)).
Proof.
  intros Hr%rw_reachable_inv Hp l. pose proof (inv_threads _ Hr t) as Ht. rewrite Hp in Ht.
  assert (is_Some (_holders l !! t) → release t (incr_holder t l) = (l, Returned)) as Hback.
  { intros [n Hn]. pose proof (proj1 Ht n Hn). unfold release, incr_holder. simpl.
    rewrite lookup_alter_eq. subst l. rewrite Hn. simpl. replace (1 + n - 1) with n by lia.
    destruct (Z.ltb_spec 0 n); [|lia]. rewrite insert_alter_id by done. by destruct (lock s). }
  split_and!.
  - intros Hn. unfold release. by rewrite Hn.
  - intros Hw. pose proof (proj2 (inv_exclusive _ Hr t Hw t) eq_refl) as Hs.
    unfold acquire_write, acquire_read. rewrite !bool_decide_eq_true_2 by done. by eauto.
  - intros Hw Hs. unfold acquire_write, acquire_read.
    rewrite bool_decide_eq_false_2, bool_decide_eq_true_2 by done. by eauto.
Qed.

(** ** Concrete executions *)

(** Thread 1 takes the lock for reading, thread 2 waits to write. *)
Definition reader_and_writer : state :=
  let s := move 1%nat (acquire_read 1 (lock init)) init in
  let s := move 1%nat (acquire_guarded false 1 (lock s)) s in
  let s := move 2%nat (acquire_write 2 (lock s)) s in
  move 2%nat (acquire_guarded true 2 (lock s)) s.

(** ... and thread 1 releases it. *)
Definition writer_woken : state :=
  let s := move 1%nat (release 1 (lock reader_and_writer)) reader_and_writer in
  move 1%nat (release_guarded 1 (lock s)) s.

Ltac run_step t c := eapply rtc_r; [|exists t; apply c; vm_compute; reflexivity].

Lemma reader_and_writer_reachable : reachable reader_and_writer.
Proof.
  unfold reachable, reader_and_writer.
  run_step 2%nat (step_acquire_guarded). run_step 2%nat step_acquire_write.
  run_step 1%nat (step_acquire_guarded). run_step 1%nat step_acquire_read. apply rtc_refl.
Qed.

Lemma writer_woken_reachable : reachable writer_woken.
Proof.
  unfold reachable, writer_woken.
  run_step 1%nat step_release_guarded. run_step 1%nat step_release.
  apply reader_and_writer_reachable.
Qed.

Lemma writer_woken_set : waiter_set 2 (lock writer_woken).
Proof. exists (mkWaiter 2 true true). vm_compute. repeat split. by left. Qed.

Lemma writer_woken_step :
  step writer_woken 2 (move 2%nat (acquire_granted true 2 (lock writer_woken)) writer_woken).
Proof. apply step_granted; [reflexivity|apply writer_woken_set]. Qed.

Lemma rwlock_exclusion_witness :
  let s' := move 2%nat (acquire_granted true 2 (lock writer_woken)) writer_woken in
  _holders (lock s') !! 2%nat = Some 1 ∧
  _writer (lock s') = Some 2%nat ∧ ∀ u, u ≠ 2%nat → _holders (lock s') !! u = None.
Proof.
  apply (proj2 (rwlock_exclusion writer_woken 2 writer_woken_reachable) true).
  - exact writer_woken_step.
  - split; [by right|reflexivity].
Defined.

Lemma rwlock_fifo_witness :
  line (lock writer_woken) = [(2%nat, true)] ∧
  ∀ u, _holders (lock writer_woken) !! u = None →
    is_Some (_holders (lock (move 2%nat (acquire_granted true 2 (lock writer_woken)) writer_woken)) !! u) →
    u = 2%nat.
Proof.
  split; [vm_compute; reflexivity|]. intros u Hn Hs.
  exact (proj1 (proj2 (rwlock_fifo writer_woken 2 _ writer_woken_reachable writer_woken_step) u Hn Hs)).
Defined.

Lemma rwlock_progress_witness :
  ∃ s', steps reader_and_writer s' ∧ at_pos s' 2 = Outside ∧
    _holders (lock s') !! 2%nat = Some 1 ∧ _writer (lock s') = Some 2%nat.
Proof.
  exact (proj2 (rwlock_progress reader_and_writer 2 true reader_and_writer_reachable) eq_refl).
Defined.

Lemma rwlock_misuse_witness :
  acquire_write 1 (lock reader_and_writer) = (lock reader_and_writer, RuntimeError) ∧
  ∃ l', acquire_read 1 (lock reader_and_writer) = (l', Returned) ∧
    release 1 l' = (lock reader_and_writer, Returned).
Proof.
  apply (proj2 (proj2 (rwlock_misuse reader_and_writer 1 reader_and_writer_reachable eq_refl))).
  - vm_compute. discriminate.
  - vm_compute. eexists. reflexivity.
Defined.
