(* ===== verification/Guarded.v ===== *)
(** * Guarded operations: [storage/guarded.py]

    [context] deduplicates, checks and sorts the locks of an operation, acquires
    them in order and releases them in reverse order.  The locks are any
    implementation of [AbstractLock]: the class [LockOps] has its operations
    and [LockLaws] what the context needs of them. *)
From Stdlib Require Import ZArith Lia Sorted.
From stdpp Require Import base gmap list sorting strings.
From S2P Require Import Prelude.

(** What identifies a lock: [AbstractLock._key]. *)
Record Lock := mkLockKey {
  l_type : text;
  ns : text;
  name : text;
  mode : text;
}.

#[export] Instance Lock_eq_dec : EqDecision Lock.
Proof. solve_decision. Defined.

#[export] Instance Lock_countable : Countable Lock.
Proof.
  apply (inj_countable' (fun l => (l_type l, ns l, name l, mode l))
    (fun '(a, b, c, d) => mkLockKey a b c d)). by intros [].
Defined.

Definition key (l : Lock) : text * text := (ns l, name l).

(** [(a.ns, a.name) < (b.ns, b.name)] *)
Definition key_ltb (a b : text * text) : bool :=
  text_ltb (fst a) (fst b) || (bool_decide (fst a = fst b) && text_ltb (snd a) (snd b)).

Definition lock_ltb (a b : Lock) : bool := key_ltb (key a) (key b).

(** [itertools.groupby(locks, by_ns_name)]: runs of equal keys. *)
Fixpoint groupby (l : list Lock) : list (list Lock) :=
  match l with
  | [] => []
  | x :: l' =>
      match groupby l' with
      | (y :: g) :: gs => if decide (key x = key y) then (x :: y :: g) :: gs else [x] :: (y :: g) :: gs
      | gs => [x] :: gs
      end
  end.

(** What a context raises: an error of a lock, ReleaseError, Deadlock. *)
Inductive error (E : Type) :=
| LockError (e : E)
| ReleaseError (errors : list E)
| Deadlock (locks : list Lock).
Arguments LockError {E} e.
Arguments ReleaseError {E} errors.
Arguments Deadlock {E} locks.

(** [_validate]; [order] is [set(locks)] in the order the set is iterated. *)
Definition _validate {E} (order : list Lock) : res (error E) (list Lock) :=
  let locks := py_sorted lock_ltb order in
  match list_find (fun g => (1 < length g)%nat) (groupby locks) with
  | Some (_, g) => Raise (Deadlock g)
  | None => Ok locks
  end.

(** The iterations of [set(locks)]. *)
Definition set_order (locks order : list Lock) : Prop :=
  NoDup order ∧ ∀ l, l ∈ order ↔ l ∈ locks.

(** ** The locks of an operation *)

Class LockOps (S E : Type) := {
  lock_acquire : Lock → M S E unit;
  lock_release : Lock → M S E unit;
  (** an Exception, not only a BaseException *)
  is_Exception : E → bool;
}.

Section Context.
  Context {S E : Type} `{!LockOps S E}.

(** The state of a context beside the state of the locks: [_held_locks], its
    last element first. *)
Abbreviation C A := (M (S * list Lock) (error E) A).

Fixpoint release_loop (held : list Lock) (errors : list E) (s : S)
    : (S * list Lock) * res (error E) unit :=
  match held with
  | [] => ((s, []), match errors with [] => Ok () | _ => Raise (ReleaseError errors) end)
  | l :: held' =>
      match lock_release l s with
      | (s', Ok _) => release_loop held' errors s'
      | (s', Raise e) =>
          if is_Exception e then release_loop held' (errors ++ [e]) s'
          else ((s', held'), Raise (LockError e))
      end
  end.

Definition _release : C unit := fun '(s, held) => release_loop held [] s.

(** [try: self._release() except ReleaseError: log] *)
Definition _release_quietly : C unit :=
  try_except _release (fun e => match e with ReleaseError _ => mret () | _ => raise e end).

Definition context_acquire (l : Lock) : C unit := fun '(s, held) =>
  match lock_acquire l s with
  | (s', Ok _) => ((s', l :: held), Ok ())
  | (s', Raise e) => (_release_quietly ;; raise (LockError e)) (s', held)
  end.

Definition context_enter (locks : list Lock) : C unit := for_each locks context_acquire.

(** [__exit__] with the exception of the body; its result is never true, so
    that exception goes on when [__exit__] returns. *)
Definition context_exit (exc : option E) : C unit :=
  try_except _release (fun e =>
    match e, exc with
    | ReleaseError _, Some _ => mret ()
    | _, _ => raise e
    end).

(** [with context(locks): body] *)
Definition with_context {A} (order : list Lock) (body : M S E A) : S → S * res (error E) A := fun s =>
  match _validate order with
  | Raise e => (s, Raise e)
  | Ok locks =>
      match context_enter locks (s, []) with
      | ((s1, _), Raise e) => (s1, Raise e)
      | ((s1, held), Ok _) =>
          match body s1 with
          | (s2, Ok a) =>
              match context_exit None (s2, held) with
              | ((s3, _), Ok _) => (s3, Ok a)
              | ((s3, _), Raise e) => (s3, Raise e)
              end
          | (s2, Raise e) =>
              match context_exit (Some e) (s2, held) with
              | ((s3, _), Ok _) => (s3, Raise (LockError e))
              | ((s3, _), Raise e') => (s3, Raise e')
              end
          end
      end
  end.
End Context.

(** ** The order of the keys *)

Lemma key_ltb_irrefl a : key_ltb a a = false.
Proof. unfold key_ltb. by rewrite !text_ltb_irrefl, andb_false_r. Qed.

Lemma key_ltb_trans a b c : key_ltb a b = true → key_ltb b c = true → key_ltb a c = true.
Proof.
  destruct a as [a1 a2], b as [b1 b2], c as [c1 c2]. unfold key_ltb. simpl.
  intros H1 H2. boolp. apply orb_true_iff.
  destruct H1 as [H1|H1], H2 as [H2|H2]; boolp; subst; eauto using text_ltb_trans.
  right. rewrite bool_decide_eq_true_2 by done. simpl. eauto using text_ltb_trans.
Qed.

Lemma key_ltb_total a b : key_ltb a b = true ∨ a = b ∨ key_ltb b a = true.
Proof.
  destruct a as [a1 a2], b as [b1 b2]. unfold key_ltb. simpl.
  destruct (text_ltb_total a1 b1) as [-> | [-> | ->]]; [auto| |auto].
  rewrite text_ltb_irrefl, !bool_decide_eq_true_2 by done. simpl.
  destruct (text_ltb_total a2 b2) as [-> | [-> | ->]]; auto.
Qed.

Lemma key_ltb_asym a b : key_ltb a b = true → key_ltb b a = false.
Proof.
  intros H. destruct (key_ltb b a) eqn:E; [|done].
  pose proof (key_ltb_trans _ _ _ H E) as Hc. by rewrite key_ltb_irrefl in Hc.
Qed.

Lemma key_ltb_neg_trans a b c : key_ltb a b = false → key_ltb b c = false → key_ltb a c = false.
Proof.
  intros H1 H2. destruct (key_ltb_total b a) as [H|[->|H]]; [|done|congruence].
  destruct (key_ltb_total c b) as [H'|[->|H']]; [|done|congruence].
  apply key_ltb_asym. eauto using key_ltb_trans.
Qed.

Lemma key_ltb_antisym a b : key_ltb a b = false → key_ltb b a = false → a = b.
Proof. intros. destruct (key_ltb_total a b) as [|[|]]; congruence. Qed.

(** ** Validation *)

Lemma locks_sorted order : StronglySorted (fun a b => lock_ltb b a = false) (py_sorted lock_ltb order).
Proof.
  apply py_sorted_ordered; unfold lock_ltb; intros; eauto using key_ltb_neg_trans, key_ltb_asym.
Qed.

Lemma groupby_concat l : concat (groupby l) = l.
Proof.
  induction l as [|x l IH]; [done|]. simpl. destruct (groupby l) as [|[|y g] gs] eqn:E; simpl in *.
  - by subst.
  - by rewrite IH.
  - destruct (decide _); simpl; by rewrite IH.
Qed.

Lemma groupby_same_key l : Forall (fun g => ∃ k, Forall (fun x => key x = k) g) (groupby l).
Proof.
  induction l as [|x l IH]; [constructor|]. simpl.
  assert (∃ k, Forall (fun z => key z = k) [x]) as Hx by (exists (key x); by repeat constructor).
  destruct (groupby l) as [|[|y g] gs]; simpl; [by repeat constructor|by constructor|].
  apply Forall_cons in IH as [[k Hk] IH]. destruct (decide _) as [He|]; [|repeat constructor; eauto].
  constructor; [|done]. exists k. constructor; [|done]. apply Forall_cons in Hk as [Hk _]. congruence.
Qed.

(** Without a group of two, neighbours have different keys. *)
Lemma groupby_singletons l :
  Forall (fun g => ¬ (1 < length g)%nat) (groupby l) →
  Sorted (fun a b => key a ≠ key b) l.
Proof.
  induction l as [|x l IH]; [constructor|]. simpl.
  destruct l as [|y l]; [repeat constructor|].
  destruct (groupby (y :: l)) as [|[|z g] gs] eqn:E; intros H.
  - apply (f_equal (@concat _)) in E. by rewrite groupby_concat in E.
  - exfalso. simpl in E. destruct (groupby l) as [|[|? ?] ?]; try done. by destruct (decide _).
  - assert (y = z) as <-.
    { apply (f_equal (@concat _)) in E. rewrite groupby_concat in E. simpl in E. congruence. }
    destruct (decide (key x = key y)) as [Hk|Hk].
    + apply Forall_cons in H as [H _]. simpl in H. lia.
    + constructor; [by apply IH; apply Forall_cons in H as [_ H]|by constructor].
Qed.

Definition strictly_ordered : list Lock → Prop := StronglySorted (fun a b => lock_ltb a b = true).

Lemma ordered_distinct_neighbours l :
  StronglySorted (fun a b => lock_ltb b a = false) l → Sorted (fun a b => key a ≠ key b) l →
  strictly_ordered l.
Proof.
  intros Hs Hn. apply Sorted_StronglySorted; [intros a b c; apply key_ltb_trans|].
  induction Hs as [|x l Hl IH Hx]; [constructor|].
  apply Sorted_inv in Hn as [Hn Hhd]. constructor; [by apply IH|].
  destruct Hhd as [|y l Hxy]; constructor. apply Forall_cons in Hx as [Hx _].
  unfold lock_ltb in *. destruct (key_ltb_total (key x) (key y)) as [|[|]]; congruence.
Qed.

Lemma strictly_ordered_keys l a b :
  strictly_ordered l → a ∈ l → b ∈ l → key a = key b → a = b.
Proof.
  induction 1 as [|x l Hl IH Hx]; [by intros ?%elem_of_nil|]. rewrite Forall_forall in Hx.
  intros [->|Ha]%elem_of_cons [->|Hb]%elem_of_cons Hk; auto.
  - apply Hx in Hb. unfold lock_ltb in Hb. by rewrite Hk, key_ltb_irrefl in Hb.
  - apply Hx in Ha. unfold lock_ltb in Ha. by rewrite Hk, key_ltb_irrefl in Ha.
Qed.

Lemma validate_cases {E} order :
  (_validate (E := E) order = Ok (py_sorted lock_ltb order) ∧ strictly_ordered (py_sorted lock_ltb order)) ∨
  (∃ g a b rest k, _validate (E := E) order = Raise (Deadlock g) ∧ g = a :: b :: rest ∧
     Forall (fun x => key x = k) g ∧ ∃ pre post, py_sorted lock_ltb order = pre ++ g ++ post).
Proof.
  unfold _validate. destruct (list_find _ _) as [[i g]|] eqn:F.
  - right. apply list_find_Some in F as (Hg & Hlen & _).
    destruct g as [|a [|b rest]]; simpl in Hlen; [lia..|].
    pose proof (groupby_same_key (py_sorted lock_ltb order)) as Hk.
    destruct (Forall_lookup_1 _ _ _ _ Hk Hg) as [k Hkk].
    exists (a :: b :: rest), a, b, rest, k. split_and!; [done..|].
    apply list_elem_of_lookup_2, list_elem_of_split in Hg as (g1 & g2 & Hg).
    exists (concat g1), (concat g2). rewrite <- (groupby_concat (py_sorted _ _)), Hg.
    by rewrite concat_app.
  - left. split; [done|]. apply ordered_distinct_neighbours; [apply locks_sorted|].
    apply groupby_singletons. by apply list_find_None in F.
Qed.

(** the locks of an operation.  Whatever the order in which the set of the
    given locks is iterated, either no two different locks have the same
    namespace and name, and the context has exactly the given locks, once each,
    strictly ordered by namespace and name; or Deadlock is raised with two
    different locks of the same namespace and name. *)
Theorem validate_spec {E} (locks order : list Lock) :
  set_order locks order →
  match _validate (E := E) order with
  | Ok l => strictly_ordered l ∧ NoDup l ∧ (∀ x, x ∈ l ↔ x ∈ locks) ∧
      (∀ a b, a ∈ locks → b ∈ locks → key a = key b → a = b)
  | Raise (Deadlock g) => ∃ a b, a ∈ g ∧ b ∈ g ∧ a ∈ locks ∧ b ∈ locks ∧ a ≠ b ∧ key a = key b
  | Raise _ => False
  end.
Proof.
  intros [Hnd Hel]. pose proof (py_sorted_Permutation lock_ltb order) as Hp.
  assert (∀ x, x ∈ py_sorted lock_ltb order ↔ x ∈ locks) as Hmem by (intros x; by rewrite Hp, Hel).
  destruct (validate_cases (E := E) order) as [[-> Hs]|(g & a & b & rest & k & -> & -> & Hk & pre & post & Happ)].
  - split_and!; [done|by rewrite Hp|done|]. intros a b Ha Hb.
    apply (strictly_ordered_keys _ a b Hs); by apply Hmem.
  - exists a, b. apply Forall_cons in Hk as [Ha Hk]. apply Forall_cons in Hk as [Hb _].
    split_and!; [set_solver|set_solver|apply Hmem; rewrite Happ; set_solver|
      apply Hmem; rewrite Happ; set_solver| |congruence].
    intros ->. rewrite <- Hp, Happ in Hnd. apply NoDup_app in Hnd as (_ & _ & Hnd).
    simpl in Hnd. apply NoDup_cons in Hnd as [Hn _]. set_solver.
Qed.

(** ** Ownership of the locks *)

(** What the context needs of its locks: which ones are owned in a state of the
    locks; a failed acquire owns nothing new, a release that returns gives the
    lock up, one that raises (an Exception) may or may not. *)
Class LockLaws (S E : Type) `{!LockOps S E} := {
  owned : S → gset Lock;
  acquire_owned l s s' r : lock_acquire l s = (s', r) →
    owned s' = if is_ok r then {[l]} ∪ owned s else owned s;
  release_owned l s s' r : l ∈ owned s → lock_release l s = (s', r) →
    owned s' = owned s ∖ {[l]} ∨ (is_ok r = false ∧ owned s' = owned s);
  release_exception l s s' e : lock_release l s = (s', Raise e) → is_Exception e = true;
}.

Section ContextFacts.
  Context {S E : Type} `{LockLaws S E}.

(** The releases that raised, from a state of the locks. *)
Fixpoint failed_releases (held : list Lock) (s : S) : list Lock :=
  match held with
  | [] => []
  | l :: held' =>
      match lock_release l s with
      | (s', Ok _) => failed_releases held' s'
      | (s', Raise _) => l :: failed_releases held' s'
      end
  end.

Lemma release_loop_owned held errors s :
  NoDup held → (∀ l, l ∈ held → l ∈ owned s) →
  let '(s', h, r) := release_loop held errors s in
  h = [] ∧
  (is_ok r = true ↔ errors = [] ∧ failed_releases held s = []) ∧
  (∀ e, r = Raise e → ∃ es, e = ReleaseError es) ∧
  owned s' ⊆ owned s ∧
  (∀ l, l ∈ owned s' → l ∈ held → l ∈ failed_releases held s) ∧
  (∀ l, l ∈ owned s → l ∉ held → l ∈ owned s').
Proof.
  revert errors s. induction held as [|l held IH]; intros errors s Hnd Hown; simpl.
  { destruct errors; (split_and!; [done| | |done|set_solver|done]); naive_solver. }
  apply NoDup_cons in Hnd as [Hl Hnd].
  destruct (lock_release l s) as [s' r] eqn:Er.
  pose proof (release_owned l s s' r (Hown l ltac:(by left)) Er) as Ho.
  assert (∀ x, x ∈ held → x ∈ owned s') as Hown'.
  { intros x Hx. assert (x ≠ l) by (by intros ->). pose proof (Hown x ltac:(by right)).
    destruct Ho as [->|[_ ->]]; set_solver. }
  destruct r as [u|e]; [|rewrite (release_exception l s s' e Er)].
  - specialize (IH errors s' Hnd Hown'). destruct (release_loop held errors s') as [[s2 h] r2].
    destruct Ho as [Ho|[? _]]; [|done].
    destruct IH as (-> & Hok & He & Hsub & Hleft & Hkeep).
    split_and!; [done..|set_solver| |]; intros x Hx Hin.
    + apply elem_of_cons in Hin as [->|Hin]; [set_solver|by auto].
    + apply Hkeep; set_solver.
  - specialize (IH (errors ++ [e]) s' Hnd Hown').
    destruct (release_loop held (errors ++ [e]) s') as [[s2 h] r2].
    destruct IH as (-> & Hok & He & Hsub & Hleft & Hkeep).
    split_and!; [done| |done|destruct Ho as [Ho|[_ Ho]]; set_solver| |].
    + rewrite Hok. split; [intros [? _]; by destruct errors|naive_solver].
    + intros x Hx [->|Hin]%elem_of_cons; [by left|right; by auto].
    + intros x Hx Hin. apply Hkeep; destruct Ho as [Ho|[_ Ho]]; set_solver.
Qed.

(** What is left of [held] after releasing it from [s1], beside [base]. *)
Definition released (base : gset Lock) (held : list Lock) (s1 s' : S) : Prop :=
  base ⊆ owned s' ∧ ∀ l, l ∈ owned s' → l ∈ base ∨ l ∈ failed_releases held s1.

Lemma release_loop_released base held s :
  NoDup held → owned s = base ∪ list_to_set held → (∀ l, l ∈ held → l ∉ base) →
  let '(s', h, r) := release_loop held [] s in
  released base held s s' ∧
  match r with
  | Ok _ => failed_releases held s = []
  | Raise (ReleaseError _) => failed_releases held s ≠ []
  | Raise _ => False
  end.
Proof.
  intros Hnd Ho Hb. pose proof (release_loop_owned held [] s Hnd) as Hr.
  destruct (release_loop held [] s) as [[s' h] r].
  destruct Hr as (-> & Hok & He & Hsub & Hleft & Hkeep); [set_solver|]. split.
  - split; [set_solver|]. intros l Hl. destruct (decide (l ∈ held)); [right; auto|left; set_solver].
  - destruct r as [[]|e]; [naive_solver|]. destruct (He e eq_refl) as [es ->].
    intros Hf. by pose proof (proj2 Hok (conj eq_refl Hf)).
Qed.

(** Entering: every lock is owned, or the ones taken are given back. *)
Lemma context_enter_owned locks base held s :
  NoDup (locks ++ held) → owned s = base ∪ list_to_set held →
  (∀ l, l ∈ locks ++ held → l ∉ base) →
  match context_enter locks (s, held) with
  | ((s', h), Ok _) => h = reverse locks ++ held ∧ owned s' = base ∪ list_to_set h
  | ((s', h), Raise e) => ∃ l pre post err s1,
      locks = pre ++ l :: post ∧ e = LockError err ∧ owned s1 = base ∪ list_to_set (reverse pre ++ held) ∧
      (∃ s0, lock_acquire l s0 = (s1, Raise err)) ∧ released base (reverse pre ++ held) s1 s'
  end.
Proof.
  revert held s. induction locks as [|l locks IH]; intros held s Hnd Ho Hb; [done|].
  unfold context_enter. cbn -[context_acquire reverse]. munfold_goal. unfold context_acquire at 1.
  destruct (lock_acquire l s) as [s1 [[]|err]] eqn:El; pose proof (acquire_owned l s s1 _ El) as Ho1;
    simpl in Ho1.
  - assert (locks ++ l :: held ≡ₚ l :: locks ++ held) as Hperm by (symmetry; apply Permutation_middle).
    specialize (IH (l :: held) s1). unfold context_enter in IH.
    destruct (for_each locks context_acquire (s1, l :: held)) as [[s' h] [[]|e]].
    + rewrite reverse_cons, <- app_assoc. apply IH; [by rewrite Hperm|clear IH Hnd Hperm; set_solver|].
      intros x. rewrite Hperm. apply Hb.
    + destruct IH as (x & pre & post & err & s2 & -> & -> & Ho2 & Hs0 & Hrel);
        [by rewrite Hperm|set_solver|intros x; rewrite Hperm; apply Hb|].
      exists x, (l :: pre), post, err, s2. rewrite reverse_cons, <- app_assoc. by split_and!.
  - unfold _release_quietly, try_except. munfold_goal. unfold _release.
    pose proof (release_loop_released base held s1) as Hr.
    destruct (release_loop held [] s1) as [[s' h] r] eqn:Er.
    destruct Hr as [Hr Hres].
    { apply (NoDup_app (l :: locks) held) in Hnd. by apply Hnd. }
    { congruence. }
    { intros x Hx. apply Hb. set_solver. }
    assert (∃ s0, lock_acquire l s0 = (s1, Raise err)) as Hs0 by eauto.
    destruct r as [[]|[e|es|g]]; try done; exists l, [], locks, err, s1; simpl;
      rewrite Ho1, Ho; by split_and!.
Qed.

Lemma validate_order {E'} locks order l :
  set_order locks order → _validate (E := E') order = Ok l →
  NoDup l ∧ ∀ x, x ∈ l ↔ x ∈ locks.
Proof.
  intros [Hnd Hel] Hv. pose proof (py_sorted_Permutation lock_ltb order) as Hp.
  destruct (validate_cases (E := E') order) as [[Hv' _]|(g & a & b & rest & k & Hv' & _)];
    rewrite Hv in Hv'; [|done]. injection Hv' as ->. split; [by rewrite Hp|].
  intros x. by rewrite Hp, Hel.
Qed.

(** C6: the life of [with context(locks): body], for a thread that owns none of
    the locks before and a body that acquires and releases its own locks.  Either
    the locks conflict and nothing happens; or acquiring a lock failed, the ones
    acquired before it are released and the error of that acquire is raised; or
    the body ran with all the locks owned, they are released, and the result or
    the error of the body is what the statement gives, ReleaseError only when the
    body itself did not raise.  A release that raises stops none of the others:
    only locks whose own release raised can be left, and what was owned before
    is still owned. *)
Theorem with_context_spec {A} (locks order : list Lock) (body : M S E A) (s : S) :
  set_order locks order → (∀ l, l ∈ locks → l ∉ owned s) →
  (∀ s1 s2 r, body s1 = (s2, r) → owned s2 = owned s1) →
  let '(s', r) := with_context order body s in
  (∃ g, r = Raise (Deadlock g) ∧ s' = s) ∨
  (∃ l err s0 s1 held, l ∈ locks ∧ lock_acquire l s0 = (s1, Raise err) ∧
     (∀ x, x ∈ held → x ∈ locks) ∧ released (owned s) held s1 s' ∧ r = Raise (LockError err)) ∨
  (∃ s1 s2 rb held, owned s1 = owned s ∪ list_to_set locks ∧ body s1 = (s2, rb) ∧
     (∀ x, x ∈ held ↔ x ∈ locks) ∧ released (owned s) held s2 s' ∧
     match rb with
     | Ok a => r = Ok a ∧ failed_releases held s2 = [] ∨
               ∃ es, r = Raise (ReleaseError es) ∧ failed_releases held s2 ≠ []
     | Raise e => r = Raise (LockError e)
     end).
Proof.
  intros Hset Hfree Hbody. unfold with_context.
  destruct (_validate order) as [l|err] eqn:Hv.
  2:{ left. destruct (validate_cases (E := E) order) as [[Hv' _]|(g & a & b & rest & k & Hv' & _)];
        rewrite Hv in Hv'; [done|]. injection Hv' as ->. by eexists. }
  destruct (validate_order _ _ _ Hset Hv) as [Hnd Hel].
  pose proof (context_enter_owned l (owned s) [] s) as He. rewrite app_nil_r in He.
  specialize (He Hnd ltac:(set_solver) ltac:(set_solver)).
  destruct (context_enter l (s, [])) as [[s1 held] [[]|e]].
  - destruct He as [-> Ho]. rewrite app_nil_r in *.
    destruct (body s1) as [s2 rb] eqn:Eb. pose proof (Hbody _ _ _ Eb) as Ho2. rewrite Ho in Ho2.
    pose proof (release_loop_released (owned s) (reverse l) s2) as Hr.
    specialize (Hr ltac:(by rewrite reverse_Permutation) Ho2 ltac:(set_solver)).
    unfold context_exit, try_except, _release.
    destruct (release_loop (reverse l) [] s2) as [[s3 h] r]. destruct Hr as [Hrel Hres].
    destruct rb as [a|e], r as [[]|[]]; try done; right; right;
      exists s1, s2; eexists _, (reverse l);
      (split_and!; [rewrite Ho; set_solver|exact Eb|set_solver|done|first [done|by left|right; by eexists]]).
  - right; left. destruct He as (x & pre & post & err & s2 & -> & -> & Ho & [s0 Hs0] & Hrel).
    rewrite app_nil_r in Hrel. exists x, err, s0, s2, (reverse pre). split_and!; set_solver.
Qed.
End ContextFacts.

Lemma strictly_ordered_app l k a b :
  strictly_ordered (l ++ k) → a ∈ l → b ∈ k → key_ltb (key a) (key b) = true.
Proof.
  induction l as [|x l IH]; simpl; [by intros _ ?%elem_of_nil|].
  intros Hs Ha Hb. apply StronglySorted_inv in Hs as [Hs Hx].
  apply elem_of_cons in Ha as [->|Ha]; [|by apply IH].
  rewrite Forall_forall in Hx. apply (Hx b). set_solver.
Qed.

(** ** A table of locks *)

(** A state of locks that is the set of the owned ones; acquiring an owned lock
    and releasing a free one raise. *)
Definition table_acquire (l : Lock) : M (gset Lock) text unit := fun s =>
  if decide (l ∈ s) then (s, Raise (str "locked")) else ({[l]} ∪ s, Ok ()).

Definition table_release (l : Lock) : M (gset Lock) text unit := fun s =>
  if decide (l ∈ s) then (s ∖ {[l]}, Ok ()) else (s, Raise (str "not locked")).

#[export] Instance table_ops : LockOps (gset Lock) text := {
  lock_acquire := table_acquire; lock_release := table_release; is_Exception _ := true }.

#[export] Instance table_laws : LockLaws (gset Lock) text.
Proof.
  refine {| owned s := s |}; simpl; unfold table_acquire, table_release.
  - intros l s s' r. case_decide; intros [= <- <-]; done.
  - intros l s s' r Hl. rewrite decide_True by done. intros [= <- <-]. by left.
  - done.
Defined.

Definition vol_a : Lock := mkLockKey (str "Lock") (str "03_vol") (str "a") (str "shared").
Definition vol_b : Lock := mkLockKey (str "Lock") (str "03_vol") (str "b") (str "exclusive").
Definition image : Lock := mkLockKey (str "Lock") (str "02_img") (str "i") (str "exclusive").

Lemma validate_spec_witness :
  strictly_ordered [image; vol_a; vol_b].
Proof.
  assert (set_order [vol_b; vol_a; image; vol_a] [vol_b; vol_a; image]) as Hset.
  { split; [apply (bool_decide_unpack _); vm_compute; exact I|set_solver]. }
  pose proof (validate_spec (E := text) _ _ Hset) as H.
  exact (proj1 H).
Defined.

(** The body sees the locks it asked for. *)
Lemma with_context_spec_witness :
  is_ok (snd (with_context (E := text) [vol_b; vol_a] (A := gset Lock) (fun s => (s, Ok s)) {[image]})) = true ∧
  (∃ (s1 s2 : gset Lock) (rb : res text (gset Lock)), s1 = {[image]} ∪ list_to_set [vol_a; vol_b] ∧
     rb = Ok s1 ∧ s2 = s1).
Proof.
  assert (is_ok (snd (with_context (E := text) [vol_b; vol_a] (A := gset Lock)
    (fun s => (s, Ok s)) {[image]})) = true) as Hok by (vm_compute; reflexivity).
  split; [exact Hok|].
  assert (set_order [vol_a; vol_b] [vol_b; vol_a]) as Hset.
  { clear. split; [apply (bool_decide_unpack _); vm_compute; exact I|set_solver]. }
  assert (∀ l, l ∈ [vol_a; vol_b] → l ∉ owned (S := gset Lock) (E := text) {[image]}) as Hfree.
  { clear. intros l Hl. change (l ∉ ({[image]} : gset Lock)). rewrite elem_of_singleton.
    repeat (apply elem_of_cons in Hl as [->|Hl]; [vm_compute; discriminate|]). by apply elem_of_nil in Hl. }
  pose proof (with_context_spec (E := text) (S := gset Lock) [vol_a; vol_b] [vol_b; vol_a]
    (fun s => (s, Ok s)) {[image]} Hset Hfree ltac:(by intros ??? [= <- <-])) as H.
  destruct (with_context [vol_b; vol_a] (fun s => (s, Ok s)) {[image]}) as [s' r]. simpl in Hok.
  destruct H as [(g & -> & _)|[(l & err & s0 & s1 & held & _ & _ & _ & _ & ->)|H]]; [discriminate|discriminate|].
  destruct H as (s1 & s2 & rb & held & H1 & H2 & _). injection H2 as -> <-. by eauto 10.
Defined.
