(* ===== verification/Contexts.v ===== *)
(** * Threads in contexts: no deadlock between guarded operations

    What threads that run [with context(locks): body] of [storage/guarded.py] do to their locks, call by call.
    The calls are those of [with_context] itself: it is run over locks that answer from a list, return or raise, and
    that stop it at the first call without an answer.  So a thread is its locks with the answers it was given
    so far, and its next call is where [with_context] stops. *)
From Stdlib Require Import ZArith Lia Sorted.
From stdpp Require Import base gmap list sorting strings.
From S2P Require Import Prelude Guarded.

(** ** Running a context call by call *)

(** The calls a context makes: [lock.acquire()], [lock.release()], and its body *)
Inductive ctx_call := CAcquire (l : Lock) | CRelease (l : Lock) | CBody.

#[export] Instance ctx_call_eq_dec : EqDecision ctx_call.
Proof. solve_decision. Defined.

(** A call raises an exception; [Stop], which nothing catches but a bare [except], ends the run. *)
Inductive ctx_exn := Failed | Stop.

(** The answers to come (whether the call returns), the calls with their answers, and the call that has none *)
Record replay := mkReplay { answers : list bool; made : list (ctx_call * bool); pending : option ctx_call }.

Definition do_call (c : ctx_call) : M replay ctx_exn unit := fun p =>
  match pending p with
  | Some _ => (p, Raise Stop)
  | None =>
      match answers p with
      | [] => (mkReplay [] (made p) (Some c), Raise Stop)
      | b :: rest => (mkReplay rest (made p ++ [(c, b)]) None, if b then Ok () else Raise Failed)
      end
  end.

#[export] Instance replay_ops : LockOps replay ctx_exn := {
  lock_acquire l := do_call (CAcquire l);
  lock_release l := do_call (CRelease l);
  is_Exception e := match e with Failed => true | Stop => false end;
}.

(** A thread in [with context(locks): body]: [set(locks)] in the order it is iterated, and the answers so far *)
Record thread := mkThread { order : list Lock; given : list bool }.

Definition run_thread (t : thread) : replay :=
  fst (with_context (order t) (do_call CBody) (mkReplay (given t) [] None)).

(** What it has called, and what it calls next; [None] when it has left the context *)
Definition calls (t : thread) : list (ctx_call * bool) := made (run_thread t).
Definition next_call (t : thread) : option ctx_call := pending (run_thread t).

(** The locks it has acquired and not tried to release *)
Definition holds (t : thread) (l : Lock) : Prop :=
  (CAcquire l, true) ∈ calls t ∧ ∀ b, (CRelease l, b) ∉ calls t.

(** The thread waits for a lock that a thread may hold: same namespace and name, whatever the mode. *)
Definition blocked (threads : list thread) (t : thread) : Prop :=
  ∃ l u l', next_call t = Some (CAcquire l) ∧ u ∈ threads ∧ holds u l' ∧ key l' = key l.

(** ** The calls of a context *)

(** A run that has stopped makes no more calls. *)
Lemma release_stopped held errors p c :
  pending p = Some c → ∃ h r, release_loop held errors p = ((p, h), r) ∧ (held = [] ∨ r = Raise (LockError Stop)).
Proof.
  intros Hp. destruct held as [|l held]; cbn; [eexists _, _; by split; [|left]|].
  unfold do_call. rewrite Hp. eexists _, _. split; [done|by right].
Qed.

(** The releases: of the first of the locks, until the run stops at one or all are done. *)
Definition releases (held : list Lock) (p p' : replay) : Prop :=
  ∃ done rest rel, held = done ++ rest ∧ made p' = made p ++ rel ∧ rel.*1 = CRelease <$> done ∧
    match rest with [] => pending p' = None | l :: _ => pending p' = Some (CRelease l) end.

Lemma release_calls held errors p p' h r :
  pending p = None → release_loop held errors p = ((p', h), r) → releases held p p'.
Proof.
  revert errors p. induction held as [|l held IH]; intros errors p Hp; cbn.
  { intros [= <- <- <-]. exists [], [], []. by rewrite !app_nil_r. }
  unfold do_call. rewrite Hp. destruct (answers p) as [|b rest] eqn:Ea.
  { intros [= <- <- <-]. exists [], (l :: held), []. by rewrite !app_nil_r. }
  set (p1 := mkReplay rest _ None).
  assert (∀ errors, release_loop held errors p1 = (p', h, r) → releases (l :: held) p p') as Hnext.
  { intros errs E. destruct (IH errs p1 eq_refl E) as (dn & rs & rel & -> & Em & Er & Hrest).
    exists (l :: dn), rs, ((CRelease l, b) :: rel). split_and!; [done| |cbn; by rewrite Er|done].
    rewrite Em. cbn. by rewrite <- app_assoc. }
  destruct b; cbn; apply Hnext.
Qed.

Definition acquires (ls : list Lock) : list (ctx_call * bool) := (fun l => (CAcquire l, true)) <$> ls.

(** [__enter__] acquires the locks in order; it stops at one, or one raises and those before it are released. *)
Lemma enter_calls ls : ∀ p held p' h r,
  pending p = None → context_enter ls (p, held) = ((p', h), r) →
  (∃ u, r = Ok u ∧ made p' = made p ++ acquires ls ∧ pending p' = None ∧ h = reverse ls ++ held) ∨
  (∃ e pre l post, r = Raise e ∧ ls = pre ++ l :: post ∧ made p' = made p ++ acquires pre ∧ pending p' = Some (CAcquire l)) ∨
  (∃ e pre l post p1, r = Raise e ∧ ls = pre ++ l :: post ∧ made p1 = made p ++ acquires pre ++ [(CAcquire l, false)] ∧
     releases (reverse pre ++ held) p1 p').
Proof.
  unfold context_enter. induction ls as [|l ls IH]; intros p held p' h r Hp; cbn -[reverse].
  { intros [= <- <- <-]. left. exists (). by rewrite app_nil_r. }
  unfold mbind, M_bind, context_acquire. cbn -[reverse]. unfold do_call. rewrite Hp. destruct (answers p) as [|[] rest] eqn:Ea; cbn -[reverse].
  - destruct (release_stopped held [] (mkReplay [] (made p) (Some (CAcquire l))) (CAcquire l) eq_refl) as (h' & r' & E & _).
    unfold _release_quietly, try_except, _release. munfold_goal. rewrite E. intros H. right. left.
    assert (p' = mkReplay [] (made p) (Some (CAcquire l)) ∧ ∃ e, r = Raise e) as [-> [e ->]]
      by (destruct r' as [|[]]; by simplify_eq; eauto).
    exists e, [], l, ls. by rewrite app_nil_r.
  - set (p1 := mkReplay rest _ None). intros E.
    destruct (IH p1 (l :: held) p' h r eq_refl E) as [(u & -> & Em & Hn & ->)|[(e & pre & x & post & -> & -> & Em & Hn)|
      (e & pre & x & post & p2 & -> & -> & Em & Hrel)]].
    + left. exists u. split_and!; [done| |done|by rewrite reverse_cons, <- app_assoc]. rewrite Em. cbn. by rewrite <- app_assoc.
    + right. left. exists e, (l :: pre), x, post. split_and!; [done|done| |done]. rewrite Em. cbn. by rewrite <- app_assoc.
    + right. right. exists e, (l :: pre), x, post, p2. split_and!; [done|done| |by rewrite reverse_cons, <- app_assoc].
      rewrite Em. cbn. by rewrite <- app_assoc.
  - set (p1 := mkReplay rest _ None). unfold _release_quietly, try_except, _release. munfold_goal.
    destruct (release_loop held [] p1) as [[p2 h2] r2] eqn:E. intros H. right. right.
    assert (p' = p2 ∧ ∃ e, r = Raise e) as [-> [e ->]] by (destruct r2 as [|[]]; by simplify_eq; eauto).
    exists e, [], l, ls, p1. split_and!; [done|done|done|]. cbn. by eapply release_calls.
Qed.

(** The calls of a whole context: up to an acquire; up to the body; or the acquires, then an acquire
    that raises or the body, and then the releases of what was acquired, in reverse order. *)
Definition context_calls (ls : list Lock) (p : replay) : Prop :=
  (∃ pre l post, ls = pre ++ l :: post ∧ made p = acquires pre ∧ pending p = Some (CAcquire l)) ∨
  (made p = acquires ls ∧ pending p = Some CBody) ∨
  (∃ pre l post p1, ls = pre ++ l :: post ∧ made p1 = acquires pre ++ [(CAcquire l, false)] ∧ releases (reverse pre) p1 p) ∨
  (∃ b p1, made p1 = acquires ls ++ [(CBody, b)] ∧ releases (reverse ls) p1 p).

(** [__exit__] releases what is held, whatever the body did. *)
Lemma exit_state exc held (p : replay) :
  fst (fst (context_exit exc (p, held))) = fst (fst (release_loop held [] p)).
Proof.
  unfold context_exit, try_except, _release. destruct (release_loop held [] p) as [[p' h] [u|[]]]; [done| |..]; by destruct exc.
Qed.

Lemma with_context_state ls held (body : M replay ctx_exn unit) order0 p0 p1 :
  _validate (E := ctx_exn) order0 = Ok ls → context_enter ls (p0, []) = ((p1, held), Ok ()) →
  fst (with_context order0 body p0) = fst (fst (release_loop held [] (fst (body p1)))).
Proof.
  intros Ev Ee. unfold with_context. rewrite Ev, Ee. destruct (body p1) as [p2 [a|e]]; cbn [fst].
  - rewrite <- (exit_state None). by destruct (context_exit None (p2, held)) as [[p3 h] [u|e]].
  - rewrite <- (exit_state (Some e)). by destruct (context_exit (Some e) (p2, held)) as [[p3 h] [u|e']].
Qed.

Lemma thread_calls t :
  match _validate (E := ctx_exn) (order t) with
  | Raise _ => calls t = [] ∧ next_call t = None
  | Ok ls => context_calls ls (run_thread t)
  end.
Proof.
  unfold calls, next_call, run_thread. destruct (_validate (order t)) as [ls|e] eqn:Ev; [|unfold with_context; by rewrite Ev].
  set (p0 := mkReplay (given t) [] None). destruct (context_enter ls (p0, [])) as [[p1 held] r] eqn:E.
  destruct (enter_calls ls p0 [] p1 held r eq_refl E) as [([] & -> & Em & Hn & Hh)|[(e & pre & l & post & -> & -> & Em & Hn)|
    (e & pre & l & post & p2 & -> & -> & Em & Hrel)]].
  - rewrite app_nil_r in Hh. subst held. rewrite (with_context_state _ _ _ _ _ _ Ev E).
    unfold do_call. rewrite Hn. destruct (answers p1) as [|b rest]; cbn [fst].
    + destruct (release_stopped (reverse ls) [] (mkReplay [] (made p1) (Some CBody)) CBody eq_refl) as (h & r & -> & _).
      right. left. by rewrite Em.
    + set (p2 := mkReplay rest _ None). destruct (release_loop (reverse ls) [] p2) as [[p3 h3] r3] eqn:E3.
      right. right. right. exists b, p2. split; [cbn; by rewrite Em|]. exact (release_calls _ _ p2 _ _ _ eq_refl E3).
  - left. exists pre, l, post. unfold with_context. by rewrite Ev, E.
  - right. right. left. rewrite app_nil_r in Hrel. exists pre, l, post, p2. unfold with_context. by rewrite Ev, E.
Qed.

(** ** What a thread waits for and what it holds *)

Lemma acquires_elem l b ls : (CAcquire l, b) ∈ acquires ls → l ∈ ls.
Proof. unfold acquires. intros (x & [= -> ->] & Hx)%list_elem_of_fmap. done. Qed.

Lemma releases_pending held p p' l : releases held p p' → pending p' ≠ Some (CAcquire l).
Proof. intros (dn & [|x rest] & rel & _ & _ & _ & ->); congruence. Qed.

(** The lock a thread asks for comes after all the locks it holds. *)
Lemma asks_in_order t n l : next_call t = Some (CAcquire n) → holds t l → key_ltb (key l) (key n) = true.
Proof.
  intros Hn [Hl _]. pose proof (thread_calls t) as Hc.
  destruct (validate_cases (E := ctx_exn) (order t)) as [[Hv Hs]|(g & a & b & rest & k & Hv & _)];
    rewrite Hv in Hc; [|destruct Hc; congruence].
  unfold calls, next_call in *. destruct Hc as [(pre & x & post & E & Em & Hp)|[[_ Hp]|
    [(pre & x & post & p1 & _ & _ & Hr)|(b & p1 & _ & Hr)]]].
  - rewrite Hp in Hn. injection Hn as ->. rewrite Em in Hl. rewrite E in Hs.
    apply (strictly_ordered_app pre (n :: post)); [done|by eapply acquires_elem|by left].
  - congruence.
  - by destruct (releases_pending _ _ _ n Hr).
  - by destruct (releases_pending _ _ _ n Hr).
Qed.

(** A thread that has left has tried to release every lock it acquired. *)
Lemma releases_all held p p' l :
  releases held p p' → pending p' = None → l ∈ held → ∃ b, (CRelease l, b) ∈ made p'.
Proof.
  intros (dn & [|x rest] & rel & -> & Em & Er & Hp) Hn Hl; [|congruence]. rewrite app_nil_r in Hl.
  assert (CRelease l ∈ rel.*1) as ([c b] & Hc & Hin)%list_elem_of_fmap by (rewrite Er; by apply list_elem_of_fmap_2).
  cbn in Hc. subst c. exists b. rewrite Em. apply elem_of_app. by right.
Qed.

Lemma releases_acquired held p p' l :
  releases held p p' → (CAcquire l, true) ∈ made p' → (CAcquire l, true) ∈ made p.
Proof.
  intros (dn & rest & rel & _ & -> & Er & _) [H|H]%elem_of_app; [done|].
  assert (CAcquire l ∈ rel.*1) as Hin by (apply list_elem_of_fmap; by eexists (_, _)).
  rewrite Er in Hin. by apply list_elem_of_fmap in Hin as (? & ? & _).
Qed.

Lemma left_holds_nothing t l : next_call t = None → ¬ holds t l.
Proof.
  intros Hn [Hl Hnot]. pose proof (thread_calls t) as Hc.
  destruct (_validate (order t)) as [ls|e]; [|destruct Hc as [Hc _]; rewrite Hc in Hl; by apply elem_of_nil in Hl].
  unfold calls, next_call in *.
  assert (∀ acq p1 c b, releases (reverse acq) p1 (run_thread t) → made p1 = acquires acq ++ [(c, b)] →
    (c, b) ≠ (CAcquire l, true) → False) as Hcase.
  { intros acq p1 c b Hr Em Hcb. apply (releases_acquired _ _ _ _ Hr) in Hl. rewrite Em in Hl.
    apply elem_of_app in Hl as [Hl%acquires_elem|Hl%list_elem_of_singleton]; [|congruence].
    destruct (releases_all _ _ _ l Hr Hn) as [b' Hb']; [by apply elem_of_reverse|]. by destruct (Hnot b'). }
  destruct Hc as [(pre & x & post & _ & _ & Hp)|[[_ Hp]|[(pre & x & post & p1 & _ & Em & Hr)|(b & p1 & Em & Hr)]]];
    [congruence|congruence|..]; by apply (Hcase _ _ _ _ Hr Em).
Qed.

(** ** The number of calls *)

Lemma releases_length held p p' c :
  releases held p p' → pending p' = Some c → (length (made p') < length (made p) + length held)%nat.
Proof.
  intros (dn & [|x rest] & rel & -> & -> & Er & Hp) Hc; [congruence|].
  apply (f_equal length) in Er. rewrite !length_fmap in Er. rewrite !length_app, Er. cbn. lia.
Qed.

Lemma inside_calls t : next_call t ≠ None → (length (calls t) ≤ 2 * length (order t))%nat.
Proof.
  intros Hn. pose proof (thread_calls t) as Hc.
  destruct (validate_cases (E := ctx_exn) (order t)) as [[Hv _]|(g & a & b & rest & k & Hv & _)];
    rewrite Hv in Hc; [|by destruct Hc].
  pose proof (Permutation_length (py_sorted_Permutation lock_ltb (order t))) as Hlen.
  unfold calls, next_call in *. destruct (pending (run_thread t)) as [c|] eqn:Hp; [clear Hn|done].
  destruct Hc as [(pre & x & post & E & Em & _)|[[Em _]|[(pre & x & post & p1 & E & Em & Hr)|(b & p1 & Em & Hr)]]];
    try (apply (releases_length _ _ _ c) in Hr; [|done]; rewrite length_reverse in Hr);
    apply (f_equal length) in Em; try apply (f_equal length) in E;
    unfold acquires in *; rewrite ?length_app, ?length_fmap in *; cbn in *; lia.
Qed.

(** Every answer goes to a call. *)
Definition answered (bs : list bool) (p : replay) : Prop :=
  (made p).*2 ++ answers p = bs ∧ (pending p ≠ None → answers p = []).

Lemma do_call_answered bs c p : answered bs p → answered bs (fst (do_call c p)).
Proof.
  intros [H1 H2]. unfold do_call. destruct (pending p) eqn:Hp; [split; cbn; rewrite ?Hp; auto|].
  destruct (answers p) as [|b rest] eqn:Ea; [done|]. split; [|done].
  cbn. by rewrite fmap_app, <- app_assoc.
Qed.

Lemma release_answered bs held : ∀ errors p,
  answered bs p → answered bs (fst (fst (release_loop held errors p))).
Proof.
  induction held as [|l held IH]; intros errors p Hp; cbn; [done|].
  pose proof (do_call_answered bs (CRelease l) p Hp) as H. destruct (do_call (CRelease l) p) as [p1 [u|[]]]; cbn in *; by auto.
Qed.

Lemma enter_answered bs ls : ∀ p held,
  answered bs p → answered bs (fst (fst (context_enter ls (p, held)))).
Proof.
  unfold context_enter. induction ls as [|l ls IH]; intros p held Hp; cbn; [done|].
  unfold mbind, M_bind, context_acquire. cbn.
  pose proof (do_call_answered bs (CAcquire l) p Hp) as H. destruct (do_call (CAcquire l) p) as [p1 [u|e]]; cbn in *; [by apply IH|].
  unfold _release_quietly, try_except, _release. munfold_goal. pose proof (release_answered bs held [] p1 H) as Hr.
  by destruct (release_loop held [] p1) as [[p2 h] [|[]]].
Qed.

Lemma thread_answered t : answered (given t) (run_thread t).
Proof.
  unfold run_thread. set (p0 := mkReplay (given t) [] None). assert (answered (given t) p0) as H0 by done.
  destruct (_validate (E := ctx_exn) (order t)) as [ls|e] eqn:Ev; [|unfold with_context; by rewrite Ev].
  pose proof (enter_answered (given t) ls p0 [] H0) as H1.
  destruct (context_enter ls (p0, [])) as [[p1 held] [[]|e]] eqn:E; [|unfold with_context; by rewrite Ev, E].
  rewrite (with_context_state _ _ _ _ _ _ Ev E). by apply release_answered, do_call_answered.
Qed.

(** ** No deadlock *)

(** A thread whose key is not smaller than any other's. *)
Lemma max_key {A} (f : A → text * text) (ts : list A) :
  ts ≠ [] → ∃ t, t ∈ ts ∧ ∀ u, u ∈ ts → key_ltb (f t) (f u) = false.
Proof.
  induction ts as [|x ts IH]; [done|]. intros _. destruct ts as [|y ts].
  { exists x. split; [by left|]. intros u ->%list_elem_of_singleton. apply key_ltb_irrefl. }
  destruct IH as (t & Ht & Hmax); [done|].
  destruct (key_ltb (f t) (f x)) eqn:E.
  - exists x. split; [by left|]. intros u [->|Hu]%elem_of_cons; [apply key_ltb_irrefl|].
    apply key_ltb_neg_trans with (f t); [by apply key_ltb_asym|by apply Hmax].
  - exists t. split; [by right|]. intros u [->|Hu]%elem_of_cons; auto.
Qed.

(** The key a thread waits for *)
Definition next_key (t : thread) : text * text :=
  match next_call t with Some (CAcquire l) => key l | _ => ([], []) end.

#[export] Instance waits_dec t : Decision (∃ l, next_call t = Some (CAcquire l)).
Proof. destruct (next_call t) as [[l| |]|]; [left; by exists l|right; by intros [? ?]..]. Defined.

(** C7: guarded operations do not deadlock on their locks.  Take any threads, each anywhere in its
    [with context(locks): body], after any answers of its locks and of its body so far.  When some thread is inside its context,
    some thread inside is not blocked: its next call is not an acquire, or no
    thread holds a lock of that namespace and name.  A thread inside has made one call per answer, at most two per
    lock, so an answer to each call takes it out; and when it has left it holds no lock.  The bodies enter no
    context, and a lock whose release raised counts as released. *)
Theorem contexts_deadlock_free (threads : list thread) :
  ((∃ t, t ∈ threads ∧ next_call t ≠ None) →
   ∃ t, t ∈ threads ∧ next_call t ≠ None ∧ ¬ blocked threads t) ∧
  ∀ t, (next_call t ≠ None → (calls t).*2 = given t ∧ (length (given t) ≤ 2 * length (order t))%nat) ∧
       (next_call t = None → ∀ l, ¬ holds t l).
Proof.
  split; [|intros t; split; [|intros Hn l; by apply left_holds_nothing]].
  2:{ intros Hn. destruct (thread_answered t) as [Ha Hp]. unfold next_call, calls in *. rewrite (Hp Hn), app_nil_r in Ha.
      split; [done|]. pose proof (inside_calls t Hn) as Hl. unfold calls in Hl. by rewrite <- Ha, length_fmap. }
  intros (t0 & Ht0 & Hin0).
  set (inside := filter (fun t => next_call t ≠ None) threads).
  destruct (max_key next_key inside) as (t & Ht & Hmax).
  { assert (t0 ∈ inside) as H by (by apply list_elem_of_filter). intros E. rewrite E in H. by apply elem_of_nil in H. }
  destruct (decide (Exists (fun u => ¬ ∃ l, next_call u = Some (CAcquire l)) inside)) as [Hex|Hall].
  { apply Exists_exists in Hex as (u & [Hu1 Hu2]%list_elem_of_filter & Hnot). exists u. split_and!; [done..|].
    intros (l & _ & _ & El & _). by eauto. }
  pose proof Ht as [Ht1 Ht2]%list_elem_of_filter. exists t. split_and!; [done..|].
  intros (l & u & l' & El & Hu & Hh & Hk).
  destruct (decide (next_call u = None)) as [Eu|Eu]; [by destruct (left_holds_nothing u l' Eu)|].
  assert (u ∈ inside) as Hui by (by apply list_elem_of_filter).
  assert (∃ n, next_call u = Some (CAcquire n)) as [n En].
  { apply dec_stable. intros Hn. apply Hall, Exists_exists. by eauto. }
  pose proof (asks_in_order u n l' En Hh) as Hlt. pose proof (Hmax u Hui) as Hm.
  unfold next_key in Hm. rewrite El, En in Hm. congruence.
Qed.

(** A thread that holds the image and waits for volume a, held by one that waits for volume b *)
Lemma contexts_deadlock_free_witness :
  let threads := [mkThread [vol_b; image; vol_a] [true]; mkThread [vol_b; vol_a] [true]] in
  next_call <$> threads = [Some (CAcquire vol_a); Some (CAcquire vol_b)] ∧
  ∃ t, t ∈ threads ∧ next_call t ≠ None ∧ ¬ blocked threads t.
Proof.
  intros threads. split; [vm_compute; reflexivity|]. apply (proj1 (contexts_deadlock_free threads)).
  eexists. split; [by left|]. vm_compute. discriminate.
Defined.
