(* ===== verification/ResourceManager.v ===== *)
(** * Resource manager: [storage/resourceManager.py]

    Named resources in namespaces, locked shared or exclusive by requests.  A
    request is an object shared by the queue of its resource and by the client
    that may cancel it, so requests live in a store and queues hold their ids.
    Each manager call is one step under the namespace lock; the client's
    [cancel], which takes only the request's own lock, may also happen inside a
    release, between the check and the grant of a queued request.  Callbacks run
    after the locks are released: they are recorded in the request.

    Factories and resource objects are parameters (class [Factory]). *)
From Stdlib Require Import ZArith Lia.
From stdpp Require Import base gmap list strings relations.
From S2P Require Import Prelude.

(** ** Names and lock types *)

Definition SHARED : text := str "shared".
Definition EXCLUSIVE : text := str "exclusive".

Definition STATUS_FREE : text := str "free".
Definition STATUS_SHARED : text := str "shared".
Definition STATUS_LOCKED : text := str "locked".

Inductive error (E : Type) :=
| NamespaceRegistered | InvalidNamespace | InvalidResourceName | InvalidLockType
| ValueError | KeyError | TypeError
| RequestAlreadyProcessedError | RequestTimedOutError | ResourceAcqusitionFailed
| FactoryError (e : E).
Arguments NamespaceRegistered {E}. Arguments InvalidNamespace {E}.
Arguments InvalidResourceName {E}. Arguments InvalidLockType {E}.
Arguments ValueError {E}. Arguments KeyError {E}. Arguments TypeError {E}.
Arguments RequestAlreadyProcessedError {E}. Arguments RequestTimedOutError {E}.
Arguments ResourceAcqusitionFailed {E}. Arguments FactoryError {E} e.

Definition _statusFromType {E} (locktype : text) : res (error E) text :=
  if decide (locktype = SHARED) then Ok STATUS_SHARED
  else if decide (locktype = EXCLUSIVE) then Ok STATUS_LOCKED
  else Raise InvalidLockType.

(** A match of [^[..]+$] where the class does not contain the newline: the
    [$] also matches before a final newline. *)
Definition re_all (p : Z → bool) (s : text) : bool :=
  let body := match last s with
              | Some c => if c =? 10 then take (length s - 1) s else s
              | None => s
              end in
  negb (bool_decide (body = [])) && forallb p body.

Definition is_word_ascii (c : Z) : bool :=
  is_digit c || ((65 <=? c) && (c <=? 90)) || ((97 <=? c) && (c <=? 122)) || (c =? 95).

(** [_resourceNameValidator]: [^[^\s.]+$] *)
Definition _resourceNameValidator (name : text) : bool :=
  re_all (fun c => negb (is_space_u c || (c =? 46))) name.

(** [_namespaceValidator]: [^[\w\d_-]+$]; [alnum] tells the letters and
    digits beyond ASCII. *)
Definition _namespaceValidator (alnum : Z → bool) (namespace : text) : bool :=
  re_all (fun c => is_word_ascii c || (c =? 45) || ((128 <=? c) && alnum c)) namespace.

(** [getNamespace( *args )] *)
Fixpoint getNamespace (args : list text) : text :=
  match args with
  | [] => []
  | [a] => a
  | a :: args' => a ++ str "_" ++ getNamespace args'
  end.

(** ** Factories and objects *)

Class Factory (F Obj W E : Type) := {
  resourceExists : F → text → M W E bool;
  createResource : F → text → text → M W E (option Obj);
  (** the method of the object, when it has one *)
  switchLockType : Obj → option (text → M W E unit);
  close : Obj → option (M W E unit);
}.

(** What the callback of a request is called with: [None], or a ResourceRef. *)
Record ResourceRef (Obj : Type) := mkRef {
  ref_namespace : text;
  ref_name : text;
  wrappedObject : option Obj;
}.
Arguments mkRef {Obj} _ _ _.
Arguments ref_namespace {Obj} _.
Arguments ref_name {Obj} _.
Arguments wrappedObject {Obj} _.

Section Manager.
  Context {F Obj W E : Type} `{!Factory F Obj W E}.

(** ** Requests *)

Record Request := mkRequest {
  _namespace : text;
  _name : text;
  _lockType : text;
  _isActive : bool;
  _isCanceled : bool;
  _doneEvent : bool;
  _calls : list (option (ResourceRef Obj));
}.

Definition Request_init (namespace name lockType : text) : Request :=
  mkRequest namespace name lockType true false false [].

Definition cancel (rq : Request) : res (error E) Request :=
  if negb (_isActive rq) then Raise RequestAlreadyProcessedError
  else Ok (mkRequest (_namespace rq) (_name rq) (_lockType rq) false true true (_calls rq ++ [None])).

Definition grant (rq : Request) : res (error E) Request :=
  if negb (_isActive rq) then Raise RequestAlreadyProcessedError
  else Ok (mkRequest (_namespace rq) (_name rq) (_lockType rq) false (_isCanceled rq) true (_calls rq)).

(** [emit]: the call of the callback is recorded with its argument.  The source makes the call once the manager's locks are
    released; other threads may run between the grant and the call, which [_calls] does not show.  What the callback does is not
    part of the manager, nor can a factory call the manager back. *)
Definition emit (obj : option Obj) (rq : Request) : Request :=
  mkRequest (_namespace rq) (_name rq) (_lockType rq) (_isActive rq) (_isCanceled rq) (_doneEvent rq)
    (_calls rq ++ [Some (mkRef (_namespace rq) (_name rq) obj)]).

Definition canceled (rq : Request) : bool := _isCanceled rq.
Definition granted (rq : Request) : bool := negb (_isCanceled rq) && _doneEvent rq.

Definition _status (rq : Request) : text :=
  if _isCanceled rq then str "canceled"
  else if _doneEvent rq then str "granted" else str "waiting".

(** ** Resources and namespaces *)

(** [queue] has the oldest request first: the source inserts at 0 and pops at
    the end. *)
Record ResourceInfo := mkInfo {
  queue : list nat;
  activeUsers : Z;
  currentLock : text;
  realObj : option Obj;
}.

Record Namespace := mkNamespace {
  resources : gmap text ResourceInfo;
  factory : F;
}.

Record state := mkState {
  _namespaces : gmap text Namespace;
  requests : gmap nat Request;
  world : W;
}.

Abbreviation R A := (res (error E) A).

Definition registerNamespace (alnum : Z → bool) (namespace : text) (f : F) (s : state) : state * R unit :=
  if negb (_namespaceValidator alnum namespace) then (s, Raise InvalidNamespace)
  else match _namespaces s !! namespace with
       | Some _ => (s, Raise NamespaceRegistered)
       | None => (mkState (<[namespace := mkNamespace ∅ f]> (_namespaces s)) (requests s) (world s), Ok ())
       end.

Definition getResourceStatus (namespace name : text) (s : state) : state * R text :=
  if negb (_resourceNameValidator name) then (s, Raise InvalidResourceName)
  else match _namespaces s !! namespace with
       | None => (s, Raise ValueError)
       | Some n =>
           let '(w, ex) := resourceExists (factory n) name (world s) in
           let s' := mkState (_namespaces s) (requests s) w in
           match ex with
           | Raise e => (s', Raise (FactoryError e))
           | Ok false => (s', Raise KeyError)
           | Ok true =>
               match resources n !! name with
               | None => (s', Ok STATUS_FREE)
               | Some r => (s', _statusFromType (currentLock r))
               end
           end
       end.

(** [_freeResource]: errors of [close] are logged *)
Definition _freeResource (r : ResourceInfo) (w : W) : W :=
  match realObj r with
  | None => w
  | Some obj => match close obj with None => w | Some c => fst (c w) end
  end.

(** Release the object and create it again under the lock type of [r]. *)
Definition recreate (f : F) (name : text) (r : ResourceInfo) (w : W) : W * (ResourceInfo * R unit) :=
  let w := _freeResource r w in
  match createResource f name (currentLock r) w with
  | (w', Ok obj) => (w', (mkInfo (queue r) (activeUsers r) (currentLock r) obj, Ok ()))
  | (w', Raise e) => (w', (r, Raise (FactoryError e)))
  end.

Definition _switchLockType (f : F) (name : text) (r : ResourceInfo) (newLockType : text) (w : W)
    : W * (ResourceInfo * R unit) :=
  let switchLock := negb (bool_decide (currentLock r = newLockType)) in
  let r := mkInfo (queue r) (activeUsers r) newLockType (realObj r) in
  match realObj r with
  | None => (w, (r, Ok ()))
  | Some obj =>
      if switchLock then
        match switchLockType obj with
        | Some switch =>
            match switch newLockType w with
            | (w', Ok _) => (w', (r, Ok ()))
            | (w', Raise _) => recreate f name r w'
            end
        | None => recreate f name r w
        end
      else (w, (r, Ok ()))
  end.

(** ** Registering a request *)

Definition set_resource (namespace name : text) (n : Namespace) (r : ResourceInfo) (s : state) : state :=
  mkState (<[namespace := mkNamespace (<[name := r]> (resources n)) (factory n)]> (_namespaces s))
    (requests s) (world s).

Definition set_request (rid : nat) (rq : Request) (s : state) : state :=
  mkState (_namespaces s) (<[rid := rq]> (requests s)) (world s).

Definition set_world (w : W) (s : state) : state := mkState (_namespaces s) (requests s) w.

(** [request.grant()], then the deferred [request.emit]. *)
Definition grant_emit (obj : option Obj) (rq : Request) : R Request :=
  match grant rq with Ok rq' => Ok (emit obj rq') | Raise e => Raise e end.

(** [registerResource]; [rid] is the id of the new request.  The result is the
    list of the requests granted. *)
Definition registerResource (rid : nat) (namespace name lockType : text) (s : state)
    : state * R (list nat) :=
  if negb (_resourceNameValidator name) then (s, Raise InvalidResourceName)
  else if negb (bool_decide (lockType = SHARED) || bool_decide (lockType = EXCLUSIVE))
  then (s, Raise InvalidLockType)
  else
    let rq := Request_init namespace name lockType in
    match _namespaces s !! namespace with
    | None => (s, Raise ValueError)
    | Some n =>
        match resources n !! name with
        | Some r =>
            if bool_decide (queue r = []) && bool_decide (currentLock r = SHARED)
               && bool_decide (_lockType rq = SHARED)
            then
              let r := mkInfo (queue r) (activeUsers r + 1) (currentLock r) (realObj r) in
              let s := set_resource namespace name n r s in
              match grant_emit (realObj r) rq with
              | Ok rq' => (set_request rid rq' s, Ok [rid])
              | Raise e => (s, Raise e)
              end
            else
              let r := mkInfo (queue r ++ [rid]) (activeUsers r) (currentLock r) (realObj r) in
              (set_request rid rq (set_resource namespace name n r s), Ok [])
        | None =>
            match resourceExists (factory n) name (world s) with
            | (w, Raise e) => (set_world w s, Raise (FactoryError e))
            | (w, Ok false) => (set_world w s, Raise KeyError)
            | (w, Ok true) =>
                match createResource (factory n) name lockType w with
                | (w', Raise _) =>
                    match cancel rq with
                    | Ok rq' => (set_request rid rq' (set_world w' s), Ok [])
                    | Raise e => (set_world w' s, Raise e)
                    end
                | (w', Ok obj) =>
                    let r := mkInfo [] 1 (_lockType rq) obj in
                    let s := set_resource namespace name n r (set_world w' s) in
                    match grant_emit (realObj r) rq with
                    | Ok rq' => (set_request rid rq' s, Ok [rid])
                    | Raise e => (s, Raise e)
                    end
                end
            end
        end
    end.

(** ** Releasing a resource *)

(** What the loops of [releaseResource] work on: the resource, the requests, the
    world, and the requests whose [emit] is deferred, with the object. *)
Record releasing := mkReleasing {
  rl_resource : ResourceInfo;
  rl_requests : gmap nat Request;
  rl_world : W;
  rl_deferred : list (nat * option Obj);
}.

Definition no_request : Request := mkRequest [] [] [] false true true [].

(** The request object behind an id of a queue. *)
Definition request_of (rqs : gmap nat Request) (rid : nat) : Request := default no_request (rqs !! rid).

Definition set_queue (q : list nat) (r : ResourceInfo) : ResourceInfo :=
  mkInfo q (activeUsers r) (currentLock r) (realObj r).

(** [nextRequest.grant()], deferring its [emit], and [activeUsers += 1] *)
Definition grant_next (rid : nat) (rq : Request) (r : ResourceInfo) (l : releasing) : releasing :=
  mkReleasing (mkInfo (queue r) (activeUsers r + 1) (currentLock r) (realObj r))
    (<[rid := rq]> (rl_requests l)) (rl_world l) (rl_deferred l ++ [(rid, realObj r)]).

(** The first loop: grant the oldest request that is not canceled and that the
    resource can be switched to.  [None] when the queue ran out. *)
Fixpoint grant_first (f : F) (name : text) (q : list nat) (l : releasing)
    : releasing * R (option unit) :=
  let r := set_queue q (rl_resource l) in
  match q with
  | [] => (mkReleasing r (rl_requests l) (rl_world l) (rl_deferred l), Ok None)
  | rid :: q' =>
      let r := set_queue q' r in
      let rq := request_of (rl_requests l) rid in
      if canceled rq
      then grant_first f name q' (mkReleasing r (rl_requests l) (rl_world l) (rl_deferred l))
      else
        match _switchLockType f name r (_lockType rq) (rl_world l) with
        | (w, (r, Raise _)) =>
            match cancel rq with
            | Ok rq' => grant_first f name q' (mkReleasing r (<[rid := rq']> (rl_requests l)) w (rl_deferred l))
            | Raise e => (mkReleasing r (rl_requests l) w (rl_deferred l), Raise e)
            end
        | (w, (r, Ok _)) =>
            let l := mkReleasing r (rl_requests l) w (rl_deferred l) in
            match grant rq with
            | Ok rq' => (grant_next rid rq' r l, Ok (Some ()))
            | Raise e => (l, Raise e)
            end
        end
  end.

(** A client's [cancel] of its request; a processed request refuses it. *)
Definition client_cancel (rid : nat) (rqs : gmap nat Request) : gmap nat Request :=
  match rqs !! rid with
  | Some rq => match cancel rq with Ok rq' => <[rid := rq']> rqs | Raise _ => rqs end
  | None => rqs
  end.

(** The second loop: grant the shared requests that follow.  The requests in
    [raced] are canceled by their clients between the check and the grant. *)
Fixpoint grant_shared (raced : list nat) (q : list nat) (l : releasing) : releasing :=
  let r := set_queue q (rl_resource l) in
  match q with
  | [] => mkReleasing r (rl_requests l) (rl_world l) (rl_deferred l)
  | rid :: q' =>
      let rq := request_of (rl_requests l) rid in
      if canceled rq
      then grant_shared raced q' (mkReleasing r (rl_requests l) (rl_world l) (rl_deferred l))
      else if bool_decide (_lockType rq = EXCLUSIVE)
      then mkReleasing r (rl_requests l) (rl_world l) (rl_deferred l)
      else
        let rqs := if bool_decide (rid ∈ raced) then client_cancel rid (rl_requests l) else rl_requests l in
        let l := mkReleasing (set_queue q' r) rqs (rl_world l) (rl_deferred l) in
        match grant (request_of rqs rid) with
        | Ok rq' => grant_shared raced q' (grant_next rid rq' (rl_resource l) l)
        | Raise _ => grant_shared raced q' l
        end
  end.

(** The deferred calls of [emit], run when the locks are released. *)
Definition run_deferred (d : list (nat * option Obj)) (rqs : gmap nat Request) : gmap nat Request :=
  foldl (fun rqs '(rid, obj) => alter (emit obj) rid rqs) rqs d.

(** Put the resource back and run the deferred calls. *)
Definition finish_release (namespace name : text) (n : Namespace) (l : releasing) (s : state) : state :=
  mkState
    (<[namespace := mkNamespace (<[name := rl_resource l]> (resources n)) (factory n)]> (_namespaces s))
    (run_deferred (rl_deferred l) (rl_requests l)) (rl_world l).

(** [releaseResource]; the result is the list of the requests granted. *)
Definition releaseResource (raced : list nat) (namespace name : text) (s : state) : state * R (list nat) :=
  match _namespaces s !! namespace with
  | None => (s, Raise ValueError)
  | Some n =>
      match resources n !! name with
      | None => (s, Raise ValueError)
      | Some r =>
          let r := mkInfo (queue r) (activeUsers r - 1) (currentLock r) (realObj r) in
          let l := mkReleasing r (requests s) (world s) [] in
          if 0 <? activeUsers r then (finish_release namespace name n l s, Ok [])
          else
            match grant_first (factory n) name (queue r) l with
            | (l, Raise e) => (finish_release namespace name n l s, Raise e)
            | (l, Ok None) =>
                let w := _freeResource (rl_resource l) (rl_world l) in
                (mkState
                   (<[namespace := mkNamespace (delete name (resources n)) (factory n)]> (_namespaces s))
                   (rl_requests l) w, Ok [])
            | (l, Ok (Some _)) =>
                let l := if bool_decide (currentLock (rl_resource l) = EXCLUSIVE) then l
                         else grant_shared raced (queue (rl_resource l)) l in
                (finish_release namespace name n l s, Ok (fst <$> rl_deferred l))
            end
      end
  end.

(** ** Acquiring synchronously *)

(** [acquireResource] from the return of [request.wait(timeout)] on: the check of
    [granted], the attempt to cancel, the second check.  Other threads may run
    between the first check and the rest. *)
Definition acquire_check (rid : nat) (s : state) : option (R (list (option (ResourceRef Obj)))) :=
  let rq := request_of (requests s) rid in
  if granted rq then Some (Ok (_calls rq)) else None.

Definition acquire_cancel (rid : nat) (s : state) : state * R (list (option (ResourceRef Obj))) :=
  let rq := request_of (requests s) rid in
  match cancel rq with
  | Ok rq' => (set_request rid rq' s, Raise RequestTimedOutError)
  | Raise _ => if canceled rq then (s, Raise ResourceAcqusitionFailed) else (s, Ok (_calls rq))
  end.
End Manager.

(** ** The factory that does nothing *)

#[export] Instance SimpleResourceFactory : Factory unit unit unit unit := {
  resourceExists _ _ := mret true;
  createResource _ _ _ := mret None;
  switchLockType _ := None;
  close _ := None;
}.
