(* ===== verification/ResourceFacts.v ===== *)
(** * Resource manager: invariant and its preservation

    The manager's state is extended with the requests that hold each resource:
    granted, and not yet released through their reference.  The invariant
    relates holders, queues and requests; every call of the manager preserves
    it. *)
From Stdlib Require Import ZArith Lia.
From stdpp Require Import base gmap list strings relations.
From S2P Require Import Prelude ResourceManager.

Section Facts.
  Context {F Obj W E : Type} `{!Factory F Obj W E}.
  Implicit Types (rqs : gmap nat (Request (Obj := Obj))) (s : state (F := F) (Obj := Obj) (W := W)).

Abbreviation Req := (Request (Obj := Obj)).
Abbreviation State := (state (F := F) (Obj := Obj) (W := W)).
Abbreviation Rel := (releasing (Obj := Obj) (W := W)).

(** ** The life of a request *)

Definition canceled_rq (ns name lt : text) : Req := mkRequest ns name lt false true true [None].
Definition granted_rq (ns name lt : text) : Req := mkRequest ns name lt false false true [].
Definition served_rq (ns name lt : text) (o : option Obj) : Req :=
  mkRequest ns name lt false false true [Some (mkRef ns name o)].

Definition lock_type_ok (lt : text) : Prop := lt = SHARED ∨ lt = EXCLUSIVE.

(** A request in the queue of a resource: still waiting, or canceled. *)
Definition queued rqs (ns name : text) (rid : nat) : Prop :=
  ∃ lt, lock_type_ok lt ∧
    (rqs !! rid = Some (Request_init ns name lt) ∨ rqs !! rid = Some (canceled_rq ns name lt)).

Definition canceled_at rqs (ns name : text) (rid : nat) : Prop :=
  ∃ lt, lock_type_ok lt ∧ rqs !! rid = Some (canceled_rq ns name lt).

Lemma cancel_waiting ns name lt :
  cancel (E := E) (Request_init (Obj := Obj) ns name lt) = Ok (canceled_rq ns name lt).
Proof. done. Qed.

Lemma grant_waiting ns name lt :
  grant (E := E) (Request_init (Obj := Obj) ns name lt) = Ok (granted_rq ns name lt).
Proof. done. Qed.

Lemma request_of_Some rqs rid (rq : Req) : rqs !! rid = Some rq → request_of rqs rid = rq.
Proof. intros H. unfold request_of. by rewrite H. Qed.

Lemma queued_weaken rqs rqs' ns name q :
  (∀ rid, rid ∈ q → rqs' !! rid = rqs !! rid) → Forall (queued rqs ns name) q → Forall (queued rqs' ns name) q.
Proof.
  intros Heq Hq. apply Forall_forall. intros rid Hin. rewrite Forall_forall in Hq.
  destruct (Hq rid Hin) as (lt & Hlt & H). exists lt. by rewrite Heq.
Qed.

(** ** The loops of a release *)

Lemma switch_fields (f : F) name (r : ResourceInfo (Obj := Obj)) lt w w' r' res :
  _switchLockType (E := E) f name r lt w = (w', (r', res)) →
  queue r' = queue r ∧ activeUsers r' = activeUsers r ∧ currentLock r' = lt.
Proof.
  unfold _switchLockType, recreate. simpl. intros H.
  repeat case_match; simplify_eq/=; done.
Qed.

(** What the first loop does with the queue [q]: it cancels or drops canceled
    requests and grants at most one. *)
Definition first_result (ns name : text) (q : list nat) (l l' : Rel) (r : option unit) : Prop :=
  (∀ rid, rid ∉ q → rl_requests l' !! rid = rl_requests l !! rid) ∧
  match r with
  | None => Forall (canceled_at (rl_requests l') ns name) q ∧ rl_deferred l' = rl_deferred l
  | Some _ => ∃ pre rid q' lt o,
      q = pre ++ rid :: q' ∧ queue (rl_resource l') = q' ∧
      Forall (canceled_at (rl_requests l') ns name) pre ∧
      lock_type_ok lt ∧ rl_requests l !! rid = Some (Request_init ns name lt) ∧
      rl_requests l' !! rid = Some (granted_rq ns name lt) ∧
      (∀ x, x ∈ q' → rl_requests l' !! x = rl_requests l !! x) ∧
      currentLock (rl_resource l') = lt ∧
      activeUsers (rl_resource l') = activeUsers (rl_resource l) + 1 ∧
      rl_deferred l' = rl_deferred l ++ [(rid, o)]
  end.

(** The first loop never raises. *)
Lemma grant_first_spec (f : F) ns name q (l : Rel) :
  NoDup q → Forall (queued (rl_requests l) ns name) q →
  ∃ l' r, grant_first (E := E) f name q l = (l', Ok r) ∧ first_result ns name q l l' r.
Proof.
  revert l. induction q as [|rid q IH]; intros l Hnd Hq; simpl.
  { eexists _, None. split; [done|]. by repeat split. }
  apply NoDup_cons in Hnd as [Hni Hnd]. apply Forall_cons in Hq as [(lt & Hlt & Hrid) Hq].
  assert (∀ l1, (∀ x, x ≠ rid → rl_requests l1 !! x = rl_requests l !! x) →
    rl_requests l1 !! rid = Some (canceled_rq ns name lt) →
    rl_deferred l1 = rl_deferred l → activeUsers (rl_resource l1) = activeUsers (rl_resource l) →
    ∃ l' r, grant_first (E := E) f name q l1 = (l', Ok r) ∧ first_result ns name (rid :: q) l l' r) as Hskip.
  { intros l1 Hsame Hc Hd Ha.
    assert (∀ x, x ∈ q → rl_requests l1 !! x = rl_requests l !! x) as Hq1.
    { intros x Hx. apply Hsame. by intros ->. }
    destruct (IH l1 Hnd (queued_weaken _ _ _ _ _ Hq1 Hq)) as (l' & r & Hgf & [Hout Hr]).
    exists l', r. split; [done|].
    assert (canceled_at (rl_requests l') ns name rid) as Hcr by (exists lt; by rewrite Hout).
    split.
    { intros x [Hx1 Hx2]%not_elem_of_cons. rewrite Hout by done. by apply Hsame. }
    destruct r as [u|].
    - destruct Hr as (pre & rid0 & q' & lt0 & o & -> & H1 & H2 & H3 & H4 & H5 & H6 & H7 & H8 & H9).
      exists (rid :: pre), rid0, q', lt0, o. rewrite <- Hd, <- Ha, <- Hq1 by set_solver.
      split_and!; try done; [by constructor|]. intros x Hx. rewrite H6 by done. apply Hq1. set_solver.
    - destruct Hr as [H1 H2]. rewrite <- Hd. split; [by constructor|done]. }
  destruct Hrid as [Hrid|Hrid]; rewrite (request_of_Some _ _ _ Hrid); simpl.
  2:{ by apply Hskip. }
  destruct (_switchLockType _ _ _ _ _) as [w [r [[]|e]]] eqn:Hsw;
    apply switch_fields in Hsw as (Hq1 & Ha & Hc).
  - eexists _, (Some ()). split; [done|]. unfold first_result. simpl in *. split.
    { intros x Hx%not_elem_of_cons. rewrite lookup_insert_ne; [done|]. symmetry. apply Hx. }
    exists [], rid, q, lt, (realObj r). rewrite lookup_insert_eq, Ha.
    split_and!; try done. intros x Hx. rewrite lookup_insert_ne; [done|]. by intros ->.
  - apply Hskip; simpl; [|by rewrite lookup_insert_eq|done|done].
    intros x Hx. by rewrite lookup_insert_ne.
Qed.

(** What the second loop does with the queue [q]: the requests [pre] leave the
    queue, the ones in [gs] granted and the others canceled; it stops before an
    exclusive request. *)
Definition shared_result (ns name : text) (q : list nat) (l l' : Rel)
    (pre q' : list nat) (gs : list (nat * option Obj)) : Prop :=
  q = pre ++ q' ∧ queue (rl_resource l') = q' ∧
  (∀ rid q'', q' = rid :: q'' → rl_requests l !! rid = Some (Request_init ns name EXCLUSIVE)) ∧
  (∀ rid, rid ∉ pre → rl_requests l' !! rid = rl_requests l !! rid) ∧
  rl_deferred l' = rl_deferred l ++ gs ∧
  activeUsers (rl_resource l') = activeUsers (rl_resource l) + zlen gs ∧
  currentLock (rl_resource l') = currentLock (rl_resource l) ∧
  gs.*1 `sublist_of` pre ∧
  (∀ rid, rid ∈ gs.*1 → rl_requests l' !! rid = Some (granted_rq ns name SHARED)) ∧
  (∀ rid, rid ∈ pre → rid ∉ gs.*1 → canceled_at (rl_requests l') ns name rid) ∧
  (∀ rid, rid ∈ gs.*1 → rl_requests l !! rid = Some (Request_init ns name SHARED)).

Lemma shared_result_cons ns name rid q (l l1 l' : Rel) pre q' gs g :
  rid ∉ q → (∀ x, x ≠ rid → rl_requests l1 !! x = rl_requests l !! x) →
  shared_result ns name q l1 l' pre q' gs →
  rl_deferred l1 = rl_deferred l ++ g →
  activeUsers (rl_resource l1) = activeUsers (rl_resource l) + zlen g →
  currentLock (rl_resource l1) = currentLock (rl_resource l) →
  (g = [] ∧ canceled_at (rl_requests l1) ns name rid ∨
   ∃ o, g = [(rid, o)] ∧ rl_requests l1 !! rid = Some (granted_rq ns name SHARED) ∧
     rl_requests l !! rid = Some (Request_init ns name SHARED)) →
  shared_result ns name (rid :: q) l l' (rid :: pre) q' (g ++ gs).
Proof.
  intros Hni Hsame (-> & H2 & H3 & H4 & H5 & H6 & H7 & H8 & H9 & H10 & H11) Hd Ha Hc Hg.
  assert (rid ∉ pre) as Hpre by set_solver.
  unfold shared_result. rewrite H5, H6, H7, Hd, Ha, Hc, zlen_app, app_assoc, fmap_app.
  split_and!; try done; try lia.
  - intros x q'' ->. rewrite <- Hsame; [by eapply H3|]. intros ->. set_solver.
  - intros x [Hx1 Hx2]%not_elem_of_cons. rewrite H4 by done. by apply Hsame.
  - destruct Hg as [[-> _]|(o & -> & _)]; simpl; [by apply sublist_cons|by apply sublist_skip].
  - intros x [Hx|Hx]%elem_of_app; [|by apply H9].
    destruct Hg as [[-> _]|(o & -> & Hg & _)]; [by apply elem_of_nil in Hx|].
    apply list_elem_of_singleton in Hx as ->. by rewrite H4.
  - intros x [->|Hx]%elem_of_cons Hn; [|apply H10; set_solver].
    destruct Hg as [[-> Hg]|(o & -> & _)]; [|set_solver].
    destruct Hg as (lt & Hlt & Hg). exists lt. by rewrite H4.
  - intros x [Hx|Hx]%elem_of_app.
    + destruct Hg as [[-> _]|(o & -> & _ & Hg)]; [by apply elem_of_nil in Hx|].
      by apply list_elem_of_singleton in Hx as ->.
    + rewrite <- Hsame; [by apply H11|]. intros ->. by apply Hpre, (elem_of_sublist _ _ _ Hx).
Qed.

Lemma grant_shared_spec raced ns name q (l : Rel) :
  NoDup q → Forall (queued (rl_requests l) ns name) q →
  ∃ pre q' gs, shared_result ns name q l (grant_shared (E := E) raced q l) pre q' gs.
Proof.
  revert l. induction q as [|rid q IH]; intros l Hnd Hq; simpl.
  { exists [], [], []. unfold shared_result. simpl. rewrite app_nil_r, zlen_nil.
    split_and!; try done; try lia; set_solver. }
  apply NoDup_cons in Hnd as [Hni Hnd]. apply Forall_cons in Hq as [(lt & Hlt & Hrid) Hq].
  assert (∀ l1 g, (∀ x, x ≠ rid → rl_requests l1 !! x = rl_requests l !! x) →
    rl_deferred l1 = rl_deferred l ++ g →
    activeUsers (rl_resource l1) = activeUsers (rl_resource l) + zlen g →
    currentLock (rl_resource l1) = currentLock (rl_resource l) →
    (g = [] ∧ canceled_at (rl_requests l1) ns name rid ∨
     ∃ o, g = [(rid, o)] ∧ rl_requests l1 !! rid = Some (granted_rq ns name SHARED) ∧
       rl_requests l !! rid = Some (Request_init ns name SHARED)) →
    ∃ pre q' gs, shared_result ns name (rid :: q) l (grant_shared (E := E) raced q l1) pre q' gs) as Hstep.
  { intros l1 g Hsame Hd Ha Hc Hg.
    destruct (IH l1 Hnd) as (pre & q' & gs & Hr).
    { eapply queued_weaken, Hq. intros x Hx. apply Hsame. by intros ->. }
    exists (rid :: pre), q', (g ++ gs). by eapply shared_result_cons. }
  destruct Hrid as [Hrid|Hrid]; rewrite (request_of_Some _ _ _ Hrid); simpl.
  2:{ apply Hstep with []; simpl; try done; [by rewrite app_nil_r|rewrite zlen_nil; lia|].
      left. split; [done|]. by exists lt. }
  case_bool_decide as Hex.
  { exists [], (rid :: q), []. unfold shared_result. simpl. rewrite app_nil_r, zlen_nil. subst lt.
    split_and!; try done; try lia; [|set_solver..]. by intros x q'' [= <- <-]. }
  destruct Hlt as [->|?]; [|done].
  case_bool_decide as Hrace.
  - unfold client_cancel. rewrite Hrid. simpl.
    unfold request_of. rewrite lookup_insert_eq. simpl.
    apply Hstep with []; simpl; try done; [|by rewrite app_nil_r|rewrite zlen_nil; lia|].
    + intros x Hx. by rewrite lookup_insert_ne.
    + left. split; [done|]. exists SHARED. split; [by left|]. by rewrite lookup_insert_eq.
  - rewrite (request_of_Some _ _ _ Hrid). simpl.
    apply Hstep with [(rid, realObj (rl_resource l))]; simpl; try done.
    + intros x Hx. by rewrite lookup_insert_ne.
    + right. eexists. split; [done|]. by rewrite lookup_insert_eq.
Qed.

(** ** The deferred calls *)

Lemma run_deferred_other (d : list (nat * option Obj)) rqs rid :
  rid ∉ d.*1 → run_deferred d rqs !! rid = rqs !! rid.
Proof.
  revert rqs. induction d as [|[x o] d IH]; intros rqs Hn; [done|]. simpl in *.
  apply not_elem_of_cons in Hn as [Hx Hn]. rewrite IH by done. by rewrite lookup_alter_ne.
Qed.

Lemma run_deferred_granted (d : list (nat * option Obj)) rqs ns name lt rid :
  NoDup d.*1 → rid ∈ d.*1 → rqs !! rid = Some (granted_rq ns name lt) →
  ∃ o, run_deferred d rqs !! rid = Some (served_rq ns name lt o).
Proof.
  revert rqs. induction d as [|[x o] d IH]; intros rqs Hnd Hin Hr; [by apply elem_of_nil in Hin|].
  simpl in *. apply NoDup_cons in Hnd as [Hx Hnd].
  destruct (decide (rid = x)) as [->|Hne].
  - exists o. rewrite run_deferred_other by done. by rewrite lookup_alter_eq, Hr.
  - apply IH; [done|set_solver|]. by rewrite lookup_alter_ne.
Qed.

(** ** The invariant *)

Definition rq_key (rq : Req) : text * text := (_namespace rq, _name rq).

(** A resource with the requests [hs] that hold it. *)
Record resource_ok rqs (hs : list nat) (ns name : text) (r : ResourceInfo (Obj := Obj)) : Prop := {
  ro_users : activeUsers r = zlen hs;
  ro_held : hs ≠ [];
  ro_nodup : NoDup hs;
  ro_queue_nodup : NoDup (queue r);
  ro_lock : lock_type_ok (currentLock r);
  ro_exclusive : currentLock r = EXCLUSIVE → length hs = 1%nat;
  ro_holders : ∀ rid, rid ∈ hs → ∃ o, rqs !! rid = Some (served_rq ns name (currentLock r) o);
  ro_queue : Forall (queued rqs ns name) (queue r);
  ro_shared : currentLock r = SHARED → ∀ rid q, queue r = rid :: q →
    rqs !! rid = Some (Request_init ns name EXCLUSIVE) ∨ rqs !! rid = Some (canceled_rq ns name EXCLUSIVE);
}.

(** A request waits in the queue of its resource, or was canceled, or was granted;
    its callback was called once it is one of the last two. *)
Definition request_ok (r : option (ResourceInfo (Obj := Obj))) (ns name : text) (rid : nat) (rq : Req) : Prop :=
  ∃ lt, lock_type_ok lt ∧
    ((rq = Request_init ns name lt ∧ ∃ r0, r = Some r0 ∧ rid ∈ queue r0) ∨
     rq = canceled_rq ns name lt ∨ ∃ o, rq = served_rq ns name lt o).

Record key_ok rqs (hs : list nat) (r : option (ResourceInfo (Obj := Obj))) (ns name : text) : Prop := {
  ko_requests rid rq : rqs !! rid = Some rq → rq_key rq = (ns, name) → request_ok r ns name rid rq;
  ko_resource : match r with None => hs = [] | Some r => resource_ok rqs hs ns name r end;
}.

Definition resource_at (s : State) (ns name : text) : option (ResourceInfo (Obj := Obj)) :=
  match _namespaces s !! ns with Some n => resources n !! name | None => None end.

Record config := mkConfig {
  mgr : State;
  held : gmap (text * text) (list nat);
}.

Definition held_by (h : gmap (text * text) (list nat)) (ns name : text) : list nat :=
  default [] (h !! (ns, name)).

Definition inv (c : config) : Prop := ∀ ns name,
  key_ok (requests (mgr c)) (held_by (held c) ns name) (resource_at (mgr c) ns name) ns name.

(** The calls of the manager's clients. *)
Definition hold (ns name : text) (hs : list nat) (h : gmap (text * text) (list nat)) :=
  <[(ns, name) := held_by h ns name ++ hs]> h.

Definition unhold (ns name : text) (rid : nat) (h : gmap (text * text) (list nat)) :=
  <[(ns, name) := filter (.≠ rid) (held_by h ns name)]> h.

Definition granted_of (r : res (error E) (list nat)) : list nat :=
  match r with Ok gs => gs | Raise _ => [] end.

Definition do_register (rid : nat) (ns name lt : text) (c : config) : config :=
  let '(s, r) := registerResource rid ns name lt (mgr c) in
  mkConfig s (hold ns name (granted_of r) (held c)).

(** A holder gives its reference back: [ResourceRef.release]. *)
Definition do_release (raced : list nat) (rid : nat) (ns name : text) (c : config) : config :=
  let '(s, r) := releaseResource raced ns name (mgr c) in
  mkConfig s (hold ns name (granted_of r) (unhold ns name rid (held c))).

Definition do_cancel (rid : nat) (c : config) : config :=
  mkConfig (mkState (_namespaces (mgr c)) (client_cancel (E := E) rid (requests (mgr c))) (world (mgr c)))
    (held c).

Inductive step (c : config) : config → Prop :=
| step_namespace alnum ns f :
    step c (mkConfig (fst (registerNamespace (E := E) alnum ns f (mgr c))) (held c))
| step_status ns name : step c (mkConfig (fst (getResourceStatus (E := E) ns name (mgr c))) (held c))
| step_register rid ns name lt : requests (mgr c) !! rid = None → step c (do_register rid ns name lt c)
| step_release raced rid ns name : rid ∈ held_by (held c) ns name →
    step c (do_release raced rid ns name c)
| step_cancel rid : step c (do_cancel rid c).

Definition init (w : W) : config := mkConfig (mkState ∅ ∅ w) ∅.

Definition reachable (w : W) (c : config) : Prop := rtc step (init w) c.

(** ** Changes at one resource *)

Lemma key_ok_ext rqs rqs' hs r ns name :
  (∀ rid rq, rq_key rq = (ns, name) → rqs !! rid = Some rq ↔ rqs' !! rid = Some rq) →
  key_ok rqs hs r ns name → key_ok rqs' hs r ns name.
Proof.
  intros He [Hr Hs]. split.
  - intros rid rq Hl Hk. apply Hr; [|done]. by apply He.
  - destruct r as [r|]; [|done]. destruct Hs. split; try done.
    + intros rid Hin. destruct (ro_holders0 rid Hin) as [o Ho]. exists o. by apply He.
    + eapply Forall_impl; [done|]. intros rid (lt & Hlt & [H|H]); exists lt; (split; [done|]);
        [left|right]; by apply He.
    + intros Hsh rid q Hq. destruct (ro_shared0 Hsh rid q Hq) as [H|H]; [left|right]; by apply He.
Qed.

Lemma inv_local (c c' : config) ns name :
  inv c →
  (∀ ns' name', (ns', name') ≠ (ns, name) →
     resource_at (mgr c') ns' name' = resource_at (mgr c) ns' name' ∧
     held_by (held c') ns' name' = held_by (held c) ns' name') →
  (∀ rid rq, rq_key rq ≠ (ns, name) →
     requests (mgr c) !! rid = Some rq ↔ requests (mgr c') !! rid = Some rq) →
  key_ok (requests (mgr c')) (held_by (held c') ns name) (resource_at (mgr c') ns name) ns name →
  inv c'.
Proof.
  intros Hinv Hother Hrq Hk ns' name'.
  destruct (decide ((ns', name') = (ns, name))) as [[= -> ->]|Hne]; [done|].
  destruct (Hother _ _ Hne) as [-> ->]. eapply key_ok_ext; [|apply Hinv].
  intros rid rq Hkey. apply Hrq. congruence.
Qed.

Lemma inv_world s h w : inv (mkConfig s h) → inv (mkConfig (set_world w s) h).
Proof. done. Qed.

Lemma held_by_insert h ns name hs : held_by (<[(ns, name) := hs]> h) ns name = hs.
Proof. unfold held_by. by rewrite lookup_insert_eq. Qed.

Lemma held_by_insert_ne h ns name hs ns' name' :
  (ns', name') ≠ (ns, name) → held_by (<[(ns, name) := hs]> h) ns' name' = held_by h ns' name'.
Proof. intros. unfold held_by. by rewrite lookup_insert_ne. Qed.

(** Replacing the resources of a namespace at one name. *)
Lemma resource_at_set (s : State) (ns name : text) (n : Namespace (F := F))
    (rs : gmap text (ResourceInfo (Obj := Obj))) rqs (w : W) :
  _namespaces s !! ns = Some n →
  (∀ name', name' ≠ name → rs !! name' = resources n !! name') →
  let s' := mkState (<[ns := mkNamespace rs (factory n)]> (_namespaces s)) rqs w in
  resource_at s' ns name = rs !! name ∧
  ∀ ns' name', (ns', name') ≠ (ns, name) → resource_at s' ns' name' = resource_at s ns' name'.
Proof.
  intros Hn Hrs s'. unfold resource_at, s'. simpl. split; [by rewrite lookup_insert_eq|].
  intros ns' name' Hne. destruct (decide (ns' = ns)) as [->|]; [|by rewrite lookup_insert_ne].
  rewrite lookup_insert_eq, Hn. simpl. apply Hrs. congruence.
Qed.

(** ** Registering *)

Lemma queued_mono rqs rqs' ns name rid : rqs ⊆ rqs' → queued rqs ns name rid → queued rqs' ns name rid.
Proof.
  intros Hsub (lt & Hlt & H). exists lt. split; [done|].
  destruct H as [H|H]; [left|right]; by eapply lookup_weaken.
Qed.

Lemma resource_ok_mono rqs rqs' hs ns name r :
  rqs ⊆ rqs' → resource_ok rqs hs ns name r → resource_ok rqs' hs ns name r.
Proof.
  intros Hsub []. split; try done.
  - intros rid Hin. destruct (ro_holders0 rid Hin) as [o Ho]. exists o. by eapply lookup_weaken.
  - eapply Forall_impl; [done|]. intros rid. by apply queued_mono.
  - intros Hsh rid q Hq. destruct (ro_shared0 Hsh rid q Hq) as [H|H]; [left|right]; by eapply lookup_weaken.
Qed.

(** A new request at a resource. *)
Lemma inv_new_request (c : config) (s' : State) ns name rid rq hs r' :
  inv c → requests (mgr c) !! rid = None → rq_key rq = (ns, name) →
  requests s' = <[rid := rq]> (requests (mgr c)) →
  resource_at s' ns name = r' →
  (∀ ns' name', (ns', name') ≠ (ns, name) → resource_at s' ns' name' = resource_at (mgr c) ns' name') →
  request_ok r' ns name rid rq →
  (∀ r x, resource_at (mgr c) ns name = Some r → x ∈ queue r → ∃ r0, r' = Some r0 ∧ x ∈ queue r0) →
  match r' with
  | None => held_by (held c) ns name ++ hs = []
  | Some r => resource_ok (<[rid := rq]> (requests (mgr c))) (held_by (held c) ns name ++ hs) ns name r
  end →
  inv (mkConfig s' (hold ns name hs (held c))).
Proof.
  intros Hinv Hfresh Hkey Hrqs Hr' Hother Hrq Hqueue Hres.
  apply (inv_local c _ ns name); [done| | |]; simpl.
  - intros ns' name' Hne. split; [by apply Hother|]. by apply held_by_insert_ne.
  - intros x rq' Hk. rewrite Hrqs. destruct (decide (x = rid)) as [->|Hx].
    + rewrite lookup_insert_eq, Hfresh. split; [done|]. intros [= <-]. congruence.
    + by rewrite lookup_insert_ne.
  - rewrite Hrqs, Hr'. unfold hold. rewrite held_by_insert. split; [|done].
    intros x rq' Hl Hk. destruct (decide (x = rid)) as [->|Hx].
    + rewrite lookup_insert_eq in Hl. by injection Hl as <-.
    + rewrite lookup_insert_ne in Hl by done.
      destruct (ko_requests _ _ _ _ _ (Hinv ns name) x rq' Hl Hk) as (lt & Hlt & H).
      exists lt. split; [done|]. destruct H as [(-> & r0 & Hr0 & Hin)|H]; [left|by right].
      split; [done|]. by apply (Hqueue r0 x).
Qed.

Lemma inv_hold_nil c ns name : inv c → inv (mkConfig (mgr c) (hold ns name [] (held c))).
Proof.
  intros Hinv ns' name'. simpl. unfold hold. rewrite app_nil_r.
  destruct (decide ((ns', name') = (ns, name))) as [[= -> ->]|Hne].
  - rewrite held_by_insert. apply Hinv.
  - rewrite held_by_insert_ne by done. apply Hinv.
Qed.

(** A new shared user, a new request in the queue, a new resource. *)
Lemma resource_ok_join rqs hs ns name r rid o :
  resource_ok rqs hs ns name r → rqs !! rid = None → queue r = [] → currentLock r = SHARED →
  resource_ok (<[rid := served_rq ns name SHARED o]> rqs) (hs ++ [rid]) ns name
    (mkInfo (queue r) (activeUsers r + 1) (currentLock r) (realObj r)).
Proof.
  intros Hro Hf Hq Hsh.
  assert (rid ∉ hs) as Hni.
  { intros Hin. destruct (ro_holders _ _ _ _ _ Hro rid Hin). congruence. }
  apply (resource_ok_mono _ (<[rid := served_rq ns name SHARED o]> rqs)) in Hro; [|by apply insert_subseteq].
  destruct Hro. split; simpl; rewrite ?Hq, ?Hsh in *; try done.
  - by rewrite zlen_app, ro_users0.
  - by destruct hs.
  - apply NoDup_app. split_and!; [done| |apply NoDup_singleton]. by intros x Hx ->%list_elem_of_singleton.
  - intros x [Hx| ->%list_elem_of_singleton]%elem_of_app; [by apply ro_holders0|].
    exists o. by rewrite lookup_insert_eq.
Qed.

Lemma resource_ok_enqueue rqs hs ns name r rid lt :
  resource_ok rqs hs ns name r → rqs !! rid = None → lock_type_ok lt →
  ¬ (queue r = [] ∧ currentLock r = SHARED ∧ lt = SHARED) →
  resource_ok (<[rid := Request_init ns name lt]> rqs) hs ns name
    (mkInfo (queue r ++ [rid]) (activeUsers r) (currentLock r) (realObj r)).
Proof.
  intros Hro Hf Hlt Hno.
  assert (rid ∉ queue r) as Hni.
  { intros Hin. pose proof (ro_queue _ _ _ _ _ Hro) as Hq. rewrite Forall_forall in Hq.
    destruct (Hq rid Hin) as (lt' & _ & H). rewrite Hf in H. by destruct H. }
  apply (resource_ok_mono _ (<[rid := Request_init ns name lt]> rqs)) in Hro; [|by apply insert_subseteq].
  destruct Hro. split; simpl; try done.
  - apply NoDup_app. split_and!; [done| |apply NoDup_singleton]. by intros x Hx ->%list_elem_of_singleton.
  - apply Forall_app. split; [done|]. apply Forall_singleton. exists lt. split; [done|].
    left. by rewrite lookup_insert_eq.
  - intros Hsh x q Hq. destruct (queue r) as [|y qs] eqn:Eq; simpl in Hq.
    + injection Hq as <- <-. left. rewrite lookup_insert_eq. destruct Hlt as [->| ->]; [|done].
      by destruct Hno.
    + injection Hq as <- _. by apply (ro_shared0 Hsh y qs).
Qed.

Lemma resource_ok_new rqs ns name rid lt o :
  lock_type_ok lt →
  resource_ok (<[rid := served_rq ns name lt o]> rqs) [rid] ns name (mkInfo [] 1 lt o).
Proof.
  intros Hlt. split; simpl; try done; [apply NoDup_singleton|constructor|].
  intros x ->%list_elem_of_singleton. exists o. by rewrite lookup_insert_eq.
Qed.

Lemma inv_register c rid ns name lt :
  inv c → requests (mgr c) !! rid = None → inv (do_register rid ns name lt c).
Proof.
  intros Hinv Hfresh. pose proof (ko_resource _ _ _ _ _ (Hinv ns name)) as Hro.
  unfold do_register, registerResource.
  destruct (negb (_resourceNameValidator name)); [by apply inv_hold_nil|].
  destruct (negb _) eqn:Hlt; [by apply inv_hold_nil|].
  assert (lock_type_ok lt) as Hlt'.
  { apply negb_false_iff, orb_true_iff in Hlt as [H|H]; apply bool_decide_eq_true_1 in H; [by left|by right]. }
  destruct (_namespaces (mgr c) !! ns) as [n|] eqn:Hn; [|by apply inv_hold_nil].
  assert (resource_at (mgr c) ns name = resources n !! name) as Hat by (unfold resource_at; by rewrite Hn).
  pose proof (fun r rqs w => resource_at_set (mgr c) ns name n (<[name := r]> (resources n)) rqs w Hn
    ltac:(intros; by rewrite lookup_insert_ne)) as Hset. simpl in Hset.
  rewrite Hat in Hro. destruct (resources n !! name) as [r|] eqn:Hr.
  - destruct (bool_decide (queue r = []) && _ && _) eqn:Hjoin; simpl.
    + apply andb_true_iff in Hjoin as [[Hq Hsh]%andb_true_iff Hls].
      apply bool_decide_eq_true_1 in Hq, Hsh, Hls. simpl in Hls. subst lt.
      eapply inv_new_request with (rq := served_rq ns name SHARED (realObj r))
        (r' := Some (mkInfo (queue r) (activeUsers r + 1) (currentLock r) (realObj r))); try done.
      * etrans; [apply (proj1 (Hset _ _ _))|apply lookup_insert_eq].
      * apply Hset.
      * exists SHARED. split; [done|]. right; right. by eexists.
      * rewrite Hat. intros r1 x [= <-] Hx. by eexists.
      * by apply resource_ok_join.
    + eapply inv_new_request with (rq := Request_init ns name lt)
        (r' := Some (mkInfo (queue r ++ [rid]) (activeUsers r) (currentLock r) (realObj r))); try done.
      * etrans; [apply (proj1 (Hset _ _ _))|apply lookup_insert_eq].
      * apply Hset.
      * exists lt. split; [done|]. left. split; [done|]. eexists. split; [done|]. simpl. set_solver.
      * rewrite Hat. intros r1 x [= <-] Hx. eexists. split; [done|]. simpl. set_solver.
      * simpl. rewrite app_nil_r. apply resource_ok_enqueue; try done.
        intros (Hq & Hsh & Hls). simpl in Hjoin. by rewrite Hq, Hsh, Hls in Hjoin.
  - destruct (resourceExists _ _ _) as [w [[]|e]]; simpl; [|by apply (inv_hold_nil (mkConfig (set_world w (mgr c)) _))..].
    destruct (createResource _ _ _ _) as [w' [obj|e]]; simpl.
    + eapply inv_new_request with (rq := served_rq ns name lt obj) (r' := Some (mkInfo [] 1 lt obj)); try done.
      * etrans; [apply (proj1 (Hset _ _ _))|apply lookup_insert_eq].
      * apply Hset.
      * exists lt. split; [done|]. right; right. by eexists.
      * rewrite Hat. done.
      * rewrite Hro. by apply resource_ok_new.
    + eapply inv_new_request with (rq := canceled_rq ns name lt) (r' := None); try done.
      * exists lt. split; [done|]. by right; left.
      * rewrite Hat. done.
      * by rewrite Hro.
Qed.

(** ** Releasing *)

(** The two loops of a release together: the requests [pre] leave the queue [q],
    the deferred ones granted and the others canceled. *)
Record loops_result (ns name : text) (q : list nat) (l l' : Rel) (pre q' : list nat) : Prop := {
  lr_split : q = pre ++ q';
  lr_queue : queue (rl_resource l') = q';
  lr_lock : lock_type_ok (currentLock (rl_resource l'));
  lr_users : activeUsers (rl_resource l') = zlen (rl_deferred l');
  lr_some : rl_deferred l' ≠ [];
  lr_exclusive : currentLock (rl_resource l') = EXCLUSIVE → length (rl_deferred l') = 1%nat;
  lr_sub : (rl_deferred l').*1 `sublist_of` pre;
  lr_other : ∀ rid, rid ∉ pre → rl_requests l' !! rid = rl_requests l !! rid;
  lr_granted : ∀ rid, rid ∈ (rl_deferred l').*1 →
    rl_requests l' !! rid = Some (granted_rq ns name (currentLock (rl_resource l')));
  lr_waited : ∀ rid, rid ∈ (rl_deferred l').*1 →
    rl_requests l !! rid = Some (Request_init ns name (currentLock (rl_resource l')));
  lr_canceled : ∀ rid, rid ∈ pre → rid ∉ (rl_deferred l').*1 → canceled_at (rl_requests l') ns name rid;
  lr_shared : currentLock (rl_resource l') = SHARED → ∀ rid q'', q' = rid :: q'' →
    rl_requests l' !! rid = Some (Request_init ns name EXCLUSIVE);
}.

Definition second_loop (raced : list nat) (l : Rel) : Rel :=
  if bool_decide (currentLock (rl_resource l) = EXCLUSIVE) then l
  else grant_shared (E := E) raced (queue (rl_resource l)) l.

Lemma release_loops (f : F) raced ns name (l : Rel) :
  let q := queue (rl_resource l) in
  NoDup q → Forall (queued (rl_requests l) ns name) q →
  rl_deferred l = [] → activeUsers (rl_resource l) = 0 →
  match grant_first (E := E) f name q l with
  | (_, Raise _) => False
  | (l1, Ok None) => (∀ rid, rid ∉ q → rl_requests l1 !! rid = rl_requests l !! rid) ∧
      Forall (canceled_at (rl_requests l1) ns name) q
  | (l1, Ok (Some _)) => ∃ pre q', loops_result ns name q l (second_loop raced l1) pre q'
  end.
Proof.
  intros q Hnd Hq Hd Ha.
  destruct (grant_first_spec f ns name q l Hnd Hq) as (l1 & [[]|] & -> & Hout & Hr); [|by destruct Hr].
  destruct Hr as (pre & rid & q' & lt & o & Hs & H2 & H3 & Hlt & H5 & H6 & H7 & H8 & H9 & H10).
  rewrite Hd in H10. rewrite Ha in H9. simpl in H9, H10.
  assert (∀ x, x ∉ pre ++ [rid] → rl_requests l1 !! x = rl_requests l !! x) as Hsame.
  { intros x Hx. destruct (decide (x ∈ q')) as [Hx'|Hx']; [by apply H7|]. apply Hout. rewrite Hs. set_solver. }
  assert (∀ x, x ∈ pre → canceled_at (rl_requests l1) ns name x) as Hpre by by apply Forall_forall.
  rewrite Hs in Hnd. apply NoDup_app in Hnd as (Hnd1 & Hdis & [Hni Hnd2]%NoDup_cons).
  assert (rid ∉ pre) as Hrp by (intros Hx; apply (Hdis rid Hx); by left).
  unfold second_loop. case_bool_decide as Hex.
  - exists (pre ++ [rid]), q'. rewrite Hex in H8. subst lt.
    split; rewrite ?H10; try done; [by rewrite Hs, <- app_assoc|by right|by apply sublist_inserts_l| | | |].
    + simpl. intros x ->%list_elem_of_singleton. by rewrite Hex.
    + simpl. intros x ->%list_elem_of_singleton. by rewrite Hex.
    + simpl. set_solver.
    + by rewrite Hex.
  - assert (lt = SHARED) as -> by (destruct Hlt; congruence).
    assert (Forall (queued (rl_requests l1) ns name) q') as Hq'.
    { eapply queued_weaken; [exact H7|]. rewrite Hs in Hq. apply Forall_app in Hq as [_ [_ Hq]%Forall_cons]. done. }
    rewrite H2. destruct (grant_shared_spec raced ns name q' l1 Hnd2 Hq') as (pre2 & q2 & gs & Hsr).
    destruct Hsr as (-> & S2 & S3 & S4 & S5 & S6 & S7 & S8 & S9 & S10 & S11).
    exists (pre ++ rid :: pre2), q2. rewrite H10 in S5. simpl in S5. set (l2 := grant_shared _ _ _) in *.
    split; rewrite ?S5, ?S7, ?H8; try done.
    + by rewrite Hs, <- app_assoc.
    + rewrite S6, H9, zlen_cons. lia.
    + simpl. apply sublist_inserts_l. by apply sublist_skip.
    + intros x Hx. rewrite S4 by set_solver. apply Hsame. set_solver.
    + simpl. intros x [->|Hx]%elem_of_cons; [|by apply S9]. rewrite S4; [done|]. set_solver.
    + simpl. intros x [->|Hx]%elem_of_cons; [done|]. rewrite <- Hsame; [by apply S11|].
      pose proof (elem_of_sublist _ _ _ Hx S8) as Hx2. intros [Hx3|Hx3]%elem_of_app; [|set_solver].
      apply (Hdis x Hx3). set_solver.
    + simpl. intros x Hx [Hx1 Hx2]%not_elem_of_cons. apply elem_of_app in Hx as [Hx|Hx].
      * destruct (Hpre x Hx) as (lt & Hl & Hc). exists lt. rewrite S4; [done|]. specialize (Hdis x Hx). set_solver.
      * apply elem_of_cons in Hx as [->|Hx]; [done|]. by apply S10.
    + intros _ x q'' ->. rewrite S4; [by eapply S3|].
      apply NoDup_app in Hnd2 as (_ & Hd2 & _). intros Hx. apply (Hd2 x Hx). by left.
Qed.

Lemma held_by_release h ns name rid gs :
  held_by (hold ns name gs (unhold ns name rid h)) ns name = filter (.≠ rid) (held_by h ns name) ++ gs.
Proof. unfold hold, unhold. by rewrite !held_by_insert. Qed.

Lemma held_by_release_ne h ns name rid gs ns' name' :
  (ns', name') ≠ (ns, name) →
  held_by (hold ns name gs (unhold ns name rid h)) ns' name' = held_by h ns' name'.
Proof. intros. unfold hold, unhold. by rewrite !held_by_insert_ne. Qed.

Lemma length_filter_ne (l : list nat) x : NoDup l → x ∈ l → S (length (filter (.≠ x) l)) = length l.
Proof.
  induction 1 as [|y l Hy Hl IH]; [by intros ?%elem_of_nil|].
  intros [->|Hx]%elem_of_cons.
  - rewrite filter_cons_False by (intros H; by apply H). simpl. f_equal. clear IH.
    induction l as [|z l IH]; [done|]. apply not_elem_of_cons in Hy as [Hyz Hy].
    rewrite filter_cons_True by congruence. simpl. f_equal. apply IH; [done|by inversion Hl].
  - rewrite filter_cons_True by (by intros ->). simpl. by rewrite IH.
Qed.

Lemma resource_held c ns name rid :
  inv c → rid ∈ held_by (held c) ns name →
  ∃ n r, _namespaces (mgr c) !! ns = Some n ∧ resources n !! name = Some r ∧
    resource_ok (requests (mgr c)) (held_by (held c) ns name) ns name r.
Proof.
  intros Hinv Hin. pose proof (ko_resource _ _ _ _ _ (Hinv ns name)) as Hro. unfold resource_at in Hro.
  destruct (_namespaces (mgr c) !! ns) as [n|]; [|rewrite Hro in Hin; by apply elem_of_nil in Hin].
  destruct (resources n !! name) as [r|] eqn:Hr; [|rewrite Hro in Hin; by apply elem_of_nil in Hin].
  by exists n, r.
Qed.

(** Requests of other resources are those the release does not touch. *)
Lemma requests_elsewhere rqs rqs' ns name (q : list nat) :
  (∀ rid, rid ∉ q → rqs' !! rid = rqs !! rid) →
  (∀ rid, rid ∈ q → (∃ rq, rqs !! rid = Some rq ∧ rq_key rq = (ns, name)) ∧
     ∃ rq, rqs' !! rid = Some rq ∧ rq_key rq = (ns, name)) →
  ∀ rid rq, rq_key rq ≠ (ns, name) → rqs !! rid = Some rq ↔ rqs' !! rid = Some rq.
Proof.
  intros Hout Hin rid rq Hk. destruct (decide (rid ∈ q)) as [Hq|Hq]; [|by rewrite Hout].
  destruct (Hin rid Hq) as [(rq1 & -> & Hk1) (rq2 & -> & Hk2)]. split; intros [= <-]; congruence.
Qed.

Lemma queued_key rqs ns name rid : queued rqs ns name rid → ∃ rq, rqs !! rid = Some rq ∧ rq_key rq = (ns, name).
Proof. intros (lt & _ & [H|H]); by eexists. Qed.

(** Some holder remains. *)
Lemma inv_release_shared c rid ns name n r :
  inv c → rid ∈ held_by (held c) ns name →
  _namespaces (mgr c) !! ns = Some n → resources n !! name = Some r → 0 < activeUsers r - 1 →
  inv (mkConfig
    (finish_release ns name n
       (mkReleasing (mkInfo (queue r) (activeUsers r - 1) (currentLock r) (realObj r))
          (requests (mgr c)) (world (mgr c)) []) (mgr c))
    (hold ns name [] (unhold ns name rid (held c)))).
Proof.
  intros Hinv Hin Hn Hr Hu. pose proof (Hinv ns name) as [Hrq Hro].
  unfold resource_at in Hrq, Hro. rewrite Hn, Hr in Hrq, Hro.
  pose proof (length_filter_ne _ _ (ro_nodup _ _ _ _ _ Hro) Hin) as Hlen.
  pose proof (ro_users _ _ _ _ _ Hro) as Hz. unfold zlen in Hz.
  unfold finish_release. simpl.
  match goal with |- inv (mkConfig (mkState (<[_ := mkNamespace ?rs _]> _) ?rqs ?w) _) =>
    destruct (resource_at_set (mgr c) ns name n rs rqs w Hn) as [Hat Hother];
      [intros; by rewrite lookup_insert_ne|] end.
  apply (inv_local c _ ns name); [done| | |]; cbn [mgr held requests].
  - intros ns' name' Hne. split; [by apply Hother|by apply held_by_release_ne].
  - done.
  - rewrite Hat, lookup_insert_eq, held_by_release, app_nil_r. split.
    + intros x rq Hl Hk. destruct (Hrq x rq Hl Hk) as (lt & Hlt & H). exists lt. split; [done|].
      destruct H as [(-> & r0 & [= <-] & Hx)|H]; [left|by right]. split; [done|]. by eexists.
    + destruct Hro. split; simpl; try done.
      * unfold zlen. lia.
      * intros He. rewrite He in Hlen. simpl in Hlen. lia.
      * by apply NoDup_filter.
      * intros He. apply ro_exclusive0 in He. lia.
      * intros x [_ Hx]%list_elem_of_filter. by apply ro_holders0.
Qed.

(** The last holder leaves and nobody waits. *)
Lemma inv_release_free c rid ns name n r (l1 : Rel) w :
  inv c → held_by (held c) ns name = [rid] →
  _namespaces (mgr c) !! ns = Some n → resources n !! name = Some r →
  (∀ x, x ∉ queue r → rl_requests l1 !! x = requests (mgr c) !! x) →
  Forall (canceled_at (rl_requests l1) ns name) (queue r) →
  inv (mkConfig
    (mkState (<[ns := mkNamespace (delete name (resources n)) (factory n)]> (_namespaces (mgr c)))
       (rl_requests l1) w)
    (hold ns name [] (unhold ns name rid (held c)))).
Proof.
  intros Hinv Hh Hn Hr Hout Hcan. pose proof (Hinv ns name) as [Hrq Hro].
  unfold resource_at in Hrq, Hro. rewrite Hn, Hr in Hrq, Hro. rewrite Forall_forall in Hcan.
  destruct (resource_at_set (mgr c) ns name n (delete name (resources n)) (rl_requests l1) w Hn)
    as [Hat Hother]; [intros; by rewrite lookup_delete_ne|].
  apply (inv_local c _ ns name); [done| | |]; cbn [mgr held requests].
  - intros ns' name' Hne. split; [by apply Hother|by apply held_by_release_ne].
  - apply (requests_elsewhere _ _ _ _ (queue r) Hout). intros x Hx. split.
    + apply queued_key. pose proof (ro_queue _ _ _ _ _ Hro) as Hq. rewrite Forall_forall in Hq. by apply Hq.
    + destruct (Hcan x Hx) as (lt & _ & Hc). by eexists.
  - rewrite Hat, lookup_delete_eq, held_by_release, Hh, app_nil_r. split.
    + intros x rq Hl Hk. destruct (decide (x ∈ queue r)) as [Hx|Hx].
      * destruct (Hcan x Hx) as (lt & Hlt & Hc). exists lt. split; [done|]. right; left. congruence.
      * rewrite Hout in Hl by done. destruct (Hrq x rq Hl Hk) as (lt & Hlt & H). exists lt.
        split; [done|]. destruct H as [(_ & r0 & [= <-] & ?)|H]; [done|by right].
    + by rewrite filter_cons_False by (intros H; by apply H).
Qed.

(** The last holder leaves and waiting requests are granted. *)
Lemma inv_release_grant c rid ns name n r (l l2 : Rel) pre q' :
  inv c → held_by (held c) ns name = [rid] →
  _namespaces (mgr c) !! ns = Some n → resources n !! name = Some r →
  rl_requests l = requests (mgr c) →
  loops_result ns name (queue r) l l2 pre q' →
  inv (mkConfig (finish_release ns name n l2 (mgr c))
    (hold ns name (rl_deferred l2).*1 (unhold ns name rid (held c)))).
Proof.
  intros Hinv Hh Hn Hr Hrl [H1 H2 H3 H4 H5 H6 H7 H8 H9 _ H10 H11]. pose proof (Hinv ns name) as [Hrq Hro].
  unfold resource_at in Hrq, Hro. rewrite Hn, Hr in Hrq, Hro. rewrite Hrl in H8.
  pose proof (ro_queue_nodup _ _ _ _ _ Hro) as Hndq. rewrite H1 in Hndq.
  apply NoDup_app in Hndq as (Hndp & Hdis & Hndq').
  assert (NoDup (rl_deferred l2).*1) as Hndd by exact (sublist_NoDup _ _ Hndp H7).
  assert (∀ x, x ∈ (rl_deferred l2).*1 → x ∈ pre) as Hdp by (intros x Hx; exact (elem_of_sublist _ _ x Hx H7)).
  set (rqs' := run_deferred (rl_deferred l2) (rl_requests l2)).
  assert (∀ x, x ∉ pre → rqs' !! x = requests (mgr c) !! x) as Hout.
  { intros x Hx. unfold rqs'. rewrite run_deferred_other by eauto. by apply H8. }
  assert (∀ x, x ∈ (rl_deferred l2).*1 → ∃ o, rqs' !! x = Some (served_rq ns name (currentLock (rl_resource l2)) o))
    as Hsrv by (intros x Hx; apply run_deferred_granted; auto).
  assert (∀ x, x ∈ pre → x ∉ (rl_deferred l2).*1 → canceled_at rqs' ns name x) as Hcan.
  { intros x Hx Hn'. destruct (H10 x Hx Hn') as (lt & Hlt & Hc). exists lt. split; [done|].
    unfold rqs'. by rewrite run_deferred_other. }
  pose proof (ro_queue _ _ _ _ _ Hro) as Hq. rewrite Forall_forall in Hq.
  unfold finish_release. fold rqs'.
  destruct (resource_at_set (mgr c) ns name n (<[name := rl_resource l2]> (resources n)) rqs' (rl_world l2) Hn)
    as [Hat Hother]; [intros; by rewrite lookup_insert_ne|].
  apply (inv_local c _ ns name); [done| | |]; cbn [mgr held requests].
  - intros ns' name' Hne. split; [by apply Hother|by apply held_by_release_ne].
  - apply (requests_elsewhere _ _ _ _ pre Hout). intros x Hx. split.
    + apply queued_key, Hq. rewrite H1. set_solver.
    + destruct (decide (x ∈ (rl_deferred l2).*1)) as [Hd|Hd]; [destruct (Hsrv x Hd); by eexists|].
      destruct (Hcan x Hx Hd) as (lt & _ & Hc). by eexists.
  - rewrite Hat, lookup_insert_eq, held_by_release, Hh.
    rewrite filter_cons_False by (intros H; by apply H). simpl. split.
    + intros x rq Hl Hk. destruct (decide (x ∈ pre)) as [Hx|Hx].
      * destruct (decide (x ∈ (rl_deferred l2).*1)) as [Hd|Hd].
        -- destruct (Hsrv x Hd) as [o Ho]. exists (currentLock (rl_resource l2)). split; [done|].
           right; right. exists o. congruence.
        -- destruct (Hcan x Hx Hd) as (lt & Hlt & Hc). exists lt. split; [done|]. right; left. congruence.
      * rewrite Hout in Hl by done. destruct (Hrq x rq Hl Hk) as (lt & Hlt & H). exists lt. split; [done|].
        destruct H as [(-> & r0 & [= <-] & Hxq)|H]; [left|by right]. split; [done|].
        eexists. split; [done|]. rewrite H2. rewrite H1 in Hxq. set_solver.
    + split; try done.
      * rewrite H4. unfold zlen. by rewrite length_fmap.
      * by destruct (rl_deferred l2).
      * by rewrite H2.
      * intros He. rewrite length_fmap. auto.
      * rewrite H2. eapply queued_weaken with (rqs := requests (mgr c)).
        -- intros x Hx. apply Hout. intros Hp. by apply (Hdis x Hp).
        -- apply Forall_forall. intros x Hx. apply Hq. rewrite H1. set_solver.
      * intros Hsh x q'' Hq''. rewrite H2 in Hq''. left. unfold rqs'. rewrite run_deferred_other.
        -- by eapply H11.
        -- intros Hx. apply (Hdis x); [by apply Hdp|]. rewrite Hq''. by left.
Qed.

(** A release by a holder, on every branch. *)
Lemma inv_release c raced rid ns name :
  inv c → rid ∈ held_by (held c) ns name →
  inv (do_release raced rid ns name c) ∧
  is_ok (snd (releaseResource (E := E) raced ns name (mgr c))) = true.
Proof.
  intros Hinv Hin. destruct (resource_held _ _ _ _ Hinv Hin) as (n & r & Hn & Hr & Hro).
  unfold do_release, releaseResource. rewrite Hn, Hr. simpl.
  destruct (Z.ltb_spec 0 (activeUsers r - 1)) as [Hu|Hu]; [split; [by apply inv_release_shared|done]|].
  pose proof (ro_users _ _ _ _ _ Hro) as Hz. unfold zlen in Hz.
  assert (held_by (held c) ns name = [rid]) as Hh.
  { destruct (held_by (held c) ns name) as [|x [|]] eqn:Eh; simpl in Hz; [by apply elem_of_nil in Hin| |lia].
    by apply list_elem_of_singleton in Hin as ->. }
  assert (activeUsers r = 1) as Hu1 by (rewrite Hh in Hz; simpl in Hz; lia).
  set (l := mkReleasing (mkInfo (queue r) (activeUsers r - 1) (currentLock r) (realObj r)) (requests (mgr c))
    (world (mgr c)) []).
  pose proof (release_loops (factory n) raced ns name l (ro_queue_nodup _ _ _ _ _ Hro)
    (ro_queue _ _ _ _ _ Hro) eq_refl ltac:(simpl; lia)) as Hloops. cbn [rl_resource queue l] in Hloops.
  destruct (grant_first _ _ _ _) as [l1 [[[]|]|e]]; [|split; [|done]|done].
  - destruct Hloops as (pre & q' & Hlr). split; [|done].
    change (inv (mkConfig (finish_release ns name n (second_loop raced l1) (mgr c))
      (hold ns name (rl_deferred (second_loop raced l1)).*1 (unhold ns name rid (held c))))).
    by apply (inv_release_grant c rid ns name n r l _ pre q').
  - destruct Hloops as [Hout Hcan]. by apply (inv_release_free c rid ns name n r l1).
Qed.

(** ** Canceling, and the other calls *)

Lemma client_cancel_waiting rqs rid ns name lt :
  rqs !! rid = Some (Request_init ns name lt) →
  client_cancel (E := E) rid rqs = <[rid := canceled_rq ns name lt]> rqs.
Proof. intros H. unfold client_cancel. by rewrite H. Qed.

Lemma client_cancel_same rqs rid :
  (∀ rq, rqs !! rid = Some rq → _isActive rq = false) → client_cancel (E := E) rid rqs = rqs.
Proof.
  intros H. unfold client_cancel, cancel. destruct (rqs !! rid) as [rq|]; [|done].
  by rewrite (H rq eq_refl).
Qed.

Lemma inv_cancel c rid : inv c → inv (do_cancel rid c).
Proof.
  intros Hinv. unfold do_cancel. set (rqs := requests (mgr c)).
  assert ((∃ rq, rqs !! rid = Some rq ∧ _isActive rq = true) ∨
    (∀ rq, rqs !! rid = Some rq → _isActive rq = false)) as [(rq & Hrq & Hact)|Hno].
  { destruct (rqs !! rid) as [rq|]; [|by right]. destruct (_isActive rq) eqn:E'; [by left; exists rq|].
    right. by intros ? [= <-]. }
  2:{ rewrite client_cancel_same by done. by destruct c as [[] ?]. }
  destruct (rq_key rq) as [ns name] eqn:Hkey.
  pose proof (Hinv ns name) as [Hreq Hres].
  destruct (Hreq rid rq Hrq Hkey) as (lt & Hlt & [(-> & r & Hr & Hinq)|[->|[o ->]]]); [|done|done].
  rewrite (client_cancel_waiting _ _ _ _ _ Hrq). rewrite Hr in Hres.
  assert (∀ x rq', x ≠ rid → rqs !! x = Some rq' → <[rid := canceled_rq ns name lt]> rqs !! x = Some rq') as Hne.
  { intros x rq' Hx. by rewrite lookup_insert_ne. }
  apply (inv_local c _ ns name); [done|done| |]; cbn [mgr held requests].
  - intros x rq' Hk. fold rqs. destruct (decide (x = rid)) as [->|Hx]; [|by rewrite lookup_insert_ne].
    rewrite lookup_insert_eq, Hrq. split; intros [= <-]; by destruct Hk.
  - change (resource_at _ ns name) with (resource_at (mgr c) ns name). rewrite Hr. split.
    + intros x rq' Hl Hk. destruct (decide (x = rid)) as [->|Hx].
      * rewrite lookup_insert_eq in Hl. injection Hl as <-. exists lt. split; [done|]. by right; left.
      * rewrite lookup_insert_ne in Hl by done. rewrite <- Hr. by apply Hreq.
    + destruct Hres. split; try done.
      * intros x Hx. destruct (ro_holders0 x Hx) as [o Ho]. exists o. apply Hne; [|done].
        intros ->. fold rqs in Ho. rewrite Hrq in Ho. done.
      * eapply Forall_impl; [exact ro_queue0|]. intros x (lt' & Hlt' & H).
        destruct (decide (x = rid)) as [->|Hx].
        -- exists lt. split; [done|]. right. by rewrite lookup_insert_eq.
        -- exists lt'. split; [done|]. rewrite lookup_insert_ne by done. done.
      * intros Hsh x q Hq. destruct (decide (x = rid)) as [->|Hx]; [|rewrite lookup_insert_ne by done; eauto].
        right. rewrite lookup_insert_eq. destruct (ro_shared0 Hsh rid q Hq) as [H|H]; fold rqs in H;
          rewrite Hrq in H; [|done]. by injection H as ->.
Qed.

Lemma inv_namespace c alnum ns f :
  inv c → inv (mkConfig (fst (registerNamespace (E := E) alnum ns f (mgr c))) (held c)).
Proof.
  intros Hinv. unfold registerNamespace. destruct c as [s h]. simpl.
  destruct (negb _); [done|]. destruct (_namespaces s !! ns) eqn:Hn; [done|].
  intros ns' name'. specialize (Hinv ns' name'). simpl in *.
  replace (resource_at _ ns' name') with (resource_at s ns' name'); [done|].
  unfold resource_at. simpl. destruct (decide (ns' = ns)) as [->|]; [|by rewrite lookup_insert_ne].
  by rewrite Hn, lookup_insert_eq.
Qed.

Lemma inv_status c ns name :
  inv c → inv (mkConfig (fst (getResourceStatus (E := E) ns name (mgr c))) (held c)).
Proof.
  intros Hinv. unfold getResourceStatus. destruct c as [s h]. simpl.
  destruct (negb _); [done|]. destruct (_namespaces s !! ns); [|done].
  destruct (resourceExists _ _ _) as [w [[]|]]; [|done|done]. by case_match.
Qed.

Lemma inv_init w : inv (init w).
Proof. intros ns name. split; [|done]. intros rid rq. simpl. by rewrite lookup_empty. Qed.

Lemma inv_step c c' : inv c → step c c' → inv c'.
Proof.
  intros Hinv []; [by apply inv_namespace|by apply inv_status|by apply inv_register|
    by apply inv_release|by apply inv_cancel].
Qed.

Lemma inv_steps c c' : inv c → rtc step c c' → inv c'.
Proof. intros Hi H. induction H; [done|]. eauto using inv_step. Qed.

Lemma reachable_inv w c : reachable w c → inv c.
Proof. apply inv_steps, inv_init. Qed.
End Facts.
