(* ===== verification/ResourceSpec.v ===== *)
(** * Resource manager: what it promises

    Exclusion, the fate of every request, the order of the grants, and the
    outcome of a synchronous acquire, in every state that the manager's calls
    can reach. *)
From Stdlib Require Import ZArith Lia.
From stdpp Require Import base gmap list strings relations.
From S2P Require Import Prelude ResourceManager ResourceFacts.

Section Spec.
  Context {F Obj W E : Type} `{!Factory F Obj W E}.

Abbreviation State := (state (F := F) (Obj := Obj) (W := W)).
Abbreviation Config := (config (F := F) (Obj := Obj) (W := W)).
Abbreviation reached := (reachable (F := F) (Obj := Obj) (W := W) (E := E)).

(** ** Final requests stay as they are *)

(** How a request may change. *)
Definition evolves (rq rq' : Request (Obj := Obj)) : Prop :=
  rq_key rq' = rq_key rq ∧ (_isCanceled rq = true → _isCanceled rq' = true).

Definition requests_evolve (rqs rqs' : gmap nat (Request (Obj := Obj))) : Prop :=
  ∀ rid rq, rqs !! rid = Some rq → ∃ rq', rqs' !! rid = Some rq' ∧ evolves rq rq'.

Lemma evolve_refl rqs : requests_evolve rqs rqs.
Proof. intros rid rq H. by exists rq. Qed.

Lemma evolve_trans rqs1 rqs2 rqs3 :
  requests_evolve rqs1 rqs2 → requests_evolve rqs2 rqs3 → requests_evolve rqs1 rqs3.
Proof.
  intros H1 H2 rid rq H. destruct (H1 rid rq H) as (rq2 & Hr2 & Hk2 & Hc2).
  destruct (H2 rid rq2 Hr2) as (rq3 & Hr3 & Hk3 & Hc3). exists rq3. split; [done|].
  split; [congruence|auto].
Qed.

Lemma evolve_fresh rqs rid rq : rqs !! rid = None → requests_evolve rqs (<[rid := rq]> rqs).
Proof. intros Hf x rqx H. exists rqx. rewrite lookup_insert_ne by congruence. done. Qed.

Lemma evolve_cancel rqs rid : requests_evolve rqs (client_cancel (E := E) rid rqs).
Proof.
  intros x rq H. unfold client_cancel. destruct (rqs !! rid) as [rq'|] eqn:Hr; [|by exists rq].
  unfold cancel. destruct (_isActive rq'); [|by exists rq]. simpl.
  destruct (decide (x = rid)) as [->|Hne]; [|exists rq; by rewrite lookup_insert_ne].
  eexists. rewrite lookup_insert_eq. split; [done|]. by simplify_eq.
Qed.

Lemma evolve_register rid ns name lt (s : State) :
  requests s !! rid = None →
  requests_evolve (requests s) (requests (fst (registerResource (E := E) rid ns name lt s))).
Proof.
  intros Hf. unfold registerResource.
  repeat (case_match; simplify_eq/=; try apply evolve_refl); by apply evolve_fresh.
Qed.

Lemma evolve_release raced rid ns name (c : Config) :
  inv c → rid ∈ held_by (held c) ns name →
  requests_evolve (requests (mgr c)) (requests (fst (releaseResource (E := E) raced ns name (mgr c)))).
Proof.
  intros Hinv Hin. destruct (resource_held _ _ _ _ Hinv Hin) as (n & r & Hn & Hr & Hro).
  unfold releaseResource. rewrite Hn, Hr. simpl.
  destruct (Z.ltb_spec 0 (activeUsers r - 1)) as [Hu|Hu]; [apply evolve_refl|].
  pose proof (ro_users _ _ _ _ _ Hro) as Hz. pose proof (ro_held _ _ _ _ _ Hro) as Hne.
  set (l := mkReleasing (mkInfo (queue r) (activeUsers r - 1) (currentLock r) (realObj r)) (requests (mgr c))
    (world (mgr c)) []).
  assert (activeUsers r - 1 = 0) as Hz0.
  { unfold zlen in Hz. destruct (held_by (held c) ns name); [done|]. simpl in Hz. lia. }
  pose proof (release_loops (factory n) raced ns name l (ro_queue_nodup _ _ _ _ _ Hro)
    (ro_queue _ _ _ _ _ Hro) eq_refl Hz0) as Hloops. cbn [rl_resource queue l] in Hloops.
  assert (∀ x rq, x ∈ queue r → requests (mgr c) !! x = Some rq → rq_key rq = (ns, name)) as Hkey.
  { intros x rq Hx Hl. pose proof (ro_queue _ _ _ _ _ Hro) as Hq. rewrite Forall_forall in Hq.
    destruct (queued_key _ _ _ _ (Hq x Hx)) as (rq' & Hl' & Hk). congruence. }
  destruct (grant_first _ _ _ _) as [l1 [[[]|]|e]]; [| |done]; intros x rq Hx; simpl.
  - destruct Hloops as (pre & q' & Hlr). fold (second_loop (E := E) raced l1).
    set (l2 := second_loop raced l1) in *.
    destruct (decide (x ∈ (rl_deferred l2).*1)) as [Hd|Hd].
    + destruct (run_deferred_granted (rl_deferred l2) (rl_requests l2) ns name (currentLock (rl_resource l2)) x)
        as [o Ho]; [|done|by apply (lr_granted _ _ _ _ _ _ _ Hlr)|].
      { eapply sublist_NoDup; [|apply (lr_sub _ _ _ _ _ _ _ Hlr)].
        pose proof (ro_queue_nodup _ _ _ _ _ Hro) as Hndq. rewrite (lr_split _ _ _ _ _ _ _ Hlr) in Hndq.
        by apply NoDup_app in Hndq as [? _]. }
      eexists. split; [exact Ho|]. pose proof (lr_waited _ _ _ _ _ _ _ Hlr x Hd) as Hw. simpl in Hw.
      rewrite Hx in Hw. by injection Hw as ->.
    + rewrite run_deferred_other by done. destruct (decide (x ∈ pre)) as [Hp|Hp].
      * destruct (lr_canceled _ _ _ _ _ _ _ Hlr x Hp Hd) as (lt & _ & Hc). eexists. split; [exact Hc|].
        split; [|done]. rewrite (Hkey x rq); [done| |done]. rewrite (lr_split _ _ _ _ _ _ _ Hlr). set_solver.
      * rewrite (lr_other _ _ _ _ _ _ _ Hlr) by done. by exists rq.
  - destruct Hloops as [Hout Hcan]. rewrite Forall_forall in Hcan.
    destruct (decide (x ∈ queue r)) as [Hq|Hq]; [|rewrite Hout by done; by exists rq].
    destruct (Hcan x Hq) as (lt & _ & Hc). eexists. split; [exact Hc|]. split; [|done].
    by rewrite (Hkey x rq).
Qed.

Lemma step_evolves (c c' : Config) :
  inv c → step (E := E) c c' → requests_evolve (requests (mgr c)) (requests (mgr c')).
Proof.
  intros Hinv [al n f|n m|x n m l Hf|raced x n m Hin|x].
  - unfold registerNamespace. simpl. destruct (negb _); [apply evolve_refl|].
    case_match; apply evolve_refl.
  - unfold getResourceStatus. simpl. repeat (case_match; simpl); apply evolve_refl.
  - pose proof (evolve_register x n m l (mgr c) Hf) as H. unfold do_register.
    by destruct (registerResource x n m l (mgr c)).
  - pose proof (evolve_release raced x n m c Hinv Hin) as H. unfold do_release.
    by destruct (releaseResource raced n m (mgr c)).
  - apply evolve_cancel.
Qed.

Lemma steps_evolve (c c' : Config) :
  inv c → rtc (step (E := E)) c c' → inv c' ∧ requests_evolve (requests (mgr c)) (requests (mgr c')).
Proof.
  intros Hi H. induction H as [|x y z Hxy _ IH]; [by split; [|apply evolve_refl]|].
  destruct IH as [Hz Hev]; [by eapply inv_step|]. split; [done|].
  eapply evolve_trans; [by apply step_evolves|done].
Qed.

(** What a request in the store can look like. *)
Lemma request_shape (c : Config) rid rq :
  inv c → requests (mgr c) !! rid = Some rq →
  ∃ lt, lock_type_ok lt ∧
    (rq = Request_init (_namespace rq) (_name rq) lt ∨ rq = canceled_rq (_namespace rq) (_name rq) lt ∨
     ∃ o, rq = served_rq (_namespace rq) (_name rq) lt o).
Proof.
  intros Hi Hrq. destruct (ko_requests _ _ _ _ _ (Hi (_namespace rq) (_name rq)) rid _ Hrq eq_refl)
    as (lt & Hlt & H). exists lt. split; [done|]. naive_solver.
Qed.

Lemma canceled_never_held (c c' : Config) rid rq ns name :
  inv c → requests (mgr c) !! rid = Some rq → _isCanceled rq = true →
  rtc (step (E := E)) c c' → rid ∉ held_by (held c') ns name.
Proof.
  intros Hi Hrq Hc Hs Hin. destruct (steps_evolve _ _ Hi Hs) as [Hi' Hev].
  destruct (Hev rid rq Hrq) as (rq' & Hrq' & _ & Hc').
  destruct (resource_held _ _ _ _ Hi' Hin) as (n & r & _ & _ & Hro).
  destruct (ro_holders _ _ _ _ _ Hro rid Hin) as [o Ho]. rewrite Hrq' in Ho. injection Ho as ->.
  by specialize (Hc' Hc).
Qed.

(** ** Exclusion *)

(** C8: exclusion.  In every reachable state, a resource that nobody holds is
    not registered and is reported free; a registered one is held by as many
    requests as it counts users, each granted with the lock type of the
    resource, and an exclusive one by exactly one request; and releasing it
    through one of those requests does not raise. *)
Theorem resource_exclusion (w : W) (c : Config) (ns name : text) :
  reached w c →
  match resource_at (mgr c) ns name with
  | None => held_by (held c) ns name = []
  | Some r =>
      activeUsers r = zlen (held_by (held c) ns name) ∧ 0 < activeUsers r ∧
      NoDup (held_by (held c) ns name) ∧
      (currentLock r = SHARED ∨ currentLock r = EXCLUSIVE ∧ activeUsers r = 1) ∧
      (∀ rid, rid ∈ held_by (held c) ns name → ∃ rq, requests (mgr c) !! rid = Some rq ∧
         granted rq = true ∧ _namespace rq = ns ∧ _name rq = name ∧ _lockType rq = currentLock r) ∧
      (∀ raced, is_ok (snd (releaseResource (E := E) raced ns name (mgr c))) = true)
  end.
Proof.
  intros Hr%reachable_inv. pose proof (ko_resource _ _ _ _ _ (Hr ns name)) as Hro.
  destruct (resource_at (mgr c) ns name) as [r|]; [|done].
  pose proof (ro_held _ _ _ _ _ Hro) as Hne.
  split_and!; [by apply Hro| |by apply Hro| | |].
  - rewrite (ro_users _ _ _ _ _ Hro). unfold zlen. destruct (held_by (held c) ns name); [done|]. simpl. lia.
  - destruct (ro_lock _ _ _ _ _ Hro) as [?|Hx]; [by left|right]. split; [done|].
    rewrite (ro_users _ _ _ _ _ Hro). unfold zlen. by rewrite (ro_exclusive _ _ _ _ _ Hro Hx).
  - intros rid Hin. destruct (ro_holders _ _ _ _ _ Hro rid Hin) as [o Ho]. by eexists.
  - intros raced. destruct (held_by (held c) ns name) as [|rid hs] eqn:Eh; [done|].
    apply (inv_release c raced rid); [done|]. rewrite Eh. by left.
Qed.

(** ** The fate of requests *)

(** C9: no request is lost.  In every reachable state a request is in one of
    three situations: it waits, its callback has not been called, and it is in
    the queue of its resource, which some other request holds; or it was granted
    and its callback was called once, with a reference to its resource; or it was
    canceled and its callback was called once, with None.  A request that was
    canceled is never granted later. *)
Theorem request_fate (w : W) (c : Config) (rid : nat) (rq : Request (Obj := Obj)) :
  reached w c → requests (mgr c) !! rid = Some rq →
  (_status rq = str "waiting" ∧ _calls rq = [] ∧
     (∃ r, resource_at (mgr c) (_namespace rq) (_name rq) = Some r ∧ rid ∈ queue r) ∧
     ∃ holder, holder ∈ held_by (held c) (_namespace rq) (_name rq) ∧ holder ≠ rid) ∨
  (_status rq = str "granted" ∧
     ∃ ref, _calls rq = [Some ref] ∧ ref_namespace ref = _namespace rq ∧ ref_name ref = _name rq) ∨
  (_status rq = str "canceled" ∧ _calls rq = [None] ∧
     ∀ c' ns name, rtc (step (E := E)) c c' → rid ∉ held_by (held c') ns name).
Proof.
  intros Hr%reachable_inv Hrq. destruct rq as [ns name lt0 a b d cs]. simpl.
  pose proof (Hr ns name) as [Hreq Hres].
  destruct (Hreq rid _ Hrq eq_refl) as (lt & Hlt & [(Heq & r & Hat & Hin)|[Heq|[o Heq]]]);
    injection Heq as -> -> -> -> ->.
  - left. rewrite Hat in Hres. split_and!; [done|done|by exists r|].
    destruct (held_by (held c) ns name) as [|h hs] eqn:Eh; [by destruct (ro_held _ _ _ _ _ Hres)|].
    exists h. split; [by left|]. intros ->.
    destruct (ro_holders _ _ _ _ _ Hres rid ltac:(by left)) as [o Ho]. by rewrite Hrq in Ho.
  - right; right. split_and!; [done|done|]. intros c' ns' name' Hs.
    by apply (canceled_never_held c c' rid _ ns' name' Hr Hrq).
  - right; left. split; [done|]. by eexists.
Qed.

(** ** The outcome of a synchronous acquire *)

(** acquireResource, for a request that was registered, from the return of
    its wait on, whatever other calls happen between its two checks.  It returns
    a reference only for a request that was granted, and its callback has put the
    reference in the queue that the call reads; when it raises, timed out or
    failed, the request is canceled and never holds a resource later. *)
Theorem acquire_outcome (w : W) (c1 c2 : Config) (rid : nat) (rq : Request (Obj := Obj)) :
  reached w c1 → requests (mgr c1) !! rid = Some rq → rtc (step (E := E)) c1 c2 →
  match acquire_check (E := E) rid (mgr c1) with
  | Some r => ∃ ref, r = Ok [Some ref] ∧ ref_namespace ref = _namespace rq ∧ ref_name ref = _name rq
  | None =>
      let '(s', r) := acquire_cancel (E := E) rid (mgr c2) in
      match r with
      | Ok calls => (∃ ref, calls = [Some ref]) ∧ s' = mgr c2
      | Raise e => (e = RequestTimedOutError ∨ e = ResourceAcqusitionFailed) ∧
          ∀ c3 ns name, rtc (step (E := E)) (mkConfig s' (held c2)) c3 → rid ∉ held_by (held c3) ns name
      end
  end.
Proof.
  intros Hr%reachable_inv Hrq Hs. unfold acquire_check.
  rewrite (request_of_Some _ _ _ Hrq). destruct (granted rq) eqn:Hg.
  { destruct (request_shape _ _ _ Hr Hrq) as (lt & Hlt & [Heq|[Heq|[o Heq]]]); rewrite Heq in Hg |- *;
      [done|done|]. by eexists. }
  destruct (steps_evolve _ _ Hr Hs) as [Hi2 Hev]. destruct (Hev rid rq Hrq) as (rq2 & Hrq2 & _ & _).
  unfold acquire_cancel. rewrite (request_of_Some _ _ _ Hrq2).
  destruct (request_shape _ _ _ Hi2 Hrq2) as (lt & Hlt & [Heq|[Heq|[o Heq]]]); rewrite Heq; simpl.
  - split; [by left|]. intros c3 ns name Hs3. eapply canceled_never_held; [| | |exact Hs3].
    + pose proof (inv_cancel (E := E) _ rid Hi2) as Hic. unfold do_cancel in Hic.
      rewrite Heq in Hrq2. rewrite (client_cancel_waiting _ _ _ _ _ Hrq2) in Hic. exact Hic.
    + simpl. apply lookup_insert_eq.
    + done.
  - split; [by right|]. intros c3 ns name Hs3. destruct c2 as [s2 h2].
    apply (canceled_never_held _ _ _ _ ns name Hi2 Hrq2); [by rewrite Heq|done].
  - split; [by eexists|done].
Qed.

(** ** The order of the grants *)

(** The requests of a queue that are not canceled. *)
Definition waiting_of (rqs : gmap nat (Request (Obj := Obj))) (q : list nat) : list nat :=
  filter (fun rid => canceled (request_of rqs rid) = false) q.

(** The requests before the first exclusive one. *)
Fixpoint shared_prefix (rqs : gmap nat (Request (Obj := Obj))) (q : list nat) : list nat :=
  match q with
  | [] => []
  | x :: q' => if bool_decide (_lockType (request_of rqs x) = EXCLUSIVE) then [] else x :: shared_prefix rqs q'
  end.

Lemma shared_prefix_sub rqs q : shared_prefix rqs q ⊆ q.
Proof. induction q as [|x q IH]; [done|]. simpl. case_bool_decide; set_solver. Qed.

(** Who of the waiting requests [ws] gets the resource: the oldest; if it asked
    for a shared lock, also the shared requests that follow it, up to the first
    exclusive one, but for those being canceled. *)
Definition admitted (rqs : gmap nat (Request (Obj := Obj))) (raced ws : list nat) : list nat :=
  match ws with
  | [] => []
  | x :: rest =>
      if bool_decide (_lockType (request_of rqs x) = EXCLUSIVE) then [x]
      else x :: filter (.∉ raced) (shared_prefix rqs rest)
  end.

Lemma waiting_of_ext rqs rqs' q :
  (∀ x, x ∈ q → rqs' !! x = rqs !! x) →
  waiting_of rqs' q = waiting_of rqs q ∧ shared_prefix rqs' (waiting_of rqs' q) = shared_prefix rqs (waiting_of rqs q).
Proof.
  induction q as [|x q IH]; [done|]. intros Heq.
  destruct IH as [H1 H2]; [intros y Hy; apply Heq; by right|].
  assert (request_of rqs' x = request_of rqs x) as Hx by (unfold request_of; by rewrite Heq by by left).
  unfold waiting_of in *. rewrite !filter_cons, Hx. case_decide; [|done]. simpl. by rewrite H1, Hx, <- H2, H1.
Qed.

(** The resource without users and queue, which [_switchLockType] leaves alone. *)
Definition idle (r : ResourceInfo (Obj := Obj)) : ResourceInfo := mkInfo [] 0 (currentLock r) (realObj r).

(** Switching the resource [r] to the lock types of the requests [xs], one after
    the other, raises each time, and leaves the resource [r']. *)
Inductive refused_by (f : F) (name : text) (rqs : gmap nat (Request (Obj := Obj))) :
    ResourceInfo (Obj := Obj) → W → list nat → ResourceInfo (Obj := Obj) → W → Prop :=
| refused_nil r w : refused_by f name rqs r w [] r w
| refused_cons r w x e r1 w1 xs r' w' :
    _switchLockType (E := E) f name r (_lockType (request_of rqs x)) w = (w1, (r1, Raise e)) →
    refused_by f name rqs r1 w1 xs r' w' → refused_by f name rqs r w (x :: xs) r' w'.

Lemma switch_idle (f : F) name r lt w w' r' res :
  _switchLockType (E := E) f name r lt w = (w', (r', res)) →
  _switchLockType (E := E) f name (idle r) lt w = (w', (idle r', res)).
Proof.
  unfold _switchLockType, recreate, idle. simpl. intros H. repeat case_match; simplify_eq/=; try done;
    unfold _freeResource in *; simpl in *; simplify_eq/=; try done; repeat case_match; simplify_eq/=; congruence.
Qed.

Lemma refused_by_ext (f : F) name rqs rqs' r w xs r' w' :
  (∀ x, x ∈ xs → rqs' !! x = rqs !! x) → refused_by f name rqs' r w xs r' w' → refused_by f name rqs r w xs r' w'.
Proof.
  intros Heq H. induction H as [|r w x e r1 w1 xs r' w' Hsw H IH]; [constructor|].
  econstructor; [|apply IH; intros y Hy; apply Heq; by right]. rewrite <- Hsw.
  do 2 f_equal. unfold request_of. by rewrite Heq by by left.
Qed.

(** The first loop: the waiting requests the resource could not be switched to
    are canceled, and the next one is granted. *)
Lemma grant_first_order (f : F) ns name q (l : releasing (Obj := Obj) (W := W)) :
  NoDup q → Forall (queued (rl_requests l) ns name) q →
  ∃ l1 res refused rest r1 w1, grant_first (E := E) f name q l = (l1, Ok res) ∧
    waiting_of (rl_requests l) q = refused ++ rest ∧
    refused_by f name (rl_requests l) (idle (rl_resource l)) (rl_world l) refused r1 w1 ∧
    (∀ x, x ∈ refused → canceled_at (rl_requests l1) ns name x) ∧
    match rest with
    | [] => res = None
    | x :: rest' => res = Some () ∧ rl_deferred l1 = rl_deferred l ++ [(x, realObj (rl_resource l1))] ∧
        waiting_of (rl_requests l) (queue (rl_resource l1)) = rest' ∧
        (∃ pre, q = pre ++ queue (rl_resource l1) ∧ refused ⊆ pre ∧ x ∈ pre) ∧
        _switchLockType (E := E) f name r1 (_lockType (request_of (rl_requests l) x)) w1 =
          (rl_world l1, (idle (rl_resource l1), Ok ())) ∧
        ∀ y, y ∉ refused → y ≠ x → rl_requests l1 !! y = rl_requests l !! y
    end.
Proof.
  revert l. induction q as [|x q IH]; intros l Hnd Hq; simpl.
  { eexists _, None, [], [], _, _. split_and!; [done|done|constructor|set_solver|done]. }
  apply NoDup_cons in Hnd as [Hni Hnd]. apply Forall_cons in Hq as [(lt & Hlt & Hx) Hq].
  unfold waiting_of. rewrite filter_cons.
  destruct Hx as [Hx|Hx]; rewrite (request_of_Some _ _ _ Hx); simpl.
  2:{ destruct (IH (mkReleasing (set_queue q (set_queue (x :: q) (rl_resource l))) (rl_requests l) (rl_world l)
        (rl_deferred l)) Hnd Hq) as (l1 & res & refused & rest & r1 & w1 & -> & Hw & Href & Hcan & Hr).
      exists l1, res, refused, rest, r1, w1. simpl in *. split_and!; try done.
      destruct rest as [|y rest]; [done|]. destruct Hr as (H1 & H2 & H3 & (pre & Hpre & Hsub & Hy) & H5).
      split_and!; try done; try apply H5. exists (x :: pre). simpl. rewrite <- Hpre. split_and!; [done|set_solver..]. }
  destruct (_switchLockType _ _ _ _ _) as [w [r [[]|e]]] eqn:Hsw; pose proof (switch_idle _ _ _ _ _ _ _ _ Hsw) as Hid;
    apply switch_fields in Hsw as (Hq1 & _ & _).
  - eexists _, (Some ()), [], (x :: waiting_of (rl_requests l) q), _, _. split; [done|]. simpl in *. rewrite Hq1, (request_of_Some _ _ _ Hx). simpl.
    split_and!; [done|constructor|set_solver|done|done|done| |exact Hid|].
    + exists [x]. split_and!; [done|set_solver..].
    + intros y _ Hy. by rewrite lookup_insert_ne.
  - set (l0 := mkReleasing r _ w _). assert (∀ y, y ∈ q → rl_requests l0 !! y = rl_requests l !! y) as Hsame.
    { intros y Hy. simpl. rewrite lookup_insert_ne; [done|]. by intros ->. }
    destruct (IH l0 Hnd (queued_weaken _ _ _ _ _ Hsame Hq)) as (l1 & res & refused & rest & r1 & w1 & Hgf & Hw & Href & Hcan & Hr).
    assert (∀ q', q' ⊆ q → waiting_of (rl_requests l0) q' = waiting_of (rl_requests l) q') as Hwait.
    { intros q' Hq'. apply waiting_of_ext. intros y Hy. apply Hsame. set_solver. }
    rewrite Hwait in Hw by done. assert (∀ y, y ∈ refused ++ rest → y ∈ q) as Hin.
    { intros y. rewrite <- Hw. unfold waiting_of. intros [_ Hy]%list_elem_of_filter. done. }
    exists l1, res, (x :: refused), rest, r1, w1. split_and!; [done| | | |].
    + simpl. by rewrite <- Hw.
    + econstructor; [rewrite (request_of_Some _ _ _ Hx); exact Hid|]. eapply refused_by_ext; [|exact Href].
      intros y Hy. apply Hsame, Hin. set_solver.
    + intros y [->|Hy]%elem_of_cons; [|by apply Hcan]. exists lt. split; [done|].
      destruct (grant_first_spec f ns name q l0 Hnd (queued_weaken _ _ _ _ _ Hsame Hq)) as (l1' & r1' & Hgf' & Hout & _).
      rewrite Hgf in Hgf'. simplify_eq. rewrite Hout by done. simpl. by rewrite lookup_insert_eq.
    + destruct rest as [|y rest]; [done|]. destruct Hr as (H1 & H2 & H3 & (pre & Hpre & Hsub & Hy) & H5 & H6).
      assert (y ∈ q) as Hyq by (apply Hin; set_solver). split_and!; try done.
      * fold (waiting_of (rl_requests l) (queue (rl_resource l1))). rewrite <- Hwait; [done|]. rewrite Hpre. set_solver.
      * exists (x :: pre). rewrite Hpre. split_and!; [done|set_solver..].
      * rewrite <- H5. do 2 f_equal. unfold request_of. by rewrite Hsame.
      * intros z [Hz1 Hz2]%not_elem_of_cons Hz3. rewrite H6 by done. simpl. by rewrite lookup_insert_ne.
Qed.

Lemma grant_shared_order raced ns name q (l : releasing (Obj := Obj) (W := W)) :
  NoDup q → Forall (queued (rl_requests l) ns name) q →
  (rl_deferred (grant_shared (E := E) raced q l)).*1 =
    (rl_deferred l).*1 ++ filter (.∉ raced) (shared_prefix (rl_requests l) (waiting_of (rl_requests l) q)).
Proof.
  revert l. induction q as [|x q IH]; intros l Hnd Hq; simpl; [by rewrite app_nil_r|].
  apply NoDup_cons in Hnd as [Hni Hnd]. apply Forall_cons in Hq as [(lt & Hlt & Hx) Hq].
  assert (∀ l1 : releasing (Obj := Obj) (W := W), (∀ y, y ≠ x → rl_requests l1 !! y = rl_requests l !! y) →
    (rl_deferred (grant_shared (E := E) raced q l1)).*1 =
      (rl_deferred l1).*1 ++ filter (.∉ raced) (shared_prefix (rl_requests l) (waiting_of (rl_requests l) q))) as Hrest.
  { intros l1 Hsame. assert (∀ y, y ∈ q → rl_requests l1 !! y = rl_requests l !! y) as Hsame'.
    { intros y Hy. apply Hsame. by intros ->. }
    rewrite IH; [|done|by eapply queued_weaken].
    by rewrite (proj2 (waiting_of_ext _ _ _ Hsame')). }
  unfold waiting_of in *. rewrite filter_cons.
  destruct Hx as [Hx|Hx]; rewrite (request_of_Some _ _ _ Hx); simpl.
  2:{ by rewrite Hrest. }
  rewrite (request_of_Some _ _ _ Hx). simpl.
  case_bool_decide as Hex; [by rewrite app_nil_r|].
  rewrite filter_cons. case_bool_decide as Hrace.
  - unfold client_cancel. rewrite Hx. simpl. unfold request_of at 1. rewrite lookup_insert_eq. simpl.
    rewrite decide_False by (intros H; by apply H). rewrite Hrest; [done|]. simpl. intros y Hy.
    by rewrite lookup_insert_ne.
  - rewrite (request_of_Some _ _ _ Hx). simpl. rewrite decide_True by done.
    rewrite Hrest by (simpl; intros y Hy; by rewrite lookup_insert_ne). simpl.
    by rewrite fmap_app, <- app_assoc.
Qed.

(** C10: the order of the grants.  When the last user of a resource releases it,
    the requests of its queue that are not canceled are taken in the order in
    which they were made.  Some of the oldest may be refused, because switching the
    object of the resource to their lock type raises: exactly those are canceled,
    their callback called once with nothing.  Of the rest exactly the admitted
    ones are granted, in that order; when nothing is left the resource is dropped.
    Nothing is refused when the factory makes no object. *)
Theorem release_order (w : W) (c : Config) (raced : list nat) (ns name : text)
    (r : ResourceInfo (Obj := Obj)) :
  reached w c → resource_at (mgr c) ns name = Some r → activeUsers r = 1 →
  ∃ n refused rest r1 w1, _namespaces (mgr c) !! ns = Some n ∧
    waiting_of (requests (mgr c)) (queue r) = refused ++ rest ∧
    refused_by (factory n) name (requests (mgr c)) (idle r) (world (mgr c)) refused r1 w1 ∧
    (realObj r = None → refused = []) ∧
    let '(s', res) := releaseResource (E := E) raced ns name (mgr c) in
    res = Ok (admitted (requests (mgr c)) raced rest) ∧
    (rest = [] ↔ resource_at s' ns name = None) ∧
    (∀ x, x ∈ refused → canceled_at (requests s') ns name x) ∧
    (∀ x rest', rest = x :: rest' → ∃ w2 r2,
       _switchLockType (E := E) (factory n) name r1 (_lockType (request_of (requests (mgr c)) x)) w1 = (w2, (r2, Ok ()))).
Proof.
  intros Hi%reachable_inv Hat Hu. pose proof (ko_resource _ _ _ _ _ (Hi ns name)) as Hro.
  rewrite Hat in Hro. unfold resource_at in Hat.
  unfold releaseResource. destruct (_namespaces (mgr c) !! ns) as [n|]; [|done]. rewrite Hat. simpl.
  rewrite Hu. simpl. set (l := mkReleasing _ _ _ _).
  destruct (grant_first_order (factory n) ns name (queue r) l) as
    (l1 & res & refused & rest & r1 & w1 & Hgf & Hw & Href & Hcan & Hres); [by apply Hro|apply Hro|].
  exists n, refused, rest, r1, w1. rewrite Hgf. split_and!; [done|done|exact Href| |].
  { intros Ho. inversion Href as [|? ? x e r2 w2 xs ? ? Hsw]; [done|]. subst. unfold _switchLockType in Hsw. simpl in Hsw.
    rewrite Ho in Hsw. done. }
  simpl in Hres. destruct rest as [|x rest].
  { rewrite Hres. split_and!; [done| |exact Hcan|done]. split; [|done]. intros _. unfold resource_at. simpl.
    rewrite lookup_insert_eq. simpl. by rewrite lookup_delete_eq. }
  destruct Hres as (-> & Hd & Hrest & (pre & Hpre & Hsub & Hx) & Hsw & Hsame). simpl in *.
  pose proof (switch_fields _ _ _ _ _ _ _ _ Hsw) as (_ & _ & Hc). simpl in Hc. rewrite <- Hc.
  assert (∀ l', resource_at (finish_release ns name n l' (mgr c)) ns name = Some (rl_resource l')) as Hsome.
  { intros l'. unfold resource_at, finish_release. simpl.
    rewrite lookup_insert_eq. simpl. by rewrite lookup_insert_eq. }
  pose proof (ro_queue_nodup _ _ _ _ _ Hro) as Hndq. pose proof (ro_queue _ _ _ _ _ Hro) as Hq.
  assert (∀ y, y ∈ refused → y ∉ x :: rest) as Hxr.
  { assert (NoDup (refused ++ x :: rest)) as Hnd by (rewrite <- Hw; by apply NoDup_filter).
    apply NoDup_app in Hnd as (_ & Hnd & _). exact Hnd. }
  rewrite Hpre in Hndq, Hq. apply NoDup_app in Hndq as (_ & Hdisj & Hndq). apply Forall_app in Hq as [_ Hq].
  assert (∀ y, y ∈ queue (rl_resource l1) → rl_requests l1 !! y = requests (mgr c) !! y) as Hsame'.
  { intros y Hy. apply Hsame; [intros Hy'; apply (Hdisj y); [by apply Hsub|done]|intros ->; by apply (Hdisj x)]. }
  assert (∀ y rest', x :: rest = y :: rest' → ∃ w2 r2, _switchLockType (E := E) (factory n) name r1
      (_lockType (request_of (requests (mgr c)) y)) w1 = (w2, (r2, Ok ()))) as Hnext
    by (intros y rest' [= <- _]; by eexists _, _).
  case_bool_decide as Hex.
  - rewrite Hsome, Hd. split_and!; [done|by split| |done]. intros y Hy. destruct (Hcan y Hy) as (lt & Hlt & H).
    exists lt. split; [done|]. unfold finish_release. cbn [requests]. rewrite ?Hd, run_deferred_other; [done|]. specialize (Hxr y Hy). simpl. set_solver.
  - rewrite Hsome. pose proof (grant_shared_order raced ns name (queue (rl_resource l1)) l1 Hndq ltac:(by eapply queued_weaken)) as Hord.
    rewrite Hd, (proj2 (waiting_of_ext _ _ _ Hsame')), Hrest in Hord. simpl in Hord.
    split_and!; [by f_equal|by split| |done]. intros y Hy. destruct (Hcan y Hy) as (lt & Hlt & H).
    exists lt. split; [done|]. simpl. rewrite run_deferred_other.
    + destruct (grant_shared_spec (E := E) raced ns name (queue (rl_resource l1)) l1) as (pre' & q' & gs & Hq' & _ & _ & Hout & _);
        [done|by eapply queued_weaken|]. rewrite Hout; [done|]. intros Hy'. apply (Hdisj y); [by apply Hsub|]. rewrite Hq'. set_solver.
    + rewrite Hord. specialize (Hxr y Hy). pose proof (shared_prefix_sub (requests (mgr c)) rest).
      intros [->|[_ Hy']%list_elem_of_filter]%elem_of_cons; set_solver.
Qed.
End Spec.
