(* ===== verification/ResourceOwner.v ===== *)
(** * Resource owners: [Owner] of [storage/resourceManager.py]

    An owner, such as a task, collects references to resources and gives them
    back together.  The manager's calls and the hooks of the owner object are
    the interface [ResourceAPI]; [ResourceLaws] says which resources are held. *)
From Stdlib Require Import ZArith Lia.
From stdpp Require Import base gmap gmultiset list strings.
From S2P Require Import Prelude ResourceManager.

Inductive owner_error :=
| ResourceAlreadyAcquired | ResourceTimeout | BadResourceName | ResourceDoesNotExist
| ResourceException | NotOwned | ReleaseFailed.

(** A reference an owner keeps; it is valid until it is released. *)
Record OwnedRef := mkOwned {
  o_namespace : text;
  o_name : text;
  _isValid : bool;
}.

Definition full_name (r : OwnedRef) : text * text := (o_namespace r, o_name r).

Class ResourceAPI (S E : Type) := {
  (** the timeout is in seconds; the result is the reference's resource *)
  api_acquire : text → text → text → Z → M S (error E) unit;
  api_release : text → text → M S (error E) unit;
  (** the hooks of the owner object, when it has them *)
  resourceAcquired : option (text → text → text → M S (error E) unit);
  resourceReleased : option (text → text → M S (error E) unit);
}.

Section Owner.
  Context {S E : Type} `{!ResourceAPI S E}.

(** The owner's [resources], in the order of the dict, beside the manager. *)
Abbreviation OM A := (M (S * list OwnedRef) owner_error A).

(** The except clauses of [acquire]. *)
Definition acquire_error (e : error E) : owner_error :=
  match e with
  | RequestTimedOutError => ResourceTimeout
  | ValueError => BadResourceName
  | KeyError => ResourceDoesNotExist
  | _ => ResourceException
  end.

Definition hook_acquired (namespace name locktype : text) : M S (error E) unit :=
  match resourceAcquired with Some h => h namespace name locktype | None => mret () end.

Definition hook_released (namespace name : text) : M S (error E) unit :=
  match resourceReleased with Some h => h namespace name | None => mret () end.

(** The inner part of [acquire].  Without [timeout_ms] the local [timeout] is
    unbound: an Exception like the others.  Otherwise it is [timeout_ms / 1000.0],
    which [acquireResource] passes to [int]. *)
Definition acquire_ (namespace name locktype : text) (timeout_ms : option Z) : OM unit := fun '(s, refs) =>
  if bool_decide ((namespace, name) ∈ full_name <$> refs) then ((s, refs), Raise ResourceAlreadyAcquired)
  else match timeout_ms with
       | None => ((s, refs), Raise ResourceException)
       | Some ms =>
           match api_acquire namespace name locktype (Z.quot ms 1000) s with
           | (s1, Raise e) => ((s1, refs), Raise (acquire_error e))
           | (s1, Ok _) =>
               let refs := refs ++ [mkOwned namespace name true] in
               match hook_acquired namespace name locktype s1 with
               | (s2, Ok _) => ((s2, refs), Ok ())
               | (s2, Raise e) => ((s2, refs), Raise (acquire_error e))
               end
           end
       end.

Definition acquire (namespace name locktype : text) (timeout_ms : option Z) (raiseonfailure : bool) : OM bool := fun o =>
  match acquire_ namespace name locktype timeout_ms o with
  | (o', Ok _) => (o', Ok true)
  | (o', Raise e) => (o', if raiseonfailure then Raise e else Ok false)
  end.

Definition drop_ref (k : text * text) (refs : list OwnedRef) : list OwnedRef :=
  filter (fun r => full_name r ≠ k) refs.

(** [_release]; [resource.release()] is [ResourceRef.release] of a valid
    reference. *)
Definition _release (namespace name : text) : OM unit := fun '(s, refs) =>
  match list_find (fun r => full_name r = (namespace, name)) refs with
  | None => ((s, refs), Raise NotOwned)
  | Some (_, r) =>
      if negb (_isValid r) then ((s, refs), Ok ())
      else match api_release namespace name s with
           | (s1, Raise _) => ((s1, refs), Raise ReleaseFailed)
           | (s1, Ok _) =>
               let refs := drop_ref (namespace, name) refs in
               match hook_released namespace name s1 with
               | (s2, Ok _) => ((s2, refs), Ok ())
               | (s2, Raise _) => ((s2, refs), Raise ReleaseFailed)
               end
           end
  end.

Definition releaseAll : OM unit := fun '(s, refs) =>
  for_each refs (fun r => _release (o_namespace r) (o_name r)) (s, refs).
End Owner.

(** ** Nothing an owner acquired is left *)

(** What is held through the manager, with multiplicity: shared resources can be
    held many times. *)
Class ResourceLaws (S E : Type) `{!ResourceAPI S E} := {
  holding : S → gmultiset (text * text);
  api_acquire_holding namespace name lt t s s' r : api_acquire namespace name lt t s = (s', r) →
    holding s' = if is_ok r then {[+ (namespace, name) +]} ⊎ holding s else holding s;
  api_release_holding namespace name s s' r : api_release namespace name s = (s', r) →
    holding s' = if is_ok r then holding s ∖ {[+ (namespace, name) +]} else holding s;
  hook_acquired_holding namespace name lt s s' r :
    hook_acquired namespace name lt s = (s', r) → holding s' = holding s;
  hook_released_holding namespace name s s' r :
    hook_released namespace name s = (s', r) → holding s' = holding s;
}.

Section OwnerFacts.
  Context {S E : Type} `{ResourceLaws S E}.

Definition keys_of (refs : list OwnedRef) : gmultiset (text * text) := list_to_set_disj (full_name <$> refs).

Definition owner_ok (base : gmultiset (text * text)) (o : S * list OwnedRef) : Prop :=
  holding o.1 = keys_of o.2 ⊎ base ∧ NoDup (full_name <$> o.2) ∧ Forall (fun r => _isValid r = true) o.2.

Lemma drop_key (k : text * text) (A B : gmultiset (text * text)) : ({[+ k +]} ⊎ A ⊎ B) ∖ {[+ k +]} = A ⊎ B.
Proof. multiset_solver. Qed.

Lemma keys_of_snoc refs r : keys_of (refs ++ [r]) = {[+ full_name r +]} ⊎ keys_of refs.
Proof. unfold keys_of. rewrite fmap_app, list_to_set_disj_app. simpl. multiset_solver. Qed.

Lemma acquire_owner_ok base ns name lt t raise_ (o o' : S * list OwnedRef) r :
  owner_ok base o → acquire ns name lt t raise_ o = (o', r) →
  owner_ok base o' ∧ (r = Ok true → (ns, name) ∈ full_name <$> o'.2).
Proof.
  destruct o as [s refs]. intros (Hh & Hnd & Hv) Hacq. unfold acquire, acquire_ in Hacq.
  case_bool_decide as Hin; [destruct raise_; by simplify_eq|].
  destruct t as [ms|]; [|destruct raise_; by simplify_eq].
  destruct (api_acquire ns name lt (Z.quot ms 1000) s) as [s1 [[]|e]] eqn:Ea;
    pose proof (api_acquire_holding _ _ _ _ _ _ _ Ea) as Hh1; simpl in Hh, Hh1.
  2:{ destruct raise_; simplify_eq; (split; [|done]); (split_and!; [simpl; congruence|done..]). }
  destruct (hook_acquired ns name lt s1) as [s2 r2] eqn:Eh.
  pose proof (hook_acquired_holding _ _ _ _ _ _ Eh) as Hh2.
  assert (owner_ok base (s2, refs ++ [mkOwned ns name true])) as Hok.
  { split_and!; simpl.
    - rewrite Hh2, Hh1, Hh, keys_of_snoc. apply gmultiset_disj_union_assoc.
    - rewrite fmap_app. apply NoDup_app. split_and!; [done| |apply NoDup_singleton].
      intros x Hx ->%list_elem_of_singleton. by apply Hin.
    - apply Forall_app. split; [done|by repeat constructor]. }
  assert ((ns, name) ∈ full_name <$> (refs ++ [mkOwned ns name true])).
  { rewrite fmap_app. apply elem_of_app. right. by left. }
  destruct r2 as [[]|e]; destruct raise_; simplify_eq; by split.
Qed.

Lemma drop_ref_not_in k refs : k ∉ full_name <$> refs → drop_ref k refs = refs.
Proof.
  induction refs as [|r refs IH]; [done|]. simpl. intros [Hk Hn]%not_elem_of_cons. unfold drop_ref.
  rewrite filter_cons_True by congruence. f_equal. by apply IH.
Qed.

(** [releaseAll] releases the references one after the other; when it returns it
    has released them all. *)
Lemma releaseAll_loop base refs (s : S) (o : S * list OwnedRef) r :
  owner_ok base (s, refs) →
  for_each refs (fun r => _release (o_namespace r) (o_name r)) (s, refs) = (o, r) →
  match r with
  | Ok _ => o.2 = [] ∧ holding o.1 = base
  | Raise _ => owner_ok base o
  end.
Proof.
  revert s. induction refs as [|f refs IH]; intros s Hok Hrun; simpl in Hrun.
  { munfold Hrun. simplify_eq. destruct Hok as [Hh _]. simpl in *. split; [done|]. rewrite Hh.
    apply gmultiset_disj_union_left_id. }
  munfold Hrun. destruct Hok as (Hh & Hnd & Hv). simpl in Hh, Hnd.
  apply NoDup_cons in Hnd as [Hni Hnd]. apply Forall_cons in Hv as [Hvf Hv].
  unfold _release at 1 in Hrun. simpl in Hrun.
  rewrite decide_True in Hrun by done. rewrite Hvf in Hrun. simpl in Hrun.
  destruct (api_release (o_namespace f) (o_name f) s) as [s1 [[]|e]] eqn:Er;
    pose proof (api_release_holding _ _ _ _ _ Er) as Hh1; simpl in Hh1.
  2:{ simplify_eq. split_and!; simpl; [congruence|by constructor|by constructor]. }
  assert (drop_ref (o_namespace f, o_name f) (f :: refs) = refs) as Hdrop.
  { unfold drop_ref. rewrite filter_cons_False by (intros Hx; by apply Hx). by apply drop_ref_not_in. }
  rewrite Hdrop in Hrun.
  assert (∀ s2, holding s2 = holding s1 → owner_ok base (s2, refs)) as Hok2.
  { intros s2 Hs2. split_and!; [|done..]. simpl. rewrite Hs2, Hh1, Hh. unfold keys_of. simpl.
    apply drop_key. }
  destruct (hook_released (o_namespace f) (o_name f) s1) as [s2 [[]|e]] eqn:Eh;
    pose proof (hook_released_holding _ _ _ _ _ Eh) as Hh2.
  - by apply (IH s2); [apply Hok2|].
  - simplify_eq. by apply Hok2.
Qed.

(** The calls an owner's client makes before it lets go. *)
Record acquire_call := mkCall {
  c_namespace : text; c_name : text; c_locktype : text; c_timeout : option Z; c_raise : bool }.

Fixpoint acquire_all (calls : list acquire_call) (o : S * list OwnedRef) : S * list OwnedRef :=
  match calls with
  | [] => o
  | c :: calls' =>
      acquire_all calls' (fst (acquire (c_namespace c) (c_name c) (c_locktype c) (c_timeout c) (c_raise c) o))
  end.

Lemma acquire_all_ok base calls (o : S * list OwnedRef) : owner_ok base o → owner_ok base (acquire_all calls o).
Proof.
  revert o. induction calls as [|c calls IH]; intros o Ho; [done|]. simpl. apply IH.
  destruct (acquire _ _ _ _ _ o) as [o' r] eqn:Ea. by apply (acquire_owner_ok _ _ _ _ _ _ _ _ _ Ho Ea).
Qed.

(** C11: an owner leaks nothing.  Whatever resources a new owner was asked to
    acquire, and whichever of those calls succeeded, timed out, failed in the
    manager or failed in the owner's hook after the resource was granted: when
    releaseAll returns, the owner has no resource left and exactly the resources
    held before are held; when it raises, the owner still knows every resource it
    holds, so that releaseAll can be called again. *)
Theorem owner_no_leak (s : S) (calls : list acquire_call) :
  let '(o, r) := releaseAll (acquire_all calls (s, [])) in
  match r with
  | Ok _ => o.2 = [] ∧ holding o.1 = holding s
  | Raise _ => holding o.1 = keys_of o.2 ⊎ holding s
  end.
Proof.
  assert (owner_ok (holding s) (s, [])) as Hok.
  { split_and!; [|constructor..]. symmetry. apply gmultiset_disj_union_left_id. }
  apply (acquire_all_ok _ calls) in Hok. destruct (acquire_all calls (s, [])) as [s1 refs].
  unfold releaseAll. destruct (for_each _ _ _) as [o r] eqn:Er.
  pose proof (releaseAll_loop _ _ _ _ _ Hok Er) as Hr. destruct r; [done|apply Hr].
Qed.

(** Owner.acquire without a timeout never acquires anything, although
    acquireResource waits without a limit when it gets no timeout; and a timeout
    below one second is passed on as zero seconds. *)
Lemma owner_timeout (ns name lt : text) (ms : Z) (refs : list OwnedRef) (s : S) :
  acquire ns name lt None false (s, refs) = ((s, refs), Ok false) ∧
  (0 ≤ ms < 1000 → (ns, name) ∉ full_name <$> refs →
     ∀ r s', acquire_ ns name lt (Some ms) (s, refs) = (s', r) →
       ∃ s1 r1, api_acquire ns name lt 0 s = (s1, r1) ∧ (is_ok r1 = false → is_ok r = false)).
Proof.
  split.
  - unfold acquire, acquire_. by case_bool_decide.
  - intros Hms Hn r s' Ha. unfold acquire_ in Ha. rewrite bool_decide_eq_false_2 in Ha by done.
    rewrite Z.quot_small in Ha by lia. destruct (api_acquire ns name lt 0 s) as [s1 [[]|e]]; [by eexists _, _|].
    simplify_eq. by eexists _, _.
Qed.
End OwnerFacts.
