(* ===== verification/ResourceWitness.v ===== *)
(** * Resource manager: concrete executions

    A manager whose namespaces use [SimpleResourceFactory], with one shared user
    of a resource and two requests in its queue; and an owner over a table of
    resources. *)
From Stdlib Require Import ZArith Lia.
From stdpp Require Import base gmap gmultiset list strings relations.
From S2P Require Import Prelude ResourceManager ResourceFacts ResourceSpec ResourceOwner.

Definition ns_a : text := str "storage".
Definition img : text := str "image-1".

Abbreviation SConfig := (config (F := unit) (Obj := unit) (W := unit)).

Definition c0 : SConfig :=
  mkConfig (fst (registerNamespace (E := unit) (fun _ => false) ns_a () (mgr (init ())))) ∅.

(** Request 0 holds the resource shared; 1 asked for it exclusively, 2 shared. *)
Definition c3 : SConfig :=
  do_register 2 ns_a img SHARED (do_register 1 ns_a img EXCLUSIVE (do_register 0 ns_a img SHARED c0)).

Lemma c3_reachable : reachable (E := unit) () c3.
Proof.
  unfold reachable, c3.
  eapply rtc_r; [|apply (step_register (E := unit)); vm_compute; reflexivity].
  eapply rtc_r; [|apply (step_register (E := unit)); vm_compute; reflexivity].
  eapply rtc_r; [|apply (step_register (E := unit)); vm_compute; reflexivity].
  apply rtc_once. apply (step_namespace (E := unit) (init ()) (fun _ => false) ns_a ()).
Qed.

Definition r3 : ResourceInfo (Obj := unit) := mkInfo [1%nat; 2%nat] 1 SHARED None.

Lemma c3_resource : resource_at (mgr c3) ns_a img = Some r3.
Proof. vm_compute. reflexivity. Qed.

Lemma resource_exclusion_witness :
  activeUsers r3 = zlen (held_by (held c3) ns_a img) ∧
  ∀ rid, rid ∈ held_by (held c3) ns_a img → ∃ rq, requests (mgr c3) !! rid = Some rq ∧ _lockType rq = SHARED.
Proof.
  pose proof (resource_exclusion (E := unit) () c3 ns_a img c3_reachable) as H.
  rewrite c3_resource in H. destruct H as (H1 & _ & _ & _ & H5 & _). split; [exact H1|].
  intros rid Hin. destruct (H5 rid Hin) as (rq & Hl & _ & _ & _ & Hlt). exists rq. split; [exact Hl|exact Hlt].
Defined.

Lemma request_fate_witness :
  ∃ holder, holder ∈ held_by (held c3) ns_a img ∧ holder ≠ 1%nat.
Proof.
  pose proof (request_fate (E := unit) () c3 1 (Request_init ns_a img EXCLUSIVE) c3_reachable
    ltac:(vm_compute; reflexivity)) as H.
  destruct H as [(_ & _ & _ & H)|[(H & _)|(H & _)]]; [exact H|vm_compute in H; discriminate|vm_compute in H; discriminate].
Defined.

Lemma acquire_outcome_witness :
  let '(s', r) := acquire_cancel (E := unit) 1 (mgr c3) in
  r = Raise RequestTimedOutError ∧
  ∀ c ns name, rtc (step (E := unit)) (mkConfig s' (held c3)) c → 1%nat ∉ held_by (held c) ns name.
Proof.
  pose proof (acquire_outcome (E := unit) () c3 c3 1 (Request_init ns_a img EXCLUSIVE) c3_reachable
    ltac:(vm_compute; reflexivity) (rtc_refl _ _)) as H.
  change (acquire_check 1 (mgr c3)) with
    (None : option (res (error unit) (list (option (ResourceRef unit))))) in H.
  destruct (acquire_cancel 1 (mgr c3)) as [s' r] eqn:E.
  assert (r = Raise RequestTimedOutError) as ->.
  { apply (f_equal snd) in E. vm_compute in E. symmetry. exact E. }
  split; [reflexivity|apply H].
Defined.

Lemma release_order_witness :
  snd (releaseResource (E := unit) [] ns_a img (mgr c3)) = Ok [1%nat].
Proof.
  destruct (release_order (E := unit) () c3 [] ns_a img r3 c3_reachable c3_resource eq_refl)
    as (n & refused & rest & r1 & w1 & _ & Hw & _ & Href & H).
  rewrite (Href eq_refl) in Hw. destruct (releaseResource [] ns_a img (mgr c3)) as [s' r]. destruct H as [-> _].
  cbn [app] in Hw. rewrite <- Hw. vm_compute. reflexivity.
Defined.

(** ** An owner over a table *)

(** The resources held, with multiplicity; the name ["busy"] times out. *)
#[local] Instance table_api : ResourceAPI (gmultiset (text * text)) unit := {
  api_acquire ns name _ _ s :=
    if decide (name = str "busy") then (s, Raise RequestTimedOutError) else ({[+ (ns, name) +]} ⊎ s, Ok ());
  api_release ns name s := (s ∖ {[+ (ns, name) +]}, Ok ());
  resourceAcquired := None;
  resourceReleased := None;
}.

#[local] Instance table_laws : ResourceLaws (gmultiset (text * text)) unit.
Proof.
  refine {| holding s := s |}.
  - intros ns name lt t s s' r. simpl. case_decide; intros [= <- <-]; done.
  - intros ns name s s' r [= <- <-]. done.
  - intros ns name lt s s' r [= <- <-]. done.
  - intros ns name s s' r [= <- <-]. done.
Defined.

Lemma owner_no_leak_witness :
  let '(o, r) := releaseAll (E := unit) (acquire_all
    [mkCall ns_a img SHARED (Some 5000) true; mkCall ns_a (str "busy") SHARED (Some 5000) false]
    (∅ : gmultiset (text * text), [])) in
  match r with
  | Ok _ => o.2 = [] ∧ o.1 = ∅
  | Raise _ => o.1 = keys_of o.2 ⊎ ∅
  end.
Proof.
  exact (owner_no_leak (E := unit) (∅ : gmultiset (text * text))
    [mkCall ns_a img SHARED (Some 5000) true; mkCall ns_a (str "busy") SHARED (Some 5000) false]).
Defined.
