(* ===== verification/Text.v ===== *)
(** * Python dicts, lines and encodings

    Insertion-ordered dicts with text keys, [split], [splitlines], and the round
    trip of UTF-8, shared by the metadata formats and the message parsers. *)
From Stdlib Require Import ZArith Lia.
From stdpp Require Import base gmap list strings.
From S2P Require Import Prelude.

(** ** Dicts *)

Section Dict.
  Context {V : Type}.

(** A dict: its items, in the order in which the keys were inserted. *)
Abbreviation dict := (list (text * V)).

Fixpoint dict_get (k : text) (d : dict) : option V :=
  match d with
  | [] => None
  | (k', v) :: d' => if decide (k = k') then Some v else dict_get k d'
  end.

(** [d[k] = v]: in place when the key is there, else at the end. *)
Fixpoint dict_set (k : text) (v : V) (d : dict) : dict :=
  match d with
  | [] => [(k, v)]
  | (k', v') :: d' => if decide (k = k') then (k, v) :: d' else (k', v') :: dict_set k v d'
  end.

(** [del d[k]] of a key that is there; [d.pop(k, None)] *)
Definition dict_del (k : text) (d : dict) : dict := filter (fun kv => kv.1 ≠ k) d.

(** [d.update(e)] *)
Definition dict_update (e d : dict) : dict := foldl (fun d '(k, v) => dict_set k v d) d e.

Definition dict_keys (d : dict) : list text := d.*1.

Definition dict_mem (k : text) (d : dict) : bool := bool_decide (is_Some (dict_get k d)).

Lemma dict_get_set_eq k v d : dict_get k (dict_set k v d) = Some v.
Proof.
  induction d as [|[k' v'] d IH]; simpl; [by rewrite decide_True|].
  case_decide; simpl; [by rewrite decide_True|by rewrite decide_False].
Qed.

Lemma dict_get_set_ne k k' v d : k ≠ k' → dict_get k (dict_set k' v d) = dict_get k d.
Proof.
  intros Hne. induction d as [|[k0 v0] d IH]; simpl; [by rewrite decide_False|].
  destruct (decide (k' = k0)) as [<-|]; simpl; [by rewrite !decide_False|].
  by rewrite IH.
Qed.

Lemma dict_get_elem k v d : dict_get k d = Some v → (k, v) ∈ d.
Proof.
  induction d as [|[k' v'] d IH]; simpl; [done|]. case_decide; [intros [= <-]; subst; by left|].
  intros Hg. right. auto.
Qed.

Lemma dict_get_None k d : dict_get k d = None ↔ k ∉ dict_keys d.
Proof.
  induction d as [|[k' v'] d IH]; simpl; [set_solver|].
  case_decide; subst; set_solver.
Qed.

Lemma dict_get_unique k v d : NoDup (dict_keys d) → (k, v) ∈ d → dict_get k d = Some v.
Proof.
  induction d as [|[k' v'] d IH]; simpl; [by intros _ ?%elem_of_nil|].
  intros [Hni Hnd]%NoDup_cons [[= -> ->]|Hin]%elem_of_cons; [by rewrite decide_True|].
  rewrite decide_False; [by apply IH|]. intros ->. apply Hni. apply list_elem_of_fmap. by exists (k', v).
Qed.

Lemma dict_set_keys k v d :
  dict_keys (dict_set k v d) = if dict_mem k d then dict_keys d else dict_keys d ++ [k].
Proof.
  unfold dict_mem. induction d as [|[k' v'] d IH]; simpl; [done|].
  destruct (decide (k = k')) as [->|Hne]; simpl; [done|].
  rewrite IH. by case_bool_decide.
Qed.

Lemma dict_set_nodup k v d : NoDup (dict_keys d) → NoDup (dict_keys (dict_set k v d)).
Proof.
  intros Hnd. rewrite dict_set_keys. unfold dict_mem. case_bool_decide as Hm; [done|].
  apply NoDup_app. split_and!; [done| |apply NoDup_singleton].
  intros x Hx ->%list_elem_of_singleton. apply Hm.
  destruct (dict_get k d) eqn:E; [done|]. by apply dict_get_None in E.
Qed.

Lemma dict_get_del_eq k d : dict_get k (dict_del k d) = None.
Proof.
  apply dict_get_None. unfold dict_keys, dict_del. intros ([k' v] & -> & [Hk _]%list_elem_of_filter)%list_elem_of_fmap.
  by apply Hk.
Qed.

Lemma dict_get_del_ne k k' d : k ≠ k' → dict_get k (dict_del k' d) = dict_get k d.
Proof.
  intros Hne. induction d as [|[k0 v0] d IH]; [done|]. unfold dict_del in *. rewrite filter_cons. simpl.
  case_decide as Hd; simpl; [by rewrite IH|]. subst. by rewrite decide_False.
Qed.

Lemma dict_del_nodup k d : NoDup (dict_keys d) → NoDup (dict_keys (dict_del k d)).
Proof.
  unfold dict_keys, dict_del. intros Hnd. induction d as [|[k0 v0] d IH]; [done|]. rewrite filter_cons.
  simpl in Hnd. apply NoDup_cons in Hnd as [Hni Hnd]. case_decide; [|by apply IH]. simpl.
  apply NoDup_cons. split; [|by apply IH].
  intros ([k1 v1] & -> & [_ Hf]%list_elem_of_filter)%list_elem_of_fmap. apply Hni.
  apply list_elem_of_fmap. by exists (k1, v1).
Qed.

Lemma dict_get_update e d k :
  NoDup (dict_keys e) →
  dict_get k (dict_update e d) = match dict_get k e with Some v => Some v | None => dict_get k d end.
Proof.
  revert d. induction e as [|[k' v'] e IH]; intros d Hnd; [done|]. simpl in *.
  apply NoDup_cons in Hnd as [Hni Hnd]. unfold dict_update in *. simpl. rewrite IH by done.
  destruct (decide (k = k')) as [->|Hne].
  - apply dict_get_None in Hni. by rewrite Hni, dict_get_set_eq.
  - by rewrite dict_get_set_ne.
Qed.
End Dict.

(** ** Splitting *)

(** [s.split(c, 1)] when [c] occurs. *)
Fixpoint split_first (c : Z) (s : text) : option (text * text) :=
  match s with
  | [] => None
  | x :: s' =>
      if x =? c then Some ([], s')
      else match split_first c s' with Some (a, b) => Some (x :: a, b) | None => None end
  end.

(** [s.split(c)] *)
Fixpoint split_all (c : Z) (s : text) : list text :=
  match s with
  | [] => [[]]
  | x :: s' =>
      match split_all c s' with
      | [] => [[]]
      | w :: ws => if x =? c then [] :: w :: ws else (x :: w) :: ws
      end
  end.

(** [b.splitlines()] of a bytes object: lines end with CR, LF or CRLF. *)
Fixpoint splitlines_from (line : bytes) (b : bytes) : list bytes :=
  match b with
  | [] => match line with [] => [] | _ => [line] end
  | 10 :: b' => line :: splitlines_from [] b'
  | 13 :: b' =>
      line :: match b' with 10 :: b'' => splitlines_from [] b'' | _ => splitlines_from [] b' end
  | c :: b' => splitlines_from (line ++ [c]) b'
  end.

Definition splitlines (b : bytes) : list bytes := splitlines_from [] b.

Definition no_newline (b : list Z) : Prop := 10 ∉ b ∧ 13 ∉ b.

Lemma split_first_app c a b : c ∉ a → split_first c (a ++ c :: b) = Some (a, b).
Proof.
  induction a as [|x a IH]; intros Hn; simpl; [by rewrite Z.eqb_refl|].
  apply not_elem_of_cons in Hn as [Hx Hn]. rewrite (proj2 (Z.eqb_neq x c)) by congruence. by rewrite IH.
Qed.

Lemma splitlines_line line b rest :
  no_newline b → splitlines_from line (b ++ 10 :: rest) = (line ++ b) :: splitlines rest.
Proof.
  revert line. induction b as [|c b IH]; intros line [H1 H2].
  - by rewrite app_nil_r.
  - apply not_elem_of_cons in H1 as [Hc1 H1]. apply not_elem_of_cons in H2 as [Hc2 H2].
    assert (splitlines_from line ((c :: b) ++ 10 :: rest) = splitlines_from (line ++ [c]) (b ++ 10 :: rest)) as ->.
    { simpl. destruct c as [|p|p]; try done.
      destruct p as [[[[|p|]|[p|p|]|]|[[|p|]|[p|p|]|]|]|[[[|p|]|[p|p|]|]|[[|p|]|[p|p|]|]|]|]; try done. }
    rewrite IH by done. by rewrite <- app_assoc.
Qed.

(** ** UTF-8 *)

(** Decide the comparisons of the goal by linear arithmetic. *)
Ltac zcmp :=
  repeat (match goal with
    | |- context [?a <=? ?b] =>
        first [rewrite (proj2 (Z.leb_le a b)) by lia | rewrite (proj2 (Z.leb_gt a b)) by lia]
    | |- context [?a <? ?b] =>
        first [rewrite (proj2 (Z.ltb_lt a b)) by lia | rewrite (proj2 (Z.ltb_ge a b)) by lia]
    end; cbn [andb orb negb]).

Lemma utf8_decode_encode1 c e rest :
  utf8_encode1 c = Some e → utf8_decode (e ++ rest) = cons c <$> utf8_decode rest.
Proof.
  unfold utf8_encode1. destruct ((c <? 0) || _ || _) eqn:Hbad; [done|].
  apply orb_false_iff in Hbad as [Hbad Hsur]. boolp.
  assert (c < 55296 ∨ 57343 < c) as Hs.
  { unfold is_surrogate in Hsur. destruct (Z.leb_spec 55296 c), (Z.leb_spec c 57343); lia || done. }
  destruct (Z.ltb_spec c 128); [intros [= <-]|destruct (Z.ltb_spec c 2048); [intros [= <-]|
    destruct (Z.ltb_spec c 65536); intros [= <-]]]; cbn [app utf8_decode].
  - by zcmp.
  - assert (0 <= c mod 64 < 64 ∧ 2 <= c / 64 < 32 ∧ c = 64 * (c / 64) + c mod 64) as (Hm & Hq & He) by divlia.
    generalize dependent (c / 64). generalize dependent (c mod 64). intros m Hm q Hq He. unfold is_cont.
    zcmp. do 2 f_equal. lia.
  - assert (0 <= c mod 64 < 64 ∧ 0 <= c / 64 mod 64 < 64 ∧ 0 <= c / 4096 < 16 ∧
      c = 4096 * (c / 4096) + 64 * (c / 64 mod 64) + c mod 64) as (Hm & Hq & Hr & He) by divlia.
    generalize dependent (c / 4096). generalize dependent (c / 64 mod 64). generalize dependent (c mod 64).
    intros m Hm q Hq r Hr He. unfold is_cont, is_surrogate.
    replace ((224 + r - 224) * 4096 + (128 + q - 128) * 64 + (128 + m - 128)) with c by lia.
    destruct Hs; by zcmp.
  - assert (0 <= c mod 64 < 64 ∧ 0 <= c / 64 mod 64 < 64 ∧ 0 <= c / 4096 mod 64 < 64 ∧ 0 <= c / 262144 < 5 ∧
      c = 262144 * (c / 262144) + 4096 * (c / 4096 mod 64) + 64 * (c / 64 mod 64) + c mod 64)
      as (Hm & Hq & Hr & Hp & He) by divlia.
    generalize dependent (c / 262144). generalize dependent (c / 4096 mod 64).
    generalize dependent (c / 64 mod 64). generalize dependent (c mod 64).
    intros m Hm q Hq r Hr p Hp He. unfold is_cont.
    replace ((240 + p - 240) * 262144 + (128 + r - 128) * 4096 + (128 + q - 128) * 64 + (128 + m - 128)) with c by lia.
    by zcmp.
Qed.

Lemma utf8_roundtrip s b : utf8_encode s = Some b → utf8_decode b = Some s.
Proof.
  revert b. induction s as [|c s IH]; intros b; cbn [utf8_encode]; [by intros [= <-]|].
  destruct (utf8_encode1 c) as [e|] eqn:Ee; [|done]. destruct (utf8_encode s) as [r|]; [|done].
  cbn. intros [= <-]. rewrite (utf8_decode_encode1 _ _ _ Ee), IH; done.
Qed.

Lemma utf8_encode_app s t :
  utf8_encode (s ++ t) = a ← utf8_encode s; b ← utf8_encode t; Some (a ++ b).
Proof.
  induction s as [|c s IH]; cbn [utf8_encode app]; [by destruct (utf8_encode t)|].
  rewrite IH. destruct (utf8_encode1 c), (utf8_encode s), (utf8_encode t); cbn; try done.
  by rewrite app_assoc.
Qed.

(** The bytes of a code point beyond ASCII are beyond ASCII. *)
Lemma utf8_encode1_ascii c e x : utf8_encode1 c = Some e → x ∈ e → x < 128 → x = c.
Proof.
  unfold utf8_encode1. destruct ((c <? 0) || _ || _) eqn:Hbad; [done|]. intros He Hin Hx.
  boolp. repeat case_match; simplify_eq/=; boolp;
    repeat (apply elem_of_cons in Hin as [->|Hin]; [first [done|exfalso; divlia]|]); by apply elem_of_nil in Hin.
Qed.

Lemma utf8_encode_ascii_mem s b x : utf8_encode s = Some b → x ∈ b → x < 128 → x ∈ s.
Proof.
  revert b. induction s as [|c s IH]; intros b; cbn [utf8_encode].
  { by intros [= <-] ?%elem_of_nil. }
  destruct (utf8_encode1 c) as [e|] eqn:Ee; [|done]. destruct (utf8_encode s) as [r|]; [|done].
  cbn. intros [= <-] [Hin|Hin]%elem_of_app Hx.
  - apply elem_of_cons. left. by eapply utf8_encode1_ascii.
  - apply elem_of_cons. right. by eapply IH.
Qed.

Lemma utf8_no_newline s b : utf8_encode s = Some b → no_newline s → no_newline b.
Proof. intros He [H1 H2]. split; intros Hin; [apply H1|apply H2]; by eapply utf8_encode_ascii_mem. Qed.
