(* ===== verification/VolumeMetadata.v ===== *)
(** * Volume metadata: [storage/volumemetadata.py]

    Parsing and formatting of the metadata of a volume, down to the bytes of its
    512 byte slot on storage. *)
From Stdlib Require Import ZArith Lia.
From stdpp Require Import base gmap list strings.
From S2P Require Import Prelude Text.

(** Constants of [storage/constants.py]. *)
Definition BLOCK_SIZE_512 : Z := 512.
Definition METADATA_SIZE : Z := BLOCK_SIZE_512.
Definition DESCRIPTION_SIZE : Z := 210.
Definition DEFAULT_GENERATION : Z := 0.

Definition CAPACITY : text := str "CAP".
Definition TYPE : text := str "TYPE".
Definition FORMAT : text := str "FORMAT".
Definition DISKTYPE : text := str "DISKTYPE".
Definition VOLTYPE : text := str "VOLTYPE".
Definition PUUID : text := str "PUUID".
Definition DOMAIN : text := str "DOMAIN".
Definition CTIME : text := str "CTIME".
Definition IMAGE : text := str "IMAGE".
Definition DESCRIPTION : text := str "DESCRIPTION".
Definition LEGALITY : text := str "LEGALITY".
Definition MTIME : text := str "MTIME".
Definition GENERATION : text := str "GEN".
Definition _SIZE : text := str "SIZE".

Record VolumeMetadata := mkMetadata {
  domain : text;
  image : text;
  puuid : text;
  capacity : Z;
  format : text;
  type : text;
  voltype : text;
  disktype : text;
  description : text;
  legality : text;
  ctime : Z;
  generation : Z;
}.

Inductive error :=
| UnicodeDecodeError | UnicodeEncodeError | ValueError
| KeyError (key : text)
| MetadataCleared | MetaDataKeyNotFoundError (key : text)
| MetadataOverflowError (data : bytes).

(** [validate_description] *)
Definition validate_description (desc : text) : text :=
  if DESCRIPTION_SIZE <? zlen desc then slice 0 DESCRIPTION_SIZE desc else desc.

(** [__init__]: the description is validated, the rest is kept. *)
Definition VolumeMetadata_init (domain image puuid : text) (capacity : Z)
    (format type voltype disktype description legality : text) (ctime generation : Z) : VolumeMetadata :=
  mkMetadata domain image puuid capacity format type voltype disktype
    (validate_description description) legality ctime generation.

(** ** Parsing *)

Definition strip : text → text := stripp is_space_u.

(** The loop of [from_lines]. *)
Fixpoint parse_lines (lines : list bytes) (md : list (text * text)) : res error (list (text * text)) :=
  match lines with
  | [] => Ok md
  | line :: lines' =>
      match utf8_decode line with
      | None => Raise UnicodeDecodeError
      | Some line =>
          if prefixb (str "EOF") line then Ok md
          else match split_first 61 line with
               | None => parse_lines lines' md
               | Some (key, value) => parse_lines lines' (dict_set (strip key) (strip value) md)
               end
      end
  end.

(** [md[key]] *)
Definition item (md : list (text * text)) (key : text) : res error text :=
  match dict_get key md with Some v => Ok v | None => Raise (KeyError key) end.

(** [int(s)] *)
Definition int (s : text) : res error Z :=
  match py_int_str s with Some n => Ok n | None => Raise ValueError end.

(** The body of the try statement of [from_lines]. *)
Definition from_dict (md : list (text * text)) : res error VolumeMetadata :=
  capacity ← (if dict_mem CAPACITY md then v ← item md CAPACITY; int v
              else v ← item md _SIZE; n ← int v; mret (n * BLOCK_SIZE_512));
  domain ← item md DOMAIN;
  image ← item md IMAGE;
  puuid ← item md PUUID;
  format ← item md FORMAT;
  type ← item md TYPE;
  voltype ← item md VOLTYPE;
  disktype ← item md DISKTYPE;
  description ← item md DESCRIPTION;
  legality ← item md LEGALITY;
  v ← item md CTIME;
  ctime ← int v;
  generation ← match dict_get GENERATION md with Some v => int v | None => mret DEFAULT_GENERATION end;
  mret (VolumeMetadata_init domain image puuid capacity format type voltype disktype description
          legality ctime generation).

Definition from_lines (lines : list bytes) : res error VolumeMetadata :=
  md ← parse_lines lines [];
  match from_dict md with
  | Raise (KeyError key) =>
      if dict_mem (str "NONE") md then Raise MetadataCleared else Raise (MetaDataKeyNotFoundError key)
  | r => r
  end.

(** ** Formatting *)

Definition info_of (md : VolumeMetadata) (domain_version : Z) : list (text * text) :=
  let info :=
    [(CTIME, str_d (ctime md)); (DESCRIPTION, description md); (DISKTYPE, disktype md);
     (DOMAIN, domain md); (FORMAT, format md); (GENERATION, str_d (generation md));
     (IMAGE, image md); (LEGALITY, legality md); (PUUID, puuid md); (TYPE, type md);
     (VOLTYPE, voltype md)] in
  if domain_version <? 5 then
    dict_set _SIZE (str_d (capacity md / BLOCK_SIZE_512)) (dict_set MTIME (str_d 0) info)
  else dict_set CAPACITY (str_d (capacity md)) info.

(** ["%s=%s\n" % (key, info[key])] *)
Definition format_item (info : list (text * text)) (key : text) : text :=
  key ++ str "=" ++ default [] (dict_get key info) ++ [10].

Definition storage_text (info : list (text * text)) : text :=
  concat (format_item info <$> py_sorted text_ltb (dict_keys info)) ++ str "EOF" ++ [10].

Definition storage_format (md : VolumeMetadata) (domain_version : Z) (overrides : list (text * text))
    : res error bytes :=
  let info := dict_update overrides (info_of md domain_version) in
  match utf8_encode (storage_text info) with
  | None => Raise UnicodeEncodeError
  | Some data => if METADATA_SIZE <? zlen data then Raise (MetadataOverflowError data) else Ok data
  end.

(** ** The dict interface *)

Inductive value := VText (s : text) | VInt (n : Z).

(** [__getitem__] *)
Definition getitem (md : VolumeMetadata) (k : text) : res error value :=
  if decide (k = FORMAT) then Ok (VText (format md))
  else if decide (k = TYPE) then Ok (VText (type md))
  else if decide (k = VOLTYPE) then Ok (VText (voltype md))
  else if decide (k = DISKTYPE) then Ok (VText (disktype md))
  else if decide (k = CAPACITY) then Ok (VText (str_d (capacity md)))
  else if decide (k = CTIME) then Ok (VText (str_d (ctime md)))
  else if decide (k = DOMAIN) then Ok (VText (domain md))
  else if decide (k = IMAGE) then Ok (VText (image md))
  else if decide (k = DESCRIPTION) then Ok (VText (description md))
  else if decide (k = PUUID) then Ok (VText (puuid md))
  else if decide (k = LEGALITY) then Ok (VText (legality md))
  else if decide (k = GENERATION) then Ok (VInt (generation md))
  else Raise (KeyError k).

(** [get] *)
Definition get_item (md : VolumeMetadata) (k : text) (dflt : value) : value :=
  match getitem md k with Ok v => v | Raise _ => dflt end.

Definition dump (md : VolumeMetadata) : list (text * value) :=
  [(str "capacity", VInt (capacity md)); (str "ctime", VInt (ctime md));
   (str "description", VText (description md)); (str "disktype", VText (disktype md));
   (str "format", VText (format md)); (str "generation", VInt (generation md));
   (str "image", VText (image md)); (str "legality", VText (legality md));
   (str "parent", VText (puuid md)); (str "type", VText (type md)); (str "voltype", VText (voltype md))].

(** ** Reading what was written *)

(** A value that survives a line of its own: stripped, without line ends. *)
Definition clean (s : text) : Prop := strip s = s ∧ no_newline s.

Record metadata_ok (md : VolumeMetadata) : Prop := {
  mo_texts : Forall clean [domain md; image md; puuid md; format md; type md; voltype md; disktype md;
                           description md; legality md];
  mo_description : zlen (description md) <= DESCRIPTION_SIZE;
  mo_ints : 0 <= capacity md ∧ 0 <= ctime md ∧ 0 <= generation md;
}.

(** A key as the formatter writes it. *)
Definition plain_key (k : text) : Prop :=
  strip k = k ∧ no_newline k ∧ 61 ∉ k ∧ prefixb (str "EOF") (k ++ [61]) = false ∧
  Forall (fun c => 0 <= c < 128) k.

Lemma encode_key k : plain_key k → utf8_encode k = Some k.
Proof. intros (_ & _ & _ & _ & H). by apply utf8_encode_ascii. Qed.

Lemma prefixb_app_false p k l : (length p <= length k)%nat → prefixb p k = false → prefixb p (k ++ l) = false.
Proof.
  revert k. induction p as [|a p IH]; intros [|b k]; simpl; try done; [lia|].
  intros Hlen. destruct (a =? b); [|done]. simpl. apply IH. lia.
Qed.

(** One line, written and read. *)
Lemma read_line k v e rest md :
  plain_key k → (2 <= length k)%nat → clean v → utf8_encode (k ++ str "=" ++ v ++ [10]) = Some e →
  parse_lines (splitlines (e ++ rest)) md = parse_lines (splitlines rest) (dict_set k v md).
Proof.
  intros Hk Hlen [Hv Hvn] He. pose proof (encode_key k Hk) as Hek.
  destruct Hk as (Hstrip & Hkn & Heq & Heof & _).
  replace (k ++ str "=" ++ v ++ [10]) with ((k ++ str "=" ++ v) ++ [10]) in He by (by rewrite <- !app_assoc).
  rewrite utf8_encode_app in He. destruct (utf8_encode (k ++ str "=" ++ v)) as [l|] eqn:Hl; [|done].
  cbn in He. injection He as <-. rewrite <- app_assoc. cbn [app].
  unfold splitlines at 1. rewrite splitlines_line.
  2:{ eapply utf8_no_newline; [exact Hl|]. destruct Hkn, Hvn. split; set_solver. }
  cbn [app parse_lines]. rewrite (utf8_roundtrip _ _ Hl).
  replace (prefixb (str "EOF") (k ++ str "=" ++ v)) with false.
  2:{ change (str "=" ++ v) with ([61] ++ v). rewrite app_assoc. symmetry. apply prefixb_app_false; [|done].
      rewrite length_app. simpl. lia. }
  change (str "=" ++ v) with (61 :: v). rewrite split_first_app by done. by rewrite Hstrip, Hv.
Qed.

(** The lines of the keys [ks], written and read. *)
Lemma read_lines info ks e rest md :
  Forall (fun k => plain_key k ∧ (2 <= length k)%nat) ks →
  Forall (fun k => clean (default [] (dict_get k info))) ks →
  utf8_encode (concat (format_item info <$> ks)) = Some e →
  parse_lines (splitlines (e ++ rest)) md =
    parse_lines (splitlines rest) (foldl (fun d k => dict_set k (default [] (dict_get k info)) d) md ks).
Proof.
  revert e md. induction ks as [|k ks IH]; intros e md Hks Hvs He.
  { cbn in He. by injection He as <-. }
  apply Forall_cons in Hks as [[Hk Hlen] Hks]. apply Forall_cons in Hvs as [Hv Hvs].
  cbn [fmap list_fmap concat] in He. rewrite utf8_encode_app in He.
  destruct (utf8_encode (format_item info k)) as [e1|] eqn:He1; [|done].
  destruct (utf8_encode (concat (format_item info <$> ks))) as [e2|]; [|done].
  cbn in He. injection He as <-. rewrite <- app_assoc.
  rewrite (read_line k _ e1 _ _ Hk Hlen Hv He1). by apply IH.
Qed.

Lemma int_str_d n : 0 <= n → int (str_d n) = Ok n.
Proof. intros Hn. unfold int. by rewrite py_int_str_d. Qed.

Lemma digits_clean s : Forall (fun c => is_digit c = true) s → clean s.
Proof.
  intros Hs. split.
  - unfold strip, stripp. assert (∀ l, Forall (fun c => is_digit c = true) l → rstripp is_space_u l = l) as Hr.
    { induction 1 as [|c l Hc Hl IH]; [done|]. simpl. rewrite IH. destruct l; [|done].
      by rewrite (proj2 (is_digit_not_space c Hc)). }
    destruct s as [|c s]; [done|]. simpl. apply Forall_cons in Hs as [Hc Hs].
    rewrite (proj2 (is_digit_not_space c Hc)). apply Hr. by constructor.
  - rewrite Forall_forall in Hs. split; intros H; apply Hs in H; done.
Qed.

Lemma str_d_clean n : 0 <= n → clean (str_d n).
Proof.
  intros Hn. unfold str_d. rewrite (proj2 (Z.ltb_ge n 0)) by lia. by apply digits_clean, dec_is_digits.
Qed.

(** The keys in the order of the lines. *)
Definition keys_v4 : list text :=
  [CTIME; DESCRIPTION; DISKTYPE; DOMAIN; FORMAT; GENERATION; IMAGE; LEGALITY; MTIME; PUUID; _SIZE; TYPE; VOLTYPE].
Definition keys_v5 : list text :=
  [CAPACITY; CTIME; DESCRIPTION; DISKTYPE; DOMAIN; FORMAT; GENERATION; IMAGE; LEGALITY; PUUID; TYPE; VOLTYPE].

Definition keys_of (v : Z) : list text := if v <? 5 then keys_v4 else keys_v5.

Lemma sorted_keys md v : py_sorted text_ltb (dict_keys (info_of md v)) = keys_of v.
Proof.
  unfold info_of, keys_of. generalize (str_d (ctime md)) (str_d (generation md)) (str_d (capacity md))
    (str_d (capacity md / BLOCK_SIZE_512)) (str_d 0). intros a b c d e.
  destruct (v <? 5); vm_compute; reflexivity.
Qed.

#[export] Instance plain_key_dec k : Decision (plain_key k).
Proof. unfold plain_key, no_newline. apply _. Defined.

Lemma keys_plain v : Forall (fun k => plain_key k ∧ (2 <= length k)%nat) (keys_of v).
Proof. unfold keys_of. destruct (v <? 5); apply (bool_decide_unpack _); vm_compute; exact I. Qed.

(** The dict that is read back: that of the keys that were written. *)
Definition reread (md : VolumeMetadata) (v : Z) : list (text * text) :=
  foldl (fun d k => dict_set k (default [] (dict_get k (info_of md v))) d) [] (keys_of v).

Lemma reread_get md v k :
  dict_get k (reread md v) = if decide (k ∈ keys_of v) then Some (default [] (dict_get k (info_of md v))) else None.
Proof.
  unfold reread. generalize (info_of md v) as info. generalize (keys_of v) as ks. intros ks info.
  assert (∀ d, dict_get k (foldl (fun d k => dict_set k (default [] (dict_get k info)) d) d ks) =
    if decide (k ∈ ks) then Some (default [] (dict_get k info)) else dict_get k d) as H; [|by rewrite H].
  induction ks as [|x ks IH]; intros d; cbn [foldl].
  { destruct (decide (k ∈ [])) as [H|]; [by apply elem_of_nil in H|done]. }
  rewrite IH. destruct (decide (k ∈ ks)) as [Hk|Hk]; [by rewrite decide_True by set_solver|].
  destruct (decide (k = x)) as [->|Hne].
  - by rewrite decide_True, dict_get_set_eq by set_solver.
  - by rewrite decide_False, dict_get_set_ne by set_solver.
Qed.

Definition rounded (md : VolumeMetadata) (v : Z) : VolumeMetadata :=
  mkMetadata (domain md) (image md) (puuid md)
    (if v <? 5 then capacity md / BLOCK_SIZE_512 * BLOCK_SIZE_512 else capacity md)
    (format md) (type md) (voltype md) (disktype md) (description md) (legality md) (ctime md) (generation md).

Lemma reread_fields md v :
  let d := reread md v in
  dict_get DOMAIN d = Some (domain md) ∧ dict_get IMAGE d = Some (image md) ∧
  dict_get PUUID d = Some (puuid md) ∧ dict_get FORMAT d = Some (format md) ∧
  dict_get TYPE d = Some (type md) ∧ dict_get VOLTYPE d = Some (voltype md) ∧
  dict_get DISKTYPE d = Some (disktype md) ∧ dict_get DESCRIPTION d = Some (description md) ∧
  dict_get LEGALITY d = Some (legality md) ∧ dict_get CTIME d = Some (str_d (ctime md)) ∧
  dict_get GENERATION d = Some (str_d (generation md)) ∧
  if v <? 5 then dict_get CAPACITY d = None ∧ dict_get _SIZE d = Some (str_d (capacity md / BLOCK_SIZE_512))
  else dict_get CAPACITY d = Some (str_d (capacity md)).
Proof.
  intros d. unfold d. rewrite !reread_get. unfold keys_of, info_of.
  generalize (str_d (ctime md)) (str_d (generation md)) (str_d (capacity md))
    (str_d (capacity md / BLOCK_SIZE_512)) (str_d 0). intros a b c e f.
  destruct (v <? 5); vm_compute; repeat split.
Qed.

Lemma from_dict_reread md v : metadata_ok md → from_dict (reread md v) = Ok (rounded md v).
Proof.
  intros [_ Hd (Hc & Ht & Hg)].
  destruct (reread_fields md v) as (E1 & E2 & E3 & E4 & E5 & E6 & E7 & E8 & E9 & E10 & E11 & E12).
  unfold from_dict, item, dict_mem. rewrite E1, E2, E3, E4, E5, E6, E7, E8, E9, E10, E11.
  assert (validate_description (description md) = description md) as Hdesc.
  { unfold validate_description. by rewrite (proj2 (Z.ltb_ge _ _)) by lia. }
  unfold rounded, VolumeMetadata_init. destruct (v <? 5).
  - destruct E12 as [-> ->]. cbn -[int str_d BLOCK_SIZE_512].
    assert (0 <= capacity md / BLOCK_SIZE_512) by (apply Z.div_pos; [done|unfold BLOCK_SIZE_512; lia]).
    rewrite !int_str_d by done. cbn -[BLOCK_SIZE_512]. by rewrite Hdesc.
  - rewrite E12. cbn -[int str_d]. rewrite !int_str_d by done. cbn. by rewrite Hdesc.
Qed.

Lemma info_clean md v k :
  metadata_ok md → k ∈ keys_of v → clean (default [] (dict_get k (info_of md v))).
Proof.
  intros Hok Hk. destruct (reread_fields md v) as (E1 & E2 & E3 & E4 & E5 & E6 & E7 & E8 & E9 & E10 & E11 & E12).
  assert (∀ s, dict_get k (reread md v) = Some s → clean s → clean (default [] (dict_get k (info_of md v)))) as H.
  { intros s Hs. rewrite reread_get, decide_True in Hs by done. injection Hs as Hs. by rewrite Hs. }
  destruct Hok as [Hts _ (Hc & Ht & Hg)]. rewrite !Forall_cons in Hts.
  destruct Hts as (T1 & T2 & T3 & T4 & T5 & T6 & T7 & T8 & T9 & _).
  assert (0 <= capacity md / BLOCK_SIZE_512) by (apply Z.div_pos; [done|unfold BLOCK_SIZE_512; lia]).
  assert (v <? 5 = true → dict_get MTIME (reread md v) = Some (str_d 0)) as E13.
  { rewrite reread_get. unfold keys_of, info_of.
    generalize (str_d (ctime md)) (str_d (generation md)) (str_d (capacity md / BLOCK_SIZE_512)) (str_d 0).
    intros a b c e. intros ->. vm_compute. reflexivity. }
  unfold keys_of in Hk. destruct (v <? 5); [destruct E12 as [_ E12]|];
    repeat (apply elem_of_cons in Hk as [->|Hk]; [eapply H; [by eauto|first [done|by apply str_d_clean]]|]);
    by apply elem_of_nil in Hk.
Qed.

(** C12: metadata written to storage is read back.  For metadata whose texts have
    no line ends and no surrounding white space, whatever follows it in its slot
    (the padding, or older content): the parser returns the same metadata; on
    domains before version 5, which store the size in 512 byte blocks, the
    capacity is rounded down to a whole number of blocks. *)
Theorem metadata_roundtrip (md : VolumeMetadata) (version : Z) (data rest : bytes) :
  metadata_ok md → storage_format md version [] = Ok data →
  from_lines (splitlines (data ++ rest)) = Ok (rounded md version).
Proof.
  intros Hok Hf. unfold storage_format in Hf. simpl in Hf.
  destruct (utf8_encode (storage_text (info_of md version))) as [d|] eqn:He; [|done].
  destruct (METADATA_SIZE <? zlen d); [done|]. injection Hf as ->.
  unfold storage_text in He. rewrite sorted_keys, utf8_encode_app in He.
  destruct (utf8_encode (concat _)) as [e|] eqn:Hl; [|done].
  change (utf8_encode (str "EOF" ++ [10])) with (Some [69; 79; 70; 10]) in He.
  cbn [mbind option_bind] in He. injection He as <-.
  rewrite <- app_assoc. unfold from_lines.
  rewrite (read_lines _ _ _ _ _ (keys_plain version) (proj2 (Forall_forall _ _) (fun k => info_clean md version k Hok)) Hl).
  fold (reread md version).
  assert (splitlines ([69; 79; 70; 10] ++ rest) = [69; 79; 70] :: splitlines rest) as ->.
  { apply (splitlines_line [] [69; 79; 70] rest). split; set_solver. }
  cbn [parse_lines]. rewrite utf8_decode_ascii by (repeat constructor; lia).
  change (prefixb (str "EOF") [69; 79; 70]) with true. cbn -[from_dict reread].
  by rewrite from_dict_reread.
Qed.

(** ** The size of the metadata *)

Definition ascii (s : text) : Prop := Forall (fun c => 0 <= c < 128) s.

(** The longest values the product writes: uuids, the longest name of each
    enumeration, times of ten digits, generations of three digits, capacities up
    to 2^63 bytes; the description is ASCII of any length that is kept. *)
Record worst_case (md : VolumeMetadata) : Prop := {
  wc_ascii : Forall ascii [domain md; image md; puuid md; format md; type md; voltype md; disktype md;
                           description md; legality md];
  wc_uuids : zlen (domain md) = 36 ∧ zlen (image md) = 36 ∧ zlen (puuid md) = 36;
  wc_names : zlen (format md) <= 3 ∧ zlen (type md) <= 12 ∧ zlen (voltype md) <= 8 ∧
             zlen (disktype md) <= 4 ∧ zlen (legality md) <= 7;
  wc_description : zlen (description md) <= DESCRIPTION_SIZE;
  wc_ints : 0 <= capacity md <= 2 ^ 63 ∧ 0 <= ctime md < 10 ^ 10 ∧ 0 <= generation md <= 999;
}.

(** The text that is written, line by line. *)
Lemma storage_text_lines md v :
  storage_text (info_of md v) =
    (if v <? 5 then [] else str "CAP=" ++ str_d (capacity md) ++ [10]) ++
    str "CTIME=" ++ str_d (ctime md) ++ [10] ++
    str "DESCRIPTION=" ++ description md ++ [10] ++
    str "DISKTYPE=" ++ disktype md ++ [10] ++
    str "DOMAIN=" ++ domain md ++ [10] ++
    str "FORMAT=" ++ format md ++ [10] ++
    str "GEN=" ++ str_d (generation md) ++ [10] ++
    str "IMAGE=" ++ image md ++ [10] ++
    str "LEGALITY=" ++ legality md ++ [10] ++
    (if v <? 5 then str "MTIME=0" ++ [10] else []) ++
    str "PUUID=" ++ puuid md ++ [10] ++
    (if v <? 5 then str "SIZE=" ++ str_d (capacity md / BLOCK_SIZE_512) ++ [10] else []) ++
    str "TYPE=" ++ type md ++ [10] ++
    str "VOLTYPE=" ++ voltype md ++ [10] ++ str "EOF" ++ [10].
Proof.
  unfold storage_text. rewrite sorted_keys. unfold info_of, keys_of. change (str_d 0) with [48].
  generalize (str_d (ctime md)) (str_d (generation md)) (str_d (capacity md))
    (str_d (capacity md / BLOCK_SIZE_512)). intros a b c e.
  destruct (v <? 5); cbn [fmap list_fmap concat app keys_v4 keys_v5]; unfold format_item;
    rewrite <- ?app_assoc; reflexivity.
Qed.

Lemma ascii_str_d n : 0 <= n → ascii (str_d n).
Proof.
  intros Hn. unfold ascii, str_d. rewrite (proj2 (Z.ltb_ge n 0)) by lia.
  eapply Forall_impl; [by apply dec_is_digits|]. intros c Hc. unfold is_digit in Hc. boolp. lia.
Qed.

Lemma zlen_str_d n w : 0 <= n < 10 ^ w → 1 <= w → zlen (str_d n) <= w.
Proof. intros H1 H2. unfold str_d. rewrite (proj2 (Z.ltb_ge n 0)) by lia. by apply zlen_dec. Qed.

Lemma storage_text_ascii md v : worst_case md → ascii (storage_text (info_of md v)).
Proof.
  intros [Ha _ _ _ (Hc & Ht & Hg)]. rewrite storage_text_lines. rewrite !Forall_cons in Ha.
  assert (0 <= capacity md / BLOCK_SIZE_512) by (apply Z.div_pos; [lia|unfold BLOCK_SIZE_512; lia]).
  unfold ascii in *. destruct (v <? 5); rewrite !Forall_app; split_and!; try apply Ha;
    try (apply ascii_str_d; lia); apply (bool_decide_unpack _); vm_compute; exact I.
Qed.

(** C13: the metadata of a volume fits its 512 byte slot.  In the worst case of
    every field, an ASCII description of up to 210 characters included, formatting
    succeeds: it needs 280 bytes beside the description on domains before version
    5, and 273 bytes on the others. *)
Theorem metadata_fits (md : VolumeMetadata) (version : Z) :
  worst_case md →
  ∃ data, storage_format md version [] = Ok data ∧
    zlen data <= zlen (description md) + (if version <? 5 then 280 else 273) ∧ zlen data <= METADATA_SIZE.
Proof.
  intros Hw. unfold storage_format. simpl. rewrite utf8_encode_ascii by by apply storage_text_ascii.
  set (t := storage_text (info_of md version)).
  assert (zlen t <= zlen (description md) + (if version <? 5 then 280 else 273)) as Hlen.
  { unfold t. rewrite storage_text_lines.
    destruct Hw as [_ (Hu1 & Hu2 & Hu3) (Hn1 & Hn2 & Hn3 & Hn4 & Hn5) _ (Hc & Ht & Hg)].
    assert (0 <= capacity md / BLOCK_SIZE_512 < 10 ^ 17) as Hs.
    { unfold BLOCK_SIZE_512. split; [apply Z.div_pos; lia|]. apply Z.div_lt_upper_bound; lia. }
    pose proof (zlen_str_d (ctime md) 10 ltac:(lia) ltac:(lia)) as L1.
    pose proof (zlen_str_d (generation md) 3 ltac:(lia) ltac:(lia)) as L2.
    pose proof (zlen_str_d (capacity md) 19 ltac:(lia) ltac:(lia)) as L3.
    pose proof (zlen_str_d (capacity md / BLOCK_SIZE_512) 17 ltac:(lia) ltac:(lia)) as L4.
    destruct (version <? 5); repeat rewrite zlen_app;
      repeat (match goal with |- context [zlen (str ?s)] => change (zlen (str s)) with ltac:(let v := eval vm_compute in (zlen (str s)) in exact v) end);
      change (zlen [10]) with 1; rewrite ?zlen_nil; lia. }
  pose proof (wc_description _ Hw) as Hd. unfold DESCRIPTION_SIZE, METADATA_SIZE, BLOCK_SIZE_512 in *.
  rewrite (proj2 (Z.ltb_ge _ _)) by (destruct (version <? 5); lia).
  exists t. split_and!; [done|done|]. destruct (version <? 5); lia.
Qed.

(** ** Examples *)

Definition sample_uuid : text := str "75f8a1bb-4504-4314-91ca-d9365a30692b".

(** The worst case of the comment in [storage/constants.py], with a description. *)
Definition sample (desc : text) : VolumeMetadata :=
  mkMetadata sample_uuid sample_uuid sample_uuid 9223372036854775808 (str "COW") (str "PREALLOCATED")
    (str "INTERNAL") (str "OVFS") desc (str "ILLEGAL") 1440935038 999.

(** The sizes are reached, and so exceed the 276 and 270 bytes of the comment. *)
Lemma sample_sizes :
  zlen (storage_text (info_of (sample []) 4)) = 280 ∧ zlen (storage_text (info_of (sample []) 5)) = 273.
Proof. vm_compute. split; reflexivity. Qed.

(** A description is cut to 210 characters, not bytes: with characters of two
    bytes the metadata no longer fits and formatting fails. *)
Lemma non_ascii_description_overflows :
  let md := sample (validate_description (zrepeat 500 233)) in
  zlen (description md) = 210 ∧ is_ok (storage_format md 5 []) = false.
Proof. vm_compute. split; reflexivity. Qed.

Lemma metadata_roundtrip_witness :
  ∃ data, storage_format (sample (str "disk one")) 4 [] = Ok data ∧
    from_lines (splitlines (data ++ [0; 0])) = Ok (rounded (sample (str "disk one")) 4).
Proof.
  destruct (storage_format (sample (str "disk one")) 4 []) as [data|e] eqn:E.
  - exists data. split; [reflexivity|]. apply (metadata_roundtrip _ 4 data [0; 0]); [|exact E].
    split; [|vm_compute; discriminate|vm_compute; repeat split; discriminate].
    unfold clean, no_newline. apply (bool_decide_unpack _). vm_compute. exact I.
  - exfalso. apply (f_equal is_ok) in E. vm_compute in E. discriminate.
Defined.

Lemma metadata_fits_witness :
  ∃ data, storage_format (sample (zrepeat 210 65)) 5 [] = Ok data ∧ zlen data <= METADATA_SIZE.
Proof.
  destruct (metadata_fits (sample (zrepeat 210 65)) 5) as (data & H1 & _ & H2); [|by exists data].
  split; try (vm_compute; repeat split; congruence).
  unfold ascii. apply (bool_decide_unpack _). vm_compute. exact I.
Defined.
