(* ===== verification/Persistent.v ===== *)
(** * Persistent dicts: [storage/persistent.py]

    [PersistentDict] keeps metadata sealed with a checksum on storage, read when
    it is not valid and written when a transaction changed it; [DictValidator]
    encodes and decodes its values.  The storage behind it is the interface
    [MetaRW], the SHA-1 function a parameter. *)
From Stdlib Require Import ZArith Lia Sorted.
From stdpp Require Import base gmap list strings sorting.
From S2P Require Import Prelude Text.

Definition SHA_CKSUM_TAG : text := str "_SHA_CKSUM".

(** ** Lines *)

Definition _format_line (key value : text) : text := key ++ str "=" ++ value.

(** [(k, v) < (k', v')] *)
Definition item_ltb (a b : text * text) : bool :=
  text_ltb a.1 b.1 || (bool_decide (a.1 = b.1) && text_ltb a.2 b.2).

Definition _dump_lines (md : gmap text text) : list text :=
  (fun kv => _format_line kv.1 kv.2) <$> py_sorted item_ltb (map_to_list md).

(** [line.encode('ascii', 'xmlcharrefreplace')] *)
Definition encode_xmlcharref (line : text) : bytes :=
  concat ((fun c => if is_ascii c then [c] else str "&#" ++ str_d c ++ str ";") <$> line).

(** [_parse_lines]: a line without [=] is logged and skipped. *)
Definition _parse_line (md : gmap text text) (line : text) : gmap text text :=
  match split_first 61 line with
  | None => md
  | Some (key, value) => <[stripp is_space_u key := value]> md
  end.

Definition _parse_lines (lines : list text) : gmap text text := foldl _parse_line ∅ lines.

(** ** The dict *)

(** The metadata backend: a file, a volume group's tags, a volume. *)
Class MetaRW (W E : Type) := {
  readlines : M W E (list text);
  writelines : list text → M W E unit;
}.

(** A write that returns is what is read until the next write. *)
Class MetaRWLaws (W E : Type) `{!MetaRW W E} := {
  stored : W → list text;
  readlines_stored w w' r : readlines w = (w', r) →
    stored w' = stored w ∧ (∀ ls, r = Ok ls → ls = stored w);
  writelines_stored ls w w' : writelines ls w = (w', Ok ()) → stored w' = ls;
}.

Inductive error (E : Type) :=
| KeyError
| MetaDataSealIsBroken (declared computed : text)
| RWError (e : E).
Arguments KeyError {E}.
Arguments MetaDataSealIsBroken {E} declared computed.
Arguments RWError {E} e.

Section Persistent.
  Context {W E : Type} `{!MetaRW W E} (sha1_hex : bytes → text).

(** [hashlib.sha1] fed line by line *)
Definition _calc_checksum (lines : list text) : text := sha1_hex (concat (encode_xmlcharref <$> lines)).

Record PersistentDict := mkDict {
  _metadata : gmap text text;
  _metaRW : W;
  _isValid : bool;
  _inTransaction : bool;
}.

Abbreviation PD A := (M PersistentDict (error E) A).

Definition PersistentDict_init (w : W) : PersistentDict := mkDict ∅ w false false.

Definition set_metadata (md : gmap text text) (d : PersistentDict) : PersistentDict :=
  mkDict md (_metaRW d) (_isValid d) (_inTransaction d).

Definition set_transaction (b : bool) (d : PersistentDict) : PersistentDict :=
  mkDict (_metadata d) (_metaRW d) (_isValid d) b.

Definition _refresh : PD unit := fun d =>
  match readlines (_metaRW d) with
  | (w, Raise e) => (mkDict (_metadata d) w (_isValid d) (_inTransaction d), Raise (RWError e))
  | (w, Ok lines) =>
      let d := mkDict (_metadata d) w (_isValid d) (_inTransaction d) in
      let newMD := _parse_lines lines in
      let declaredChecksum := newMD !! SHA_CKSUM_TAG in
      let newMD := delete SHA_CKSUM_TAG newMD in
      let accept := mkDict newMD w true (_inTransaction d) in
      if bool_decide (newMD = ∅) then (accept, Ok ())
      else match declaredChecksum with
           | None => (accept, Ok ())
           | Some declared =>
               let computed := _calc_checksum (_dump_lines newMD) in
               if bool_decide (declared = computed) then (accept, Ok ())
               else (d, Raise (MetaDataSealIsBroken declared computed))
           end
  end.

Definition _flush (md : gmap text text) : PD unit := fun d =>
  let lines := _dump_lines md in
  let lines := lines ++ [_format_line SHA_CKSUM_TAG (_calc_checksum lines)] in
  match writelines lines (_metaRW d) with
  | (w, Raise e) => (mkDict (_metadata d) w (_isValid d) (_inTransaction d), Raise (RWError e))
  | (w, Ok _) => (mkDict md w true (_inTransaction d), Ok ())
  end.

(** [with self._accessWrapper(): body] *)
Definition access {A} (body : PD A) : PD A := fun d =>
  if _isValid d then body d else (_refresh ;; body) d.

(** [with self.transaction(): body] *)
Definition transaction {A} (body : PD A) : PD A := fun d =>
  if _inTransaction d then body d
  else
    let '(d', r) := access (fun d =>
      let backup := _metadata d in
      let '(d1, r) := (a ← body;
                       d ← get;
                       (if bool_decide (backup = _metadata d) then mret () else _flush (_metadata d)) ;;
                       mret a) d in
      match r with
      | Ok a => (d1, Ok a)
      | Raise e => (set_metadata backup d1, Raise e)
      end) (set_transaction true d) in
    (set_transaction false d', r).

Definition pd_get (key : text) (dflt : option text) : PD (option text) :=
  access (fun d => (d, Ok (match _metadata d !! key with Some v => Some v | None => dflt end))).

Definition pd_getitem (key : text) : PD text :=
  access (fun d => (d, match _metadata d !! key with Some v => Ok v | None => Raise KeyError end)).

Definition pd_setitem (key value : text) : PD unit :=
  transaction (modify (fun d => set_metadata (<[key := value]> (_metadata d)) d)).

Definition pd_delitem (key : text) : PD unit :=
  transaction (fun d =>
    match _metadata d !! key with
    | Some _ => (set_metadata (delete key (_metadata d)) d, Ok ())
    | None => (d, Raise KeyError)
    end).

Definition pd_update (md : gmap text text) : PD unit :=
  transaction (modify (fun d => set_metadata (md ∪ _metadata d) d)).

Definition pd_clear : PD unit := transaction (modify (set_metadata ∅)).

(** [__iter__], as the set of the keys *)
Definition pd_iter : PD (gset text) := access (fun d => (d, Ok (dom (_metadata d)))).

Definition pd_len : PD Z := access (fun d => (d, Ok (Z.of_nat (size (_metadata d))))).

Definition pd_contains (item : text) : PD bool :=
  access (fun d => (d, Ok (bool_decide (is_Some (_metadata d !! item))))).

Definition pd_copy : PD (gmap text text) := access (fun d => (d, Ok (_metadata d))).

Definition invalidate : PD unit := modify (fun d => mkDict (_metadata d) (_metaRW d) false (_inTransaction d)).

(** ** The validator *)

(** A key of the validator dict: a literal, or a compiled pattern. *)
Inductive validator_key := Exact (k : text) | Pattern (matches : text → bool).

Context {V : Type}.

(** What a key's entry holds: the decoder and the encoder. *)
Definition codec : Type := (text → res (error E) V) * (V → res (error E) text).
Context (_validatorDict : list (validator_key * codec)).

Definition literal_key (key : text) (e : validator_key * codec) : bool :=
  match e.1 with Exact k => bool_decide (k = key) | Pattern _ => false end.

Definition pattern_key (key : text) (e : validator_key * codec) : bool :=
  match e.1 with Exact _ => false | Pattern p => p key end.

Definition _validator (key : text) : res (error E) codec :=
  match list_find (fun e => literal_key key e = true) _validatorDict with
  | Some (_, e) => Ok e.2
  | None => match list_find (fun e => pattern_key key e = true) _validatorDict with
            | Some (_, e) => Ok e.2
            | None => Raise KeyError
            end
  end.

(** [key in self._validatorDict] *)
Definition in_validators (key : text) : bool := existsb (literal_key key) _validatorDict.

Definition dv_getitem (key : text) : PD V :=
  c ← lift (_validator key);
  v ← pd_getitem key;
  lift (c.1 v).

(** [get]: a missing key of the dict, or a KeyError of the decoder, gives the
    default *)
Definition dv_get (key : text) (dflt : option V) : PD (option V) :=
  c ← lift (_validator key);
  try_except (v ← pd_getitem key; x ← lift (c.1 v); mret (Some x))
    (fun e => match e with KeyError => mret dflt | _ => raise e end).

Definition dv_setitem (key : text) (value : V) : PD unit :=
  c ← lift (_validator key);
  v ← lift (c.2 value);
  pd_setitem key v.

Definition dv_delitem (key : text) : PD unit := pd_delitem key.

(** The loop of [update] over the items of the given dict. *)
Fixpoint encode_items (items : list (text * V)) : res (error E) (gmap text text) :=
  match items with
  | [] => Ok ∅
  | (key, value) :: items' =>
      c ← _validator key;
      v ← c.2 value;
      md ← encode_items items';
      mret (<[key := v]> md)
  end.

Definition dv_update (items : list (text * V)) : PD unit :=
  md ← lift (encode_items items);
  pd_update md.

Definition dv_contains (item : text) : PD bool :=
  if in_validators item then pd_contains item else mret false.

Definition dv_keys : PD (gset text) := ks ← pd_iter; mret (filter (fun k => in_validators k = true) ks).

Definition dv_len : PD Z := ks ← dv_keys; mret (Z.of_nat (size ks)).

(** [clear]: only the literal keys *)
Definition dv_clear : PD unit :=
  for_each _validatorDict (fun e =>
    match e.1 with
    | Exact k => b ← pd_contains k; if (b : bool) then pd_delitem k else mret ()
    | Pattern _ => mret ()
    end).
End Persistent.

(** ** Dumping and parsing *)

(** A key that can be written as one line and found again. *)
Definition key_ok (k : text) : Prop := stripp is_space_u k = k ∧ 61 ∉ k ∧ k ≠ SHA_CKSUM_TAG.

Definition keys_ok (md : gmap text text) : Prop := ∀ k, is_Some (md !! k) → key_ok k.

Lemma parse_format md k v : stripp is_space_u k = k → 61 ∉ k → _parse_line md (_format_line k v) = <[k := v]> md.
Proof.
  intros Hs Hn. unfold _parse_line, _format_line. change (str "=" ++ v) with (61 :: v).
  rewrite split_first_app by done. by rewrite Hs.
Qed.

Lemma parse_formatted (items : list (text * text)) md :
  Forall (fun kv => key_ok kv.1) items → NoDup items.*1 →
  foldl _parse_line md ((fun kv => _format_line kv.1 kv.2) <$> items) = list_to_map items ∪ md.
Proof.
  revert md. induction items as [|[k v] items IH]; intros md Hok Hnd; simpl; [by rewrite (left_id_L ∅ (∪))|].
  apply Forall_cons in Hok as [(Hs & Hn & _) Hok]. simpl in *. apply NoDup_cons in Hnd as [Hni Hnd].
  rewrite parse_format, IH by done. rewrite <- insert_union_r, insert_union_l; [done|].
  by apply not_elem_of_list_to_map_1.
Qed.

Lemma sorted_items md :
  NoDup (py_sorted item_ltb (map_to_list md)).*1 ∧
  list_to_map (py_sorted item_ltb (map_to_list md)) = md.
Proof.
  pose proof (py_sorted_Permutation item_ltb (map_to_list md)) as Hp.
  assert (NoDup (py_sorted item_ltb (map_to_list md)).*1) as Hnd.
  { rewrite Hp. apply NoDup_fst_map_to_list. }
  split; [done|]. rewrite (list_to_map_proper _ (map_to_list md)); [apply list_to_map_to_list|done|done].
Qed.

(** The lines of a flush, parsed. *)
Lemma parse_sealed md c :
  keys_ok md →
  _parse_lines (_dump_lines md ++ [_format_line SHA_CKSUM_TAG c]) = <[SHA_CKSUM_TAG := c]> md.
Proof.
  intros Hok. unfold _parse_lines, _dump_lines. rewrite foldl_app. destruct (sorted_items md) as [Hnd Hmap].
  rewrite parse_formatted; [|rewrite py_sorted_Permutation|done].
  - rewrite Hmap. cbn [foldl]. rewrite parse_format; [by rewrite (right_id_L ∅ (∪))|reflexivity|].
    apply (bool_decide_unpack _). vm_compute. exact I.
  - apply Forall_forall. intros [k v] Hin%elem_of_map_to_list. apply Hok. simpl. by rewrite Hin.
Qed.

Lemma keys_ok_no_seal md : keys_ok md → md !! SHA_CKSUM_TAG = None.
Proof.
  intros Hok. destruct (md !! SHA_CKSUM_TAG) eqn:E; [|done].
  destruct (Hok SHA_CKSUM_TAG) as (_ & _ & H); [by rewrite E|]. by destruct H.
Qed.

Section PersistentFacts.
  Context {W E : Type} `{MetaRWLaws W E} (sha1_hex : bytes → text).
  Implicit Types (d : PersistentDict (W := W)) (md : gmap text text).

Abbreviation refresh_ := (_refresh (E := E) sha1_hex).
Abbreviation flush_ := (_flush (E := E) sha1_hex).
Abbreviation transaction_ := (transaction (E := E) sha1_hex).

(** The lines that hold [md] on storage. *)
Definition sealed md : list text :=
  _dump_lines md ++ [_format_line SHA_CKSUM_TAG (_calc_checksum sha1_hex (_dump_lines md))].

Lemma refresh_sealed d d' r md :
  keys_ok md → stored (_metaRW d) = sealed md → refresh_ d = (d', r) →
  match r with
  | Ok _ => d' = mkDict md (_metaRW d') true (_inTransaction d) ∧ stored (_metaRW d') = sealed md
  | Raise e => ∃ e', e = RWError e'
  end.
Proof.
  intros Hok Hst Hr. unfold _refresh in Hr. destruct (readlines (_metaRW d)) as [w rl] eqn:Er.
  destruct (readlines_stored _ _ _ Er) as [Hw Hls].
  destruct rl as [ls|e]; [|simplify_eq; by eexists]. rewrite (Hls ls eq_refl), Hst in Hr.
  assert (_parse_lines (sealed md) = <[SHA_CKSUM_TAG := _calc_checksum sha1_hex (_dump_lines md)]> md) as Hp
    by by apply parse_sealed.
  rewrite Hp in Hr.
  rewrite lookup_insert_eq, delete_insert_id in Hr by by apply keys_ok_no_seal.
  case_bool_decide; [|rewrite (bool_decide_eq_true_2 (_ = _)) in Hr by done];
    simplify_eq; simpl; (split; [done|congruence]).
Qed.

Lemma flush_stored md d d' :
  flush_ md d = (d', Ok ()) → d' = mkDict md (_metaRW d') true (_inTransaction d) ∧ stored (_metaRW d') = sealed md.
Proof.
  unfold _flush. intros Hf. destruct (writelines _ _) as [w [[]|e]] eqn:Ew; simplify_eq. simpl.
  split; [done|]. by apply writelines_stored in Ew.
Qed.

(** the seal.  What a flush wrote is accepted when it is read again, with
    exactly the metadata that was flushed, whatever the dict held meanwhile. *)
Theorem seal_roundtrip d d1 d2 d3 md r :
  keys_ok md → flush_ md d = (d1, Ok ()) → _metaRW d2 = _metaRW d1 → _isValid d2 = false →
  pd_copy (E := E) sha1_hex d2 = (d3, r) →
  match r with
  | Ok md' => md' = md ∧ _metadata d3 = md ∧ _isValid d3 = true
  | Raise e => ∃ e', e = RWError e'
  end.
Proof.
  intros Hok Hf Hw Hv Hc. apply flush_stored in Hf as [_ Hst]. rewrite <- Hw in Hst.
  unfold pd_copy, access in Hc. rewrite Hv in Hc. munfold Hc.
  destruct (refresh_ d2) as [d' [[]|e]] eqn:Er; pose proof (refresh_sealed _ _ _ _ Hok Hst Er) as H'; simplify_eq.
  - destruct H' as [-> _]. done.
  - done.
Qed.

(** ** Transactions *)

Abbreviation PD A := (M (PersistentDict (W := W)) (error E) A).

(** What the code around the dict does with the rest of the world, the backend included, but for writing
    the metadata. *)
Definition elsewhere {A} (f : M W E A) : PD A := fun d =>
  let '(w, r) := f (_metaRW d) in
  (mkDict (_metadata d) w (_isValid d) (_inTransaction d), match r with Ok a => Ok a | Raise e => Raise (RWError e) end).

(** The bodies of transactions: code that uses the dict by its methods, nested transactions
    included, and does what else it likes. *)
Inductive api_body : ∀ {A}, PD A → Prop :=
| api_ret {A} (a : A) : api_body (mret a)
| api_raise {A} e : api_body (raise e : PD A)
| api_bind {A B} (m : PD A) (f : A → PD B) : api_body m → (∀ a, api_body (f a)) → api_body (m ≫= f)
| api_try {A} (m : PD A) h : api_body m → (∀ e, api_body (h e)) → api_body (try_except m h)
| api_elsewhere {A} (f : M W E A) : (∀ w, stored (f w).1 = stored w) → api_body (elsewhere f)
| api_transaction {A} (m : PD A) : api_body m → api_body (transaction_ m)
| api_get k dflt : api_body (pd_get sha1_hex k dflt)
| api_getitem k : api_body (pd_getitem sha1_hex k)
| api_setitem k v : api_body (pd_setitem sha1_hex k v)
| api_delitem k : api_body (pd_delitem sha1_hex k)
| api_update md : api_body (pd_update sha1_hex md)
| api_clear : api_body (pd_clear sha1_hex)
| api_iter : api_body (pd_iter sha1_hex)
| api_len : api_body (pd_len sha1_hex)
| api_contains k : api_body (pd_contains sha1_hex k)
| api_copy : api_body (pd_copy sha1_hex)
| api_invalidate : api_body invalidate.

(** Inside a transaction such a body writes nothing and stays inside. *)
Definition inside {A} (m : PD A) : Prop :=
  ∀ d d' r, _inTransaction d = true → m d = (d', r) → _inTransaction d' = true ∧ stored (_metaRW d') = stored (_metaRW d).

Lemma refresh_reads d d' r :
  refresh_ d = (d', r) →
  _inTransaction d' = _inTransaction d ∧ stored (_metaRW d') = stored (_metaRW d) ∧ (is_ok r = false → _metadata d' = _metadata d).
Proof.
  unfold _refresh. destruct (readlines (_metaRW d)) as [w rl] eqn:Er. destruct (readlines_stored _ _ _ Er) as [Hw _].
  destruct rl as [ls|e]; [|by intros [= <- <-]]. cbn zeta.
  destruct (bool_decide (delete _ _ = ∅)); [by intros [= <- <-]|]. destruct (_parse_lines ls !! _); [|by intros [= <- <-]].
  case_bool_decide; by intros [= <- <-].
Qed.

Lemma inside_access {A} (m : PD A) : inside m → inside (access sha1_hex m).
Proof.
  intros Hm d d' r Ht. unfold access. destruct (_isValid d); [by apply Hm|]. munfold_goal.
  destruct (refresh_ d) as [d1 [[]|e]] eqn:Er; destruct (refresh_reads _ _ _ Er) as (Ht1 & Hs1 & _).
  - intros Hd. destruct (Hm d1 d' r) as [? ?]; [congruence|done|]. split; [done|congruence].
  - intros [= <- <-]. split; congruence.
Qed.

Lemma inside_transaction {A} (m : PD A) : inside m → inside (transaction_ m).
Proof. intros Hm d d' r Ht. unfold transaction. rewrite Ht. by apply Hm. Qed.

Lemma inside_pure {A : Type} (f : PersistentDict (W := W) → gmap text text) (g : PersistentDict (W := W) → res (error E) A) :
  inside (fun d => (set_metadata (f d) d, g d)).
Proof. by intros d d' r Ht [= <- <-]. Qed.

Lemma inside_read {A : Type} (g : PersistentDict (W := W) → res (error E) A) : inside (fun d => (d, g d)).
Proof. by intros d d' r Ht [= <- <-]. Qed.

Lemma api_inside {A} (m : PD A) : api_body m → inside m.
Proof.
  induction 1 as [|A e|A B m f _ IHm _ IHf|A m h _ IHm _ IHh|A f Hf|A m _ IHm| | |k v|k|md| | | | | |];
    try (apply inside_access; first [apply inside_read|done]); try (apply inside_transaction; first [exact IHm|apply inside_pure]).
  - apply inside_read.
  - apply (inside_read (fun _ => Raise e)).
  - intros d d' r Ht. munfold_goal. destruct (m d) as [d1 [a|e]] eqn:Em; destruct (IHm _ _ _ Ht Em) as [Ht1 Hs1].
    + intros Hd. destruct (IHf a d1 d' r Ht1 Hd). split; [done|congruence].
    + by intros [= <- <-].
  - intros d d' r Ht. unfold try_except. destruct (m d) as [d1 [a|e]] eqn:Em; destruct (IHm _ _ _ Ht Em) as [Ht1 Hs1].
    + by intros [= <- <-].
    + intros Hd. destruct (IHh e d1 d' r Ht1 Hd). split; [done|congruence].
  - intros d d' r Ht. unfold elsewhere. specialize (Hf (_metaRW d)). destruct (f (_metaRW d)) as [w x]. by intros [= <- <-].
  - apply inside_transaction. intros d d' r Ht. destruct (_metadata d !! k); by intros [= <- <-].
  - by intros d d' r Ht [= <- <-].
Qed.

(** C14: transactions, outside another one (inside one, a transaction is a part of its body), of
    a body that uses the dict by its methods.  First the metadata is read when it is not valid; when that
    fails its error comes out, the body does not run and nothing changes.  Whatever happens, the transaction is over
    afterwards.  When the body raises, or writing its changes fails, the metadata is what it was and the
    error comes out, and when the body raised nothing was written.  When the body
    returns, the metadata is what it left; if that is a change, that is what storage holds,
    else nothing was written. *)
Theorem transaction_atomic {A} (body : PD A) d :
  api_body body → _inTransaction d = false →
  let '(d0, r0) := access sha1_hex (mret ()) (set_transaction true d) in
  let '(b, rb) := body d0 in
  let '(d', r) := transaction_ body d in
  (_isValid d = true → d0 = set_transaction true d ∧ r0 = Ok ()) ∧
  stored (_metaRW d0) = stored (_metaRW d) ∧ _inTransaction d' = false ∧
  match r0, r with
  | Raise e0, _ => r = Raise e0 ∧ _metadata d' = _metadata d ∧ stored (_metaRW d') = stored (_metaRW d)
  | Ok _, Ok a => rb = Ok a ∧ _metadata d' = _metadata b ∧
      (if bool_decide (_metadata b = _metadata d0)
       then stored (_metaRW d') = stored (_metaRW d) ∧ _isValid d' = _isValid b
       else stored (_metaRW d') = sealed (_metadata b) ∧ _isValid d' = true)
  | Ok _, Raise e => _metadata d' = _metadata d0 ∧
      (rb = Raise e ∧ stored (_metaRW d') = stored (_metaRW d) ∨
       ∃ a e', rb = Ok a ∧ _metadata b ≠ _metadata d0 ∧ e = RWError e')
  end.
Proof.
  intros Hapi%api_inside Ht. destruct (access sha1_hex (mret ()) (set_transaction true d)) as [d0 r0] eqn:E0.
  destruct (body d0) as [b rb] eqn:Eb.
  assert (Hread : (_isValid d = true → d0 = set_transaction true d ∧ r0 = Ok ()) ∧ stored (_metaRW d0) = stored (_metaRW d) ∧
    _inTransaction d0 = true ∧ (is_ok r0 = false → _metadata d0 = _metadata d) ∧
    ∀ B (m : PD B), access sha1_hex m (set_transaction true d) = match r0 with Ok _ => m d0 | Raise e => (d0, Raise e) end).
  { revert E0. unfold access. cbn [_isValid set_transaction]. destruct (_isValid d); [by intros [= <- <-]|]. munfold_goal.
    destruct (refresh_ (set_transaction true d)) as [d1 [[]|e]] eqn:Er; destruct (refresh_reads _ _ _ Er) as (? & ? & ?);
      by intros [= <- <-]. }
  destruct Hread as (Hv & Hs0 & Ht0 & Hmd0 & Hacc). destruct (transaction_ body d) as [d' r] eqn:Et.
  unfold transaction in Et. rewrite Ht, Hacc in Et. split; [done|]. split; [done|].
  destruct r0 as [u|e0]; [|injection Et as <- <-; cbn; rewrite Hmd0 by done; done].
  munfold Et. rewrite Eb in Et. destruct (Hapi _ _ _ Ht0 Eb) as [Htb Hsb].
  destruct rb as [a|e]; [|injection Et as <- <-; cbn; split; [done|]; split; [done|]; left; split; [done|congruence]].
  cbn [Prelude.get] in Et. destruct (bool_decide_reflect (_metadata d0 = _metadata b)) as [He|He].
  - injection Et as <- <-. cbn. rewrite bool_decide_eq_true_2 by done. split_and!; congruence.
  - destruct (flush_ (_metadata b) b) as [d2 [[]|e]] eqn:Ef; injection Et as <- <-; cbn.
    + apply flush_stored in Ef as [-> Hst]. cbn in *. rewrite bool_decide_eq_false_2 by congruence. done.
    + split; [done|]. split; [done|]. right. unfold _flush in Ef.
      destruct (writelines _ _) as [w [[]|e']]; simplify_eq. by eexists _, _.
Qed.

(** ** The validator *)

Section Validator.
  Context {V : Type} (validators : list (validator_key * codec (E := E) (V := V))).

(** The operations of the validator are such bodies, too. *)
Lemma api_lift {A : Type} (r : res (error E) A) : api_body (lift r).
Proof. destruct r as [a|e]; [exact (api_ret a)|exact (api_raise e)]. Qed.

Lemma api_for_each {A : Type} (l : list A) f : (∀ x, api_body (f x)) → api_body (for_each l f).
Proof. intros Hf. induction l as [|x l IH]; [apply api_ret|]. by apply api_bind. Qed.

Lemma validator_api key (v : V) dflt items :
  api_body (dv_getitem sha1_hex validators key) ∧ api_body (dv_get sha1_hex validators key dflt) ∧
  api_body (dv_setitem sha1_hex validators key v) ∧ api_body (dv_update sha1_hex validators items) ∧
  api_body (dv_contains sha1_hex validators key) ∧ api_body (dv_len sha1_hex validators) ∧
  api_body (dv_clear sha1_hex validators).
Proof.
  split_and!.
  - apply api_bind; [apply api_lift|]. intros c. apply api_bind; [apply api_getitem|]. intros x. apply api_lift.
  - apply api_bind; [apply api_lift|]. intros c. apply api_try; [|intros []; apply api_ret || apply api_raise].
    apply api_bind; [apply api_getitem|]. intros x. apply api_bind; [apply api_lift|]. intros y. apply api_ret.
  - apply api_bind; [apply api_lift|]. intros c. apply api_bind; [apply api_lift|]. intros x. apply api_setitem.
  - apply api_bind; [apply api_lift|]. intros md. apply api_update.
  - unfold dv_contains. destruct (in_validators _ _); [apply api_contains|apply api_ret].
  - apply api_bind; [|intros ks; apply api_ret]. apply api_bind; [apply api_iter|]. intros ks. apply api_ret.
  - apply api_for_each. intros [[k|p] c]; [|apply api_ret]. apply api_bind; [apply api_contains|].
    intros []; [apply api_delitem|apply api_ret].
Qed.

Abbreviation setitem_ := (dv_setitem (E := E) sha1_hex validators).
Abbreviation getitem_ := (dv_getitem (E := E) sha1_hex validators).

Lemma setitem_result key t d d1 :
  _isValid d = true → _inTransaction d = false →
  pd_setitem (E := E) sha1_hex key t d = (d1, Ok ()) →
  _metadata d1 = <[key := t]> (_metadata d) ∧ _isValid d1 = true ∧ _inTransaction d1 = false ∧
  (<[key := t]> (_metadata d) ≠ _metadata d → stored (_metaRW d1) = sealed (<[key := t]> (_metadata d))).
Proof.
  intros Hv Ht. unfold pd_setitem, transaction. rewrite Ht. unfold access.
  change (_isValid (set_transaction true d)) with (_isValid d). rewrite Hv.
  unfold modify, Prelude.get. munfold_goal. cbn -[_flush].
  case_bool_decide as He.
  - intros [= <-]. cbn. by rewrite <- He.
  - match goal with |- context [_flush sha1_hex ?m ?d0] => destruct (flush_ m d0) as [d2 [[]|e]] eqn:Ef end;
      cbn; intros [= <-]. apply flush_stored in Ef as [-> Hst]. cbn in *. done.
Qed.

Lemma encode_items_bad items key v :
  (key, v) ∈ items → (∃ e, (c ← _validator validators key; c.2 v) = Raise e) →
  ∃ e, encode_items (E := E) validators items = Raise e.
Proof.
  induction items as [|[k x] items IH]; [by intros ?%elem_of_nil|]. intros [[= <- <-]|Hin]%elem_of_cons [e He]; simpl.
  - destruct (_validator validators key) as [c|e1]; cbn in *; [|by eexists]. destruct (c.2 v); cbn in *; [done|by eexists].
  - destruct (_validator validators k) as [c|e1]; cbn; [|by eexists].
    destruct (c.2 x); cbn; [|by eexists]. destruct IH as [e2 ->]; [done|by exists e|]. by eexists.
Qed.

(** the validator.  A key without an entry is refused with KeyError and
    nothing changes.  For a key with an entry, a value that its encoder accepts and
    its decoder gives back: once it is set, getting the key returns it, and its
    encoding is in the metadata and, when that is a change, on storage.  An update
    that has one bad item, a key without an entry or a value its encoder refuses,
    raises before anything is changed. *)
Theorem validator_spec (key : text) (v : V) d :
  match _validator validators key with
  | Raise e => e = KeyError ∧ setitem_ key v d = (d, Raise KeyError) ∧ getitem_ key d = (d, Raise KeyError)
  | Ok c => ∀ t d1, c.2 v = Ok t → c.1 t = Ok v → _isValid d = true → _inTransaction d = false →
      setitem_ key v d = (d1, Ok ()) →
      getitem_ key d1 = (d1, Ok v) ∧ _metadata d1 = <[key := t]> (_metadata d) ∧
      (<[key := t]> (_metadata d) ≠ _metadata d → stored (_metaRW d1) = sealed (<[key := t]> (_metadata d)))
  end ∧
  (∀ items x, (key, x) ∈ items → (∃ e, (c ← _validator validators key; c.2 x) = Raise e) →
     ∃ e, dv_update sha1_hex validators items d = (d, Raise e)).
Proof.
  split.
  - unfold dv_setitem, dv_getitem. destruct (_validator validators key) as [c|e] eqn:Ev.
    + intros t d1 Henc Hdec Hv Ht Hset. munfold Hset. rewrite Henc in Hset.
      destruct (setitem_result key t d d1 Hv Ht Hset) as (Hmd & Hv1 & Ht1 & Hst).
      split_and!; [|done|done]. munfold_goal. unfold pd_getitem, access. rewrite Hv1, Hmd, lookup_insert_eq.
      by rewrite Hdec.
    + split_and!; [|munfold_goal..].
      * unfold _validator in Ev. repeat case_match; by simplify_eq.
      * unfold _validator in Ev. repeat case_match; by simplify_eq.
      * unfold _validator in Ev. repeat case_match; by simplify_eq.
  - intros items x Hin Hbad. destruct (encode_items_bad _ _ _ Hin Hbad) as [e He].
    exists e. unfold dv_update. by rewrite He.
Qed.
End Validator.
End PersistentFacts.

(** ** A dict in memory *)

(** A backend that is the list of its lines. *)
#[local] Instance lines_rw : MetaRW (list text) unit := {
  readlines w := (w, Ok w);
  writelines ls _ := (ls, Ok ()); }.

#[local] Instance lines_laws : MetaRWLaws (list text) unit.
Proof.
  refine {| stored w := w |}.
  - intros w w' r [= <- <-]. split; [done|]. by intros ls [= <-].
  - intros ls w w' [= <-]. done.
Defined.

(** A stand-in for the hash: the length of the data. *)
Definition length_hex (b : bytes) : text := str_d (zlen b).

Definition sample_md : gmap text text := <[str "POOL_UUID" := str "=a="]> {[str "VERSION" := str "5"]}.

Definition empty_dict : PersistentDict (W := list text) := mkDict ∅ [] true false.

Lemma sample_md_keys : keys_ok sample_md.
Proof.
  intros k Hk. unfold sample_md in Hk. rewrite lookup_insert_is_Some, lookup_singleton_is_Some in Hk.
  destruct Hk as [<-|[_ <-]]; unfold key_ok; apply (bool_decide_unpack _); vm_compute; exact I.
Qed.

Definition flushed : PersistentDict (W := list text) := fst (_flush (E := unit) length_hex sample_md empty_dict).

Lemma seal_roundtrip_witness :
  match snd (pd_copy (E := unit) length_hex (mkDict ∅ (_metaRW flushed) false false)) with
  | Ok md => md = sample_md
  | Raise e => ∃ e', e = RWError e'
  end.
Proof.
  destruct (pd_copy (E := unit) length_hex (mkDict ∅ (_metaRW flushed) false false)) as [d3 r] eqn:E.
  pose proof (seal_roundtrip (E := unit) length_hex empty_dict flushed (mkDict ∅ (_metaRW flushed) false false) d3
    sample_md r sample_md_keys eq_refl eq_refl eq_refl E) as H.
  destruct r; [apply H|exact H].
Defined.

(** Setting a key by the method of the dict and raising, on a dict that has not been read. *)
Definition failing_body : M (PersistentDict (W := list text)) (error unit) unit :=
  pd_setitem length_hex (str "VERSION") (str "6") ;; raise KeyError.

Definition unread : PersistentDict (W := list text) := mkDict ∅ (_metaRW flushed) false false.

Lemma transaction_atomic_witness :
  _metadata (fst (transaction (E := unit) length_hex failing_body unread)) = sample_md ∧
  stored (_metaRW (fst (transaction (E := unit) length_hex failing_body unread))) = _metaRW flushed.
Proof.
  assert (Hapi : api_body (E := unit) length_hex failing_body) by (apply api_bind; [apply api_setitem|intros; apply api_raise]).
  pose proof (transaction_atomic (E := unit) length_hex failing_body unread Hapi eq_refl) as H.
  assert (E0 : access (E := unit) length_hex (mret ()) (set_transaction true unread) = (mkDict sample_md (_metaRW flushed) true true, Ok ())).
  { vm_compute. reflexivity. }
  rewrite E0 in H. revert H. generalize (transaction length_hex failing_body unread). intros [d' r].
  assert (Eb : snd (failing_body (mkDict sample_md (_metaRW flushed) true true)) = Raise KeyError) by (vm_compute; reflexivity).
  destruct (failing_body (mkDict sample_md (_metaRW flushed) true true)) as [b rb]. cbn [snd] in Eb. subst rb.
  intros (_ & _ & _ & H). cbn [fst]. destruct r as [[]|e]; [destruct H as [H _]; discriminate|].
  destruct H as [H1 [[_ H2]|(a & e' & H2 & _)]]; [|discriminate]. split; [exact H1|exact H2].
Defined.

(** Integers in decimal. *)
Definition int_codec : codec (E := unit) (V := Z) :=
  (fun t => match py_int_str t with Some n => Ok n | None => Raise KeyError end, fun n => Ok (str_d n)).

Lemma validator_spec_witness :
  ∃ d1, dv_setitem (E := unit) length_hex [(Exact (str "VERSION"), int_codec)] (str "VERSION") 6 flushed = (d1, Ok ()) ∧
    dv_getitem (E := unit) length_hex [(Exact (str "VERSION"), int_codec)] (str "VERSION") d1 = (d1, Ok 6).
Proof.
  pose proof (proj1 (validator_spec (E := unit) length_hex [(Exact (str "VERSION"), int_codec)] (str "VERSION") 6 flushed)) as H.
  change (_validator [(Exact (str "VERSION"), int_codec)] (str "VERSION")) with (Ok (E := error unit) int_codec) in H.
  destruct (dv_setitem (E := unit) length_hex [(Exact (str "VERSION"), int_codec)] (str "VERSION") 6 flushed)
    as [d1 r] eqn:E.
  assert (r = Ok ()) as ->.
  { apply (f_equal (fun x => is_ok (snd x))) in E. vm_compute in E. destruct r as [[]|]; [reflexivity|discriminate]. }
  exists d1. split; [reflexivity|].
  apply (H (str_d 6) d1 eq_refl); [vm_compute; reflexivity|reflexivity|reflexivity|reflexivity].
Defined.
