(* ===== verification/Mailbox.v ===== *)
(** * Mailbox between hosts and the SPM: [storage/mailbox.py]

    Hosts send extend requests to the storage pool manager through mailboxes on
    shared storage.  The host side ([HSM_MailMonitor]) owns 63 message slots in
    its outgoing mailbox and compares the incoming one with its last copy; the
    manager side ([SPM_MailMonitor]) reads the mailboxes of all hosts and writes
    replies.  Both sides are modelled on the bytes of the mail; reading and
    writing the storage areas are inputs and outputs of the operations. *)
From Stdlib Require Import ZArith Lia.
From stdpp Require Import base gmap list strings.
From S2P Require Import Prelude Text.

Definition CHECKSUM_BYTES : Z := 4.
Definition MAILBOX_SIZE : Z := 4096.
Definition PACKED_UUID_SIZE : Z := 16.
Definition VOLUME_MAX_SIZE : Z := 4294967295.
Definition SIZE_CHARS : Z := 16.
Definition MESSAGE_VERSION : bytes := str "1".
Definition MESSAGE_SIZE : Z := 64.
Definition CLEAN_MESSAGE : bytes := zrepeat MESSAGE_SIZE 1.
Definition EXTEND_CODE : bytes := str "xtnd".
Definition REPLY_OK : Z := 1.
Definition EMPTYMAILBOX : bytes := zrepeat MAILBOX_SIZE 0.
Definition SLOTS_PER_MAILBOX : Z := MAILBOX_SIZE / MESSAGE_SIZE.
Definition MESSAGES_PER_MAILBOX : Z := SLOTS_PER_MAILBOX - 1.

Inductive error :=
| InvalidParameterException | RuntimeError | ValueError | KeyError | IndexError
| AttributeError | IOError.

(** ** Integers in bytes *)

(** [struct.pack] of an unsigned integer, least significant byte first. *)
Fixpoint le_bytes (k : nat) (n : Z) : bytes :=
  match k with
  | O => []
  | S k' => n mod 256 :: le_bytes k' (n / 256)
  end.

(** [struct.unpack] of the same. *)
Fixpoint le_value (b : bytes) : Z :=
  match b with
  | [] => 0
  | x :: b' => x + 256 * le_value b'
  end.

Definition sum_bytes (data : bytes) : Z := foldr Z.add 0 data.

Definition checksum (data : bytes) : Z := Z.land (sum_bytes data) (2 ^ (CHECKSUM_BYTES * 8) - 1).

(** [struct.pack('<l', checksum(data))]; a checksum of 2^31 or more would raise,
    which the size of a mailbox excludes. *)
Definition packed_checksum (data : bytes) : bytes := le_bytes 4 (checksum data).

Definition pZeroChecksum : bytes := packed_checksum EMPTYMAILBOX.

(** ** UUIDs: [misc.packUuid], [misc.unpackUuid], [misc.validateUUID] *)

Definition is_hex (c : Z) : bool := is_digit c || ((97 <=? c) && (c <=? 102)).

Definition hex_value (c : Z) : Z := if is_digit c then c - 48 else c - 87.

Definition hex_char (n : Z) : Z := if n <? 10 then 48 + n else 87 + n.

(** [k] lower case hexadecimal digits of a number below [16^k]. *)
Fixpoint hex_fixed (k : nat) (n : Z) : text :=
  match k with
  | O => []
  | S k' => hex_fixed k' (n / 16) ++ [hex_char (n mod 16)]
  end.

Definition hex_number (s : text) : Z := foldl (fun acc c => acc * 16 + hex_value c) 0 s.

(** [UUID_REGEX.match(s)]: groups of 8, 4, 4, 4 and 12 lower case hexadecimal
    digits; the final [$] lets a newline follow. *)
Definition uuid_shape (s : text) : bool :=
  (zlen s =? 36) && forallb is_hex (slice 0 8 s ++ slice 9 13 s ++ slice 14 18 s ++ slice 19 23 s ++ slice 24 36 s)
  && forallb (Z.eqb 45) (slice 8 9 s ++ slice 13 14 s ++ slice 18 19 s ++ slice 23 24 s).

Definition UUID_REGEX (s : text) : bool :=
  uuid_shape s || (bool_decide (last s = Some 10) && uuid_shape (slice 0 36 s) && (zlen s =? 37)).

Definition validateUUID (s : text) : res error unit :=
  if UUID_REGEX s then Ok () else Raise InvalidParameterException.

(** [uuid.UUID(s).int] of a string that [UUID_REGEX] matches: its digits, of
    which there must be 32. *)
Definition UUID_int (s : text) : res error Z :=
  let digits := filter (.≠ 45) s in
  if zlen digits =? 32 then Ok (hex_number digits) else Raise ValueError.

(** [str(uuid.UUID(int=value))] *)
Definition UUID_str (value : Z) : text :=
  let h := hex_fixed 32 value in
  slice 0 8 h ++ [45] ++ slice 8 12 h ++ [45] ++ slice 12 16 h ++ [45] ++ slice 16 20 h ++ [45] ++ slice 20 32 h.

Definition packUuid (s : text) : res error bytes :=
  value ← UUID_int s;
  mret (le_bytes 8 (value mod 2 ^ 64) ++ le_bytes 8 (value / 2 ^ 64)).

Definition unpackUuid (s : bytes) : text :=
  UUID_str (le_value (slice 0 8 s) + le_value (slice 8 16 s) * 2 ^ 64).

(** [int(b, 16)] of a bytes object: white space, sign, prefix and single
    underscores are accepted; [None] is ValueError. *)
Definition hex_digit (c : Z) : option Z :=
  if is_digit c then Some (c - 48)
  else if (97 <=? c) && (c <=? 102) then Some (c - 87)
  else if (65 <=? c) && (c <=? 70) then Some (c - 55)
  else None.

Fixpoint hex_digits (acc : Z) (under : bool) (l : bytes) : option Z :=
  match l with
  | [] => if under then None else Some acc
  | c :: l' =>
      match hex_digit c with
      | Some v => hex_digits (16 * acc + v) false l'
      | None => if (c =? 95) && negb under then hex_digits acc true l' else None
      end
  end.

Definition hex_body (l : bytes) : option Z :=
  match l with
  | c :: l' => match hex_digit c with Some v => hex_digits v false l' | None => None end
  | [] => None
  end.

Definition hex_unsigned (l : bytes) : option Z :=
  match l with
  | z :: x :: l' =>
      if (z =? 48) && ((x =? 120) || (x =? 88)) then
        match l' with
        | u :: l'' => if u =? 95 then hex_body l'' else hex_body l'
        | [] => None
        end
      else hex_body l
  | _ => hex_body l
  end.

Definition py_int16 (l : bytes) : option Z :=
  match stripp is_space_b l with
  | c :: l' =>
      if c =? 45 then Z.opp <$> hex_unsigned l'
      else if c =? 43 then hex_unsigned l'
      else hex_unsigned (c :: l')
  | [] => None
  end.

(** ** Extend messages *)

Record volume_data := mkVolume { poolID : text; domainID : text; volumeID : text }.

(** A message: its volume, its payload and the id of its callback. *)
Record Message := mkMessage {
  volumeData : volume_data;
  payload : bytes;
  callback : option nat;
}.

Definition ljust (n c : Z) (b : bytes) : bytes := b ++ zrepeat (n - zlen b) c.

Definition SPM_Extend_Message (v : volume_data) (newSize : Z) (cb : option nat) : res error Message :=
  if (newSize <? 0) || (VOLUME_MAX_SIZE <? newSize) then Raise InvalidParameterException
  else
    _ ← validateUUID (domainID v);
    _ ← validateUUID (volumeID v);
    domain ← packUuid (domainID v);
    volume ← packUuid (volumeID v);
    let size := hex_fixed 16 newSize in
    mret (mkMessage v (ljust MESSAGE_SIZE 48 (MESSAGE_VERSION ++ EXTEND_CODE ++ domain ++ volume ++ size)) cb).

(** [checkReply]: the reply is for the same domain and volume *)
Definition checkReply (m : Message) (reply : bytes) : res error Z :=
  let sizeOffset := 5 + 2 * PACKED_UUID_SIZE in
  if bool_decide (slice 0 sizeOffset (payload m) = slice 0 sizeOffset reply) then Ok REPLY_OK
  else Raise RuntimeError.

(** What [processRequest] reads from a payload. *)
Definition parse_request (p : bytes) : res error (text * text * Z) :=
  let sdOffset := 5 in
  let volumeOffset := sdOffset + PACKED_UUID_SIZE in
  let sizeOffset := volumeOffset + PACKED_UUID_SIZE in
  match py_int16 (slice sizeOffset (sizeOffset + SIZE_CHARS) p) with
  | None => Raise ValueError
  | Some size =>
      Ok (unpackUuid (slice sdOffset (sdOffset + PACKED_UUID_SIZE) p),
          unpackUuid (slice volumeOffset (volumeOffset + PACKED_UUID_SIZE) p), size)
  end.

(** [processRequest] up to the reply it sends: the size is zero when extending
    the volume failed, or when the size does not fit a message.
    [extendVolume] is the pool's. *)
Definition processRequest {W : Type} (extendVolume : text → text → Z → M W error unit)
    (spUUID : text) (p : bytes) (w : W) : W * res error Message :=
  match parse_request p with
  | Raise e => (w, Raise e)
  | Ok (domain, volume, size) =>
      let v := mkVolume spUUID domain volume in
      let '(w', r) := extendVolume domain volume size w in
      (w', match r with
           | Ok _ => match SPM_Extend_Message v size None with
                     | Ok msg => Ok msg
                     | Raise _ => SPM_Extend_Message v 0 None
                     end
           | Raise _ => SPM_Extend_Message v 0 None
           end)
  end.

(** ** Message slots *)

Definition slot_start (i : Z) : Z := i * MESSAGE_SIZE.

(** [mail[start:start + MESSAGE_SIZE]] *)
Definition slot (i : Z) (mail : bytes) : bytes := slice (slot_start i) (slot_start i + MESSAGE_SIZE) mail.

(** [mail[0:start] + data + mail[start + MESSAGE_SIZE:]] *)
Definition set_slot (i : Z) (data mail : bytes) : bytes :=
  slice 0 (slot_start i) mail ++ data ++ slice (slot_start i + MESSAGE_SIZE) (zlen mail) mail.

(** The first byte of the slot is null. *)
Definition slot_empty (i : Z) (mail : bytes) : bool :=
  bool_decide (slice (slot_start i) (slot_start i + 1) mail = [0]).

(** [mail[0:start] + data + mail[start + MESSAGE_SIZE:end]], as the manager
    writes it. *)
Definition set_slot_upto (i stop : Z) (data mail : bytes) : bytes :=
  slice 0 (slot_start i) mail ++ data ++ slice (slot_start i + MESSAGE_SIZE) stop mail.

(** The value of [j] after [for j in range(start, start + MESSAGE_SIZE)] with a
    break at the first difference: the index of the difference, or the last
    index; relative to [start].  [None] is IndexError. *)
Fixpoint scan (k : nat) (a b : bytes) (j : Z) : option Z :=
  match k with
  | O => Some (j - 1)
  | S k' =>
      match a, b with
      | x :: a', y :: b' => if x =? y then scan k' a' b' (j + 1) else Some j
      | _, _ => None
      end
  end.

(** ** The host side *)

(** What is in a used slot: a message waiting for its reply, or the
    acknowledgement of one. *)
Inductive active := Waiting (m : Message) | Cleaned.

(** [self._activeMessages[i][j]] for every [j] *)
Definition active_bytes (a : active) : bytes :=
  match a with Waiting m => payload m | Cleaned => CLEAN_MESSAGE end.

Record HSM_MailMonitor := mkHSM {
  _queue : list Message;
  _activeMessages : gmap Z active;
  _used_slots_array : list Z;
  _outgoingMail : bytes;
  _incomingMail : bytes;
  _msgCounter : Z;
  (** the callbacks handed to the thread pool, with their volumes *)
  _callbacks : list (nat * volume_data);
}.

(** The monitor before its first read of the incoming mailbox. *)
Definition HSM_init (q : list Message) : HSM_MailMonitor :=
  mkHSM q ∅ (zrepeat MESSAGES_PER_MAILBOX 0) EMPTYMAILBOX EMPTYMAILBOX 0 [].

Abbreviation HM A := (M HSM_MailMonitor error A).

(** [_initMailbox]; [read] is what reading the mailbox gave.  The result is the
    flag [_init]: requests are not processed before it is set. *)
Definition _initMailbox (read : option bytes) : HM bool := fun h =>
  match read with
  | Some out => (mkHSM (_queue h) (_activeMessages h) (_used_slots_array h) (_outgoingMail h) out (_msgCounter h)
                   (_callbacks h), Ok true)
  | None => (h, Ok false)
  end.

Definition used (i : Z) (h : HSM_MailMonitor) : bool :=
  match _used_slots_array h !! Z.to_nat i with Some 0 | None => false | Some _ => true end.

(** The slot indices, in the order of the loops. *)
Definition slot_indices : list Z := seqZ 0 MESSAGES_PER_MAILBOX.

(** A reply in slot [i] that is new: the body of the loop of [_handleResponses]
    after its checks.  [accepts] tells whether the thread pool takes the
    callback; an error of it is logged. *)
Definition handle_clean (i : Z) : HM unit := fun h =>
  match _activeMessages h !! i with
  | None => (h, Raise KeyError)
  | Some _ =>
      (mkHSM (_queue h) (delete i (_activeMessages h)) (<[Z.to_nat i := 0]> (_used_slots_array h))
         (set_slot i (zrepeat MESSAGE_SIZE 0) (_outgoingMail h)) (_incomingMail h) (_msgCounter h - 1)
         (_callbacks h), Ok ())
  end.

Definition handle_reply (accepts : nat → bool) (i : Z) (newMsg : bytes) : HM unit := fun h =>
  match _activeMessages h !! i with
  | None => (h, Raise KeyError)
  | Some msg =>
      let clean cbs :=
        mkHSM (_queue h) (<[i := Cleaned]> (_activeMessages h)) (_used_slots_array h)
          (set_slot i CLEAN_MESSAGE (_outgoingMail h)) (_incomingMail h) (_msgCounter h) cbs in
      match msg with
      | Waiting m =>
          match checkReply m newMsg, callback m with
          | Ok _, Some cb =>
              (clean (if accepts cb then _callbacks h ++ [(cb, volumeData m)] else _callbacks h), Ok ())
          | _, _ => (clean (_callbacks h), Ok ())
          end
      | Cleaned => (clean (_callbacks h), Raise AttributeError)
      end
  end.

(** One iteration: [rc] becomes true when there was a new reply. *)
Definition handle_response (accepts : nat → bool) (newMsgs : bytes) (i : Z) (rc : bool) : HM bool := fun h =>
  if negb (used i h) then (h, Ok rc)
  else if slot_empty i newMsgs then (h, Ok rc)
  else
    match scan (Z.to_nat MESSAGE_SIZE) (slot i newMsgs) (slot i (_incomingMail h)) 0 with
    | None => (h, Raise IndexError)
    | Some j =>
        if j =? MESSAGE_SIZE - 1 then (h, Ok rc)
        else
          let newMsg := slot i newMsgs in
          if bool_decide (newMsg = CLEAN_MESSAGE) then (handle_clean i ;; mret true) h
          else (handle_reply accepts i newMsg ;; mret true) h
    end.

Fixpoint handle_responses_from (accepts : nat → bool) (newMsgs : bytes) (idx : list Z) (rc : bool) : HM bool :=
  match idx with
  | [] => mret rc
  | i :: idx' => rc ← handle_response accepts newMsgs i rc; handle_responses_from accepts newMsgs idx' rc
  end.

Definition _handleResponses (accepts : nat → bool) (newMsgs : bytes) : HM bool :=
  rc ← handle_responses_from accepts newMsgs slot_indices false;
  modify (fun h => mkHSM (_queue h) (_activeMessages h) (_used_slots_array h) (_outgoingMail h) newMsgs
                     (_msgCounter h) (_callbacks h)) ;;
  mret rc.

(** [_checkForMail]; [read] is what reading the incoming mailbox gave. *)
Definition hsm_checkForMail (accepts : nat → bool) (read : option bytes) : HM bool :=
  match read with
  | None => raise RuntimeError
  | Some in_mail =>
      if negb (zlen in_mail =? MAILBOX_SIZE) then raise RuntimeError
      else _handleResponses accepts in_mail
  end.

(** [_sendMail]: the mail with its checksum is what is written. *)
Definition _sendMail : HM bytes := fun h =>
  let data := slice 0 (MAILBOX_SIZE - CHECKSUM_BYTES) (_outgoingMail h) in
  let mail := data ++ packed_checksum data in
  (mkHSM (_queue h) (_activeMessages h) (_used_slots_array h) mail (_incomingMail h) (_msgCounter h) (_callbacks h),
   Ok mail).

(** The loop of [_handleMessage]: the first free slot, or a duplicate. *)
Inductive found := Duplicate | FreeSlot (i : option Z).

Fixpoint find_slot (message : bytes) (h : HSM_MailMonitor) (idx : list Z) (freeSlot : option Z)
    : res error found :=
  match idx with
  | [] => Ok (FreeSlot freeSlot)
  | i :: idx' =>
      if negb (used i h) then find_slot message h idx' (match freeSlot with None => Some i | _ => freeSlot end)
      else match _activeMessages h !! i with
           | None => Raise KeyError
           | Some a => if bool_decide (message = active_bytes a) then Ok Duplicate
                       else find_slot message h idx' freeSlot
           end
  end.

Definition _handleMessage (message : Message) : HM unit := fun h =>
  match find_slot (payload message) h slot_indices None with
  | Raise e => (h, Raise e)
  | Ok Duplicate => (h, Ok ())
  | Ok (FreeSlot None) => (h, Raise RuntimeError)
  | Ok (FreeSlot (Some freeSlot)) =>
      (mkHSM (_queue h) (<[freeSlot := Waiting message]> (_activeMessages h))
         (<[Z.to_nat freeSlot := 1]> (_used_slots_array h))
         (set_slot freeSlot (payload message) (_outgoingMail h)) (_incomingMail h) (_msgCounter h + 1) (_callbacks h),
       Ok ())
  end.

(** [sendExtendMsg] *)
Definition sendExtendMsg (pool : text) (v : volume_data) (newSize : Z) (cb : option nat) : HM unit :=
  msg ← lift (SPM_Extend_Message v newSize cb);
  if bool_decide (poolID v = pool) then
    modify (fun h => mkHSM (_queue h ++ [msg]) (_activeMessages h) (_used_slots_array h) (_outgoingMail h)
                       (_incomingMail h) (_msgCounter h) (_callbacks h))
  else raise ValueError.

(** [self._queue.get(block=False)] *)
Definition queue_get : HM (option Message) := fun h =>
  match _queue h with
  | [] => (h, Ok None)
  | m :: q => (mkHSM q (_activeMessages h) (_used_slots_array h) (_outgoingMail h) (_incomingMail h)
                 (_msgCounter h) (_callbacks h), Ok (Some m))
  end.

(** The loop of [_run] that takes messages while there are free slots; [fuel]
    bounds the length of the queue. *)
Fixpoint take_messages (fuel : nat) (sendMail : bool) : HM bool :=
  match fuel with
  | O => mret sendMail
  | S fuel' => h ← get;
      if Z.of_nat (size (_activeMessages h)) <? MESSAGES_PER_MAILBOX then
        m ← queue_get;
        match m with
        | None => mret sendMail
        | Some message => _handleMessage message ;; take_messages fuel' true
        end
      else mret sendMail
  end.

(** One round of [_run], from the point where there is an active message or a
    message in the queue: take the messages, check for mail, send mail when
    anything changed.  The result is what was written, if anything.  An error of
    reading the mail is logged; another one ends the round. *)
Definition run_round (accepts : nat → bool) (read : option bytes) : HM (option bytes) :=
  h ← get;
  sendMail ← take_messages (S (length (_queue h))) false;
  changed ← try_except (hsm_checkForMail accepts read) (fun _ => mret false);
  if sendMail || changed then mail ← _sendMail; mret (Some mail) else mret None.

(** The [finally] clause of [_run]: clear the outgoing mailbox. *)
Definition run_stop : HM bytes :=
  modify (fun h => mkHSM (_queue h) (_activeMessages h) (_used_slots_array h) EMPTYMAILBOX (_incomingMail h)
                     (_msgCounter h) (_callbacks h)) ;;
  _sendMail.

(** ** The manager side *)

Record SPM_MailMonitor := mkSPM {
  _numHosts : Z;
  s_outgoingMail : bytes;
  s_incomingMail : bytes;
  _messageTypes : list bytes;
  (** the requests handed to the thread pool: message id and payload *)
  _requests : list (Z * bytes);
}.

Definition _outMailLen (s : SPM_MailMonitor) : Z := MAILBOX_SIZE * _numHosts s.

Definition SPM_init (maxHostID : Z) : SPM_MailMonitor :=
  mkSPM maxHostID (zrepeat (MAILBOX_SIZE * maxHostID) 0) (zrepeat (MAILBOX_SIZE * maxHostID) 0) [] [].

Definition registerMessageType (messageType : bytes) (s : SPM_MailMonitor) : SPM_MailMonitor :=
  mkSPM (_numHosts s) (s_outgoingMail s) (s_incomingMail s) (messageType :: _messageTypes s) (_requests s).

(** [del self._messageTypes[messageType]] *)
Definition unregisterMessageType (messageType : bytes) : M SPM_MailMonitor error unit := fun s =>
  if bool_decide (messageType ∈ _messageTypes s) then
    (mkSPM (_numHosts s) (s_outgoingMail s) (s_incomingMail s) (filter (.≠ messageType) (_messageTypes s))
       (_requests s), Ok ())
  else (s, Raise KeyError).

Definition validateMailbox (mailbox : bytes) : bool :=
  let data := slice 0 (zlen mailbox - CHECKSUM_BYTES) mailbox in
  let csum := slice (zlen mailbox - CHECKSUM_BYTES) (zlen mailbox) mailbox in
  let expected := packed_checksum data in
  if negb (bool_decide (csum = expected)) then false
  else if bool_decide (expected = pZeroChecksum) then false
  else true.

Definition mailbox_of (host : Z) (mail : bytes) : bytes :=
  slice (host * MAILBOX_SIZE) (host * MAILBOX_SIZE + MAILBOX_SIZE) mail.

(** [newMail] with the mailbox of [host] emptied *)
Definition clear_mailbox (host : Z) (mail : bytes) : bytes :=
  slice 0 (host * MAILBOX_SIZE) mail ++ EMPTYMAILBOX ++
  slice (host * MAILBOX_SIZE + MAILBOX_SIZE) (zlen mail) mail.

(** A new message in slot [msgId]; [accepts] tells whether the thread pool takes
    the request, an error of it is logged. *)
Definition dispatch (accepts : Z → bool) (newMail : bytes) (msgId : Z) (s : SPM_MailMonitor) : SPM_MailMonitor :=
  let msg := slot msgId newMail in
  if bool_decide (slice 1 5 msg ∈ _messageTypes s) then
    if accepts msgId
    then mkSPM (_numHosts s) (s_outgoingMail s) (s_incomingMail s) (_messageTypes s) (_requests s ++ [(msgId, msg)])
    else s
  else s.

(** The loop over the slots of a host, from slot [i] on: the mail (emptied when it
    does not validate), whether to send, the state. *)
Fixpoint handle_slots (accepts : Z → bool) (host : Z) (idx : list Z) (isMailboxValidated : bool)
    (newMail : bytes) (send : bool) (s : SPM_MailMonitor) : bytes * bool * SPM_MailMonitor :=
  match idx with
  | [] => (newMail, send, s)
  | i :: idx' =>
      let msgId := host * SLOTS_PER_MAILBOX + i in
      if slot_empty msgId newMail then handle_slots accepts host idx' isMailboxValidated newMail send s
      else if negb isMailboxValidated && negb (validateMailbox (mailbox_of host newMail))
      then (clear_mailbox host newMail, send, s)
      else
        let newMsg := slot msgId newMail in
        if bool_decide (newMsg = CLEAN_MESSAGE) then
          handle_slots accepts host idx' true newMail true
            (mkSPM (_numHosts s) (set_slot_upto msgId (_outMailLen s) CLEAN_MESSAGE (s_outgoingMail s)) (s_incomingMail s)
               (_messageTypes s) (_requests s))
        else if bool_decide (newMsg = slot msgId (s_incomingMail s))
        then handle_slots accepts host idx' true newMail send s
        else handle_slots accepts host idx' true newMail send (dispatch accepts newMail msgId s)
  end.

Fixpoint handle_hosts (accepts : Z → bool) (hosts : list Z) (newMail : bytes) (send : bool)
    (s : SPM_MailMonitor) : bytes * bool * SPM_MailMonitor :=
  match hosts with
  | [] => (newMail, send, s)
  | host :: hosts' =>
      let '(newMail, send, s) := handle_slots accepts host slot_indices false newMail send s in
      handle_hosts accepts hosts' newMail send s
  end.

Definition _handleRequests (accepts : Z → bool) (newMail : bytes) (s : SPM_MailMonitor)
    : SPM_MailMonitor * bool :=
  let '(newMail, send, s) := handle_hosts accepts (seqZ 0 (_numHosts s)) newMail false s in
  (mkSPM (_numHosts s) (s_outgoingMail s) newMail (_messageTypes s) (_requests s), send).

(** [_checkForMail]: what reading all mailboxes gave, and what is written. *)
Definition spm_checkForMail (accepts : Z → bool) (read : option bytes)
    : M SPM_MailMonitor error (option bytes) := fun s =>
  match read with
  | None => (s, Raise IOError)
  | Some in_mail =>
      if negb (zlen in_mail =? _outMailLen s) then (s, Raise RuntimeError)
      else
        let '(s', send) := _handleRequests accepts in_mail s in
        (s', Ok (if send then Some (s_outgoingMail s') else None))
  end.

(** [sendReply]: the mailbox that is written, and its index (the [seek] of dd). *)
Definition sendReply (msgID : Z) (msg : Message) (s : SPM_MailMonitor) : SPM_MailMonitor * (Z * bytes) :=
  let out := set_slot_upto msgID (_outMailLen s) (payload msg) (s_outgoingMail s) in
  let mailboxOffset := msgID / SLOTS_PER_MAILBOX * MAILBOX_SIZE in
  (mkSPM (_numHosts s) out (s_incomingMail s) (_messageTypes s) (_requests s),
   (mailboxOffset / MAILBOX_SIZE, slice mailboxOffset (mailboxOffset + MAILBOX_SIZE) out)).
