(* ===== verification/MailboxFacts.v ===== *)
(** * Mailbox: messages, slots and checksums

    The codecs of the extend message, the mail as a sequence of slots, and the
    checksum of a mailbox. *)
From Stdlib Require Import ZArith Lia.
From stdpp Require Import base gmap list strings.
From S2P Require Import Prelude Text Mailbox.

(** Linear arithmetic with the sizes of mailboxes and messages. *)
Ltac mlia :=
  unfold slot_start in *; change MESSAGES_PER_MAILBOX with 63 in *; change SLOTS_PER_MAILBOX with 64 in *;
  change MAILBOX_SIZE with 4096 in *; change MESSAGE_SIZE with 64 in *; change CHECKSUM_BYTES with 4 in *; lia.

(** ** Little-endian integers *)

Lemma length_le_bytes k n : length (le_bytes k n) = k.
Proof. revert n. induction k; intros; simpl; auto. Qed.

Lemma zlen_le_bytes k n : zlen (le_bytes k n) = Z.of_nat k.
Proof. unfold zlen. by rewrite length_le_bytes. Qed.

Lemma le_value_bytes k n : 0 <= n < 256 ^ Z.of_nat k → le_value (le_bytes k n) = n.
Proof.
  revert n. induction k as [|k IH]; intros n Hn.
  - change (256 ^ Z.of_nat 0) with 1 in Hn. simpl. lia.
  - rewrite Nat2Z.inj_succ, Z.pow_succ_r in Hn by lia. simpl.
    rewrite IH; [|split; [apply Z.div_pos; lia|apply Z.div_lt_upper_bound; lia]].
    pose proof (Z.div_mod n 256). lia.
Qed.

Lemma le_bytes_inj k m n :
  0 <= m < 256 ^ Z.of_nat k → 0 <= n < 256 ^ Z.of_nat k → le_bytes k m = le_bytes k n → m = n.
Proof. intros Hm Hn H. apply (f_equal le_value) in H. by rewrite !le_value_bytes in H. Qed.

(** ** Hexadecimal *)

Lemma hex_char_value n : 0 <= n < 16 → is_hex (hex_char n) = true ∧ hex_value (hex_char n) = n.
Proof.
  intros Hn. unfold hex_char, is_hex, hex_value, is_digit. destruct (Z.ltb_spec n 10); zcmp; lia || (split; [done|lia]).
Qed.

Lemma hex_value_char c : is_hex c = true → 0 <= hex_value c < 16 ∧ hex_char (hex_value c) = c.
Proof.
  intros Hc. unfold is_hex, hex_char, hex_value in *. destruct (is_digit c) eqn:Ed; unfold is_digit in *; simpl in Hc.
  - boolp. split; [lia|]. zcmp. lia.
  - boolp. split; [lia|]. zcmp. lia.
Qed.

Lemma hex_number_snoc l c : hex_number (l ++ [c]) = hex_number l * 16 + hex_value c.
Proof. unfold hex_number. by rewrite foldl_app. Qed.

Lemma hex_number_bound l : Forall (fun c => is_hex c = true) l → 0 <= hex_number l < 16 ^ zlen l.
Proof.
  induction l as [|c l IH] using rev_ind; [done|]. intros [Hl Hc]%Forall_app.
  apply Forall_cons in Hc as [Hc _]. apply hex_value_char in Hc as [Hc _]. specialize (IH Hl).
  rewrite hex_number_snoc, zlen_app. change (zlen [c]) with 1. rewrite Z.pow_add_r by (unfold zlen; lia).
  change (16 ^ 1) with 16. lia.
Qed.

Lemma hex_fixed_number l : Forall (fun c => is_hex c = true) l → hex_fixed (length l) (hex_number l) = l.
Proof.
  induction l as [|c l IH] using rev_ind; [done|]. intros [Hl Hc]%Forall_app.
  apply Forall_cons in Hc as [Hc _]. apply hex_value_char in Hc as [Hv Hc].
  rewrite hex_number_snoc, length_app, Nat.add_comm. simpl.
  rewrite Z.div_add_l, (Z.div_small (hex_value c)), Z.add_0_r by lia. rewrite IH by done. f_equal.
  rewrite Z.add_comm, Z.mod_add, Z.mod_small, Hc by lia. done.
Qed.

Lemma length_hex_fixed k n : length (hex_fixed k n) = k.
Proof. revert n. induction k; intros; simpl; [done|]. rewrite length_app, IHk. simpl. lia. Qed.

Lemma hex_fixed_hex k n : Forall (fun c => is_hex c = true) (hex_fixed k n).
Proof.
  revert n. induction k as [|k IH]; intros n; simpl; [constructor|]. apply Forall_app. split; [done|].
  apply Forall_singleton. apply hex_char_value. apply Z.mod_pos_bound. lia.
Qed.

Lemma hex_number_fixed k n : 0 <= n < 16 ^ Z.of_nat k → hex_number (hex_fixed k n) = n.
Proof.
  revert n. induction k as [|k IH]; intros n Hn.
  - change (16 ^ Z.of_nat 0) with 1 in Hn. simpl. unfold hex_number. simpl. lia.
  - rewrite Nat2Z.inj_succ, Z.pow_succ_r in Hn by lia. simpl. rewrite hex_number_snoc, IH.
    + rewrite (proj2 (hex_char_value _ (Z.mod_pos_bound n 16 ltac:(lia)))). pose proof (Z.div_mod n 16). lia.
    + split; [apply Z.div_pos; lia|apply Z.div_lt_upper_bound; lia].
Qed.

Lemma hex_digit_value c : is_hex c = true → hex_digit c = Some (hex_value c).
Proof.
  intros Hc. unfold is_hex, hex_digit, hex_value in *. destruct (is_digit c); [done|]. simpl in Hc. by rewrite Hc.
Qed.

Lemma hex_digits_all l acc :
  Forall (fun c => is_hex c = true) l → hex_digits acc false l = Some (foldl (fun a c => a * 16 + hex_value c) acc l).
Proof.
  intros Hl. revert acc. induction Hl as [|c l Hc Hl IH]; intros acc; simpl; [done|].
  rewrite hex_digit_value by done. rewrite IH. do 2 f_equal. lia.
Qed.

Lemma is_hex_bounds c : is_hex c = true → 48 <= c <= 57 ∨ 97 <= c <= 102.
Proof. unfold is_hex, is_digit. intros H. boolp. destruct H; boolp; lia. Qed.

(** Digits are read as they were written. *)
Lemma py_int16_hex l : l ≠ [] → Forall (fun c => is_hex c = true) l → py_int16 l = Some (hex_number l).
Proof.
  intros Hne Hl. unfold py_int16. rewrite stripp_id.
  2:{ eapply Forall_impl; [exact Hl|]. intros c Hc%is_hex_bounds. unfold is_space_b.
      destruct (Z.eqb_spec c 32); [lia|]. simpl. destruct (Z.leb_spec 9 c), (Z.leb_spec c 13); lia || done. }
  destruct l as [|c l]; [done|]. apply Forall_cons in Hl as [Hc Hl]. pose proof (is_hex_bounds c Hc).
  rewrite (proj2 (Z.eqb_neq c 45)), (proj2 (Z.eqb_neq c 43)) by lia.
  assert (hex_unsigned (c :: l) = hex_body (c :: l)) as ->.
  { unfold hex_unsigned. destruct l as [|x l]; [done|]. apply Forall_cons in Hl as [Hx _].
    apply is_hex_bounds in Hx. rewrite (proj2 (Z.eqb_neq x 120)), (proj2 (Z.eqb_neq x 88)) by lia.
    by rewrite andb_false_r. }
  unfold hex_body. rewrite hex_digit_value by done. by rewrite hex_digits_all.
Qed.

Definition is_byte (x : Z) : Prop := 0 <= x < 256.

Lemma le_bytes_are_bytes k n : Forall is_byte (le_bytes k n).
Proof.
  revert n. induction k as [|k IH]; intros n; [constructor|]. constructor; [|apply IH].
  apply Z.mod_pos_bound. lia.
Qed.

Lemma Ok_inj {E A} (x y : A) : Ok (E:=E) x = Ok y → x = y.
Proof. by intros [= ->]. Qed.

#[local] Opaque le_bytes hex_fixed.

(** ** UUIDs *)

(** The groups of a uuid between its dashes. *)
Definition uuid_groups (s : text) : text :=
  slice 0 8 s ++ slice 9 13 s ++ slice 14 18 s ++ slice 19 23 s ++ slice 24 36 s.

Lemma dash_slice i s :
  0 <= i → i < zlen s → forallb (Z.eqb 45) (slice i (i + 1) s) = true → slice i (i + 1) s = [45].
Proof.
  intros Hi Hl. pose proof (zlen_slice i (i + 1) s ltac:(lia) ltac:(lia)) as Hz.
  destruct (slice i (i + 1) s) as [|x [|]]; unfold zlen in Hz; simpl in Hz; [lia| |lia].
  cbn [forallb]. intros H. apply andb_true_iff in H as [H%Z.eqb_eq _]. by subst.
Qed.

Lemma uuid_shape_inv s :
  uuid_shape s = true →
  Forall (fun c => is_hex c = true) (uuid_groups s) ∧ length (uuid_groups s) = 32%nat ∧
  s = slice 0 8 s ++ [45] ++ slice 9 13 s ++ [45] ++ slice 14 18 s ++ [45] ++ slice 19 23 s ++ [45] ++ slice 24 36 s.
Proof.
  unfold uuid_shape. intros H. apply andb_true_iff in H as [[Hlen Hhex]%andb_true_iff Hdash].
  apply Z.eqb_eq in Hlen. rewrite !forallb_app in Hdash.
  repeat (apply andb_true_iff in Hdash as [? Hdash]).
  assert (∀ i j, 0 <= i <= j → j <= 36 → length (slice i j s) = Z.to_nat (j - i)) as Hsl.
  { intros i j ??. pose proof (zlen_slice i j s ltac:(lia) ltac:(lia)) as Hz. unfold zlen in Hz. lia. }
  split_and!.
  - apply Forall_forall. intros c Hc. rewrite forallb_forall in Hhex. apply Hhex. by apply list_elem_of_In.
  - unfold uuid_groups. rewrite !length_app, !Hsl by lia. done.
  - transitivity (slice 0 8 s ++ slice 8 (8 + 1) s ++ slice 9 13 s ++ slice 13 (13 + 1) s ++ slice 14 18 s ++
      slice 18 (18 + 1) s ++ slice 19 23 s ++ slice 23 (23 + 1) s ++ slice 24 36 s).
    + change (8 + 1) with 9. change (13 + 1) with 14. change (18 + 1) with 19. change (23 + 1) with 24.
      rewrite !slice_app_slice by lia. symmetry. by apply slice_full.
    + by rewrite !dash_slice by (done || lia).
Qed.

Lemma filter_hex (l : text) : Forall (fun c => is_hex c = true) l → filter (.≠ 45) l = l.
Proof.
  induction 1 as [|c l Hc Hl IH]; [done|]. apply is_hex_bounds in Hc.
  rewrite filter_cons_True by lia. by rewrite IH.
Qed.

Lemma uuid_digits s : uuid_shape s = true → filter (.≠ 45) s = uuid_groups s.
Proof.
  intros Hs. destruct (uuid_shape_inv s Hs) as (Hh & _ & Heq). rewrite Heq at 1. unfold uuid_groups in *.
  rewrite !Forall_app in Hh. rewrite !filter_app, (filter_hex (slice 0 8 s)), (filter_hex (slice 9 13 s)),
    (filter_hex (slice 14 18 s)), (filter_hex (slice 19 23 s)), (filter_hex (slice 24 36 s)) by apply Hh. reflexivity.
Qed.

(** A uuid is the text of its number. *)
Lemma UUID_str_int s : uuid_shape s = true →
  ∃ n, UUID_int s = Ok n ∧ 0 <= n < 2 ^ 128 ∧ UUID_str n = s.
Proof.
  intros Hs. destruct (uuid_shape_inv s Hs) as (Hh & Hlen & Heq). unfold UUID_int. rewrite uuid_digits by done.
  exists (hex_number (uuid_groups s)). unfold zlen at 1. rewrite Hlen. split; [done|].
  pose proof (hex_number_bound _ Hh) as Hb. unfold zlen in Hb. rewrite Hlen in Hb.
  change (16 ^ Z.of_nat 32) with (2 ^ 128) in Hb. split; [done|].
  unfold UUID_str. rewrite <- Hlen, hex_fixed_number by done.
  assert (∀ i j, 0 <= i <= j → j <= 36 → zlen (slice i j s) = j - i) as Hsl.
  { intros i j ??. apply zlen_slice; [done|]. unfold uuid_shape in Hs. boolp. lia. }
  transitivity (slice 0 8 s ++ [45] ++ slice 9 13 s ++ [45] ++ slice 14 18 s ++ [45] ++ slice 19 23 s ++ [45] ++ slice 24 36 s);
    [|by symmetry]. clear Heq. unfold uuid_groups.
  rewrite (slice_head 8) by by apply Hsl.
  skip_field 8 by (by apply Hsl). rewrite (slice_head 4) by by apply Hsl.
  skip_field 8 by (by apply Hsl). skip_field 4 by (by apply Hsl). rewrite (slice_head 4) by by apply Hsl.
  skip_field 8 by (by apply Hsl). skip_field 4 by (by apply Hsl). skip_field 4 by (by apply Hsl).
  rewrite (slice_head 4) by by apply Hsl.
  skip_field 8 by (by apply Hsl). skip_field 4 by (by apply Hsl). skip_field 4 by (by apply Hsl).
  skip_field 4 by (by apply Hsl). rewrite (slice_full (slice 24 36 s)) by by apply Hsl. done.
Qed.

Lemma uuid_no_newline s : uuid_shape s = true → last s ≠ Some 10.
Proof.
  intros Hs Hl. pose proof (uuid_shape_inv s Hs) as (Hh & Hlen & Heq).
  assert (zlen s = 36) as Hz by (unfold uuid_shape in Hs; boolp; lia).
  assert (Forall (fun c => is_hex c = true) (slice 24 36 s)) as Hlast
    by (unfold uuid_groups in Hh; rewrite !Forall_app in Hh; apply Hh).
  pose proof (zlen_slice 24 36 s ltac:(lia) ltac:(lia)) as Hsl.
  rewrite Heq, !app_assoc, last_app in Hl.
  destruct (last (slice 24 36 s)) as [c|] eqn:E.
  - simplify_eq. apply last_Some in E as [l' E]. rewrite E in Hlast.
    apply Forall_app in Hlast as [_ Hc]. apply Forall_cons in Hc as [Hc _]. done.
  - apply last_None in E. rewrite E in Hsl. done.
Qed.

(** A uuid that [validateUUID] accepts and [uuid.UUID] reads has no newline at
    its end: it has 32 digits. *)
Lemma pack_valid s b :
  validateUUID s = Ok () → packUuid s = Ok b → uuid_shape s = true ∧ zlen b = 16 ∧ unpackUuid b = s.
Proof.
  intros Hv Hp. unfold validateUUID in Hv. destruct (UUID_REGEX s) eqn:Er; [|done].
  unfold packUuid in Hp. munfold Hp. destruct (UUID_int s) as [n|] eqn:En; [|done]. simplify_eq.
  assert (uuid_shape s = true) as Hs.
  { unfold UUID_REGEX in Er. apply orb_true_iff in Er as [|Er]; [done|]. exfalso.
    apply andb_true_iff in Er as [[Hlast Hs]%andb_true_iff Hlen]. apply bool_decide_eq_true in Hlast.
    apply Z.eqb_eq in Hlen. apply last_Some in Hlast as [s' ->]. rewrite zlen_app in Hlen.
    change (zlen [10]) with 1 in Hlen. rewrite slice_app_l, slice_full in Hs by lia.
    unfold UUID_int in En. rewrite filter_app, uuid_digits in En by done.
    destruct (uuid_shape_inv s' Hs) as (_ & Hg & _). rewrite zlen_app in En. unfold zlen in En. rewrite Hg in En.
    simpl in En. done. }
  split; [done|]. destruct (UUID_str_int s Hs) as (n' & En' & Hn & Hstr). rewrite En in En'. injection En' as <-.
  split; [rewrite zlen_app, !zlen_le_bytes; done|]. transitivity (UUID_str n); [|done]. unfold unpackUuid. f_equal.
  rewrite (slice_head 8) by by rewrite zlen_le_bytes.
  rewrite (slice_skip 8) by (rewrite ?zlen_le_bytes; done || lia). zconst.
  rewrite (slice_full (le_bytes 8 (n / _))) by by rewrite zlen_le_bytes.
  change (2 ^ 128) with (2 ^ 64 * 2 ^ 64) in Hn.
  rewrite !le_value_bytes.
  - pose proof (Z.div_mod n (2 ^ 64)). lia.
  - change (256 ^ Z.of_nat 8) with (2 ^ 64). split; [apply Z.div_pos; lia|apply Z.div_lt_upper_bound; lia].
  - change (256 ^ Z.of_nat 8) with (2 ^ 64). apply Z.mod_pos_bound. lia.
Qed.

(** ** Extend messages *)

Lemma zlen_hex_fixed k n : zlen (hex_fixed k n) = Z.of_nat k.
Proof. unfold zlen. by rewrite length_hex_fixed. Qed.

(** The fields of the payload of an extend message. *)
Lemma extend_message_fields v size cb m :
  SPM_Extend_Message v size cb = Ok m →
  ∃ domain volume,
    payload m = MESSAGE_VERSION ++ EXTEND_CODE ++ domain ++ volume ++ hex_fixed 16 size ++ zrepeat 11 48 ∧
    zlen domain = 16 ∧ zlen volume = 16 ∧ unpackUuid domain = domainID v ∧ unpackUuid volume = volumeID v ∧
    packUuid (domainID v) = Ok domain ∧ packUuid (volumeID v) = Ok volume ∧
    0 <= size <= VOLUME_MAX_SIZE ∧ volumeData m = v ∧ callback m = cb.
Proof.
  unfold SPM_Extend_Message. intros H. destruct (_ || _) eqn:Eb; [done|]. munfold H.
  destruct (validateUUID (domainID v)) as [[]|] eqn:Ed; [|done].
  destruct (validateUUID (volumeID v)) as [[]|] eqn:Ev; [|done].
  destruct (packUuid (domainID v)) as [domain|] eqn:Epd; [|done].
  destruct (packUuid (volumeID v)) as [volume|] eqn:Epv; [|done]. apply Ok_inj in H as <-.
  destruct (pack_valid _ _ Ed Epd) as (_ & ? & ?). destruct (pack_valid _ _ Ev Epv) as (_ & ? & ?).
  exists domain, volume. split_and!; try done.
  - cbn [payload]. unfold ljust. rewrite !zlen_app, zlen_hex_fixed.
    change (zlen MESSAGE_VERSION) with 1. change (zlen EXTEND_CODE) with 4.
    replace (MESSAGE_SIZE - _) with 11 by (unfold MESSAGE_SIZE; lia). by rewrite <- !app_assoc.
  - apply orb_false_iff in Eb as [?%Z.ltb_ge _]. done.
  - apply orb_false_iff in Eb as [_ ?%Z.ltb_ge]. done.
Qed.

Lemma extend_message_size v size cb m : SPM_Extend_Message v size cb = Ok m → zlen (payload m) = MESSAGE_SIZE.
Proof.
  intros (d & u & -> & ? & ? & _)%extend_message_fields. rewrite !zlen_app, zlen_hex_fixed, zlen_zrepeat.
  change (zlen MESSAGE_VERSION) with 1. change (zlen EXTEND_CODE) with 4. unfold MESSAGE_SIZE. lia.
Qed.

Lemma extend_message_parse v size cb m :
  SPM_Extend_Message v size cb = Ok m → parse_request (payload m) = Ok (domainID v, volumeID v, size).
Proof.
  intros (d & u & -> & Hd & Hu & Hud & Huv & _ & _ & Hs & _)%extend_message_fields. unfold parse_request.
  change (5 + PACKED_UUID_SIZE) with 21. change (21 + PACKED_UUID_SIZE) with 37. change (37 + SIZE_CHARS) with 53.
  rewrite !(slice_skip 1 _ _ MESSAGE_VERSION) by (done || lia). zconst.
  rewrite !(slice_skip 4 _ _ EXTEND_CODE) by (done || lia). zconst.
  rewrite (slice_head 16 d) by done. rewrite !(slice_skip 16 _ _ d) by (done || lia). zconst.
  rewrite (slice_head 16 u) by done. rewrite !(slice_skip 16 _ _ u) by (done || lia). zconst.
  rewrite (slice_head 16) by by rewrite zlen_hex_fixed.
  rewrite py_int16_hex; [|intros E; apply (f_equal length) in E; by rewrite length_hex_fixed in E|apply hex_fixed_hex].
  rewrite hex_number_fixed by (unfold VOLUME_MAX_SIZE in Hs; lia). by rewrite Hud, Huv.
Qed.

(** The part of the payload that [checkReply] compares. *)
Lemma extend_message_head v size cb m :
  SPM_Extend_Message v size cb = Ok m →
  ∃ domain volume, slice 0 37 (payload m) = MESSAGE_VERSION ++ EXTEND_CODE ++ domain ++ volume ∧
    zlen domain = 16 ∧ zlen volume = 16 ∧
    packUuid (domainID v) = Ok domain ∧ packUuid (volumeID v) = Ok volume ∧
    unpackUuid domain = domainID v ∧ unpackUuid volume = volumeID v.
Proof.
  intros (d & u & -> & Hd & Hu & Hud & Huv & Hpd & Hpu & _)%extend_message_fields. exists d, u. split_and!; try done.
  transitivity (slice 0 37 ((MESSAGE_VERSION ++ EXTEND_CODE ++ d ++ u) ++ hex_fixed 16 size ++ zrepeat 11 48)).
  { f_equal. by rewrite <- !app_assoc. }
  apply slice_head. rewrite !zlen_app. change (zlen MESSAGE_VERSION) with 1. change (zlen EXTEND_CODE) with 4. lia.
Qed.

Lemma extend_reply_checked v size cb m v' size' cb' m' :
  SPM_Extend_Message v size cb = Ok m → SPM_Extend_Message v' size' cb' = Ok m' →
  checkReply m (payload m') =
    if decide (domainID v = domainID v' ∧ volumeID v = volumeID v') then Ok REPLY_OK else Raise RuntimeError.
Proof.
  intros (d & u & E & Hd & Hu & Hpd & Hpu & Hud & Huu)%extend_message_head
         (d' & u' & E' & Hd' & Hu' & Hpd' & Hpu' & Hud' & Huu')%extend_message_head.
  unfold checkReply. change (5 + 2 * PACKED_UUID_SIZE) with 37. rewrite E, E'.
  case_bool_decide as H; destruct (decide _) as [[H1 H2]|H1]; try done.
  - exfalso. apply H1. apply app_inj_1 in H as [_ H]; [|done].
    unfold zlen in *. apply app_inj_1 in H as [_ H]; [|done].
    apply app_inj_1 in H as [-> ->]; [|lia]. by rewrite <- Hud, <- Hud', <- Huu, <- Huu'.
  - exfalso. apply H. congruence.
Qed.

(** The payload of an extend message: bytes, of which the first is not null. *)
Record well_formed (m : Message) : Prop := {
  wf_size : zlen (payload m) = MESSAGE_SIZE;
  wf_bytes : Forall is_byte (payload m);
  wf_version : head (payload m) = Some 49;
}.

Lemma packUuid_bytes s b : packUuid s = Ok b → Forall is_byte b.
Proof.
  unfold packUuid. intros H. munfold H. destruct (UUID_int s); [|done]. apply Ok_inj in H as <-.
  apply Forall_app. split; apply le_bytes_are_bytes.
Qed.

Lemma extend_message_well_formed v size cb m : SPM_Extend_Message v size cb = Ok m → well_formed m.
Proof.
  intros H. split; [by eapply extend_message_size| |].
  - apply extend_message_fields in H as (d & u & -> & _ & _ & _ & _ & Hd%packUuid_bytes & Hu%packUuid_bytes & _).
    repeat apply Forall_app_2; try done.
    + by repeat constructor.
    + by repeat constructor.
    + eapply Forall_impl; [apply hex_fixed_hex|]. intros c Hc%is_hex_bounds. unfold is_byte. lia.
    + apply Forall_zrepeat. unfold is_byte. lia.
  - by apply extend_message_fields in H as (d & u & -> & _).
Qed.

(** ** Mail as a sequence of slots *)

Lemma zlen_slot i mail : 0 <= i → (i + 1) * 64 <= zlen mail → zlen (slot i mail) = MESSAGE_SIZE.
Proof.
  intros. unfold slot, slot_start, MESSAGE_SIZE in *. rewrite zlen_slice by lia. lia.
Qed.

Lemma set_slot_splice i data mail :
  0 <= i → zlen data = MESSAGE_SIZE → (i + 1) * 64 <= zlen mail → set_slot i data mail = splice (slot_start i) data mail.
Proof.
  intros Hi Hd Hl. unfold set_slot, splice. f_equal; [unfold slice; by rewrite Z.sub_0_r|]. f_equal.
  unfold slice, zlen, slot_start, MESSAGE_SIZE in *. rewrite take_ge; [f_equal; lia|]. rewrite length_drop. lia.
Qed.

Lemma set_slot_upto_eq i stop data mail : stop = zlen mail → set_slot_upto i stop data mail = set_slot i data mail.
Proof. by intros ->. Qed.

Lemma zlen_set_slot i data mail :
  0 <= i → zlen data = MESSAGE_SIZE → (i + 1) * 64 <= zlen mail → zlen (set_slot i data mail) = zlen mail.
Proof.
  intros. rewrite set_slot_splice by done. apply zlen_splice; unfold slot_start, MESSAGE_SIZE in *; lia.
Qed.

Lemma slot_set_slot_eq i data mail :
  0 <= i → zlen data = MESSAGE_SIZE → (i + 1) * 64 <= zlen mail → slot i (set_slot i data mail) = data.
Proof.
  intros. rewrite set_slot_splice by done. unfold slot, slot_start, MESSAGE_SIZE in *.
  rewrite slice_splice_inside by lia. rewrite Z.sub_diag. unfold splice. rewrite take_0, drop_ge; [apply app_nil_r|].
  pose proof (zlen_slice (i * 64) (i * 64 + 64) mail ltac:(lia) ltac:(lia)). unfold zlen in *. lia.
Qed.

Lemma slot_set_slot_ne i j data mail :
  0 <= i → 0 <= j → i ≠ j → zlen data = MESSAGE_SIZE → (i + 1) * 64 <= zlen mail →
  slot j (set_slot i data mail) = slot j mail.
Proof.
  intros. rewrite set_slot_splice by done. unfold slot, slot_start, MESSAGE_SIZE in *.
  apply slice_splice_disjoint; lia.
Qed.

Lemma slice_bytes (P : Z → Prop) i j mail : Forall P mail → Forall P (slice i j mail).
Proof. intros. unfold slice. by apply Forall_take, Forall_drop. Qed.

Lemma set_slot_bytes P i data mail : Forall P mail → Forall P data → Forall P (set_slot i data mail).
Proof. intros. unfold set_slot. repeat apply Forall_app_2; auto using slice_bytes. Qed.

(** The first byte decides whether a slot is empty. *)
Lemma slot_empty_head i mail :
  0 <= i → (i + 1) * 64 <= zlen mail → slot_empty i mail = bool_decide (head (slot i mail) = Some 0).
Proof.
  intros Hi Hl. pose proof (zlen_slot i mail Hi Hl) as Hz. unfold slot_empty.
  replace (slice (slot_start i) (slot_start i + 1) mail) with (slice 0 1 (slot i mail)).
  2:{ unfold slot, slot_start, MESSAGE_SIZE. splice_eq. }
  destruct (slot i mail) as [|x l]; [done|]. change (slice 0 1 (x :: l)) with (take 1 (x :: l)).
  rewrite firstn_cons, take_0. apply bool_decide_ext. simpl. split; congruence.
Qed.

(** ** The search for a difference *)

Lemma scan_from k a b j :
  length a = k → length b = k →
  ∃ r, scan k a b j = Some r ∧ j - 1 <= r < j + Z.of_nat k ∧
    (a = b → r = j + Z.of_nat k - 1) ∧
    (take (k - 1) a ≠ take (k - 1) b → r < j + Z.of_nat k - 1) ∧
    (take (k - 1) a = take (k - 1) b → r = j + Z.of_nat k - 1).
Proof.
  revert a b j. induction k as [|k IH]; intros a b j Ha Hb.
  { simpl. exists (j - 1). destruct a, b; try done. split_and!; try done; lia. }
  destruct a as [|x a], b as [|y b]; try done. simpl in Ha, Hb. simpl.
  destruct (IH a b (j + 1)) as (r & Er & Hr & H1 & H2 & H3); [lia|lia|]. rewrite Nat.sub_0_r.
  destruct k as [|k].
  { simpl in *. destruct a, b; try done. destruct (Z.eqb_spec x y) as [->|Hne].
    - eexists. split; [done|]. split_and!; lia || done.
    - eexists. split; [done|]. split_and!; try lia; done. }
  replace (S k - 1)%nat with k in * by lia. rewrite !firstn_cons.
  destruct (Z.eqb_spec x y) as [->|Hne].
  - exists r. split; [done|]. split_and!.
    + lia.
    + lia.
    + intros [= E]. rewrite H1 by done. lia.
    + intros Ht. assert (take k a ≠ take k b) as Hne by congruence. specialize (H2 Hne). lia.
    + intros [= E]. rewrite H3 by done. lia.
  - exists j. split; [done|]. split_and!; try lia; congruence || (intros; lia).
Qed.

(** The reply in a slot counts as unchanged when its first 63 bytes are. *)
Definition fresh (i : Z) (old new : bytes) : bool :=
  negb (bool_decide (slice 0 63 (slot i new) = slice 0 63 (slot i old))).

Lemma scan_fresh i old new :
  0 <= i → (i + 1) * 64 <= zlen old → (i + 1) * 64 <= zlen new →
  ∃ r, scan (Z.to_nat MESSAGE_SIZE) (slot i new) (slot i old) 0 = Some r ∧ (r =? MESSAGE_SIZE - 1) = negb (fresh i old new).
Proof.
  intros Hi Ho Hn. pose proof (zlen_slot i old Hi Ho) as Lo. pose proof (zlen_slot i new Hi Hn) as Ln.
  unfold zlen, MESSAGE_SIZE in Lo, Ln.
  destruct (scan_from (Z.to_nat MESSAGE_SIZE) (slot i new) (slot i old) 0) as (r & Er & Hr & _ & H2 & H3);
    [unfold MESSAGE_SIZE; lia|unfold MESSAGE_SIZE; lia|].
  exists r. split; [done|]. unfold fresh, MESSAGE_SIZE in *. rewrite negb_involutive.
  change (Z.to_nat 64 - 1)%nat with 63%nat in *. change (slice 0 63 (slot i new)) with (take 63 (slot i new)).
  change (slice 0 63 (slot i old)) with (take 63 (slot i old)).
  case_bool_decide as E; [apply Z.eqb_eq; rewrite H3 by done; lia|]. apply Z.eqb_neq. specialize (H2 E). lia.
Qed.

(** ** Checksums *)

Lemma sum_bytes_bound data : Forall is_byte data → 0 <= sum_bytes data <= 255 * zlen data.
Proof.
  unfold is_byte. induction 1 as [|x l Hx Hl IH]; [done|]. rewrite zlen_cons. simpl. unfold sum_bytes in *. lia.
Qed.

Lemma sum_bytes_pos data x : Forall is_byte data → x ∈ data → x ≠ 0 → 0 < sum_bytes data.
Proof.
  unfold is_byte. induction 1 as [|y l Hy Hl IH]; intros Hin Hx; [by apply elem_of_nil in Hin|].
  pose proof (sum_bytes_bound l Hl). unfold sum_bytes in *. simpl.
  apply elem_of_cons in Hin as [->|Hin]; [lia|]. specialize (IH Hin Hx). lia.
Qed.

(** A mailbox is too small for its sum to reach the sign bit of the packed
    checksum. *)
Lemma checksum_small data :
  Forall is_byte data → zlen data <= MAILBOX_SIZE → checksum data = sum_bytes data ∧ sum_bytes data < 2 ^ 31.
Proof.
  intros Hb Hl. pose proof (sum_bytes_bound data Hb). unfold MAILBOX_SIZE in Hl. unfold checksum.
  change (2 ^ (CHECKSUM_BYTES * 8) - 1) with (Z.ones 32). rewrite Z.land_ones by lia.
  split; [apply Z.mod_small|]; lia.
Qed.

Lemma zlen_packed_checksum data : zlen (packed_checksum data) = CHECKSUM_BYTES.
Proof. unfold packed_checksum. by rewrite zlen_le_bytes. Qed.

(** The mail that is sent validates, unless it is empty. *)
Lemma sealed_validates data x :
  Forall is_byte data → zlen data = MAILBOX_SIZE - CHECKSUM_BYTES → x ∈ data → x ≠ 0 →
  validateMailbox (data ++ packed_checksum data) = true.
Proof.
  intros Hb Hl Hin Hx. unfold validateMailbox.
  rewrite zlen_app, zlen_packed_checksum, Z.add_simpl_r.
  rewrite (slice_head (zlen data)) by done.
  rewrite (slice_skip (zlen data)) by (done || lia). rewrite Z.sub_diag, Z.add_simpl_l, slice_full
    by apply zlen_packed_checksum.
  rewrite bool_decide_true by done. simpl. rewrite bool_decide_false; [done|].
  pose proof (sum_bytes_pos data x Hb Hin Hx).
  destruct (checksum_small data Hb) as [Hc Hs]; [rewrite Hl; done|].
  unfold pZeroChecksum, packed_checksum. intros E%le_bytes_inj.
  - rewrite Hc in E. assert (checksum EMPTYMAILBOX = 0) as H0 by done. lia.
  - rewrite Hc. change (256 ^ Z.of_nat 4) with (2 ^ 32). lia.
  - done.
Qed.

(** Conversely a mailbox that validates carries the sum of its bytes. *)
Lemma validate_inv mailbox :
  validateMailbox mailbox = true →
  slice (zlen mailbox - CHECKSUM_BYTES) (zlen mailbox) mailbox
    = packed_checksum (slice 0 (zlen mailbox - CHECKSUM_BYTES) mailbox).
Proof. unfold validateMailbox. intros H. case_bool_decide; done. Qed.

(** ** The codec of extend messages *)

Lemma uuid_shape_packs s : uuid_shape s = true → validateUUID s = Ok () ∧ ∃ b, packUuid s = Ok b.
Proof.
  intros Hs. destruct (UUID_str_int s Hs) as (n & En & _). split.
  - unfold validateUUID, UUID_REGEX. by rewrite Hs.
  - unfold packUuid. rewrite En. by eexists.
Qed.

Lemma extend_message_exists v size cb :
  (∃ m, SPM_Extend_Message v size cb = Ok m) ↔
  0 <= size <= VOLUME_MAX_SIZE ∧ uuid_shape (domainID v) = true ∧ uuid_shape (volumeID v) = true.
Proof.
  unfold SPM_Extend_Message. split.
  - intros [m H]. destruct (_ || _) eqn:Eb; [done|]. apply orb_false_iff in Eb as [?%Z.ltb_ge ?%Z.ltb_ge]. munfold H.
    destruct (validateUUID (domainID v)) as [[]|] eqn:Ed; [|done].
    destruct (validateUUID (volumeID v)) as [[]|] eqn:Ev; [|done].
    destruct (packUuid (domainID v)) as [domain|] eqn:Epd; [|done].
    destruct (packUuid (volumeID v)) as [volume|] eqn:Epv; [|done].
    destruct (pack_valid _ _ Ed Epd) as (? & _). destruct (pack_valid _ _ Ev Epv) as (? & _). done.
  - intros (Hsz & (Ed & d & Epd)%uuid_shape_packs & (Ev & u & Epv)%uuid_shape_packs).
    rewrite (proj2 (Z.ltb_ge size 0)), (proj2 (Z.ltb_ge VOLUME_MAX_SIZE size)) by lia. simpl. munfold_goal.
    rewrite Ed, Ev, Epd, Epv. by eexists.
Qed.

(** The extend message.  A message can be made exactly for a size from 0 to
    2^32 - 1 and two well-formed lower case uuids; its payload then fills a slot, the
    manager reads back the domain, the volume and the size, and a reply passes
    the check exactly when it is for the same domain and volume. *)
Theorem extend_roundtrip v size cb :
  ((∃ m, SPM_Extend_Message v size cb = Ok m) ↔
   0 <= size < 2 ^ 32 ∧ uuid_shape (domainID v) = true ∧ uuid_shape (volumeID v) = true) ∧
  ∀ m, SPM_Extend_Message v size cb = Ok m →
    zlen (payload m) = MESSAGE_SIZE ∧
    parse_request (payload m) = Ok (domainID v, volumeID v, size) ∧
    ∀ v' size' cb' m', SPM_Extend_Message v' size' cb' = Ok m' →
      checkReply m (payload m') =
        if decide (domainID v = domainID v' ∧ volumeID v = volumeID v') then Ok REPLY_OK else Raise RuntimeError.
Proof.
  split.
  - rewrite extend_message_exists. unfold VOLUME_MAX_SIZE. split; intros (? & ? & ?); split_and!; try done; lia.
  - intros m Hm. split_and!; [by eapply extend_message_size|by eapply extend_message_parse|].
    intros. by eapply extend_reply_checked.
Qed.
