(* ===== verification/MailboxSpec.v ===== *)
(** * Mailbox: the host side refines an outbox of messages

    The host's monitor keeps a table of used slots, a dictionary of active
    messages, a counter and the bytes of its mail.  They represent one map from
    slots to messages; a round of the monitor is a sequence of three abstract
    steps on it: post a message, note its reply, free its slot. *)
From Stdlib Require Import ZArith Lia.
From stdpp Require Import base gmap sets list strings relations.
From S2P Require Import Prelude Text Mailbox MailboxFacts.

(** ** The abstract outbox *)

Record outbox := mkOutbox {
  pending : gmap Z active;
  delivered : list (nat * volume_data);
}.

(** What the mail holds for a slot. *)
Definition render (o : outbox) (i : Z) : bytes :=
  match pending o !! i with Some a => active_bytes a | None => zrepeat MESSAGE_SIZE 0 end.

(** The callbacks that run when [reply] arrives for [m]. *)
Definition answered (accepts : nat → bool) (m : Message) (reply : bytes) : list (nat * volume_data) :=
  match checkReply m reply, callback m with
  | Ok _, Some cb => if accepts cb then [(cb, volumeData m)] else []
  | _, _ => []
  end.

Inductive outbox_step (accepts : nat → bool) : outbox → outbox → Prop :=
| step_post o i m :
    0 <= i < MESSAGES_PER_MAILBOX → pending o !! i = None → well_formed m →
    (∀ j a, pending o !! j = Some a → active_bytes a ≠ payload m) →
    outbox_step accepts o (mkOutbox (<[i := Waiting m]> (pending o)) (delivered o))
| step_reply o i m reply :
    pending o !! i = Some (Waiting m) → reply ≠ CLEAN_MESSAGE →
    outbox_step accepts o (mkOutbox (<[i := Cleaned]> (pending o)) (delivered o ++ answered accepts m reply))
| step_free o i a :
    pending o !! i = Some a →
    outbox_step accepts o (mkOutbox (delete i (pending o)) (delivered o)).

(** ** The representation *)

Definition outbox_of (h : HSM_MailMonitor) : outbox := mkOutbox (_activeMessages h) (_callbacks h).

Record hsm_inv (h : HSM_MailMonitor) : Prop := {
  inv_used : ∀ i, is_Some (_activeMessages h !! i) ↔ 0 <= i < MESSAGES_PER_MAILBOX ∧ used i h = true;
  inv_array : zlen (_used_slots_array h) = MESSAGES_PER_MAILBOX;
  inv_counter : _msgCounter h = Z.of_nat (size (_activeMessages h));
  inv_out_len : zlen (_outgoingMail h) = MAILBOX_SIZE;
  inv_in_len : zlen (_incomingMail h) = MAILBOX_SIZE;
  inv_out_bytes : Forall is_byte (_outgoingMail h);
  inv_slots : ∀ i, 0 <= i < MESSAGES_PER_MAILBOX → slot i (_outgoingMail h) = render (outbox_of h) i;
  inv_active : ∀ i m, _activeMessages h !! i = Some (Waiting m) → well_formed m;
  inv_queue : Forall well_formed (_queue h);
}.

Create HintDb mailbox.
#[export] Hint Resolve inv_used inv_array inv_counter inv_out_len inv_in_len inv_out_bytes inv_slots inv_active inv_queue : mailbox.

Lemma zlen_active_bytes (a : active) : (∀ m, a = Waiting m → well_formed m) → zlen (active_bytes a) = MESSAGE_SIZE.
Proof. destruct a as [m|]; intros H; [by apply H|done]. Qed.

Lemma active_bytes_bytes (a : active) : (∀ m, a = Waiting m → well_formed m) → Forall is_byte (active_bytes a).
Proof.
  destruct a as [m|]; intros H; [by apply H|]. simpl. apply Forall_zrepeat. unfold is_byte. lia.
Qed.

Lemma used_lookup i h h' : _used_slots_array h = _used_slots_array h' → used i h = used i h'.
Proof. unfold used. by intros ->. Qed.

Lemma used_insert i j v h h' :
  0 <= i < zlen (_used_slots_array h) → 0 <= j →
  _used_slots_array h' = <[Z.to_nat i := v]> (_used_slots_array h) →
  used j h' = if decide (i = j) then negb (v =? 0) else used j h.
Proof.
  intros Hi Hj E. unfold used. rewrite E. unfold zlen in Hi. destruct (decide (i = j)) as [<-|Hne].
  - rewrite list_lookup_insert_eq by lia. by destruct v.
  - by rewrite list_lookup_insert_ne by lia.
Qed.

(** The invariant after slot [i] is set to [v]: [None] frees it. *)
Lemma hsm_inv_set h h' i (v : option active) :
  hsm_inv h → 0 <= i < MESSAGES_PER_MAILBOX → (∀ m, v = Some (Waiting m) → well_formed m) →
  _activeMessages h' = partial_alter (fun _ => v) i (_activeMessages h) →
  (∀ j, 0 <= j → used j h' = if decide (i = j) then bool_decide (is_Some v) else used j h) →
  zlen (_used_slots_array h') = MESSAGES_PER_MAILBOX →
  _outgoingMail h' = set_slot i (from_option active_bytes (zrepeat MESSAGE_SIZE 0) v) (_outgoingMail h) →
  _incomingMail h' = _incomingMail h →
  _msgCounter h' = Z.of_nat (size (_activeMessages h')) →
  Forall well_formed (_queue h') → hsm_inv h'.
Proof.
  intros I Hi Hwf Ea Eu Eul Eo Ein Ec Hq.
  set (data := from_option active_bytes (zrepeat MESSAGE_SIZE 0) v) in *.
  assert (zlen data = MESSAGE_SIZE) as Hd by (destruct v; [apply zlen_active_bytes; naive_solver|done]).
  assert (Forall is_byte data) as Hb.
  { destruct v; [apply active_bytes_bytes; naive_solver|]. apply Forall_zrepeat. unfold is_byte. lia. }
  assert ((i + 1) * 64 <= zlen (_outgoingMail h)) as Hl by (rewrite (inv_out_len h I); mlia).
  split.
  - intros j. rewrite Ea. destruct (decide (i = j)) as [<-|Hne].
    + rewrite lookup_partial_alter_eq, Eu, decide_True by (done || lia). destruct v; simpl; naive_solver.
    + rewrite lookup_partial_alter_ne by done. rewrite (inv_used h I j).
      split; intros [Hj Huj]; (split; [done|]); rewrite Eu, decide_False in * by (done || lia); done.
  - done.
  - done.
  - rewrite Eo, zlen_set_slot by (done || lia). apply (inv_out_len h I).
  - rewrite Ein. apply (inv_in_len h I).
  - rewrite Eo. apply set_slot_bytes; [apply (inv_out_bytes h I)|done].
  - intros j Hj. rewrite Eo. unfold render, outbox_of. simpl. rewrite Ea. destruct (decide (i = j)) as [<-|Hne].
    + rewrite slot_set_slot_eq, lookup_partial_alter_eq by (done || lia). by subst data; destruct v.
    + rewrite slot_set_slot_ne, lookup_partial_alter_ne by (done || lia). apply (inv_slots h I j Hj).
  - intros j m. rewrite Ea. destruct (decide (i = j)) as [<-|Hne].
    + rewrite lookup_partial_alter_eq. apply Hwf.
    + rewrite lookup_partial_alter_ne by done. apply (inv_active h I).
  - done.
Qed.

(** ** Posting a message *)

Lemma find_slot_ok h message idx free :
  hsm_inv h → Forall (fun i => 0 <= i < MESSAGES_PER_MAILBOX) idx →
  match find_slot message h idx free with
  | Raise _ => False
  | Ok Duplicate => ∃ j a, _activeMessages h !! j = Some a ∧ message = active_bytes a
  | Ok (FreeSlot r) =>
      (∀ j a, j ∈ idx → _activeMessages h !! j = Some a → active_bytes a ≠ message) ∧
      match r with
      | Some i => free = Some i ∨ (i ∈ idx ∧ used i h = false)
      | None => free = None ∧ ∀ i, i ∈ idx → used i h = true
      end
  end.
Proof.
  intros I Hidx. revert free. induction Hidx as [|i idx Hi Hidx IH]; intros free; simpl.
  { split; [by intros ?? ?%elem_of_nil|]. destruct free; [by left|]. split; [done|]. by intros ? ?%elem_of_nil. }
  destruct (used i h) eqn:Eu; simpl.
  - destruct (proj2 (inv_used h I i) (conj Hi Eu)) as [a Ea]. rewrite Ea. case_bool_decide as Ed; [eauto|].
    specialize (IH free). destruct (find_slot message h idx free) as [[|r]|]; [done| |done].
    destruct IH as [H1 H2]. split.
    + intros j b [->|Hj]%elem_of_cons Hb; [naive_solver|eauto].
    + destruct r as [r|].
      * destruct H2 as [|[]]; [by left|right; split; [by right|done]].
      * destruct H2 as [? H2]. split; [done|]. intros j [->|]%elem_of_cons; auto.
  - specialize (IH (match free with None => Some i | _ => free end)).
    destruct (find_slot message h idx _) as [[|r]|]; [done| |done]. destruct IH as [H1 H2]. split.
    + intros j b [->|Hj]%elem_of_cons Hb; [|eauto].
      destruct (proj1 (inv_used h I i)) as [_ Hu]; [eauto|congruence].
    + destruct r as [r|].
      * destruct H2 as [H2|[]]; [|right; split; [by right|done]].
        destruct free; [by left|]. right. simplify_eq. split; [by left|done].
      * destruct H2 as [H2 H3]. by destruct free.
Qed.

Lemma slot_indices_range : Forall (fun i => 0 <= i < MESSAGES_PER_MAILBOX) slot_indices.
Proof. apply Forall_forall. intros i. unfold slot_indices. rewrite elem_of_seqZ. lia. Qed.

Lemma slot_indices_elem i : i ∈ slot_indices ↔ 0 <= i < MESSAGES_PER_MAILBOX.
Proof. unfold slot_indices. rewrite elem_of_seqZ. lia. Qed.

(** As many slots are used as there are active messages. *)
Lemma active_dom h : hsm_inv h → dom (_activeMessages h) ⊆ list_to_set (C := gset Z) slot_indices.
Proof.
  intros I i Hi%elem_of_dom. apply elem_of_list_to_set, slot_indices_elem. by apply (inv_used h I).
Qed.

Lemma size_slot_indices : size (list_to_set (C := gset Z) slot_indices) = Z.to_nat MESSAGES_PER_MAILBOX.
Proof.
  rewrite size_list_to_set by apply NoDup_seqZ. unfold slot_indices. by rewrite length_seqZ.
Qed.

Lemma size_active_le h : hsm_inv h → Z.of_nat (size (_activeMessages h)) <= MESSAGES_PER_MAILBOX.
Proof.
  intros I. pose proof (subseteq_size _ _ (active_dom h I)) as H. rewrite size_dom, size_slot_indices in H. mlia.
Qed.

Lemma all_used_size h :
  hsm_inv h → (∀ i, i ∈ slot_indices → used i h = true) →
  Z.of_nat (size (_activeMessages h)) = MESSAGES_PER_MAILBOX.
Proof.
  intros I Hall.
  assert (list_to_set (C := gset Z) slot_indices ⊆ dom (_activeMessages h)) as Hsub.
  { intros i Hi%elem_of_list_to_set. apply elem_of_dom, (inv_used h I). split; [by apply slot_indices_elem|auto]. }
  apply subseteq_size in Hsub. rewrite size_dom, size_slot_indices in Hsub. pose proof (size_active_le h I). mlia.
Qed.

(** With a free slot, a message is posted or is a duplicate: no error. *)
Lemma handle_message_step accepts h m h' r :
  hsm_inv h → well_formed m → Z.of_nat (size (_activeMessages h)) < MESSAGES_PER_MAILBOX →
  _handleMessage m h = (h', r) →
  r = Ok () ∧ hsm_inv h' ∧ _queue h' = _queue h ∧ _incomingMail h' = _incomingMail h ∧
  rtc (outbox_step accepts) (outbox_of h) (outbox_of h').
Proof.
  intros I Hm Hsz H. unfold _handleMessage in H.
  pose proof (find_slot_ok h (payload m) slot_indices None I slot_indices_range) as Hf.
  destruct (find_slot _ _ _ _) as [[|[i|]]|]; [| | |done]; simplify_eq; [done| |].
  - destruct Hf as [Hnodup [|[Hi Hu]]]; [done|]. apply slot_indices_elem in Hi.
    assert (_activeMessages h !! i = None) as Hnone.
    { apply eq_None_not_Some. intros [_ ?]%(inv_used h I). congruence. }
    split; [done|]. split; [|split_and!; [done..|]].
    + apply (hsm_inv_set h _ i (Some (Waiting m)) I Hi); simpl; try done; try apply (inv_queue h I).
      * naive_solver.
      * intros j Hj. by erewrite (used_insert i j 1 h) by (done || rewrite (inv_array h I); done).
      * unfold zlen. rewrite length_insert. apply (inv_array h I).
      * rewrite map_size_insert_None by done. rewrite (inv_counter h I). lia.
    + apply rtc_once. apply (step_post accepts (outbox_of h)); simpl; try done.
      intros j a Hja. apply (Hnodup j a); [|done]. apply slot_indices_elem. by apply (inv_used h I).
  - destruct Hf as [_ [_ Hall]]. pose proof (all_used_size _ I Hall). lia.
Qed.

(** The queue is emptied as long as there are free slots. *)
Lemma take_messages_steps accepts fuel b h h' r :
  hsm_inv h → (length (_queue h) < fuel)%nat → take_messages fuel b h = (h', r) →
  (∃ b', r = Ok b' ∧ (b = true → b' = true) ∧ (b' = false → h' = h)) ∧ hsm_inv h' ∧
  (_queue h' = [] ∨ Z.of_nat (size (_activeMessages h')) = MESSAGES_PER_MAILBOX) ∧
  _incomingMail h' = _incomingMail h ∧ rtc (outbox_step accepts) (outbox_of h) (outbox_of h').
Proof.
  revert b h. induction fuel as [|fuel IH]; intros b h I Hlen H; [lia|]. simpl in H.
  unfold get in H. munfold H. destruct (Z.ltb_spec (Z.of_nat (size (_activeMessages h))) MESSAGES_PER_MAILBOX) as [Hsz|Hsz].
  2:{ simplify_eq. pose proof (size_active_le h' I). split; [eauto|]. split_and!; [done|right; lia|done|done]. }
  unfold queue_get in H. destruct (_queue h) as [|m q] eqn:Eq.
  { simplify_eq. split; [eauto|]. split_and!; [done|by left|done|done]. }
  set (h1 := mkHSM q _ _ _ _ _ _) in H.
  assert (Forall well_formed (m :: q)) as Hwf by (rewrite <- Eq; apply (inv_queue h I)).
  apply Forall_cons in Hwf as [Hm Hq].
  assert (hsm_inv h1) as I1 by (destruct I; by split).
  destruct (_handleMessage m h1) as [h2 r2] eqn:E2.
  destruct (handle_message_step accepts h1 m h2 r2 I1 Hm Hsz E2) as (-> & I2 & Hq2 & Hin2 & Hs2).
  apply IH in H as ((b' & -> & Hb & _) & I' & Hdone & Hin & Hs); [|done|rewrite Hq2; simpl in *; lia].
  split; [exists b'; split_and!; [done|auto|intros ->; by specialize (Hb eq_refl)]|].
  split_and!; [done|done|by rewrite Hin, Hin2|by etrans].
Qed.

(** ** Replies *)

(** Slot [i] of the new mail holds a reply that was not there before. *)
Definition novel (i : Z) (old new : bytes) : bool := negb (slot_empty i new) && fresh i old new.

(** What the reply makes of the message in its slot. *)
Definition after_reply (i : Z) (old new : bytes) (a : active) : option active :=
  if novel i old new then if bool_decide (slot i new = CLEAN_MESSAGE) then None else Some Cleaned else Some a.

(** The callbacks it runs. *)
Definition reply_callbacks (accepts : nat → bool) (i : Z) (old new : bytes) (a : option active)
    : list (nat * volume_data) :=
  match a with
  | Some (Waiting m) =>
      if novel i old new && negb (bool_decide (slot i new = CLEAN_MESSAGE)) then answered accepts m (slot i new) else []
  | _ => []
  end.

(** A reply, other than the acknowledgement, to a message that was answered. *)
Definition unexpected (i : Z) (old new : bytes) (a : option active) : bool :=
  match a with
  | Some Cleaned => novel i old new && negb (bool_decide (slot i new = CLEAN_MESSAGE))
  | _ => false
  end.

Lemma used_active h i :
  hsm_inv h → 0 <= i < MESSAGES_PER_MAILBOX → used i h = bool_decide (is_Some (_activeMessages h !! i)).
Proof.
  intros I Hi. symmetry. destruct (used i h) eqn:Eu.
  - by apply bool_decide_eq_true_2, (inv_used h I i).
  - apply bool_decide_eq_false_2. intros [_ ?]%(inv_used h I). congruence.
Qed.

(** The acknowledgement frees the slot. *)
Lemma handle_clean_inv h i act :
  hsm_inv h → 0 <= i < MESSAGES_PER_MAILBOX → _activeMessages h !! i = Some act →
  ∃ h', handle_clean i h = (h', Ok ()) ∧ hsm_inv h' ∧ _queue h' = _queue h ∧ _incomingMail h' = _incomingMail h ∧
    _activeMessages h' = partial_alter (fun _ => None) i (_activeMessages h) ∧ _callbacks h' = _callbacks h.
Proof.
  intros I Hi Eact. unfold handle_clean. rewrite Eact. eexists. split; [done|]. split; [|done].
  apply (hsm_inv_set h _ i None I Hi); simpl; try done; try apply (inv_queue h I).
  - intros k Hk. erewrite (used_insert i k 0 h) by (done || rewrite (inv_array h I); done). case_decide; done.
  - unfold zlen. rewrite length_insert. apply (inv_array h I).
  - rewrite map_size_delete_Some by eauto. rewrite (inv_counter h I).
    assert (size (_activeMessages h) ≠ 0%nat) by (rewrite map_size_ne_0_lookup; eauto). lia.
Qed.

(** A reply puts the acknowledgement into the slot and runs the callback. *)
Lemma handle_reply_inv accepts h i act reply :
  hsm_inv h → 0 <= i < MESSAGES_PER_MAILBOX → _activeMessages h !! i = Some act →
  ∃ h', handle_reply accepts i reply h = (h', match act with Waiting _ => Ok () | Cleaned => Raise AttributeError end) ∧
    hsm_inv h' ∧ _queue h' = _queue h ∧ _incomingMail h' = _incomingMail h ∧
    _activeMessages h' = partial_alter (fun _ => Some Cleaned) i (_activeMessages h) ∧
    _callbacks h' = _callbacks h ++ match act with Waiting m => answered accepts m reply | Cleaned => [] end.
Proof.
  intros I Hi Eact.
  set (clean cbs := mkHSM (_queue h) (<[i := Cleaned]> (_activeMessages h)) (_used_slots_array h)
        (set_slot i CLEAN_MESSAGE (_outgoingMail h)) (_incomingMail h) (_msgCounter h) cbs).
  assert (∀ cbs, hsm_inv (clean cbs)) as Hclean.
  { intros cbs. apply (hsm_inv_set h _ i (Some Cleaned) I Hi); simpl; try done.
    - intros k Hk. rewrite (used_lookup k _ h) by done. case_decide as Ek; [subst k|done].
      rewrite used_active by done. by rewrite Eact.
    - apply (inv_array h I).
    - rewrite map_size_insert_Some by eauto. apply (inv_counter h I).
    - apply (inv_queue h I). }
  unfold handle_reply. rewrite Eact. unfold answered. destruct act as [m|].
  - destruct (checkReply m reply) as [?|?], (callback m) as [cb|]; try destruct (accepts cb);
      (eexists; split; [done|]; split; [apply Hclean|]; by rewrite ?app_nil_r).
  - eexists; split; [done|]; split; [apply Hclean|]. by rewrite app_nil_r.
Qed.

Lemma partial_alter_at {A} (f g : option A → option A) i (m : gmap Z A) :
  f (m !! i) = g (m !! i) → partial_alter f i m = partial_alter g i m.
Proof.
  intros Hfg. apply map_eq. intros j. destruct (decide (i = j)) as [<-|].
  - by rewrite !lookup_partial_alter_eq.
  - by rewrite !lookup_partial_alter_ne.
Qed.

Lemma partial_alter_same {A} (f : option A → option A) i (m : gmap Z A) : f (m !! i) = m !! i → partial_alter f i m = m.
Proof.
  intros Hf. apply map_eq. intros j. destruct (decide (i = j)) as [<-|].
  - by rewrite lookup_partial_alter_eq.
  - by rewrite lookup_partial_alter_ne.
Qed.

(** One iteration of [_handleResponses]. *)
Lemma handle_response_spec accepts new i rc h h' r :
  hsm_inv h → zlen new = MAILBOX_SIZE → 0 <= i < MESSAGES_PER_MAILBOX →
  handle_response accepts new i rc h = (h', r) →
  let a := _activeMessages h !! i in
  let old := _incomingMail h in
  hsm_inv h' ∧ _queue h' = _queue h ∧ _incomingMail h' = old ∧
  _activeMessages h' = partial_alter (fun a => a ≫= after_reply i old new) i (_activeMessages h) ∧
  _callbacks h' = _callbacks h ++ reply_callbacks accepts i old new a ∧
  r = if unexpected i old new a then Raise AttributeError else Ok (rc || (bool_decide (is_Some a) && novel i old new)).
Proof.
  intros I Hnew Hi H a old. unfold handle_response in H. rewrite used_active in H by done.
  subst a. destruct (_activeMessages h !! i) as [act|] eqn:Eact;
    [rewrite (bool_decide_true (is_Some _)) in H by eauto
    |rewrite (bool_decide_false (is_Some _)) in H by (by intros [??])]; cbn [negb] in H.
  2:{ simplify_eq. split_and!; try done; simpl; rewrite ?app_nil_r, ?orb_false_r; try done.
      symmetry. apply partial_alter_same. by rewrite Eact. }
  rewrite (bool_decide_true (is_Some _)) by eauto. simpl.
  destruct (scan_fresh i old new) as (j & Ej & Hj); [lia|subst old; rewrite (inv_in_len h I); mlia|rewrite Hnew; mlia|].
  fold old in H. rewrite Ej, Hj in H. unfold unexpected, reply_callbacks.
  destruct (novel i old new) eqn:En.
  2:{ assert (h' = h ∧ r = Ok rc) as [-> ->].
      { unfold novel in En. destruct (slot_empty i new); simpl in *; [by simplify_eq|].
        rewrite En in H. simpl in H. by simplify_eq. }
      split_and!; try done; destruct act; simpl; rewrite ?app_nil_r, ?orb_false_r; try done;
        symmetry; apply partial_alter_same; rewrite Eact; simpl; unfold after_reply; by rewrite En. }
  pose proof En as En'. unfold novel in En'. apply andb_true_iff in En' as [En1%negb_true_iff En2].
  rewrite En1, En2, orb_true_r in *. simpl in H |- *. case_bool_decide as Ec.
  - destruct (handle_clean_inv h i act I Hi Eact) as (h1 & E1 & I1 & Hq & Hin & Ha & Hcb). munfold H. rewrite E1 in H.
    simplify_eq. simpl. rewrite Hcb, Ha. split_and!; try done; [|destruct act; by rewrite ?app_nil_r|by destruct act].
    apply partial_alter_at. rewrite Eact. simpl. unfold after_reply. by rewrite En, bool_decide_true.
  - destruct (handle_reply_inv accepts h i act (slot i new) I Hi Eact) as (h1 & E1 & I1 & Hq & Hin & Ha & Hcb).
    munfold H. rewrite E1 in H. simpl.
    assert (h' = h1 ∧ r = match act with Waiting _ => Ok true | Cleaned => Raise AttributeError end) as [-> ->] by (destruct act; by simplify_eq).
    rewrite Hcb, Ha. split_and!; try done; [|by destruct act].
    apply partial_alter_at. rewrite Eact. simpl. unfold after_reply. by rewrite En, bool_decide_false.
Qed.

Lemma handle_response_steps accepts new i rc h h' r :
  hsm_inv h → zlen new = MAILBOX_SIZE → 0 <= i < MESSAGES_PER_MAILBOX →
  handle_response accepts new i rc h = (h', r) → rtc (outbox_step accepts) (outbox_of h) (outbox_of h').
Proof.
  intros I Hnew Hi H. destruct (handle_response_spec _ _ _ _ _ _ _ I Hnew Hi H) as (_ & _ & _ & Ha & Hcb & _).
  unfold outbox_of. rewrite Ha, Hcb. destruct (_activeMessages h !! i) as [act|] eqn:Eact.
  2:{ rewrite partial_alter_same by by rewrite Eact. simpl. by rewrite app_nil_r. }
  destruct (novel i (_incomingMail h) new) eqn:En.
  2:{ rewrite partial_alter_same by (rewrite Eact; simpl; unfold after_reply; by rewrite En).
      destruct act; simpl; rewrite ?En; by rewrite app_nil_r. }
  destruct (decide (slot i new = CLEAN_MESSAGE)) as [Ec|Ec].
  - rewrite (partial_alter_at _ (fun _ => None))
      by (rewrite Eact; simpl; unfold after_reply; by rewrite En, bool_decide_true).
    apply rtc_once. destruct act; simpl; rewrite ?En, ?bool_decide_true, app_nil_r by done;
      by eapply (step_free accepts (mkOutbox _ _)).
  - rewrite (partial_alter_at _ (fun _ => Some Cleaned))
      by (rewrite Eact; simpl; unfold after_reply; by rewrite En, bool_decide_false).
    destruct act as [m|]; simpl.
    + rewrite En, bool_decide_false by done. apply rtc_once. by apply (step_reply accepts (mkOutbox _ _)).
    + rewrite app_nil_r, partial_alter_same by done. done.
Qed.

Lemma handle_responses_steps accepts new idx rc h h' r :
  hsm_inv h → zlen new = MAILBOX_SIZE → Forall (fun i => 0 <= i < MESSAGES_PER_MAILBOX) idx →
  handle_responses_from accepts new idx rc h = (h', r) →
  hsm_inv h' ∧ _queue h' = _queue h ∧ rtc (outbox_step accepts) (outbox_of h) (outbox_of h').
Proof.
  intros I Hnew Hidx. revert rc h I. induction Hidx as [|i idx Hi Hidx IH]; intros rc h I H; simpl in H.
  { munfold H. by simplify_eq. }
  munfold H. destruct (handle_response accepts new i rc h) as [h1 r1] eqn:E1.
  pose proof (handle_response_steps _ _ _ _ _ _ _ I Hnew Hi E1) as Hs.
  destruct (handle_response_spec _ _ _ _ _ _ _ I Hnew Hi E1) as (I1 & Hq1 & _).
  destruct r1 as [rc1|e]; [|by simplify_eq].
  apply IH in H as (I' & Hq' & Hs'); [|done]. split_and!; [done|congruence|by etrans].
Qed.

Lemma handle_mail_steps accepts new h h' r :
  hsm_inv h → zlen new = MAILBOX_SIZE → _handleResponses accepts new h = (h', r) →
  hsm_inv h' ∧ _queue h' = _queue h ∧ rtc (outbox_step accepts) (outbox_of h) (outbox_of h').
Proof.
  intros I Hnew H. unfold _handleResponses in H. munfold H.
  destruct (handle_responses_from accepts new slot_indices false h) as [h1 r1] eqn:E1.
  apply handle_responses_steps in E1 as (I1 & Hq1 & Hs1); [|done|done|apply slot_indices_range].
  destruct r1; unfold modify in H; simplify_eq; [|done].
  split; [|done]. destruct I1; by split.
Qed.

(** ** Sending the mail *)

Lemma slot_sealed i mail tail :
  0 <= i < MESSAGES_PER_MAILBOX → zlen mail = MAILBOX_SIZE →
  slot i (slice 0 (MAILBOX_SIZE - CHECKSUM_BYTES) mail ++ tail) = slot i mail.
Proof.
  intros Hi Hl. unfold slot.
  rewrite slice_app_l by (rewrite ?zlen_slice; mlia). 
  change MAILBOX_SIZE with 4096 in *. change CHECKSUM_BYTES with 4. change MESSAGES_PER_MAILBOX with 63 in *.
  unfold slot_start, MESSAGE_SIZE. splice_eq.
Qed.

(** The mail that is written shows every slot, and validates when there is a
    message in it. *)
Lemma send_mail_spec h :
  hsm_inv h →
  ∃ h' mail, _sendMail h = (h', Ok mail) ∧ hsm_inv h' ∧ outbox_of h' = outbox_of h ∧ _queue h' = _queue h ∧
    _outgoingMail h' = mail ∧ zlen mail = MAILBOX_SIZE ∧
    (∀ i, 0 <= i < MESSAGES_PER_MAILBOX → slot i mail = render (outbox_of h) i) ∧
    (_activeMessages h ≠ ∅ → validateMailbox mail = true).
Proof.
  intros I. unfold _sendMail. do 2 eexists. split; [done|].
  set (data := slice 0 (MAILBOX_SIZE - CHECKSUM_BYTES) (_outgoingMail h)).
  assert (zlen data = MAILBOX_SIZE - CHECKSUM_BYTES) as Hd
    by (subst data; rewrite zlen_slice by (rewrite ?(inv_out_len h I); mlia); mlia).
  assert (zlen (data ++ packed_checksum data) = MAILBOX_SIZE) as Hl
    by (rewrite zlen_app, Hd, zlen_packed_checksum; mlia).
  assert (∀ i, 0 <= i < MESSAGES_PER_MAILBOX → slot i (data ++ packed_checksum data) = render (outbox_of h) i) as Hslots.
  { intros i Hi. subst data. rewrite slot_sealed by (done || apply (inv_out_len h I)). by apply (inv_slots h I). }
  assert (Forall is_byte data) as Hb by apply slice_bytes, (inv_out_bytes h I).
  split_and!; try done.
  - destruct I; split; try done. simpl. apply Forall_app. split; [done|apply le_bytes_are_bytes].
  - intros [i [a Ha]]%map_choose. destruct (proj1 (inv_used h I i)) as [Hi _]; [eauto|].
    specialize (Hslots i Hi). unfold render in Hslots. simpl in Hslots. rewrite Ha in Hslots.
    assert (∃ x l, active_bytes a = x :: l ∧ x ≠ 0) as (x & l & Ex & Hx).
    { destruct a as [m|]; [|by repeat eexists]. pose proof (wf_version m (inv_active h I i m Ha)) as Hv.
      simpl. destruct (payload m) as [|x l]; simplify_eq/=. eauto. }
    apply (sealed_validates data x Hb Hd); [|done].
    subst data. rewrite slot_sealed in Hslots by (done || apply (inv_out_len h I)).
    apply list_elem_of_lookup. exists (Z.to_nat (i * 64)).
    rewrite lookup_slice by lia. rewrite decide_True by mlia.
    apply (f_equal (lookup 0%nat)) in Hslots. rewrite Ex in Hslots. unfold slot in Hslots.
    rewrite lookup_slice in Hslots by mlia. rewrite decide_True in Hslots by mlia. simpl in Hslots |- *.
    rewrite <- Hslots. f_equal. mlia.
Qed.

(** ** Rounds of the monitor *)

Lemma checkForMail_steps accepts read h h' r :
  hsm_inv h → hsm_checkForMail accepts read h = (h', r) →
  hsm_inv h' ∧ _queue h' = _queue h ∧ rtc (outbox_step accepts) (outbox_of h) (outbox_of h').
Proof.
  intros I H. unfold hsm_checkForMail, raise in H. destruct read as [new|]; [|by simplify_eq].
  destruct (Z.eqb_spec (zlen new) MAILBOX_SIZE); simpl in H; [|by simplify_eq]. by eapply handle_mail_steps.
Qed.

Lemma run_round_spec accepts read h h' r :
  hsm_inv h → run_round accepts read h = (h', r) →
  hsm_inv h' ∧ ∃ o mail, r = Ok mail ∧
    rtc (outbox_step accepts) (outbox_of h) o ∧
    (_queue h' = [] ∨ Z.of_nat (size (pending o)) = MESSAGES_PER_MAILBOX) ∧
    rtc (outbox_step accepts) o (outbox_of h') ∧
    (∀ b, mail = Some b → b = _outgoingMail h' ∧ zlen b = MAILBOX_SIZE ∧
       (∀ i, 0 <= i < MESSAGES_PER_MAILBOX → slot i b = render (outbox_of h') i) ∧
       (pending (outbox_of h') ≠ ∅ → validateMailbox b = true)).
Proof.
  intros I H. unfold run_round, get in H. munfold H.
  destruct (take_messages (S (length (_queue h))) false h) as [h1 r1] eqn:E1.
  destruct (take_messages_steps accepts _ _ _ _ _ I (Nat.lt_succ_diag_r _) E1) as ((send & -> & _ & _) & I1 & Hdone & _ & Hs1).
  destruct (hsm_checkForMail accepts read h1) as [h2 r2] eqn:E2.
  destruct (checkForMail_steps _ _ _ _ _ I1 E2) as (I2 & Hq2 & Hs2).
  assert (∃ b, try_except (hsm_checkForMail accepts read) (λ _, mret false) h1 = (h2, Ok b)) as [b Eb].
  { unfold try_except. rewrite E2. destruct r2; by eexists. }
  munfold Eb. rewrite Eb in H. destruct (send || b).
  - destruct (send_mail_spec h2 I2) as (h3 & mail & E3 & I3 & Ho & Hq3 & Hout & Hl & Hsl & Hv). rewrite E3 in H.
    injection H as <- <-. split; [done|]. exists (outbox_of h1), (Some mail). rewrite Ho, Hq3, Hq2.
    split_and!; try done. intros ? [= <-]. done.
  - simplify_eq. split; [done|]. exists (outbox_of h1), None. rewrite Hq2. split_and!; try done.
Qed.

(** The states of a monitor: it starts with one full read of its incoming
    mailbox, clears its outgoing mail, then clients queue messages and the
    monitor makes rounds. *)
Inductive hsm_reachable (pool : text) : HSM_MailMonitor → Prop :=
| reach_start q out h1 h2 mail :
    q = [] → zlen out = MAILBOX_SIZE →
    _initMailbox (Some out) (HSM_init q) = (h1, Ok true) → _sendMail h1 = (h2, Ok mail) → hsm_reachable pool h2
| reach_send v newSize cb h h' r :
    hsm_reachable pool h → sendExtendMsg pool v newSize cb h = (h', r) → hsm_reachable pool h'
| reach_round accepts read h h' r :
    hsm_reachable pool h → run_round accepts read h = (h', r) → hsm_reachable pool h'.

Lemma hsm_init_inv out h1 :
  zlen out = MAILBOX_SIZE → _initMailbox (Some out) (HSM_init []) = (h1, Ok true) → hsm_inv h1.
Proof.
  intros Hl H. unfold _initMailbox in H. simplify_eq. split; try done.
  - intros i. split; [intros [? ?]; done|]. intros [Hi Hu]. unfold used in Hu. cbn [_used_slots_array HSM_init] in Hu.
    unfold zrepeat in Hu. rewrite lookup_replicate_2 in Hu by mlia. done.
  - apply Forall_zrepeat. unfold is_byte. lia.
  - intros i Hi. unfold render, slot. simpl.
    pose proof (zlen_slot i EMPTYMAILBOX ltac:(lia) ltac:(change (zlen EMPTYMAILBOX) with 4096; mlia)) as Hz.
    assert (Forall (λ x, x = 0) (slot i EMPTYMAILBOX)) as Hall by by apply slice_bytes, Forall_zrepeat.
    symmetry. apply replicate_as_Forall. split; [unfold zlen, slot in Hz; mlia|].
    eapply Forall_impl; [exact Hall|]. simpl. congruence.
Qed.

Lemma hsm_reachable_inv pool h : hsm_reachable pool h → hsm_inv h.
Proof.
  induction 1 as [q out h1 h2 mail -> Hl E1 E2|v newSize cb h h' r Hr IH H|accepts read h h' r Hr IH H].
  - pose proof (hsm_init_inv out h1 Hl E1) as I. destruct (send_mail_spec h1 I) as (? & ? & E & I' & _). rewrite E in E2. by injection E2 as <- _.
  - unfold sendExtendMsg in H. munfold H. destruct (SPM_Extend_Message v newSize cb) as [m|] eqn:Em; [|by simplify_eq].
    apply extend_message_well_formed in Em. case_bool_decide; [|unfold raise in H; by simplify_eq].
    unfold modify in H. simplify_eq. destruct IH. split; try done. simpl. by apply Forall_app_2, Forall_singleton.
  - by apply run_round_spec in H as [? _].
Qed.

(** C15: Host side refinement.  In every reachable state of the host's monitor, a
    round of its loop ([_run]) never fails, whatever was read from storage: it
    posts queued messages, each in a free slot unless the same message is active,
    until the queue is empty or the 63 slots are full; then it notes replies and
    frees acknowledged slots.  When mail is written, its 63 slots show exactly
    the pending messages, and it has a valid checksum if there is any; the
    table of used slots, the counter and the dictionary agree. *)
Theorem outbox_refinement pool accepts read h h' r :
  hsm_reachable pool h → run_round accepts read h = (h', r) →
  (_msgCounter h' = Z.of_nat (size (pending (outbox_of h'))) ∧
   ∀ i, 0 <= i < MESSAGES_PER_MAILBOX → used i h' = bool_decide (is_Some (pending (outbox_of h') !! i))) ∧
  ∃ o mail, r = Ok mail ∧
    rtc (outbox_step accepts) (outbox_of h) o ∧
    (_queue h' = [] ∨ Z.of_nat (size (pending o)) = MESSAGES_PER_MAILBOX) ∧
    rtc (outbox_step accepts) o (outbox_of h') ∧
    (∀ b, mail = Some b → b = _outgoingMail h' ∧ zlen b = MAILBOX_SIZE ∧
       (∀ i, 0 <= i < MESSAGES_PER_MAILBOX → slot i b = render (outbox_of h') i) ∧
       (pending (outbox_of h') ≠ ∅ → validateMailbox b = true)).
Proof.
  intros Hr H. destruct (run_round_spec _ _ _ _ _ (hsm_reachable_inv pool h Hr) H) as [I' Hspec].
  split; [|done]. split; [apply (inv_counter h' I')|]. intros i Hi. by apply used_active.
Qed.

(** ** The effect of all replies *)

Lemma handle_responses_ok accepts new idx rc h :
  hsm_inv h → zlen new = MAILBOX_SIZE → NoDup idx → Forall (fun i => 0 <= i < MESSAGES_PER_MAILBOX) idx →
  let old := _incomingMail h in
  (∀ i, i ∈ idx → unexpected i old new (_activeMessages h !! i) = false) →
  ∃ h', handle_responses_from accepts new idx rc h
      = (h', Ok (rc || existsb (fun i => bool_decide (is_Some (_activeMessages h !! i)) && novel i old new) idx)) ∧
    (∀ i, _activeMessages h' !! i =
       if decide (i ∈ idx) then _activeMessages h !! i ≫= after_reply i old new else _activeMessages h !! i) ∧
    _callbacks h' = _callbacks h ++ concat ((fun i => reply_callbacks accepts i old new (_activeMessages h !! i)) <$> idx) ∧
    _queue h' = _queue h.
Proof.
  intros I Hnew Hnd Hidx. revert rc h I. induction Hnd as [|i idx Hni Hnd IH]; intros rc h I old Hexp; simpl.
  { exists h. munfold_goal. rewrite orb_false_r, app_nil_r. done. }
  apply Forall_cons in Hidx as [Hi Hidx]. munfold_goal.
  destruct (handle_response accepts new i rc h) as [h1 r1] eqn:E1.
  destruct (handle_response_spec _ _ _ _ _ _ _ I Hnew Hi E1) as (I1 & Hq1 & Hin1 & Ha1 & Hcb1 & ->). fold old in Ha1, Hcb1, Hin1 |- *.
  rewrite Hexp by apply list_elem_of_here.
  assert (∀ j, j ≠ i → _activeMessages h1 !! j = _activeMessages h !! j) as Hother
    by (intros j Hj; by rewrite Ha1, lookup_partial_alter_ne).
  destruct (IH Hidx (rc || (bool_decide (is_Some (_activeMessages h !! i)) && novel i old new)) h1 I1) as (h' & E & Ha & Hcb & Hq).
  { intros j Hj. rewrite Hin1, Hother by (intros ->; done). apply Hexp. by apply list_elem_of_further. }
  rewrite Hin1 in *. munfold E. rewrite E. exists h'. split_and!; [| | |congruence].
  - f_equal. f_equal. rewrite <- orb_assoc. f_equal. f_equal.
    clear -Hother Hni. induction idx as [|j idx IHx]; [done|]. simpl.
    apply not_elem_of_cons in Hni as [Hne Hni]. rewrite Hother by done. f_equal. by apply IHx.
  - intros j. rewrite Ha. destruct (decide (j = i)) as [->|Hne].
    + rewrite (decide_False (P := i ∈ idx)), decide_True by (done || apply list_elem_of_here).
      by rewrite Ha1, lookup_partial_alter_eq.
    + rewrite Hother by done. destruct (decide (j ∈ idx)) as [Hin|Hin].
      * rewrite decide_True by by apply list_elem_of_further. done.
      * rewrite decide_False by (rewrite elem_of_cons; naive_solver). done.
  - rewrite Hcb, Hcb1, <- app_assoc. f_equal. f_equal. f_equal. apply list_fmap_ext. intros k j Hj.
    rewrite Hother; [done|]. intros ->. apply Hni. by eapply list_elem_of_lookup_2.
Qed.

(** Replies.  Handling the incoming mail in a reachable state: every used slot
    whose reply is new is answered or, by the acknowledgement, freed, and all
    other slots are left alone; the callback of a waiting message is run exactly
    when its reply is new, is for the same volume and the pool of threads takes
    it; the result tells whether there was anything new.  A reply is new when it is
    not empty and one of its first 63 bytes changed.  The hypothesis excludes a
    second reply, other than the acknowledgement, to an answered message, for which
    the code raises an AttributeError. *)
Theorem replies_handled pool accepts new h :
  hsm_reachable pool h → zlen new = MAILBOX_SIZE →
  let old := _incomingMail h in
  (∀ i, 0 <= i < MESSAGES_PER_MAILBOX → unexpected i old new (_activeMessages h !! i) = false) →
  ∃ h', _handleResponses accepts new h
      = (h', Ok (existsb (fun i => bool_decide (is_Some (_activeMessages h !! i)) && novel i old new) slot_indices)) ∧
    _incomingMail h' = new ∧
    (∀ i, _activeMessages h' !! i = _activeMessages h !! i ≫= after_reply i old new) ∧
    _callbacks h' = _callbacks h ++
      concat ((fun i => reply_callbacks accepts i old new (_activeMessages h !! i)) <$> slot_indices).
Proof.
  intros Hr Hnew old Hexp. pose proof (hsm_reachable_inv pool h Hr) as I. unfold _handleResponses. munfold_goal.
  destruct (handle_responses_ok accepts new slot_indices false h) as (h' & E & Ha & Hcb & Hq);
    [done|done|apply NoDup_seqZ|apply slot_indices_range|intros i Hi%slot_indices_elem; by apply Hexp|].
  rewrite E. unfold modify. eexists. split; [done|]. split_and!; [done| |done].
  intros i. simpl. rewrite Ha. destruct (decide (i ∈ slot_indices)) as [|Hni]; [done|].
  destruct (_activeMessages h !! i) as [a|] eqn:Ei; [|done]. exfalso. apply Hni, slot_indices_elem.
  by apply (inv_used h I).
Qed.
