(* ===== verification/MailboxManager.v ===== *)
(** * Mailbox: the manager side

    What [SPM_MailMonitor._handleRequests] does with the mailboxes of all hosts,
    as one equation per output, and the way of a request to the manager and
    back. *)
From Stdlib Require Import ZArith Lia.
From stdpp Require Import base gmap sets list strings relations.
From S2P Require Import Prelude Text Mailbox MailboxFacts MailboxSpec.

(** ** Specification *)

Definition host_slots (host : Z) : list Z := (fun i => host * SLOTS_PER_MAILBOX + i) <$> slot_indices.

(** The mailbox is empty, or its checksum is right. *)
Definition host_valid (mail : bytes) (host : Z) : bool :=
  forallb (fun id => slot_empty id mail) (host_slots host) || validateMailbox (mailbox_of host mail).

(** The slot holds a request that has to be processed. *)
Definition request_of (accepts : Z → bool) (s : SPM_MailMonitor) (mail : bytes) (id : Z) : option (Z * bytes) :=
  let msg := slot id mail in
  if slot_empty id mail || bool_decide (msg = CLEAN_MESSAGE) || bool_decide (msg = slot id (s_incomingMail s))
     || negb (bool_decide (slice 1 5 msg ∈ _messageTypes s)) || negb (accepts id)
  then None else Some (id, msg).

Definition host_requests (accepts : Z → bool) (s : SPM_MailMonitor) (mail : bytes) (host : Z) : list (Z * bytes) :=
  if host_valid mail host then omap (request_of accepts s mail) (host_slots host) else [].

(** The slots whose hosts acknowledged the reply. *)
Definition host_acks (mail : bytes) (host : Z) : list Z :=
  if host_valid mail host then filter (fun id => slot id mail = CLEAN_MESSAGE) (host_slots host) else [].

(** The state after some acknowledgements and requests. *)
Definition spm_after (acks : list Z) (reqs : list (Z * bytes)) (s : SPM_MailMonitor) : SPM_MailMonitor :=
  mkSPM (_numHosts s)
    (foldl (fun out id => set_slot_upto id (_outMailLen s) CLEAN_MESSAGE out) (s_outgoingMail s) acks)
    (s_incomingMail s) (_messageTypes s) (_requests s ++ reqs).

Record spm_inv (s : SPM_MailMonitor) : Prop := {
  spm_hosts : 0 <= _numHosts s;
  spm_out_len : zlen (s_outgoingMail s) = _outMailLen s;
  spm_in_len : zlen (s_incomingMail s) = _outMailLen s;
}.

(** ** The slots of one host *)

Lemma spm_after_nil s : spm_after [] [] s = s.
Proof. destruct s. unfold spm_after. simpl. by rewrite app_nil_r. Qed.

Lemma spm_after_app a b p q s : spm_after b q (spm_after a p s) = spm_after (a ++ b) (p ++ q) s.
Proof. unfold spm_after. simpl. by rewrite foldl_app, <- app_assoc. Qed.

Lemma request_of_after accepts a p s mail id : request_of accepts (spm_after a p s) mail id = request_of accepts s mail id.
Proof. done. Qed.

Lemma clean_not_empty id mail :
  0 <= id → (id + 1) * 64 <= zlen mail → slot id mail = CLEAN_MESSAGE → slot_empty id mail = false.
Proof. intros Hi Hl E. rewrite slot_empty_head, E by done. done. Qed.

(** One slot of a mailbox that was validated. *)
Lemma dispatch_request accepts s mail id :
  slot_empty id mail = false → slot id mail ≠ CLEAN_MESSAGE → slot id mail ≠ slot id (s_incomingMail s) →
  dispatch accepts mail id s = spm_after [] (option_list (request_of accepts s mail id)) s.
Proof.
  intros He Hc Hn. unfold dispatch, request_of.
  rewrite He, (bool_decide_false (_ = CLEAN_MESSAGE)), (bool_decide_false (_ = slot id (s_incomingMail s))) by done. simpl.
  case_bool_decide; simpl; [destruct (accepts id); [done|]|]; by rewrite spm_after_nil.
Qed.

Lemma handle_slots_valid accepts host idx mail send s :
  0 <= host → (host + 1) * MAILBOX_SIZE <= zlen mail → Forall (fun i => 0 <= i < MESSAGES_PER_MAILBOX) idx →
  let ids := (fun i => host * SLOTS_PER_MAILBOX + i) <$> idx in
  let acks := filter (fun id => slot id mail = CLEAN_MESSAGE) ids in
  handle_slots accepts host idx true mail send s =
    (mail, send || negb (bool_decide (acks = [])), spm_after acks (omap (request_of accepts s mail) ids) s).
Proof.
  intros Hh Hl Hidx. revert send s. induction Hidx as [|i idx Hi Hidx IH]; intros send s; cbn [handle_slots].
  { cbn. by rewrite orb_false_r, spm_after_nil. }
  cbn [fmap list_fmap]. set (id := host * SLOTS_PER_MAILBOX + i).
  assert (0 <= id ∧ (id + 1) * 64 <= zlen mail) as [Hid Hlid] by (subst id; mlia).
  cbn [omap list_omap]. destruct (slot_empty id mail) eqn:Ee; cbn [negb andb].
  { rewrite filter_cons_False by (intros E%clean_not_empty; [congruence|done|done]).
    unfold request_of at 1. rewrite Ee. cbn [orb]. by rewrite IH. }
  case_bool_decide as Ec.
  { rewrite filter_cons_True by done. unfold request_of at 1. rewrite Ee, (bool_decide_true (_ = CLEAN_MESSAGE)) by done.
    cbn [orb]. rewrite IH. cbn [negb]. rewrite (bool_decide_false (_ :: _ = [])) by done.
    rewrite orb_true_r. cbn [orb negb]. f_equal. }
  rewrite filter_cons_False by done. case_bool_decide as En.
  { unfold request_of at 1. rewrite Ee, (bool_decide_false (_ = CLEAN_MESSAGE)), (bool_decide_true (_ = slot id _)) by done. cbn [orb]. by rewrite IH. }
  rewrite dispatch_request by done. rewrite IH. f_equal. rewrite spm_after_app. cbn [app].
  destruct (request_of accepts s mail id); done.
Qed.

Lemma handle_slots_spec accepts host idx mail send s :
  0 <= host → (host + 1) * MAILBOX_SIZE <= zlen mail → Forall (fun i => 0 <= i < MESSAGES_PER_MAILBOX) idx →
  let ids := (fun i => host * SLOTS_PER_MAILBOX + i) <$> idx in
  let acks := filter (fun id => slot id mail = CLEAN_MESSAGE) ids in
  handle_slots accepts host idx false mail send s =
    if forallb (fun id => slot_empty id mail) ids || validateMailbox (mailbox_of host mail)
    then (mail, send || negb (bool_decide (acks = [])), spm_after acks (omap (request_of accepts s mail) ids) s)
    else (clear_mailbox host mail, send, s).
Proof.
  intros Hh Hl Hidx. induction Hidx as [|i idx Hi Hidx IH].
  { cbn. by rewrite orb_false_r, spm_after_nil. }
  pose proof (handle_slots_valid accepts host (i :: idx) mail send s Hh Hl ltac:(by constructor)) as Hv.
  cbn [handle_slots] in Hv |- *. cbn [fmap list_fmap] in *. set (id := host * SLOTS_PER_MAILBOX + i) in *.
  assert (0 <= id ∧ (id + 1) * 64 <= zlen mail) as [Hid Hlid] by (subst id; mlia).
  cbn [forallb]. destruct (slot_empty id mail) eqn:Ee; cbn [negb andb] in *.
  - cbn [omap list_omap]. rewrite filter_cons_False by (intros E%clean_not_empty; [congruence|done|done]).
    unfold request_of at 1. rewrite Ee. cbn [orb]. apply IH.
  - destruct (validateMailbox (mailbox_of host mail)); cbn [negb orb]; [|done]. apply Hv.
Qed.

(** ** Mailboxes *)

Lemma zlen_mailbox_of host mail :
  0 <= host → (host + 1) * MAILBOX_SIZE <= zlen mail → zlen (mailbox_of host mail) = MAILBOX_SIZE.
Proof. intros. unfold mailbox_of. rewrite zlen_slice by mlia. mlia. Qed.

Lemma clear_mailbox_splice host mail :
  0 <= host → (host + 1) * MAILBOX_SIZE <= zlen mail → clear_mailbox host mail = splice (host * MAILBOX_SIZE) EMPTYMAILBOX mail.
Proof.
  intros Hh Hl. unfold clear_mailbox, splice. f_equal; [unfold slice; by rewrite Z.sub_0_r|]. f_equal.
  assert (zlen EMPTYMAILBOX = MAILBOX_SIZE) as HE by done. unfold slice, zlen in *.
  rewrite take_ge; [f_equal; mlia|]. rewrite length_drop. mlia.
Qed.

Lemma zlen_clear_mailbox host mail :
  0 <= host → (host + 1) * MAILBOX_SIZE <= zlen mail → zlen (clear_mailbox host mail) = zlen mail.
Proof.
  intros. rewrite clear_mailbox_splice by done. change MAILBOX_SIZE with 4096 in *.
  apply zlen_splice; change (zlen EMPTYMAILBOX) with 4096; lia.
Qed.

Lemma mailbox_of_clear host k mail :
  0 <= host → 0 <= k → (host + 1) * MAILBOX_SIZE <= zlen mail →
  mailbox_of k (clear_mailbox host mail) = if decide (k = host) then EMPTYMAILBOX else mailbox_of k mail.
Proof.
  intros Hh Hk Hl. rewrite clear_mailbox_splice by done. unfold mailbox_of.
  change MAILBOX_SIZE with 4096 in *. assert (zlen EMPTYMAILBOX = 4096) as HE by done.
  destruct (decide (k = host)) as [->|Hne].
  - rewrite slice_splice_inside by lia. rewrite Z.sub_diag. unfold splice.
    rewrite take_0, drop_ge; [apply app_nil_r|].
    pose proof (zlen_slice (host * 4096) (host * 4096 + 4096) mail ltac:(lia) ltac:(lia)). unfold zlen in *. lia.
  - apply slice_splice_disjoint; lia.
Qed.

(** A slot of a host is a slot of its mailbox. *)
Lemma slot_of_mailbox host i mail :
  0 <= host → 0 <= i < SLOTS_PER_MAILBOX → (host + 1) * MAILBOX_SIZE <= zlen mail →
  slot (host * SLOTS_PER_MAILBOX + i) mail = slot i (mailbox_of host mail).
Proof.
  intros. unfold slot, mailbox_of, slot_start. change SLOTS_PER_MAILBOX with 64 in *.
  change MAILBOX_SIZE with 4096 in *. change MESSAGE_SIZE with 64. splice_eq.
Qed.

Lemma elem_host_slots id host :
  id ∈ host_slots host ↔ ∃ i, id = host * SLOTS_PER_MAILBOX + i ∧ 0 <= i < MESSAGES_PER_MAILBOX.
Proof.
  unfold host_slots. rewrite list_elem_of_fmap. setoid_rewrite slot_indices_elem. done.
Qed.

Section view.
  Context (host : Z) (mail mail' : bytes).
  Hypothesis (Hh : 0 <= host) (Hl : (host + 1) * MAILBOX_SIZE <= zlen mail) (Hl' : (host + 1) * MAILBOX_SIZE <= zlen mail').
  Hypothesis (Hm : mailbox_of host mail' = mailbox_of host mail).

Lemma slot_view id : id ∈ host_slots host → slot id mail' = slot id mail.
Proof.
  intros (i & -> & Hi)%elem_host_slots. rewrite !slot_of_mailbox by (done || mlia). by rewrite Hm.
Qed.

Lemma slot_empty_view id : id ∈ host_slots host → slot_empty id mail' = slot_empty id mail.
Proof.
  intros Hid. pose proof Hid as (i & -> & Hi)%elem_host_slots. rewrite !slot_empty_head by mlia. by rewrite slot_view.
Qed.

Lemma host_valid_view : host_valid mail' host = host_valid mail host.
Proof.
  unfold host_valid. rewrite Hm. f_equal. apply eq_iff_eq_true. rewrite !forallb_forall.
  split; intros H id Hid; specialize (H id Hid); [rewrite <- slot_empty_view|rewrite slot_empty_view];
    rewrite ?list_elem_of_In; done.
Qed.

Lemma host_requests_view accepts s : host_requests accepts s mail' host = host_requests accepts s mail host.
Proof.
  unfold host_requests. rewrite host_valid_view. destruct (host_valid mail host); [|done].
  assert (∀ ids, ids ⊆ host_slots host → omap (request_of accepts s mail') ids = omap (request_of accepts s mail) ids) as H.
  { induction ids as [|id ids IH]; [done|]. intros Hsub. cbn [omap list_omap].
    rewrite IH by set_solver. unfold request_of at 1 3. rewrite slot_view, slot_empty_view by set_solver. done. }
  by apply H.
Qed.

Lemma host_acks_view : host_acks mail' host = host_acks mail host.
Proof.
  unfold host_acks. rewrite host_valid_view. destruct (host_valid mail host); [|done].
  assert (∀ ids, ids ⊆ host_slots host →
    filter (fun id => slot id mail' = CLEAN_MESSAGE) ids = filter (fun id => slot id mail = CLEAN_MESSAGE) ids) as H.
  { induction ids as [|id ids IH]; [done|]. intros Hsub. rewrite !filter_cons, IH by set_solver.
    by rewrite slot_view by set_solver. }
  by apply H.
Qed.
End view.

(** ** All hosts *)

#[local] Opaque EMPTYMAILBOX.

(** The mail after the mailbox of [host] was looked at. *)
Definition kept (host : Z) (mail : bytes) : bytes := if host_valid mail host then mail else clear_mailbox host mail.

Lemma handle_host accepts host mail send s :
  0 <= host → (host + 1) * MAILBOX_SIZE <= zlen mail →
  handle_slots accepts host slot_indices false mail send s =
    (kept host mail, send || negb (bool_decide (host_acks mail host = [])),
     spm_after (host_acks mail host) (host_requests accepts s mail host) s).
Proof.
  intros Hh Hl. rewrite (handle_slots_spec accepts host slot_indices mail send s Hh Hl slot_indices_range).
  fold (host_slots host). fold (host_valid mail host). unfold kept, host_acks, host_requests.
  destruct (host_valid mail host); [done|]. simpl. by rewrite orb_false_r, spm_after_nil.
Qed.

Lemma kept_view host mail :
  0 <= host → (host + 1) * MAILBOX_SIZE <= zlen mail →
  zlen (kept host mail) = zlen mail ∧
  ∀ k, 0 <= k → mailbox_of k (kept host mail) =
    if decide (k = host) then if host_valid mail k then mailbox_of k mail else EMPTYMAILBOX else mailbox_of k mail.
Proof.
  intros Hh Hl. unfold kept. destruct (host_valid mail host) eqn:Ev.
  - split; [done|]. intros k Hk. destruct (decide (k = host)) as [->|]; [by rewrite Ev|done].
  - split; [by apply zlen_clear_mailbox|]. intros k Hk. rewrite mailbox_of_clear by done.
    destruct (decide (k = host)) as [->|]; [by rewrite Ev|done].
Qed.

Lemma handle_hosts_spec accepts hosts mail send s :
  NoDup hosts → Forall (fun host => 0 <= host ∧ (host + 1) * MAILBOX_SIZE <= zlen mail) hosts →
  let acks := concat (host_acks mail <$> hosts) in
  ∃ mail', handle_hosts accepts hosts mail send s =
      (mail', send || negb (bool_decide (acks = [])), spm_after acks (concat (host_requests accepts s mail <$> hosts)) s) ∧
    zlen mail' = zlen mail ∧
    (∀ k, 0 <= k → (k + 1) * MAILBOX_SIZE <= zlen mail →
       mailbox_of k mail' = if decide (k ∈ hosts) then if host_valid mail k then mailbox_of k mail else EMPTYMAILBOX
                            else mailbox_of k mail).
Proof.
  intros Hnd Hrange. revert mail send s Hrange. induction Hnd as [|host hosts Hni Hnd IH]; intros mail send s Hrange.
  { exists mail. cbn. rewrite orb_false_r, spm_after_nil. split_and!; try done. }
  apply Forall_cons in Hrange as [[Hh Hl] Hrange]. cbn [handle_hosts]. rewrite handle_host by done.
  destruct (kept_view host mail Hh Hl) as [Hl1 Hbox1]. set (mail1 := kept host mail) in *. cbn [fmap list_fmap concat].
  assert (∀ k, k ∈ hosts → 0 <= k ∧ (k + 1) * MAILBOX_SIZE <= zlen mail ∧ (k + 1) * MAILBOX_SIZE <= zlen mail1 ∧
            mailbox_of k mail1 = mailbox_of k mail) as Hsame.
  { intros k Hk. rewrite Forall_forall in Hrange. destruct (Hrange k Hk). rewrite Hl1, Hbox1 by done.
    by rewrite decide_False by (intros ->; done). }
  edestruct (IH mail1) as (mail' & E & Hlen & Hbox); [by rewrite Hl1|]. rewrite E.
  assert (host_acks mail1 <$> hosts = host_acks mail <$> hosts) as Ea.
  { apply list_fmap_ext. intros ? k Hk%list_elem_of_lookup_2. destruct (Hsame k Hk) as (?&?&?&?). by apply host_acks_view. }
  assert (host_requests accepts s mail1 <$> hosts = host_requests accepts s mail <$> hosts) as Er.
  { apply list_fmap_ext. intros ? k Hk%list_elem_of_lookup_2. destruct (Hsame k Hk) as (?&?&?&?). by apply host_requests_view. }
  exists mail'. rewrite Ea, Hlen, Hl1, spm_after_app. split_and!; [|done|].
  - rewrite <- Er. f_equal. f_equal. rewrite <- orb_assoc. f_equal. by destruct (host_acks mail host).
  - intros k Hk Hlk. rewrite Hbox, Hbox1 by (rewrite ?Hl1; done). destruct (decide (k = host)) as [->|Hne].
    + rewrite (decide_False (P := host ∈ hosts)), (decide_True (P := host ∈ host :: hosts)) by first [exact Hni | apply list_elem_of_here].
      reflexivity.
    + destruct (decide (k ∈ hosts)) as [Hin|Hin].
      * rewrite (decide_True (P := k ∈ host :: hosts)) by (apply list_elem_of_further; exact Hin).
        destruct (Hsame k Hin) as (?&?&?&?). rewrite (host_valid_view k mail mail1) by assumption. reflexivity.
      * rewrite (decide_False (P := k ∈ host :: hosts)) by (intros [?|?]%elem_of_cons; contradiction). reflexivity.
Qed.

Lemma fold_clean stop acks out :
  zlen out = stop → Forall (fun id => 0 <= id ∧ (id + 1) * 64 <= stop) acks →
  let out' := foldl (fun out id => set_slot_upto id stop CLEAN_MESSAGE out) out acks in
  zlen out' = stop ∧
  ∀ j, 0 <= j → slot j out' = if decide (j ∈ acks) then CLEAN_MESSAGE else slot j out.
Proof.
  intros Hl Hacks. revert out Hl. induction Hacks as [|id acks [Hid Hlid] Hacks IH]; intros out Hl; cbn [foldl].
  { split; [done|]. intros j Hj. by rewrite decide_False by (by intros ?%elem_of_nil). }
  assert (zlen CLEAN_MESSAGE = MESSAGE_SIZE) as Hc by done.
  rewrite set_slot_upto_eq by done. destruct (IH (set_slot id CLEAN_MESSAGE out)) as [Hl' Hslot].
  { by rewrite zlen_set_slot by (done || lia). }
  split; [done|]. intros j Hj. rewrite Hslot by done. destruct (decide (j ∈ acks)) as [Hin|Hin].
  { rewrite decide_True by (apply list_elem_of_further; exact Hin). reflexivity. }
  destruct (decide (j = id)) as [->|Hne].
  - rewrite decide_True by apply list_elem_of_here. by rewrite slot_set_slot_eq by (done || lia).
  - rewrite decide_False by (intros [?|?]%elem_of_cons; contradiction). by rewrite slot_set_slot_ne by (done || lia).
Qed.

Lemma host_acks_range mail n :
  Forall (fun id => 0 <= id ∧ (id + 1) * 64 <= MAILBOX_SIZE * n) (concat (host_acks mail <$> seqZ 0 n)).
Proof.
  apply Forall_concat, Forall_fmap, Forall_forall. intros host [Hh1 Hh2]%elem_of_seqZ. simpl.
  unfold host_acks. destruct (host_valid mail host); [|constructor].
  apply Forall_forall. intros id [_ (i & -> & Hi)%elem_host_slots]%list_elem_of_filter. mlia.
Qed.

(** All results of [_handleRequests]. *)
Lemma handle_requests_spec accepts newMail s s' send :
  spm_inv s → zlen newMail = _outMailLen s → _handleRequests accepts newMail s = (s', send) →
  let hosts := seqZ 0 (_numHosts s) in
  let acks := concat (host_acks newMail <$> hosts) in
  spm_inv s' ∧ _numHosts s' = _numHosts s ∧ _messageTypes s' = _messageTypes s ∧
  _requests s' = _requests s ++ concat (host_requests accepts s newMail <$> hosts) ∧
  send = negb (bool_decide (acks = [])) ∧
  (∀ id, 0 <= id → slot id (s_outgoingMail s') = if decide (id ∈ acks) then CLEAN_MESSAGE else slot id (s_outgoingMail s)) ∧
  (∀ host, 0 <= host < _numHosts s →
     mailbox_of host (s_incomingMail s') = if host_valid newMail host then mailbox_of host newMail else EMPTYMAILBOX).
Proof.
  intros I Hl H hosts acks. unfold _handleRequests in H.
  destruct (handle_hosts_spec accepts hosts newMail false s) as (mail' & E & Hlen & Hbox).
  { apply NoDup_seqZ. }
  { apply Forall_forall. intros k [? ?]%elem_of_seqZ. rewrite Hl. unfold _outMailLen. mlia. }
  fold hosts acks in H, E. rewrite E in H. injection H as <- <-.
  destruct (fold_clean (_outMailLen s) acks (s_outgoingMail s) (spm_out_len s I) (host_acks_range newMail (_numHosts s)))
    as [Hl' Hslot].
  split; [|split_and!; try reflexivity; [exact Hslot|]].
  - split; [apply I|exact Hl'|]. simpl. by rewrite Hlen.
  - intros host Hh. simpl. rewrite Hbox by (rewrite ?Hl; unfold _outMailLen; mlia).
    rewrite decide_True; [reflexivity|]. apply elem_of_seqZ. lia.
Qed.

(** Mail that was read before gives no new requests. *)
Lemma no_request_again accepts newMail s' host :
  0 <= host → (host + 1) * MAILBOX_SIZE <= zlen newMail → (host + 1) * MAILBOX_SIZE <= zlen (s_incomingMail s') →
  (host_valid newMail host = true → mailbox_of host (s_incomingMail s') = mailbox_of host newMail) →
  host_requests accepts s' newMail host = [].
Proof.
  intros Hh Hl Hl' Hsame. unfold host_requests. destruct (host_valid newMail host) eqn:Ev; [|done].
  specialize (Hsame eq_refl). pose proof (slot_view host _ _ Hh Hl Hl' Hsame) as Hslot.
  assert (∀ ids, (∀ id, id ∈ ids → id ∈ host_slots host) → omap (request_of accepts s' newMail) ids = []) as H.
  { induction ids as [|id ids IH]; [done|]. intros Hsub. cbn [omap list_omap].
    rewrite IH by (intros; apply Hsub; by apply list_elem_of_further). unfold request_of.
    rewrite (Hslot id) by (apply Hsub, list_elem_of_here).
    rewrite (bool_decide_true (slot id newMail = slot id newMail)) by reflexivity. by rewrite !orb_true_r. }
  by apply H.
Qed.

Lemma spm_init_inv n : 0 <= n → spm_inv (SPM_init n).
Proof.
  intros. split; [done| |]; simpl; unfold _outMailLen; simpl; rewrite zlen_zrepeat; mlia.
Qed.

(** Requests.  Handling the mailboxes of all hosts: a mailbox that is not empty
    and whose checksum is wrong is ignored and remembered as empty; in the
    others, exactly the new messages of a registered type, other than
    acknowledgements, are handed to the thread pool, in the order of hosts and
    slots; exactly the acknowledged slots are acknowledged in the outgoing mail,
    which is sent if there are any.  Reading the same mail again hands out
    nothing. *)
Theorem requests_handled accepts newMail s s' send :
  spm_inv s → zlen newMail = _outMailLen s → _handleRequests accepts newMail s = (s', send) →
  let hosts := seqZ 0 (_numHosts s) in
  let acks := concat (host_acks newMail <$> hosts) in
  spm_inv s' ∧
  _requests s' = _requests s ++ concat (host_requests accepts s newMail <$> hosts) ∧
  send = negb (bool_decide (acks = [])) ∧
  (∀ id, 0 <= id → slot id (s_outgoingMail s') = if decide (id ∈ acks) then CLEAN_MESSAGE else slot id (s_outgoingMail s)) ∧
  (∀ host, 0 <= host < _numHosts s →
     mailbox_of host (s_incomingMail s') = if host_valid newMail host then mailbox_of host newMail else EMPTYMAILBOX) ∧
  (∀ accepts', _requests (fst (_handleRequests accepts' newMail s')) = _requests s').
Proof.
  intros I Hl H hosts acks.
  destruct (handle_requests_spec _ _ _ _ _ I Hl H) as (I' & Hn & Ht & Hreq & Hsend & Hout & Hin).
  split_and!; try assumption. intros accepts'.
  destruct (_handleRequests accepts' newMail s') as [s2 send2] eqn:E2.
  destruct (handle_requests_spec accepts' newMail s' s2 send2 I') as (_ & _ & _ & Hreq2 & _);
    [unfold _outMailLen; rewrite Hn; exact Hl|exact E2|].
  cbn [fst]. rewrite Hreq2. rewrite Hn. rewrite <- (app_nil_r (_requests s')) at 2. f_equal.
  apply concat_nil_Forall, Forall_fmap, Forall_forall. intros host [Hh1 Hh2]%elem_of_seqZ. simpl.
  apply no_request_again.
  - done.
  - rewrite Hl. unfold _outMailLen. mlia.
  - rewrite (spm_in_len s' I'). unfold _outMailLen. rewrite Hn. mlia.
  - intros Ev. rewrite Hin by lia. by rewrite Ev.
Qed.

(** ** A request and its reply *)

(** The manager answers every extend request, with the same volume, whether or
    not the extension succeeded. *)
Lemma process_request_replies {W} (extendVolume : text → text → Z → M W error unit) spUUID v size cb m w :
  SPM_Extend_Message v size cb = Ok m →
  ∃ w' m' size' sent,
    processRequest extendVolume spUUID (payload m) w = (w', Ok m') ∧
    extendVolume (domainID v) (volumeID v) size w = (w', sent) ∧
    SPM_Extend_Message (mkVolume spUUID (domainID v) (volumeID v)) size' None = Ok m' ∧
    size' = (if is_ok sent then size else 0).
Proof.
  intros Hm. pose proof (extend_message_parse _ _ _ _ Hm) as Hp. unfold processRequest. rewrite Hp.
  assert (∀ z, 0 <= z <= VOLUME_MAX_SIZE →
    ∃ m', SPM_Extend_Message (mkVolume spUUID (domainID v) (volumeID v)) z None = Ok m') as Hnew.
  { intros z [Hz1 Hz2]. revert Hm. unfold SPM_Extend_Message. destruct (_ || _); [done|].
    rewrite (proj2 (Z.ltb_ge z 0)), (proj2 (Z.ltb_ge VOLUME_MAX_SIZE z)) by done. simpl. intros Hm. munfold Hm. munfold_goal.
    destruct (validateUUID (domainID v)); [|done]. destruct (validateUUID (volumeID v)); [|done].
    destruct (packUuid (domainID v)); [|done]. destruct (packUuid (volumeID v)); [|done]. by eexists. }
  pose proof (extend_message_fields _ _ _ _ Hm) as (_ & _ & _ & _ & _ & _ & _ & _ & _ & Hsz & _).
  destruct (extendVolume (domainID v) (volumeID v) size w) as [w' sent].
  destruct sent as [u|e].
  - destruct (Hnew size Hsz) as [m' E]. rewrite E. by exists w', m', size, (Ok u).
  - destruct (Hnew 0) as [m' E]; [unfold VOLUME_MAX_SIZE; lia|]. rewrite E. by exists w', m', 0, (Raise e).
Qed.

(** [sendReply] writes the mailbox of the host with the reply in its slot. *)
Lemma send_reply_spec host i m s :
  spm_inv s → 0 <= host < _numHosts s → 0 <= i < MESSAGES_PER_MAILBOX → zlen (payload m) = MESSAGE_SIZE →
  ∃ s' box, sendReply (host * SLOTS_PER_MAILBOX + i) m s = (s', (host, box)) ∧ spm_inv s' ∧
    zlen box = MAILBOX_SIZE ∧ slot i box = payload m ∧
    (∀ j, 0 <= j < SLOTS_PER_MAILBOX → j ≠ i → slot j box = slot j (mailbox_of host (s_outgoingMail s))) ∧
    (∀ k, 0 <= k < _numHosts s → k ≠ host → mailbox_of k (s_outgoingMail s') = mailbox_of k (s_outgoingMail s)).
Proof.
  intros I Hh Hi Hm. unfold sendReply. set (id := host * SLOTS_PER_MAILBOX + i).
  assert (id / SLOTS_PER_MAILBOX = host) as Hdiv.
  { unfold id. rewrite Z.div_add_l by done. rewrite (Z.div_small i) by mlia. lia. }
  rewrite Hdiv, Z.div_mul by done. pose proof (spm_out_len s I) as Hlen. rewrite set_slot_upto_eq by done.
  assert (0 <= id ∧ (id + 1) * 64 <= zlen (s_outgoingMail s)) as [Hid Hlid]
    by (rewrite Hlen; unfold id, _outMailLen; mlia).
  set (out := set_slot id (payload m) (s_outgoingMail s)). assert (zlen out = _outMailLen s) as Hout
    by (unfold out; by rewrite zlen_set_slot).
  assert ((host + 1) * MAILBOX_SIZE <= zlen out) as Hbig by (rewrite Hout; unfold _outMailLen; mlia).
  exists (mkSPM (_numHosts s) out (s_incomingMail s) (_messageTypes s) (_requests s)), (mailbox_of host out).
  split; [reflexivity|]. split_and!.
  - split; [apply I|exact Hout|apply (spm_in_len s I)].
  - apply zlen_mailbox_of; [lia|done].
  - rewrite <- slot_of_mailbox by (mlia || done). unfold out. by apply slot_set_slot_eq.
  - intros j Hj Hne. rewrite <- !slot_of_mailbox by (done || lia || rewrite Hlen; unfold _outMailLen; mlia).
    unfold out. apply slot_set_slot_ne; try done; unfold id; mlia.
  - intros k Hk Hne. simpl. unfold out. rewrite set_slot_splice by done. unfold mailbox_of.
    apply slice_splice_disjoint; rewrite ?Hm; unfold id; mlia.
Qed.

(** A pending extend request in a valid mailbox is handed to the thread pool. *)
Lemma extend_requested v size cb m accepts s newMail host i :
  let id := host * SLOTS_PER_MAILBOX + i in
  SPM_Extend_Message v size cb = Ok m → 0 <= host → 0 <= i < MESSAGES_PER_MAILBOX →
  (host + 1) * MAILBOX_SIZE <= zlen newMail → host_valid newMail host = true → slot id newMail = payload m →
  slot id (s_incomingMail s) ≠ payload m → EXTEND_CODE ∈ _messageTypes s → accepts id = true →
  (id, payload m) ∈ host_requests accepts s newMail host.
Proof.
  intros id Hm Hh Hi Hbig Hv Hslot Hnew Htype Hacc.
  unfold host_requests. rewrite Hv. apply list_elem_of_omap. exists id. split.
  { apply elem_host_slots. by exists i. }
  unfold request_of. rewrite slot_empty_head by (unfold id; mlia).
  rewrite Hslot, (wf_version m (extend_message_well_formed _ _ _ _ Hm)), Hacc.
  pose proof (extend_message_fields _ _ _ _ Hm) as (d & u & Hpay & _).
  rewrite (bool_decide_false (payload m = CLEAN_MESSAGE)) by (rewrite Hpay; discriminate).
  rewrite (bool_decide_false (payload m = slot id _)) by congruence.
  rewrite (bool_decide_true (_ ∈ _)); [done|]. rewrite Hpay. done.
Qed.

(** A reply for the same volume completes the request in its slot when it is
    new; a reply the host has already read there is not looked at. *)
Lemma reply_accepted v size cb m v' size' reply accepts i box h :
  SPM_Extend_Message v size (Some cb) = Ok m → SPM_Extend_Message v' size' None = Ok reply →
  domainID v' = domainID v → volumeID v' = volumeID v → hsm_inv h → 0 <= i < MESSAGES_PER_MAILBOX →
  _activeMessages h !! i = Some (Waiting m) → zlen box = MAILBOX_SIZE → slot i box = payload reply →
  if fresh i (_incomingMail h) box
  then ∃ h', handle_response accepts box i false h = (h', Ok true) ∧ _activeMessages h' !! i = Some Cleaned ∧
         _callbacks h' = _callbacks h ++ (if accepts cb then [(cb, v)] else [])
  else handle_response accepts box i false h = (h, Ok false).
Proof.
  intros Hm Hrep Hd Hu I Hi Hact Hlb Hsb.
  assert (slot_empty i box = false) as Hne.
  { rewrite slot_empty_head by (rewrite ?Hlb; mlia). by rewrite Hsb, (wf_version _ (extend_message_well_formed _ _ _ _ Hrep)). }
  destruct (fresh i (_incomingMail h) box) eqn:Hfresh.
  2:{ unfold handle_response. rewrite used_active, bool_decide_true, Hne by (done || eauto). cbn [negb].
      destruct (scan_fresh i (_incomingMail h) box) as (j & -> & ->); [lia|rewrite (inv_in_len h I); mlia|rewrite Hlb; mlia|].
      by rewrite Hfresh. }
  destruct (handle_response accepts box i false h) as [h2 r2] eqn:E2.
  destruct (handle_response_spec _ _ _ _ _ _ _ I Hlb Hi E2) as (_ & _ & _ & Ha & Hcbs & Hr2).
  rewrite Hact in Hcbs, Hr2.
  assert (novel i (_incomingMail h) box = true) as Hnov by (unfold novel; by rewrite Hfresh, Hne).
  assert (slot i box ≠ CLEAN_MESSAGE) as Hnc.
  { rewrite Hsb. pose proof (extend_message_fields _ _ _ _ Hrep) as (d & u & -> & _). discriminate. }
  exists h2. split; [|split].
  - f_equal. rewrite Hr2. simpl. by rewrite Hnov.
  - rewrite Ha, lookup_partial_alter_eq, Hact. simpl. unfold after_reply. by rewrite Hnov, bool_decide_false.
  - rewrite Hcbs. simpl. rewrite Hnov, bool_decide_false by done. simpl. unfold answered. rewrite Hsb.
    rewrite (extend_reply_checked _ _ _ _ _ _ _ _ Hm Hrep), decide_True by done.
    pose proof (extend_message_fields _ _ _ _ Hm) as (_ & _ & _ & _ & _ & _ & _ & _ & _ & _ & -> & ->). done.
Qed.

(** C16: A request and its reply.  A host writes its mail with a pending extend
    request in slot [i]; the manager reads an area in which that is the host's
    mailbox, with a request it has not seen.  Then the request is handed to the
    thread pool; processing it extends exactly the volume to the size the host
    asked for; the reply is written into the host's mailbox; and when the host
    reads that mailbox, there are two cases.  When the reply differs from what the
    host last read in that slot, in a byte other than the last, the host runs the
    callback of the request once (if its thread pool takes it) and puts the
    acknowledgement into the slot; otherwise it takes the reply for one it has
    already handled: nothing changes and the request goes on waiting. *)
Theorem mail_exchange {W} (extendVolume : text → text → Z → M W error unit) pool spUUID h h1 mail host i m v size cb
    accepts newMail s s' send w accepts_cb :
  hsm_reachable pool h → _activeMessages h !! i = Some (Waiting m) → SPM_Extend_Message v size (Some cb) = Ok m →
  _sendMail h = (h1, Ok mail) →
  spm_inv s → 0 <= host < _numHosts s → zlen newMail = _outMailLen s → mailbox_of host newMail = mail →
  let id := host * SLOTS_PER_MAILBOX + i in
  slot id (s_incomingMail s) ≠ payload m → EXTEND_CODE ∈ _messageTypes s → accepts id = true →
  _handleRequests accepts newMail s = (s', send) →
  ∃ reqs w' sent reply s2 box,
    _requests s' = _requests s ++ reqs ∧ (id, payload m) ∈ reqs ∧
    processRequest extendVolume spUUID (payload m) w = (w', Ok reply) ∧
    extendVolume (domainID v) (volumeID v) size w = (w', sent) ∧
    sendReply id reply s' = (s2, (host, box)) ∧ zlen box = MAILBOX_SIZE ∧
    if fresh i (_incomingMail h1) box
    then ∃ h2, handle_response accepts_cb box i false h1 = (h2, Ok true) ∧ _activeMessages h2 !! i = Some Cleaned ∧
           _callbacks h2 = _callbacks h1 ++ (if accepts_cb cb then [(cb, v)] else [])
    else handle_response accepts_cb box i false h1 = (h1, Ok false).
Proof.
  intros Hr Hact Hm Hsend I Hh Hl Hbox id Hnew Htype Hacc Hreq.
  pose proof (hsm_reachable_inv pool h Hr) as Ih.
  destruct (proj1 (inv_used h Ih i)) as [Hi _]; [eauto|].
  destruct (send_mail_spec h Ih) as (h1' & mail' & E & I1 & Ho & _ & Hmail & Hlm & Hslots & Hvalid).
  rewrite E in Hsend. injection Hsend as <- <-.
  pose proof (extend_message_size _ _ _ _ Hm) as Hpl. pose proof (extend_message_well_formed _ _ _ _ Hm) as Hwf.
  assert ((host + 1) * MAILBOX_SIZE <= zlen newMail) as Hbig by (rewrite Hl; unfold _outMailLen; mlia).
  assert (slot id newMail = payload m) as Hslot.
  { unfold id. rewrite slot_of_mailbox by (done || mlia). rewrite Hbox, Hslots by done. unfold render. simpl. by rewrite Hact. }
  assert (host_valid newMail host = true) as Hv.
  { unfold host_valid. rewrite Hbox, Hvalid, orb_true_r; [done|]. intros E0. by rewrite E0 in Hact. }
  destruct (handle_requests_spec _ _ _ _ _ I Hl Hreq) as (I' & Hn & _ & Hrq & _).
  destruct (process_request_replies extendVolume spUUID v size (Some cb) m w Hm) as (w' & reply & size' & sent & Hp & Hx & Hrep & _).
  destruct (send_reply_spec host i reply s' I') as (s2 & box & Hsr & _ & Hlb & Hsb & _);
    [by rewrite Hn|done|by eapply extend_message_size|].
  exists (concat (host_requests accepts s newMail <$> seqZ 0 (_numHosts s))), w', sent, reply, s2, box.
  split_and!; try assumption.
  - apply list_elem_of_In, in_concat. exists (host_requests accepts s newMail host). rewrite <- !list_elem_of_In. split.
    { apply list_elem_of_fmap_2, elem_of_seqZ. lia. }
    apply (extend_requested v size (Some cb) m accepts s newMail host i); try assumption; lia.
  - unfold outbox_of in Ho. injection Ho as Ho _.
    apply (reply_accepted v size cb m _ size' reply accepts_cb i box h1' Hm Hrep); try done. by rewrite Ho.
Qed.
