(* ===== verification/MailboxWitness.v ===== *)
(** * Mailbox: a run of the protocol

    One host posts an extend request; the manager reads it, answers it, and the
    host runs its callback. *)
From Stdlib Require Import ZArith Lia.
From stdpp Require Import base gmap list strings.
From S2P Require Import Prelude Text Mailbox MailboxFacts MailboxSpec MailboxManager.

Definition dom1 : text := str "0a1b2c3d-0000-4000-8000-00000000000f".
Definition vol1 : text := str "11111111-2222-3333-4444-555555555555".
Definition pool1 : text := str "pool".
Definition v1 : volume_data := mkVolume pool1 dom1 vol1.

Definition state_of {S E A} (p : S * res E A) : S := fst p.

(** The host after its start, with a queued request, and after a round. *)
Definition h_start : HSM_MailMonitor :=
  Eval vm_compute in state_of (_sendMail (state_of (_initMailbox (Some EMPTYMAILBOX) (HSM_init [])))).
Definition h_queued : HSM_MailMonitor := Eval vm_compute in state_of (sendExtendMsg pool1 v1 1024 (Some 7%nat) h_start).
Definition h_sent : HSM_MailMonitor :=
  Eval vm_compute in state_of (run_round (fun _ => true) (Some EMPTYMAILBOX) h_queued).
Definition m1 : Message :=
  Eval vm_compute in match SPM_Extend_Message v1 1024 (Some 7%nat) with Ok m => m | Raise _ => mkMessage v1 [] None end.

Lemma h_sent_reachable : hsm_reachable pool1 h_sent.
Proof.
  eapply (reach_round pool1 (fun _ => true) (Some EMPTYMAILBOX) h_queued); [|vm_compute; reflexivity].
  eapply (reach_send pool1 v1 1024 (Some 7%nat) h_start); [|vm_compute; reflexivity].
  eapply (reach_start pool1 [] EMPTYMAILBOX); [done|done|vm_compute; reflexivity|vm_compute; reflexivity].
Qed.

Lemma extend_roundtrip_witness : parse_request (payload m1) = Ok (dom1, vol1, 1024).
Proof. apply (proj2 (extend_roundtrip v1 1024 (Some 7%nat)) m1). vm_compute. reflexivity. Defined.

Lemma outbox_refinement_witness :
  _msgCounter h_sent = 1 ∧ ∃ o, rtc (outbox_step (fun _ => true)) o (outbox_of h_sent).
Proof.
  destruct (outbox_refinement pool1 (fun _ => true) None h_sent h_sent (Ok None)) as [[Hc _] (o & mail & _ & Hs & _ & Ht & _)].
  - apply h_sent_reachable.
  - vm_compute. reflexivity.
  - split; [rewrite Hc; vm_compute; reflexivity|]. exists o. exact Ht.
Defined.

Definition s1 : SPM_MailMonitor := Eval vm_compute in registerMessageType EXTEND_CODE (SPM_init 2).
Definition area1 : bytes := Eval vm_compute in EMPTYMAILBOX ++ _outgoingMail h_sent.
Definition reply1 : bytes :=
  Eval vm_compute in snd (snd (sendReply 64 m1 (fst (_handleRequests (fun _ => true) area1 s1)))).

Lemma replies_handled_witness :
  ∃ h', _handleResponses (fun _ => true) reply1 h_sent = (h', Ok true) ∧ _activeMessages h' !! 0 = Some Cleaned.
Proof.
  destruct (replies_handled pool1 (fun _ => true) reply1 h_sent) as (h' & E & _ & Ha & _).
  - apply h_sent_reachable.
  - vm_compute. reflexivity.
  - intros i Hi. destruct (decide (i = 0)) as [->|Hne]; [vm_compute; reflexivity|].
    assert (_activeMessages h_sent !! i = None) as ->; [|reflexivity].
    change (_activeMessages h_sent) with ({[ 0 := Waiting m1 ]} : gmap Z active). by apply lookup_singleton_ne.
  - exists h'. split; [rewrite E; vm_compute; reflexivity|]. rewrite Ha. vm_compute. reflexivity.
Defined.

Lemma s1_inv : spm_inv s1.
Proof. split; vm_compute; done. Qed.

Lemma requests_handled_witness :
  _requests (fst (_handleRequests (fun _ => true) area1 s1)) = [(64, payload m1)].
Proof.
  destruct (requests_handled (fun _ => true) area1 s1 (fst (_handleRequests (fun _ => true) area1 s1)) false)
    as (_ & -> & _).
  - apply s1_inv.
  - vm_compute. reflexivity.
  - vm_compute. reflexivity.
  - vm_compute. reflexivity.
Defined.

Lemma mail_exchange_witness :
  ∃ reqs reply s2 box,
    _requests (fst (_handleRequests (fun _ => true) area1 s1)) = _requests s1 ++ reqs ∧ (64, payload m1) ∈ reqs ∧
    sendReply 64 reply (fst (_handleRequests (fun _ => true) area1 s1)) = (s2, (1, box)) ∧
    ∃ h2, handle_response (fun _ => true) box 0 false h_sent = (h2, Ok true) ∧ _activeMessages h2 !! 0 = Some Cleaned ∧
      _callbacks h2 = _callbacks h_sent ++ [(7%nat, v1)].
Proof.
  destruct (mail_exchange (W := unit) (fun _ _ _ w => (w, Ok ())) pool1 pool1 h_sent h_sent (_outgoingMail h_sent) 1 0 m1 v1
    1024 7%nat (fun _ => true) area1 s1 (fst (_handleRequests (fun _ => true) area1 s1)) false tt (fun _ => true))
    as (reqs & w' & sent & reply & s2 & box & Hr & Hin & Hp & _ & Hs & _ & Hc).
  - apply h_sent_reachable.
  - vm_compute. reflexivity.
  - vm_compute. reflexivity.
  - vm_compute. reflexivity.
  - apply s1_inv.
  - vm_compute. split; [discriminate|reflexivity].
  - vm_compute. reflexivity.
  - vm_compute. reflexivity.
  - vm_compute. discriminate.
  - apply list_elem_of_here.
  - reflexivity.
  - vm_compute. reflexivity.
  - exists reqs, reply, s2, box. split; [exact Hr|]. split; [exact Hin|]. split; [exact Hs|].
    assert (fresh 0 (_incomingMail h_sent) box = true) as Hf; [|rewrite Hf in Hc; exact Hc].
    clear Hr Hin Hc reqs. vm_compute in Hp. injection Hp as _ <-. vm_compute in Hs. injection Hs as _ <-. vm_compute. reflexivity.
Defined.
