(* ===== verification/Wp.v ===== *)
(** * Weakest preconditions for the state and exception monad

    [wp m Q s]: running [m] from [s] ends in a state and result that satisfy [Q].
    The rules are equivalences, so that proofs execute programs symbolically by
    rewriting. *)
From Stdlib Require Import ZArith Lia.
From stdpp Require Import base list.
From S2P Require Import Prelude.

Section wp.
  Context {S E : Type}.

Definition wp {A} (m : M S E A) (Q : S → res E A → Prop) (s : S) : Prop := Q (fst (m s)) (snd (m s)).

Lemma wp_run {A} (m : M S E A) Q s s' r : wp m Q s → m s = (s', r) → Q s' r.
Proof. unfold wp. intros H Hr. by rewrite Hr in H. Qed.

Lemma wp_mono {A} (m : M S E A) (Q Q' : S → res E A → Prop) s :
  wp m Q s → (∀ s' r, Q s' r → Q' s' r) → wp m Q' s.
Proof. unfold wp. auto. Qed.

Lemma wp_and {A} (m : M S E A) (Q Q' : S → res E A → Prop) s :
  wp m Q s → wp m Q' s → wp m (fun s' r => Q s' r ∧ Q' s' r) s.
Proof. unfold wp. auto. Qed.

Lemma wp_mret {A} (a : A) Q s : wp (mret a) Q s ↔ Q s (Ok a).
Proof. done. Qed.

Lemma wp_bind {A B} (m : M S E A) (f : A → M S E B) Q s :
  wp (m ≫= f) Q s ↔ wp m (fun s' r => match r with Ok a => wp (f a) Q s' | Raise e => Q s' (Raise e) end) s.
Proof. unfold wp, mbind, M_bind. destruct (m s) as [s' [a|e]]; done. Qed.

Lemma wp_get Q s : wp get Q s ↔ Q s (Ok s).
Proof. done. Qed.

Lemma wp_modify (f : S → S) (Q : S → res E unit → Prop) s : wp (modify f) Q s ↔ Q (f s) (Ok ()).
Proof. done. Qed.

Lemma wp_raise {A} (e : E) (Q : S → res E A → Prop) s : wp (raise e) Q s ↔ Q s (Raise e).
Proof. done. Qed.

Lemma wp_try_except {A} (m : M S E A) h Q s :
  wp (try_except m h) Q s ↔ wp m (fun s' r => match r with Ok a => Q s' (Ok a) | Raise e => wp (h e) Q s' end) s.
Proof. unfold wp, try_except. destruct (m s) as [s' [a|e]]; done. Qed.

Lemma wp_if {A} (b : bool) (m n : M S E A) Q s : wp (if b then m else n) Q s ↔ if b then wp m Q s else wp n Q s.
Proof. by destruct b. Qed.

End wp.

(** Symbolic execution. *)
Ltac wps := repeat first
  [ rewrite wp_bind | rewrite wp_mret | rewrite wp_get | rewrite wp_modify | rewrite wp_raise | rewrite wp_try_except ].
