(* ===== verification/Task.v ===== *)
(** * Storage tasks: [storage/task.py]

    The state machine of a storage task: its states and their legal transitions,
    preparing, running jobs, stopping, aborting and recovering.  The functions a
    task runs (its prepare function, its jobs and recoveries) are scripts: which
    methods of the task are called while they run, by themselves or by other
    threads, and how they end.  Nested calls of [_updateState] take fuel. *)
From Stdlib Require Import ZArith Lia.
From stdpp Require Import base list strings.
From S2P Require Import Prelude Text.

(** ** States *)

Inductive State :=
| unknown | init | preparing | blocked | acquiring | queued | running | finished | aborting
| waitrecover | recovering | racquiring | raborting | recovered | failed.

#[export] Instance State_eq_dec : EqDecision State.
Proof. solve_decision. Defined.

Definition states : list State :=
  [unknown; init; preparing; blocked; acquiring; queued; running; finished; aborting;
   waitrecover; recovering; racquiring; raborting; recovered; failed].

Definition state_name (s : State) : text :=
  match s with
  | unknown => str "unknown" | init => str "init" | preparing => str "preparing" | blocked => str "blocked"
  | acquiring => str "acquiring" | queued => str "queued" | running => str "running" | finished => str "finished"
  | aborting => str "aborting" | waitrecover => str "waitrecover" | recovering => str "recovering"
  | racquiring => str "racquiring" | raborting => str "raborting" | recovered => str "recovered" | failed => str "failed"
  end.

(** [State(state)], for a text that is the name of a state or of no attribute of
    the class. *)
Definition State_of (s : text) : State :=
  match list_find (fun x => state_name x = s) states with
  | Some (_, x) => x
  | None => unknown
  end.

Definition DEPRECATED_STATE (s : State) : text :=
  match s with
  | unknown => str "unknown" | init => str "init"
  | preparing | blocked | acquiring | queued | running => str "running"
  | finished => str "finished" | aborting => str "aborting"
  | waitrecover | recovering | racquiring => str "cleaning"
  | raborting => str "aborting" | recovered => str "finished" | failed => str "finished"
  end.

Definition DEPRECATED_RESULT (s : State) : text :=
  match s with
  | finished => str "success" | recovered => str "cleanSuccess" | failed => str "cleanFailure"
  | _ => []
  end.

(** Legal transitions: the states from which a state may be entered. *)
Definition _moveto (s : State) : list State :=
  match s with
  | unknown => []
  | init => []
  | preparing => [init; blocked]
  | blocked => [preparing]
  | acquiring => [preparing; acquiring]
  | queued => [acquiring; running]
  | running => [queued]
  | finished => [running; preparing]
  | aborting => [preparing; blocked; acquiring; queued; running]
  | waitrecover => [aborting]
  | racquiring => [aborting; finished; racquiring; waitrecover]
  | recovering => [racquiring]
  | raborting => [racquiring; recovering; waitrecover]
  | recovered => [recovering]
  | failed => [recovering; aborting; raborting]
  end.

Definition mem (s : State) (l : list State) : bool := bool_decide (s ∈ l).

Definition isDone (s : State) : bool := mem s [finished; recovered; failed].
Definition isRecovering (s : State) : bool := mem s [racquiring; recovering].
Definition canAbort (s : State) : bool := mem s (_moveto aborting).
Definition canAbortRecovery (s : State) : bool := mem s (_moveto raborting).

(** ** Exceptions *)

Inductive exn :=
| TaskAborted (value : text) (abortedcode : Z)
| StorageException (code : Z) (message : text)
| TaskStateTransitionError | TaskStateError | TaskPersistError | TaskHasRefs | TaskNotFinished
| TaskDirError | UnmanagedTask | AddTaskError | ValueError | TypeError | AttributeError
| OtherException (message : text)
| BaseException.

(** [se.TaskAborted(value, abortedcode)] *)
Definition new_TaskAborted (value : text) (abortedcode : Z) : exn :=
  TaskAborted (str "value=" ++ value ++ str " abortedcode=" ++ str_d abortedcode) abortedcode.

Definition TaskAborted_code : Z := 411.

(** An exception, or the end of the fuel, which no handler catches. *)
Inductive failure := Err (e : exn) | OutOfFuel.

(** ** Tasks *)

(** [TaskRecoveryType], [TaskPersistType] and [TaskCleanType] have the same
    values. *)
Inductive policy := none | manual | auto.

#[export] Instance policy_eq_dec : EqDecision policy.
Proof. solve_decision. Defined.

Record Job := mkJob { job_name : text; job_cmd : nat }.
Record Recovery := mkRecovery { rec_name : text; rec_fn : nat }.

Definition ROLLBACK_SENTINEL : text := str "rollback sentinel".

Record TaskResult := mkResult { code : Z; message : text; result_value : option text }.

(** What can be observed of a task. *)
Inductive event :=
| Entered (s : State) | RanJob (name : text) | RanRecovery (name : text) | AbortCallback (cb : nat) | Saved | Cleaned.

Record Task := mkTask {
  taskid : text;
  tag : text;
  recoveryPolicy : policy;
  persistPolicy : policy;
  cleanPolicy : policy;
  store : option text;
  state : State;
  result : TaskResult;
  resources : list text;
  error : exn;
  mng : bool;
  _abort_callbacks : list nat;
  _aborting : bool;
  _forceAbort : bool;
  ref : Z;
  recoveries : list Recovery;
  jobs : list Job;
  nrecoveries : Z;
  njobs : Z;
  _is_done : bool;
  trace : list event;
}.

Definition Task_init (id : text) (recovery : policy) (callbacks : list nat) : Task :=
  mkTask id [] recovery none auto None init (mkResult 0 (str "Task is initializing") (Some [])) []
    (new_TaskAborted (str "Unknown error encountered") TaskAborted_code) false callbacks false false 0 [] [] 0 0 false [].

(** ** Assignments to the fields of a task *)

Section fields.
  Context (t : Task).

Definition set_tag v := mkTask (taskid t) v (recoveryPolicy t) (persistPolicy t) (cleanPolicy t) (store t) (state t) (result t) (resources t) (error t) (mng t) (_abort_callbacks t) (_aborting t) (_forceAbort t) (ref t) (recoveries t) (jobs t) (nrecoveries t) (njobs t) (_is_done t) (trace t).
Definition set_recoveryPolicy v := mkTask (taskid t) (tag t) v (persistPolicy t) (cleanPolicy t) (store t) (state t) (result t) (resources t) (error t) (mng t) (_abort_callbacks t) (_aborting t) (_forceAbort t) (ref t) (recoveries t) (jobs t) (nrecoveries t) (njobs t) (_is_done t) (trace t).
Definition set_persistence p c s := mkTask (taskid t) (tag t) (recoveryPolicy t) p c s (state t) (result t) (resources t) (error t) (mng t) (_abort_callbacks t) (_aborting t) (_forceAbort t) (ref t) (recoveries t) (jobs t) (nrecoveries t) (njobs t) (_is_done t) (trace t).
Definition set_state v := mkTask (taskid t) (tag t) (recoveryPolicy t) (persistPolicy t) (cleanPolicy t) (store t) v (result t) (resources t) (error t) (mng t) (_abort_callbacks t) (_aborting t) (_forceAbort t) (ref t) (recoveries t) (jobs t) (nrecoveries t) (njobs t) (_is_done t) (trace t ++ [Entered v]).
Definition set_result v := mkTask (taskid t) (tag t) (recoveryPolicy t) (persistPolicy t) (cleanPolicy t) (store t) (state t) v (resources t) (error t) (mng t) (_abort_callbacks t) (_aborting t) (_forceAbort t) (ref t) (recoveries t) (jobs t) (nrecoveries t) (njobs t) (_is_done t) (trace t).
Definition set_resources v := mkTask (taskid t) (tag t) (recoveryPolicy t) (persistPolicy t) (cleanPolicy t) (store t) (state t) (result t) v (error t) (mng t) (_abort_callbacks t) (_aborting t) (_forceAbort t) (ref t) (recoveries t) (jobs t) (nrecoveries t) (njobs t) (_is_done t) (trace t).
Definition set_error v := mkTask (taskid t) (tag t) (recoveryPolicy t) (persistPolicy t) (cleanPolicy t) (store t) (state t) (result t) (resources t) v (mng t) (_abort_callbacks t) (_aborting t) (_forceAbort t) (ref t) (recoveries t) (jobs t) (nrecoveries t) (njobs t) (_is_done t) (trace t).
Definition set_mng v := mkTask (taskid t) (tag t) (recoveryPolicy t) (persistPolicy t) (cleanPolicy t) (store t) (state t) (result t) (resources t) (error t) v (_abort_callbacks t) (_aborting t) (_forceAbort t) (ref t) (recoveries t) (jobs t) (nrecoveries t) (njobs t) (_is_done t) (trace t).
Definition set_callbacks v := mkTask (taskid t) (tag t) (recoveryPolicy t) (persistPolicy t) (cleanPolicy t) (store t) (state t) (result t) (resources t) (error t) (mng t) v (_aborting t) (_forceAbort t) (ref t) (recoveries t) (jobs t) (nrecoveries t) (njobs t) (_is_done t) (trace t).
Definition set_aborting v := mkTask (taskid t) (tag t) (recoveryPolicy t) (persistPolicy t) (cleanPolicy t) (store t) (state t) (result t) (resources t) (error t) (mng t) (_abort_callbacks t) v (_forceAbort t) (ref t) (recoveries t) (jobs t) (nrecoveries t) (njobs t) (_is_done t) (trace t).
Definition set_forceAbort v := mkTask (taskid t) (tag t) (recoveryPolicy t) (persistPolicy t) (cleanPolicy t) (store t) (state t) (result t) (resources t) (error t) (mng t) (_abort_callbacks t) (_aborting t) v (ref t) (recoveries t) (jobs t) (nrecoveries t) (njobs t) (_is_done t) (trace t).
Definition set_ref v := mkTask (taskid t) (tag t) (recoveryPolicy t) (persistPolicy t) (cleanPolicy t) (store t) (state t) (result t) (resources t) (error t) (mng t) (_abort_callbacks t) (_aborting t) (_forceAbort t) v (recoveries t) (jobs t) (nrecoveries t) (njobs t) (_is_done t) (trace t).
Definition set_recoveries v := mkTask (taskid t) (tag t) (recoveryPolicy t) (persistPolicy t) (cleanPolicy t) (store t) (state t) (result t) (resources t) (error t) (mng t) (_abort_callbacks t) (_aborting t) (_forceAbort t) (ref t) v (jobs t) (nrecoveries t) (njobs t) (_is_done t) (trace t).
Definition set_jobs v := mkTask (taskid t) (tag t) (recoveryPolicy t) (persistPolicy t) (cleanPolicy t) (store t) (state t) (result t) (resources t) (error t) (mng t) (_abort_callbacks t) (_aborting t) (_forceAbort t) (ref t) (recoveries t) v (nrecoveries t) (njobs t) (_is_done t) (trace t).
Definition set_counts r j := mkTask (taskid t) (tag t) (recoveryPolicy t) (persistPolicy t) (cleanPolicy t) (store t) (state t) (result t) (resources t) (error t) (mng t) (_abort_callbacks t) (_aborting t) (_forceAbort t) (ref t) (recoveries t) (jobs t) r j (_is_done t) (trace t).
Definition set_is_done v := mkTask (taskid t) (tag t) (recoveryPolicy t) (persistPolicy t) (cleanPolicy t) (store t) (state t) (result t) (resources t) (error t) (mng t) (_abort_callbacks t) (_aborting t) (_forceAbort t) (ref t) (recoveries t) (jobs t) (nrecoveries t) (njobs t) v (trace t).
Definition log_event e := mkTask (taskid t) (tag t) (recoveryPolicy t) (persistPolicy t) (cleanPolicy t) (store t) (state t) (result t) (resources t) (error t) (mng t) (_abort_callbacks t) (_aborting t) (_forceAbort t) (ref t) (recoveries t) (jobs t) (nrecoveries t) (njobs t) (_is_done t) (trace t ++ [e]).
End fields.

Abbreviation TM A := (M Task failure A).

(** [raise e] *)
Definition throw {A} (e : exn) : TM A := raise (Err e).

(** [try: m except Exception: h], which does not catch the end of the fuel. *)
Definition try_exn {A} (m : TM A) (h : exn → TM A) : TM A :=
  try_except m (fun f => match f with Err e => h e | OutOfFuel => raise OutOfFuel end).

(** [try: m finally: f]: an exception of [f] replaces the result of [m]. *)
Definition try_finally {A} (m : TM A) (f : TM unit) : TM A := fun t =>
  let '(t1, r) := m t in
  let '(t2, r2) := f t1 in
  match r, r2 with
  | Raise OutOfFuel, _ => (t2, Raise OutOfFuel)
  | _, Raise e => (t2, Raise e)
  | _, Ok _ => (t2, r)
  end.

(** [aborting()] *)
Definition is_aborting (t : Task) : bool :=
  _aborting t || bool_decide (state t = aborting) || bool_decide (state t = raborting).

Definition has_store (t : Task) : bool := match store t with Some (_ :: _) => true | _ => false end.

(** The methods of a task that are called while a function of it runs. *)
Inductive call :=
| CStop (force : bool)
| CAddJob (j : Job)
| CPushRecovery (r : Recovery)
| CReplaceRecoveries (r : Recovery)
| CClearRecoveries
| CSetTag (v : text)
| CSetManager
| CSetRecoveryPolicy (p : policy)
| CSetPersistence (s : option text) (p c : policy)
| CAcquired (resource : text)
| CAbortCallback (cb : nat)
| CAbortCallbackExit (cb : nat).

Section task.
  (** The functions of tasks: the calls made while function [c] runs on the task,
      and its result. *)
  Context (script : nat → Task → list call * res exn (option text)).
  (** The manager's thread pool and the task store: the error of an attempt, if
      it fails. *)
  Context (queue_task save_task createdir : Task → option exn).
  (** [str(e)] *)
  Context (exn_str : exn → text).

(** [State.moveto] *)
Definition moveto (s : State) (force : bool) : TM unit :=
  t ← get;
  if negb force && negb (mem (state t) (_moveto s)) then throw TaskStateTransitionError
  else modify (fun t => set_state t s).

Definition _updateResult (c : Z) (m : text) (r : option text) : TM unit :=
  modify (fun t => set_result t (mkResult c m r)).

Definition _setError (e : exn) : TM unit := modify (fun t => set_error t e).

Definition oracle (o : Task → option exn) : TM unit :=
  t ← get; match o t with Some e => throw e | None => mret () end.

(** [_save]: without a directory for the task nothing is changed; otherwise the
    counters are updated and the files are written. *)
Definition _save : TM unit :=
  t ← get;
  match save_task t with
  | Some TaskDirError => throw TaskDirError
  | o =>
      modify (fun t => set_counts t (zlen (recoveries t)) (zlen (jobs t))) ;;
      match o with Some e => throw e | None => modify (fun t => log_event t Saved) end
  end.

Definition persist : TM unit :=
  t ← get;
  if bool_decide (persistPolicy t = none) then mret ()
  else if negb (has_store t) then throw TaskPersistError
  else if bool_decide (state t = init) then throw TaskStateError
  else _save.

Definition clean : TM unit :=
  t ← get;
  if negb (has_store t) then mret ()
  else if negb (isDone (state t)) then throw TaskStateError
  else modify (fun t => log_event t Cleaned).

(** [_done]: [releaseAll] of the resource owner, which is taken to release all its resources and not to raise, then clean. *)
Definition _done : TM unit :=
  modify (fun t => set_resources t []) ;;
  t ← get;
  if bool_decide (cleanPolicy t = auto) then clean else mret ().

(** ** Jobs and recoveries *)

Definition addJob (j : Job) : TM unit :=
  t ← get;
  if negb (mng t) then throw UnmanagedTask
  else if negb (bool_decide (state t = preparing)) then throw (OtherException (str "can't add job in non preparing state"))
  else if bool_decide (job_name j = []) then throw ValueError
  else if bool_decide (job_name j ∈ job_name <$> jobs t) then throw ValueError
  else modify (fun t => set_jobs t (jobs t ++ [j])) ;;
       modify (fun t => set_counts t (nrecoveries t) (zlen (jobs t))).

Definition pushRecovery (r : Recovery) : TM unit :=
  t ← get;
  if bool_decide (rec_name r = []) then throw ValueError
  else if bool_decide (rec_name r ∈ rec_name <$> recoveries t) then throw ValueError
  else modify (fun t => set_recoveries t (recoveries t ++ [r])) ;; persist.

(** What [popRecovery] leaves after the last sentinel was popped, or nothing. *)
Fixpoint pop_to_sentinel (rev_recoveries : list Recovery) : list Recovery :=
  match rev_recoveries with
  | [] => []
  | r :: rest => if bool_decide (rec_name r = ROLLBACK_SENTINEL) then rest else pop_to_sentinel rest
  end.

Definition replaceRecoveries (r : Recovery) : TM unit :=
  if bool_decide (rec_name r = []) then throw ValueError
  else modify (fun t => set_recoveries t (reverse (pop_to_sentinel (reverse (recoveries t))) ++ [r])) ;; persist.

Definition clearRecoveries : TM unit := modify (fun t => set_recoveries t []) ;; persist.

(** [self.recoveries.pop()] *)
Definition popRecovery : TM (option Recovery) := fun t =>
  match reverse (recoveries t) with
  | [] => (t, Ok None)
  | r :: rest => (set_recoveries t (reverse rest), Ok (Some r))
  end.

Definition setTag (v : text) : TM unit :=
  if bool_decide (61 ∈ v) then throw ValueError else modify (fun t => set_tag t v).

Definition setPersistence (s : option text) (p c : policy) : TM unit :=
  modify (fun t => set_persistence t p c s) ;;
  t ← get;
  if negb (bool_decide (p = none)) && negb (has_store t) then throw TaskPersistError
  else match s with
  | None => throw TypeError
  | Some _ =>
      t ← get;
      match createdir t with
      | Some _ => throw TaskPersistError
      | None => if bool_decide (p = auto) && negb (bool_decide (state t = init)) then persist else mret ()
      end
  end.

(** ** References, stopping and aborting

    [upd] is [_updateState], for the nested calls. *)

Section nested.
  Context (upd : State → bool → TM unit).

Definition _incref (force : bool) : TM unit :=
  t ← get;
  if is_aborting t && (_forceAbort t || negb force) then throw (new_TaskAborted (taskid t) TaskAborted_code)
  else modify (fun t => set_ref t (ref t + 1)).

Definition _doAbort (force : bool) : TM unit :=
  t ← get;
  if negb (ref t =? 0) then mret ()
  else
    modify (fun t => set_ref t (ref t + 1)) ;;
    try_finally
      (t ← get;
       if negb (canAbort (state t)) && (force && negb (canAbortRecovery (state t))) then mret ()
       else try_exn (if canAbort (state t) then upd aborting false else upd raborting false)
              (fun e => match e with TaskAborted _ _ => upd failed false | _ => throw e end))
      (modify (fun t => set_ref t (ref t - 1)) ;;
       t ← get;
       if negb (isDone (state t)) then upd failed false else mret ()).

Definition _decref (force : bool) : TM unit :=
  modify (fun t => set_ref t (ref t - 1)) ;;
  t ← get;
  if ref t =? 0 then
    (if is_aborting t then _doAbort force else mret ()) ;;
    t ← get;
    if isDone (state t) then modify (fun t => set_is_done t true) else mret ()
  else mret ().

Definition _execute_abort_callbacks : TM unit :=
  modify (fun t => set_aborting t true) ;;
  t ← get;
  for_each (_abort_callbacks t) (fun cb => modify (fun t => log_event t (AbortCallback cb))).

Definition stop (force : bool) : TM unit :=
  _incref force ;;
  try_finally
    (t ← get;
     if isDone (state t) then mret ()
     else if isRecovering (state t) && negb force && bool_decide (cleanPolicy t = auto) then mret ()
     else _execute_abort_callbacks ;; modify (fun t => set_forceAbort t force))
    (_decref force).

(** [resourceAcquired]: the callback of the resource owner *)
Definition resourceAcquired : TM unit :=
  _incref false ;;
  try_finally
    (t ← get;
     match state t with
     | preparing => mret ()
     | acquiring => upd acquiring false
     | racquiring => upd racquiring false
     | blocked => upd preparing false
     | aborting | raborting => mret ()
     | _ => throw TaskStateError
     end)
    (_decref false).

(** Entering and leaving [abort_callback(callback)] *)
Definition abort_callback_enter (cb : nat) : TM unit :=
  t ← get;
  if is_aborting t then modify (fun t => log_event t (AbortCallback cb))
  else modify (fun t => set_callbacks t (filter (.≠ cb) (_abort_callbacks t) ++ [cb])).

Definition abort_callback_exit (cb : nat) : TM unit :=
  modify (fun t => set_callbacks t (filter (.≠ cb) (_abort_callbacks t))).

Definition do_call (c : call) : TM unit :=
  match c with
  | CStop force => stop force
  | CAddJob j => addJob j
  | CPushRecovery r => pushRecovery r
  | CReplaceRecoveries r => replaceRecoveries r
  | CClearRecoveries => clearRecoveries
  | CSetTag v => setTag v
  | CSetManager => modify (fun t => set_mng t true)
  | CSetRecoveryPolicy p => modify (fun t => set_recoveryPolicy t p)
  | CSetPersistence s p c => setPersistence s p c
  | CAcquired r => modify (fun t => set_resources t (resources t ++ [r])) ;; resourceAcquired
  | CAbortCallback cb => abort_callback_enter cb
  | CAbortCallbackExit cb => abort_callback_exit cb
  end.

(** A function runs: the errors of the calls it survives are handled by it, or
    belong to other threads. *)
Definition exec (c : nat) : TM (option text) :=
  t ← get;
  let '(calls, r) := script c t in
  for_each calls (fun c => try_exn (do_call c) (fun _ => mret ())) ;;
  match r with Ok v => mret v | Raise e => throw e end.

Definition _run (c : nat) : TM (option text) :=
  try_exn (exec c) (fun e =>
    let '(m, code, e') :=
      match e with
      | StorageException code _ => (exn_str e, code, e)
      | BaseException => (str "Unknown Error", 100, new_TaskAborted (str "Unknown error encountered") TaskAborted_code)
      | _ => (exn_str e, 100, e)
      end in
    _setError e' ;; stop false ;; throw (new_TaskAborted m code)).

(** ** Running jobs *)

Definition shutting_down : exn := new_TaskAborted (str "shutting down") TaskAborted_code.

Definition check_aborting : TM unit := t ← get; if is_aborting t then throw shutting_down else mret ().

(** The loop of [_runJobs]; [n] is the number of jobs. *)
Fixpoint run_jobs (i n : Z) (js : list Job) (last : option text) : TM (Z * option text) :=
  match js with
  | [] => mret (i, last)
  | j :: js' =>
      check_aborting ;;
      _updateResult 0 (str "running job " ++ str_d (i + 1) ++ str " of " ++ str_d n) (Some []) ;;
      modify (fun t => log_event t (RanJob (job_name j))) ;;
      r ← _run (job_cmd j);
      check_aborting ;;
      run_jobs (i + 1) n js' (Some (default [] r))
  end.

Definition _runJobs : TM unit :=
  try_exn
    (check_aborting ;;
     t ← get;
     (if bool_decide (state t = running) then mret () else throw TaskStateError) ;;
     p ← run_jobs 0 (zlen (jobs t)) (jobs t) (Some []);
     _updateResult 0 (str_d (fst p) ++ str " jobs completed successfully") (snd p) ;;
     upd finished false)
    (fun e => match e with
     | TaskAborted value abortedcode =>
         t ← get;
         if is_aborting t then _updateResult abortedcode value (Some []) else throw e
     | _ => throw e
     end).

(** ** Recovery *)

(** The loop [while True] of [_recoverDone]: a transition error is logged and the
    loop starts again. *)
Fixpoint _recoverDone (fuel : nat) : TM unit :=
  match fuel with
  | O => raise OutOfFuel
  | S fuel' =>
      try_exn
        (t ← get;
         match state t with
         | recovering => upd recovered false
         | raborting => upd failed false
         | _ => mret ()
         end)
        (fun e => match e with TaskStateTransitionError => _recoverDone fuel' | _ => throw e end)
  end.

(** The loop of [_recover]: [fuel] bounds the number of recoveries. *)
Fixpoint run_recoveries (fuel : nat) : TM unit :=
  match fuel with
  | O => raise OutOfFuel
  | S fuel' =>
      t ← get;
      if bool_decide (state t = recovering) then
        rec ← popRecovery;
        match rec with
        | None => mret ()
        | Some r => modify (fun t => log_event t (RanRecovery (rec_name r))) ;; _run (rec_fn r) ;; run_recoveries fuel'
        end
      else mret ()
  end.

Definition _recover : TM unit :=
  t ← get;
  if negb (bool_decide (state t = recovering)) then throw TaskStateError
  else
    try_exn (run_recoveries (S (length (recoveries t))))
      (fun _ => try_exn
         (t ← get; if bool_decide (state t = recovering) then upd raborting false else mret ())
         (fun e => match e with TaskStateTransitionError => mret () | _ => throw e end)) ;;
    _recoverDone 2.

(** ** The handlers [__state_*] *)

Definition enter (s : State) : TM unit :=
  match s with
  | preparing | blocked | waitrecover => mret ()
  | acquiring => upd queued false
  | queued => try_exn (oracle queue_task) (fun e => _setError e ;; stop false)
  | running => _runJobs
  | finished | recovered | failed => _done
  | aborting =>
      t ← get;
      if 1 <? ref t then mret ()
      else match recoveryPolicy t with
           | auto => upd racquiring false
           | none => upd failed false
           | manual => upd waitrecover false
           end
  | racquiring => upd recovering false
  | recovering => _recover
  | raborting => t ← get; if ref t =? 1 then upd failed false else mret ()
  | unknown | init => throw AttributeError
  end.
End nested.

(** The state that is entered when [s] is requested. *)
Definition redirect (t : Task) (s : State) : State :=
  if _aborting t then
    if canAbort (state t) then aborting
    else if canAbortRecovery (state t) && negb (bool_decide (s = recovered)) then raborting
    else s
  else s.

Fixpoint _updateState (fuel : nat) (s : State) (force : bool) : TM unit :=
  match fuel with
  | O => raise OutOfFuel
  | S fuel' =>
      t ← get;
      let s' := redirect t s in
      modify (fun t => set_aborting t false) ;;
      moveto s' force ;;
      t ← get;
      (if bool_decide (persistPolicy t = auto) then try_exn persist (fun _ => mret ()) else mret ()) ;;
      enter (_updateState fuel') s'
  end.

(** ** The public interface *)

(** The nesting of [_updateState] is at most six deep. *)
Definition depth : nat := 6.

Definition updateState (s : State) (force : bool) : TM unit := _updateState depth s force.

(** [prepare(func)]: the result of [func], or nothing when jobs were queued. *)
Definition prepare_body (func : option nat) : TM (option text) :=
  t ← get;
  let msg0 := exn_str (error t) in
  updateState preparing false ;;
  p ← try_exn
        (match func with
         | Some c => r ← _run updateState c; mret (r, (0, msg0))
         | None => mret (None, (0, msg0))
         end)
        (fun e => match e with
         | TaskAborted value abortedcode => mret (None, (abortedcode, value))
         | _ => throw e
         end);
  let '(r, (c, m)) := p in
  t ← get;
  if is_aborting t then
    _updateResult c (str "Task prepare failed: " ++ m) (Some []) ;;
    t ← get; throw (error t)
  else match jobs t with
  | _ :: _ =>
      updateState acquiring false ;;
      t ← get;
      if is_aborting t then throw (error t) else mret (Some (taskid t))
  | [] =>
      _updateResult 0 (str "OK") r ;;
      updateState finished false ;;
      mret r
  end.

(** [_incref] at the start of a method: when the task is being aborted, the abort
    is completed and the method returns. *)
Definition with_ref {A} (force : bool) (ret : A) (m : TM A) : TM A := fun t =>
  match _incref force t with
  | (t', Ok _) => try_finally m (_decref updateState force) t'
  | (t', Raise (Err (TaskAborted _ _))) => (_doAbort updateState force ;; mret ret) t'
  | (t', Raise f) => (t', Raise f)
  end.

Definition prepare (func : option nat) : TM (option text) := with_ref false None (prepare_body func).

Definition commit : TM unit := with_ref false () (updateState running false).

Definition recover : TM unit :=
  with_ref true ()
    (t ← get;
     if isDone (state t) then mret ()
     else if canAbort (state t) then stop updateState false
     else match state t with
          | waitrecover => mret ()
          | racquiring | recovering => updateState racquiring true
          | _ => stop updateState true
          end).

Definition _doRecover : TM unit :=
  t ← get;
  if negb (ref t =? 0) then throw TaskHasRefs
  else
    modify (fun t => set_ref t (ref t + 1)) ;;
    try_finally (updateState racquiring false) (modify (fun t => set_ref t (ref t - 1))).

Definition rollback : TM unit :=
  t ← get;
  if bool_decide (recoveryPolicy t = none) then mret ()
  else if negb (isDone (state t)) then throw TaskNotFinished
  else _doRecover.

Definition stop_task (force : bool) : TM unit := stop updateState force.
End task.

(** ** Status *)

Definition deprecated_getStatus (t : Task) : text * text * text * Z * text :=
  (taskid t, DEPRECATED_STATE (state t), DEPRECATED_RESULT (state t), code (result t), message (result t)).

Definition getStatus (t : Task) : Z * text * text * text * option text :=
  (code (result t), message (result t), taskid t, state_name (state t), result_value (result t)).
