(* ===== verification/TaskFacts.v ===== *)
(** * Tasks: rules of the combinators

    Weakest preconditions of throwing, catching and [finally] in the monad of the tasks. *)
From Stdlib Require Import ZArith Lia.
From stdpp Require Import base list strings.
From S2P Require Import Prelude Text Wp Task.

(** ** Rules of the combinators *)

Lemma wp_throw {A} e (Q : Task → res failure A → Prop) t : wp (throw e) Q t ↔ Q t (Raise (Err e)).
Proof. done. Qed.

Lemma wp_try_exn {A} (m : TM A) h Q t :
  wp (try_exn m h) Q t ↔
  wp m (fun t' r => match r with
                    | Ok a => Q t' (Ok a)
                    | Raise (Err e) => wp (h e) Q t'
                    | Raise OutOfFuel => Q t' (Raise OutOfFuel)
                    end) t.
Proof. unfold try_exn. rewrite wp_try_except. unfold wp. by destruct (m t) as [t' [a|[e|]]]. Qed.

Lemma wp_try_finally {A} (m : TM A) f Q t :
  wp (try_finally m f) Q t ↔
  wp m (fun t' r => wp f (fun t2 r2 =>
    match r, r2 with
    | Raise OutOfFuel, _ => Q t2 (Raise OutOfFuel)
    | _, Raise e => Q t2 (Raise e)
    | _, Ok _ => Q t2 r
    end) t') t.
Proof.
  unfold wp, try_finally. destruct (m t) as [t' r]. simpl. destruct (f t') as [t2 r2]. simpl.
  by destruct r as [|[]], r2.
Qed.
