(* ===== verification/TaskSettle.v ===== *)
(** * Tasks: every operation settles

    While a function of a task runs, the calls it receives leave the task's state
    and references alone; so [_updateState] is nested a bounded number of times,
    and the task ends in a final state or waits. *)
From Stdlib Require Import ZArith Lia.
From stdpp Require Import base list strings.
From S2P Require Import Prelude Text Wp Task TaskFacts.

(** ** While a function runs *)

Definition active (t : Task) : Prop :=
  1 <= ref t ∧ (state t = preparing ∨ state t = running ∨ state t = recovering).

Lemma active_states t :
  active t → isDone (state t) = false ∧ (state t ≠ recovering → isRecovering (state t) = false) ∧
  state t ≠ aborting ∧ state t ≠ raborting.
Proof. intros [_ [-> | [-> | ->]]]; split_and!; done. Qed.

(** A task with references that is neither done nor being aborted. *)
Definition busy (t : Task) : Prop :=
  1 <= ref t ∧ isDone (state t) = false ∧ (state t ≠ recovering → isRecovering (state t) = false) ∧
  state t ≠ aborting ∧ state t ≠ raborting.

Lemma active_busy t : active t → busy t.
Proof. intros H. pose proof (active_states t H). destruct H. done. Qed.

Definition quiet (e : event) : Prop := match e with AbortCallback _ | Saved => True | _ => False end.

(** The calls that a recovery function does not make. *)
Definition edits (c : call) : bool :=
  match c with CPushRecovery _ | CReplaceRecoveries _ | CClearRecoveries => true | _ => false end.

(** What the calls leave alone; [b] tells that none of them edits the
    recoveries. *)
Record frame (b : bool) (t t' : Task) : Prop := {
  fr_id : taskid t' = taskid t;
  fr_state : state t' = state t;
  fr_ref : ref t' = ref t;
  fr_done : _is_done t' = _is_done t;
  fr_result : result t' = result t;
  fr_abort : _aborting t = true → _aborting t' = true;
  fr_jobs : state t ≠ preparing → jobs t' = jobs t;
  fr_recs : b = true → recoveries t' = recoveries t;
  fr_trace : ∃ l, trace t' = trace t ++ l ∧ Forall quiet l;
}.

#[export] Instance frame_preorder b : PreOrder (frame b).
Proof.
  split.
  - intros t. split; try done. exists []. by rewrite app_nil_r.
  - intros t1 t2 t3 [] []. split; try congruence; [auto| | |].
    + intros H. rewrite fr_jobs1 by congruence. auto.
    + intros H. rewrite fr_recs1 by done. auto.
    + destruct fr_trace0 as (l & E1 & H1), fr_trace1 as (k & E2 & H2). exists (l ++ k).
      rewrite E2, E1, app_assoc. split; [done|]. by apply Forall_app.
Qed.

Lemma frame_weaken b b' t t' : (b' = true → b = true) → frame b t t' → frame b' t t'.
Proof. intros Hb []. split; auto. Qed.

Lemma frame_active b t t' : frame b t t' → active t → active t'.
Proof. intros [] [Hr Hs]. unfold active. rewrite fr_ref0, fr_state0. done. Qed.

Definition no_fuel_error {A} (r : res failure A) : Prop := match r with Raise OutOfFuel => False | _ => True end.

Definition framed (b : bool) {A} (m : TM A) : Prop := ∀ t, active t → wp m (fun t' r => frame b t t' ∧ no_fuel_error r) t.

Lemma framed_mret b {A} (a : A) : framed b (mret a).
Proof. intros t Ht. apply wp_mret. split; [reflexivity|done]. Qed.

Lemma framed_throw b {A} e : framed b (throw (A := A) e).
Proof. intros t Ht. apply wp_throw. split; [reflexivity|done]. Qed.

Lemma framed_get b : framed b get.
Proof. intros t Ht. apply wp_get. split; [reflexivity|done]. Qed.

Lemma framed_modify b f : (∀ t, active t → frame b t (f t)) → framed b (modify f).
Proof. intros Hf t Ht. apply wp_modify. split; [auto|done]. Qed.

Lemma framed_bind b {A B} (m : TM A) (f : A → TM B) : framed b m → (∀ a, framed b (f a)) → framed b (m ≫= f).
Proof.
  intros Hm Hf t Ht. apply wp_bind. eapply wp_mono; [by apply Hm|]. intros t1 [a|e] [H1 Hr]; simpl; [|done].
  eapply wp_mono; [apply Hf; by eapply frame_active|]. intros t2 r [H2 Hr2]. split; [by etrans|done].
Qed.

Lemma framed_try_exn b {A} (m : TM A) h : framed b m → (∀ e, framed b (h e)) → framed b (try_exn m h).
Proof.
  intros Hm Hh t Ht. apply wp_try_exn. eapply wp_mono; [by apply Hm|]. intros t1 [a|[e|]] [H1 Hr]; simpl; [done| |done].
  eapply wp_mono; [apply Hh; by eapply frame_active|]. intros t2 r [H2 Hr2]. split; [by etrans|done].
Qed.

Lemma framed_for_each b {A} (l : list A) f : Forall (fun x => framed b (f x)) l → framed b (for_each l f).
Proof. induction 1 as [|x l Hx Hl IH]; [apply framed_mret|]. simpl. apply framed_bind; [done|]. by intros []. Qed.

(** Assignments of other fields. *)
Ltac frame_field :=
  split; simpl; try done; try (intros; congruence);
  try (exists []; split; [by rewrite app_nil_r|constructor]);
  try (eexists; split; [reflexivity|by repeat constructor]).

Ltac framed :=
  repeat first
    [ progress intros
    | match goal with H : context [framed] |- _ => apply H end
    | apply framed_mret | apply framed_throw | apply framed_get
    | apply framed_bind | apply framed_try_exn | apply framed_for_each
    | apply framed_modify; intros; solve [frame_field]
    | match goal with
      | |- framed _ (if ?b then _ else _) => destruct b eqn:?
      | |- framed _ (match ?x with _ => _ end) => destruct x eqn:?
      | |- framed _ (let '(_, _) := ?x in _) => destruct x eqn:?
      end ].

Section settle.
  Context (script : nat → Task → list call * res exn (option text)).
  Context (queue_task save_task createdir : Task → option exn) (exn_str : exn → text).

Lemma framed_persist b : framed b (persist save_task).
Proof. unfold persist, _save, oracle. framed. Qed.

Section nested.
  Context (upd : State → bool → TM unit).

(** [_decref] of one of several references. *)
Lemma decref_more force (Q : Task → res failure unit → Prop) t :
  ref t ≠ 1 → Q (set_ref t (ref t - 1)) (Ok ()) → wp (_decref upd force) Q t.
Proof.
  intros Hr HQ. unfold _decref. wps. simpl.
  destruct (Z.eqb_spec (ref t - 1) 0); [lia|]. by apply wp_mret.
Qed.

(** The callbacks run and the flag is set. *)
Lemma wp_callbacks (Q : Task → res failure unit → Prop) t :
  (∀ l, Forall quiet l → Q (foldl log_event (set_aborting t true) l) (Ok ())) → wp _execute_abort_callbacks Q t.
Proof.
  intros HQ. unfold _execute_abort_callbacks. wps. cbn [_abort_callbacks set_aborting].
  assert (∀ l u, (∀ k, Forall quiet k → Q (foldl log_event u k) (Ok ())) →
    wp (for_each l (fun cb => modify (fun t => log_event t (AbortCallback cb)))) Q u) as H; [|by apply H].
  induction l as [|cb l IH]; intros u Hu; simpl.
  - apply wp_mret. by apply (Hu []).
  - wps. apply IH. intros k Hk. apply (Hu (AbortCallback cb :: k)). by constructor.
Qed.

Lemma log_events_fields t l :
  let t' := foldl log_event t l in
  taskid t' = taskid t ∧ state t' = state t ∧ ref t' = ref t ∧ _is_done t' = _is_done t ∧ _aborting t' = _aborting t ∧
  jobs t' = jobs t ∧ result t' = result t ∧ trace t' = trace t ++ l ∧ cleanPolicy t' = cleanPolicy t ∧ recoveries t' = recoveries t ∧
  recoveryPolicy t' = recoveryPolicy t ∧ resources t' = resources t ∧ _forceAbort t' = _forceAbort t.
Proof.
  revert t. induction l as [|e l IH]; intros t; simpl; [by rewrite app_nil_r|].
  destruct (IH (log_event t e)) as (-> & -> & -> & -> & -> & -> & -> & -> & -> & -> & -> & -> & ->). simpl.
  rewrite <- app_assoc. done.
Qed.

(** Stopping a task whose function runs sets its flag, unless it is recovering;
    the abort is left to the end of the function. *)
Lemma stop_active force t :
  busy t →
  wp (stop upd force) (fun t' r => frame true t t' ∧
    (r = Ok () ∨ is_aborting t = true ∧ ∃ v c, r = Raise (Err (TaskAborted v c))) ∧
    (state t ≠ recovering → is_aborting t' = true)) t.
Proof.
  intros (Hr & Hd & Hnr & Ha & Hra). unfold stop, _incref. wps. destruct (is_aborting t && (_forceAbort t || negb force)) eqn:Ei.
  { apply andb_true_iff in Ei as [Ei _]. apply wp_throw.
    split_and!; [reflexivity|right; split; [done|by do 2 eexists]|done]. }
  apply wp_modify. apply wp_try_finally. wps. cbn [state set_ref]. rewrite Hd.
  destruct (isRecovering (state t) && negb force && bool_decide (cleanPolicy (set_ref t (ref t + 1)) = auto)) eqn:Er.
  { apply wp_mret. apply decref_more; simpl; [lia|]. split_and!; [|by left|].
    - frame_field. lia.
    - intros Hne. rewrite Hnr in Er by done. done. }
  wps. apply wp_callbacks. intros l Hl. wps. set (u := foldl log_event _ l).
  destruct (log_events_fields (set_aborting (set_ref t (ref t + 1)) true) l)
    as (F1 & F2 & F3 & F4 & F5 & F6 & F6' & F7 & F8 & F9 & _).
  fold u in F1, F2, F3, F4, F5, F6, F6', F7, F8, F9. simpl in *.
  apply decref_more; simpl; [lia|]. split_and!; [|by left|].
  - split; simpl; try congruence; [lia|by exists l].
  - intros _. unfold is_aborting. simpl. by rewrite F5.
Qed.

Lemma framed_stop b force : framed b (stop upd force).
Proof.
  intros t Ht. eapply wp_mono; [by apply stop_active, active_busy|]. intros t' r (H & [-> | (_ & v & c & ->)] & _); (split; [|done]);
    by apply (frame_weaken true).
Qed.

Lemma framed_acquired b : framed b (resourceAcquired upd).
Proof.
  intros t Ht. destruct (active_states t Ht) as (Hd & Hnr & Ha & Hra). destruct Ht as [Hr Hs].
  unfold resourceAcquired, _incref. wps. destruct (is_aborting t && (_forceAbort t || negb false)) eqn:Ei.
  { apply wp_throw. split; [reflexivity|done]. }
  apply wp_modify. apply wp_try_finally. wps. cbn [state set_ref].
  destruct Hs as [-> | [-> | ->]]; [apply wp_mret|apply wp_throw|apply wp_throw]; apply decref_more; simpl; try lia;
    (split; [frame_field; lia|done]).
Qed.

Lemma framed_call b c : (b = true → edits c = false) → framed b (do_call save_task createdir upd c).
Proof.
  intros Hb. pose proof framed_persist. pose proof framed_stop. pose proof framed_acquired.
  destruct c; simpl in Hb |- *; try (destruct b; [by specialize (Hb eq_refl)|]); unfold pushRecovery, replaceRecoveries, clearRecoveries, setTag, setPersistence,
    abort_callback_enter, abort_callback_exit; try solve [framed].
  intros t Ht. unfold addJob. wps. destruct (mng t); simpl; [|by apply framed_throw].
  case_bool_decide as Hp; simpl; [|by apply framed_throw]. case_bool_decide; [by apply framed_throw|].
  case_bool_decide; [by apply framed_throw|]. wps. split; [|done]. split; simpl; try done.
  exists []. by rewrite app_nil_r.
Qed.

(** The functions that run while a task recovers do not edit its recoveries. *)
Definition recoveries_kept : Prop :=
  ∀ c t, state t = recovering → Forall (fun x => edits x = false) (fst (script c t)).

Lemma exec_frame b c t :
  active t → (b = true → Forall (fun x => edits x = false) (fst (script c t))) →
  wp (exec script save_task createdir upd c) (fun t' r => frame b t t' ∧ no_fuel_error r) t.
Proof.
  intros Ht Hb. unfold exec. wps. destruct (script c t) as [calls r]. simpl in Hb.
  apply framed_bind; [|intros; destruct r; [apply framed_mret|apply framed_throw]|done].
  apply framed_for_each. apply Forall_forall. intros x Hx.
  apply framed_try_exn; [apply framed_call|intros; apply framed_mret].
  intros ->. specialize (Hb eq_refl). rewrite Forall_forall in Hb. by apply Hb.
Qed.

(** A function that fails stops the task. *)
Lemma run_active c t :
  recoveries_kept → active t →
  wp (_run script save_task createdir exn_str upd c) (fun t' r => frame (bool_decide (state t = recovering)) t t' ∧
    match r with
    | Ok _ => True
    | Raise (Err (TaskAborted _ _)) => state t ≠ recovering → is_aborting t' = true
    | Raise _ => False
    end) t.
Proof.
  intros Hk Ht. set (b := bool_decide (state t = recovering)).
  unfold _run. apply wp_try_exn. eapply wp_mono; [apply (exec_frame b); [done|]|].
  { intros Hb%bool_decide_eq_true. by apply Hk. }
  intros t1 [v|[e|]] [H1 Hr]; simpl; [done| |done].
  set (p := match e with StorageException code _ => _ | _ => _ end). destruct p as [[m c0] e'].
  unfold _setError. wps. set (t2 := set_error t1 e').
  assert (frame b t t2) as H2 by (etrans; [exact H1|]; frame_field).
  eapply wp_mono; [apply (stop_active false t2), active_busy; by eapply frame_active|]. simpl.
  intros t3 r (H3 & Hres & Hab).
  assert (frame b t t3) by (etrans; [done|]; by apply (frame_weaken true)).
  assert (state t2 = state t) as Hs by apply H2.
  destruct Hres as [-> | (_ & v & c1 & ->)].
  - apply wp_throw. split; [done|]. simpl. rewrite <- Hs. done.
  - split; [done|]. rewrite <- Hs. done.
Qed.
End nested.
End settle.
