(* ===== verification/TaskSpec.v ===== *)
(** * Tasks: where transitions lead

    The specifications of [_updateState] for each target state, from the final
    states up to the abort of a task. *)
From Stdlib Require Import ZArith Lia.
From stdpp Require Import base sets list strings.
From S2P Require Import Prelude Text Wp Task TaskFacts TaskSettle.

Definition jobs_ran (t : Task) : list text :=
  omap (fun e => match e with RanJob n => Some n | _ => None end) (trace t).

Definition recs_ran (t : Task) : list text :=
  omap (fun e => match e with RanRecovery n => Some n | _ => None end) (trace t).

Lemma quiet_not_ran l :
  Forall quiet l → omap (fun e => match e with RanJob n => Some n | _ => None end) l = [] ∧
                   omap (fun e => match e with RanRecovery n => Some n | _ => None end) l = [].
Proof. induction 1 as [|e l He Hl [IH1 IH2]]; [done|]. destruct e; done. Qed.

Lemma frame_ran b t t' : frame b t t' → jobs_ran t' = jobs_ran t ∧ recs_ran t' = recs_ran t.
Proof.
  intros [_ _ _ _ _ _ _ _ (l & E & Hl)]. unfold jobs_ran, recs_ran. rewrite E, !omap_app.
  destruct (quiet_not_ran l Hl) as [-> ->]. by rewrite !app_nil_r.
Qed.

(** The task [t'] in state [s], reached from [t] by running the recoveries [k]. *)
Record settled (t : Task) (s : State) (k : list text) (t' : Task) : Prop := {
  st_id : taskid t' = taskid t;
  st_state : state t' = s;
  st_ref : ref t' = ref t;
  st_done : _is_done t' = _is_done t;
  st_abort : _aborting t' = false;
  st_result : result t' = result t;
  st_res : isDone s = true → resources t' = [];
  st_jobs : jobs_ran t' = jobs_ran t;
  st_recs : recs_ran t' = recs_ran t ++ k;
}.

(** A task that has just entered state [s]. *)
Record after (t : Task) (s : State) (t' : Task) : Prop := {
  af_settled : _is_done t' = _is_done t ∧ taskid t' = taskid t ∧ jobs_ran t' = jobs_ran t ∧ recs_ran t' = recs_ran t;
  af_state : state t' = s;
  af_ref : ref t' = ref t;
  af_abort : _aborting t' = false;
  af_result : result t' = result t;
  af_jobs : jobs t' = jobs t;
  af_recs : recoveries t' = recoveries t;
  af_rpol : recoveryPolicy t' = recoveryPolicy t;
}.

Lemma settled_after t s s' k t1 t' : after t s t1 → settled t1 s' k t' → settled t s' k t'.
Proof.
  intros [(Hd & Hi & Hj & Hr) _ Href _ Hre _ _ _] []. split; try congruence. done.
Qed.

Section spec.
  Context (script : nat → Task → list call * res exn (option text)).
  Context (queue_task save_task createdir : Task → option exn) (exn_str : exn → text).
  Context (Hkept : recoveries_kept script).

Abbreviation U := (_updateState script queue_task save_task createdir exn_str).

(** ** One transition *)

Lemma wp_autosave (Q : Task → res failure unit → Prop) t :
  (∀ t1, (∃ r j l, t1 = foldl log_event (set_counts t r j) l ∧ Forall quiet l) ∨ t1 = t → Q t1 (Ok ())) →
  wp (if bool_decide (persistPolicy t = auto) then try_exn (persist save_task) (fun _ => mret ()) else mret ()) Q t.
Proof.
  intros HQ. case_bool_decide; [|apply wp_mret; auto]. apply wp_try_exn. unfold persist. wps.
  case_bool_decide; [apply wp_mret; auto|]. destruct (has_store t); simpl; [|apply wp_throw, wp_mret; auto].
  case_bool_decide; [apply wp_throw, wp_mret; auto|]. unfold _save. wps.
  assert (Q (set_counts t (zlen (recoveries t)) (zlen (jobs t))) (Ok ())) as Herr
    by (apply HQ; left; by exists (zlen (recoveries t)), (zlen (jobs t)), []).
  destruct (save_task t) as [e|]; [destruct e|]; wps; try (apply wp_throw, wp_mret; auto).
  apply HQ. left. exists (zlen (recoveries t)), (zlen (jobs t)), [Saved]. split; [done|]. by repeat constructor.
Qed.

Lemma after_saved t s t1 :
  let t0 := set_state (set_aborting t false) s in
  (∃ r j l, t1 = foldl log_event (set_counts t0 r j) l ∧ Forall quiet l) ∨ t1 = t0 → after t s t1.
Proof.
  intros t0.
  assert (jobs_ran t0 = jobs_ran t ∧ recs_ran t0 = recs_ran t) as [Ej Er].
  { unfold jobs_ran, recs_ran, t0. simpl. rewrite !omap_app. simpl. by rewrite !app_nil_r. }
  intros [(r & j & l & -> & Hl)| ->]; [|by split].
  destruct (log_events_fields (set_counts t0 r j) l)
    as (F1 & F2 & F3 & F4 & F5 & F6 & F6' & F7 & F8 & F9 & F10 & _).
  split; try done. split_and!; try done; unfold jobs_ran, recs_ran in *; rewrite F7, omap_app; simpl;
    destruct (quiet_not_ran l Hl) as [Q1 Q2]; rewrite ?Q1, ?Q2, app_nil_r; done.
Qed.

Lemma update_step n s force t Q :
  force = true ∨ state t ∈ _moveto (redirect t s) →
  (∀ t1, after t (redirect t s) t1 → wp (enter script queue_task save_task createdir exn_str (U n) (redirect t s)) Q t1) →
  wp (U (S n) s force) Q t.
Proof.
  intros Hlegal HQ. cbn [_updateState]. wps. unfold moveto. wps. cbn [state set_aborting].
  assert (negb force && negb (mem (state t) (_moveto (redirect t s))) = false) as ->.
  { destruct Hlegal as [-> | H]; [done|]. unfold mem. rewrite bool_decide_true by done. by rewrite andb_false_r. }
  apply wp_modify. wps. apply wp_autosave. intros t1 Ht1. apply HQ, after_saved, Ht1.
Qed.

Lemma update_illegal n s t (Q : Task → res failure unit → Prop) :
  state t ∉ _moveto (redirect t s) → Q (set_aborting t false) (Raise (Err TaskStateTransitionError)) → wp (U (S n) s false) Q t.
Proof.
  intros Hill HQ. cbn [_updateState]. wps. unfold moveto. wps. cbn [state set_aborting].
  unfold mem. rewrite bool_decide_false by done. simpl. by apply wp_throw.
Qed.

Lemma redirect_idle t s : _aborting t = false → redirect t s = s.
Proof. unfold redirect. by intros ->. Qed.

(** ** Final states *)

Lemma wp_done (Q : Task → res failure unit → Prop) t :
  isDone (state t) = true →
  (∀ t', taskid t' = taskid t → state t' = state t → ref t' = ref t → _is_done t' = _is_done t →
     result t' = result t → _aborting t' = _aborting t → resources t' = [] → jobs_ran t' = jobs_ran t → recs_ran t' = recs_ran t → Q t' (Ok ())) →
  wp _done Q t.
Proof.
  intros Hd HQ. unfold _done, clean. wps. cbn [cleanPolicy set_resources].
  case_bool_decide; [|apply wp_mret; by apply HQ]. wps. destruct (has_store _); simpl; [|apply wp_mret; by apply HQ].
  rewrite Hd. simpl. apply wp_modify. apply HQ; try done; unfold jobs_ran, recs_ran; simpl; rewrite omap_app; simpl;
    by rewrite app_nil_r.
Qed.

Lemma update_done n s t :
  isDone s = true → redirect t s = s → state t ∈ _moveto s →
  wp (U (S n) s false) (fun t' r => r = Ok () ∧ settled t s [] t') t.
Proof.
  intros Hs Hr Hl. apply update_step; [right; by rewrite Hr|]. rewrite Hr. intros t1 H1.
  assert (enter script queue_task save_task createdir exn_str (U n) s = _done) as ->
    by (destruct s; (done || vm_compute in Hs; discriminate)).
  pose proof (af_state _ _ _ H1) as E. apply wp_done; [by rewrite E|]. intros t' F1 F2 F3 F4 F4' F5 F6 F7 F8.
  split; [done|]. destruct H1 as [(?&?&?&?)]. split; try congruence. rewrite app_nil_r. congruence.
Qed.

(** ** Failed recovery *)

Lemma canAbort_not_recovery s : canAbortRecovery s = true → canAbort s = false.
Proof. by destruct s; vm_compute. Qed.

Lemma update_raborting n t :
  canAbortRecovery (state t) = true →
  wp (U (S (S n)) raborting false)
    (fun t' r => r = Ok () ∧ settled t (if ref t =? 1 then failed else raborting) [] t') t.
Proof.
  intros Hc. pose proof Hc as Hc'. apply bool_decide_eq_true in Hc'.
  assert (redirect t raborting = raborting) as Hr.
  { unfold redirect. rewrite Hc. destruct (_aborting t); [|done].
    by rewrite canAbort_not_recovery. }
  apply update_step; [right; by rewrite Hr|]. rewrite Hr. intros t1 H1. cbn [enter]. wps.
  rewrite (af_ref _ _ _ H1). destruct (Z.eqb_spec (ref t) 1).
  - eapply wp_mono; [apply update_done; [done|by apply redirect_idle, (af_abort _ _ _ H1)|]|].
    { rewrite (af_state _ _ _ H1). set_solver. }
    intros t' r [-> H2]. split; [done|]. by eapply settled_after.
  - apply wp_mret. split; [done|]. destruct H1 as [(?&?&?&?)]. split; try done. by rewrite app_nil_r.
Qed.

(** ** Recovery *)

(** The recoveries [k] ran, from the last one. *)
Record recovered_by (t : Task) (k : list text) (t' : Task) : Prop := {
  rb_id : taskid t' = taskid t;
  rb_state : state t' = state t;
  rb_ref : ref t' = ref t;
  rb_done : _is_done t' = _is_done t;
  rb_result : result t' = result t;
  rb_jobs : jobs_ran t' = jobs_ran t;
  rb_recs : recs_ran t' = recs_ran t ++ k;
}.

Lemma run_recoveries_spec upd fuel t :
  state t = recovering → 1 <= ref t → (length (recoveries t) < fuel)%nat →
  wp (run_recoveries script save_task createdir exn_str upd fuel)
    (fun t' r => ∃ k, recovered_by t k t' ∧ k `prefix_of` (rec_name <$> reverse (recoveries t)) ∧
       match r with
       | Ok _ => k = rec_name <$> reverse (recoveries t)
       | Raise (Err (TaskAborted _ _)) => True
       | _ => False
       end) t.
Proof.
  revert t. induction fuel as [|fuel IH]; intros t Hs Hr Hf; [lia|]. cbn [run_recoveries]. wps.
  rewrite bool_decide_true by done. wps. unfold wp at 1, popRecovery.
  destruct (reverse (recoveries t)) as [|rc rest] eqn:Erev; cbn [fst snd].
  { apply wp_mret. exists []. split; [by split; rewrite ?app_nil_r|done]. }
  wps. set (t1 := log_event (set_recoveries t (reverse rest)) (RanRecovery (rec_name rc))).
  assert (active t1) as Ha by (split; [done|auto]).
  assert (recs_ran t1 = recs_ran t ++ [rec_name rc] ∧ jobs_ran t1 = jobs_ran t) as [R1 J1].
  { unfold recs_ran, jobs_ran, t1. simpl. rewrite !omap_app. simpl. by rewrite app_nil_r. }
  eapply wp_mono; [by apply run_active|]. change (state t1) with (state t). rewrite bool_decide_true by done.
  intros t2 r2 [Hfr Hres]. destruct (frame_ran _ _ _ Hfr) as [J2 R2].
  pose proof (fr_id _ _ _ Hfr) as I2. pose proof (fr_state _ _ _ Hfr) as S2. pose proof (fr_ref _ _ _ Hfr) as F2.
  pose proof (fr_done _ _ _ Hfr) as D2. pose proof (fr_result _ _ _ Hfr) as E2. pose proof (fr_recs _ _ _ Hfr eq_refl) as K2. simpl in I2, S2, F2, D2, E2, K2.
  assert (length (recoveries t) = S (length rest)) as Hlen
    by (rewrite <- (length_reverse (recoveries t)), Erev; done).
  destruct r2 as [v|[e|]]; [|destruct e; try done|done].
  - eapply wp_mono; [apply (IH t2); [congruence|lia|rewrite K2, length_reverse; lia]|].
    intros t3 r3 (k & [] & Hp & H3). rewrite K2, reverse_involutive in Hp, H3.
    exists (rec_name rc :: k). split; [|split].
    + split; try congruence. rewrite rb_recs0, R2, R1, <- app_assoc. done.
    + simpl. by apply prefix_cons.
    + simpl. destruct r3 as [|[[]|]]; try done. by rewrite H3.
  - exists [rec_name rc]. split; [|split; [|done]].
    + split; try congruence.
    + simpl. apply prefix_cons, prefix_nil.
Qed.

Lemma settled_rb t k t1 s t2 : recovered_by t k t1 → settled t1 s [] t2 → settled t s k t2.
Proof.
  intros [] []. split; try congruence; [done|]. rewrite st_recs0, rb_recs0. by rewrite app_nil_r.
Qed.

Lemma settled_settled t s k t1 s' t2 : settled t s k t1 → settled t1 s' [] t2 → settled t s' k t2.
Proof.
  intros [] []. split; try congruence; [done|]. rewrite st_recs1, st_recs0. by rewrite app_nil_r.
Qed.

Lemma recover_spec n t :
  state t = recovering → 1 <= ref t →
  wp (_recover script save_task createdir exn_str (U (S (S n))))
    (fun t' r => r = Ok () ∧ ∃ k s, settled t s k t' ∧ k `prefix_of` (rec_name <$> reverse (recoveries t)) ∧
       (s = recovered ∧ k = rec_name <$> reverse (recoveries t) ∨ s = failed)) t.
Proof.
  intros Hs Hr. unfold _recover. wps. rewrite bool_decide_true by done. cbn [negb]. wps. apply wp_try_exn.
  eapply wp_mono; [apply run_recoveries_spec; [done|done|lia]|]. intros t1 r1 (k & Hrb & Hp & Hres).
  assert (state t1 = recovering) as S1 by (rewrite (rb_state _ _ _ Hrb); done).
  destruct r1 as [u|[e|]]; [|destruct e; try done|done].
  - (* all recoveries succeeded *)
    cbn [_recoverDone]. apply wp_try_exn. wps. rewrite S1.
    eapply wp_mono; [apply update_done; [done| |]|].
    { unfold redirect. rewrite S1. by destruct (_aborting t1). }
    { rewrite S1. set_solver. }
    intros t2 r2 [-> H2]. split; [done|]. exists k, recovered. split; [by eapply settled_rb|]. split; [done|by left].
  - (* one failed *)
    apply wp_try_exn. wps. rewrite bool_decide_true by done.
    eapply wp_mono; [apply update_raborting; by rewrite S1|]. intros t2 r2 [-> H2].
    cbn [_recoverDone]. apply wp_try_exn. wps. pose proof (st_state _ _ _ _ H2) as S2.
    destruct (Z.eqb_spec (ref t1) 1); rewrite S2.
    + apply wp_mret. split; [done|]. exists k, failed. split; [by eapply settled_rb|]. split; [done|by right].
    + eapply wp_mono; [apply update_done; [done|apply redirect_idle, H2|rewrite S2; set_solver]|].
      intros t3 r3 [-> H3]. split; [done|]. exists k, failed. split; [|split; [done|by right]].
      eapply settled_rb; [done|]. by eapply settled_settled.
Qed.

(** The outcome of a recovery. *)
Definition recovery_outcome (t t' : Task) : Prop :=
  ∃ k s, settled t s k t' ∧ k `prefix_of` (rec_name <$> reverse (recoveries t)) ∧
    (s = recovered ∧ k = rec_name <$> reverse (recoveries t) ∨ s = failed).

Lemma recovery_outcome_after t s t1 t' : after t s t1 → recovery_outcome t1 t' → recovery_outcome t t'.
Proof.
  intros H1 (k & s' & H2 & Hp & Ho). rewrite (af_recs _ _ _ H1) in Hp, Ho.
  exists k, s'. split; [by eapply settled_after|done].
Qed.

Lemma update_racquiring n t force :
  _aborting t = false → 1 <= ref t → force = true ∨ state t ∈ _moveto racquiring →
  wp (U (S (S (S (S n)))) racquiring force) (fun t' r => r = Ok () ∧ recovery_outcome t t') t.
Proof.
  intros Ha Hr Hl. apply update_step; rewrite redirect_idle by done; [done|]. intros t1 H1. cbn [enter].
  apply update_step; rewrite redirect_idle by apply (af_abort _ _ _ H1);
    [right; rewrite (af_state _ _ _ H1); set_solver|]. intros t2 H2. cbn [enter].
  pose proof (af_ref _ _ _ H1). pose proof (af_ref _ _ _ H2).
  eapply wp_mono; [apply recover_spec; [apply (af_state _ _ _ H2)|lia]|].
  intros t3 r [-> H3]. split; [done|]. eapply recovery_outcome_after; [done|]. by eapply recovery_outcome_after.
Qed.

(** ** Abort *)

Definition abort_outcome (t t' : Task) : Prop :=
  match recoveryPolicy t with
  | auto => recovery_outcome t t'
  | none => settled t failed [] t'
  | manual => settled t waitrecover [] t'
  end.

Lemma update_aborting n t :
  canAbort (state t) = true → ref t = 1 →
  wp (U (S (S (S (S (S n))))) aborting false) (fun t' r => r = Ok () ∧ abort_outcome t t') t.
Proof.
  intros Hc Hr. pose proof Hc as Hc'. apply bool_decide_eq_true in Hc'.
  assert (redirect t aborting = aborting) as Hre by (unfold redirect; rewrite Hc; by destruct (_aborting t)).
  apply update_step; rewrite Hre; [by right|]. intros t1 H1. cbn [enter]. wps.
  rewrite (af_ref _ _ _ H1), Hr. change (1 <? 1) with false. cbn iota. rewrite (af_rpol _ _ _ H1). unfold abort_outcome.
  pose proof (af_abort _ _ _ H1) as Ha. pose proof (af_state _ _ _ H1) as Hs. pose proof (af_ref _ _ _ H1) as Hrf.
  destruct (recoveryPolicy t).
  - eapply wp_mono; [apply update_done; [done|by apply redirect_idle|rewrite Hs; set_solver]|].
    intros t' r [-> ?]. split; [done|]. by eapply settled_after.
  - apply update_step; rewrite redirect_idle by done; [right; rewrite Hs; set_solver|]. intros t2 H2. cbn [enter].
    apply wp_mret. split; [done|]. eapply settled_after; [done|]. destruct H2 as [(?&?&?&?)]. split; try done. by rewrite app_nil_r.
  - eapply wp_mono; [apply update_racquiring; [done|lia|right; rewrite Hs; set_solver]|].
    intros t' r [-> ?]. split; [done|]. by eapply recovery_outcome_after.
Qed.
End spec.
