(* ===== verification/TaskOps.v ===== *)
(** * Tasks: the operations

    Every operation of a quiescent task comes to an end and leaves it quiescent;
    what preparing, committing, stopping and recovering do; and the history of a
    task. *)
From Stdlib Require Import ZArith Lia.
From stdpp Require Import base sets list strings.
From S2P Require Import Prelude Text Wp Task TaskFacts TaskSettle TaskSpec.

(** Between operations no function of the task runs. *)
Record quiescent (t : Task) : Prop := {
  qu_ref : ref t = 0;
  qu_abort : _aborting t = false;
  qu_state : state t ∈ [init; queued; waitrecover; finished; recovered; failed];
  qu_res : isDone (state t) = true → resources t = [];
}.

(** The jobs [k] ran. *)
Record ran_by (t : Task) (k : list text) (t' : Task) : Prop := {
  jb_id : taskid t' = taskid t;
  jb_state : state t' = state t;
  jb_ref : ref t' = ref t;
  jb_done : _is_done t' = _is_done t;
  jb_jobs : jobs_ran t' = jobs_ran t ++ k;
  jb_recs : recs_ran t' = recs_ran t;
}.

Lemma frame_ran_by b t t' : frame b t t' → ran_by t [] t'.
Proof. intros H. destruct (frame_ran _ _ _ H), H. split; try done. by rewrite app_nil_r. Qed.

Lemma ran_by_trans t k t1 k' t2 : ran_by t k t1 → ran_by t1 k' t2 → ran_by t (k ++ k') t2.
Proof. intros [] []. split; try congruence. rewrite app_assoc. congruence. Qed.

Lemma settled_quiescent t s k t' : ref t = 0 → s ∈ [waitrecover; recovered; failed; finished] → settled t s k t' → quiescent t'.
Proof.
  intros Hr Hin []. split; [congruence|done|rewrite st_state; set_solver|by rewrite st_state].
Qed.

#[local] Opaque _updateState.

Section ops.
  Context (script : nat → Task → list call * res exn (option text)).
  Context (queue_task save_task createdir : Task → option exn) (exn_str : exn → text).
  Context (Hkept : recoveries_kept script).

Abbreviation U := (_updateState script queue_task save_task createdir exn_str).
Abbreviation update := (updateState script queue_task save_task createdir exn_str).

(** ** Jobs *)

Lemma wp_check_aborting (Q : Task → res failure unit → Prop) t :
  Q t (if is_aborting t then Raise (Err shutting_down) else Ok ()) → wp check_aborting Q t.
Proof. intros HQ. unfold check_aborting. wps. by destruct (is_aborting t). Qed.

Lemma run_jobs_spec upd i n js last t :
  state t = running → 1 <= ref t → is_aborting t = false →
  wp (run_jobs script save_task createdir exn_str upd i n js last)
    (fun t' r => ∃ k, ran_by t k t' ∧ k `prefix_of` (job_name <$> js) ∧
       match r with
       | Ok _ => k = job_name <$> js ∧ is_aborting t' = false
       | Raise (Err (TaskAborted _ _)) => is_aborting t' = true
       | _ => False
       end) t.
Proof.
  revert i last t. induction js as [|j js IH]; intros i last t Hs Hr Ha; cbn [run_jobs].
  { apply wp_mret. exists []. split; [|done]. split; rewrite ?app_nil_r; done. }
  wps. apply wp_check_aborting. rewrite Ha. unfold _updateResult. wps.
  set (t1 := log_event _ _). assert (active t1) as Hact by (split; [done|auto]).
  assert (ran_by t [job_name j] t1) as R1.
  { split; try done; unfold jobs_ran, recs_ran, t1; simpl; rewrite omap_app; simpl; by rewrite ?app_nil_r. }
  eapply wp_mono; [by apply run_active|]. intros t2 r2 [Hfr Hres].
  pose proof (ran_by_trans _ _ _ _ _ R1 (frame_ran_by _ _ _ Hfr)) as R2. simpl in R2.
  assert (state t1 ≠ recovering) as Hne by (change (state t1) with (state t); congruence).
  destruct r2 as [v|[e|]]; [|destruct e; try done|done].
  - wps. apply wp_check_aborting. destruct (is_aborting t2) eqn:Ea2.
    { exists [job_name j]. split; [done|]. split; [|done]. simpl. apply prefix_cons, prefix_nil. }
    wps. eapply wp_mono; [apply (IH (i + 1) (Some (default [] v)) t2);
      [rewrite (jb_state _ _ _ R2); done|rewrite (jb_ref _ _ _ R2); done|done]|].
    intros t3 r3 (k & R3 & Hp & H3). exists (job_name j :: k). split; [|split].
    + exact (ran_by_trans _ _ _ _ _ R2 R3).
    + simpl. by apply prefix_cons.
    + simpl. destruct r3 as [|[[]|]]; try done. destruct H3 as [-> ?]. done.
  - exists [job_name j]. split; [done|]. split; [simpl; apply prefix_cons, prefix_nil|]. auto.
Qed.

Lemma running_aborting t : state t = running → is_aborting t = _aborting t.
Proof. unfold is_aborting. intros ->. by rewrite !orb_false_r. Qed.

(** Running the jobs of a task: all, or up to one that fails or is stopped. *)
Lemma runJobs_spec n t :
  state t = running → 1 <= ref t → _aborting t = false →
  wp (_runJobs script save_task createdir exn_str (U (S n)))
    (fun t' r => r = Ok () ∧ ∃ k, k `prefix_of` (job_name <$> jobs t) ∧
       (jobs_ran t' = jobs_ran t ++ k ∧ recs_ran t' = recs_ran t ∧ ref t' = ref t ∧ taskid t' = taskid t ∧ _is_done t' = _is_done t) ∧
       (state t' = finished ∧ _aborting t' = false ∧ resources t' = [] ∧ k = job_name <$> jobs t ∨
        state t' = running ∧ _aborting t' = true)) t.
Proof.
  intros Hs Hr Ha. assert (is_aborting t = false) as Hia by by rewrite running_aborting.
  unfold _runJobs. apply wp_try_exn. wps. apply wp_check_aborting. rewrite Hia. wps.
  rewrite bool_decide_true by done. wps. eapply wp_mono; [by apply run_jobs_spec|].
  intros t1 r1 (k & R1 & Hp & H1). assert (state t1 = running) as S1 by (rewrite (jb_state _ _ _ R1); done).
  destruct r1 as [[i v]|[e|]]; [|destruct e; try done|done].
  - destruct H1 as [-> Ha1]. unfold _updateResult. wps. set (t2 := set_result t1 _).
    rewrite running_aborting in Ha1 by done.
    eapply wp_mono; [apply (update_done _ _ _ _ _ n finished t2);
      [done|by apply redirect_idle|change (state t2) with (state t1); rewrite S1; set_solver]|].
    intros t3 r3 [-> [] ]. split; [done|]. eexists. split; [exact Hp|]. destruct R1. split.
    + change (jobs_ran t2) with (jobs_ran t1) in *. change (recs_ran t2) with (recs_ran t1) in *.
      simpl in *. rewrite app_nil_r in *. split_and!; congruence.
    + left. split_and!; try done. by apply st_res.
  - wps. rewrite H1. unfold _updateResult. apply wp_modify. split; [done|]. exists k. split; [done|].
    destruct R1. split; [done|]. right. rewrite running_aborting in H1 by done. done.
Qed.

(** ** Releasing the last reference *)

Lemma settled_unref t s k t1 :
  settled (set_ref t (ref t + 1)) s k t1 → settled t s k (set_ref t1 (ref t1 - 1)).
Proof. intros []. simpl in *. split; simpl; try done. lia. Qed.

(** The abort of a task, at the end of the last function that runs on it. *)
Definition aborted (t t' : Task) (r : res failure unit) : Prop :=
  match recoveryPolicy t with
  | auto => r = Ok () ∧ recovery_outcome t t'
  | none => r = Ok () ∧ settled t failed [] t'
  | manual => r = Raise (Err TaskStateTransitionError) ∧ settled t waitrecover [] t'
  end.

Lemma doAbort_spec force t :
  ref t = 0 → canAbort (state t) = true → wp (_doAbort update force) (aborted t) t.
Proof.
  intros Hr Hc. unfold _doAbort. wps. rewrite Hr. change (0 =? 0) with true. cbn [negb]. wps.
  set (t0 := set_ref t (ref t + 1)). apply wp_try_finally. wps. change (state t0) with (state t). rewrite Hc. cbn [negb andb].
  unfold updateState, depth. apply wp_try_exn. eapply wp_mono; [apply (update_aborting _ _ _ _ _ Hkept 1 t0); [done|simpl; lia]|].
  intros t1 r1 [-> H1]. wps. unfold abort_outcome in H1. unfold aborted. change (recoveryPolicy t0) with (recoveryPolicy t) in H1.
  destruct (recoveryPolicy t).
  - cbn [state set_ref]. rewrite (st_state _ _ _ _ H1). change (isDone failed) with true. cbn [negb].
    apply wp_mret. split; [done|]. by apply settled_unref.
  - cbn [state set_ref]. rewrite (st_state _ _ _ _ H1). change (isDone waitrecover) with false. cbn [negb].
    set (t2 := set_ref t1 (ref t1 - 1)). pose proof (settled_unref _ _ _ _ H1) as H2. fold t2 in H2.
    apply update_illegal.
    + rewrite redirect_idle by apply H2. rewrite (st_state _ _ _ _ H2). set_solver.
    + split; [done|]. destruct H2. split; done.
  - destruct H1 as (k & s & H1 & Hp & Ho). cbn [state set_ref]. rewrite (st_state _ _ _ _ H1).
    assert (isDone s = true) as -> by (destruct Ho as [[-> _] | ->]; done). cbn [negb].
    apply wp_mret. split; [done|]. exists k, s. split; [by apply settled_unref|done].
Qed.

Definition mark_done (t : Task) : Task := if isDone (state t) then set_is_done t true else t.

Lemma quiescent_mark t : quiescent t → quiescent (mark_done t).
Proof. intros H. unfold mark_done. destruct (isDone (state t)); [|done]. destruct H. by split. Qed.

Lemma state_mark t : state (mark_done t) = state t.
Proof. unfold mark_done. by destruct (isDone (state t)). Qed.

(** [_decref] of the last reference of a task that is not being aborted. *)
Lemma decref_idle force t (Q : Task → res failure unit → Prop) :
  ref t = 1 → is_aborting t = false →
  Q (mark_done (set_ref t 0)) (Ok ()) →
  wp (_decref update force) Q t.
Proof.
  intros Hr Ha HQ. unfold _decref. wps. cbn [ref set_ref]. rewrite Hr. change (1 - 1) with 0. change (0 =? 0) with true.
  cbn iota. assert (is_aborting (set_ref t 0) = false) as -> by exact Ha. wps. unfold mark_done in HQ. cbn [state set_ref] in *.
  destruct (isDone (state t)); [by apply wp_modify|by apply wp_mret].
Qed.

Lemma decref_stop force t (P Q : Task → res failure unit → Prop) :
  ref t = 1 → is_aborting t = true → wp (_doAbort update force) P (set_ref t 0) →
  (∀ t' r, P t' r → Q (if is_ok r then mark_done t' else t') r) → wp (_decref update force) Q t.
Proof.
  intros Hr Ha Habort HQ. unfold _decref. wps. cbn [ref set_ref]. rewrite Hr. change (1 - 1) with 0. change (0 =? 0) with true.
  cbn iota. assert (is_aborting (set_ref t 0) = true) as -> by exact Ha.
  wps. eapply wp_mono; [exact Habort|]. intros t' r H. specialize (HQ t' r H).
  destruct r as [[]|f]; [|done]. wps. unfold mark_done in HQ. simpl in HQ.
  destruct (isDone (state t')); [by apply wp_modify|by apply wp_mret].
Qed.

Lemma flag_aborting t : _aborting t = true → is_aborting t = true.
Proof. unfold is_aborting. by intros ->. Qed.

Lemma decref_abort force t (Q : Task → res failure unit → Prop) :
  ref t = 1 → _aborting t = true → canAbort (state t) = true →
  (∀ t' r, aborted (set_ref t 0) t' r → Q (if is_ok r then mark_done t' else t') r) →
  wp (_decref update force) Q t.
Proof.
  intros Hr Ha Hc HQ. eapply decref_stop; [done|by apply flag_aborting| |exact HQ].
  by apply (doAbort_spec force (set_ref t 0)).
Qed.

(** What is left after an abort. *)
Lemma aborted_quiescent t t' r :
  ref t = 0 → aborted t t' r →
  quiescent (if is_ok r then mark_done t' else t') ∧ no_fuel_error r ∧ state t' ∈ [recovered; failed; waitrecover].
Proof.
  intros Hr H.
  assert (∃ k s, settled t s k t' ∧ s ∈ [recovered; failed; waitrecover] ∧ no_fuel_error r) as (k & s & Hs & Hin & Hnf).
  { unfold aborted in H. destruct (recoveryPolicy t).
    - destruct H as [-> H]. do 2 eexists. split; [exact H|]. split; [set_solver|done].
    - destruct H as [-> H]. do 2 eexists. split; [exact H|]. split; [set_solver|done].
    - destruct H as (-> & k & s & H & _ & Ho). exists k, s. split; [done|]. split; [|done].
      destruct Ho as [[-> _] | ->]; set_solver. }
  destruct Hs as [Hid Hst Href Hdn Hab Hres Hj Hk]. split; [|split; [done|by rewrite Hst]].
  assert (quiescent t') as Hq.
  { split; [lia|done| |by rewrite Hst]. rewrite Hst. set_solver. }
  destruct (is_ok r); [|done]. by apply quiescent_mark.
Qed.

(** ** Quiescent tasks *)

Lemma quiescent_idle t : quiescent t → is_aborting t = false.
Proof.
  intros [_ Ha Hs _]. unfold is_aborting. rewrite Ha. set_unfold in Hs.
  destruct_or! Hs; by rewrite Hs.
Qed.

Lemma quiescent_ref t : quiescent t → set_ref (set_ref t 1) 0 = t.
Proof. intros [Hr _ _ _]. destruct t. simpl in *. by subst. Qed.

Lemma wp_with_ref {A} force (ret : A) (m : TM A) Q t :
  quiescent t → wp (try_finally m (_decref update force)) Q (set_ref t 1) →
  wp (with_ref script queue_task save_task createdir exn_str force ret m) Q t.
Proof.
  intros Hq H. unfold wp, with_ref, _incref, get, mbind, M_bind. rewrite (quiescent_idle t Hq). cbn.
  rewrite (qu_ref t Hq). exact H.
Qed.

(** An operation that the state does not allow changes nothing. *)
Lemma update_refused s t (Q : Task → res failure unit → Prop) :
  quiescent t → state t ∉ _moveto s → Q (set_ref t 1) (Raise (Err TaskStateTransitionError)) →
  wp (update s false) Q (set_ref t 1).
Proof.
  intros Hq Hs HQ. unfold updateState, depth. apply update_illegal.
  { rewrite redirect_idle by apply Hq. done. }
  assert (set_aborting (set_ref t 1) false = set_ref t 1) as ->; [|done].
  destruct Hq as [_ Ha _ _], t. simpl in *. by subst.
Qed.

Lemma refused {A} (m : TM A) t :
  quiescent t →
  (∀ Q, Q (set_ref t 1) (Raise (Err TaskStateTransitionError)) → wp m Q (set_ref t 1)) →
  wp (try_finally m (_decref update false))
    (fun t' r => quiescent t' ∧ r = Raise (Err TaskStateTransitionError) ∧ state t' = state t) (set_ref t 1).
Proof.
  intros Hq Hm. apply wp_try_finally, Hm. apply decref_idle; [done|by apply quiescent_idle in Hq|].
  rewrite quiescent_ref by done. split; [by apply quiescent_mark|]. split; [done|]. apply state_mark.
Qed.

(** ** Stopping *)

(** A task that waits for its recovery is failed. *)
Lemma doAbort_waiting force t :
  ref t = 0 → state t = waitrecover →
  wp (_doAbort update force) (fun t' r => r = Ok () ∧ settled t failed [] t') t.
Proof.
  intros Hr Hs. unfold _doAbort. wps. rewrite Hr. change (0 =? 0) with true. cbn [negb]. wps.
  set (t0 := set_ref t (ref t + 1)). apply wp_try_finally. wps. change (state t0) with (state t). rewrite Hs.
  change (canAbort waitrecover) with false. change (canAbortRecovery waitrecover) with true.
  rewrite andb_false_r. cbn [negb andb]. apply wp_try_exn. unfold updateState, depth.
  eapply wp_mono; [apply (update_raborting _ _ _ _ _ Hkept 4%nat t0); change (state t0) with (state t); by rewrite Hs|].
  assert (ref t0 =? 1 = true) as -> by (simpl; lia).
  intros t1 r1 [-> H1]. wps. cbn [state set_ref]. rewrite (st_state _ _ _ _ H1). change (isDone failed) with true. cbn [negb].
  apply wp_mret. split; [done|]. by apply settled_unref.
Qed.

Lemma init_illegal u s : state u = init → s ∈ [raborting; failed] → state u ∉ _moveto (redirect u s).
Proof.
  intros Hu Hin. unfold redirect. rewrite Hu. change (canAbort init) with false. change (canAbortRecovery init) with false.
  cbn [andb]. destruct (_aborting u); set_unfold in Hin; destruct_or! Hin; subst; set_solver.
Qed.

Lemma finish_init u :
  state u = init → ref u = 1 →
  wp (modify (fun t => set_ref t (ref t - 1)) ;; t ← get; if negb (isDone (state t)) then update failed false else mret ())
    (fun t2 r2 => t2 = set_aborting (set_ref u 0) false ∧ r2 = Raise (Err TaskStateTransitionError)) u.
Proof.
  intros Hu Hr. wps. cbn [state set_ref ref]. rewrite Hu. change (isDone init) with false. cbn [negb].
  unfold updateState, depth. apply update_illegal; [apply init_illegal; [done|set_solver]|].
  by rewrite Hr.
Qed.

(** A task that was not prepared cannot be aborted. *)
Lemma doAbort_init force t :
  ref t = 0 → state t = init →
  wp (_doAbort update force)
    (fun t' r => r = Raise (Err TaskStateTransitionError) ∧ t' = set_aborting (set_ref t 0) false) t.
Proof.
  intros Hr Hs. unfold _doAbort. wps. rewrite Hr. change (0 =? 0) with true. cbn [negb]. wps.
  set (t0 := set_ref t (ref t + 1)). apply wp_try_finally. wps. change (state t0) with (state t). rewrite Hs.
  change (canAbort init) with false. change (canAbortRecovery init) with false. cbn [negb andb]. rewrite andb_true_r.
  destruct force.
  - apply wp_mret. eapply wp_mono; [apply finish_init; [done|simpl; lia]|]. intros t2 r2 [-> ->]. done.
  - apply wp_try_exn. unfold updateState at 1. unfold depth. apply update_illegal; [apply init_illegal; [done|set_solver]|].
    apply wp_throw. eapply wp_mono; [apply finish_init; [done|simpl; lia]|]. intros t2 r2 [-> ->]. done.
Qed.

(** A stopped task: its flag is set and its function, if any, has ended. *)
Record stopped (t t2 : Task) : Prop := {
  sp_ref : ref t2 = 1;
  sp_flag : _aborting t2 = true;
  sp_state : state t2 = state t;
  sp_recs : recoveries t2 = recoveries t;
  sp_policy : recoveryPolicy t2 = recoveryPolicy t;
  sp_res : resources t2 = resources t;
  sp_ran : recs_ran t2 = recs_ran t ∧ jobs_ran t2 = jobs_ran t;
}.

Lemma stop_step force t (Q : Task → res failure unit → Prop) :
  quiescent t → isDone (state t) = false →
  (∀ t2, stopped t t2 → wp (_decref update force) Q t2) →
  wp (stop_task script queue_task save_task createdir exn_str force) Q t.
Proof.
  intros Hq Hd HQ. unfold stop_task, stop, _incref. wps. rewrite (quiescent_idle t Hq). cbn [andb].
  apply wp_modify. apply wp_try_finally. wps. cbn [state set_ref]. rewrite Hd.
  assert (isRecovering (state t) = false) as ->.
  { pose proof (qu_state t Hq) as Hin. set_unfold in Hin. destruct_or! Hin; by rewrite Hin. }
  cbn [andb]. wps. apply wp_callbacks. intros l Hl. wps. set (t1 := set_forceAbort _ force).
  destruct (log_events_fields (set_aborting (set_ref t (ref t + 1)) true) l)
    as (F1 & F2 & F3 & F4 & F5 & F6 & F6' & F7 & F8 & F9 & F10 & F11 & _). simpl in *.
  eapply wp_mono; [apply (HQ t1)|intros t' [[]|]; done].
  split; try done; [simpl; by rewrite F3, (qu_ref t Hq)|]. unfold recs_ran, jobs_ran, t1. simpl. rewrite F7, !omap_app.
  destruct (quiet_not_ran l Hl) as [-> ->]. by rewrite !app_nil_r.
Qed.

Definition stop_result (t t' : Task) (r : res failure unit) : Prop :=
  match state t with
  | queued =>
      match recoveryPolicy t with
      | auto => r = Ok () ∧ ∃ k, recs_ran t' = recs_ran t ++ k ∧ k `prefix_of` (rec_name <$> reverse (recoveries t)) ∧
                  (state t' = recovered ∧ k = rec_name <$> reverse (recoveries t) ∨ state t' = failed)
      | none => r = Ok () ∧ state t' = failed ∧ recs_ran t' = recs_ran t
      | manual => r = Raise (Err TaskStateTransitionError) ∧ state t' = waitrecover ∧ recs_ran t' = recs_ran t
      end
  | waitrecover => r = Ok () ∧ state t' = failed ∧ recs_ran t' = recs_ran t
  | init => r = Raise (Err TaskStateTransitionError) ∧ state t' = init
  | s => r = Ok () ∧ state t' = s
  end.

Lemma recs_mark t : recs_ran (mark_done t) = recs_ran t.
Proof. unfold mark_done. by destruct (isDone (state t)). Qed.

Lemma jobs_mark t : jobs_ran (mark_done t) = jobs_ran t.
Proof. unfold mark_done. by destruct (isDone (state t)). Qed.

Lemma settled_stopped t t2 s k t' :
  stopped t t2 → settled (set_ref t2 0) s k t' → state t' = s ∧ recs_ran t' = recs_ran t ++ k ∧ jobs_ran t' = jobs_ran t.
Proof. intros [_ _ _ _ _ _ [<- <-]] []. done. Qed.

Lemma stop_spec force t :
  quiescent t →
  wp (stop_task script queue_task save_task createdir exn_str force)
    (fun t' r => quiescent t' ∧ no_fuel_error r ∧ stop_result t t' r ∧ jobs_ran t' = jobs_ran t) t.
Proof.
  intros Hq. destruct (isDone (state t)) eqn:Hd.
  { unfold stop_task, stop, _incref. wps. rewrite (quiescent_idle t Hq). cbn [andb].
    apply wp_modify. apply wp_try_finally. wps. cbn [state set_ref]. rewrite Hd. apply wp_mret.
    rewrite (qu_ref t Hq). change (0 + 1) with 1. apply decref_idle; [done|by apply quiescent_idle in Hq|].
    rewrite quiescent_ref by done. split; [by apply quiescent_mark|]. split; [done|]. split; [|apply jobs_mark].
    unfold stop_result. pose proof (state_mark t) as Hm. destruct (state t); done. }
  apply stop_step; [done..|]. intros t2 Hstop. pose proof Hstop as [Hr Hf Hst Hrc Hp Hrs [Hrr Hjr]]. unfold stop_result.
  pose proof (qu_state t Hq) as Hin. set_unfold in Hin. destruct_or! Hin; rewrite Hin in *; try done.
  - eapply decref_stop; [done|by apply flag_aborting|by apply doAbort_init|]. intros t' r [-> ->]. simpl.
    split_and!; try done. split; simpl; try done; rewrite Hst; [set_solver|done].
  - apply decref_abort; [done|done|by rewrite Hst|]. intros t' r H. pose proof (aborted_quiescent (set_ref t2 0) t' r eq_refl H) as (Hq' & Hnf & _).
    split; [done|]. split; [done|]. unfold aborted in H. cbn [recoveryPolicy set_ref] in H. rewrite Hp in H.
    destruct (recoveryPolicy t).
    + destruct H as [-> H]. simpl. rewrite state_mark, recs_mark, jobs_mark.
      destruct (settled_stopped _ _ _ _ _ Hstop H) as (-> & -> & ->). by rewrite app_nil_r.
    + destruct H as [-> H]. simpl. destruct (settled_stopped _ _ _ _ _ Hstop H) as (-> & -> & ->). by rewrite app_nil_r.
    + destruct H as (-> & k & s & H & Hpre & Ho). simpl. rewrite state_mark, recs_mark, jobs_mark.
      destruct (settled_stopped _ _ _ _ _ Hstop H) as (-> & -> & ->). cbn [recoveries set_ref] in Hpre, Ho. rewrite Hrc in Hpre, Ho.
      split; [|done]. split; [done|]. exists k. split; [done|]. split; [done|]. destruct Ho as [[-> ->] | ->]; auto.
  - eapply decref_stop; [done|by apply flag_aborting|by apply doAbort_waiting|]. intros t' r [-> H]. simpl.
    split; [apply quiescent_mark; eapply (settled_quiescent (set_ref t2 0)); [done| |exact H]; set_solver|].
    split; [done|]. rewrite state_mark, recs_mark, jobs_mark.
    destruct (settled_stopped _ _ _ _ _ Hstop H) as (-> & -> & ->). by rewrite app_nil_r.
Qed.
End ops.
