(* ===== verification/TaskMain.v ===== *)
(** * Tasks: preparing, committing and recovering

    The outcomes of the public operations, and the theorems about tasks. *)
From Stdlib Require Import ZArith Lia.
From stdpp Require Import base sets list strings.
From S2P Require Import Prelude Text Wp Task TaskFacts TaskSettle TaskSpec TaskOps.

#[local] Opaque _updateState.

Section main.
  Context (script : nat → Task → list call * res exn (option text)).
  Context (queue_task save_task createdir : Task → option exn) (exn_str : exn → text).
  Context (Hkept : recoveries_kept script).

Abbreviation U := (_updateState script queue_task save_task createdir exn_str).
Abbreviation update := (updateState script queue_task save_task createdir exn_str).
Abbreviation prepare' := (prepare script queue_task save_task createdir exn_str).
Abbreviation commit' := (commit script queue_task save_task createdir exn_str).
Abbreviation recover' := (recover script queue_task save_task createdir exn_str).
Abbreviation rollback' := (rollback script queue_task save_task createdir exn_str).

(** ** The end of an operation *)

(** The states of a task that was aborted. *)
Definition aborted_state (s : State) : Prop := s = recovered ∨ s = failed ∨ s = waitrecover.

(** The last reference is released by an operation that was stopped. *)
Lemma finish_aborted force t :
  ref t = 1 → _aborting t = true → canAbort (state t) = true →
  wp (_decref update force) (fun t' r2 =>
    quiescent t' ∧ aborted_state (state t') ∧ jobs_ran t' = jobs_ran t ∧ (state t' ≠ waitrecover → r2 = Ok ()) ∧
    (state t' = waitrecover → r2 = Raise (Err TaskStateTransitionError))) t.
Proof.
  intros Hr Ha Hc. apply decref_abort; [done..|]. intros t' r2 H.
  destruct (aborted_quiescent script queue_task save_task createdir Hkept (set_ref t 0) t' r2 eq_refl H) as (Hq & _ & Hin). split; [done|].
  assert (∃ s k, settled (set_ref t 0) s k t' ∧ (s = waitrecover ∧ r2 = Raise (Err TaskStateTransitionError) ∨
    (s = recovered ∨ s = failed) ∧ r2 = Ok ())) as (s & k & Hs & Ho).
  { unfold aborted in H. destruct (recoveryPolicy _).
    - destruct H as [-> H]. do 2 eexists. split; [exact H|]. auto.
    - destruct H as [-> H]. do 2 eexists. split; [exact H|]. auto.
    - destruct H as (-> & k & s & H & _ & Ho). exists s, k. split; [done|]. right. split; [|done].
      destruct Ho as [[-> _] | ->]; auto. }
  destruct Hs as [_ Hst _ _ _ _ _ Hj _]. unfold aborted_state.
  destruct Ho as [[-> ->] | [Hs ->]]; simpl; rewrite ?state_mark, ?jobs_mark, Hst.
  - split; [auto|]. done.
  - destruct Hs as [-> | ->]; (split; [auto|]; done).
Qed.

(** The last reference is released by an operation that ended normally. *)
Lemma finish_idle force t (Q : Task → res failure unit → Prop) :
  ref t = 1 → _aborting t = false → state t ∈ [queued; waitrecover; finished; recovered; failed] →
  (isDone (state t) = true → resources t = []) →
  (∀ t', quiescent t' → state t' = state t → result t' = result t → jobs_ran t' = jobs_ran t → recs_ran t' = recs_ran t →
     jobs t' = jobs t → taskid t' = taskid t → Q t' (Ok ())) →
  wp (_decref update force) Q t.
Proof.
  intros Hr Ha Hs Hres HQ. apply decref_idle; [done| |].
  { unfold is_aborting. rewrite Ha. set_unfold in Hs. destruct_or! Hs; by rewrite Hs. }
  assert (quiescent (set_ref t 0)) as Hq by (split; try done; simpl; set_solver).
  apply HQ; [by apply quiescent_mark|apply (state_mark (set_ref t 0))|..]; unfold mark_done; cbn [state set_ref];
    by destruct (isDone (state t)).
Qed.

(** ** Prepare *)

Lemma preparing_flag t : state t = preparing → is_aborting t = _aborting t.
Proof. unfold is_aborting. intros ->. by rewrite !orb_false_r. Qed.

Lemma queued_flag t : state t = queued → is_aborting t = _aborting t.
Proof. unfold is_aborting. intros ->. by rewrite !orb_false_r. Qed.

(** Moving to acquiring queues the task, or stops it when it cannot be queued. *)
Lemma update_acquiring n t :
  state t = preparing → ref t = 1 → _aborting t = false →
  wp (U (S (S n)) acquiring false)
    (fun t' r => state t' = queued ∧ ref t' = 1 ∧ jobs_ran t' = jobs_ran t ∧ jobs t' = jobs t ∧ taskid t' = taskid t ∧
       r = Ok ()) t.
Proof.
  intros Hs Hr Ha. apply update_step; rewrite redirect_idle by done; [right; rewrite Hs; set_solver|].
  intros t1 H1. cbn [enter]. apply update_step; rewrite redirect_idle by apply (af_abort _ _ _ H1);
    [right; rewrite (af_state _ _ _ H1); set_solver|]. intros t2 H2. cbn [enter].
  pose proof (af_state _ _ _ H2) as S2. pose proof (af_ref _ _ _ H1). pose proof (af_ref _ _ _ H2).
  pose proof (af_jobs _ _ _ H1). pose proof (af_jobs _ _ _ H2).
  destruct (af_settled _ _ _ H1) as (_ & ? & ? & _), (af_settled _ _ _ H2) as (_ & ? & ? & _).
  apply wp_try_exn. unfold oracle. wps. destruct (queue_task t2) as [e|].
  - apply wp_throw. unfold _setError. wps. set (t3 := set_error t2 e).
    assert (busy t3) as Hb by (split_and!; simpl; rewrite ?S2; try done; lia).
    eapply wp_mono; [by apply (stop_active _ false t3)|]. intros t4 r (Hf & Hres & _).
    destruct (frame_ran _ _ _ Hf) as [Hj _]. pose proof (fr_jobs _ _ _ Hf) as Hjb. destruct Hf.
    change (jobs_ran t3) with (jobs_ran t2) in Hj. simpl in *. rewrite Hjb by congruence.
    assert (r = Ok ()) as ->.
    { destruct Hres as [-> | (Hab & _)]; [done|]. exfalso.
      assert (is_aborting t3 = _aborting t2) as E by exact (queued_flag t3 S2). rewrite E, (af_abort _ _ _ H2) in Hab. done. }
    split_and!; congruence.
  - apply wp_mret. split_and!; congruence.
Qed.

Definition prepare_result (t t' : Task) (r : res failure (option text)) : Prop :=
  (∃ v, state t' = finished ∧ r = Ok v ∧ result t' = mkResult 0 (str "OK") v) ∨
  (state t' = queued ∧ r = Ok (Some (taskid t)) ∧ jobs t' ≠ []) ∨
  (aborted_state (state t') ∧ ∃ e, r = Raise (Err e)).

(** The end of [prepare] when the task was stopped. *)
Lemma prepare_stopped t0 t (r : res failure (option text)) :
  ref t = 1 → _aborting t = true → canAbort (state t) = true → (∃ e, r = Raise (Err e)) → jobs_ran t = jobs_ran t0 →
  wp (_decref update false) (fun t' r2 =>
    let r' := match r2 with Ok _ => r | Raise e => Raise e end in
    quiescent t' ∧ prepare_result t0 t' r' ∧ jobs_ran t' = jobs_ran t0) t.
Proof.
  intros Hr Ha Hc [e ->] Hj. eapply wp_mono; [by apply finish_aborted|].
  intros t' r2 (Hq & Hs & Hj' & Hok & Herr). simpl. split; [done|]. split; [|congruence]. right. right. split; [done|].
  destruct Hs as [Hs | [Hs | Hs]]; [rewrite Hok by congruence|rewrite Hok by congruence|rewrite Herr by done]; eauto.
Qed.

Lemma prepare_tail r0 c0 m0 t0 t :
  state t = preparing → ref t = 1 → jobs_ran t = jobs_ran t0 → taskid t = taskid t0 →
  wp (if is_aborting t then
        _updateResult c0 (str "Task prepare failed: " ++ m0) (Some []) ;; t ← get; throw (error t)
      else match jobs t with
        | _ :: _ => update acquiring false ;; t ← get; if is_aborting t then throw (error t) else mret (Some (taskid t))
        | [] => _updateResult 0 (str "OK") r0 ;; update finished false ;; mret r0
        end)
    (fun t' r => wp (_decref update false) (fun t2 r2 =>
       match r, r2 with
       | Raise OutOfFuel, _ => quiescent t2 ∧ prepare_result t0 t2 (Raise OutOfFuel) ∧ jobs_ran t2 = jobs_ran t0
       | _, Raise e => quiescent t2 ∧ prepare_result t0 t2 (Raise e) ∧ jobs_ran t2 = jobs_ran t0
       | _, Ok _ => quiescent t2 ∧ prepare_result t0 t2 r ∧ jobs_ran t2 = jobs_ran t0
       end) t') t.
Proof.
  intros Hs Hr Hj Hid. destruct (is_aborting t) eqn:Ea.
  { unfold _updateResult. wps. apply wp_throw. rewrite preparing_flag in Ea by done.
    eapply wp_mono; [apply (prepare_stopped t0 _ (Raise (Err (error t)))); simpl; try done; [by rewrite Hs|eauto]|].
    intros t' [] H; exact H. }
  rewrite preparing_flag in Ea by done. destruct (jobs t) as [|j js] eqn:Ejobs.
  - unfold _updateResult. wps. set (t1 := set_result t _). unfold updateState, depth.
    eapply wp_mono; [apply (update_done _ _ _ _ _ 5 finished t1); [done|by apply redirect_idle|]|].
    { change (state t1) with (state t). rewrite Hs. set_solver. }
    intros t2 r2 [-> H2]. wps. destruct H2 as [Hi2 S2 R2 _ A2 E2 Z2 J2 _].
    apply finish_idle; [by rewrite R2|done|rewrite S2; set_solver|intros _; by apply Z2|].
    intros t3 Hq S3 E3 J3 _ _ _. split; [done|]. split; [|rewrite J3, J2; exact Hj]. left. exists r0.
    split_and!; [congruence|done|by rewrite E3, E2].
  - wps. unfold updateState, depth. eapply wp_mono; [by apply (update_acquiring 4 t)|].
    intros t1 r1 (S1 & R1 & J1 & Jb1 & I1 & ->). wps. rewrite queued_flag by done. destruct (_aborting t1) eqn:A1.
    + apply wp_throw. eapply wp_mono; [apply (prepare_stopped t0 t1 (Raise (Err (error t1)))); try done;
        [by rewrite S1|eauto|congruence]|]. intros t' [] H; exact H.
    + apply wp_mret. apply finish_idle; [done|done|rewrite S1; set_solver|rewrite S1; done|].
      intros t3 Hq S3 _ J3 _ Jb3 I3. split; [done|]. split; [|congruence]. right. left.
      split_and!; [congruence|by rewrite I1, Hid|rewrite Jb3, Jb1, Ejobs; done].
Qed.

Lemma prepare_spec func t :
  quiescent t → state t = init →
  wp (prepare' func) (fun t' r => quiescent t' ∧ prepare_result t t' r ∧ jobs_ran t' = jobs_ran t) t.
Proof.
  intros Hq Hs. unfold prepare. apply wp_with_ref; [done|]. apply wp_try_finally. unfold prepare_body. wps.
  unfold updateState at 2, depth. apply update_step; rewrite redirect_idle by apply Hq;
    [right; change (state (set_ref t 1)) with (state t); rewrite Hs; set_solver|].
  intros t1 H1. cbn [enter]. wps. pose proof (af_state _ _ _ H1) as S1. pose proof (af_ref _ _ _ H1) as R1. simpl in R1.
  destruct (af_settled _ _ _ H1) as (_ & I1 & J1 & _). simpl in I1. change (jobs_ran (set_ref t 1)) with (jobs_ran t) in J1.
  apply wp_try_exn. destruct func as [c|]; [|wps; by apply prepare_tail].
  wps. assert (active t1) as Ha by (split; [lia|auto]).
  eapply wp_mono; [by apply run_active|]. intros t2 r2 [Hf Hres].
  destruct (frame_ran _ _ _ Hf) as [J2 _]. destruct Hf.
  assert (state t2 = preparing) by congruence. assert (ref t2 = 1) by congruence.
  assert (jobs_ran t2 = jobs_ran t) by congruence. assert (taskid t2 = taskid t) by congruence.
  destruct r2 as [v|[e|]]; [|destruct e; try done|done]; wps; by apply prepare_tail.
Qed.

(** ** Commit *)

Definition commit_result (t t' : Task) (r : res failure unit) : Prop :=
  ∃ k, k `prefix_of` (job_name <$> jobs t) ∧ jobs_ran t' = jobs_ran t ++ k ∧
    (state t' = finished ∧ r = Ok () ∧ k = job_name <$> jobs t ∨
     aborted_state (state t') ∧ (state t' ≠ waitrecover → r = Ok ()) ∧
     (state t' = waitrecover → r = Raise (Err TaskStateTransitionError))).

Lemma commit_spec t :
  quiescent t → state t = queued →
  wp commit' (fun t' r => quiescent t' ∧ no_fuel_error r ∧ commit_result t t' r) t.
Proof.
  intros Hq Hs. unfold commit. apply wp_with_ref; [done|]. apply wp_try_finally.
  unfold updateState at 1, depth. apply update_step; rewrite redirect_idle by apply Hq;
    [right; change (state (set_ref t 1)) with (state t); rewrite Hs; set_solver|].
  intros t1 H1. cbn [enter]. pose proof (af_ref _ _ _ H1) as R1. simpl in R1.
  destruct (af_settled _ _ _ H1) as (_ & _ & J1 & _). pose proof (af_jobs _ _ _ H1) as Jb1. simpl in Jb1.
  change (jobs_ran (set_ref t 1)) with (jobs_ran t) in J1.
  eapply wp_mono; [apply (runJobs_spec _ _ _ _ _ Hkept 4 t1);
    [apply (af_state _ _ _ H1)|lia|apply (af_abort _ _ _ H1)]|].
  intros t2 r2 (-> & k & Hp & (J2 & _ & R2 & _) & Ho). rewrite Jb1 in Hp, Ho. rewrite J1 in J2.
  destruct Ho as [(S2 & A2 & Z2 & Hk) | (S2 & A2)].
  - apply finish_idle; [congruence|done|rewrite S2; set_solver|done|]. intros t3 Hq3 S3 _ J3 _ _ _.
    split; [done|]. split; [done|]. exists k. split; [done|]. split; [congruence|]. left. split; [congruence|done].
  - eapply wp_mono; [apply (finish_aborted false t2); [congruence|done|by rewrite S2]|].
    intros t3 r3 (Hq3 & Hst & J3 & Hok & Herr).
    assert (∀ r, r = r3 → quiescent t3 ∧ no_fuel_error r ∧ commit_result t t3 r) as Hfin.
    { intros r ->. split; [done|]. split.
      - destruct Hst as [Hst | [Hst | Hst]]; [rewrite Hok by congruence|rewrite Hok by congruence|rewrite Herr by done]; done.
      - exists k. split; [done|]. split; [congruence|]. right. done. }
    destruct r3 as [[]|e]; by apply Hfin.
Qed.

(** ** Rollback of a finished task *)

Lemma rollback_spec t :
  quiescent t →
  wp rollback' (fun t' r => quiescent t' ∧ no_fuel_error r ∧
    (state t = finished → recoveryPolicy t ≠ none → r = Ok () ∧ recovery_outcome t t')) t.
Proof.
  intros Hq. unfold rollback. wps. case_bool_decide as Hp; [apply wp_mret; done|].
  destruct (isDone (state t)) eqn:Hd; simpl; [|apply wp_throw; split_and!; [done..|]; intros E; by rewrite E in Hd].
  unfold _doRecover. wps. rewrite (qu_ref t Hq). change (0 =? 0) with true. cbn [negb]. wps.
  set (t0 := set_ref t (ref t + 1)). apply wp_try_finally. unfold updateState, depth.
  destruct (decide (state t = finished)) as [Hf|Hnf].
  - eapply wp_mono; [apply (update_racquiring _ _ _ _ _ Hkept 2 t0 false); [apply Hq|simpl; pose proof (qu_ref t Hq); lia|]|].
    { right. change (state t0) with (state t). rewrite Hf. set_solver. }
    intros t1 r1 (-> & k & s & H1 & Hpre & Ho). wps. apply settled_unref in H1.
    split; [|split; [done|intros; split; [done|exists k, s; done]]].
    eapply (settled_quiescent t); [apply Hq| |exact H1]. destruct Ho as [[-> _] | ->]; set_solver.
  - apply update_illegal.
    { rewrite redirect_idle by apply Hq. change (state t0) with (state t).
      pose proof (qu_state t Hq) as Hin. set_unfold in Hin. destruct_or! Hin; rewrite Hin in *; set_solver. }
    wps. split; [|by split]. destruct Hq as [H1 H2 H3 H4]. split; simpl; try done. lia.
Qed.

(** ** Recovery after a restart *)

(** A task as it was loaded from its store. *)
Record loaded (t : Task) : Prop := {
  ld_ref : ref t = 0;
  ld_abort : _aborting t = false;
  ld_force : _forceAbort t = false;
  ld_res : resources t = [];
}.

(** A task [recover] can be called on: loaded, or between operations. *)
Record restartable (t : Task) : Prop := {
  rs_ref : ref t = 0;
  rs_abort : _aborting t = false;
  rs_force : is_aborting t = true → _forceAbort t = false;
  rs_res : isDone (state t) = true → resources t = [];
}.

Lemma loaded_restartable t : loaded t → restartable t.
Proof. intros []. by split. Qed.

Lemma quiescent_restartable t : quiescent t → restartable t.
Proof.
  intros [H1 H2 H3 H4]. split; try done. unfold is_aborting. rewrite H2. set_unfold in H3. destruct_or! H3; by rewrite H3.
Qed.

(** Stopping with a reference held: the flag is set, nothing else happens. *)
Lemma stop_held upd force t :
  ref t = 1 → isDone (state t) = false → isRecovering (state t) = false →
  is_aborting t && (_forceAbort t || negb force) = false →
  wp (stop upd force) (fun t' r => r = Ok () ∧ ref t' = 1 ∧ _aborting t' = true ∧ state t' = state t ∧
    recoveries t' = recoveries t ∧ jobs_ran t' = jobs_ran t) t.
Proof.
  intros Hr Hd Hre Hi. unfold stop, _incref. wps. rewrite Hi. apply wp_modify. apply wp_try_finally. wps.
  cbn [state set_ref]. rewrite Hd, Hre. cbn [andb]. wps. apply wp_callbacks. intros l Hl. wps.
  destruct (log_events_fields (set_aborting (set_ref t (ref t + 1)) true) l)
    as (F1 & F2 & F3 & F4 & F5 & F6 & F6' & F7 & F8 & F9 & _). simpl in *.
  apply decref_more; simpl; [lia|]. split_and!; try done; [lia|].
  unfold jobs_ran. simpl. rewrite F7, omap_app. destruct (quiet_not_ran l Hl) as [-> _]. by rewrite app_nil_r.
Qed.

(** A state from which a task can neither be aborted nor its recovery be. *)
Lemma doAbort_stuck t :
  ref t = 0 → isDone (state t) = false → canAbort (state t) = false → canAbortRecovery (state t) = false →
  wp (_doAbort update true) (fun t' r =>
    if mem (state t) (_moveto failed) then r = Ok () ∧ settled t failed [] t'
    else r = Raise (Err TaskStateTransitionError) ∧ t' = set_aborting (set_ref t 0) false) t.
Proof.
  intros Hr Hd Hc Hcr. unfold _doAbort. wps. rewrite Hr. change (0 =? 0) with true. cbn [negb]. wps.
  set (t0 := set_ref t (ref t + 1)). apply wp_try_finally. wps. change (state t0) with (state t). rewrite Hc, Hcr.
  cbn [negb andb]. apply wp_mret. wps. cbn [state set_ref]. change (state t0) with (state t). rewrite Hd. cbn [negb].
  set (t1 := set_ref t0 (ref t0 - 1)). assert (redirect t1 failed = failed) as Hre.
  { unfold redirect. change (state t1) with (state t). rewrite Hc, Hcr. by destruct (_aborting t1). }
  unfold updateState, depth, mem. case_bool_decide as Hl.
  - eapply wp_mono; [by apply update_done|]. intros t2 r [-> H]. split; [done|]. destruct H.
    split; try done. by rewrite st_ref; simpl; lia.
  - apply update_illegal; [by rewrite Hre|]. split; [done|]. unfold t1, t0. simpl.
    by replace (ref t + 1 - 1) with 0 by lia.
Qed.

Definition recover_result (t t' : Task) (r : res failure unit) : Prop :=
  match state t with
  | finished | recovered | failed | waitrecover => r = Ok () ∧ state t' = state t
  | preparing | blocked | acquiring | queued | running =>
      aborted_state (state t') ∧ (state t' ≠ waitrecover → r = Ok ())
  | racquiring | recovering =>
      r = Ok () ∧ ∃ k, recs_ran t' = recs_ran t ++ k ∧ k `prefix_of` (rec_name <$> reverse (recoveries t)) ∧
        (state t' = recovered ∧ k = rec_name <$> reverse (recoveries t) ∨ state t' = failed)
  | aborting | raborting => r = Ok () ∧ state t' = failed
  | init | unknown => r = Raise (Err TaskStateTransitionError) ∧ state t' = state t
  end.

Lemma wp_recover t (Q : Task → res failure unit → Prop) :
  restartable t →
  wp (t ← get;
      if isDone (state t) then mret ()
      else if canAbort (state t) then stop update false
      else match state t with
           | waitrecover => mret ()
           | racquiring | recovering => update racquiring true
           | _ => stop update true
           end)
    (fun t' r => r = Ok () ∧ wp (_decref update true) Q t') (set_ref t 1) →
  wp recover' Q t.
Proof.
  intros [Hr Ha Hf Hz] H. unfold wp at 1, recover, with_ref.
  assert (_incref true t = (set_ref t 1, Ok ())) as ->.
  { unfold _incref, get, modify, mbind, M_bind. destruct (is_aborting t) eqn:Eab; [rewrite Hf by done|]; cbn; by rewrite Hr. }
  match goal with |- Q (fst (?m ?u)) (snd _) => change (wp m Q u) end.
  apply wp_try_finally. eapply wp_mono; [exact H|]. intros t' r [-> Hw]. eapply wp_mono; [exact Hw|].
  by intros t2 [[]|].
Qed.

(** The result of [recover], as a predicate on the final task. *)
Definition recovers (t t' : Task) (r : res failure unit) : Prop :=
  no_fuel_error r ∧ recover_result t t' r ∧ ref t' = 0 ∧ (isDone (state t') = true → resources t' = []) ∧ _aborting t' = false.

Lemma recover_idle t :
  restartable t → state t ∈ [finished; recovered; failed; waitrecover] → wp recover' (recovers t) t.
Proof.
  intros Hl Hs. apply wp_recover; [done|]. wps. cbn [state set_ref].
  assert (wp (_decref update true) (recovers t) (set_ref t 1)) as Hw.
  { destruct Hl. apply finish_idle; [done|done|set_solver|done|]. intros t' [] S' _ _ _ _ _. simpl in S'.
    split; [done|]. split; [|done]. unfold recover_result. set_unfold in Hs. destruct_or! Hs; rewrite Hs in *; done. }
  set_unfold in Hs. destruct_or! Hs; rewrite Hs; by apply wp_mret.
Qed.

Lemma recover_abortable t : restartable t → canAbort (state t) = true → wp recover' (recovers t) t.
Proof.
  intros Hl Hc. apply wp_recover; [done|]. wps. cbn [state set_ref]. rewrite Hc.
  assert (isDone (state t) = false ∧ isRecovering (state t) = false ∧ state t ≠ aborting ∧ state t ≠ raborting) as (Hd & Hre & Hna & Hnr).
  { revert Hc. by destruct (state t). }
  rewrite Hd. eapply wp_mono; [apply (stop_held _ false (set_ref t 1)); [done|done|done|]|].
  { unfold is_aborting. simpl. rewrite (rs_abort t Hl), !bool_decide_false by done. done. }
  intros t2 r (-> & R2 & A2 & S2 & _). split; [done|]. simpl in S2.
  eapply wp_mono; [apply (finish_aborted true t2); [done|done|by rewrite S2]|].
  intros t3 r3 (Hq & Hst & _ & Hok & Herr). split.
  - destruct Hst as [Hst | [Hst | Hst]]; [rewrite Hok by congruence|rewrite Hok by congruence|rewrite Herr by done]; done.
  - split; [|split_and!; apply Hq]. unfold recover_result. revert Hc. destruct (state t); done.
Qed.

Lemma recover_recovering t :
  restartable t → state t = racquiring ∨ state t = recovering → wp recover' (recovers t) t.
Proof.
  intros Hl Hs. apply wp_recover; [done|]. wps. cbn [state set_ref].
  assert (wp (update racquiring true) (fun t' r => r = Ok () ∧ wp (_decref update true) (recovers t) t') (set_ref t 1)) as Hw.
  { unfold updateState at 1, depth.
    eapply wp_mono; [apply (update_racquiring _ _ _ _ _ Hkept 2 (set_ref t 1) true); [apply Hl|done|by left]|].
    intros t2 r (-> & k & s & H2 & Hp & Ho). split; [done|]. destruct H2 as [_ S2 R2 _ A2 _ Z2 _ K2].
    apply finish_idle; [done|done|rewrite S2; destruct Ho as [[-> _] | ->]; set_solver|by rewrite S2|].
    intros t3 Hq S3 _ _ K3 _ _. split; [done|]. split; [|split_and!; apply Hq].
    change (recs_ran (set_ref t 1)) with (recs_ran t) in K2. cbn [recoveries set_ref] in Hp, Ho.
    assert (∃ k, recs_ran t3 = recs_ran t ++ k ∧ k `prefix_of` (rec_name <$> reverse (recoveries t)) ∧
      (state t3 = recovered ∧ k = rec_name <$> reverse (recoveries t) ∨ state t3 = failed)).
    { exists k. split; [congruence|]. split; [done|]. rewrite S3, S2. destruct Ho as [[-> ->] | ->]; auto. }
    unfold recover_result. by destruct Hs as [-> | ->]. }
  by destruct Hs as [-> | ->].
Qed.

Lemma recover_stuck t :
  restartable t → state t ∈ [aborting; raborting; init; unknown] → wp recover' (recovers t) t.
Proof.
  intros Hl Hs. apply wp_recover; [done|]. wps. cbn [state set_ref].
  assert (isDone (state t) = false ∧ isRecovering (state t) = false ∧ canAbort (state t) = false ∧ canAbortRecovery (state t) = false)
    as (Hd & Hre & Hc & Hcr).
  { set_unfold in Hs. destruct_or! Hs; by rewrite Hs. }
  assert (wp (stop update true) (fun t' r => r = Ok () ∧ wp (_decref update true) (recovers t) t') (set_ref t 1)) as Hw.
  { eapply wp_mono; [apply (stop_held _ true (set_ref t 1)); [done|done|done|]|].
    { cbn [_forceAbort set_ref]. change (is_aborting (set_ref t 1)) with (is_aborting t).
      destruct (is_aborting t) eqn:Eab; [by rewrite (rs_force t Hl Eab)|done]. }
    intros t2 r (-> & R2 & A2 & S2 & _). split; [done|]. simpl in S2.
    eapply decref_stop; [done|by apply flag_aborting|apply doAbort_stuck; simpl; by rewrite ?S2|].
    intros t3 r3 H3. cbn [state set_ref] in H3. rewrite S2 in H3. unfold recovers, recover_result.
    set_unfold in Hs. destruct_or! Hs; rewrite Hs in *; simpl in H3.
    - destruct H3 as [-> []]. simpl. rewrite state_mark, st_state. split_and!; try done; unfold mark_done; rewrite st_state; auto.
    - destruct H3 as [-> []]. simpl. rewrite state_mark, st_state. split_and!; try done; unfold mark_done; rewrite st_state; auto.
    - destruct H3 as [-> ->]. simpl. rewrite S2. done.
    - destruct H3 as [-> ->]. simpl. rewrite S2. done. }
  rewrite Hd, Hc. set_unfold in Hs. destruct_or! Hs; by rewrite Hs.
Qed.

Lemma recover_restartable_spec t : restartable t → wp recover' (recovers t) t.
Proof.
  intros Hl. destruct (state t) eqn:Hs;
    first [ apply recover_idle; [done|rewrite Hs; set_solver] | apply recover_abortable; [done|by rewrite Hs]
          | apply recover_recovering; [done|solve [auto]] | apply recover_stuck; [done|rewrite Hs; set_solver] ].
Qed.
End main.

(** ** Operations *)

Inductive op := OPrepare (func : option nat) | OCommit | OStop (force : bool) | ORollback | ORecover.

Section history.
  Context (script : nat → Task → list call * res exn (option text)).
  Context (queue_task save_task createdir : Task → option exn) (exn_str : exn → text).

Definition run_op (o : op) : TM unit :=
  match o with
  | OPrepare func => prepare script queue_task save_task createdir exn_str func ;; mret ()
  | OCommit => commit script queue_task save_task createdir exn_str
  | OStop force => stop_task script queue_task save_task createdir exn_str force
  | ORollback => rollback script queue_task save_task createdir exn_str
  | ORecover => recover script queue_task save_task createdir exn_str
  end.
End history.

(** C18: Operations end.  Every operation on a task between operations (prepare,
    commit, stop, rollback, recover) comes to an end, with at most six nested transitions, provided the recovery functions do
    not edit the list of recoveries; then no reference and no abort request is left,
    the task is new, queued, waits for its recovery or is done, and a task that
    is done holds no resource. *)
Theorem operations_settle script queue_task save_task createdir exn_str o t t' r :
  recoveries_kept script → quiescent t → run_op script queue_task save_task createdir exn_str o t = (t', r) →
  quiescent t' ∧ r ≠ Raise OutOfFuel.
Proof.
  intros Hk Hq H. apply (wp_run _ (fun t' r => quiescent t' ∧ r ≠ Raise OutOfFuel) t) in H; [done|].
  assert (∀ r : res failure unit, no_fuel_error r → r ≠ Raise OutOfFuel) as Hnf by (by intros [|[]]).
  pose proof (qu_state t Hq) as Hin. destruct o; cbn [run_op].
  - apply wp_bind. destruct (decide (state t = init)) as [Hs|Hs].
    + eapply wp_mono; [by apply prepare_spec|]. intros t1 r1 (Hq1 & Hres & _).
      destruct Hres as [(v & _ & -> & _) | [(_ & -> & _) | (_ & e & ->)]]; done.
    + unfold prepare. apply wp_with_ref; [done|].
      eapply wp_mono; [apply refused; [done|]|intros t1 r1 (Hq1 & -> & _); done].
      intros Q HQ. unfold prepare_body. wps. apply update_refused; [done|set_unfold in Hin; destruct_or! Hin; rewrite Hin in *; set_solver|done].
  - destruct (decide (state t = queued)) as [Hs|Hs].
    + eapply wp_mono; [by apply commit_spec|]. intros t1 r1 (? & ? & _). auto.
    + unfold commit. apply wp_with_ref; [done|].
      eapply wp_mono; [apply refused; [done|]|intros t1 r1 (Hq1 & -> & _); done].
      intros Q HQ. apply update_refused; [done|set_unfold in Hin; destruct_or! Hin; rewrite Hin in *; set_solver|done].
  - eapply wp_mono; [by apply stop_spec|]. intros t1 r1 (? & ? & _). auto.
  - eapply wp_mono; [by apply rollback_spec|]. intros t1 r1 (? & ? & _). auto.
  - eapply wp_mono; [by apply recover_restartable_spec, quiescent_restartable|].
    intros t1 r1 (? & Hres & ? & ? & ?). split; [|auto]. split; try done. unfold recover_result in Hres.
    set_unfold in Hin. destruct_or! Hin; rewrite Hin in Hres; unfold aborted_state in Hres; destruct_and! Hres; destruct_or?; set_solver.
Qed.

(** Preparing.  Preparing a new task ends in one of three ways: it is finished
    and the result of its function is returned and recorded; or the function added
    jobs, the task is queued and its id is returned; or it was aborted, the error
    is raised, and it is recovered, failed or waits for its recovery.  No job runs. *)
Theorem prepare_outcome script queue_task save_task createdir exn_str func t t' r :
  recoveries_kept script → quiescent t → state t = init →
  prepare script queue_task save_task createdir exn_str func t = (t', r) →
  quiescent t' ∧ jobs_ran t' = jobs_ran t ∧
  ((∃ v, state t' = finished ∧ r = Ok v ∧ result t' = mkResult 0 (str "OK") v) ∨
   (state t' = queued ∧ r = Ok (Some (taskid t)) ∧ jobs t' ≠ []) ∨
   (state t' ∈ [recovered; failed; waitrecover] ∧ ∃ e, r = Raise (Err e))).
Proof.
  intros Hk Hq Hs H. eapply wp_run in H; [|by apply prepare_spec]. destruct H as (Hq' & Hres & Hj).
  split; [done|]. split; [done|]. destruct Hres as [Hres | [Hres | (Hab & He)]]; [by left|by right; left|].
  right. right. split; [|done]. destruct Hab as [-> | [-> | ->]]; set_solver.
Qed.

(** C17: Running jobs.  Committing a queued task comes to an end; the jobs it ran are the first of its
    jobs, in order and each once.  The task is finished, and the call returns, only when all of them ran; otherwise it is recovered or
    failed and the call returns, or it waits for its recovery and the call raises a transition error. *)
Theorem commit_outcome script queue_task save_task createdir exn_str t t' r :
  recoveries_kept script → quiescent t → state t = queued →
  commit script queue_task save_task createdir exn_str t = (t', r) →
  quiescent t' ∧ ∃ k, k `prefix_of` (job_name <$> jobs t) ∧ jobs_ran t' = jobs_ran t ++ k ∧
    (state t' = finished ∧ r = Ok () ∧ k = job_name <$> jobs t ∨
     state t' ∈ [recovered; failed] ∧ r = Ok () ∨ state t' = waitrecover ∧ r = Raise (Err TaskStateTransitionError)).
Proof.
  intros Hk Hq Hs H. eapply wp_run in H; [|by apply commit_spec]. destruct H as (Hq' & _ & k & Hp & Hj & Ho).
  split; [done|]. exists k. split; [done|]. split; [done|]. destruct Ho as [Ho | (Hab & Hok & Herr)]; [by left|].
  right. destruct Hab as [Hst | [Hst | Hst]]; [left|left|right; auto]; rewrite Hst in *; (split; [set_solver|auto]).
Qed.

(** C19: Stopping.  Stopping a queued task: with automatic recovery its recoveries
    run from the last to the first, and it is recovered if all of them succeed
    and failed otherwise; without recovery it fails.  With manual recovery it
    waits for its recovery, and the call raises a transition error although the
    task was stopped.  Stopping a task that waits fails it; a task that is done
    is left alone; one that was not prepared cannot be stopped. *)
Theorem stop_outcome script queue_task save_task createdir exn_str force t t' r :
  recoveries_kept script → quiescent t → stop_task script queue_task save_task createdir exn_str force t = (t', r) →
  quiescent t' ∧
  match state t with
  | queued =>
      match recoveryPolicy t with
      | auto => r = Ok () ∧ ∃ k, recs_ran t' = recs_ran t ++ k ∧ k `prefix_of` (rec_name <$> reverse (recoveries t)) ∧
                  (state t' = recovered ∧ k = rec_name <$> reverse (recoveries t) ∨ state t' = failed)
      | none => r = Ok () ∧ state t' = failed ∧ recs_ran t' = recs_ran t
      | manual => r = Raise (Err TaskStateTransitionError) ∧ state t' = waitrecover ∧ recs_ran t' = recs_ran t
      end
  | waitrecover => r = Ok () ∧ state t' = failed ∧ recs_ran t' = recs_ran t
  | init => r = Raise (Err TaskStateTransitionError) ∧ state t' = init
  | s => r = Ok () ∧ state t' = s
  end.
Proof.
  intros Hk Hq H. eapply wp_run in H; [|by apply stop_spec]. destruct H as (Hq' & _ & Hres & _). done.
Qed.

(** C20: Recovery after a restart.  Recovering a task that was loaded from its store
    comes to an end and settles it: a task that was under way is aborted; one that
    was recovering runs its remaining recoveries from the last to the first and is
    recovered exactly if all of them succeed; one whose abort was under way has
    failed; one that was done or waiting stays so. *)
Theorem recover_outcome script queue_task save_task createdir exn_str t t' r :
  recoveries_kept script → loaded t → recover script queue_task save_task createdir exn_str t = (t', r) →
  r ≠ Raise OutOfFuel ∧ ref t' = 0 ∧ (isDone (state t') = true → resources t' = []) ∧
  match state t with
  | finished | recovered | failed | waitrecover => r = Ok () ∧ state t' = state t
  | preparing | blocked | acquiring | queued | running =>
      state t' ∈ [recovered; failed] ∧ r = Ok () ∨ state t' = waitrecover
  | racquiring | recovering =>
      r = Ok () ∧ ∃ k, recs_ran t' = recs_ran t ++ k ∧ k `prefix_of` (rec_name <$> reverse (recoveries t)) ∧
        (state t' = recovered ∧ k = rec_name <$> reverse (recoveries t) ∨ state t' = failed)
  | aborting | raborting => r = Ok () ∧ state t' = failed
  | init | unknown => r = Raise (Err TaskStateTransitionError) ∧ state t' = state t
  end.
Proof.
  intros Hk Hl H. eapply wp_run in H; [|by apply recover_restartable_spec, loaded_restartable]. destruct H as (Hnf & Hres & Hr & Hz & _).
  split; [by destruct r as [|[]]|]. split; [done|]. split; [done|]. unfold recover_result in Hres.
  destruct (state t); try done;
    (destruct Hres as [[Hst | [Hst | Hst]] Hok]; rewrite Hst in *; [left|left|by right]; (split; [set_solver|auto])).
Qed.
