(* ===== verification/TaskStore.v ===== *)
(** * The task store: [storage/task.py]

    The metadata files of a task (fields as [name = value] lines, with the equal
    sign of a value encoded) and the directory protocol of [Task._save] and
    [Task.loadTask] over three directories. *)
From Stdlib Require Import ZArith Lia.
From stdpp Require Import base sets list strings.
From S2P Require Import Prelude Text.

(** ** Metadata files *)

Definition KEY_SEPARATOR : Z := 61.
Definition KEY_SEPARATOR_ENCODED : text := str "_eq_".

Inductive error := ValueError | TaskMetaDataSaveError | TaskMetaDataLoadError | TaskDirError | TaskPersistError
  | InvalidParameterException.

Fixpoint replace_sep (s : text) : text :=
  match s with
  | [] => []
  | c :: s' => if c =? KEY_SEPARATOR then KEY_SEPARATOR_ENCODED ++ replace_sep s' else c :: replace_sep s'
  end.

Definition _eq_encode (s : text) : res error text :=
  match search KEY_SEPARATOR_ENCODED s with
  | Some _ => Raise ValueError
  | None => Ok (replace_sep s)
  end.

(** [s.replace("_eq_", "=")], from the left; [skip] characters belong to the last
    match. *)
Fixpoint decode_from (skip : nat) (s : text) : text :=
  match s with
  | [] => []
  | c :: s' =>
      match skip with
      | S k => decode_from k s'
      | O => if prefixb KEY_SEPARATOR_ENCODED s then KEY_SEPARATOR :: decode_from 3 s' else c :: decode_from 0 s'
      end
  end.

Definition _eq_decode (s : text) : text := decode_from 0 s.

(** The attributes of an object have values [V]; a field has the type that reads its
    value, [None] being the error of its conversion. *)
Section files.
  Context {V : Type} (text_type : V → text).

Abbreviation obj_attrs := (list (text * V)).
Abbreviation field_types := (list (text * (text → option V))).

(** One line of [_dump]: [None] when the field is skipped. *)
Definition dump_line (obj : obj_attrs) (field : text) : option text :=
  match dict_get field obj with
  | None => None
  | Some value =>
      match _eq_encode field, _eq_encode (text_type value) with
      | Ok f, Ok v => Some (f ++ [32; KEY_SEPARATOR; 32] ++ v)
      | _, _ => None
      end
  end.

Definition _dump (obj : obj_attrs) (fields : field_types) : list text := omap (dump_line obj) (dict_keys fields).

(** [_saveMetaFile]: the contents that are written. *)
Fixpoint encode_lines (lines : list text) : option bytes :=
  match lines with
  | [] => Some []
  | l :: lines' =>
      match utf8_encode l, encode_lines lines' with
      | Some b, Some rest => Some (b ++ 10 :: rest)
      | _, _ => None
      end
  end.

Definition _saveMetaFile (obj : obj_attrs) (fields : field_types) : res error bytes :=
  match encode_lines (_dump obj fields) with
  | Some b => Ok b
  | None => Raise TaskMetaDataSaveError
  end.

(** One line of [_loadMetaFile]: the object with its field set, if the line has
    one. *)
Definition load_line (fields : field_types) (line : text) (obj : obj_attrs) : res error obj_attrs :=
  if bool_decide (KEY_SEPARATOR ∈ line) then
    match split_all KEY_SEPARATOR line with
    | [a; b] =>
        let field := _eq_decode (stripp is_space_u a) in
        let value := _eq_decode (stripp is_space_u b) in
        match dict_get field fields with
        | None => Ok obj
        | Some ftype =>
            match ftype value with
            | Some v => Ok (dict_set field v obj)
            | None => Raise TaskMetaDataLoadError
            end
        end
    | _ => Ok obj
    end
  else Ok obj.

Fixpoint load_lines (fields : field_types) (lines : list bytes) (obj : obj_attrs) : res error obj_attrs :=
  match lines with
  | [] => Ok obj
  | b :: lines' =>
      match utf8_decode b with
      | None => Raise TaskMetaDataLoadError
      | Some line =>
          match load_line fields line obj with
          | Ok obj' => load_lines fields lines' obj'
          | Raise e => Raise e
          end
      end
  end.

Definition _loadMetaFile (contents : bytes) (obj : obj_attrs) (fields : field_types) : res error obj_attrs :=
  load_lines fields (splitlines contents) obj.
End files.

(** ** Round trip of an encoded text *)

(** The texts that the encoding cannot tell apart. *)
Definition ambiguous : text := str "_eq=".

Lemma search_tail sub c s : search sub (c :: s) = None → search sub s = None.
Proof. simpl. destruct (prefixb sub (c :: s)); [done|]. by destruct (search sub s). Qed.

Lemma search_head sub s : search sub s = None → s ≠ [] → prefixb sub s = false.
Proof. destruct s; [done|]. simpl. by destruct (prefixb sub _). Qed.

Lemma decode_skip s : decode_from 3 (str "eq_" ++ s) = decode_from 0 s.
Proof. done. Qed.

(** An own character never starts a match in an encoded text. *)
Lemma no_match c s :
  c ≠ KEY_SEPARATOR → search KEY_SEPARATOR_ENCODED (c :: s) = None → search ambiguous (c :: s) = None →
  prefixb KEY_SEPARATOR_ENCODED (c :: replace_sep s) = false.
Proof.
  intros Hc H1 H2. apply search_head in H1; [|done]. apply search_head in H2; [|done].
  apply not_true_iff_false. intros [k H]%prefixb_true. simpl in H. injection H as -> H.
  destruct s as [|x s]; [done|]. simpl in H. destruct (Z.eqb_spec x KEY_SEPARATOR); [done|]. injection H as -> H.
  destruct s as [|y s]; [done|]. simpl in H. destruct (Z.eqb_spec y KEY_SEPARATOR); [done|]. injection H as -> H.
  destruct s as [|z s]; [done|]. simpl in H. destruct (Z.eqb_spec z KEY_SEPARATOR) as [->|Hz]; [done|].
  injection H as -> H. done.
Qed.

Lemma eq_roundtrip s e : _eq_encode s = Ok e → search ambiguous s = None → _eq_decode e = s.
Proof.
  unfold _eq_encode. destruct (search KEY_SEPARATOR_ENCODED s) eqn:Hn; [done|]. intros [= <-] Ha.
  unfold _eq_decode. revert Hn Ha. induction s as [|c s IH]; intros Hn Ha; [done|].
  pose proof (search_tail _ _ _ Hn) as Hn'. pose proof (search_tail _ _ _ Ha) as Ha'. cbn [replace_sep].
  destruct (Z.eqb_spec c KEY_SEPARATOR) as [->|Hc].
  - transitivity (KEY_SEPARATOR :: decode_from 3 (str "eq_" ++ replace_sep s)); [done|].
    rewrite decode_skip. by rewrite IH.
  - cbn [decode_from]. rewrite no_match by done. by rewrite IH.
Qed.

(** The encoding is not injective on texts with [_eq=]: a tag of a task, for
    instance, can come back changed. *)
Lemma eq_ambiguous :
  _eq_encode (str "_eq=") = Ok (str "_eq_eq_") ∧ _eq_encode (str "=eq_") = Ok (str "_eq_eq_") ∧
  _eq_decode (str "_eq_eq_") = str "=eq_".
Proof. done. Qed.

(** ** White space *)

Definition trimmed (s : text) : Prop :=
  (∀ c, head s = Some c → is_space_u c = false) ∧ (∀ c, last s = Some c → is_space_u c = false).

Lemma rstripp_last p s : (∀ c, last s = Some c → p c = false) → rstripp p s = s.
Proof.
  induction s as [|c s IH]; intros H; [done|]. simpl. destruct s as [|d s].
  - by rewrite (H c).
  - rewrite IH; [done|]. intros x Hx. apply H. by rewrite last_cons, Hx.
Qed.

Lemma rstripp_snoc p s c : p c = true → rstripp p (s ++ [c]) = rstripp p s.
Proof. intros Hc. induction s as [|x s IH]; simpl; [by rewrite Hc|]. by rewrite IH. Qed.

Lemma strip_trimmed s : trimmed s → stripp is_space_u s = s.
Proof.
  intros [Hh Hl]. unfold stripp. destruct s as [|c s]; [done|]. simpl. rewrite Hh by done. by apply rstripp_last.
Qed.

Lemma strip_before s : trimmed s → stripp is_space_u (32 :: s) = s.
Proof. intros Hs. rewrite <- (strip_trimmed s Hs) at 2. done. Qed.

Lemma strip_after s : trimmed s → stripp is_space_u (s ++ [32]) = s.
Proof.
  intros [Hh Hl]. destruct s as [|c s]; [done|]. unfold stripp. cbn [app lstripp]. rewrite Hh by done.
  change (c :: s ++ [32]) with ((c :: s) ++ [32]). rewrite rstripp_snoc by done. by apply rstripp_last.
Qed.

Lemma last_replace s c : last (replace_sep s) = Some c → c = 95 ∨ last s = Some c.
Proof.
  induction s as [|x s IH]; [done|]. cbn [replace_sep]. destruct (Z.eqb_spec x KEY_SEPARATOR).
  - rewrite last_app. destruct (last (replace_sep s)) as [d|] eqn:E; intros [= <-].
    + destruct IH as [|IH]; [done|by left|]. right. by rewrite last_cons, IH.
    + by left.
  - rewrite last_cons. destruct (last (replace_sep s)) as [d|] eqn:E; intros [= <-].
    + destruct IH as [|IH]; [done|by left|]. right. by rewrite last_cons, IH.
    + right. rewrite last_cons. destruct s as [|y s]; [done|]. exfalso. cbn [replace_sep] in E.
      destruct (y =? KEY_SEPARATOR); [rewrite last_app in E|rewrite last_cons in E]; by destruct (last (replace_sep s)).
Qed.

Lemma trimmed_replace s : trimmed s → trimmed (replace_sep s).
Proof.
  intros [Hh Hl]. split.
  - intros c Hc. destruct s as [|x s]; [done|]. simpl in Hc. destruct (x =? KEY_SEPARATOR); simplify_eq/=; [done|by apply Hh].
  - intros c [-> | Hc]%last_replace; [done|by apply Hl].
Qed.

(** ** Round trip of a metadata file *)

(** A text that survives in a metadata file. *)
Record clean (s : text) : Prop := {
  cl_trimmed : trimmed s;
  cl_plain : search KEY_SEPARATOR_ENCODED s = None;
  cl_unambiguous : search ambiguous s = None;
  cl_line : no_newline s;
  cl_utf8 : is_Some (utf8_encode s);
}.

Definition meta_line (f v : text) : text := replace_sep f ++ [32; KEY_SEPARATOR; 32] ++ replace_sep v.

Lemma encode_clean s : clean s → _eq_encode s = Ok (replace_sep s) ∧ _eq_decode (replace_sep s) = s.
Proof.
  intros []. assert (_eq_encode s = Ok (replace_sep s)) as E by (unfold _eq_encode; by rewrite cl_plain0).
  split; [done|]. by apply eq_roundtrip.
Qed.

Lemma replace_no_sep s : KEY_SEPARATOR ∉ replace_sep s.
Proof.
  induction s as [|c s IH]; [by apply not_elem_of_nil|]. cbn [replace_sep]. destruct (Z.eqb_spec c KEY_SEPARATOR) as [->|Hc].
  - apply not_elem_of_app. split; [|done]. unfold KEY_SEPARATOR_ENCODED, KEY_SEPARATOR. set_solver.
  - apply not_elem_of_cons. split; congruence.
Qed.

Lemma replace_elem s c : c ∈ replace_sep s → c ∈ s ∨ c ∈ KEY_SEPARATOR_ENCODED.
Proof.
  induction s as [|x s IH]; cbn [replace_sep]; [by intros ?%elem_of_nil|].
  destruct (x =? KEY_SEPARATOR).
  - intros [H|H]%elem_of_app; [by right|]. destruct (IH H); [left; by apply list_elem_of_further|by right].
  - intros [->|H]%elem_of_cons; [left; apply list_elem_of_here|]. destruct (IH H); [left; by apply list_elem_of_further|by right].
Qed.

Lemma replace_utf8 s : is_Some (utf8_encode s) → is_Some (utf8_encode (replace_sep s)).
Proof.
  induction s as [|c s IH]; [done|]. cbn [replace_sep utf8_encode]. intros [b Hb].
  destruct (utf8_encode1 c) as [e|] eqn:Ee; [|done]. destruct (utf8_encode s) as [r|] eqn:Er; [|done].
  destruct IH as [b' Hb']; [eauto|]. destruct (c =? KEY_SEPARATOR).
  - rewrite utf8_encode_app, Hb'. by eexists.
  - cbn [utf8_encode]. rewrite Ee, Hb'. by eexists.
Qed.

Lemma meta_line_bytes f v : clean f → clean v → ∃ b, utf8_encode (meta_line f v) = Some b ∧ no_newline b ∧ utf8_decode b = Some (meta_line f v).
Proof.
  intros Hf Hv. destruct (replace_utf8 f (cl_utf8 f Hf)) as [bf Ef]. destruct (replace_utf8 v (cl_utf8 v Hv)) as [bv Ev].
  assert (utf8_encode (meta_line f v) = Some (bf ++ [32; 61; 32] ++ bv)) as E.
  { unfold meta_line. rewrite !utf8_encode_app, Ef, Ev. done. }
  exists (bf ++ [32; 61; 32] ++ bv). split; [done|]. split; [|by apply utf8_roundtrip].
  eapply utf8_no_newline; [exact E|]. destruct (cl_line f Hf), (cl_line v Hv). unfold meta_line.
  assert (∀ c, c = 10 ∨ c = 13 → c ∉ f → c ∉ v → c ∉ replace_sep f ++ [32; KEY_SEPARATOR; 32] ++ replace_sep v) as Hno.
  { intros c Hc Hcf Hcv [[?|Hin]%replace_elem|[Hin|[?|Hin]%replace_elem]%elem_of_app]%elem_of_app; try done;
      unfold KEY_SEPARATOR_ENCODED, KEY_SEPARATOR in *; destruct Hc as [-> | ->]; set_solver. }
  split; apply Hno; auto.
Qed.

Lemma split_all_two c a b : c ∉ a → c ∉ b → split_all c (a ++ c :: b) = [a; b].
Proof.
  intros Ha Hb.
  assert (split_all c b = [b]) as E.
  { clear Ha. induction b as [|x b IH]; [done|]. apply not_elem_of_cons in Hb as [Hx Hb]. simpl.
    rewrite IH by done. by rewrite (proj2 (Z.eqb_neq x c)) by congruence. }
  induction a as [|x a IH]; simpl; [by rewrite E, Z.eqb_refl|].
  apply not_elem_of_cons in Ha as [Hx Ha]. rewrite IH by done. by rewrite (proj2 (Z.eqb_neq x c)) by congruence.
Qed.

Section roundtrip.
  Context {V : Type} (text_type : V → text).

Lemma load_meta_line fields f ftype v (obj : list (text * V)) :
  clean f → clean (text_type v) → dict_get f fields = Some ftype → ftype (text_type v) = Some v →
  load_line fields (meta_line f (text_type v)) obj = Ok (dict_set f v obj).
Proof.
  intros Hf Hv Hin Hconv. unfold load_line, meta_line.
  replace (replace_sep f ++ [32; KEY_SEPARATOR; 32] ++ replace_sep (text_type v))
    with ((replace_sep f ++ [32]) ++ KEY_SEPARATOR :: (32 :: replace_sep (text_type v))) by by rewrite <- app_assoc.
  rewrite bool_decide_true by (apply elem_of_app; right; apply list_elem_of_here).
  rewrite split_all_two.
  - rewrite strip_after, strip_before by (apply trimmed_replace; by apply cl_trimmed).
    rewrite (proj2 (encode_clean f Hf)), (proj2 (encode_clean _ Hv)), Hin. by rewrite Hconv.
  - apply not_elem_of_app. split; [apply replace_no_sep|]. unfold KEY_SEPARATOR. set_solver.
  - apply not_elem_of_cons. split; [done|apply replace_no_sep].
Qed.

(** An attribute that survives in a file in which [fields] are saved. *)
Definition kept (fields : list (text * (text → option V))) (obj : list (text * V)) (f : text) : Prop :=
  clean f ∧ ∃ ftype v, dict_get f fields = Some ftype ∧ dict_get f obj = Some v ∧
    clean (text_type v) ∧ ftype (text_type v) = Some v.

Lemma load_saved obj fields sub obj0 :
  (∀ f, f ∈ sub → kept fields obj f) →
  ∃ b loaded, encode_lines (omap (dump_line text_type obj) sub) = Some b ∧ load_lines fields (splitlines b) obj0 = Ok loaded ∧
    ∀ f, dict_get f loaded = if decide (f ∈ sub) then dict_get f obj else dict_get f obj0.
Proof.
  revert obj0. induction sub as [|f sub IH]; intros obj0 Hsub.
  { exists [], obj0. split; [done|]. split; [done|]. intros f. by rewrite decide_False by (by intros ?%elem_of_nil). }
  destruct (Hsub f) as (Hf & ftype & v & Hin & Hv & Hcv & Hconv); [apply list_elem_of_here|].
  destruct (meta_line_bytes f (text_type v) Hf Hcv) as (bl & El & Hnl & Edec).
  destruct (IH (dict_set f v obj0)) as (b & loaded & Eb & Eload & Hget).
  { intros g Hg. apply Hsub. by apply list_elem_of_further. }
  exists (bl ++ 10 :: b), loaded. split; [|split].
  - cbn [omap list_omap]. unfold dump_line at 1.
    rewrite Hv, (proj1 (encode_clean f Hf)), (proj1 (encode_clean _ Hcv)). cbn [encode_lines].
    fold (meta_line f (text_type v)). by rewrite El, Eb.
  - unfold splitlines. rewrite splitlines_line by done. cbn [load_lines app]. rewrite Edec.
    by rewrite (load_meta_line _ _ ftype).
  - intros g. rewrite Hget. destruct (decide (g ∈ sub)) as [Hg|Hg].
    { by rewrite decide_True by (by apply list_elem_of_further). }
    destruct (decide (g = f)) as [->|Hne].
    + rewrite dict_get_set_eq, decide_True by apply list_elem_of_here. done.
    + rewrite dict_get_set_ne by done. by rewrite decide_False by (intros [?|?]%elem_of_cons; contradiction).
Qed.

(** The fields that were saved to a metadata file are read back from it, into any
    object. *)
Lemma meta_file_roundtrip obj obj0 fields :
  (∀ f, f ∈ dict_keys fields → kept fields obj f) →
  ∃ contents loaded,
    _saveMetaFile text_type obj fields = Ok contents ∧ _loadMetaFile contents obj0 fields = Ok loaded ∧
    ∀ f, dict_get f loaded = if decide (f ∈ dict_keys fields) then dict_get f obj else dict_get f obj0.
Proof.
  intros H. destruct (load_saved obj fields (dict_keys fields) obj0 H) as (b & loaded & Eb & El & Hg).
  exists b, loaded. unfold _saveMetaFile, _loadMetaFile, _dump. by rewrite Eb.
Qed.
End roundtrip.

(** ** The directories of a task *)

(** A directory: its files. *)
Definition dir : Type := list (text * bytes).

(** The directories of one task in the store: its own, the one with the extension
    [.temp] and the one with the extension [.backup]. *)
Record disk := mkDisk { orig : option dir; temp : option dir; backup : option dir }.

Inductive place := Orig | Temp | Backup.

Definition get_dir (p : place) (d : disk) : option dir :=
  match p with Orig => orig d | Temp => temp d | Backup => backup d end.

Definition set_dir (p : place) (v : option dir) (d : disk) : disk :=
  match p with
  | Orig => mkDisk v (temp d) (backup d)
  | Temp => mkDisk (orig d) v (backup d)
  | Backup => mkDisk (orig d) (temp d) v
  end.

(** File system operations. *)
Inductive fsop :=
| Cleanup (p : place)
| Mkdir (p : place)
| WriteFile (p : place) (name : text) (data : bytes)
| Rename (p q : place).

(** A completed operation; [None] is an error of the operating system. *)
Definition exec_op (o : fsop) (d : disk) : option disk :=
  match o with
  | Cleanup p => Some (set_dir p None d)
  | Mkdir p => match get_dir p d with None => Some (set_dir p (Some []) d) | Some _ => None end
  | WriteFile p name data =>
      match get_dir p d with Some fs => Some (set_dir p (Some (dict_set name data fs)) d) | None => None end
  | Rename p q =>
      match get_dir p d, get_dir q d with
      | Some fs, None => Some (set_dir p None (set_dir q (Some fs) d))
      | _, _ => None
      end
  end.

(** What an operation that was interrupted can leave: a cleanup removes the files
    in any order, a write is cut off anywhere; the others are atomic. *)
Inductive torn : fsop → disk → disk → Prop :=
| torn_cleanup p fs fs' d : get_dir p d = Some fs → fs' ⊆ fs → torn (Cleanup p) d (set_dir p (Some fs') d)
| torn_write p name data part fs d :
    get_dir p d = Some fs → part `prefix_of` data →
    torn (WriteFile p name data) d (set_dir p (Some (dict_set name part fs)) d).

(** The disk after a crash during a sequence of operations. *)
Inductive crashed : list fsop → disk → disk → Prop :=
| crash_now ops d : crashed ops d d
| crash_torn o ops d d' : torn o d d' → crashed (o :: ops) d d'
| crash_later o ops d d1 d' : exec_op o d = Some d1 → crashed ops d1 d' → crashed (o :: ops) d d'.

Fixpoint exec_ops (ops : list fsop) (d : disk) : option disk :=
  match ops with
  | [] => Some d
  | o :: ops' => match exec_op o d with Some d1 => exec_ops ops' d1 | None => None end
  end.

(** [_save]: the operations for the files of a task; an error before the renames
    removes the temporary directory and raises.  [fsyncPath] has no counterpart: a crash is one of the process, after which
    the operations done so far are on the storage in their order. *)
Definition _save_ops (files : dir) (d : disk) : list fsop :=
  match temp d with Some _ => [Cleanup Temp] | None => [] end ++
  [Mkdir Temp] ++ ((fun '(n, b) => WriteFile Temp n b) <$> files) ++
  [Cleanup Backup; Rename Orig Backup; Rename Temp Orig; Cleanup Backup].

Definition _save (files : dir) (d : disk) : res error (list fsop) :=
  match orig d with
  | None => Raise TaskDirError
  | Some _ => Ok (_save_ops files d)
  end.

(** [loadTask]: the directory that is read. *)
Definition loadTask (d : disk) : res error dir :=
  match orig d, temp d, backup d with
  | Some fs, _, _ => Ok fs
  | None, Some fs, _ => Ok fs
  | None, None, Some fs => Ok fs
  | None, None, None => Raise TaskDirError
  end.

(** ** Crash safety *)

(** The temporary directory while its files are written. *)
Lemma crashed_writes files k old fs b d' rest :
  crashed (((fun '(n, b) => WriteFile Temp n b) <$> files) ++ rest) (mkDisk (Some old) (Some fs) b) d' →
  foldl (fun fs '(n, b) => dict_set n b fs) fs files = k →
  orig d' = Some old ∨ crashed rest (mkDisk (Some old) (Some k) b) d'.
Proof.
  revert fs. induction files as [|[n x] files IH]; intros fs H Hk; simpl in *; [right; by subst|].
  inversion H as [ops d E1 E2|o ops d d2 Ht E1 E2|o ops d d1 d2 Ex Hc E1 E2]; subst.
  - by left.
  - inversion Ht; subst. by left.
  - simpl in Ex. simplify_eq. by eapply IH.
Qed.

(** The last four operations, when the new directory is complete. *)
Lemma crashed_tail old new b d' :
  crashed [Cleanup Backup; Rename Orig Backup; Rename Temp Orig; Cleanup Backup] (mkDisk (Some old) (Some new) b) d' →
  loadTask d' = Ok old ∨ loadTask d' = Ok new.
Proof.
  intros H. inversion H as [| ? ? ? ? Ht|? ? ? ? ? Ex Hc]; subst; clear H; [by left|inversion Ht; subst; by left|].
  simpl in Ex. simplify_eq. inversion Hc as [| ? ? ? ? Ht|? ? ? ? ? Ex Hc']; subst; clear Hc; [by left|inversion Ht|].
  simpl in Ex. simplify_eq. inversion Hc' as [| ? ? ? ? Ht|? ? ? ? ? Ex Hc]; subst; clear Hc'; [by right|inversion Ht|].
  simpl in Ex. simplify_eq. inversion Hc as [| ? ? ? ? Ht|? ? ? ? ? Ex Hc']; subst; clear Hc; [by right|inversion Ht; subst; by right|].
  simpl in Ex. simplify_eq. inversion Hc'; subst. by right.
Qed.

Lemma foldl_dict_set_new {V} (files acc : list (text * V)) :
  NoDup (files.*1) → (∀ n, n ∈ files.*1 → n ∉ acc.*1) → foldl (fun fs '(n, b) => dict_set n b fs) acc files = acc ++ files.
Proof.
  revert acc. induction files as [|[n x] files IH]; intros acc Hnd Hnew; [by rewrite app_nil_r|]. simpl in *.
  apply NoDup_cons in Hnd as [Hn Hnd].
  assert (dict_set n x acc = acc ++ [(n, x)]) as ->.
  { assert (n ∉ acc.*1) as Hna by (apply Hnew, list_elem_of_here). clear -Hna.
    induction acc as [|[m y] acc IH]; [done|]. simpl in *. apply not_elem_of_cons in Hna as [Hne Hna].
    rewrite decide_False by done. by rewrite IH. }
  rewrite IH; [by rewrite <- app_assoc|done|]. intros m Hm. rewrite fmap_app. apply not_elem_of_app. split.
  - apply Hnew. by apply list_elem_of_further.
  - simpl. intros ->%list_elem_of_singleton. done.
Qed.

(** Writing the files one by one. *)
Lemma exec_writes new o fs b rest :
  exec_ops (((fun '(n, x) => WriteFile Temp n x) <$> new) ++ rest) (mkDisk o (Some fs) b) =
  exec_ops rest (mkDisk o (Some (foldl (fun fs '(n, x) => dict_set n x fs) fs new)) b).
Proof. revert fs. induction new as [|[n x] new IH]; intros fs; [done|]. apply IH. Qed.

Lemma written_files (new : dir) : NoDup (new.*1) → foldl (fun fs '(n, b) => dict_set n b fs) [] new = new.
Proof. intros Hnd. apply (foldl_dict_set_new new []); [done|]. intros; by apply not_elem_of_nil. Qed.

(** Saving that is not interrupted leaves the new files only. *)
Lemma save_runs old new d :
  orig d = Some old → NoDup (new.*1) → exec_ops (_save_ops new d) d = Some (mkDisk (Some new) None None).
Proof.
  intros Ho Hnd. destruct d as [o tmp b]. simpl in Ho. subst o. unfold _save_ops. cbn [temp].
  destruct tmp; cbn [app exec_ops exec_op get_dir temp set_dir orig backup]; by rewrite exec_writes, written_files.
Qed.

Lemma save_crashes old new d d' :
  orig d = Some old → NoDup (new.*1) → crashed (_save_ops new d) d d' → loadTask d' = Ok old ∨ loadTask d' = Ok new.
Proof.
  intros Ho Hnd. destruct d as [o tmp b]. simpl in Ho. subst o. unfold _save_ops. cbn [temp].
  set (W := (fun '(n, b) => WriteFile Temp n b) <$> new).
  set (Tl := [Cleanup Backup; Rename Orig Backup; Rename Temp Orig; Cleanup Backup]).
  assert (crashed ([Mkdir Temp] ++ W ++ Tl) (mkDisk (Some old) None b) d' → loadTask d' = Ok old ∨ loadTask d' = Ok new) as Hcr.
  { intros H. inversion H as [| ? ? ? ? Ht|? ? ? ? ? Ex Hc]; subst; [by left|inversion Ht|]. simpl in Ex. simplify_eq.
    destruct (crashed_writes new new old [] b d' Tl Hc (written_files new Hnd)) as [H1|H1]; [|by eapply crashed_tail].
    left. unfold loadTask. by rewrite H1. }
  destruct tmp as [tfs|]; [|exact Hcr].
  intros H. inversion H as [| ? ? ? ? Ht|? ? ? ? ? Ex Hc]; subst; [by left|inversion Ht; subst; by left|].
  simpl in Ex. simplify_eq. by apply Hcr.
Qed.

(** Crash safety of the task store.  Saving a task whose directory exists:
    when it completes, the task is the new one; and whenever it is interrupted,
    in the middle of a write or of a cleanup too, loading the task gives the old
    or the new files, complete. *)
Theorem save_crash_safe old new d :
  orig d = Some old → NoDup (new.*1) →
  ∃ ops, _save new d = Ok ops ∧
    exec_ops ops d = Some (mkDisk (Some new) None None) ∧
    ∀ d', crashed ops d d' → loadTask d' = Ok old ∨ loadTask d' = Ok new.
Proof.
  intros Ho Hnd. exists (_save_ops new d). unfold _save. rewrite Ho. split; [done|].
  split; [by eapply save_runs|]. intros d' H. by eapply save_crashes.
Qed.

(** When the crash fell between the two renames, the next start of the service
    reads the temporary directory, creates an empty directory for the task and
    saves it again: a second crash then leaves only the empty directory to load. *)
Lemma second_crash_loses old new :
  let d1 := mkDisk None (Some new) (Some old) in
  let d2 := set_dir Orig (Some []) d1 in
  loadTask d1 = Ok new ∧ ∃ d', crashed (_save_ops new d2) d2 d' ∧ loadTask d' = Ok [] ∧ temp d' = None.
Proof.
  split; [done|]. exists (mkDisk (Some []) None (Some old)). split; [|done].
  eapply crash_later; [done|]. apply crash_now.
Qed.
