(* ===== verification/TaskLoad.v ===== *)
(** * Saving and loading whole tasks: [storage/task.py]

    The objects of a task (itself, its result, its jobs and recoveries) by their
    attributes, the types that write and read their fields, and the files that
    [Task._save] writes and [Task._load] reads. *)
From Stdlib Require Import ZArith Lia.
From stdpp Require Import base sets list strings.
From S2P Require Import Prelude Text Task TaskStore.

(** ** Values and their types *)

(** [TaskPriority] *)
Inductive TaskPriority := low | medium | high.

Inductive value :=
| VNone
| VText (s : text)
| VInt (n : Z)
| VState (s : State)
| VPolicy (p : policy)
| VPriority (p : TaskPriority)
| VParams (params : list text).

Definition FIELD_SEP : Z := 44.

(** [ParamList(params)] of a list: an item with the separator is an error. *)
Definition ParamList (params : list text) : res error (list text) :=
  if existsb (fun i => bool_decide (FIELD_SEP ∈ i)) params then Raise ValueError else Ok params.

(** [ParamList(params)] of a text *)
Definition ParamList_text (params : text) : list text := stripp is_space_u <$> split_all FIELD_SEP params.

(** [ParamList.__str__]: the items with a separator after each, less the last
    character. *)
Definition ParamList_str (params : list text) : text :=
  let s := concat ((fun i => i ++ [FIELD_SEP]) <$> params) in take (length s - 1) s.

Definition policy_name (p : policy) : text :=
  match p with none => str "none" | manual => str "manual" | auto => str "auto" end.

(** [EnumType.__init__] for the policies, of a text that is the name of a value or of
    no attribute of the class. *)
Definition policy_of (s : text) : option policy :=
  if bool_decide (s = str "none") then Some none
  else if bool_decide (s = str "manual") then Some manual
  else if bool_decide (s = str "auto") then Some auto
  else None.

Definition priority_name (p : TaskPriority) : text :=
  match p with low => str "low" | medium => str "medium" | high => str "high" end.

Definition priority_of (s : text) : option TaskPriority :=
  if bool_decide (s = str "low") then Some low
  else if bool_decide (s = str "medium") then Some medium
  else if bool_decide (s = str "high") then Some high
  else None.

(** [six.text_type(value)] *)
Definition text_type (v : value) : text :=
  match v with
  | VNone => str "None"
  | VText s => s
  | VInt n => str_d n
  | VState s => state_name s
  | VPolicy p => policy_name p
  | VPriority p => priority_name p
  | VParams params => ParamList_str params
  end.

Inductive ftype := TText | TInt | TState | TPolicy | TPriority | TParams.

(** [ftype(value)] *)
Definition convert (t : ftype) (s : text) : option value :=
  match t with
  | TText => Some (VText s)
  | TInt => VInt <$> py_int_str s
  | TState => Some (VState (State_of s))
  | TPolicy => VPolicy <$> policy_of s
  | TPriority => VPriority <$> priority_of s
  | TParams => Some (VParams (ParamList_text s))
  end.

Abbreviation attrs := (list (text * value)).

(** [Job.fields], [Recovery.fields], [TaskResult.fields] and [Task.fields] *)
Definition Job_fields : list (text * ftype) := [(str "name", TText); (str "runcmd", TText)].

Definition Recovery_fields : list (text * ftype) :=
  [(str "name", TText); (str "moduleName", TText); (str "object", TText); (str "function", TText); (str "params", TParams)].

Definition TaskResult_fields : list (text * ftype) := [(str "code", TInt); (str "message", TText); (str "result", TText)].

Definition Task_fields : list (text * ftype) :=
  [(str "id", TText); (str "name", TText); (str "tag", TText); (str "store", TText);
   (str "recoveryPolicy", TPolicy); (str "persistPolicy", TPolicy); (str "cleanPolicy", TPolicy);
   (str "priority", TPriority); (str "state", TState); (str "njobs", TInt); (str "nrecoveries", TInt);
   (str "metadataVersion", TInt)].

Definition readers (fields : list (text * ftype)) : list (text * (text → option value)) :=
  (fun '(f, t) => (f, convert t)) <$> fields.

(** ** Objects *)

Record Stored := mkStored {
  task_attrs : attrs;
  result_attrs : attrs;
  job_attrs : list attrs;
  recovery_attrs : list attrs;
}.

Definition text_attr (k : text) (a : attrs) : text := match dict_get k a with Some (VText s) => s | _ => [] end.
Definition int_attr (k : text) (a : attrs) : Z := match dict_get k a with Some (VInt n) => n | _ => 0 end.
Definition in_state (s : State) (a : attrs) : bool :=
  match dict_get (str "state") a with Some (VState s') => bool_decide (s' = s) | _ => false end.

Definition id_of (t : Stored) : text := text_attr (str "id") (task_attrs t).

(** [Job("load", None)] *)
Definition new_job : attrs := [(str "name", VText (str "load")); (str "runcmd", VText (str "None (args: () kwargs: {})"))].

(** [Recovery("load", "load", "load", "load", "")] *)
Definition new_recovery : attrs :=
  [(str "name", VText (str "load")); (str "object", VText (str "load")); (str "moduleName", VText (str "load"));
   (str "function", VText (str "load")); (str "params", VParams (ParamList_text []))].

(** [TaskResult(0, "Task is initializing", "")] *)
Definition new_result : attrs :=
  [(str "code", VInt 0); (str "message", VText (str "Task is initializing")); (str "result", VText [])].

(** [Task(taskid)], of an id that is not empty *)
Definition new_task (taskid : text) : res error Stored :=
  if bool_decide (46 ∈ taskid) then Raise InvalidParameterException
  else Ok (mkStored
    [(str "metadataVersion", VInt 1); (str "id", VText taskid); (str "name", VText []); (str "tag", VText []);
     (str "priority", VPriority low); (str "recoveryPolicy", VPolicy none); (str "persistPolicy", VPolicy none);
     (str "cleanPolicy", VPolicy auto); (str "store", VNone); (str "state", VState init);
     (str "nrecoveries", VInt 0); (str "njobs", VInt 0)] new_result [] []).

(** ** Saving *)

Definition TASK_EXT : text := str ".task".
Definition JOB_EXT : text := str ".job".
Definition RECOVER_EXT : text := str ".recover".
Definition RESULT_EXT : text := str ".result".
Definition NUM_SEP : text := str ".".

(** The counters are set when the task is saved. *)
Definition counted (t : Stored) : Stored :=
  mkStored (dict_set (str "nrecoveries") (VInt (zlen (recovery_attrs t)))
              (dict_set (str "njobs") (VInt (zlen (job_attrs t))) (task_attrs t)))
    (result_attrs t) (job_attrs t) (recovery_attrs t).

(** One file *)
Definition save_file (name : text) (obj : attrs) (fields : list (text * ftype)) : res error (text * bytes) :=
  b ← _saveMetaFile text_type obj (readers fields); mret (name, b).

(** [_saveJobMetaFile], [_saveRecoveryMetaFile] for [n], [n + 1], ... *)
Fixpoint save_numbered (base : text) (n : Z) (objs : list attrs) (fields : list (text * ftype)) : res error dir :=
  match objs with
  | [] => Ok []
  | obj :: objs' =>
      f ← save_file (base ++ NUM_SEP ++ str_d n) obj fields;
      rest ← save_numbered base (n + 1) objs' fields;
      mret (f :: rest)
  end.

(** The files of a task *)
Definition task_files (t : Stored) : res error dir :=
  let id := id_of t in
  task ← save_file (id ++ TASK_EXT) (task_attrs t) Task_fields;
  result ← (if in_state finished (task_attrs t)
            then f ← save_file (id ++ RESULT_EXT) (result_attrs t) TaskResult_fields; mret [f]
            else Ok []);
  jobs ← save_numbered (id ++ JOB_EXT) 0 (job_attrs t) Job_fields;
  recoveries ← save_numbered (id ++ RECOVER_EXT) 0 (recovery_attrs t) Recovery_fields;
  mret (task :: result ++ jobs ++ recoveries).

(** [Task._save]: the task with its counters, and the operations on the disk. *)
Definition save (t : Stored) (d : disk) : Stored * res error (list fsop) :=
  match orig d with
  | None => (t, Raise TaskDirError)
  | Some _ =>
      let t := counted t in
      match task_files t with
      | Ok files => (t, _save files d)
      | Raise _ => (t, Raise TaskPersistError)
      end
  end.

(** ** Loading *)

Definition load_file (files : dir) (name : text) (obj : attrs) (fields : list (text * ftype)) : res error attrs :=
  match dict_get name files with
  | None => Raise TaskMetaDataLoadError
  | Some b => _loadMetaFile b obj (readers fields)
  end.

Fixpoint load_numbered (files : dir) (base : text) (n : Z) (count : nat) (obj : attrs) (fields : list (text * ftype))
    : res error (list attrs) :=
  match count with
  | O => Ok []
  | S count' =>
      a ← load_file files (base ++ NUM_SEP ++ str_d n) obj fields;
      rest ← load_numbered files base (n + 1) count' obj fields;
      mret (a :: rest)
  end.

(** [Task._load] of a new task, from the files of a directory *)
Definition _load (t : Stored) (files : dir) : res error Stored :=
  if negb (in_state init (task_attrs t)) then Raise TaskMetaDataLoadError
  else
    let id := id_of t in
    a ← load_file files (id ++ TASK_EXT) (task_attrs t) Task_fields;
    if negb (bool_decide (text_attr (str "id") a = id)) then Raise TaskMetaDataLoadError
    else
      result ← (if in_state finished a then load_file files (id ++ RESULT_EXT) (result_attrs t) TaskResult_fields
                else Ok (result_attrs t));
      jobs ← load_numbered files (id ++ JOB_EXT) 0 (Z.to_nat (int_attr (str "njobs") a)) new_job Job_fields;
      recoveries ← load_numbered files (id ++ RECOVER_EXT) 0 (Z.to_nat (int_attr (str "nrecoveries") a)) new_recovery
                     Recovery_fields;
      mret (mkStored a result (job_attrs t ++ jobs) (recovery_attrs t ++ recoveries)).

(** [Task.loadTask] *)
Definition load (taskid : text) (d : disk) : res error Stored :=
  t ← new_task taskid;
  files ← loadTask d;
  _load t files.

(** ** Values that survive *)

Lemma clean_ascii s :
  bool_decide (Forall (fun c => 0 <= c < 128) s) = true →
  search KEY_SEPARATOR_ENCODED s = None → search ambiguous s = None →
  bool_decide (10 ∉ s ∧ 13 ∉ s) = true →
  match head s, last s with Some a, Some b => negb (is_space_u a) && negb (is_space_u b) | _, _ => true end = true →
  clean s.
Proof.
  intros Ha%bool_decide_eq_true Hp Hu Hn%bool_decide_eq_true Ht. split; [|done..|by rewrite utf8_encode_ascii].
  split; intros c Hc; rewrite Hc in Ht.
  - destruct s as [|x s]; [done|]. destruct (last (x :: s)) eqn:E; [|by apply last_None in E].
    by apply andb_true_iff in Ht as [Ht%negb_true_iff _].
  - destruct s as [|x s]; [done|]. by apply andb_true_iff in Ht as [_ Ht%negb_true_iff].
Qed.

Lemma search_head_absent c sub s : c ∉ s → search (c :: sub) s = None.
Proof.
  induction s as [|x s IH]; intros Hn; [done|]. apply not_elem_of_cons in Hn as [Hx Hn].
  cbn [search]. replace (prefixb (c :: sub) (x :: s)) with false; [by rewrite IH|].
  symmetry. apply not_true_iff_false. intros [k Hk]%prefixb_true. by injection Hk.
Qed.

Lemma digit_range c : is_digit c = true → 48 <= c <= 57.
Proof. unfold is_digit. intros [?%Z.leb_le ?%Z.leb_le]%andb_true_iff. lia. Qed.

Lemma clean_digits s : Forall (fun c => is_digit c = true) s → clean s.
Proof.
  intros H. assert (∀ c, c ∈ s → 48 <= c <= 57) as Hd.
  { intros c Hc. apply digit_range. by apply (proj1 (Forall_forall _ _) H). }
  assert (∀ c, c ∈ s → is_space_u c = false) as Hsp.
  { intros c Hc. apply is_digit_not_space. by apply (proj1 (Forall_forall _ _) H). }
  split.
  - split; intros c Hc; apply Hsp; [|by apply last_Some_elem_of]. destruct s; simplify_eq/=. apply list_elem_of_here.
  - apply (search_head_absent 95 (str "eq_")). intros Hc. apply Hd in Hc. lia.
  - apply (search_head_absent 95 (str "eq=")). intros Hc. apply Hd in Hc. lia.
  - split; intros Hc; apply Hd in Hc; lia.
  - rewrite utf8_encode_ascii; [done|]. apply Forall_forall. intros c Hc. apply Hd in Hc. lia.
Qed.

(** A text is split at the separators that joined its parts. *)
Lemma split_all_none c s : c ∉ s → split_all c s = [s].
Proof.
  induction s as [|x s IH]; intros Hn; [done|]. apply not_elem_of_cons in Hn as [Hx Hn]. simpl.
  rewrite IH by done. by rewrite (proj2 (Z.eqb_neq x c)) by congruence.
Qed.

Lemma split_all_first c a b : c ∉ a → split_all c (a ++ c :: b) = a :: split_all c b.
Proof.
  induction a as [|x a IH]; intros Hn; simpl.
  - rewrite Z.eqb_refl. destruct (split_all c b) eqn:E; [|done]. destruct b; simpl in E; [done|]. by repeat case_match.
  - apply not_elem_of_cons in Hn as [Hx Hn]. rewrite IH by done. by rewrite (proj2 (Z.eqb_neq x c)) by congruence.
Qed.

Lemma ParamList_str_cons i params :
  params ≠ [] → ParamList_str (i :: params) = i ++ FIELD_SEP :: ParamList_str params.
Proof.
  intros Hne. unfold ParamList_str. cbn [concat fmap list_fmap].
  set (s := concat _). assert (1 <= length s)%nat as Hs.
  { subst s. destruct params as [|j params]; [done|]. cbn [concat fmap list_fmap]. rewrite !length_app. simpl. lia. }
  rewrite <- app_assoc. cbn [app]. rewrite length_app. cbn [length].
  replace (length i + S (length s) - 1)%nat with (length i + S (length s - 1))%nat by lia.
  by rewrite take_app_add.
Qed.

(** Parameters without separators and outer white space survive, if there are any. *)
Lemma params_roundtrip params :
  params ≠ [] → Forall (fun i => FIELD_SEP ∉ i ∧ trimmed i) params → ParamList_text (ParamList_str params) = params.
Proof.
  intros Hne H. unfold ParamList_text. induction H as [|i params [Hi Ht] H IH]; [done|].
  destruct (decide (params = [])) as [->|Hp].
  - unfold ParamList_str. cbn. rewrite app_nil_r, length_app. cbn [length].
    replace (length i + 1 - 1)%nat with (length i) by lia. rewrite take_app_length, split_all_none by done.
    cbn. by rewrite strip_trimmed.
  - rewrite ParamList_str_cons, split_all_first by done. cbn [fmap list_fmap].
    by rewrite strip_trimmed, IH.
Qed.

(** A recovery without parameters is loaded with one, the empty text. *)
Lemma no_params_loaded : ParamList [] = Ok [] ∧ convert TParams (text_type (VParams [])) = Some (VParams [[]]).
Proof. done. Qed.

(** A value of the type of its field, whose text survives in a file. *)
Definition fits (t : ftype) (v : value) : Prop :=
  match t, v with
  | TText, VText s => clean s
  | TInt, VInt n => 0 <= n
  | TState, VState _ | TPolicy, VPolicy _ | TPriority, VPriority _ => True
  | TParams, VParams params =>
      params ≠ [] ∧ Forall (fun i => FIELD_SEP ∉ i ∧ trimmed i) params ∧ clean (ParamList_str params)
  | _, _ => False
  end.

Lemma fits_clean t v : fits t v → clean (text_type v).
Proof.
  destruct t, v; simpl; try done.
  - intros Hn. by apply clean_digits, str_d_digits.
  - intros _. destruct s; by apply clean_ascii.
  - intros _. destruct p; by apply clean_ascii.
  - intros _. destruct p; by apply clean_ascii.
  - by intros (_ & _ & ?).
Qed.

Lemma fits_convert t v : fits t v → convert t (text_type v) = Some v.
Proof.
  destruct t, v; simpl; try done.
  - intros Hn. by rewrite py_int_str_d.
  - intros _. by destruct s.
  - intros _. by destruct p.
  - intros _. by destruct p.
  - intros (? & ? & _). by rewrite params_roundtrip.
Qed.

(** ** Objects that survive *)

Definition well_typed (fields : list (text * ftype)) (obj : attrs) : Prop :=
  ∀ f t, (f, t) ∈ fields → ∃ v, dict_get f obj = Some v ∧ fits t v.

Definition same_fields (fields : list (text * ftype)) (a b : attrs) : Prop :=
  ∀ f, f ∈ fields.*1 → dict_get f a = dict_get f b.

(** The tables of fields: different names that survive in a file *)
Definition table (fields : list (text * ftype)) : Prop := NoDup (fields.*1) ∧ Forall clean (fields.*1).

Lemma readers_keys fields : dict_keys (readers fields) = fields.*1.
Proof. unfold dict_keys, readers. rewrite <- list_fmap_compose. apply list_fmap_ext. by intros _ [f t] _. Qed.

Lemma table_kept fields obj f :
  table fields → well_typed fields obj → f ∈ fields.*1 → kept text_type (readers fields) obj f.
Proof.
  intros [Hnd Hc] Hw Hf. split; [by apply (proj1 (Forall_forall _ _) Hc)|].
  apply list_elem_of_fmap in Hf as ([f' t] & -> & Hin). destruct (Hw f' t Hin) as (v & Hv & Hfit).
  exists (convert t), v. split; [|split_and!; [done|by eapply fits_clean|by apply fits_convert]].
  apply dict_get_unique; [by rewrite readers_keys|]. apply list_elem_of_fmap. by exists (f', t).
Qed.

(** One file that was saved and loaded *)
Lemma file_roundtrip name fields obj obj0 :
  table fields → well_typed fields obj →
  ∃ b loaded, save_file name obj fields = Ok (name, b) ∧ _loadMetaFile b obj0 (readers fields) = Ok loaded ∧
    same_fields fields obj loaded.
Proof.
  intros Ht Hw. destruct (meta_file_roundtrip text_type obj obj0 (readers fields)) as (b & l & Es & El & Hg).
  { intros f Hf. rewrite readers_keys in Hf. by apply table_kept. }
  exists b, l. unfold save_file. rewrite Es. split; [done|]. split; [done|].
  intros f Hf. rewrite Hg, readers_keys. by rewrite decide_True.
Qed.

Lemma tables : table Task_fields ∧ table TaskResult_fields ∧ table Job_fields ∧ table Recovery_fields.
Proof.
  split_and!; (split; [apply (bool_decide_unpack (NoDup _)); vm_compute; done|]);
    repeat (apply Forall_cons; split; [by apply clean_ascii|]); by constructor.
Qed.

(** ** Whole tasks *)

Definition numbered (base : text) (n : Z) : text := base ++ NUM_SEP ++ str_d n.

Lemma numbered_roundtrip base n objs fields obj0 :
  table fields → Forall (well_typed fields) objs →
  ∃ fs, save_numbered base n objs fields = Ok fs ∧ fs.*1 = numbered base <$> seqZ n (zlen objs) ∧
    ∀ files, (∀ x b, (x, b) ∈ fs → dict_get x files = Some b) →
      ∃ l, load_numbered files base n (length objs) obj0 fields = Ok l ∧ Forall2 (same_fields fields) objs l.
Proof.
  intros Ht. revert n. induction objs as [|obj objs IH]; intros n Hw.
  { exists []. split; [done|]. split; [done|]. intros files _. exists []. split; [done|constructor]. }
  apply Forall_cons in Hw as [Hobj Hw]. destruct (IH (n + 1) Hw) as (fs & Es & En & Hload).
  destruct (file_roundtrip (numbered base n) fields obj obj0 Ht Hobj) as (b & l & Ef & El & Hs).
  exists ((numbered base n, b) :: fs). split; [|split].
  - cbn [save_numbered]. unfold numbered in Ef. rewrite Ef. cbn. by rewrite Es.
  - cbn. rewrite En. change (zlen (obj :: objs)) with (Z.of_nat (S (length objs))).
    rewrite (seqZ_cons n) by lia. cbn. do 2 f_equal. unfold Z.succ, zlen. f_equal; lia.
  - intros files Hf. destruct (Hload files) as (ls & Els & Hls). { intros x c Hc. apply Hf. by right. }
    exists (l :: ls). split; [|by constructor]. cbn [load_numbered length]. unfold load_file at 1.
    pose proof (Hf (numbered base n) b ltac:(left)) as Hb. unfold numbered in Hb. rewrite Hb, El. cbn. by rewrite Els.
Qed.

Record storable (t : Stored) : Prop := {
  so_id : dict_get (str "id") (task_attrs t) = Some (VText (id_of t)) ∧ 46 ∉ id_of t;
  so_task : ∀ f ty, (f, ty) ∈ Task_fields → f ≠ str "njobs" → f ≠ str "nrecoveries" →
    ∃ v, dict_get f (task_attrs t) = Some v ∧ fits ty v;
  so_result : in_state finished (task_attrs t) = true → well_typed TaskResult_fields (result_attrs t);
  so_jobs : Forall (well_typed Job_fields) (job_attrs t);
  so_recoveries : Forall (well_typed Recovery_fields) (recovery_attrs t);
}.

(** What is kept of a task: its fields, those of its result when it is finished, and
    those of its jobs and recoveries, in order. *)
Record same_task (t t' : Stored) : Prop := {
  sm_task : same_fields Task_fields (task_attrs t) (task_attrs t');
  sm_result : in_state finished (task_attrs t) = true → same_fields TaskResult_fields (result_attrs t) (result_attrs t');
  sm_jobs : Forall2 (same_fields Job_fields) (job_attrs t) (job_attrs t');
  sm_recoveries : Forall2 (same_fields Recovery_fields) (recovery_attrs t) (recovery_attrs t');
}.

Lemma counted_get t f :
  f ≠ str "njobs" → f ≠ str "nrecoveries" → dict_get f (task_attrs (counted t)) = dict_get f (task_attrs t).
Proof. intros H1 H2. unfold counted. cbn [task_attrs]. by rewrite !dict_get_set_ne. Qed.

Lemma counted_njobs t : dict_get (str "njobs") (task_attrs (counted t)) = Some (VInt (zlen (job_attrs t))).
Proof. unfold counted. cbn [task_attrs]. rewrite dict_get_set_ne by done. apply dict_get_set_eq. Qed.

Lemma counted_nrecoveries t :
  dict_get (str "nrecoveries") (task_attrs (counted t)) = Some (VInt (zlen (recovery_attrs t))).
Proof. apply dict_get_set_eq. Qed.

Lemma counted_typed t : storable t → well_typed Task_fields (task_attrs (counted t)).
Proof.
  intros Hs f ty Hin. destruct (decide (f = str "njobs")) as [->|H1].
  { assert (ty = TInt) as -> by (apply (dict_get_unique _ _ Task_fields (proj1 (proj1 tables))) in Hin; by vm_compute in Hin; simplify_eq).
    rewrite counted_njobs. eexists. split; [done|]. apply zlen_nonneg. }
  destruct (decide (f = str "nrecoveries")) as [->|H2].
  { assert (ty = TInt) as -> by (apply (dict_get_unique _ _ Task_fields (proj1 (proj1 tables))) in Hin; by vm_compute in Hin; simplify_eq).
    rewrite counted_nrecoveries. eexists. split; [done|]. apply zlen_nonneg. }
  rewrite counted_get by done. by apply (so_task t Hs).
Qed.

(** The names of the files of a task are different. *)
Lemma numbered_nodup base m : NoDup (numbered base <$> seqZ 0 m).
Proof.
  apply NoDup_fmap_2_strong; [|apply NoDup_seqZ]. intros x y Hx%elem_of_seqZ Hy%elem_of_seqZ E.
  unfold numbered in E. do 2 apply app_inv_head in E. apply str_d_inj; [lia..|done].
Qed.

Lemma names_nodup id (fin : bool) m n :
  NoDup ((id ++ TASK_EXT) :: (if fin then [id ++ RESULT_EXT] else []) ++
         (numbered (id ++ JOB_EXT) <$> seqZ 0 m) ++ (numbered (id ++ RECOVER_EXT) <$> seqZ 0 n)).
Proof.
  assert (∀ x base k, x ∈ numbered (id ++ base) <$> seqZ 0 k → ∃ s, x = id ++ base ++ s) as Hnum.
  { intros x base k (i & -> & _)%list_elem_of_fmap. unfold numbered. rewrite <- app_assoc. by eexists. }
  assert (∀ x, x ∈ (if fin then [id ++ RESULT_EXT] else []) → x = id ++ RESULT_EXT) as Hres.
  { intros x Hx. destruct fin; [by apply list_elem_of_singleton in Hx|by apply elem_of_nil in Hx]. }
  apply NoDup_cons. split.
  { intros [Hx|[Hx|Hx]%elem_of_app]%elem_of_app; [apply Hres in Hx|apply Hnum in Hx as [s Hx]|apply Hnum in Hx as [s Hx]];
      by apply app_inv_head in Hx. }
  apply NoDup_app. split_and!; [destruct fin; [apply NoDup_singleton|constructor]| |].
  { intros x ->%Hres [Hx|Hx]%elem_of_app; apply Hnum in Hx as [s Hx]; by apply app_inv_head in Hx. }
  apply NoDup_app. split_and!; [apply numbered_nodup| |apply numbered_nodup].
  intros x Hx Hy. apply Hnum in Hx as [s ->]. apply Hnum in Hy as [s' Hy]. by apply app_inv_head in Hy.
Qed.

Lemma counted_id t : id_of (counted t) = id_of t.
Proof. unfold id_of, text_attr. by rewrite counted_get. Qed.

Lemma counted_state t s : in_state s (task_attrs (counted t)) = in_state s (task_attrs t).
Proof. unfold in_state. by rewrite counted_get. Qed.

(** What decides how a task is loaded is the same in the task that was saved. *)
Lemma same_task_fields t a :
  storable t → same_fields Task_fields (task_attrs (counted t)) a →
  text_attr (str "id") a = id_of t ∧ in_state finished a = in_state finished (task_attrs t) ∧
  int_attr (str "njobs") a = zlen (job_attrs t) ∧ int_attr (str "nrecoveries") a = zlen (recovery_attrs t).
Proof.
  intros Hs H. unfold text_attr, in_state, int_attr.
  rewrite <- (H (str "id")), <- (H (str "state")), <- (H (str "njobs")), <- (H (str "nrecoveries")) by (vm_compute; set_solver).
  rewrite counted_njobs, counted_nrecoveries, (counted_get _ (str "id")), (counted_get _ (str "state")) by done.
  by rewrite (proj1 (so_id t Hs)).
Qed.

Lemma load_file_get files name b obj fields :
  dict_get name files = Some b → load_file files name obj fields = _loadMetaFile b obj (readers fields).
Proof. unfold load_file. by intros ->. Qed.

(** The file of the result, which only a finished task has *)
Lemma result_roundtrip t obj0 :
  storable t →
  let fin := in_state finished (task_attrs t) in let name := id_of t ++ RESULT_EXT in
  ∃ fs loaded, (if fin then f ← save_file name (result_attrs t) TaskResult_fields; mret [f] else Ok []) = Ok fs ∧
    fs.*1 = (if fin then [name] else []) ∧ (fin = true → same_fields TaskResult_fields (result_attrs t) loaded) ∧
    ∀ files, (∀ x b, (x, b) ∈ fs → dict_get x files = Some b) →
      (if fin then load_file files name obj0 TaskResult_fields else Ok obj0) = Ok loaded.
Proof.
  intros Hs. destruct (in_state finished (task_attrs t)) eqn:Efin; [|by exists [], obj0].
  destruct (file_roundtrip (id_of t ++ RESULT_EXT) _ _ obj0 (proj1 (proj2 tables)) (so_result t Hs Efin)) as (b & l & E & L & H).
  exists [(id_of t ++ RESULT_EXT, b)], l. rewrite E. split_and!; try done.
  intros files Hf. unfold load_file. by rewrite (Hf _ b (list_elem_of_here _ _)).
Qed.

Lemma files_roundtrip t :
  storable t →
  ∃ files t', task_files (counted t) = Ok files ∧ NoDup (files.*1) ∧
    (t0 ← new_task (id_of t); _load t0 files) = Ok t' ∧ same_task (counted t) t'.
Proof.
  intros Hs. destruct tables as (Tt & Tr & Tj & Tc). destruct (so_id t Hs) as [Hid Hdot].
  unfold new_task. rewrite bool_decide_false by done. cbn [mbind res_bind].
  set (t0 := mkStored _ _ _ _). assert (id_of t0 = id_of t) as Hid0 by done.
  destruct (file_roundtrip (id_of t ++ TASK_EXT) _ _ (task_attrs t0) Tt (counted_typed t Hs)) as (bt & a & Et & La & Ha).
  destruct (same_task_fields t a Hs Ha) as (Aid & Afin & Aj & Ar).
  destruct (result_roundtrip t (result_attrs t0) Hs) as (rs & ra & Ers & Nrs & Hra & Lra).
  destruct (numbered_roundtrip (id_of t ++ JOB_EXT) 0 _ _ new_job Tj (so_jobs t Hs)) as (js & Ejs & Njs & Ljs).
  destruct (numbered_roundtrip (id_of t ++ RECOVER_EXT) 0 _ _ new_recovery Tc (so_recoveries t Hs)) as (cs & Ecs & Ncs & Lcs).
  set (files := (id_of t ++ TASK_EXT, bt) :: rs ++ js ++ cs).
  assert (NoDup (dict_keys files)) as Hnd.
  { unfold dict_keys, files. rewrite fmap_cons, !fmap_app, Nrs, Njs, Ncs. apply names_nodup. }
  assert (∀ x b, (x, b) ∈ files → dict_get x files = Some b) as Hget by (intros; by apply dict_get_unique).
  destruct (Ljs files) as (jl & Ljl & Hjl). { intros x b Hx. apply Hget. unfold files. set_solver. }
  destruct (Lcs files) as (cl & Lcl & Hcl). { intros x b Hx. apply Hget. unfold files. set_solver. }
  exists files, (mkStored a ra jl cl). split; [|split; [done|split; [|by split; rewrite ?counted_state]]].
  - unfold task_files. rewrite counted_id, Et, counted_state. cbn [mbind res_bind result_attrs counted job_attrs recovery_attrs].
    rewrite Ers. cbn [mbind res_bind]. rewrite Ejs. cbn [mbind res_bind]. by rewrite Ecs.
  - unfold _load. change (negb (in_state init (task_attrs t0))) with false. cbv iota zeta.
    rewrite Hid0, (load_file_get _ (id_of t ++ TASK_EXT) bt) by (apply Hget; unfold files; left). rewrite La. cbn [mbind res_bind].
    rewrite bool_decide_true by done. cbn [negb]. rewrite Afin, (Lra files) by (intros x b Hx; apply Hget; unfold files; set_solver).
    cbn [mbind res_bind]. rewrite Aj, Ar. unfold zlen. rewrite !Nat2Z.id, Ljl. cbn [mbind res_bind]. by rewrite Lcl.
Qed.

(** C21: Saving and loading tasks.  A task whose texts have no line break, no white
    space at their ends and neither [_eq_] nor [_eq=] inside, and whose recoveries
    have parameters, is saved to its directory and loaded from it with the same
    fields, result, jobs and recoveries; and after a crash at any point of saving,
    what is loaded is that task, or what the directory held before. *)
Theorem task_roundtrip t d old :
  storable t → orig d = Some old →
  ∃ ops d' t', save t d = (counted t, Ok ops) ∧ exec_ops ops d = Some d' ∧
    load (id_of t) d' = Ok t' ∧ same_task (counted t) t' ∧
    ∀ d'', crashed ops d d'' →
      load (id_of t) d'' = Ok t' ∨ load (id_of t) d'' = t0 ← new_task (id_of t); _load t0 old.
Proof.
  intros Hs Ho. destruct (files_roundtrip t Hs) as (files & t' & Ef & Hnd & Hl & Hsame).
  assert (∀ d0 fs, loadTask d0 = Ok fs → load (id_of t) d0 = t0 ← new_task (id_of t); _load t0 fs) as Hload.
  { intros d0 fs E. unfold load. rewrite E. done. }
  exists (_save_ops files d), (mkDisk (Some files) None None), t'.
  split_and!; [|by eapply save_runs|by rewrite (Hload _ files)|done|].
  - unfold save, _save. by rewrite Ho, Ef.
  - intros d'' [E|E]%(save_crashes old); [|left; by rewrite (Hload _ files)|done..]. right. by apply Hload.
Qed.
