(* ===== verification/TaskWitness.v ===== *)
(** * Tasks: concrete runs

    The theorems about tasks and their store applied to one small program: a
    prepare function that adds two jobs and two recoveries, a job that succeeds, one
    that fails, and a recovery. *)
From Stdlib Require Import ZArith Lia.
From stdpp Require Import base sets list strings.
From S2P Require Import Prelude Text Wp Task TaskFacts TaskSettle TaskSpec TaskOps TaskMain TaskStore TaskLoad.

(** Functions: 0 prepares, 1 is a job, 2 a job that fails, 3 a recovery, 4 prepares a
    task with one job that succeeds, 5 takes a resource and returns a value. *)
Definition sample_script (c : nat) (t : Task) : list call * res exn (option text) :=
  if bool_decide (state t = recovering) then ([], Ok None)
  else match c with
  | 0%nat => ([CSetManager; CAddJob (mkJob (str "create") 1); CAddJob (mkJob (str "copy") 2);
               CPushRecovery (mkRecovery (str "undo create") 3); CPushRecovery (mkRecovery (str "undo copy") 3)], Ok None)
  | 2%nat => ([], Raise (OtherException (str "no space")))
  | 4%nat => ([CSetManager; CAddJob (mkJob (str "create") 1)], Ok None)
  | 5%nat => ([CAcquired (str "image")], Ok (Some (str "done")))
  | _ => ([], Ok None)
  end.

Lemma sample_kept : recoveries_kept sample_script.
Proof. intros c t H. unfold sample_script. rewrite bool_decide_true by done. constructor. Qed.

Definition no_error (_ : Task) : option exn := None.
Definition sample_str (e : exn) : text := match e with OtherException m => m | _ => str "error" end.

Abbreviation sample_prepare := (prepare sample_script no_error no_error no_error sample_str).
Abbreviation sample_commit := (commit sample_script no_error no_error no_error sample_str).
Abbreviation sample_stop := (stop_task sample_script no_error no_error no_error sample_str).
Abbreviation sample_recover := (recover sample_script no_error no_error no_error sample_str).
Abbreviation sample_op := (run_op sample_script no_error no_error no_error sample_str).

Definition new_task (p : policy) : Task := Task_init (str "42") p [].

(** The task with two jobs, queued. *)
Definition queued_task (p : policy) : Task := fst (sample_prepare (Some 0%nat) (new_task p)).

(** A task that crashed while it ran its recoveries. *)
Definition crashed_task : Task := set_state (queued_task auto) recovering.

Lemma new_quiescent p : quiescent (new_task p).
Proof. by split; [| |left|]. Qed.

Lemma queued_quiescent p : quiescent (queued_task p).
Proof. destruct p; (split; [reflexivity|reflexivity|right; left|discriminate]). Qed.

(** The task that holds a resource ends; its resources are released. *)
Lemma operations_settle_witness :
  quiescent (fst (sample_op (OPrepare (Some 5%nat)) (new_task none))) ∧
  state (fst (sample_op (OPrepare (Some 5%nat)) (new_task none))) = finished.
Proof.
  split; [|vm_compute; reflexivity].
  exact (proj1 (operations_settle sample_script no_error no_error no_error sample_str (OPrepare (Some 5%nat)) (new_task none)
    _ _ sample_kept (new_quiescent none) (surjective_pairing _))).
Defined.

Lemma prepare_outcome_witness :
  jobs_ran (queued_task auto) = [] ∧ state (queued_task auto) = queued ∧ job_name <$> jobs (queued_task auto) = [str "create"; str "copy"].
Proof.
  destruct (prepare_outcome sample_script no_error no_error no_error sample_str (Some 0%nat) (new_task auto)
    (queued_task auto) (Ok (Some (str "42"))) sample_kept (new_quiescent auto) eq_refl) as (_ & Hj & _).
  - vm_compute. reflexivity.
  - split; [exact Hj|]. vm_compute. by split.
Defined.

(** The second job fails: both jobs ran, and the task is recovered. *)
Lemma commit_outcome_witness :
  ∃ k, k `prefix_of` [str "create"; str "copy"] ∧ jobs_ran (fst (sample_commit (queued_task auto))) = k ∧
    k = [str "create"; str "copy"] ∧ state (fst (sample_commit (queued_task auto))) = recovered.
Proof.
  destruct (commit_outcome sample_script no_error no_error no_error sample_str (queued_task auto) _ _
    sample_kept (queued_quiescent auto) eq_refl (surjective_pairing _)) as (_ & k & Hk & Hr & _).
  exists k. split; [exact Hk|]. split; [exact Hr|].
  assert (jobs_ran (fst (sample_commit (queued_task auto))) = [str "create"; str "copy"]) as E by (vm_compute; reflexivity).
  split; [|vm_compute; reflexivity]. rewrite E in Hr. symmetry. exact Hr.
Defined.

(** With automatic recovery the recoveries run from the last; with manual recovery
    the call raises. *)
Lemma stop_outcome_witness :
  recs_ran (fst (sample_stop false (queued_task auto))) = [str "undo copy"; str "undo create"] ∧
  snd (sample_stop false (queued_task manual)) = Raise (Err TaskStateTransitionError) ∧
  state (fst (sample_stop false (queued_task manual))) = waitrecover.
Proof.
  split; [vm_compute; reflexivity|].
  destruct (stop_outcome sample_script no_error no_error no_error sample_str false (queued_task manual) _ _
    sample_kept (queued_quiescent manual) (surjective_pairing _)) as [_ (Hr & Hs & _)].
  exact (conj Hr Hs).
Defined.

(** A task that crashed during its recovery is recovered after the restart. *)
Lemma recover_outcome_witness :
  snd (sample_recover crashed_task) = Ok () ∧ state (fst (sample_recover crashed_task)) = recovered ∧
  recs_ran (fst (sample_recover crashed_task)) = [str "undo copy"; str "undo create"].
Proof.
  destruct (recover_outcome sample_script no_error no_error no_error sample_str crashed_task _ _
    sample_kept ltac:(by split) (surjective_pairing _)) as (_ & _ & _ & Hr & _).
  split; [exact Hr|]. vm_compute. by split.
Defined.

(** ** The store *)

(** A finished task with one job and one recovery with two parameters *)
Definition sample_task : Stored :=
  mkStored
    [(str "metadataVersion", VInt 1); (str "id", VText (str "42")); (str "name", VText (str "createVolume"));
     (str "tag", VText (str "a = b")); (str "priority", VPriority low); (str "recoveryPolicy", VPolicy auto);
     (str "persistPolicy", VPolicy auto); (str "cleanPolicy", VPolicy manual); (str "store", VText (str "/store"));
     (str "state", VState finished); (str "nrecoveries", VInt 0); (str "njobs", VInt 0)]
    [(str "code", VInt 0); (str "message", VText (str "1 jobs completed successfully")); (str "result", VText [])]
    [[(str "name", VText (str "create")); (str "runcmd", VText (str "create (args: () kwargs: {})"))]]
    [[(str "name", VText (str "undo")); (str "object", VText (str "Volume")); (str "moduleName", VText (str "volume"));
      (str "function", VText (str "rollback")); (str "params", VParams [str "sd"; str "img"])]].

Ltac typed :=
  repeat match goal with
  | H : (_, _) ∈ _ :: _ |- _ => apply elem_of_cons in H as [H|H]; [injection H as -> ->|]
  | H : (_, _) ∈ [] |- _ => by apply elem_of_nil in H
  | |- ∃ v, dict_get _ _ = Some v ∧ fits _ v => eexists; split; [vm_compute; reflexivity|]
  | |- fits TText _ => by apply clean_ascii
  | |- fits TInt _ => by vm_compute
  | |- fits TParams _ => split_and!; [done|repeat constructor; try (by intros c [=]; subst); vm_compute; set_solver|by apply clean_ascii]
  | |- fits _ _ => exact I
  end.

Lemma sample_storable : storable sample_task.
Proof.
  split.
  - split; [reflexivity|]. vm_compute. set_solver.
  - intros f ty Hin _ _. unfold Task_fields in Hin. typed.
  - intros _ f ty Hin. unfold TaskResult_fields in Hin. typed.
  - repeat constructor. intros f ty Hin. unfold Job_fields in Hin. typed.
  - repeat constructor. intros f ty Hin. unfold Recovery_fields in Hin. typed.
Qed.

Lemma task_roundtrip_witness :
  ∃ ops d' t', save sample_task (mkDisk (Some []) None None) = (counted sample_task, Ok ops) ∧
    exec_ops ops (mkDisk (Some []) None None) = Some d' ∧ load (str "42") d' = Ok t' ∧ same_task (counted sample_task) t'.
Proof.
  destruct (task_roundtrip sample_task (mkDisk (Some []) None None) [] sample_storable eq_refl)
    as (ops & d' & t' & Hs & He & Hl & Hsame & _).
  exists ops, d', t'. split; [exact Hs|]. split; [exact He|]. split; [exact Hl|exact Hsame].
Defined.

Definition sample_disk : disk := mkDisk (Some [(str "42.task", [1; 2])]) (Some []) None.

(** A crash in the middle of a write leaves the old task. *)
Lemma save_crash_safe_witness :
  ∃ ops d', _save [(str "42.task", [3; 4])] sample_disk = Ok ops ∧ crashed ops sample_disk d' ∧
    temp d' = Some [(str "42.task", [3])] ∧
    (loadTask d' = Ok [(str "42.task", [1; 2])] ∨ loadTask d' = Ok [(str "42.task", [3; 4])]).
Proof.
  destruct (save_crash_safe [(str "42.task", [1; 2])] [(str "42.task", [3; 4])] sample_disk) as (ops & Ho & _ & Hc).
  - reflexivity.
  - apply NoDup_singleton.
  - injection Ho as <-. eexists _, (mkDisk (Some [(str "42.task", [1; 2])]) (Some [(str "42.task", [3])]) None).
    assert (crashed (_save_ops [(str "42.task", [3; 4])] sample_disk) sample_disk
      (mkDisk (Some [(str "42.task", [1; 2])]) (Some [(str "42.task", [3])]) None)) as Hx.
    { eapply crash_later; [reflexivity|]. eapply crash_later; [reflexivity|]. apply crash_torn.
      apply (torn_write Temp (str "42.task") [3; 4] [3] [] (mkDisk (Some [(str "42.task", [1; 2])]) (Some []) None)); [reflexivity|].
      exists [4]. reflexivity. }
    split; [reflexivity|]. split; [exact Hx|]. split; [reflexivity|]. exact (Hc _ Hx).
Defined.
