(* ===== verification/Stomp.v ===== *)
(** * STOMP framing: [yajsonrpc/stomp.py]

    Encoding of frames and the incremental parser that the JSON-RPC server feeds
    with what arrives on a connection. *)
From Stdlib Require Import ZArith Lia.
From stdpp Require Import base sets list strings relations.
From S2P Require Import Prelude Text.

Inductive error := ValueError | RuntimeError | AttributeError.

Definition CONTENT_LENGTH : text := str "content-length".

(** ** Values *)

(** [_EC_ENCODE_MAP] *)
Definition escape (c : Z) : bytes :=
  if c =? 58 then [92; 99]
  else if c =? 92 then [92; 92]
  else if c =? 13 then [92; 114]
  else if c =? 10 then [92; 110]
  else [c].

(** [encode_value] of a text *)
Definition encode_value (s : text) : res error bytes :=
  match utf8_encode s with
  | Some b => Ok (concat (escape <$> b))
  | None => Raise ValueError
  end.

(** [_EC_DECODE_MAP]: the byte for the character after a backslash *)
Definition unescape (c : Z) : option Z :=
  if c =? 92 then Some 92
  else if c =? 114 then Some 13
  else if c =? 110 then Some 10
  else if c =? 99 then Some 58
  else None.

(** [_RE_ESCAPE_SEQUENCE.sub]: the dot of the expression does not match a newline.
    [None] is a KeyError of the map. *)
Fixpoint unescape_all (s : bytes) : option bytes :=
  match s with
  | [] => Some []
  | c :: s' =>
      if c =? 92 then
        match s' with
        | [] => Some [c]
        | d :: s'' =>
            if d =? 10 then cons c <$> unescape_all s'
            else match unescape d with
                 | Some x => cons x <$> unescape_all s''
                 | None => None
                 end
        end
      else cons c <$> unescape_all s'
  end.

Definition decode_value (s : bytes) : res error text :=
  if bool_decide (58 ∈ s) then Raise ValueError
  else match unescape_all s with
       | None => Raise ValueError
       | Some b => match utf8_decode b with Some t => Ok t | None => Raise ValueError end
       end.

(** ** Frames *)

Record Frame := mkFrame { command : text; headers : list (text * text); body : option bytes }.

(** [for key, value in headers]: the header lines *)
Fixpoint encode_headers (hs : list (text * text)) : res error bytes :=
  match hs with
  | [] => Ok []
  | (k, v) :: hs' =>
      ek ← encode_value k;
      ev ← encode_value v;
      rest ← encode_headers hs';
      mret (ek ++ [58] ++ ev ++ [10] ++ rest)
  end.

(** The headers of a frame when it is encoded: the length of the body is set. *)
Definition sent_headers (f : Frame) : list (text * text) :=
  match body f with
  | Some b => dict_set CONTENT_LENGTH (str_d (zlen b)) (headers f)
  | None => headers f
  end.

(** [Frame.encode] *)
Definition encode (f : Frame) : res error bytes :=
  c ← encode_value (command f);
  hs ← encode_headers (sent_headers f);
  mret (c ++ [10] ++ hs ++ [10] ++ default [] (body f) ++ [0]).

(** [_HeartbeatFrame.encode] *)
Definition heartbeat : bytes := [10].

(** ** The parser *)

Inductive pstate := STATE_CMD | STATE_HEADER | STATE_BODY.

Record Parser := mkParser {
  _state : pstate;
  _buffer : bytes;
  _frames : list Frame;
  _tmp_frame : option Frame;
  _content_length : Z;
}.

Definition Parser_init : Parser := mkParser STATE_CMD [] [] None (-1).

(** [_handle_terminator]: the bytes before the terminator, and the rest. *)
Definition _handle_terminator (term : Z) (buf : bytes) : option (bytes * bytes) := split_first term buf.

(** [if line[-1:] == b"\r": line = line[:-1]] *)
Definition chomp (line : bytes) : bytes :=
  if bool_decide (last line = Some 13) then take (length line - 1) line else line.

Abbreviation PM A := (M Parser error A).

Definition _parse_command : PM bool := fun p =>
  match _handle_terminator 10 (_buffer p) with
  | None => (p, Ok false)
  | Some (cmd, rest) =>
      let p1 := mkParser (_state p) rest (_frames p) (_tmp_frame p) (_content_length p) in
      let cmd := chomp cmd in
      match cmd with
      | [] => (p1, Ok true)
      | _ =>
          match decode_value cmd with
          | Raise e => (p1, Raise e)
          | Ok c => (mkParser STATE_HEADER rest (_frames p) (Some (mkFrame c [] None)) (_content_length p), Ok true)
          end
      end
  end.

(** [headers.setdefault(key, value)] *)
Definition setdefault (k v : text) (hs : list (text * text)) : list (text * text) :=
  if bool_decide (is_Some (dict_get k hs)) then hs else hs ++ [(k, v)].

Definition _parse_header : PM bool := fun p =>
  match _handle_terminator 10 (_buffer p), _tmp_frame p with
  | None, _ => (p, Ok false)
  | Some (_, rest), None => (mkParser (_state p) rest (_frames p) None (_content_length p), Raise AttributeError)
  | Some (header, rest), Some f =>
      let p1 := mkParser (_state p) rest (_frames p) (_tmp_frame p) (_content_length p) in
      let header := chomp header in
      match header with
      | [] =>
          match match dict_get CONTENT_LENGTH (headers f) with Some v => py_int_str v | None => Some (-1) end with
          | None => (p1, Raise ValueError)
          | Some n => (mkParser STATE_BODY rest (_frames p) (_tmp_frame p) n, Ok true)
          end
      | _ =>
          match split_first 58 header with
          | None => (p1, Raise ValueError)
          | Some (k, v) =>
              match decode_value k with
              | Raise e => (p1, Raise e)
              | Ok k =>
                  match decode_value v with
                  | Raise e => (p1, Raise e)
                  | Ok v =>
                      (mkParser (_state p) rest (_frames p)
                         (Some (mkFrame (command f) (setdefault k v (headers f)) (body f))) (_content_length p), Ok true)
                  end
              end
          end
      end
  end.

(** [_push_frame], of the frame with its body *)
Definition _push_frame (f : Frame) (rest data : bytes) (p : Parser) : Parser :=
  mkParser STATE_CMD rest (_frames p ++ [mkFrame (command f) (headers f) (Some data)]) None (-1).

Definition _parse_body_terminator : PM bool := fun p =>
  match _handle_terminator 0 (_buffer p), _tmp_frame p with
  | None, _ => (p, Ok false)
  | Some (_, rest), None => (mkParser (_state p) rest (_frames p) None (_content_length p), Raise AttributeError)
  | Some (data, rest), Some f => (_push_frame f rest data p, Ok true)
  end.

Definition _parse_body_length : PM bool := fun p =>
  let buf := _buffer p in
  let cl := _content_length p in
  if zlen buf <? cl + 1 then (p, Ok false)
  else if negb (bool_decide (buf !! Z.to_nat cl = Some 0)) then (p, Raise RuntimeError)
  else match _tmp_frame p with
       | None => (mkParser (_state p) (slice (cl + 1) (zlen buf) buf) (_frames p) None cl, Raise AttributeError)
       | Some f => (_push_frame f (slice (cl + 1) (zlen buf) buf) (slice 0 cl buf) p, Ok true)
       end.

Definition _parse_body : PM bool := fun p =>
  if 0 <=? _content_length p then _parse_body_length p else _parse_body_terminator p.

Definition _state_cb : PM bool := fun p =>
  match _state p with
  | STATE_CMD => _parse_command p
  | STATE_HEADER => _parse_header p
  | STATE_BODY => _parse_body p
  end.

(** [while self._state_cb(): pass]; every step that succeeds takes a byte from the
    buffer, so [fuel] of more than its length is enough. *)
Fixpoint parse_loop (fuel : nat) : PM unit := fun p =>
  match fuel with
  | O => (p, Ok ())
  | S fuel' =>
      match _state_cb p with
      | (p', Ok true) => parse_loop fuel' p'
      | (p', Ok false) => (p', Ok ())
      | (p', Raise e) => (p', Raise e)
      end
  end.

Definition write_buffer (data : bytes) (p : Parser) : Parser :=
  mkParser (_state p) (_buffer p ++ data) (_frames p) (_tmp_frame p) (_content_length p).

Definition parse (data : bytes) : PM unit := fun p =>
  let p1 := write_buffer data p in
  parse_loop (S (length (_buffer p1))) p1.

Definition pop_frame (p : Parser) : Parser * option Frame :=
  match _frames p with
  | [] => (p, None)
  | f :: fs => (mkParser (_state p) (_buffer p) fs (_tmp_frame p) (_content_length p), Some f)
  end.

Definition pending (p : Parser) : Z := zlen (_frames p).

(** Several chunks in sequence, as they arrive; an error ends the connection. *)
Fixpoint parse_all (chunks : list bytes) : PM unit := fun p =>
  match chunks with
  | [] => (p, Ok ())
  | c :: chunks' =>
      match parse c p with
      | (p', Ok _) => parse_all chunks' p'
      | (p', Raise e) => (p', Raise e)
      end
  end.

(** ** Chunks *)

(** A step that succeeds consumes input, and would do the same with more of it. *)
Lemma split_first_length c s a b : split_first c s = Some (a, b) → length s = S (length a + length b).
Proof.
  revert a b. induction s as [|x s IH]; intros a b; [done|]. simpl. destruct (x =? c); [by intros [= <- <-]|].
  destruct (split_first c s) as [[a' b']|]; [|done]. intros [= <- <-]. simpl. by rewrite (IH a' b').
Qed.

Lemma split_first_more c s a b more : split_first c s = Some (a, b) → split_first c (s ++ more) = Some (a, b ++ more).
Proof.
  revert a b. induction s as [|x s IH]; intros a b; [done|]. simpl. destruct (x =? c); [by intros [= <- <-]|].
  destruct (split_first c s) as [[a' b']|]; [|done]. intros [= <- <-]. by rewrite (IH a' b').
Qed.

Lemma step_more p p' more :
  _state_cb p = (p', Ok true) →
  _state_cb (write_buffer more p) = (write_buffer more p', Ok true) ∧ (length (_buffer p') < length (_buffer p))%nat.
Proof.
  unfold _state_cb. cbn [_state write_buffer]. destruct (_state p).
  - unfold _parse_command, _handle_terminator. cbn [_buffer write_buffer].
    destruct (split_first 10 (_buffer p)) as [[cmd rest]|] eqn:E; [|done].
    rewrite (split_first_more _ _ _ _ more E). pose proof (split_first_length _ _ _ _ E). simpl.
    destruct (chomp cmd); [intros [= <-]; split; [done|simpl; lia]|].
    destruct (decode_value _); [|done]. intros [= <-]. split; [done|simpl; lia].
  - unfold _parse_header, _handle_terminator. cbn [_buffer _tmp_frame write_buffer].
    destruct (split_first 10 (_buffer p)) as [[h rest]|] eqn:E; [|done].
    rewrite (split_first_more _ _ _ _ more E). pose proof (split_first_length _ _ _ _ E).
    destruct (_tmp_frame p); [|done]. simpl. destruct (chomp h).
    + destruct (match dict_get _ _ with Some v => _ | None => _ end); [|done]. intros [= <-]. split; [done|simpl; lia].
    + destruct (split_first 58 _) as [[k v]|]; [|done]. destruct (decode_value k); [|done]. destruct (decode_value v); [|done].
      intros [= <-]. split; [done|simpl; lia].
  - unfold _parse_body. cbn [_content_length write_buffer]. destruct (Z.leb_spec 0 (_content_length p)) as [Hcl|Hcl].
    + unfold _parse_body_length. cbn [_buffer _content_length _tmp_frame write_buffer].
      destruct (Z.ltb_spec (zlen (_buffer p)) (_content_length p + 1)) as [|Hlen]; [done|].
      destruct (Z.ltb_spec (zlen (_buffer p ++ more)) (_content_length p + 1)) as [Hl|_].
      { rewrite zlen_app in Hl. pose proof (zlen_nonneg more). lia. }
      unfold zlen in Hlen. rewrite lookup_app_l by lia. case_bool_decide; simpl; [|done].
      destruct (_tmp_frame p); [|done]. intros [= <-]. split.
      * f_equal. unfold _push_frame, write_buffer. simpl. f_equal.
        -- rewrite zlen_app. unfold slice, zlen. rewrite drop_app_le by lia.
           rewrite take_ge; [f_equal; rewrite take_ge by (rewrite length_drop; lia); done|].
           rewrite length_app, length_drop. lia.
        -- rewrite slice_app_l by (unfold zlen; lia). done.
      * simpl. unfold slice. rewrite length_take, length_drop. unfold zlen. lia.
    + unfold _parse_body_terminator, _handle_terminator. cbn [_buffer _tmp_frame write_buffer].
      destruct (split_first 0 (_buffer p)) as [[d rest]|] eqn:E; [|done].
      rewrite (split_first_more _ _ _ _ more E). pose proof (split_first_length _ _ _ _ E).
      destruct (_tmp_frame p); [|done]. intros [= <-]. split; [done|simpl; lia].
Qed.

Lemma step_error_more p p' e more :
  _state_cb p = (p', Raise e) → ∃ p2, _state_cb (write_buffer more p) = (p2, Raise e).
Proof.
  unfold _state_cb. cbn [_state write_buffer]. destruct (_state p).
  - unfold _parse_command, _handle_terminator. cbn [_buffer write_buffer].
    destruct (split_first 10 (_buffer p)) as [[cmd rest]|] eqn:E; [|done].
    rewrite (split_first_more _ _ _ _ more E). destruct (chomp cmd); [done|].
    destruct (decode_value _); [done|]. intros [= _ <-]. by eexists.
  - unfold _parse_header, _handle_terminator. cbn [_buffer _tmp_frame write_buffer].
    destruct (split_first 10 (_buffer p)) as [[h rest]|] eqn:E; [|done].
    rewrite (split_first_more _ _ _ _ more E). destruct (_tmp_frame p); [|intros [= _ <-]; by eexists].
    destruct (chomp h).
    + destruct (match dict_get _ _ with Some v => _ | None => _ end); [done|]. intros [= _ <-]. by eexists.
    + destruct (split_first 58 _) as [[k v]|]; [|intros [= _ <-]; by eexists].
      destruct (decode_value k); [|intros [= _ <-]; by eexists]. destruct (decode_value v); [done|]. intros [= _ <-]. by eexists.
  - unfold _parse_body. cbn [_content_length write_buffer]. destruct (Z.leb_spec 0 (_content_length p)) as [Hcl|Hcl].
    + unfold _parse_body_length. cbn [_buffer _content_length _tmp_frame write_buffer].
      destruct (Z.ltb_spec (zlen (_buffer p)) (_content_length p + 1)) as [|Hlen]; [done|].
      destruct (Z.ltb_spec (zlen (_buffer p ++ more)) (_content_length p + 1)) as [Hl|_].
      { rewrite zlen_app in Hl. pose proof (zlen_nonneg more). lia. }
      unfold zlen in Hlen. rewrite lookup_app_l by lia. case_bool_decide; simpl; [|intros [= _ <-]; by eexists].
      destruct (_tmp_frame p); [done|]. intros [= _ <-]. by eexists.
    + unfold _parse_body_terminator, _handle_terminator. cbn [_buffer _tmp_frame write_buffer].
      destruct (split_first 0 (_buffer p)) as [[d rest]|] eqn:E; [|done].
      rewrite (split_first_more _ _ _ _ more E). destruct (_tmp_frame p); [done|]. intros [= _ <-]. by eexists.
Qed.

Lemma step_false p p' : _state_cb p = (p', Ok false) → p' = p.
Proof.
  unfold _state_cb, _parse_command, _parse_header, _parse_body, _parse_body_length, _parse_body_terminator.
  intros H. repeat case_match; by simplify_eq.
Qed.

Definition pstep (p q : Parser) : Prop := _state_cb p = (q, Ok true).

(** The parser has taken what it can from its buffer. *)
Definition stalled (p : Parser) : Prop := _state_cb p = (p, Ok false).

Definition drains (p q : Parser) : Prop := rtc pstep p q ∧ stalled q.

Lemma loop_drains fuel p q : drains p q → (length (_buffer p) < fuel)%nat → parse_loop fuel p = (q, Ok ()).
Proof.
  intros [Hs Hq]. revert fuel. induction Hs as [p|p p1 q Hp Hs IH]; intros fuel Hf; (destruct fuel as [|fuel]; [lia|]); simpl.
  - by rewrite Hq.
  - rewrite Hp. apply IH; [done|]. destruct (step_more p p1 [] Hp). lia.
Qed.

(** The loop ends: it drains the buffer or meets an error. *)
Lemma loop_ends fuel p :
  (length (_buffer p) < fuel)%nat →
  ∃ q, rtc pstep p q ∧ (stalled q ∧ parse_loop fuel p = (q, Ok ()) ∨ ∃ q' e, _state_cb q = (q', Raise e)).
Proof.
  revert p. induction fuel as [|fuel IH]; intros p Hf; [lia|]. simpl.
  destruct (_state_cb p) as [p1 [[]|e]] eqn:E.
  - destruct (step_more p p1 [] E) as [_ Hl]. destruct (IH p1) as (q & Hs & Hq); [lia|].
    exists q. split; [by eapply rtc_l|done].
  - pose proof (step_false _ _ E) as ->. exists p. split; [done|]. left. done.
  - exists p. split; [done|]. right. eauto.
Qed.

Lemma steps_more p q more : rtc pstep p q → rtc pstep (write_buffer more p) (write_buffer more q).
Proof.
  induction 1 as [p|p p1 q Hp Hs IH]; [done|]. eapply rtc_l; [|exact IH]. by apply step_more.
Qed.

(** Steps are deterministic: another path ends in the same parser. *)
Lemma steps_join p q r : rtc pstep p q → rtc pstep p r → stalled r → rtc pstep q r.
Proof.
  intros Hq. revert r. induction Hq as [p|p p1 q Hp Hs IH]; intros r Hr Hst; [done|].
  inversion Hr as [|? p2 ? Hp2 Hs2]; subst.
  - unfold stalled in Hst. unfold pstep in Hp. congruence.
  - apply IH; [|done]. unfold pstep in *. rewrite Hp in Hp2. by simplify_eq.
Qed.

Lemma write_buffer_app a b p : write_buffer (a ++ b) p = write_buffer b (write_buffer a p).
Proof. unfold write_buffer. simpl. by rewrite app_assoc. Qed.

Lemma write_buffer_nil p : write_buffer [] p = p.
Proof. destruct p. unfold write_buffer. simpl. by rewrite app_nil_r. Qed.

(** Chunks do not matter. *)
Lemma parse_all_drains chunks p r :
  stalled p → drains (write_buffer (concat chunks) p) r → parse_all chunks p = (r, Ok ()).
Proof.
  revert p. induction chunks as [|c chunks IH]; intros p Hp [Hs Hr]; cbn [concat parse_all] in *.
  - rewrite write_buffer_nil in Hs. inversion Hs as [|? p1 ? Hp1]; subst; [done|].
    unfold stalled in Hp. unfold pstep in Hp1. congruence.
  - rewrite write_buffer_app in Hs. unfold parse.
    destruct (loop_ends (S (length (_buffer (write_buffer c p)))) (write_buffer c p)) as (q & Hq & Hend); [lia|].
    pose proof (steps_join _ _ _ (steps_more _ _ (concat chunks) Hq) Hs Hr) as Hrest.
    destruct Hend as [[Hst ->] | (q' & e & He)].
    + apply IH; [done|]. split; [exact Hrest|done].
    + exfalso. destruct (step_error_more _ _ _ (concat chunks) He) as [p2 He2].
      inversion Hrest as [|? p1 ? Hp1]; subst.
      * unfold stalled in Hr. congruence.
      * unfold pstep in Hp1. congruence.
Qed.


(** ** Escaping *)

Lemma escape_safe c x : x ∈ escape c → x ≠ 10 ∧ x ≠ 13 ∧ x ≠ 58.
Proof.
  unfold escape. destruct (Z.eqb_spec c 58), (Z.eqb_spec c 92), (Z.eqb_spec c 13), (Z.eqb_spec c 10);
    intros Hx; repeat (apply elem_of_cons in Hx as [->|Hx]; [lia|]); by apply elem_of_nil in Hx.
Qed.

Lemma unescape_escape c s : unescape_all (escape c ++ s) = cons c <$> unescape_all s.
Proof.
  unfold escape. destruct (Z.eqb_spec c 58) as [->|]; [done|]. destruct (Z.eqb_spec c 92) as [->|]; [done|].
  destruct (Z.eqb_spec c 13) as [->|]; [done|]. destruct (Z.eqb_spec c 10) as [->|]; [done|].
  simpl. by rewrite (proj2 (Z.eqb_neq c 92)).
Qed.

Lemma unescape_escape_all b : unescape_all (concat (escape <$> b)) = Some b.
Proof. induction b as [|c b IH]; [done|]. cbn [concat fmap list_fmap]. by rewrite unescape_escape, IH. Qed.

Lemma escape_nonempty c : escape c ≠ [].
Proof. unfold escape. by repeat case_match. Qed.

Lemma escape_all_safe b x : x ∈ concat (escape <$> b) → x ≠ 10 ∧ x ≠ 13 ∧ x ≠ 58.
Proof.
  induction b as [|c b IH]; cbn [concat fmap list_fmap]; [by intros ?%elem_of_nil|].
  intros [?%escape_safe|?]%elem_of_app; auto.
Qed.

Lemma encode_value_safe s e x : encode_value s = Ok e → x ∈ e → x ≠ 10 ∧ x ≠ 13 ∧ x ≠ 58.
Proof. unfold encode_value. destruct (utf8_encode s); [|done]. intros [= <-]. apply escape_all_safe. Qed.

(** A byte that is not in the encoding [He] is of. *)
Ltac unsafe He := let H := fresh in intros H; apply (encode_value_safe _ _ _ He) in H; lia.

Lemma encode_value_nonempty s e : encode_value s = Ok e → s ≠ [] → e ≠ [].
Proof.
  unfold encode_value. destruct (utf8_encode s) as [b|] eqn:E; [|done]. intros [= <-] Hs He. apply Hs.
  destruct b as [|c b]; [apply utf8_roundtrip in E; cbn in E; congruence|].
  cbn in He. apply app_eq_nil in He as [He _]. by apply escape_nonempty in He.
Qed.

Lemma decode_encode_value s e : encode_value s = Ok e → decode_value e = Ok s.
Proof.
  intros He. unfold decode_value. rewrite bool_decide_false by unsafe He.
  unfold encode_value in He. destruct (utf8_encode s) as [b|] eqn:E; [|done]. injection He as <-.
  by rewrite unescape_escape_all, (utf8_roundtrip _ _ E).
Qed.

(** ** One frame *)

Lemma chomp_id line : 13 ∉ line → chomp line = line.
Proof. intros H. unfold chomp. case_bool_decide as E; [|done]. by apply last_Some_elem_of in E. Qed.

Lemma step_cmd cmd c rest fs n tmp :
  encode_value cmd = Ok c → cmd ≠ [] →
  pstep (mkParser STATE_CMD (c ++ 10 :: rest) fs tmp n) (mkParser STATE_HEADER rest fs (Some (mkFrame cmd [] None)) n).
Proof.
  intros He Hne. unfold pstep, _state_cb, _parse_command, _handle_terminator. cbn [_state _buffer].
  rewrite split_first_app by unsafe He. cbn.
  rewrite chomp_id by unsafe He.
  pose proof (encode_value_nonempty _ _ He Hne) as Hc. rewrite (decode_encode_value _ _ He). by destruct c.
Qed.

Lemma step_heartbeat rest fs n tmp : pstep (mkParser STATE_CMD (heartbeat ++ rest) fs tmp n) (mkParser STATE_CMD rest fs tmp n).
Proof. reflexivity. Qed.

Lemma setdefault_new k v hs : k ∉ dict_keys hs → setdefault k v hs = hs ++ [(k, v)].
Proof.
  intros H%dict_get_None. unfold setdefault. rewrite bool_decide_false; [done|]. rewrite H. by intros [].
Qed.

Lemma step_header k v ek ev rest fs n cmd hs b :
  encode_value k = Ok ek → encode_value v = Ok ev → k ∉ dict_keys hs →
  pstep (mkParser STATE_HEADER (ek ++ [58] ++ ev ++ [10] ++ rest) fs (Some (mkFrame cmd hs b)) n)
        (mkParser STATE_HEADER rest fs (Some (mkFrame cmd (hs ++ [(k, v)]) b)) n).
Proof.
  intros Hk Hv Hn. unfold pstep, _state_cb, _parse_header, _handle_terminator. cbn [_state _buffer _tmp_frame].
  assert (∀ x, x ∈ ek ++ [58] ++ ev → x ≠ 10 ∧ x ≠ 13) as Hsafe.
  { intros x [Hx|[->%list_elem_of_singleton|Hx]%elem_of_app]%elem_of_app; [|lia|].
    - destruct (encode_value_safe _ _ _ Hk Hx). tauto.
    - destruct (encode_value_safe _ _ _ Hv Hx). tauto. }
  replace (ek ++ [58] ++ ev ++ [10] ++ rest) with ((ek ++ [58] ++ ev) ++ 10 :: rest) by by rewrite <- !app_assoc.
  rewrite split_first_app by (intros Hin; apply Hsafe in Hin; lia).
  rewrite chomp_id by (intros Hin; apply Hsafe in Hin; lia).
  assert (ek ++ [58] ++ ev ≠ []) as Hne by by destruct ek.
  change ([58] ++ ev) with (58 :: ev) in *. rewrite split_first_app by unsafe Hk.
  rewrite (decode_encode_value _ _ Hk), (decode_encode_value _ _ Hv). cbn [headers command body].
  rewrite setdefault_new by done. by destruct (ek ++ 58 :: ev).
Qed.

Lemma steps_headers hs enc rest fs n cmd seen b :
  encode_headers hs = Ok enc → NoDup (dict_keys (seen ++ hs)) →
  rtc pstep (mkParser STATE_HEADER (enc ++ rest) fs (Some (mkFrame cmd seen b)) n)
            (mkParser STATE_HEADER rest fs (Some (mkFrame cmd (seen ++ hs) b)) n).
Proof.
  revert enc seen. induction hs as [|[k v] hs IH]; intros enc seen; cbn [encode_headers].
  { intros [= <-] _. by rewrite app_nil_r. }
  destruct (encode_value k) as [ek|] eqn:Ek; [|done]. destruct (encode_value v) as [ev|] eqn:Ev; [|done].
  destruct (encode_headers hs) as [r|] eqn:Er; [|done]. cbn. intros [= <-] Hnd.
  eapply rtc_l.
  - replace ((ek ++ 58 :: ev ++ 10 :: r) ++ rest) with (ek ++ [58] ++ ev ++ [10] ++ (r ++ rest))
      by (rewrite <- !app_assoc; cbn; by rewrite <- !app_assoc).
    apply step_header; [done..|]. unfold dict_keys in Hnd. rewrite fmap_app in Hnd. cbn in Hnd.
    apply NoDup_app in Hnd as (_ & Hd & _). intros Hin. apply (Hd k Hin). by left.
  - replace (seen ++ (k, v) :: hs) with ((seen ++ [(k, v)]) ++ hs) in * by by rewrite <- app_assoc.
    by apply IH.
Qed.

Lemma step_headers_end rest fs n cmd hs b cl :
  match dict_get CONTENT_LENGTH hs with Some v => py_int_str v | None => Some (-1) end = Some cl →
  pstep (mkParser STATE_HEADER (10 :: rest) fs (Some (mkFrame cmd hs b)) n)
        (mkParser STATE_BODY rest fs (Some (mkFrame cmd hs b)) cl).
Proof. intros H. unfold pstep, _state_cb, _parse_header. cbn -[dict_get CONTENT_LENGTH py_int_str]. by rewrite H. Qed.

Lemma step_body_length rest fs cmd hs b data :
  pstep (mkParser STATE_BODY (data ++ 0 :: rest) fs (Some (mkFrame cmd hs b)) (zlen data))
        (mkParser STATE_CMD rest (fs ++ [mkFrame cmd hs (Some data)]) None (-1)).
Proof.
  unfold pstep, _state_cb, _parse_body, _parse_body_length. cbn [_state _buffer _content_length _tmp_frame].
  pose proof (zlen_nonneg data) as Hd. rewrite (proj2 (Z.leb_le 0 (zlen data))) by done.
  assert (zlen (data ++ 0 :: rest) = zlen data + 1 + zlen rest) as -> by (rewrite zlen_app; unfold zlen; simpl; lia).
  pose proof (zlen_nonneg rest) as Hr. rewrite (proj2 (Z.ltb_ge _ (zlen data + 1))) by lia.
  assert (Z.to_nat (zlen data) = length data) as Hl by (unfold zlen; lia).
  rewrite Hl, list_lookup_middle by done. cbn. unfold _push_frame. cbn [_frames command headers]. do 2 f_equal.
  - unfold slice. replace (Z.to_nat (zlen data + 1)) with (length (data ++ [0])) by (rewrite length_app; unfold zlen; simpl; lia).
    replace (data ++ 0 :: rest) with ((data ++ [0]) ++ rest) by by rewrite <- app_assoc.
    rewrite drop_app_length, take_ge by (unfold zlen; lia). done.
  - unfold slice. do 4 f_equal. rewrite drop_0, Z.sub_0_r, Hl. apply take_app_length.
Qed.

Lemma step_body_terminator rest fs cmd hs b data n :
  n < 0 → 0 ∉ data →
  pstep (mkParser STATE_BODY (data ++ 0 :: rest) fs (Some (mkFrame cmd hs b)) n)
        (mkParser STATE_CMD rest (fs ++ [mkFrame cmd hs (Some data)]) None (-1)).
Proof.
  intros Hn Hd. unfold pstep, _state_cb, _parse_body, _parse_body_terminator, _handle_terminator.
  cbn [_state _buffer _content_length _tmp_frame]. rewrite (proj2 (Z.leb_gt 0 n)) by done.
  by rewrite split_first_app.
Qed.

(** ** Streams *)

(** Frames that reach the peer whole: a command, every header once, and a length
    only with a body. *)
Definition sendable (f : Frame) : Prop :=
  command f ≠ [] ∧ NoDup (dict_keys (headers f)) ∧
  (body f = None → CONTENT_LENGTH ∉ dict_keys (headers f)).

(** What the peer gets of a frame: the length of its body is among the headers, and
    a body that was not given is empty. *)
Definition received (f : Frame) : Frame := mkFrame (command f) (sent_headers f) (Some (default [] (body f))).

Lemma sent_headers_nodup f : sendable f → NoDup (dict_keys (sent_headers f)).
Proof. intros (_ & Hnd & _). unfold sent_headers. destruct (body f); [by apply dict_set_nodup|done]. Qed.

Lemma sent_length f b : body f = Some b → dict_get CONTENT_LENGTH (sent_headers f) = Some (str_d (zlen b)).
Proof. intros Hb. unfold sent_headers. rewrite Hb. apply dict_get_set_eq. Qed.

Lemma int_length (b : bytes) : py_int_str (str_d (zlen b)) = Some (zlen b).
Proof.
  apply py_int_str_d, zlen_nonneg.
Qed.

(** The parser between two frames *)
Definition idle (rest : bytes) (fs : list Frame) : Parser := mkParser STATE_CMD rest fs None (-1).

Lemma steps_frame f e rest fs :
  sendable f → encode f = Ok e → rtc pstep (idle (e ++ rest) fs) (idle rest (fs ++ [received f])).
Proof.
  intros Hf. unfold encode. destruct (encode_value (command f)) as [c|] eqn:Ec; [|done].
  destruct (encode_headers (sent_headers f)) as [hs|] eqn:Eh; [|done]. cbn. intros [= <-].
  replace ((c ++ 10 :: hs ++ 10 :: default [] (body f) ++ [0]) ++ rest)
    with (c ++ 10 :: hs ++ 10 :: default [] (body f) ++ 0 :: rest)
    by (rewrite <- !app_assoc; cbn; rewrite <- !app_assoc; cbn; by rewrite <- !app_assoc).
  eapply rtc_l; [apply (step_cmd (command f)); [done|apply Hf]|].
  etrans; [apply (steps_headers (sent_headers f)); [done|by apply sent_headers_nodup]|].
  cbn [app]. unfold received. destruct (body f) as [b|] eqn:Eb; cbn [default].
  - eapply rtc_l; [apply step_headers_end; rewrite (sent_length _ _ Eb); apply int_length|].
    apply rtc_once, step_body_length.
  - destruct Hf as (_ & _ & Hn). specialize (Hn Eb). unfold sent_headers. rewrite Eb.
    eapply rtc_l; [apply step_headers_end; by rewrite (proj2 (dict_get_None _ _) Hn)|].
    apply rtc_once, step_body_terminator; [done|apply not_elem_of_nil].
Qed.

(** What is sent on a connection: frames, and heartbeats between them. *)
Inductive item := Heartbeat | Sent (f : Frame).

Definition encode_item (i : item) : res error bytes :=
  match i with Heartbeat => Ok heartbeat | Sent f => encode f end.

Fixpoint encode_stream (its : list item) : res error bytes :=
  match its with
  | [] => Ok []
  | i :: its' => e ← encode_item i; r ← encode_stream its'; mret (e ++ r)
  end.

Definition frames_of (its : list item) : list Frame :=
  omap (fun i => match i with Heartbeat => None | Sent f => Some f end) its.

Lemma steps_stream its enc fs :
  Forall sendable (frames_of its) → encode_stream its = Ok enc →
  rtc pstep (idle enc fs) (idle [] (fs ++ (received <$> frames_of its))).
Proof.
  revert enc fs. induction its as [|i its IH]; intros enc fs; cbn [encode_stream].
  { intros _ [= <-]. cbn. by rewrite app_nil_r. }
  destruct (encode_item i) as [e|] eqn:Ee; [|done]. destruct (encode_stream its) as [r|] eqn:Er; [|done].
  cbn. intros Hall [= <-]. destruct i as [|f]; cbn in *.
  - injection Ee as <-. eapply rtc_l; [apply step_heartbeat|]. by apply IH.
  - apply Forall_cons in Hall as [Hf Hall]. etrans; [by apply steps_frame|].
    etrans; [by apply IH|]. by rewrite <- app_assoc.
Qed.

(** C22: STOMP framing is a round trip over a byte stream. Whatever frames (with a
    command, no repeated header, a length only with a body) and heartbeats one side
    encodes, with any texts that UTF-8 encodes, control characters, colons and
    backslashes included, and bodies of any bytes, the parser of the other side
    yields exactly those frames in order, however the network cuts the stream into
    chunks, with nothing left in its buffer. *)
Theorem stomp_stream its chunks enc :
  Forall sendable (frames_of its) → encode_stream its = Ok enc → concat chunks = enc →
  parse_all chunks Parser_init = (mkParser STATE_CMD [] (received <$> frames_of its) None (-1), Ok ()).
Proof.
  intros Hall He Hc. apply parse_all_drains; [reflexivity|]. rewrite Hc. split; [|reflexivity].
  by apply (steps_stream its enc []).
Qed.

(** A message with every character that needs an escape, a heartbeat, a frame without
    a body and one whose body holds the frame terminator, in chunks of three bytes. *)
Definition sample_items : list item :=
  [Sent (mkFrame (str "SEND") [(str "destination", [106; 58; 92; 10; 13; 233; 8364])] (Some (str "{}")));
   Heartbeat; Sent (mkFrame (str "SUBSCRIBE") [(str "id", str "1")] None);
   Sent (mkFrame (str "SEND") [] (Some [0; 10; 0]))].

Definition sample_stream : bytes := match encode_stream sample_items with Ok e => e | Raise _ => [] end.

Fixpoint cut (n : nat) (b : bytes) : list bytes :=
  match n with O => [b] | S n' => take 3 b :: cut n' (drop 3 b) end.

Lemma stomp_stream_witness :
  parse_all (cut 40 sample_stream) Parser_init =
    (mkParser STATE_CMD [] (received <$> frames_of sample_items) None (-1), Ok ()) ∧
  length sample_stream = 98%nat.
Proof.
  split; [|vm_compute; reflexivity]. apply (stomp_stream sample_items (cut 40 sample_stream) sample_stream).
  - repeat constructor; try done; vm_compute; set_solver.
  - vm_compute. reflexivity.
  - vm_compute. reflexivity.
Defined.
