(* ===== verification/JsonRpc.v ===== *)
(** * JSON-RPC server: [yajsonrpc/__init__.py], [common/password.py]

    Parsing of messages into requests, serving them, and the reply to a batch,
    which is sent when the last of its requests is done.  [json.loads] and
    [json.dumps], the bridge to the API and the thread factory are parameters. *)
From Stdlib Require Import ZArith QArith Qcanon Lia.
From stdpp Require Import base sets list strings relations.
From S2P Require Import Prelude Text.

#[local] Open Scope Z_scope.

(** ** Values *)

(** What [json.loads] returns; [JProtected] is a [ProtectedPassword]. *)
Inductive json :=
| JNull
| JBool (b : bool)
| JInt (n : Z)
| JFloat (q : Qc)
| JStr (s : text)
| JList (l : list json)
| JObj (o : list (text * json))
| JProtected (v : json).

(** [obj.get(k, default)] *)
Definition obj_get (k : text) (default : json) (o : list (text * json)) : json :=
  match dict_get k o with Some v => v | None => default end.

(** The number a value is equal to when it is a key of a dict: [1], [1.0] and
    [True] are the same key. *)
Definition number (j : json) : option Qc :=
  match j with
  | JBool b => Some (Q2Qc (inject_Z (if b then 1 else 0)))
  | JInt n => Some (Q2Qc (inject_Z n))
  | JFloat q => Some q
  | _ => None
  end.

Fixpoint hashable (j : json) : bool :=
  match j with JList _ | JObj _ => false | JProtected v => hashable v | _ => true end.

(** Equality of keys *)
Fixpoint key_eq (a b : json) : bool :=
  match number a, number b with
  | Some p, Some q => bool_decide (p = q)
  | None, None =>
      match a, b with
      | JNull, JNull => true
      | JStr s, JStr t => bool_decide (s = t)
      | JProtected v, JProtected w => key_eq v w
      | _, _ => false
      end
  | _, _ => false
  end.

(** ** Passwords *)

Definition password_key (k : text) : bool := bool_decide (k = str "password") || prefixb (str "_X_") k.

Fixpoint protect_passwords (j : json) : json :=
  match j with
  | JObj o =>
      JObj (map (fun '(k, v) => if password_key k then (k, JProtected v) else (k, protect_passwords v)) o)
  | JList l => JList (map protect_passwords l)
  | _ => j
  end.

Definition unprotect (j : json) : json := match j with JProtected v => v | _ => j end.

Fixpoint unprotect_passwords (j : json) : json :=
  match j with
  | JObj o =>
      JObj (map (fun '(k, v) => if password_key k then (k, unprotect v) else (k, unprotect_passwords v)) o)
  | JList l => JList (map unprotect_passwords l)
  | _ => j
  end.

(** ** Requests and responses *)

Inductive exn :=
| ParseError
| InvalidRequest (reason : text) (request : json)
| MethodNotFound (method : json)
| InternalError (reason : text)
| RecoveryInProgress
| VdsmException (code : Z) (message : text)       (* another error with a code *)
| ContextException (code : Z) (message : text)    (* one of its subclass *)
| OtherException (message : text).

Record JsonRpcRequest := mkRequest { method : json; params : json; req_id : json }.

(** [JsonRpcRequest.fromRawObject]; an object without [get] is an AttributeError. *)
Definition fromRawObject (obj : json) : res exn JsonRpcRequest :=
  match obj with
  | JObj o =>
      match obj_get (str "jsonrpc") JNull o with
      | JStr v =>
          if bool_decide (v = str "2.0") then
            match obj_get (str "method") JNull o with
            | JNull => Raise (InvalidRequest (str "missing method header in method") obj)
            | m =>
                let ps := obj_get (str "params") (JList []) o in
                match ps with
                | JList _ | JObj _ => Ok (mkRequest m (protect_passwords ps) (obj_get (str "id") JNull o))
                | _ => Raise (InvalidRequest (str "wrong params type") obj)
                end
            end
          else Raise (InvalidRequest (str "Wrong protocol version") obj)
      | _ => Raise (InvalidRequest (str "Wrong protocol version") obj)
      end
  | _ => Raise (OtherException (str "object has no attribute get"))
  end.

Definition isNotification (r : JsonRpcRequest) : bool := match req_id r with JNull => true | _ => false end.

Record JsonRpcResponse := mkResponse { result : json; error : option exn; res_id : json }.

(** [JsonRpcResponse.__init__] *)
Definition JsonRpcResponse_init (r : json) (e : option exn) (id : json) : JsonRpcResponse :=
  mkResponse (unprotect_passwords r) e id.

(** ** Serving *)

(** What a method of the bridge returns; [Suppressed] only shortens the log. *)
Inductive returned := Value (j : json) | Suppressed (j : json).

(** The result of [bridge.dispatch] *)
Inductive dispatched :=
| Found (call : json → res exn returned)
| NotFound
| Failed (e : exn).

Record Ctx := mkCtx {
  _counter : Z;
  _requests : list (json * JsonRpcRequest);
  _responses : list JsonRpcResponse;
  sent : list bytes;
}.

Definition Ctx_init : Ctx := mkCtx 0 [] [] [].

(** [d[k] = v] and [del d[k]] of the dict of requests *)
Fixpoint requests_set (k : json) (v : JsonRpcRequest) (d : list (json * JsonRpcRequest)) : list (json * JsonRpcRequest) :=
  match d with
  | [] => [(k, v)]
  | (k', v') :: d' => if key_eq k k' then (k', v) :: d' else (k', v') :: requests_set k v d'
  end.

Definition requests_del (k : json) (d : list (json * JsonRpcRequest)) : list (json * JsonRpcRequest) :=
  filter (fun kv => key_eq k kv.1 = false) d.

Abbreviation CM A := (M Ctx exn A).

Section server.
  (** [json.loads] and [json.dumps]: [None] is an exception *)
  Context (loads : bytes → option json) (dumps : json → option text).
  (** [error.code] and [str(error)] *)
  Context (code : exn → Z) (exn_str : exn → text).
  (** [bridge.dispatch] and [cif.ready] *)
  Context (bridge : json → dispatched) (ready : bool).
  (** The thread factory: the exception of queueing a request, if there is one *)
  Context (threadFactory : JsonRpcRequest → option exn).

(** [JsonRpcResponse.toDict] *)
Definition toDict (r : JsonRpcResponse) : json :=
  JObj ([(str "jsonrpc", JStr (str "2.0")); (str "id", res_id r)] ++
        match error r with
        | Some e => [(str "error", JObj [(str "code", JInt (code e)); (str "message", JStr (exn_str e))])]
        | None => [(str "result", result r)]
        end).

(** The encoding of one response in [sendReply] *)
Definition encode_response (r : JsonRpcResponse) : res exn text :=
  match dumps (toDict r) with
  | Some t => Ok t
  | None =>
      match dumps (toDict (JsonRpcResponse_init JNull (Some (InternalError [])) (res_id r))) with
      | Some t => Ok t
      | None => Raise (OtherException (str "not serializable"))
      end
  end.

Fixpoint encode_responses (rs : list JsonRpcResponse) : res exn (list text) :=
  match rs with
  | [] => Ok []
  | r :: rs' => t ← encode_response r; ts ← encode_responses rs'; mret (t :: ts)
  end.

(** [','.join(ts)] *)
Definition join_comma (ts : list text) : text :=
  match ts with
  | [] => []
  | t :: ts' => t ++ concat ((fun t => 44 :: t) <$> ts')
  end.

(** The data that is sent for the responses *)
Definition reply_data (rs : list JsonRpcResponse) : res exn bytes :=
  ts ← encode_responses rs;
  let data := match ts with [t] => t | _ => [91] ++ join_comma ts ++ [93] end in
  match utf8_encode data with Some b => Ok b | None => Raise (OtherException (str "UnicodeEncodeError")) end.

(** Whether requests are outstanding, the encoding of the responses, and the sending in [sendReply].
    The loop over the responses ends when it has reached those added meanwhile, so that the data is
    that of the responses at its end. *)
Definition sendReply_test : CM bool := c ← get; mret match _requests c with _ :: _ => true | [] => false end.

Definition sendReply_encode : CM bytes := c ← get; lift (reply_data (_responses c)).

Definition sendReply_send (b : bytes) : CM unit :=
  modify (fun c => mkCtx (_counter c) (_requests c) (_responses c) (sent c ++ [b])).

Definition sendReply : CM unit :=
  outstanding ← sendReply_test;
  if (outstanding : bool) then mret () else b ← sendReply_encode; sendReply_send b.

Definition addResponse (r : JsonRpcResponse) : CM unit :=
  modify (fun c => mkCtx (_counter c) (_requests c) (_responses c ++ [r]) (sent c)).

(** [del self._requests[response.id]] when it is there *)
Definition forget (id : json) : CM unit :=
  if negb (hashable id) then raise (OtherException (str "unhashable type"))
  else modify (fun c => mkCtx (_counter c) (requests_del id (_requests c)) (_responses c) (sent c)).

Definition requestDone (r : JsonRpcResponse) : CM unit := forget (res_id r) ;; addResponse r ;; sendReply.

(** Where a thread is in [requestDone]; nothing keeps other threads out between two of these places. *)
Inductive phase := ToForget | ToAdd | ToTest | ToEncode | ToSend (b : bytes).

(** What it does next, and where it is then *)
Definition requestDone_step (r : JsonRpcResponse) (p : phase) : CM (option phase) :=
  match p with
  | ToForget => forget (res_id r) ;; mret (Some ToAdd)
  | ToAdd => addResponse r ;; mret (Some ToTest)
  | ToTest => outstanding ← sendReply_test; mret (if (outstanding : bool) then None else Some ToEncode)
  | ToEncode => b ← sendReply_encode; mret (Some (ToSend b))
  | ToSend b => sendReply_send b ;; mret None
  end.

(** One request of [setRequests] *)
Definition set_request (r : JsonRpcRequest) : CM unit :=
  if isNotification r then mret ()
  else
    modify (fun c => mkCtx (_counter c + 1) (_requests c) (_responses c) (sent c)) ;;
    if negb (hashable (req_id r)) then raise (OtherException (str "unhashable type"))
    else modify (fun c => mkCtx (_counter c) (requests_set (req_id r) r (_requests c)) (_responses c) (sent c)).

Definition setRequests (rs : list JsonRpcRequest) : CM unit := for_each rs set_request ;; sendReply.

(** [_handle_request]: the response, if there is one; the exception of a dispatch that
    fails in another way comes out. *)
Definition _handle_request (req : JsonRpcRequest) : res exn (option JsonRpcResponse) :=
  if negb ready then Ok (Some (JsonRpcResponse_init JNull (Some RecoveryInProgress) (req_id req)))
  else match bridge (method req) with
  | NotFound =>
      if isNotification req then Ok None
      else Ok (Some (JsonRpcResponse_init JNull (Some (MethodNotFound (method req))) (req_id req)))
  | Failed e => Raise e
  | Found call =>
      match call (params req) with
      | Raise (OtherException _ as e) =>
          Ok (Some (JsonRpcResponse_init JNull (Some (InternalError (exn_str e))) (req_id req)))
      | Raise e => Ok (Some (JsonRpcResponse_init JNull (Some e) (req_id req)))
      | Ok (Value JNull) => Ok (Some (JsonRpcResponse_init (JBool true) None (req_id req)))
      | Ok (Value v) | Ok (Suppressed v) => Ok (Some (JsonRpcResponse_init v None (req_id req)))
      end
  end.

Definition _serveRequest (req : JsonRpcRequest) : CM unit :=
  response ← lift (_handle_request req);
  match response with Some r => requestDone r | None => mret () end.

(** The response to a request that could not be queued: the error itself when it is a ContextException,
    as the errors of the protocol are *)
Definition rejected (e : exn) (req : JsonRpcRequest) : JsonRpcResponse :=
  let e' := match e with
            | VdsmException _ _ | OtherException _ | RecoveryInProgress => InternalError (exn_str e)
            | _ => e
            end in
  JsonRpcResponse_init JNull (Some e') (req_id req).

(** [_runRequest] with a thread factory: [true] when the request was queued *)
Definition _runRequest (req : JsonRpcRequest) : CM bool :=
  match threadFactory req with
  | None => mret true
  | Some e => requestDone (rejected e req) ;; mret false
  end.

(** The loop over the raw requests of [_parseMessage] *)
Fixpoint parse_requests (raws : list json) : CM (list JsonRpcRequest) :=
  match raws with
  | [] => mret []
  | raw :: raws' =>
      match fromRawObject raw with
      | Ok r => rs ← parse_requests raws'; mret (r :: rs)
      | Raise e =>
          let e' := match e with OtherException _ => InternalError [] | _ => e end in
          addResponse (JsonRpcResponse_init JNull (Some e') JNull) ;; parse_requests raws'
      end
  end.

(** [_parseMessage] up to the loop that runs the requests, which it returns *)
Definition parse_message (msg : bytes) : CM (list JsonRpcRequest) :=
  match loads msg with
  | None =>
      addResponse (JsonRpcResponse_init JNull (Some ParseError) JNull) ;; sendReply ;; mret []
  | Some (JList []) =>
      addResponse (JsonRpcResponse_init JNull
        (Some (InvalidRequest (str "request batch is empty") (JList []))) JNull) ;; sendReply ;; mret []
  | Some raw =>
      let raws := match raw with JList l => l | _ => [raw] end in
      requests ← parse_requests raws;
      setRequests requests ;;
      c ← get;
      (if _counter c =? 0 then sendReply else mret ()) ;;
      mret requests
  end.

Definition run_requests (requests : list JsonRpcRequest) : CM unit :=
  for_each requests (fun r => _runRequest r ;; mret ()).

(** [_parseMessage] *)
Definition _parseMessage (msg : bytes) : CM unit := requests ← parse_message msg; run_requests requests.

(** [serve_requests]: the contexts of the messages of the queue up to the one that
    stops the server ([None]), or up to an exception, which ends the loop. *)
Fixpoint serve_requests (queue : list (option bytes)) : list Ctx * option exn :=
  match queue with
  | [] | None :: _ => ([], None)
  | Some msg :: queue' =>
      match _parseMessage msg Ctx_init with
      | (c, Raise e) => ([c], Some e)
      | (c, Ok _) => let '(cs, r) := serve_requests queue' in (c :: cs, r)
      end
  end.
End server.
