(* ===== verification/JsonRpcSpec.v ===== *)
(** * JSON-RPC server: the reply to a message

    Requests of a message are served by threads in any order, and the calls of
    [requestDone] of these threads interleave, since it takes no lock; [batch_race] is
    a run in which a batch gets two replies. *)
From Stdlib Require Import ZArith Lia.
From stdpp Require Import base sets list strings relations.
From S2P Require Import Prelude Text Wp JsonRpc.

(** ** Keys *)

Lemma key_eq_refl k : hashable k = true → key_eq k k = true.
Proof. induction k; cbn [key_eq hashable number]; intros H; try done; first [by apply bool_decide_eq_true|by apply IHk]. Qed.

Lemma key_eq_sym a b : key_eq a b = key_eq b a.
Proof.
  revert b. induction a; intros []; cbn [key_eq number]; try done; first [apply bool_decide_ext; split; congruence|apply IHa].
Qed.

(** Requests with different ids *)
Fixpoint distinct (rs : list JsonRpcRequest) : Prop :=
  match rs with
  | [] => True
  | r :: rs' => Forall (fun x => key_eq (req_id r) (req_id x) = false) rs' ∧ distinct rs'
  end.

Lemma distinct_middle a r b :
  distinct (a ++ r :: b) → Forall (fun x => key_eq (req_id r) (req_id x) = false) (a ++ b) ∧ distinct (a ++ b).
Proof.
  induction a as [|x a IH]; cbn [distinct app]; [done|]. intros [Hx Hd]. destruct (IH Hd) as [H1 H2].
  apply Forall_app in Hx as [Hxa [Hxr Hxb]%Forall_cons]. split; [constructor; [by rewrite key_eq_sym|done]|].
  split; [by apply Forall_app|done].
Qed.

Definition pairs (rs : list JsonRpcRequest) : list (json * JsonRpcRequest) := (fun r => (req_id r, r)) <$> rs.

Lemma requests_del_middle a r b :
  hashable (req_id r) = true → distinct (a ++ r :: b) →
  requests_del (req_id r) (pairs (a ++ r :: b)) = pairs (a ++ b).
Proof.
  intros Hh [Hne _]%distinct_middle. apply Forall_app in Hne as [Ha Hb].
  assert (∀ l, Forall (fun x => key_eq (req_id r) (req_id x) = false) l → requests_del (req_id r) (pairs l) = pairs l) as Hkeep.
  { unfold requests_del, pairs. induction 1 as [|x l Hx Hl IH]; [done|]. cbn [fmap list_fmap]. rewrite filter_cons_True by done. by rewrite IH. }
  unfold requests_del, pairs in *. rewrite !fmap_app, filter_app, Hkeep by done. cbn [fmap list_fmap].
  rewrite filter_cons_False by (cbn; by rewrite key_eq_refl). by rewrite Hkeep.
Qed.

Lemma requests_set_new pre r :
  distinct (pre ++ [r]) → requests_set (req_id r) r (pairs pre) = pairs (pre ++ [r]).
Proof.
  induction pre as [|x pre IH]; cbn [distinct app]; [done|]. intros [Hx Hd]. cbn [pairs fmap list_fmap requests_set].
  apply Forall_app in Hx as [_ [Hx _]%Forall_cons]. rewrite key_eq_sym, Hx. f_equal. by apply IH.
Qed.

Lemma distinct_app_l a b : distinct (a ++ b) → distinct a.
Proof. induction a as [|x a IH]; cbn [distinct app]; [done|]. intros [[? _]%Forall_app ?]. auto. Qed.

(** ** Passwords *)

(** A value without protected passwords, as [json.loads] gives it *)
Fixpoint plain (j : json) : bool :=
  match j with
  | JObj o => forallb (fun '(_, v) => plain v) o
  | JList l => forallb plain l
  | JProtected _ => false
  | _ => true
  end.

Section json_induction.
  Context (P : json → Prop).
  Context (Hnull : P JNull) (Hbool : ∀ b, P (JBool b)) (Hint : ∀ n, P (JInt n)) (Hfloat : ∀ q, P (JFloat q)).
  Context (Hstr : ∀ s, P (JStr s)) (Hlist : ∀ l, Forall P l → P (JList l)).
  Context (Hobj : ∀ o, Forall (fun kv => P kv.2) o → P (JObj o)) (Hprot : ∀ v, P v → P (JProtected v)).

Fixpoint json_rect' (j : json) : P j :=
  match j with
  | JNull => Hnull
  | JBool b => Hbool b
  | JInt n => Hint n
  | JFloat q => Hfloat q
  | JStr s => Hstr s
  | JList l => Hlist l ((fix go l := match l return Forall P l with
                         | [] => Forall_nil_2 P
                         | x :: l' => Forall_cons_2 P x l' (json_rect' x) (go l') end) l)
  | JObj o => Hobj o ((fix go o := match o return Forall (fun kv => P kv.2) o with
                       | [] => Forall_nil_2 _
                       | kv :: o' => Forall_cons_2 _ kv o' (json_rect' kv.2) (go o') end) o)
  | JProtected v => Hprot v (json_rect' v)
  end.
End json_induction.

(** What was protected when a request was read is back when it is unprotected. *)
Lemma passwords_roundtrip j : plain j = true → unprotect_passwords (protect_passwords j) = j.
Proof.
  induction j as [| | | | |l IH|o IH|] using json_rect'; cbn [plain protect_passwords unprotect_passwords]; intros H; try done.
  - f_equal. rewrite map_map. induction IH as [|x l Hx Hl IH']; [done|]. cbn in *. apply andb_true_iff in H as [H1 H2].
    by rewrite Hx, IH'.
  - f_equal. rewrite map_map. induction IH as [|[k v] o Hx Hl IH']; [done|]. cbn in *. apply andb_true_iff in H as [H1 H2].
    rewrite IH' by done. f_equal. destruct (password_key k) eqn:E; rewrite E; [done|]. by rewrite Hx.
Qed.

(** ** Serving a message *)

Section serving.
  Context (loads : bytes → option json) (dumps : json → option text).
  Context (code : exn → Z) (exn_str : exn → text).
  Context (bridge : json → dispatched) (ready : bool).
  Context (threadFactory : JsonRpcRequest → option exn).

(** [json.loads] reads no protected password; [json.dumps] writes ASCII text, and can write an error whose
    id is null, a number, a boolean or a string. *)
Record DumpsLaws : Prop := {
  loads_plain : ∀ msg j, loads msg = Some j → plain j = true;
  dumps_ascii : ∀ j t, dumps j = Some t → Forall (fun c => 0 <= c < 128) t;
  dumps_error : ∀ e id, hashable id = true → plain id = true →
    is_Some (dumps (toDict code exn_str (JsonRpcResponse_init JNull (Some e) id)));
}.

Context (HD : DumpsLaws).

Abbreviation data := (reply_data dumps code exn_str).

(** The id of a response can be written. *)
Definition id_ok (id : json) : Prop := hashable id = true ∧ plain id = true.

Lemma encode_response_ok r :
  id_ok (res_id r) →
  ∃ t, encode_response dumps code exn_str r = Ok t ∧ Forall (fun c => 0 <= c < 128) t.
Proof.
  intros [Hh Hp]. unfold encode_response. destruct (dumps (toDict _ _ r)) as [t|] eqn:E.
  { exists t. split; [done|]. by eapply dumps_ascii. }
  destruct (dumps_error HD (InternalError []) (res_id r) Hh Hp) as [t Ht]. rewrite Ht. exists t. split; [done|].
  by eapply dumps_ascii.
Qed.

Lemma join_ascii (P : Z → Prop) ts : P 44 → Forall (Forall P) ts → Forall P (join_comma ts).
Proof.
  intros Hc. destruct 1 as [|t ts Ht H]; [constructor|]. cbn. apply Forall_app. split; [done|].
  induction H as [|u ts Hu H IH]; [constructor|]. cbn. constructor; [done|]. by apply Forall_app.
Qed.

Lemma reply_data_ok rs : Forall (fun r => id_ok (res_id r)) rs → ∃ b, data rs = Ok b.
Proof.
  intros H. assert (∃ ts, encode_responses dumps code exn_str rs = Ok ts ∧ Forall (Forall (fun c => 0 <= c < 128)) ts) as (ts & E & Hts).
  { induction H as [|r rs Hr H (ts & E & Hts)]; [by exists []|]. destruct (encode_response_ok r Hr) as (t & Et & Ht).
    exists (t :: ts). cbn [encode_responses]. rewrite Et. cbn. rewrite E. split; [done|by constructor]. }
  unfold reply_data. rewrite E. cbn [mbind res_bind].
  rewrite utf8_encode_ascii; [by eexists|].
  assert (Forall (fun c => 0 <= c < 128) ([91] ++ join_comma ts ++ [93])) as Hb.
  { apply Forall_app. split; [by repeat constructor|]. apply Forall_app. split; [by apply join_ascii|by repeat constructor]. }
  destruct ts as [|t [|u ts]]; [done|by apply Forall_cons in Hts as [? _]|done].
Qed.

(** The responses to the items of a message that are not requests, and its requests *)
Definition bad_responses (raws : list json) : list JsonRpcResponse :=
  omap (fun raw => match fromRawObject raw with
    | Ok _ => None
    | Raise (OtherException _) => Some (JsonRpcResponse_init JNull (Some (InternalError [])) JNull)
    | Raise e => Some (JsonRpcResponse_init JNull (Some e) JNull)
    end) raws.

Definition good_requests (raws : list json) : list JsonRpcRequest :=
  omap (fun raw => match fromRawObject raw with Ok r => Some r | Raise _ => None end) raws.

Lemma parse_requests_spec raws c :
  parse_requests raws c =
    (mkCtx (_counter c) (_requests c) (_responses c ++ bad_responses raws) (sent c), Ok (good_requests raws)).
Proof.
  revert c. induction raws as [|raw raws IH]; intros c; cbn [parse_requests].
  { cbn. rewrite app_nil_r. by destruct c. }
  unfold bad_responses, good_requests in *. cbn [omap list_omap].
  destruct (fromRawObject raw) as [r|e].
  - unfold mbind, M_bind. rewrite IH. done.
  - destruct e; unfold addResponse, modify, mbind, M_bind; rewrite IH; cbn; by rewrite <- app_assoc.
Qed.

Lemma bad_responses_ids raws : Forall (fun r => res_id r = JNull) (bad_responses raws).
Proof.
  unfold bad_responses. induction raws as [|raw raws IH]; [constructor|]. cbn [omap list_omap].
  destruct (fromRawObject raw) as [r|[]]; try done; by constructor.
Qed.

Lemma set_request_ok r c :
  isNotification r = false ∧ hashable (req_id r) = true →
  set_request r c = (mkCtx (_counter c + 1) (requests_set (req_id r) r (_requests c)) (_responses c) (sent c), Ok ()).
Proof. intros [Hn Hh]. unfold set_request. by rewrite Hn, Hh. Qed.

Lemma set_requests_spec rs pre c :
  Forall (fun r => isNotification r = false ∧ hashable (req_id r) = true) rs → distinct (pre ++ rs) →
  _requests c = pairs pre →
  for_each rs set_request c = (mkCtx (_counter c + zlen rs) (pairs (pre ++ rs)) (_responses c) (sent c), Ok ()).
Proof.
  intros H. revert pre c. induction H as [|r rs Hr H IH]; intros pre c Hd Hc; cbn [for_each].
  { rewrite app_nil_r, <- Hc. unfold zlen. cbn. rewrite Z.add_0_r. by destruct c. }
  unfold mbind, M_bind. rewrite set_request_ok, Hc by done.
  replace (pre ++ r :: rs) with ((pre ++ [r]) ++ rs) in * by by rewrite <- app_assoc.
  rewrite requests_set_new by (by eapply distinct_app_l).
  rewrite (IH (pre ++ [r])) by done. cbn. f_equal. f_equal. unfold zlen. cbn [length]. lia.
Qed.

(** The items of a message *)
Definition items (raw : json) : list json := match raw with JList l => l | _ => [raw] end.

(** The ids of the requests of a message are plain, as all of it is. *)
Lemma good_requests_plain raw :
  plain raw = true → Forall (fun r => plain (req_id r) = true) (good_requests (items raw)).
Proof.
  intros Hp. assert (Forall (fun j => plain j = true) (items raw)) as H.
  { destruct raw; cbn in *; repeat constructor; try done. by apply Forall_forall; intros x Hx; eapply forallb_forall; [|apply list_elem_of_In]. }
  unfold good_requests. induction H as [|j l Hj H IH]; [constructor|]. cbn [omap list_omap].
  destruct (fromRawObject j) as [r|e] eqn:E; [|done]. constructor; [|done].
  destruct j as [| | | | | |o|]; try done. unfold fromRawObject in E.
  assert (∃ m ps, r = mkRequest m ps (obj_get (str "id") JNull o)) as (m & ps & ->) by (repeat case_match; simplify_eq; eauto).
  cbn [req_id]. unfold obj_get. cbn [plain] in Hj. clear E. induction o as [|[k v] o IHo]; [done|].
  cbn [forallb] in Hj. apply andb_true_iff in Hj as [Hv Ho]. cbn [dict_get]. case_decide; auto.
Qed.

(** *** Threads *)

(** A call of [requestDone]: the request and its response, whether it is made by the loop over the requests,
    and where it is *)
Record Doing := mkDoing { d_request : JsonRpcRequest; d_response : JsonRpcResponse; d_loop : bool; d_phase : phase }.

(** A message that is being served: the requests that the loop has not run yet, those that were queued and are
    not served yet, and the calls of [requestDone] that are going on.  [s_overlap] records that a request was removed
    while another call was between its removal and its end. *)
Record Serving := mkServing {
  s_ctx : Ctx;
  s_loop : list JsonRpcRequest;
  s_queued : list JsonRpcRequest;
  s_doing : list Doing;
  s_overlap : bool;
}.

Definition forgetting (e : Doing) : bool := match d_phase e with ToForget => true | _ => false end.

Definition overlaps (e : Doing) (others : list Doing) : bool := forgetting e && negb (forallb forgetting others).

Definition advance (e : Doing) (next : option phase) : list Doing :=
  match next with Some p => [mkDoing (d_request e) (d_response e) (d_loop e) p] | None => [] end.

Abbreviation done_step := (requestDone_step dumps code exn_str).
Abbreviation handle := (_handle_request exn_str bridge ready).

(** The steps: the loop queues its next request or answers it itself, when it is not in [requestDone]; a
    thread has handled a queued request; and any call of [requestDone] goes one step further. *)
Inductive serve_step : Serving → Serving → Prop :=
| step_queue c r l q d o :
    threadFactory r = None → Forall (fun e => d_loop e = false) d →
    serve_step (mkServing c (r :: l) q d o) (mkServing c l (q ++ [r]) d o)
| step_reject c r l q d o e :
    threadFactory r = Some e → Forall (fun e => d_loop e = false) d →
    serve_step (mkServing c (r :: l) q d o) (mkServing c l q (mkDoing r (rejected exn_str e r) true ToForget :: d) o)
| step_serve c l q1 r q2 d o x :
    handle r = Ok (Some x) →
    serve_step (mkServing c l (q1 ++ r :: q2) d o) (mkServing c l (q1 ++ q2) (mkDoing r x false ToForget :: d) o)
| step_done c c' l q d e d' o next :
    d ≡ₚ e :: d' → done_step (d_response e) (d_phase e) c = (c', Ok next) →
    serve_step (mkServing c l q d o) (mkServing c' l q (advance e next ++ d') (o || overlaps e d')).

(** The calls of [requestDone] by their place: before the removal, before the response is added, after it,
    before the responses are encoded, after the test, and with data to send *)
Definition waiting (d : list Doing) : list JsonRpcRequest :=
  omap (fun e => match d_phase e with ToForget => Some (d_request e) | _ => None end) d.
Definition adding (d : list Doing) : list JsonRpcRequest :=
  omap (fun e => match d_phase e with ToAdd => Some (d_request e) | _ => None end) d.
Definition tested (d : list Doing) : list JsonRpcRequest :=
  omap (fun e => match d_phase e with ToTest | ToEncode | ToSend _ => Some (d_request e) | _ => None end) d.
Definition looking (d : list Doing) : list JsonRpcRequest :=
  omap (fun e => match d_phase e with ToTest | ToEncode => Some (d_request e) | _ => None end) d.
Definition passed (d : list Doing) : list JsonRpcRequest :=
  omap (fun e => match d_phase e with ToEncode | ToSend _ => Some (d_request e) | _ => None end) d.
Definition written (d : list Doing) : list bytes :=
  omap (fun e => match d_phase e with ToSend b => Some b | _ => None end) d.

(** The requests that were not removed *)
Definition unremoved (s : Serving) : list JsonRpcRequest := s_loop s ++ s_queued s ++ waiting (s_doing s).

(** Nothing is left to do. *)
Definition finished (s : Serving) : Prop := s_loop s = [] ∧ s_queued s = [] ∧ s_doing s = [].

(** The response that a request gets *)
Definition answer (r : JsonRpcRequest) : JsonRpcResponse :=
  match threadFactory r with
  | Some e => rejected exn_str e r
  | None => match handle r with Ok (Some x) => x | _ => JsonRpcResponse_init JNull None JNull end
  end.

Context (Hbridge : ∀ m e, bridge m ≠ Failed e).

Lemma handle_answers r :
  isNotification r = false → ∃ x, handle r = Ok (Some x) ∧ res_id x = req_id r.
Proof.
  intros Hn. unfold _handle_request. destruct ready; cbn [negb]; [|by eexists].
  pose proof (Hbridge (method r)) as Hb. destruct (bridge (method r)) as [call| |e]; [|rewrite Hn; by eexists|by destruct (Hb e)].
  destruct (call (params r)) as [[v|v]|e]; [destruct v|..|destruct e]; by eexists.
Qed.

Lemma answer_id r : isNotification r = false → res_id (answer r) = req_id r.
Proof.
  intros Hn. unfold answer. destruct (threadFactory r) as [e|]; [by destruct e|].
  destruct (handle_answers r Hn) as (x & -> & Hx). done.
Qed.

Definition request_ok (r : JsonRpcRequest) : Prop := isNotification r = false ∧ hashable (req_id r) = true.

(** A reply: the errors and the first responses *)
Definition reply_of (errs : list JsonRpcResponse) (added : list JsonRpcRequest) (b : bytes) : Prop :=
  ∃ k, (0 < k <= length added)%nat ∧ data (errs ++ (answer <$> take k added)) = Ok b.

(** The state of a message: [base] are the requests not yet handled, [added] those whose responses were
    added, in this order. *)
Record served (errs : list JsonRpcResponse) (good base : list JsonRpcRequest) (c : Ctx) (d : list Doing) (o : bool)
    (added : list JsonRpcRequest) : Prop := {
  sv_all : (base ++ waiting d) ++ adding d ++ added ≡ₚ good;
  sv_doing : Forall (fun e => d_response e = answer (d_request e) ∧ request_ok (d_request e)) d;
  sv_requests : ∃ l, l ≡ₚ base ++ waiting d ∧ distinct l ∧ _requests c = pairs l;
  sv_responses : _responses c = errs ++ (answer <$> added);
  sv_replies : Forall (reply_of errs added) (sent c ++ written d);
  sv_count : (length (sent c) + length (tested d) <= length added)%nat;
  sv_early : base ++ waiting d ≠ [] → sent c = [] ∧ passed d = [];
  sv_last : base ++ waiting d = [] → adding d = [] →
    looking d ≠ [] ∨ ∃ b, data (errs ++ (answer <$> added)) = Ok b ∧ b ∈ sent c ++ written d;
  sv_alone : o = false →
    (sent c = [] ∧ (length (adding d ++ tested d) <= 1)%nat) ∨
    (length (sent c) = 1%nat ∧ adding d ++ tested d = [] ∧ base ++ waiting d = []);
}.

Lemma served_perm errs good base base' c d d' o added :
  base ++ waiting d ≡ₚ base' ++ waiting d' → adding d ≡ₚ adding d' → tested d ≡ₚ tested d' → looking d ≡ₚ looking d' →
  passed d ≡ₚ passed d' → written d ≡ₚ written d' →
  Forall (fun e => d_response e = answer (d_request e) ∧ request_ok (d_request e)) d' →
  served errs good base c d o added → served errs good base' c d' o added.
Proof.
  assert (∀ A (l l' : list A), l ≡ₚ l' → l' = [] → l = []) as Hnil by (intros A l l' H ->; by apply Permutation_nil_r).
  intros Hp Ha Ht Hl Hps Hw Hd' [Hall Hd Hreq Hresp Hrep Hcnt He Hlast Hal]. split; try done.
  - by rewrite <- Hp, <- Ha.
  - setoid_rewrite <- Hp. done.
  - by rewrite <- Hw.
  - by rewrite <- Ht.
  - intros Hne. destruct He as [-> Hpass]; [by intros E; apply Hne; apply (Hnil _ _ _ (symmetry Hp))|]. split; [done|]. eapply Hnil; [by symmetry|done].
  - intros Hb Hadd. destruct Hlast as [Hk|(b & Hb1 & Hb2)]; [by eapply Hnil..| |right; exists b; by rewrite <- Hw].
    left. intros E. apply Hk. by eapply Hnil.
  - intros Ho. destruct (Hal Ho) as [[Hs Hn]|(Hs & Hn & Hb)]; [left|right].
    + by rewrite <- Ha, <- Ht.
    + split_and!; [done|eapply Hnil; [|exact Hn]; by rewrite Ha, Ht|by eapply Hnil; [by symmetry|]].
Qed.

Lemma served_reorder errs good base c d d' o added :
  d ≡ₚ d' → served errs good base c d o added → served errs good base c d' o added.
Proof.
  intros Hp Hs. eapply (served_perm errs good base base c d d'); [..|done];
    unfold waiting, adding, tested, looking, passed, written; try by rewrite Hp.
  rewrite <- Hp. by apply (sv_doing _ _ _ _ _ _ _ Hs).
Qed.

(** *** One step of [requestDone] *)

(** The steps of a call that is not interrupted are [requestDone]. *)
Fixpoint run_done (n : nat) (r : JsonRpcResponse) (p : phase) : M Ctx exn unit :=
  match n with
  | O => mret ()
  | S n' => next ← done_step r p; match next with Some p' => run_done n' r p' | None => mret () end
  end.

Ltac done_next := cbn [run_done requestDone_step]; unfold mbind, M_bind, mret, M_ret.

Lemma requestDone_steps r c : run_done 5 r ToForget c = requestDone dumps code exn_str r c.
Proof.
  unfold requestDone, sendReply, mbind, M_bind, mret, M_ret.
  done_next. destruct (forget (res_id r) c) as [c1 [[]|e]]; [|done]. done_next. destruct (addResponse r c1) as [c2 [[]|e]]; [|done].
  done_next. destruct (sendReply_test c2) as [c3 [[]|e]]; [done| |done].
  done_next. destruct (sendReply_encode dumps code exn_str c3) as [c4 [b|e]]; [|done]. done_next. by destruct (sendReply_send b c4) as [c5 [[]|e]].
Qed.

Lemma forgetting_alone d : forallb forgetting d = true → adding d ++ tested d = [].
Proof.
  unfold adding, tested. induction d as [|[r x w p] d IH]; [done|]. cbn [forallb omap list_omap d_phase d_request].
  destruct p; try done; apply IH.
Qed.

Lemma reply_of_app errs added r b : reply_of errs added b → reply_of errs (added ++ [r]) b.
Proof. intros (k & Hk & Hb). exists k. rewrite length_app, take_app_le by lia. split; [lia|done]. Qed.

(** The place of the first call is known; [d] are the others. *)
Ltac places d :=
  unfold waiting, adding, tested, looking, passed, written in *; cbn [omap list_omap d_phase d_request] in *;
  fold (waiting d) (adding d) (tested d) (looking d) (passed d) (written d) in *.

(** The removal of the request *)
Lemma forget_served errs good base c r x w d o added :
  served errs good base c (mkDoing r x w ToForget :: d) o added →
  ∃ c', forget (res_id x) c = (c', Ok ()) ∧
    served errs good base c' (mkDoing r x w ToAdd :: d) (o || overlaps (mkDoing r x w ToForget) d) added.
Proof.
  intros [Hall Hd (l & Hl & Hdist & Hreq) Hresp Hrep Hcnt He _ Hal].
  apply Forall_cons in Hd as [[Hx [Hn Hh]] Hd]. cbn [d_response d_request] in *. subst x.
  places d.
  unfold forget. rewrite answer_id, Hh by done. cbn [negb]. eexists. split; [done|].
  assert (r ∈ l) as (a & b & ->)%list_elem_of_split by (rewrite Hl; set_solver).
  destruct He as [Hs Hpass]; [by destruct base|].
  split; cbn [_requests _responses sent]; places d; try done.
  - rewrite <- Hall. rewrite <- !app_assoc. cbn. f_equiv. by rewrite <- !Permutation_middle.
  - by constructor.
  - exists (a ++ b). rewrite Hreq, requests_del_middle by done. split_and!; [|by apply distinct_middle in Hdist as [_ ?]|done].
    apply (Permutation_cons_inv (a := r)). by rewrite !Permutation_middle.
  - intros [-> Hno]%orb_false_iff. unfold overlaps in Hno. cbn in Hno. apply negb_false_iff in Hno.
    apply forgetting_alone in Hno. left. split; [done|]. cbn [app]. by rewrite Hno.
Qed.

(** The response is added. *)
Lemma add_served errs good base c r x w d o added :
  served errs good base c (mkDoing r x w ToAdd :: d) o added →
  ∃ c', addResponse x c = (c', Ok ()) ∧ served errs good base c' (mkDoing r x w ToTest :: d) o (added ++ [r]).
Proof.
  intros [Hall Hd Hreq Hresp Hrep Hcnt He _ Hal].
  apply Forall_cons in Hd as [[Hx Hok] Hd]. cbn [d_response d_request] in *. subst x.
  places d.
  eexists. split; [done|]. split; cbn [_requests _responses sent]; places d; try done.
  - rewrite <- Hall. f_equiv. cbn. rewrite (app_assoc (adding d)). by rewrite <- Permutation_cons_append.
  - by constructor.
  - by rewrite Hresp, fmap_app, app_assoc.
  - eapply Forall_impl; [exact Hrep|]. intros b. apply reply_of_app.
  - rewrite length_app. cbn. lia.
  - by left.
  - intros Ho. destruct (Hal Ho) as [[Hs Hn]|(_ & Hn & _)]; [|done]. left. split; [done|].
    rewrite length_app in *. cbn [length app] in *. lia.
Qed.

(** The test, the encoding and the sending *)
Lemma test_served errs good base c r x w d o added :
  served errs good base c (mkDoing r x w ToTest :: d) o added →
  ∃ out, sendReply_test c = (c, Ok out) ∧
    served errs good base c ((if (out : bool) then [] else [mkDoing r x w ToEncode]) ++ d) o added.
Proof.
  intros [Hall Hd (l & Hl & Hdist & Hreq) Hresp Hrep Hcnt He Hlast Hal].
  apply Forall_cons in Hd as [Hx Hd].
  places d.
  unfold sendReply_test, get, mbind, M_bind. rewrite Hreq. eexists. split; [done|].
  assert (l = [] → base ++ waiting d = []) as Hle by (intros ->; symmetry; by apply Permutation_nil_l).
  assert (base ++ waiting d = [] → l = []) as Hel by (intros E; rewrite E in Hl; by apply Permutation_nil_r).
  assert (∃ l', l' ≡ₚ base ++ waiting d ∧ distinct l' ∧ _requests c = pairs l') as Hreq' by eauto.
  destruct l as [|r0 l]; cbn [pairs fmap list_fmap app].
  - split; places d; first [done|by constructor|by rewrite Hle|by left].
  - cbn [length] in Hcnt. split; try done; [lia|by intros E%Hel|].
    intros Ho. destruct (Hal Ho) as [[Hs Hn]|(_ & _ & E%Hel)]; [|done].
    left. split; [done|]. rewrite length_app in *. cbn [length] in Hn. lia.
Qed.

Lemma encode_served errs good base c r x w d o added :
  Forall (fun x => res_id x = JNull) errs → Forall (fun r => request_ok r ∧ plain (req_id r) = true) good →
  served errs good base c (mkDoing r x w ToEncode :: d) o added →
  ∃ b, sendReply_encode dumps code exn_str c = (c, Ok b) ∧ served errs good base c (mkDoing r x w (ToSend b) :: d) o added.
Proof.
  intros Herrs Hgood [Hall Hd Hreq Hresp Hrep Hcnt He Hlast Hal].
  apply Forall_cons in Hd as [Hx Hd].
  places d.
  destruct (reply_data_ok (_responses c)) as [b Hb].
  { rewrite Hresp. apply Forall_app. split; [eapply Forall_impl; [exact Herrs|]; by intros y ->|].
    apply Forall_fmap, Forall_forall. intros y Hy. rewrite <- Hall in Hgood. rewrite Forall_forall in Hgood.
    destruct (Hgood y) as [[Hn Hh] Hp]; [set_solver|]. cbn. by rewrite answer_id. }
  exists b. unfold sendReply_encode, get, lift, mbind, M_bind. rewrite Hb. split; [done|].
  rewrite Hresp in Hb. cbn [length] in Hcnt.
  split; places d; try done; [by constructor|..].
  - rewrite <- Permutation_middle. constructor; [|done]. exists (length added). rewrite take_ge by done. split; [lia|done].
  - intros _ _. right. exists b. split; [done|]. set_solver.
Qed.

Lemma send_served errs good base c r x w b d o added :
  served errs good base c (mkDoing r x w (ToSend b) :: d) o added →
  ∃ c', sendReply_send b c = (c', Ok ()) ∧ served errs good base c' d o added.
Proof.
  intros [Hall Hd Hreq Hresp Hrep Hcnt He Hlast Hal].
  apply Forall_cons in Hd as [Hx Hd].
  places d.
  eexists. split; [done|].
  assert (base ++ waiting d = []) as Hpend by (apply dec_stable; intros H; by destruct (He H)).
  split; cbn [_requests _responses sent]; places d; try done.
  - by rewrite <- app_assoc.
  - rewrite length_app. cbn [length] in *. lia.
  - intros _ Ha. destruct (Hlast Hpend Ha) as [Hk|(b' & H1 & H2)]; [by left|]. right. exists b'. by rewrite <- app_assoc.
  - intros Ho. destruct (Hal Ho) as [[Hs Hn]|(_ & Hn & _)]; [|by destruct (adding d)]. right. rewrite Hs. split_and!; [done| |done].
    rewrite length_app in Hn. cbn [length] in Hn. apply length_zero_iff_nil. rewrite length_app. lia.
Qed.

(** Any step of [requestDone] is possible, and keeps the state of the message. *)
Lemma done_served errs good base c e d o added :
  Forall (fun x => res_id x = JNull) errs → Forall (fun r => request_ok r ∧ plain (req_id r) = true) good →
  served errs good base c (e :: d) o added →
  ∃ c' next added', done_step (d_response e) (d_phase e) c = (c', Ok next) ∧
    served errs good base c' (advance e next ++ d) (o || overlaps e d) added'.
Proof.
  intros Herrs Hgood Hs. destruct e as [r x w p]. cbn [d_response d_phase].
  assert (p ≠ ToForget → o || overlaps (mkDoing r x w p) d = o) as Ho.
  { intros Hp. unfold overlaps, forgetting. cbn [d_phase]. destruct p; try done; by rewrite orb_false_r. }
  destruct p; cbn [requestDone_step]; unfold mbind, M_bind; [|rewrite Ho by done..].
  - destruct (forget_served _ _ _ _ _ _ _ _ _ _ Hs) as (c' & -> & H). by eauto 10.
  - destruct (add_served _ _ _ _ _ _ _ _ _ _ Hs) as (c' & -> & H). by eauto 10.
  - destruct (test_served _ _ _ _ _ _ _ _ _ _ Hs) as (out & -> & H). eexists _, _, added. split; [done|]. by destruct out.
  - destruct (encode_served _ _ _ _ _ _ _ _ _ _ Herrs Hgood Hs) as (b & -> & H). by eauto 10.
  - destruct (send_served _ _ _ _ _ _ _ _ _ _ _ Hs) as (c' & -> & H). by eauto 10.
Qed.

(** *** The steps of a message *)

Definition serving errs good (s : Serving) (added : list JsonRpcRequest) : Prop :=
  served errs good (s_loop s ++ s_queued s) (s_ctx s) (s_doing s) (s_overlap s) added ∧
  Forall (fun r => threadFactory r = None) (s_queued s).

Lemma serving_base errs good s added r :
  Forall (fun r => request_ok r ∧ plain (req_id r) = true) good → serving errs good s added →
  r ∈ s_loop s ++ s_queued s → request_ok r.
Proof.
  intros Hgood [Hs _] Hr. rewrite <- (sv_all _ _ _ _ _ _ _ Hs) in Hgood. rewrite Forall_forall in Hgood.
  apply Hgood. set_solver.
Qed.

Lemma serving_step errs good s s' added :
  Forall (fun x => res_id x = JNull) errs → Forall (fun r => request_ok r ∧ plain (req_id r) = true) good →
  serving errs good s added → serve_step s s' → ∃ added', serving errs good s' added'.
Proof.
  intros Herrs Hgood Hsv Hstep. pose proof (serving_base errs good s added) as Hbase. destruct Hsv as [Hs Hq].
  assert (∀ r x w d, request_ok r → x = answer r → Forall (fun e => d_response e = answer (d_request e) ∧ request_ok (d_request e)) d →
    Forall (fun e => d_response e = answer (d_request e) ∧ request_ok (d_request e)) (mkDoing r x w ToForget :: d)) as Hnew by (intros; by constructor).
  pose proof (sv_doing _ _ _ _ _ _ _ Hs) as Hd.
  destruct Hstep as [c r l q d o Hf Hw|c r l q d o e Hf Hw|c l q1 r q2 d o x Hh|c c' l q d e d' o next Hp Hst];
    cbn [s_loop s_queued s_ctx s_doing s_overlap] in *.
  - exists added. split; cbn [s_loop s_queued s_ctx s_doing s_overlap]; [|apply Forall_app; split; [done|by repeat constructor]].
    eapply served_perm; [..|exact Hs]; try done. f_equiv. by rewrite app_assoc, <- Permutation_cons_append.
  - exists added. split; [|done]. cbn [s_loop s_queued s_ctx s_doing s_overlap].
    eapply served_perm; [..|exact Hs]; try done.
    + unfold waiting at 2. cbn [omap list_omap d_phase d_request]. fold (waiting d). by rewrite <- Permutation_middle.
    + apply Hnew; [apply Hbase; [done|by split|set_solver]|unfold answer; by rewrite Hf|done].
  - apply Forall_app in Hq as [Hq1 [Hf Hq2]%Forall_cons]. exists added. split; [|by apply Forall_app].
    cbn [s_loop s_queued s_ctx s_doing s_overlap]. eapply served_perm; [..|exact Hs]; try done.
    + unfold waiting at 2. cbn [omap list_omap d_phase d_request]. fold (waiting d).
      rewrite !(app_assoc l), <- !Permutation_middle. done.
    + apply Hnew; [apply Hbase; [done|split; [done|]|]|unfold answer; by rewrite Hf, Hh|done].
      * cbn. apply Forall_app. by split; [|constructor].
      * set_solver.
  - apply (served_reorder _ _ _ _ _ _ _ _ Hp) in Hs.
    destruct (done_served _ _ _ _ _ _ _ _ Herrs Hgood Hs) as (c1 & next1 & added' & E & Hs'). rewrite Hst in E.
    injection E as -> ->. by exists added'.
Qed.

(** Whatever is left to do, something can be done. *)
Lemma serving_progress errs good s added :
  Forall (fun x => res_id x = JNull) errs → Forall (fun r => request_ok r ∧ plain (req_id r) = true) good →
  serving errs good s added → ¬ finished s → ∃ s', serve_step s s'.
Proof.
  intros Herrs Hgood Hsv Hne. destruct s as [c l q d o]. destruct d as [|e d].
  - destruct l as [|r l].
    + destruct q as [|r q]; [by destruct Hne|].
      destruct (serving_base _ _ _ _ r Hgood Hsv) as [Hn _]; [set_solver|].
      destruct (handle_answers r Hn) as (x & Hx & _). eexists. by apply (step_serve c [] [] r q).
    + destruct (threadFactory r) as [e|] eqn:Ef; eexists; [by eapply step_reject|by eapply step_queue].
  - destruct Hsv as [Hs _]. destruct (done_served _ _ _ _ _ _ _ _ Herrs Hgood Hs) as (c1 & next & added' & E & _).
    eexists. by eapply step_done.
Qed.

(** The steps a request still takes *)
Definition phase_work (e : Doing) : nat :=
  match d_phase e with ToForget => 5 | ToAdd => 4 | ToTest => 3 | ToEncode => 2 | ToSend _ => 1 end.

Definition work (s : Serving) : nat :=
  7 * length (s_loop s) + 6 * length (s_queued s) + sum_list (phase_work <$> s_doing s).

Lemma step_work s s' : serve_step s s' → (work s' < work s)%nat.
Proof.
  destruct 1 as [c r l q d o Hf Hw|c r l q d o e Hf Hw|c l q1 r q2 d o x Hh|c c' l q d e d' o next Hp Hst];
    unfold work; cbn [s_loop s_queued s_doing fmap list_fmap sum_list length]; rewrite ?length_app; cbn [length phase_work d_phase id]; try lia.
  rewrite Hp. cbn [fmap list_fmap sum_list id]. rewrite fmap_app, sum_list_with_app.
  assert (sum_list (phase_work <$> advance e next) < phase_work e)%nat; [|unfold id in *; lia].
  unfold phase_work at 2. destruct (d_phase e); cbn [requestDone_step] in Hst; unfold mbind, M_bind, mret, M_ret in Hst;
    repeat case_match; simplify_eq; cbn; lia.
Qed.

Lemma steps_work n s s' : nsteps serve_step n s s' → (n + work s' <= work s)%nat.
Proof. induction 1 as [|n s s1 s' H1 H IH]; [lia|]. apply step_work in H1. lia. Qed.

Abbreviation parse := (parse_message loads dumps code exn_str).

Lemma parse_message_items msg raw :
  loads msg = Some raw → raw ≠ JList [] →
  parse msg Ctx_init =
    (setRequests dumps code exn_str (good_requests (items raw)) ;;
     c ← get; (if _counter c =? 0 then sendReply dumps code exn_str else mret ()) ;;
     mret (good_requests (items raw))) (mkCtx 0 [] (bad_responses (items raw)) []).
Proof.
  intros Hl Hne. unfold parse_message. rewrite Hl. destruct raw as [| | | | |[|x l]| |]; try done;
    unfold mbind, M_bind; rewrite parse_requests_spec; done.
Qed.

Lemma parse_message_spec msg raw :
  loads msg = Some raw → Forall request_ok (good_requests (items raw)) → distinct (good_requests (items raw)) →
  good_requests (items raw) ≠ [] →
  ∃ c0, parse msg Ctx_init = (c0, Ok (good_requests (items raw))) ∧
    serving (bad_responses (items raw)) (good_requests (items raw)) (mkServing c0 (good_requests (items raw)) [] [] false) [].
Proof.
  intros Hl Hok Hd Hne. rewrite (parse_message_items msg raw Hl) by (by intros ->).
  set (good := good_requests (items raw)) in *. set (errs := bad_responses (items raw)).
  unfold setRequests, mbind, M_bind. rewrite (set_requests_spec good [] (mkCtx 0 [] errs [])) by done.
  cbn [_counter _responses sent app]. unfold sendReply, sendReply_test, mbind, M_bind, get. cbn [_requests].
  destruct good as [|r good'] eqn:E; [done|]. cbn [pairs fmap list_fmap mret M_ret _counter].
  assert (0 + zlen (r :: good') =? 0 = false) as -> by (apply Z.eqb_neq; unfold zlen; cbn [length]; lia).
  eexists. split; [done|]. split; [|constructor].
  split; cbn [s_loop s_queued s_ctx s_doing s_overlap waiting adding tested omap list_omap _requests _responses sent];
    rewrite ?app_nil_r; try done; [by exists (r :: good')|intros _; left; cbn; split; [done|lia]].
Qed.

Lemma serving_steps errs good s s' added :
  Forall (fun x => res_id x = JNull) errs → Forall (fun r => request_ok r ∧ plain (req_id r) = true) good →
  serving errs good s added → rtc serve_step s s' → ∃ added', serving errs good s' added'.
Proof.
  intros Herrs Hgood Hs Hst. revert added Hs. induction Hst as [|s s1 s' H1 H IH]; intros added Hs; [eauto|].
  destruct (serving_step errs good s s1 added) as [added' Hs']; eauto.
Qed.

(** What is known at the end *)
Lemma serving_finished errs good s added :
  good ≠ [] → serving errs good s added → finished s →
  added ≡ₚ good ∧ (1 <= length (sent (s_ctx s)) <= length good)%nat ∧ Forall (reply_of errs added) (sent (s_ctx s)) ∧
  (∃ b, b ∈ sent (s_ctx s) ∧ data (errs ++ (answer <$> added)) = Ok b) ∧
  (s_overlap s = false → length (sent (s_ctx s)) = 1%nat).
Proof.
  intros Hne [Hs _] (Hl & Hq & Hd). rewrite Hl, Hq, Hd in Hs. destruct Hs as [Hall _ _ _ Hrep Hcnt _ Hlast Hal].
  cbn [waiting adding tested looking written omap list_omap app length] in *. rewrite app_nil_r in *.
  destruct Hlast as [?|(b & Hb & Hin)]; [done..|].
  assert (sent (s_ctx s) ≠ []) as Hsent by (intros E; rewrite E in Hin; by apply elem_of_nil in Hin).
  split_and!; [done| |by rewrite Nat.add_0_r, Hall in Hcnt|done|by eauto|].
  - destruct (sent (s_ctx s)); [done|cbn; lia].
  - intros Ho. by destruct (Hal Ho) as [[? _]|[? _]].
Qed.

(** C23: the reply to a batch.  Take a message with requests, all with different ids that can be keys, none a notification.
    Its requests are run by the loop over them and served by threads, and [requestDone] takes no lock: any two
    calls of it may interleave at its removal, its appending, its test, its encoding and its sending.  Serving ends after
    at most seven steps per request and is never stuck before; nothing is sent while a request
    is not removed; and at the end the replies are at least one and at most one per request, each with the errors of the
    items that are not requests and the responses to the first of the requests in the order [order] in which they were added,
    and one of them with the response to every request: its result, its error, or the error of
    queueing it.  There is exactly one reply when no request was removed while another call was between its removal
    and its end. *)
Theorem batch_reply msg raw :
  let good := good_requests (items raw) in
  let errs := bad_responses (items raw) in
  loads msg = Some raw → good ≠ [] → Forall request_ok good → distinct good →
  ∃ c0, parse msg Ctx_init = (c0, Ok good) ∧
    ∀ n s, nsteps serve_step n (mkServing c0 good [] [] false) s →
      (n <= 7 * length good)%nat ∧ (¬ finished s → ∃ s', serve_step s s') ∧
      (unremoved s ≠ [] → sent (s_ctx s) = []) ∧
      (finished s → ∃ order,
         order ≡ₚ good ∧ (1 <= length (sent (s_ctx s)) <= length good)%nat ∧
         Forall (reply_of errs order) (sent (s_ctx s)) ∧
         (∃ b, b ∈ sent (s_ctx s) ∧ data (errs ++ (answer <$> order)) = Ok b) ∧
         (s_overlap s = false → length (sent (s_ctx s)) = 1%nat)).
Proof.
  intros good errs Hl Hne Hok Hd. destruct (parse_message_spec msg raw Hl Hok Hd Hne) as (c0 & E & Hs).
  exists c0. split; [done|]. intros n s Hst. pose proof (bad_responses_ids (items raw)) as Herrs.
  assert (Forall (fun r => request_ok r ∧ plain (req_id r) = true) good) as Hgood.
  { apply Forall_and. split; [done|]. eapply good_requests_plain, loads_plain; [exact HD|exact Hl]. }
  destruct (serving_steps _ _ _ s _ Herrs Hgood Hs) as [added Hs']; [by eapply rtc_nsteps_2|].
  split_and!.
  - apply steps_work in Hst. unfold work in Hst. cbn [s_loop s_queued s_doing fmap list_fmap sum_list length] in Hst. lia.
  - by eapply serving_progress.
  - intros Hu. apply (sv_early _ _ _ _ _ _ _ (proj1 Hs')). unfold unremoved in Hu. by rewrite <- app_assoc.
  - intros Hf. exists added. by apply serving_finished.
Qed.

Lemma send_now c b :
  _requests c = [] → data (_responses c) = Ok b →
  sendReply dumps code exn_str c = (mkCtx (_counter c) [] (_responses c) (sent c ++ [b]), Ok ()).
Proof. intros Hr Hb. unfold sendReply, sendReply_test, sendReply_encode, sendReply_send, get, mbind, M_bind, lift, modify, mret, M_ret. by rewrite Hr, Hb, Hr. Qed.

Lemma null_data rs : Forall (fun x => res_id x = JNull) rs → ∃ b, data rs = Ok b.
Proof. intros H. apply reply_data_ok. eapply Forall_impl; [exact H|]. by intros x ->. Qed.

Lemma notifications_skip rs c :
  Forall (fun r => isNotification r = true) rs → for_each rs set_request c = (c, Ok ()).
Proof. induction 1 as [|r rs Hr H IH]; [done|]. cbn [for_each]. unfold mbind, M_bind, set_request. by rewrite Hr. Qed.

(** The requests that come before one whose id cannot be a key *)
Lemma unhashable_raises rs r rest c :
  Forall request_ok rs → isNotification r = false → hashable (req_id r) = false →
  ∃ c' e, for_each (rs ++ r :: rest) set_request c = (c', Raise e) ∧ sent c' = sent c.
Proof.
  intros H Hn Hh. revert c. induction H as [|x rs Hx H IH]; intros c; cbn [for_each app]; unfold mbind, M_bind.
  - unfold set_request at 1. rewrite Hn, Hh. by do 2 eexists.
  - rewrite set_request_ok by done. destruct (IH (mkCtx (_counter c + 1) (requests_set (req_id x) x (_requests c)) (_responses c) (sent c)))
      as (c' & e & E & Hs). exists c', e. by rewrite E.
Qed.

Lemma parse_unhashable msg raw pre r rest :
  loads msg = Some raw → good_requests (items raw) = pre ++ r :: rest → Forall request_ok pre →
  isNotification r = false → hashable (req_id r) = false →
  ∃ c e, parse msg Ctx_init = (c, Raise e) ∧ sent c = [].
Proof.
  intros Hl Hg Hpre Hn Hh. rewrite (parse_message_items msg raw Hl) by (intros ->; by destruct pre).
  unfold setRequests, mbind, M_bind. rewrite Hg.
  destruct (unhashable_raises pre r rest (mkCtx 0 [] (bad_responses (items raw)) []) Hpre Hn Hh) as (c & e & -> & Hs).
  by exists c, e.
Qed.

(** One such request ends the thread that serves all messages. *)
Lemma server_ends msg raw r queue :
  loads msg = Some raw → good_requests (items raw) = [r] → isNotification r = false → hashable (req_id r) = false →
  ∃ c e, serve_requests loads dumps code exn_str threadFactory (Some msg :: queue) = ([c], Some e) ∧ sent c = [].
Proof.
  intros Hl Hg Hn Hh. destruct (parse_unhashable msg raw [] r [] Hl Hg) as (c & e & E & Hs); [constructor|done|done|].
  exists c, e. cbn [serve_requests]. unfold _parseMessage, mbind, M_bind. by rewrite E.
Qed.

(** C24: Other messages.  Text that is not JSON and an empty batch get one error reply.
    A message without a request that has an id, only notifications and items that
    are not requests, gets the same reply twice before anything is served.  A
    request whose id is a list or an object ends in an exception and gets no reply. *)
Theorem odd_messages msg :
  match loads msg with
  | None => ∃ b, data [JsonRpcResponse_init JNull (Some ParseError) JNull] = Ok b ∧
              ∃ c, parse msg Ctx_init = (c, Ok []) ∧ sent c = [b]
  | Some (JList []) =>
      ∃ b, data [JsonRpcResponse_init JNull (Some (InvalidRequest (str "request batch is empty") (JList []))) JNull] = Ok b ∧
        ∃ c, parse msg Ctx_init = (c, Ok []) ∧ sent c = [b]
  | Some raw =>
      (Forall (fun r => isNotification r = true) (good_requests (items raw)) →
         ∃ b, data (bad_responses (items raw)) = Ok b ∧
           ∃ c, parse msg Ctx_init = (c, Ok (good_requests (items raw))) ∧ sent c = [b; b]) ∧
      (∀ pre r rest, good_requests (items raw) = pre ++ r :: rest → Forall request_ok pre →
         isNotification r = false → hashable (req_id r) = false →
         ∃ c e, parse msg Ctx_init = (c, Raise e) ∧ sent c = [])
  end.
Proof.
  destruct (loads msg) as [raw|] eqn:Hl.
  - assert (raw ≠ JList [] →
      (Forall (fun r => isNotification r = true) (good_requests (items raw)) →
         ∃ b, data (bad_responses (items raw)) = Ok b ∧
           ∃ c, parse msg Ctx_init = (c, Ok (good_requests (items raw))) ∧ sent c = [b; b]) ∧
      (∀ pre r rest, good_requests (items raw) = pre ++ r :: rest → Forall request_ok pre →
         isNotification r = false → hashable (req_id r) = false →
         ∃ c e, parse msg Ctx_init = (c, Raise e) ∧ sent c = [])) as H.
    { intros Hne. split.
      - intros Hn. rewrite (parse_message_items msg raw Hl Hne). unfold setRequests, mbind, M_bind. rewrite notifications_skip by done. destruct (null_data _ (bad_responses_ids (items raw))) as [b Hb].
        exists b. split; [done|]. rewrite (send_now _ b) by done. unfold get. cbn [_counter]. cbn [Z.eqb].
        rewrite (send_now _ b) by done. eexists. split; [done|]. done.
      - intros pre r rest Hg Hpre Hn Hh. by eapply parse_unhashable. }
    destruct raw as [| | | | |[|x l]| |]; try (by apply H).
    destruct (null_data [JsonRpcResponse_init JNull (Some (InvalidRequest (str "request batch is empty") (JList []))) JNull]) as [b Hb];
      [by repeat constructor|]. exists b. split; [done|]. unfold parse_message. rewrite Hl.
    unfold addResponse, modify, mbind, M_bind. rewrite (send_now _ b) by done. by eexists.
  - destruct (null_data [JsonRpcResponse_init JNull (Some ParseError) JNull]) as [b Hb]; [by repeat constructor|].
    exists b. split; [done|]. unfold parse_message. rewrite Hl.
    unfold addResponse, modify, mbind, M_bind. rewrite (send_now _ b) by done. by eexists.
Qed.

(** A notification for a method that exists is answered although it has no id. *)
Lemma notification_answered r call v b :
  ready = true → isNotification r = true → bridge (method r) = Found call → call (params r) = Ok (Value v) → v ≠ JNull →
  data [JsonRpcResponse_init v None JNull] = Ok b →
  ∃ c, _serveRequest dumps code exn_str bridge ready r Ctx_init = (c, Ok ()) ∧ sent c = [b].
Proof.
  intros Hready Hn Hb Hc Hv Hd. unfold _serveRequest, _handle_request. rewrite Hready, Hb, Hc.
  assert (req_id r = JNull) as Hid by (unfold isNotification in Hn; by destruct (req_id r)).
  assert (match v with
          | JNull => Ok (Some (JsonRpcResponse_init (JBool true) None (req_id r)))
          | _ => Ok (E := exn) (Some (JsonRpcResponse_init v None (req_id r)))
          end = Ok (Some (JsonRpcResponse_init v None JNull))) as Hm by (rewrite Hid; by destruct v).
  rewrite Hm. unfold lift, requestDone, forget, addResponse, modify, mbind, M_bind. cbn [res_id JsonRpcResponse_init hashable negb].
  rewrite (send_now _ b) by done. by eexists.
Qed.
End serving.

(** ** A batch *)

(** A bridge with one method, which returns its parameters; everything is written as
    the id of the response. *)
Definition echo (m : json) : dispatched :=
  match m with JStr _ => Found (fun p => Ok (Value p)) | _ => NotFound end.

Definition dump_id (j : json) : option text :=
  match j with
  | JObj o => match dict_get (str "id") o with Some (JInt n) => Some (dec (Z.abs n)) | _ => Some (str "null") end
  | _ => Some (str "null")
  end.

Definition call_of (n : Z) : json :=
  JObj [(str "jsonrpc", JStr (str "2.0")); (str "method", JStr (str "Host.ping")); (str "id", JInt n)].

(** The message: two calls and an item that is not a request *)
Definition sample_loads (b : bytes) : option json :=
  match b with [1] => Some (JList [call_of 7; JInt 3; call_of 8]) | _ => None end.

(** The second call cannot be queued. *)
Definition sample_factory (r : JsonRpcRequest) : option exn :=
  match req_id r with JInt 8 => Some (ContextException 1001 (str "too many tasks")) | _ => None end.

Lemma sample_dumps l :
  (∀ msg j, l msg = Some j → plain j = true) → DumpsLaws l dump_id (fun _ => 0) (fun _ => []).
Proof.
  intros Hl. split; [exact Hl|..].
  - intros j t. unfold dump_id. assert (Forall (fun c => 0 <= c < 128) (str "null")) as Hn by (by repeat constructor).
    assert (∀ n, Forall (fun c => 0 <= c < 128) (dec (Z.abs n))) as Hdec.
    { intros n. eapply Forall_impl; [apply dec_is_digits, Z.abs_nonneg|]. cbn. unfold is_digit. intros c Hc.
      apply andb_true_iff in Hc as [?%Z.leb_le ?%Z.leb_le]. lia. }
    destruct j; try (by intros [= <-]). destruct (dict_get (str "id") o) as [[]|]; by intros [= <-].
  - intros e id _ _. cbn. by destruct id; eexists.
Qed.

Lemma sample_plain msg j : sample_loads msg = Some j → plain j = true.
Proof. unfold sample_loads. repeat case_match; by intros [= <-]. Qed.

Abbreviation sample_step f := (serve_step dump_id (fun _ => 0) (fun _ => []) echo true f).

Lemma batch_reply_witness :
  ∃ c0, parse_message sample_loads dump_id (fun _ => 0) (fun _ => []) [1] Ctx_init
          = (c0, Ok (good_requests [call_of 7; JInt 3; call_of 8])) ∧
    ∀ n s, nsteps (sample_step sample_factory) n
             (mkServing c0 (good_requests [call_of 7; JInt 3; call_of 8]) [] [] false) s →
      (n <= 14)%nat ∧ (finished s → (1 <= length (sent (s_ctx s)) <= 2)%nat ∧
                              (s_overlap s = false → length (sent (s_ctx s)) = 1%nat)).
Proof.
  destruct (batch_reply sample_loads dump_id (fun _ => 0) (fun _ => []) echo true sample_factory (sample_dumps _ sample_plain))
    with (msg := [1]) (raw := JList [call_of 7; JInt 3; call_of 8]) as (c0 & E & H).
  - by intros [] e.
  - reflexivity.
  - done.
  - repeat constructor.
  - split; [|split]; repeat constructor.
  - exists c0. split; [exact E|]. intros n s Hs. destruct (H n s Hs) as (Hn & _ & _ & Hf). split; [exact Hn|].
    intros Hd. destruct (Hf Hd) as (order & _ & Hl & _ & _ & Ho). by split.
Defined.

(** The calls of [requestDone] of two threads do overlap: both remove their requests before either looks
    whether it was the last one.  The first reply lacks a response, and the second repeats the other. *)
Lemma batch_race :
  let good := good_requests [call_of 7; call_of 8] in
  ∃ s, rtc (sample_step (fun _ => None)) (mkServing (mkCtx 2 (pairs good) [] []) good [] [] false) s ∧
    finished s ∧ sent (s_ctx s) = [str "7"; str "[7,8]"].
Proof.
  cbn zeta. eexists. split; [|split; [|]].
  - eapply rtc_l; [apply step_queue; done|]. eapply rtc_l; [apply step_queue; [done|constructor]|]. cbn [app].
    eapply rtc_l; [eapply (step_serve _ _ _ _ _ _ _ _ []); reflexivity|]. cbn [app].
    eapply rtc_l; [eapply (step_serve _ _ _ _ _ _ _ _ []); reflexivity|]. cbn [app].
    do 3 (eapply rtc_l; [eapply step_done; [apply perm_swap|vm_compute; reflexivity]|]; cbn [advance app d_phase d_request d_response d_loop]).
    do 7 (eapply rtc_l; [eapply step_done; [reflexivity|vm_compute; reflexivity]|]; cbn [advance app d_phase d_request d_response d_loop]).
    apply rtc_refl.
  - done.
  - vm_compute. reflexivity.
Qed.

Lemma odd_messages_witness :
  ∃ c, parse_message (fun _ => Some (JInt 3)) dump_id (fun _ => 0) (fun _ => []) [] Ctx_init = (c, Ok []) ∧
    sent c = [str "null"; str "null"].
Proof.
  destruct (odd_messages (fun _ => Some (JInt 3)) dump_id (fun _ => 0) (fun _ => [])
    (sample_dumps (fun _ => Some (JInt 3)) ltac:(by intros msg j [= <-])) []) as [H _].
  destruct H as (b & Hb & c & Hc & Hs); [constructor|]. exists c. split; [exact Hc|].
  rewrite Hs. vm_compute in Hb. injection Hb as <-. reflexivity.
Defined.
