(* ===== verification/Heap.v ===== *)
(** * Binary heaps: Python's [heapq]

    [heappush] and [heappop] with their two loops, on lists of items compared by a
    number, and the order and the contents of the heaps they give. *)
From Stdlib Require Import ZArith Lia.
From stdpp Require Import base list.
From S2P Require Import Prelude.

Section heap.
  Context {A : Type} `{!Inhabited A} (key : A → Z).

(** [a < b] *)
Definition item_lt (a b : A) : bool := key a <? key b.

(** [(pos - 1) >> 1] *)
Definition parent (pos : nat) : nat := Nat.div2 (pos - 1).

(** [_siftdown(heap, 0, pos)], with the new item in hand; [pos] bounds the moves. *)
Fixpoint siftdown (fuel : nat) (heap : list A) (pos : nat) (newitem : A) : list A :=
  match fuel with
  | O => <[pos := newitem]> heap
  | S fuel' =>
      if (0 <? pos)%nat then
        let p := heap !!! parent pos in
        if item_lt newitem p then siftdown fuel' (<[pos := p]> heap) (parent pos) newitem
        else <[pos := newitem]> heap
      else <[pos := newitem]> heap
  end.

(** The loop of [_siftup]: the smaller child moves up until a leaf is free. *)
Fixpoint to_leaf (fuel : nat) (heap : list A) (pos : nat) : list A * nat :=
  match fuel with
  | O => (heap, pos)
  | S fuel' =>
      let childpos := (2 * pos + 1)%nat in
      if (childpos <? length heap)%nat then
        let rightpos := S childpos in
        let c := if (rightpos <? length heap)%nat && negb (item_lt (heap !!! childpos) (heap !!! rightpos))
                 then rightpos else childpos in
        to_leaf fuel' (<[pos := heap !!! c]> heap) c
      else (heap, pos)
  end.

(** [_siftup(heap, 0)] *)
Definition siftup (heap : list A) (newitem : A) : list A :=
  let '(heap', pos) := to_leaf (length heap) heap 0 in siftdown pos heap' pos newitem.

Definition heappush (heap : list A) (item : A) : list A := siftdown (length heap) (heap ++ [item]) (length heap) item.

(** [heappop]: [None] is an IndexError *)
Definition heappop (heap : list A) : option (A * list A) :=
  match last heap with
  | None => None
  | Some lastelt =>
      match take (length heap - 1) heap with
      | [] => Some (lastelt, [])
      | returnitem :: rest => Some (returnitem, siftup (returnitem :: rest) lastelt)
      end
  end.

(** ** Order *)

Abbreviation at_ l i := (key (l !!! i)).

Definition heap_ordered (l : list A) : Prop := ∀ i, (0 < i < length l)%nat → at_ l (parent i) <= at_ l i.

(** Ordered but for position [p], whose children are still above its parent *)
Definition hole_ok (l : list A) (p : nat) : Prop :=
  (∀ i, (0 < i < length l)%nat → i ≠ p → parent i ≠ p → at_ l (parent i) <= at_ l i) ∧
  (∀ i, (0 < i < length l)%nat → (0 < p)%nat → parent i = p → at_ l (parent p) <= at_ l i).

Lemma parent_lt i : (0 < i)%nat → (parent i < i)%nat.
Proof. intros H. unfold parent. pose proof (Nat.div2_decr (i - 1) (i - 1)). lia. Qed.

Lemma parent_child p i : (0 < i)%nat → parent i = p ↔ (i = 2 * p + 1 ∨ i = 2 * p + 2)%nat.
Proof.
  intros Hi. unfold parent. rewrite Nat.div2_div. pose proof (Nat.div_mod_eq (i - 1) 2). pose proof (Nat.mod_upper_bound (i - 1) 2). lia.
Qed.

Lemma at_insert_eq (l : list A) (p : nat) (x : A) : (p < length l)%nat → at_ (<[p := x]> l) p = key x.
Proof. intros H. by rewrite list_lookup_total_insert_eq. Qed.

Lemma at_insert_ne (l : list A) (p q : nat) (x : A) : p ≠ q → at_ (<[p := x]> l) q = at_ l q.
Proof. intros H. by rewrite list_lookup_total_insert_ne. Qed.

Lemma heap_hole l p : heap_ordered l → hole_ok l p.
Proof.
  intros H. split; [auto|]. intros i Hi Hp E. etrans; [apply H|].
  - split; [done|]. pose proof (parent_lt i). lia.
  - rewrite <- E. by apply H.
Qed.

Lemma hole_moves_up l p :
  hole_ok l p → (0 < p < length l)%nat → hole_ok (<[p := l !!! parent p]> l) (parent p).
Proof.
  intros [H1 H2] Hp. pose proof (parent_lt p). set (q := parent p) in *. split; rewrite length_insert.
  - intros i Hi Hne Hpar. assert (i ≠ p) as Hip by (by intros ->). rewrite (at_insert_ne _ _ i) by done.
    destruct (decide (parent i = p)) as [E|E].
    + rewrite E, at_insert_eq by lia. apply H2; [done|lia|done].
    + rewrite at_insert_ne by done. by apply H1.
  - intros i Hi Hq E. pose proof (parent_lt q). rewrite (at_insert_ne _ _ (parent q)) by lia.
    assert (at_ l (parent q) <= at_ l q) as Hpq by (apply H1; lia).
    destruct (decide (i = p)) as [->|Hip]; [by rewrite at_insert_eq by lia|]. rewrite at_insert_ne by done.
    etrans; [exact Hpq|]. rewrite <- E. apply H1; [done|done|lia].
Qed.

Lemma siftdown_ordered fuel l p x :
  hole_ok l p → (p < length l)%nat → (p <= fuel)%nat →
  (∀ i, (0 < i < length l)%nat → parent i = p → key x <= at_ l i) → heap_ordered (siftdown fuel l p x).
Proof.
  revert l p. induction fuel as [|fuel IH]; intros l p Hh Hp Hf Hx.
  { assert (p = 0%nat) as -> by lia. cbn [siftdown]. intros i Hi. rewrite length_insert in Hi.
    rewrite (at_insert_ne _ 0 i) by lia. destruct (decide (parent i = 0%nat)) as [E|E].
    - rewrite E, at_insert_eq by done. by apply Hx.
    - rewrite at_insert_ne by done. apply Hh; [done|lia|done]. }
  assert (((0 < p)%nat → at_ l (parent p) <= key x) → heap_ordered (<[p := x]> l)) as Hstop.
  { intros Hpx i Hi. rewrite length_insert in Hi. pose proof (parent_lt i). destruct (decide (i = p)) as [->|Hip].
    - rewrite at_insert_eq, at_insert_ne by lia. apply Hpx. lia.
    - rewrite (at_insert_ne _ _ i) by done. destruct (decide (parent i = p)) as [E|E].
      + rewrite E, at_insert_eq by done. by apply Hx.
      + rewrite at_insert_ne by done. by apply Hh. }
  cbn [siftdown]. destruct (Nat.ltb_spec 0 p) as [H0|H0]; [|apply Hstop; lia].
  unfold item_lt. destruct (Z.ltb_spec (key x) (at_ l (parent p))) as [Hlt|Hge]; [|by apply Hstop].
  pose proof (parent_lt p H0). apply IH; [by apply hole_moves_up|rewrite length_insert; lia|lia|].
  intros i Hi E. rewrite length_insert in Hi. destruct (decide (i = p)) as [->|Hip].
  - rewrite at_insert_eq by lia. lia.
  - rewrite at_insert_ne by done. assert (at_ l (parent i) <= at_ l i) by (apply Hh; [done|done|lia]). rewrite E in *. lia.
Qed.

(** A leaf is reached, with the order kept around it. *)
Lemma to_leaf_spec fuel l p l' p' :
  hole_ok l p → (p < length l)%nat → (length l <= fuel + p)%nat → to_leaf fuel l p = (l', p') →
  hole_ok l' p' ∧ length l' = length l ∧ (p' < length l)%nat ∧ (length l <= 2 * p' + 1)%nat.
Proof.
  revert l p. induction fuel as [|fuel IH]; intros l p Hh Hp Hf; cbn [to_leaf].
  { lia. }
  destruct (Nat.ltb_spec (2 * p + 1) (length l)) as [Hc|Hc]; [|intros [= <- <-]; split_and!; done || lia].
  set (c := if _ : bool then _ else _). intros E.
  assert ((c = 2 * p + 1 ∨ c = 2 * p + 2)%nat ∧ (c < length l)%nat ∧
    ∀ i, (0 < i < length l)%nat → parent i = p → at_ l c <= at_ l i) as (Hcp & Hcl & Hmin).
  { subst c. destruct (Nat.ltb_spec (S (2 * p + 1)) (length l)) as [Hr|Hr]; cbn [andb].
    - unfold item_lt. destruct (Z.ltb_spec (at_ l (2 * p + 1)%nat) (at_ l (S (2 * p + 1)))) as [Hlt|Hge]; cbn [negb].
      + split_and!; [lia|lia|]. intros i Hi [-> | ->]%parent_child; try lia. replace (2 * p + 2)%nat with (S (2 * p + 1)) by lia. lia.
      + split_and!; [lia|lia|]. intros i Hi [-> | ->]%parent_child; try lia. replace (2 * p + 2)%nat with (S (2 * p + 1)) by lia. lia.
    - split_and!; [lia|lia|]. intros i Hi [-> | ->]%parent_child; lia. }
  assert (parent c = p) as Hpar by (apply parent_child; lia).
  apply IH in E; [by rewrite length_insert in E| |rewrite length_insert; lia|rewrite length_insert; lia].
  split; rewrite length_insert.
  - intros i Hi Hne Hnp. destruct (decide (i = p)) as [->|Hip].
    + pose proof (parent_lt p). rewrite at_insert_eq, at_insert_ne by lia. apply Hh; [lia|lia|done].
    + rewrite (at_insert_ne _ _ i) by done. destruct (decide (parent i = p)) as [E'|E'].
      * rewrite E', at_insert_eq by done. by apply Hmin.
      * rewrite at_insert_ne by done. by apply Hh.
  - intros i Hi _ Ei. rewrite Hpar, at_insert_eq by done. pose proof (parent_lt i). rewrite at_insert_ne by lia.
    rewrite <- Ei. apply Hh; [done|lia|lia].
Qed.

(** ** Contents *)

Lemma insert_swap (l : list A) (i : nat) (x y : A) : l !! i = Some y → y :: <[i := x]> l ≡ₚ x :: l.
Proof.
  revert i. induction l as [|z l IH]; intros [|i] H; simplify_eq/=; [apply Permutation_swap|].
  rewrite Permutation_swap, (IH i H). apply Permutation_swap.
Qed.

Lemma insert_move (l : list A) (p q : nat) (x : A) :
  p ≠ q → (p < length l)%nat → (q < length l)%nat → <[q := x]> (<[p := l !!! q]> l) ≡ₚ <[p := x]> l.
Proof.
  intros Hne Hp Hq. apply lookup_lt_is_Some_2 in Hp as [z Hz], Hq as [y Hy].
  rewrite (list_lookup_total_correct _ _ _ Hy).
  apply (Permutation_cons_inv (a := y)), (Permutation_cons_inv (a := z)).
  rewrite (insert_swap (<[p := y]> l) q x y) by (by rewrite list_lookup_insert_ne).
  transitivity (x :: z :: <[p := y]> l); [apply perm_swap|]. rewrite (insert_swap l p y z Hz).
  transitivity (y :: x :: l); [apply perm_swap|]. rewrite <- (insert_swap l p x z Hz). apply perm_swap.
Qed.

Lemma siftdown_perm fuel l p x : (p < length l)%nat → siftdown fuel l p x ≡ₚ <[p := x]> l.
Proof.
  revert l p. induction fuel as [|fuel IH]; intros l p Hp; cbn [siftdown]; [done|].
  destruct (Nat.ltb_spec 0 p) as [H0|]; [|done]. destruct (item_lt x _); [|done].
  pose proof (parent_lt p H0). rewrite IH by (rewrite length_insert; lia). apply insert_move; lia.
Qed.

Lemma to_leaf_perm fuel l p l' p' x :
  (p < length l)%nat → to_leaf fuel l p = (l', p') → <[p' := x]> l' ≡ₚ <[p := x]> l.
Proof.
  revert l p. induction fuel as [|fuel IH]; intros l p Hp; cbn [to_leaf]; [by intros [= <- <-]|].
  destruct (Nat.ltb_spec (2 * p + 1) (length l)) as [Hc|Hc]; [|by intros [= <- <-]].
  set (c := if _ : bool then _ else _). intros E.
  assert (p ≠ c ∧ (c < length l)%nat) as [Hpc Hcl].
  { subst c. destruct (Nat.ltb_spec (S (2 * p + 1)) (length l)); cbn [andb]; [|lia]. destruct (negb _); lia. }
  apply IH in E; [|by rewrite length_insert]. rewrite E. by apply insert_move.
Qed.

(** ** Pushing and popping *)

Lemma heap_prefix l x : heap_ordered (l ++ [x]) → heap_ordered l.
Proof.
  intros H i Hi. pose proof (parent_lt i). specialize (H i). rewrite length_app in H. cbn [length] in H.
  rewrite !lookup_total_app_l in H by lia. apply H. lia.
Qed.

Lemma heappush_ordered l x : heap_ordered l → heap_ordered (heappush l x).
Proof.
  intros H. unfold heappush. assert (∀ i, (0 < i < length (l ++ [x]))%nat → parent i ≠ length l) as Hleaf.
  { intros i Hi. rewrite length_app in Hi. cbn in Hi. pose proof (parent_lt i). lia. }
  apply siftdown_ordered; [|rewrite length_app; cbn; lia|done|intros i Hi E; by apply Hleaf in E].
  split; [|intros i Hi _ E; by apply Hleaf in E]. intros i Hi Hne _. rewrite length_app in Hi. cbn in Hi.
  pose proof (parent_lt i). rewrite !lookup_total_app_l by lia. apply H. lia.
Qed.

Lemma heappush_perm l x : heappush l x ≡ₚ x :: l.
Proof.
  unfold heappush. rewrite siftdown_perm by (rewrite length_app; cbn; lia).
  rewrite list_insert_id by (by rewrite lookup_app_r, Nat.sub_diag). by rewrite <- Permutation_cons_append.
Qed.

(** The first item is the smallest. *)
Lemma heap_head l x : heap_ordered l → head l = Some x → ∀ y, y ∈ l → key x <= key y.
Proof.
  intros H Hx y [i Hi]%list_elem_of_lookup. destruct l as [|x' l]; [done|]. injection Hx as ->.
  revert y Hi. induction (lt_wf i) as [i _ IH]. intros y Hi. pose proof (lookup_lt_Some _ _ _ Hi) as Hlt.
  destruct (decide (i = 0%nat)) as [->|H0]; [by simplify_eq/=|]. pose proof (parent_lt i).
  destruct (lookup_lt_is_Some_2 (x :: l) (parent i)) as [z Hz]; [lia|]. specialize (IH (parent i) ltac:(lia) z Hz).
  specialize (H i ltac:(lia)). rewrite (list_lookup_total_correct _ _ _ Hi), (list_lookup_total_correct _ _ _ Hz) in H. lia.
Qed.

Lemma heappop_spec l :
  heap_ordered l → l ≠ [] →
  ∃ x l', heappop l = Some (x, l') ∧ head l = Some x ∧ l ≡ₚ x :: l' ∧ heap_ordered l'.
Proof.
  intros H Hne. unfold heappop. destruct (last l) as [z|] eqn:Ez; [|by apply last_None in Ez].
  apply last_Some in Ez as [l0 ->]. rewrite length_app. cbn [length].
  replace (length l0 + 1 - 1)%nat with (length l0) by lia. rewrite take_app_length.
  destruct l0 as [|x rest]; [exists z, []; split_and!; try done; intros i Hi; cbn in Hi; lia|]. apply heap_prefix in H.
  exists x, (siftup (x :: rest) z). split; [done|]. split; [done|].
  unfold siftup. destruct (to_leaf _ _ _) as [l' p'] eqn:E.
  destruct (to_leaf_spec (length (x :: rest)) (x :: rest) 0 l' p' (heap_hole _ 0 H) ltac:(cbn; lia) ltac:(lia) E) as (Hh & Hl & Hp & Hleaf).
  split.
  - rewrite siftdown_perm by lia. rewrite (to_leaf_perm (length (x :: rest)) (x :: rest) 0 l' p' z ltac:(cbn; lia) E). cbn.
    by rewrite <- (Permutation_cons_append rest z).
  - apply siftdown_ordered; [done|lia|done|]. intros i Hi [-> | ->]%parent_child; lia.
Qed.
End heap.

Lemma heap_key_ext (f g : nat → Z) l : (∀ x, x ∈ l → f x = g x) → heap_ordered f l → heap_ordered g l.
Proof.
  intros H Hh i Hi. pose proof (parent_lt i ltac:(lia)). specialize (Hh i Hi).
  rewrite <- !H; [done|apply list_elem_of_lookup_total_2; lia..].
Qed.
