(* ===== verification/Schedule.v ===== *)
(** * Scheduled calls: [vdsm/schedule.py]

    A scheduler runs calls on its thread when their time has come.  Calls are objects
    shared by the heap and by the callers that may cancel them, so they live in a
    store and the heap holds their ids.  Times are numbers of one unit; the clock
    may go backwards.  A body under the condition's lock is one step; waiting gives
    the lock back, so it ends a step; each call runs outside the lock, and reading its
    function, calling it and invalidating the call are steps of their own. *)
From Stdlib Require Import ZArith Lia Sorted.
From stdpp Require Import base gmap list sorting relations.
From S2P Require Import Prelude Heap.

Inductive error := AssertionError.

(** [_callable] is [None] for the sentinel [_INVALID]. *)
Record ScheduledCall := mkCall { _deadline : Z; _callable : option nat }.

(** Where the scheduler's thread is *)
Inductive position :=
| NotStarted
| Checking                        (* at the top of the loop *)
| Waiting (until : Z)             (* in [cond.wait] *)
| Woken                           (* the wait is over *)
| Executing (expired : list nat) (now : Z)
| Loaded (id : nat) (callable : option nat) (rest : list nat) (now : Z)    (* [_execute] has read [_callable] *)
| Called (id : nat) (rest : list nat) (now : Z)                           (* before the [finally] of [_execute] *)
| Ended.

Record Scheduler := mkScheduler {
  _running : bool;
  objects : gmap nat ScheduledCall;
  next_id : nat;
  _calls : list nat;
  _thread : position;
  ran : list (nat * Z);           (* calls whose function was called, with the clock when they were taken *)
}.

Definition DEFAULT_DELAY : Z := 30.

Definition Scheduler_init : Scheduler := mkScheduler false ∅ 0 [] NotStarted [].

Definition deadline (o : gmap nat ScheduledCall) (id : nat) : Z :=
  match o !! id with Some c => _deadline c | None => 0 end.

(** [ScheduledCall.valid] *)
Definition valid (o : gmap nat ScheduledCall) (id : nat) : bool :=
  match o !! id with Some (mkCall _ (Some _)) => true | _ => false end.

(** [ScheduledCall.cancel] *)
Definition invalidate (id : nat) (o : gmap nat ScheduledCall) : gmap nat ScheduledCall :=
  alter (fun c => mkCall (_deadline c) None) id o.

Definition set_thread (p : position) (s : Scheduler) : Scheduler :=
  mkScheduler (_running s) (objects s) (next_id s) (_calls s) p (ran s).

Definition set_objects (o : gmap nat ScheduledCall) (s : Scheduler) : Scheduler :=
  mkScheduler (_running s) o (next_id s) (_calls s) (_thread s) (ran s).

(** [cond.notify()]: only a thread that waits is woken. *)
Definition notify (s : Scheduler) : Scheduler :=
  match _thread s with Waiting _ => set_thread Woken s | _ => s end.

(** [start]; a second start after [stop] is not modelled: the thread object cannot be
    started again. *)
Definition start : M Scheduler error unit := fun s =>
  if _running s then (s, Raise AssertionError)
  else (mkScheduler true (objects s) (next_id s) (_calls s) Checking (ran s), Ok ()).

Definition stop (s : Scheduler) : Scheduler :=
  notify (mkScheduler false (objects s) (next_id s) (_calls s) (_thread s) (ran s)).

Definition schedule (now delay : Z) (callable : nat) : M Scheduler error nat := fun s =>
  if negb (_running s) then (s, Raise AssertionError)
  else
    let call := next_id s in
    let o := <[call := mkCall (now + delay) (Some callable)]> (objects s) in
    let calls := heappush (deadline o) (_calls s) call in
    let s' := mkScheduler (_running s) o (S call) calls (_thread s) (ran s) in
    (if bool_decide (head calls = Some call) then notify s' else s', Ok call).

Definition cancel (id : nat) (s : Scheduler) : Scheduler := set_objects (invalidate id (objects s)) s.

Definition _time_until_deadline (now : Z) (s : Scheduler) : Z :=
  match _calls s with id :: _ => deadline (objects s) id - now | [] => DEFAULT_DELAY end.

(** The loop of [_pop_expired_calls]; every round takes a call from the heap. *)
Fixpoint pop_expired (fuel : nat) (o : gmap nat ScheduledCall) (now : Z) (calls expired : list nat) : list nat * list nat :=
  match fuel with
  | O => (calls, expired)
  | S fuel' =>
      match calls with
      | [] => (calls, expired)
      | call :: _ =>
          if now <? deadline o call then (calls, expired)
          else match heappop (deadline o) calls with
               | None => (calls, expired)
               | Some (_, calls') => pop_expired fuel' o now calls' (if valid o call then expired ++ [call] else expired)
               end
      end
  end.

Definition _pop_expired_calls (now : Z) (s : Scheduler) : Scheduler * list nat :=
  let '(calls, expired) := pop_expired (length (_calls s)) (objects s) now (_calls s) [] in
  (mkScheduler (_running s) (objects s) (next_id s) calls (_thread s) (ran s), expired).

(** [ScheduledCall._execute] in its three parts, between which any thread may cancel the call: the read of
    [self._callable], the call of what was read (the sentinel does nothing; an exception is logged), and the
    [finally] clause. *)
Definition _execute_load (id : nat) (s : Scheduler) : option nat := objects s !! id ≫= _callable.

Definition _execute_call (id : nat) (callable : option nat) (now : Z) (s : Scheduler) : Scheduler :=
  match callable with
  | Some _ => mkScheduler (_running s) (objects s) (next_id s) (_calls s) (_thread s) (ran s ++ [(id, now)])
  | None => s
  end.

Definition _execute_finally (id : nat) (s : Scheduler) : Scheduler := set_objects (invalidate id (objects s)) s.

Definition _cancel_calls (s : Scheduler) : Scheduler := set_objects (foldr invalidate (objects s) (_calls s)) s.

(** Taking the expired calls, after the wait or instead of it *)
Definition take_expired (now : Z) (s : Scheduler) : Scheduler :=
  let '(s', expired) := _pop_expired_calls now s in set_thread (Executing expired now) s'.

(** One step of the scheduler's thread ([_run], [_loop]) at the given clock *)
Definition thread_step (now : Z) (s : Scheduler) : Scheduler :=
  match _thread s with
  | NotStarted | Ended => s
  | Checking =>
      if negb (_running s) then set_thread Ended (_cancel_calls s)
      else
        let delay := _time_until_deadline now s in
        if 0 <? delay then set_thread (Waiting (now + delay)) s else take_expired now s
  | Waiting _ => set_thread Woken s      (* the timeout *)
  | Woken => if negb (_running s) then set_thread Ended (_cancel_calls s) else take_expired now s
  | Executing [] _ => set_thread Checking s
  | Executing (id :: rest) t => set_thread (Loaded id (_execute_load id s) rest t) s
  | Loaded id callable rest t => set_thread (Called id rest t) (_execute_call id callable t s)
  | Called id rest t => set_thread (Executing rest t) (_execute_finally id s)
  end.

Inductive step : Scheduler → Scheduler → Prop :=
| step_start s s' : start s = (s', Ok ()) → _thread s = NotStarted → step s s'
| step_stop s : step s (stop s)
| step_schedule s s' now delay callable id : schedule now delay callable s = (s', Ok id) → step s s'
| step_cancel s id : step s (cancel id s)
| step_thread s now : step s (thread_step now s).

Definition reachable (s : Scheduler) : Prop := rtc step Scheduler_init s.

(** ** Calls that are taken *)

Lemma filter_all {A} (P : A → Prop) `{!∀ x, Decision (P x)} l : Forall P l → filter P l = l.
Proof. induction 1 as [|x l Hx Hl IH]; [done|]. by rewrite filter_cons_True, IH. Qed.

Lemma filter_none {A} (P : A → Prop) `{!∀ x, Decision (P x)} l : Forall (fun x => ¬ P x) l → filter P l = [].
Proof. induction 1 as [|x l Hx Hl IH]; [done|]. by rewrite filter_cons_False. Qed.

Definition by_deadline (o : gmap nat ScheduledCall) : list nat → Prop := StronglySorted (fun a b => deadline o a <= deadline o b).

Lemma by_deadline_snoc o l x : by_deadline o l → (∀ y, y ∈ l → deadline o y <= deadline o x) → by_deadline o (l ++ [x]).
Proof.
  induction 1 as [|y l Hl IH Hy]; intros Hx; cbn; [by repeat constructor|]. constructor.
  - apply IH. intros z Hz. apply Hx. by right.
  - apply Forall_app. split; [done|]. constructor; [|done]. apply Hx. left.
Qed.

Lemma pop_expired_spec fuel o now calls expired calls' expired' :
  heap_ordered (deadline o) calls → (length calls <= fuel)%nat →
  by_deadline o expired → (∀ x y, x ∈ expired → y ∈ calls → deadline o x <= deadline o y) →
  pop_expired fuel o now calls expired = (calls', expired') →
  expired' ≡ₚ expired ++ filter (fun id => valid o id = true ∧ deadline o id <= now) calls ∧
  calls' ≡ₚ filter (fun id => now < deadline o id) calls ∧ heap_ordered (deadline o) calls' ∧ by_deadline o expired'.
Proof.
  revert calls expired. induction fuel as [|fuel IH]; intros calls expired Hh Hf Hs Hle E; cbn [pop_expired] in E.
  { destruct calls; [|cbn in Hf; lia]. injection E as <- <-. by rewrite app_nil_r. }
  destruct calls as [|call rest]; [injection E as <- <-; by rewrite app_nil_r|].
  pose proof (heap_head _ _ call Hh eq_refl) as Hmin.
  destruct (Z.ltb_spec now (deadline o call)) as [Hlt|Hge].
  { injection E as <- <-. assert (Forall (fun id => now < deadline o id) (call :: rest)) as Hall.
    { apply Forall_forall. intros id Hid. specialize (Hmin id Hid). lia. }
    rewrite (filter_all (fun id => now < deadline o id)) by done. rewrite filter_none by (eapply Forall_impl; [exact Hall|]; cbn; lia).
    by rewrite app_nil_r. }
  destruct (heappop_spec _ _ Hh ltac:(done)) as (x & l' & Epop & [= <-] & Hperm & Hh'). rewrite Epop in E.
  assert (length l' <= fuel)%nat as Hf' by (apply Permutation_length in Hperm; cbn in *; lia).
  assert (∀ y, y ∈ l' → y ∈ call :: rest) as Hin by (intros y Hy; rewrite Hperm; by right).
  assert (by_deadline o (if valid o call then expired ++ [call] else expired)) as Hs'.
  { destruct (valid o call); [|done]. apply by_deadline_snoc; [done|]. intros y Hy. apply Hle; [done|left]. }
  apply IH in E; [|done|done|done|].
  2:{ intros y z Hy Hz. destruct (valid o call); [|by apply Hle, Hin].
      apply elem_of_app in Hy as [Hy| ->%list_elem_of_singleton]; [by apply Hle, Hin|]. by apply Hmin, Hin. }
  destruct E as (E1 & E2 & E3 & E4). split_and!; [| |done|done].
  - rewrite E1, Hperm, filter_cons. destruct (valid o call) eqn:Ev.
    + rewrite decide_True by (split; [done|lia]). by rewrite <- app_assoc.
    + rewrite decide_False by (by intros [? _]). done.
  - rewrite E2, Hperm. by rewrite filter_cons_False by lia.
Qed.

(** ** Invariant *)

(** The calls the thread has taken and not yet called, and the clock when it took them *)
Definition taken (p : position) : list nat * Z :=
  match p with
  | Executing l t => (l, t)
  | Loaded id _ rest t => (id :: rest, t)
  | Called _ rest t => (rest, t)
  | _ => ([], 0)
  end.

Definition executing (s : Scheduler) : list nat := (taken (_thread s)).1.

Record inv (s : Scheduler) : Prop := {
  inv_heap : heap_ordered (deadline (objects s)) (_calls s);
  inv_ids : ∀ id, is_Some (objects s !! id) ↔ (id < next_id s)%nat;
  inv_calls : ∀ id, id ∈ _calls s ++ executing s → (id < next_id s)%nat;
  inv_once : NoDup (_calls s ++ executing s);
  inv_ran : ∀ id t, (id, t) ∈ ran s → id ∉ _calls s ++ executing s ∧ (id < next_id s)%nat ∧ deadline (objects s) id <= t;
  inv_ran_once : NoDup ((ran s).*1);
  inv_time : ∀ id, id ∈ executing s → deadline (objects s) id <= (taken (_thread s)).2;
  inv_wait : ∀ u, _thread s = Waiting u → ∀ id, id ∈ _calls s → u <= deadline (objects s) id;
}.

(** *** Objects *)

Lemma deadline_invalidate id o x : deadline (invalidate id o) x = deadline o x.
Proof.
  unfold deadline, invalidate. destruct (decide (x = id)) as [->|Hne].
  - rewrite lookup_alter_eq. by destruct (o !! id).
  - by rewrite lookup_alter_ne.
Qed.

Lemma valid_invalidate id o x : valid (invalidate id o) x = if decide (x = id) then false else valid o x.
Proof.
  unfold valid, invalidate. case_decide as E.
  - subst. rewrite lookup_alter_eq. by destruct (o !! id).
  - by rewrite lookup_alter_ne.
Qed.

(** Objects that agree but for calls that became invalid *)
Record cancels (o o' : gmap nat ScheduledCall) : Prop := {
  ca_deadline : ∀ x, deadline o' x = deadline o x;
  ca_valid : ∀ x, valid o x = false → valid o' x = false;
  ca_some : ∀ x, is_Some (o' !! x) ↔ is_Some (o !! x);
}.

Lemma cancels_invalidate id o : cancels o (invalidate id o).
Proof.
  split.
  - apply deadline_invalidate.
  - intros x Hx. rewrite valid_invalidate, Hx. by destruct (decide (x = id)).
  - intros x. unfold invalidate. destruct (decide (x = id)) as [->|Hne].
    + rewrite lookup_alter_eq. by rewrite fmap_is_Some.
    + by rewrite lookup_alter_ne.
Qed.

#[export] Instance cancels_preorder : PreOrder cancels.
Proof.
  split; [by split|]. intros a b c [H1 H2 H3] [G1 G2 G3]. split; intros x; [by rewrite G1|by auto|by rewrite G3].
Qed.

Lemma cancels_all l o : cancels o (foldr invalidate o l).
Proof. induction l as [|id l IH]; [reflexivity|]. cbn. etrans; [exact IH|]. apply cancels_invalidate. Qed.

Lemma inv_cancels s o : inv s → cancels (objects s) o → inv (set_objects o s).
Proof.
  intros [H1 H2 H3 H4 H5 H6 H7 H8] [C1 C2 C3]. split; cbn; try done.
  - eapply heap_key_ext; [|exact H1]. intros x _. by rewrite C1.
  - intros id. by rewrite C3.
  - intros id t Hin. rewrite C1. destruct (H5 id t Hin) as (? & ? & ?). auto.
  - intros id Hid. rewrite C1. by apply H7.
  - intros u Hu id Hid. rewrite C1. by eapply H8.
Qed.

(** *** The thread *)

(** Moving to a position without calls in hand *)
Lemma inv_position s p :
  inv s → executing s = [] → executing (set_thread p s) = [] →
  (∀ u, p = Waiting u → ∀ id, id ∈ _calls s → u <= deadline (objects s) id) → inv (set_thread p s).
Proof.
  intros [H1 H2 H3 H4 H5 H6 H7 H8] He He' Hw. rewrite He in *.
  split; cbn [_running objects next_id _calls _thread ran set_thread]; rewrite ?He'; try done.
  by intros id ?%elem_of_nil.
Qed.

Lemma inv_notify s : inv s → inv (notify s).
Proof.
  intros H. unfold notify. destruct (_thread s) eqn:E; try done. apply inv_position; [done|unfold executing; by rewrite E|done|done].
Qed.

Lemma inv_running s b : inv s → inv (mkScheduler b (objects s) (next_id s) (_calls s) (_thread s) (ran s)).
Proof. intros [H1 H2 H3 H4 H5 H6 H7 H8]. by split. Qed.

Lemma deadline_new o id c x : x ≠ id → deadline (<[id := c]> o) x = deadline o x.
Proof. intros H. unfold deadline. by rewrite lookup_insert_ne. Qed.

Lemma valid_new o id c x : x ≠ id → valid (<[id := c]> o) x = valid o x.
Proof. intros H. unfold valid. by rewrite lookup_insert_ne. Qed.

Lemma inv_schedule s s' now delay callable id : inv s → schedule now delay callable s = (s', Ok id) → inv s'.
Proof.
  intros H. unfold schedule. destruct (_running s) eqn:Er; cbn [negb]; [|done].
  set (o := <[next_id s := _]> (objects s)). set (calls := heappush _ _ _). set (s1 := mkScheduler _ _ _ _ _ _).
  intros [= <- <-]. pose proof (inv_calls s H) as Hlt.
  assert (∀ x, (x < next_id s)%nat → deadline o x = deadline (objects s) x ∧ valid o x = valid (objects s) x) as Hold
    by (intros x Hx; split; [apply deadline_new|apply valid_new]; lia).
  assert (heap_ordered (deadline o) (_calls s)) as Hh.
  { eapply heap_key_ext; [|exact (inv_heap s H)]. intros x Hx. symmetry. apply Hold, Hlt. apply elem_of_app. by left. }
  assert (calls ≡ₚ next_id s :: _calls s) as Hperm by apply heappush_perm.
  assert (heap_ordered (deadline o) calls) as Hh' by by apply heappush_ordered.
  assert (∀ u, _thread s = Waiting u → head calls ≠ Some (next_id s) → ∀ x, x ∈ calls → u <= deadline o x) as Hwait.
  { intros u Hu Hhd x Hx. destruct (head calls) as [h|] eqn:Eh; [|destruct calls; [by apply elem_of_nil in Hx|done]].
    pose proof (heap_head _ _ _ Hh' Eh x Hx) as Hmin. assert (h ∈ calls) as Hin by (destruct calls; simplify_eq/=; left).
    rewrite Hperm in Hin. apply elem_of_cons in Hin as [->|Hin]; [done|].
    pose proof (inv_wait s H u Hu h Hin). rewrite (proj1 (Hold h (Hlt h ltac:(apply elem_of_app; by left)))) in Hmin. lia. }
  assert (∀ p, (p = _thread s ∧ (∀ u, p = Waiting u → head calls ≠ Some (next_id s))) ∨ (p = Woken ∧ executing s = []) →
    inv (set_thread p s1)) as Hinv.
  { intros p Hp. assert (executing (set_thread p s1) = executing s) as He.
    { destruct Hp as [[-> _]|[-> He]]; [done|]. by rewrite He. }
    destruct H as [H1 H2 H3 H4 H5 H6 H7 H8].
    split; cbn [_running objects next_id _calls _thread ran set_thread s1] in *; rewrite ?He; try done.
    - intros x. unfold o. destruct (decide (x = next_id s)) as [->|Hne].
      + rewrite lookup_insert_eq. split; [lia|by eexists].
      + rewrite lookup_insert_ne, H2 by done. lia.
    - intros x. rewrite Hperm. cbn. intros [->|Hx]%elem_of_cons; [lia|]. specialize (H3 x Hx). lia.
    - rewrite Hperm. cbn. apply NoDup_cons. split; [|done]. intros Hx. specialize (H3 _ Hx). lia.
    - intros x t Hx. destruct (H5 x t Hx) as (Hni & Hx' & ?). destruct (Hold x Hx') as [-> _]. split_and!; [|lia|done].
      rewrite Hperm. cbn. intros [->|?]%elem_of_cons; [lia|done].
    - intros x Hx. rewrite (proj1 (Hold x (H3 x ltac:(apply elem_of_app; by right)))).
      destruct Hp as [[-> _]|[-> He0]]; [by apply H7|]. rewrite He0 in Hx. by apply elem_of_nil in Hx.
    - intros u -> x Hx. destruct Hp as [[Hp Hnh]|[? _]]; [|done]. by apply (Hwait u); [|apply (Hnh u)|]. }
  case_bool_decide as Ehd.
  - assert ((∃ u, _thread s = Waiting u) ∨ (∀ u, _thread s ≠ Waiting u)) as [[u Et]|Hnw] by (destruct (_thread s); eauto).
    + unfold notify. cbn [_thread s1]. rewrite Et. apply Hinv. right. split; [done|]. unfold executing. by rewrite Et.
    + assert (notify s1 = set_thread (_thread s) s1) as ->
        by (unfold notify; cbn [_thread s1]; destruct (_thread s) eqn:Et; try done; by destruct (Hnw until)).
      apply Hinv. left. split; [done|]. intros u Eu. by destruct (Hnw u).
  - apply (Hinv (_thread s)). by left.
Qed.

Lemma inv_take s now : inv s → executing s = [] → inv (take_expired now s).
Proof.
  intros [H1 H2 H3 H4 H5 H6 H7 H8] He. rewrite He, app_nil_r in *. unfold take_expired, _pop_expired_calls.
  destruct (pop_expired _ _ _ _ _) as [calls expired] eqn:E.
  destruct (pop_expired_spec _ _ _ _ _ _ _ H1 (Nat.le_refl _) ltac:(constructor) ltac:(intros ? ? []%elem_of_nil) E)
    as (E1 & E2 & E3 & _). cbn [app] in E1.
  assert (∀ id, id ∈ expired → deadline (objects s) id <= now ∧ id ∈ _calls s) as Hexp
    by (intros id; rewrite E1; intros [[_ ?] ?]%list_elem_of_filter; auto).
  assert (∀ id, id ∈ calls → now < deadline (objects s) id ∧ id ∈ _calls s) as Hcalls
    by (intros id; rewrite E2; by intros ?%list_elem_of_filter).
  split; unfold executing; cbn [_running objects next_id _calls _thread ran set_thread taken fst snd]; try done.
  - intros id [Hid|Hid]%elem_of_app; apply H3; [by apply Hcalls|by apply Hexp].
  - apply NoDup_app. split_and!; [rewrite E2; by apply NoDup_filter| |rewrite E1; by apply NoDup_filter].
    intros id Hc Hx. apply Hcalls in Hc. apply Hexp in Hx. lia.
  - intros id t Hid. destruct (H5 id t Hid) as (Hni & ? & ?). split_and!; [|done|done].
    intros [Hc|Hx]%elem_of_app; apply Hni; [by apply Hcalls|by apply Hexp].
  - intros id Hid. by apply Hexp.
Qed.

(** The parts of [_execute] *)
Lemma inv_load s id rest t :
  inv s → _thread s = Executing (id :: rest) t → inv (set_thread (Loaded id (_execute_load id s) rest t) s).
Proof. intros [H1 H2 H3 H4 H5 H6 H7 H8] Et. unfold executing in *. rewrite Et in *. by split. Qed.

Lemma inv_call s id c rest t :
  inv s → _thread s = Loaded id c rest t → inv (set_thread (Called id rest t) (_execute_call id c t s)).
Proof.
  intros [H1 H2 H3 H4 H5 H6 H7 H8] Et. unfold executing in *. rewrite Et in *. cbn [taken fst snd] in *.
  assert (id ∉ _calls s ++ rest ∧ NoDup (_calls s ++ rest)) as [Hni Hnd].
  { rewrite (Permutation_app_comm (_calls s) (id :: rest)) in H4. cbn in H4. apply NoDup_cons in H4 as [? ?].
    by rewrite (Permutation_app_comm (_calls s) rest). }
  assert (∀ x, x ∈ _calls s ++ rest → x ∈ _calls s ++ id :: rest) as Hsub by set_solver.
  assert (inv (set_thread (Called id rest t) s)) as Hinv.
  { split; cbn [_running objects next_id _calls _thread ran set_thread executing taken fst snd]; try done; unfold executing; cbn [_thread set_thread taken fst snd]; auto.
    - intros x u Hx. destruct (H5 x u Hx) as (? & ? & ?). split_and!; auto.
    - intros x Hx. apply H7. by right. }
  destruct c as [c|]; [|exact Hinv]. destruct Hinv as [G1 G2 G3 G4 G5 G6 G7 G8].
  split; cbn [_running objects next_id _calls _thread ran set_thread _execute_call] in *; try done.
  - intros x u [Hx|[= -> ->]%list_elem_of_singleton]%elem_of_app; [by apply G5|].
    split_and!; [done|apply H3; set_solver|apply H7; left].
  - rewrite fmap_app. apply NoDup_app. split_and!; [done| |apply NoDup_singleton].
    intros x ([x' u] & -> & Hx)%list_elem_of_fmap Hs. apply list_elem_of_singleton in Hs. cbn in Hs. subst x'.
    destruct (H5 id u Hx) as (Hx' & _). apply Hx'. set_solver.
Qed.

Lemma inv_finally s id rest t :
  inv s → _thread s = Called id rest t → inv (set_thread (Executing rest t) (_execute_finally id s)).
Proof.
  intros H Et. assert (inv (set_thread (Executing rest t) s)) as Hinv.
  { destruct H as [H1 H2 H3 H4 H5 H6 H7 H8]. unfold executing in *. rewrite Et in *. by split. }
  exact (inv_cancels _ _ Hinv (cancels_invalidate id (objects s))).
Qed.

Lemma inv_ended s : inv s → executing s = [] → inv (set_thread Ended (_cancel_calls s)).
Proof.
  intros H He. apply inv_position; [|done|done|done]. apply inv_cancels; [done|]. apply cancels_all.
Qed.

Lemma inv_thread now s : inv s → inv (thread_step now s).
Proof.
  intros H. unfold thread_step. destruct (_thread s) as [| | | |[|id rest] t|id c rest t|id rest t|] eqn:Et; try done;
    try (assert (executing s = []) as He by (unfold executing; by rewrite Et)).
  - destruct (_running s); cbn [negb]; [|by apply inv_ended]. destruct (0 <? _time_until_deadline now s); [|by apply inv_take].
    apply inv_position; try done. intros u [= <-] id Hid. unfold _time_until_deadline.
    destruct (_calls s) as [|x l] eqn:Ec; [by apply elem_of_nil in Hid|].
    pose proof (heap_head _ _ x (inv_heap s H)) as Hmin. rewrite Ec in Hmin. specialize (Hmin eq_refl id Hid). lia.
  - by apply inv_position.
  - destruct (_running s); cbn [negb]; [by apply inv_take|by apply inv_ended].
  - by apply inv_position.
  - by apply inv_load.
  - by apply inv_call.
  - by apply inv_finally.
Qed.

Lemma calls_step s s' : inv s → step s s' → inv s'.
Proof.
  intros H Hst. destruct Hst as [s s' E Et|s|s s' now delay callable id E|s id|s now].
  - unfold start in E. destruct (_running s); [done|]. injection E as <-.
    apply (inv_position (mkScheduler true (objects s) (next_id s) (_calls s) (_thread s) (ran s)) Checking); try done; [by apply inv_running|].
    unfold executing. cbn. by rewrite Et.
  - unfold stop. apply inv_notify. by apply inv_running.
  - by eapply inv_schedule.
  - apply inv_cancels; [done|apply cancels_invalidate].
  - by apply inv_thread.
Qed.

Lemma calls_init : inv Scheduler_init.
Proof.
  split; cbn [_running objects next_id _calls _thread ran Scheduler_init executing].
  - intros i Hi. cbn in Hi. lia.
  - intros id. rewrite lookup_empty. split; [by intros []|lia].
  - by intros id ?%elem_of_nil.
  - constructor.
  - by intros id t ?%elem_of_nil.
  - constructor.
  - done.
  - done.
Qed.

Lemma reachable_steps s s' : rtc step s s' → inv s → inv s'.
Proof. induction 1 as [|s s1 s' H1 H IH]; [done|]. intros Hi. apply IH. by eapply calls_step. Qed.

Lemma calls_inv s : reachable s → inv s.
Proof. intros H. by eapply reachable_steps, calls_init. Qed.

(** ** Deadlines *)

Lemma schedule_effect s s' now delay callable id :
  schedule now delay callable s = (s', Ok id) →
  id = next_id s ∧ next_id s' = S id ∧ objects s' = <[id := mkCall (now + delay) (Some callable)]> (objects s) ∧ ran s' = ran s.
Proof.
  unfold schedule. destruct (_running s); cbn [negb]; [|done]. intros [= <- <-].
  case_bool_decide; [|done]. unfold notify. by destruct (_thread _).
Qed.

Lemma schedule_refused s s' now delay callable e : schedule now delay callable s = (s', Raise e) → s' = s.
Proof. unfold schedule. destruct (_running s); cbn [negb]; congruence. Qed.

(** The thread neither makes calls nor moves their deadlines. *)
Lemma thread_step_keeps now s : next_id (thread_step now s) = next_id s ∧ ∀ id, deadline (objects (thread_step now s)) id = deadline (objects s) id.
Proof.
  unfold thread_step. destruct (_thread s) as [| | | |[|x rest] t|x c rest t|x rest t|]; try done.
  - destruct (_running s); cbn [negb]; [|split; [done|apply cancels_all]]. destruct (0 <? _); [done|].
    unfold take_expired, _pop_expired_calls. by destruct (pop_expired _ _ _ _ _).
  - destruct (_running s); cbn [negb]; [|split; [done|apply cancels_all]].
    unfold take_expired, _pop_expired_calls. by destruct (pop_expired _ _ _ _ _).
  - by destruct c.
  - split; [done|]. apply deadline_invalidate.
Qed.

(** ** Canceled calls *)

(** The thread has read the function of the call and not yet called it. *)
Definition about_to_call (id : nat) (s : Scheduler) : Prop := ∃ c rest t, _thread s = Loaded id (Some c) rest t.

(** A call that is not valid and that the thread is not about to call stays so, and does not run. *)
Definition settled (id : nat) (s s' : Scheduler) : Prop :=
  valid (objects s) id = false → (id < next_id s)%nat → ¬ about_to_call id s →
  valid (objects s') id = false ∧ (id < next_id s')%nat ∧ ¬ about_to_call id s' ∧ (id ∈ (ran s').*1 → id ∈ (ran s).*1).

Lemma not_loading id s : (∀ x c rest t, _thread s ≠ Loaded x c rest t) → ¬ about_to_call id s.
Proof. intros H (c & rest & t & E). by eapply H. Qed.

Lemma invalid_load id s : valid (objects s) id = false → _execute_load id s = None.
Proof. unfold valid, _execute_load. by destruct (objects s !! id) as [[d [c|]]|]. Qed.

Lemma settled_thread id s now : settled id s (thread_step now s).
Proof.
  intros Hv Hid Hn. unfold thread_step. destruct (_thread s) as [| | | |[|x rest] t|x c rest t|x rest t|] eqn:Et; try done.
  - destruct (_running s); cbn [negb].
    + destruct (0 <? _); [split_and!; try done; by apply not_loading|]. unfold take_expired, _pop_expired_calls.
      destruct (pop_expired _ _ _ _ _). split_and!; try done. by apply not_loading.
    + cbn. split_and!; [by apply (cancels_all (_calls s))|done|by apply not_loading|done].
  - split_and!; try done. by apply not_loading.
  - destruct (_running s); cbn [negb].
    + unfold take_expired, _pop_expired_calls. destruct (pop_expired _ _ _ _ _). split_and!; try done. by apply not_loading.
    + cbn. split_and!; [by apply (cancels_all (_calls s))|done|by apply not_loading|done].
  - split_and!; try done. by apply not_loading.
  - split_and!; try done. intros (c & rest' & t' & [= -> E]). rewrite (invalid_load id s Hv) in E. done.
  - assert (¬ about_to_call id (set_thread (Called x rest t) (_execute_call x c t s))) as Hn' by (by apply not_loading; destruct c).
    destruct c as [c|]; split_and!; try done. cbn. rewrite fmap_app. intros [Hx|Hx]%elem_of_app; [done|].
    apply list_elem_of_singleton in Hx. cbn in Hx. subst x. destruct Hn. by exists c, rest, t.
  - split_and!; try done; [by apply (cancels_invalidate x)|by apply not_loading].
Qed.

Lemma settled_step id s s' : step s s' → settled id s s'.
Proof.
  intros Hst. destruct Hst as [s s' E Et|s|s s' now delay callable x E|s x|s now]; [..|apply settled_thread]; intros Hv Hid Hn.
  - unfold start in E. destruct (_running s); [done|]. injection E as <-. split_and!; try done. by apply not_loading.
  - unfold stop, notify, about_to_call in *. cbn. destruct (_thread s) eqn:Et; cbn; rewrite ?Et; split_and!; try done; naive_solver.
  - unfold schedule in E. destruct (_running s); cbn [negb] in E; [|done]. injection E as <- <-.
    match goal with |- context [if ?b then notify ?x else ?x] => set (b0 := b); set (s1 := x) end.
    assert (objects (if b0 then notify s1 else s1) = objects s1 ∧ next_id (if b0 then notify s1 else s1) = next_id s1 ∧
      ran (if b0 then notify s1 else s1) = ran s1) as (-> & -> & ->) by (destruct b0; [|done]; unfold notify; by destruct (_thread s1)).
    cbn. rewrite valid_new by lia. split_and!; [done|lia| |done]. unfold about_to_call in *. intros (c & rest & t & Ec).
    destruct Hn. exists c, rest, t. destruct b0; [|done]. unfold notify in Ec. cbn in Ec. by destruct (_thread s) eqn:Et; cbn in Ec; rewrite ?Et in Ec.
  - cbn. split_and!; [|done|done|done]. by apply (cancels_invalidate x).
Qed.

Lemma settled_steps id s s' : rtc step s s' → settled id s s'.
Proof.
  induction 1 as [s|s s1 s' H1 H IH]; [by intros ? ? ?|]. intros Hv Hid Hn.
  destruct (settled_step id s s1 H1 Hv Hid Hn) as (Hv1 & Hid1 & Hn1 & Hr1). destruct (IH Hv1 Hid1 Hn1) as (? & ? & ? & ?). split_and!; auto.
Qed.

(** ** What the scheduler promises *)

(** Taking the expired calls.  In every reachable state, the calls that are taken at a
    time are exactly the calls of the heap that are due and were not canceled, in
    the order of their deadlines; the calls that are not due stay. *)
Theorem expired_calls s now s' expired :
  reachable s → _pop_expired_calls now s = (s', expired) →
  expired ≡ₚ filter (fun id => valid (objects s) id = true ∧ deadline (objects s) id <= now) (_calls s) ∧
  by_deadline (objects s) expired ∧
  _calls s' ≡ₚ filter (fun id => now < deadline (objects s) id) (_calls s) ∧
  objects s' = objects s ∧ ran s' = ran s.
Proof.
  intros Hr E. pose proof (calls_inv s Hr) as H. unfold _pop_expired_calls in E.
  destruct (pop_expired _ _ _ _ _) as [calls exp] eqn:Ep. injection E as <- <-.
  destruct (pop_expired_spec _ _ _ _ _ _ _ (inv_heap s H) (Nat.le_refl _) ltac:(constructor) ltac:(intros ? ? []%elem_of_nil) Ep)
    as (E1 & E2 & _ & E4). done.
Qed.

(** C27: Safety of the scheduler.  In every reachable state: the function of a call was called at most
    once, and the call was taken at a time not before its deadline; a call that is canceled is not called
    afterwards, unless the scheduler's thread had already read its function and was about to call it, the race that
    the documentation of [ScheduledCall] warns of; and the thread never waits beyond the first deadline, so
    that no call that was scheduled during the wait is missed. *)
Theorem scheduler_safety s :
  reachable s →
  NoDup ((ran s).*1) ∧
  (∀ id t, (id, t) ∈ ran s → deadline (objects s) id <= t) ∧
  (∀ u, _thread s = Waiting u → ∀ id, id ∈ _calls s → u <= deadline (objects s) id) ∧
  (∀ id s', (id < next_id s)%nat → rtc step (cancel id s) s' → id ∈ (ran s').*1 → id ∈ (ran s).*1 ∨ about_to_call id s).
Proof.
  intros Hr. pose proof (calls_inv s Hr) as H. split_and!; [apply H| |apply H|].
  - intros id t Hin. by apply (inv_ran s H).
  - intros id s' Hid Hst Hin.
    assert (about_to_call id s ∨ ¬ about_to_call id s) as [?|Hn].
    { unfold about_to_call. destruct (_thread s) as [| | | | |x [c|] rest t| |] eqn:E; try (right; naive_solver).
      destruct (decide (x = id)) as [->|]; [left; eauto|right; naive_solver]. }
    { by right. }
    left. destruct (settled_steps id _ _ Hst) as (_ & _ & _ & Hran); [|done|done|by apply Hran].
    cbn. by rewrite valid_invalidate, decide_True.
Qed.

(** ** A run *)

(** Two calls, of which the second is due first; both are canceled when the thread has read the function of
    the second, which it then calls. *)
Definition sample_start : Scheduler := fst (start Scheduler_init).
Definition sample_one : Scheduler := fst (schedule 0 20 7 sample_start).
Definition sample_waiting : Scheduler := thread_step 1 sample_one.
Definition sample_two : Scheduler := fst (schedule 2 5 8 sample_waiting).
Definition sample_taken : Scheduler := thread_step 8 sample_two.
Definition sample_loaded : Scheduler := thread_step 8 sample_taken.
Definition sample_ran : Scheduler := thread_step 8 (thread_step 8 (cancel 1 (cancel 0 sample_loaded))).

Lemma sample_reachable : reachable sample_two ∧ reachable sample_loaded ∧ rtc step (cancel 0 sample_loaded) sample_ran.
Proof.
  assert (reachable sample_two) as H.
  { eapply rtc_l; [by apply (step_start _ sample_start)|]. eapply rtc_l; [apply (step_schedule _ sample_one 0 20 7 0); vm_compute; reflexivity|].
    eapply rtc_l; [apply (step_thread _ 1)|]. eapply rtc_l; [apply (step_schedule _ sample_two 2 5 8 1); vm_compute; reflexivity|]. reflexivity. }
  split_and!; [done| |].
  - unfold reachable in *. etrans; [exact H|]. do 2 (eapply rtc_l; [apply (step_thread _ 8)|]). reflexivity.
  - eapply rtc_l; [apply (step_cancel _ 1)|]. do 2 (eapply rtc_l; [apply (step_thread _ 8)|]). reflexivity.
Qed.

Lemma expired_calls_witness :
  ∃ s', _pop_expired_calls 8 sample_two = (s', [1%nat]) ∧ _calls s' ≡ₚ [0%nat].
Proof.
  eexists. split; [vm_compute; reflexivity|].
  destruct (expired_calls sample_two 8 _ [1%nat] (proj1 sample_reachable) ltac:(vm_compute; reflexivity)) as (_ & _ & Hc & _).
  exact Hc.
Defined.

Lemma scheduler_safety_witness :
  ran sample_ran = [(1%nat, 8)] ∧ about_to_call 1 sample_loaded ∧ 0%nat ∉ (ran sample_ran).*1.
Proof.
  split; [vm_compute; reflexivity|]. split; [exists 8%nat, [], 8; vm_compute; reflexivity|].
  destruct (scheduler_safety sample_loaded (proj1 (proj2 sample_reachable))) as (_ & _ & _ & Hc).
  intros Hin. destruct (Hc 0%nat sample_ran) as [H|H];
    [vm_compute; lia|exact (proj2 (proj2 sample_reachable))|exact Hin|by apply elem_of_nil in H|].
  destruct H as (c & rest & t & E). vm_compute in E. discriminate.
Defined.
