(* ===== verification/Jobs.v ===== *)
(** * Jobs: [vdsm/jobs.py]

    A job is an object that one thread runs, that any thread may abort, and that a table
    finds by its id until it is deleted.  The model keeps every job object, with the
    threads that are inside its [run] and a record of what happened to it, and
    the table of ids beside them: an object lives on when its id is deleted and may
    be added again.  A body under one lock is one step of a system in which any
    number of threads act; what [_run] and [_abort] of a child class do is chosen by
    the step.  The scheduler that deletes ended jobs is the one of [Schedule]. *)
From Stdlib Require Import ZArith Lia.
From stdpp Require Import base gmap list relations.
From S2P Require Import Prelude Heap Schedule.

(** ** Data *)

Inductive STATUS := PENDING | RUNNING | DONE | ABORTING | ABORTED | FAILED.

#[export] Instance STATUS_eq_dec : EqDecision STATUS.
Proof. solve_decision. Defined.

Inductive exn :=
| JobExistsError | NoSuchJob | JobNotDone | JobNotActive | AbortNotSupported
| RuntimeError | AssertionError | AttributeError
| OtherError (msg : text).        (* what a child's [_abort] raises *)

(** The classes under [ClientError]; the others are not caught by the API. *)
Definition ClientError (e : exn) : bool :=
  match e with
  | JobExistsError | NoSuchJob | JobNotDone | JobNotActive | AbortNotSupported => true
  | _ => false
  end.

(** An exception of [_run] kept in [_error], which is always a [VdsmException] *)
Inductive job_error :=
| VdsmException (code : Z) (message : text)
| GeneralException (value : text).

Record Job := mkJob {
  _id : text;
  _status : STATUS;
  _description : text;
  _error : option job_error;
  _JOB_TYPE : option text;
  progress : option Z;
  autodelete : bool;
}.

(** [Job.__init__] *)
Definition Job_init (job_id description : text) (job_type : option text) (prog : option Z) (auto : bool) : Job :=
  mkJob job_id PENDING description None job_type prog auto.

Definition set_status (st : STATUS) (j : Job) : Job :=
  mkJob (_id j) st (_description j) (_error j) (_JOB_TYPE j) (progress j) (autodelete j).

Definition set_error (e : job_error) (j : Job) : Job :=
  mkJob (_id j) (_status j) (_description j) (Some e) (_JOB_TYPE j) (progress j) (autodelete j).

(** [Job.info]: the keys that are left out are [None]; the error is the object whose
    own [info] the code puts there. *)
Record job_info := mkInfo {
  i_id : text; i_status : STATUS; i_description : text; i_job_type : option text;
  i_progress : option Z; i_error : option job_error;
}.

Definition Job_info (j : Job) : job_info :=
  mkInfo (_id j) (_status j) (_description j) (_JOB_TYPE j) (progress j) (_error j).

Definition active (j : Job) : bool := match _status j with PENDING | RUNNING => true | _ => false end.

(** How [_run] of a child class ends: it returns, raises [ActionStopped], another
    [Exception], or something that is not an [Exception] ([SystemExit]). *)
Inductive outcome :=
| Completed
| Stopped
| Failed_vdsm (code : Z) (message : text)
| Failed_other (value : text)
| Escaped.

(** Where a thread is in [run] *)
Inductive position :=
| Body          (* in [_run] *)
| Finally       (* before [_autodelete_if_required] *)
| Notify.       (* before [_send_event] *)

#[export] Instance position_eq_dec : EqDecision position.
Proof. solve_decision. Defined.

(** A job object, the threads in its [run], and what happened so far: how often the
    body was started, the infos the notifier was called with, how often an exception
    came before that call, and when its deletion was scheduled. *)
Record life := mkLife {
  job : Job;
  runs : list position;
  bodies : nat;
  events : list job_info;
  lost : nat;
  deletion : list Z;
}.

Record state := mkState {
  objects : gmap nat life;
  next_ref : nat;
  _jobs : gmap text nat;
  started : bool;                      (* [_scheduler] and [_notifier] are set *)
  scheduler : Scheduler;
  deletions : gmap nat (nat * Z);      (* the scheduled calls that delete a job, and when they were scheduled *)
  autodeleted : list (nat * Z * Z);    (* deletions that ran: the job, when they were scheduled, the clock *)
}.

Definition init : state := mkState ∅ 0 ∅ false Scheduler_init ∅ [].

#[export] Instance life_inhabited : Inhabited life :=
  populate (mkLife (Job_init [] [] None None false) [] 0 [] 0 []).

Definition life_of (s : state) (r : nat) : life := objects s !!! r.
Definition job_of (s : state) (r : nat) : Job := job (life_of s r).

Definition update (r : nat) (f : life → life) (s : state) : state :=
  mkState (alter f r (objects s)) (next_ref s) (_jobs s) (started s) (scheduler s) (deletions s) (autodeleted s).

Definition on_job (f : Job → Job) (l : life) : life :=
  mkLife (f (job l)) (runs l) (bodies l) (events l) (lost l) (deletion l).
Definition set_runs (p : list position) (l : life) : life :=
  mkLife (job l) p (bodies l) (events l) (lost l) (deletion l).
Definition begin_body (l : life) : life :=
  mkLife (job l) (runs l ++ [Body]) (S (bodies l)) (events l) (lost l) (deletion l).
Definition add_event (l : life) : life :=
  mkLife (job l) (runs l) (bodies l) (events l ++ [Job_info (job l)]) (lost l) (deletion l).
Definition lose_event (l : life) : life :=
  mkLife (job l) (runs l) (bodies l) (events l) (S (lost l)) (deletion l).
Definition add_deletion (now : Z) (l : life) : life :=
  mkLife (job l) (runs l) (bodies l) (events l) (lost l) (deletion l ++ [now]).

Definition set_table (t : gmap text nat) (s : state) : state :=
  mkState (objects s) (next_ref s) t (started s) (scheduler s) (deletions s) (autodeleted s).

Section Operations.
  (** [config.getint("jobs", "autodelete_delay")] *)
  Context (autodelete_delay : Z).

(** ** The end of a job *)

(** Set [_scheduler] to what [schedule] left *)
Definition set_scheduler (sc : Scheduler) (s : state) : state :=
  mkState (objects s) (next_ref s) (_jobs s) (started s) sc (deletions s) (autodeleted s).

Definition note_deletion (call r : nat) (now : Z) (s : state) : state :=
  mkState (objects s) (next_ref s) (_jobs s) (started s) (scheduler s) (<[call := (r, now)]> (deletions s)) (autodeleted s).

Definition _autodelete_if_required (now : Z) (r : nat) : M state exn unit := fun s =>
  if autodelete (job_of s r) && (0 <=? autodelete_delay) then
    if negb (started s) then (s, Raise AttributeError)
    else match schedule now autodelete_delay r (scheduler s) with
         | (sc, Ok call) => (note_deletion call r now (update r (add_deletion now) (set_scheduler sc s)), Ok ())
         | (sc, Raise _) => (set_scheduler sc s, Raise AssertionError)
         end
  else (s, Ok ()).

(** An exception of [_autodelete_if_required] comes before the event: the notifier is not called. *)
Definition announcing {A} (r : nat) (m : M state exn A) : M state exn A := fun s =>
  match m s with
  | (s', Ok a) => (s', Ok a)
  | (s', Raise e) => (update r lose_event s', Raise e)
  end.

(** [_send_event]; [notified] is what [_notifier.notify], which is another component, answers: it may
    drop the event and it may raise. *)
Definition _send_event (notified : res exn unit) (r : nat) : M state exn unit := fun s =>
  if negb (started s) then (update r lose_event s, Raise AttributeError) else (update r add_event s, notified).

(** ** Abort and run *)

(** [Job.abort]; [child] is what the child's [_abort] does, [notified] what the notifier answers. *)
Definition Job_abort (child notified : res exn unit) (now : Z) (r : nat) : M state exn unit := fun s =>
  match _status (job_of s r) with
  | PENDING =>
      (announcing r (_autodelete_if_required now r) ;; _send_event notified r) (update r (on_job (set_status ABORTED)) s)
  | RUNNING => (update r (on_job (set_status ABORTING)) s, child)
  | ABORTING => (s, child)
  | _ => (s, Raise JobNotActive)
  end.

(** [Job._abort] of the base class *)
Definition Job__abort : res exn unit := Raise AbortNotSupported.

(** [_may_run]; the thread of a job that may run enters [_run]. *)
Definition _may_run (r : nat) : M state exn bool := fun s =>
  match _status (job_of s r) with
  | ABORTED => (s, Ok false)
  | PENDING => (update r (begin_body ∘ on_job (set_status RUNNING)) s, Ok true)
  | _ => (s, Raise RuntimeError)
  end.

Definition _abort_completed (j : Job) : Job := set_status ABORTED j.

Definition _run_completed (j : Job) : Job := set_status DONE j.

Definition _run_failed (e : job_error) (j : Job) : Job :=
  set_error e (set_status (if decide (_status j = ABORTING) then ABORTED else FAILED) j).

(** The [except] clauses of [run] *)
Definition run_ended (o : outcome) (j : Job) : Job :=
  match o with
  | Completed => _run_completed j
  | Stopped => _abort_completed j
  | Failed_vdsm code message => _run_failed (VdsmException code message) j
  | Failed_other value => _run_failed (GeneralException value) j
  | Escaped => j
  end.

(** One step of the [i]th thread in [run] of the job: the end of [_run], which takes the
    lock, then the two calls of [finally] *)
Definition run_step (o : outcome) (notified : res exn unit) (now : Z) (r i : nat) (s : state) : state :=
  match runs (life_of s r) !! i with
  | None => s
  | Some Body => update r (set_runs (<[i := Finally]> (runs (life_of s r))) ∘ on_job (run_ended o)) s
  | Some Finally =>
      let leave := update r (set_runs (delete i (runs (life_of s r)))) in
      match announcing r (_autodelete_if_required now r) s with
      | (s', Ok _) => update r (set_runs (<[i := Notify]> (runs (life_of s r)))) s'
      | (s', Raise _) => leave s'
      end
  | Some Notify =>
      update r (set_runs (delete i (runs (life_of s r)))) (fst (_send_event notified r s))
  end.

(** ** The table *)

Definition add (r : nat) : M state exn unit := fun s =>
  match _jobs s !! _id (job_of s r) with
  | Some _ => (s, Raise JobExistsError)
  | None => (set_table (<[_id (job_of s r) := r]> (_jobs s)) s, Ok ())
  end.

Definition get (job_id : text) : M state exn nat := fun s =>
  match _jobs s !! job_id with
  | None => (s, Raise NoSuchJob)
  | Some r => (s, Ok r)
  end.

Definition _delete (job_id : text) : M state exn unit := fun s =>
  match _jobs s !! job_id with
  | None => (s, Raise NoSuchJob)
  | Some r => if active (job_of s r) then (s, Raise JobNotDone) else (set_table (base.delete job_id (_jobs s)) s, Ok ())
  end.

(** What a call of the API answers: the name of a client error, or success *)
Definition response (m : M state exn unit) : M state exn (option exn) := fun s =>
  match m s with
  | (s', Ok _) => (s', Ok None)
  | (s', Raise e) => if ClientError e then (s', Ok (Some e)) else (s', Raise e)
  end.

Definition delete (job_id : text) : M state exn (option exn) := response (_delete job_id).

Definition abort (child : nat → res exn unit) (notified : res exn unit) (now : Z) (job_id : text) : M state exn (option exn) :=
  response (r ← get job_id; Job_abort (child r) notified now r).

(** Does the job pass the filters of [info]?  An empty type or set does not filter. *)
Definition selected (job_type : option text) (job_ids : list text) (j : Job) : bool :=
  match job_type with
  | None | Some [] => true
  | Some t => bool_decide (_JOB_TYPE j = Some t)
  end
  && match job_ids with [] => true | _ => bool_decide (_id j ∈ job_ids) end.

Definition info (job_type : option text) (job_ids : list text) (s : state) : gmap text job_info :=
  list_to_map ((fun j => (_id j, Job_info j)) <$> filter (selected job_type job_ids) (job_of s <$> (map_to_list (_jobs s)).*2)).

(** [Job._delete], called by the scheduler: exceptions are logged. *)
Definition Job__delete (r : nat) (s : state) : state := fst (_delete (_id (job_of s r)) s).

(** [jobs.start] *)
Definition start (s : state) : state :=
  mkState (objects s) (next_ref s) (_jobs s) true (scheduler s) (deletions s) (autodeleted s).

(** ** The system *)

(** A new object *)
Definition new_job (j : Job) (s : state) : state :=
  mkState (<[next_ref s := mkLife j [] 0 [] 0 []]> (objects s)) (S (next_ref s)) (_jobs s) (started s) (scheduler s)
    (deletions s) (autodeleted s).

Definition log_deletion (r : nat) (t0 t : Z) (s : state) : state :=
  mkState (objects s) (next_ref s) (_jobs s) (started s) (scheduler s) (deletions s) (autodeleted s ++ [(r, t0, t)]).

(** A step of the scheduler's thread, which calls [Job._delete] of the calls that are ours *)
Definition scheduler_step (now : Z) (s : state) : state :=
  let s' := set_scheduler (thread_step now (scheduler s)) s in
  match _thread (scheduler s) with
  | Loaded call (Some _) _ t =>
      match deletions s !! call with
      | Some (r, t0) => log_deletion r t0 t (Job__delete r s')
      | None => s'
      end
  | _ => s'
  end.

Inductive step : state → state → Prop :=
| step_new s job_id d ty p auto : step s (new_job (Job_init job_id d ty p auto) s)
| step_add s r : (r < next_ref s)%nat → step s (fst (add r s))
| step_run s r : (r < next_ref s)%nat → step s (fst (_may_run r s))
| step_thread s o notified now r i : (r < next_ref s)%nat → step s (run_step o notified now r i s)
| step_abort s child notified now r : (r < next_ref s)%nat → step s (fst (Job_abort child notified now r s))
| step_delete s job_id : step s (fst (_delete job_id s))
| step_start s : step s (start s)
| step_scheduler s now : step s (scheduler_step now s)
(* the other users of the scheduler *)
| step_sched_start s sc : Schedule.start (scheduler s) = (sc, Ok ()) → _thread (scheduler s) = NotStarted → step s (set_scheduler sc s)
| step_sched_stop s : step s (set_scheduler (stop (scheduler s)) s)
| step_sched_schedule s sc now delay f call : schedule now delay f (scheduler s) = (sc, Ok call) → step s (set_scheduler sc s)
| step_sched_cancel s call : deletions s !! call = None → step s (set_scheduler (cancel call (scheduler s)) s).

Definition reachable (s : state) : Prop := rtc step init s.
End Operations.

(** ** What a step does to a job *)

Inductive scheduled : life → life → Prop :=
| sch_no l : scheduled l l
| sch_yes now l : scheduled l (add_deletion now l).

Inductive told : life → life → Prop :=
| told_event l : told l (add_event l)
| told_lost l : told l (lose_event l).

Inductive change : life → life → Prop :=
| ch_run l : _status (job l) = PENDING → change l (begin_body (on_job (set_status RUNNING) l))
| ch_body l i o : runs l !! i = Some Body → change l (set_runs (<[i := Finally]> (runs l)) (on_job (run_ended o) l))
| ch_finally l l1 i : runs l !! i = Some Finally → scheduled l l1 → change l (set_runs (<[i := Notify]> (runs l)) l1)
| ch_lost l i : runs l !! i = Some Finally → change l (set_runs (base.delete i (runs l)) (lose_event l))
| ch_notify l l1 i : runs l !! i = Some Notify → told l l1 → change l (set_runs (base.delete i (runs l)) l1)
| ch_abort l l1 l2 :
    _status (job l) = PENDING → scheduled (on_job (set_status ABORTED) l) l1 → told l1 l2 → change l l2
| ch_aborting l : _status (job l) = RUNNING → change l (on_job (set_status ABORTING) l).

#[export] Hint Constructors scheduled told change : vdsm.

Lemma life_of_lookup s r l : objects s !! r = Some l → life_of s r = l.
Proof. apply lookup_total_correct. Qed.

Lemma lookup_update r f s x :
  objects (update r f s) !! x = if decide (x = r) then f <$> objects s !! r else objects s !! x.
Proof.
  cbn. case_decide; [subst; by rewrite lookup_alter_eq|]. by rewrite lookup_alter_ne.
Qed.

(** A step that touches one object *)
Definition touches (r : nat) (R : life → life → Prop) (s s' : state) : Prop :=
  next_ref s' = next_ref s ∧ _jobs s' = _jobs s ∧
  (∀ x, x ≠ r → objects s' !! x = objects s !! x) ∧
  (∀ l, objects s !! r = Some l → ∃ l', objects s' !! r = Some l' ∧ R l l').

Lemma touches_update r (R : life → life → Prop) f s :
  (∀ l, objects s !! r = Some l → R l (f l)) → touches r R s (update r f s).
Proof.
  intros H. split_and!; [done|done| |].
  - intros x Hx. rewrite lookup_update. by rewrite decide_False.
  - intros l Hl. rewrite lookup_update, decide_True, Hl by done. eauto.
Qed.

Lemma touches_refl r (R : life → life → Prop) s : (∀ l, objects s !! r = Some l → R l l) → touches r R s s.
Proof. intros H. split_and!; try done. eauto. Qed.

Lemma touches_trans r (R1 R2 R : life → life → Prop) s s1 s2 :
  touches r R1 s s1 → touches r R2 s1 s2 → (∀ l l1 l2, objects s !! r = Some l → R1 l l1 → R2 l1 l2 → R l l2) → touches r R s s2.
Proof.
  intros (A1 & A2 & A3 & A4) (B1 & B2 & B3 & B4) H. split_and!; [congruence|congruence| |].
  - intros x Hx. by rewrite B3, A3.
  - intros l Hl. destruct (A4 l Hl) as (l1 & Hl1 & ?). destruct (B4 l1 Hl1) as (l2 & Hl2 & ?). eauto.
Qed.

Section Facts.
  Context (delay : Z).

Lemma autodelete_cases now r s s' x :
  _autodelete_if_required delay now r s = (s', x) →
  match x with Ok _ => touches r scheduled s s' | Raise _ => touches r eq s s' end.
Proof.
  unfold _autodelete_if_required. destruct (_ && _).
  - destruct (started s); cbn [negb]; [|intros [= <- <-]; by apply touches_refl].
    destruct (schedule _ _ _ _) as [sc [call|e]]; intros [= <- <-]; [|by split_and!; eauto].
    apply (touches_update r scheduled (add_deletion now) s). constructor.
  - intros [= <- <-]. apply touches_refl. constructor.
Qed.

Lemma send_event_cases notified r s : touches r told s (fst (_send_event notified r s)).
Proof. unfold _send_event. destruct (started s); cbn [negb fst]; apply touches_update; constructor. Qed.

Lemma announce_cases notified now r s :
  touches r (fun l l2 => ∃ l1, scheduled l l1 ∧ told l1 l2) s
    (fst ((announcing r (_autodelete_if_required delay now r) ;; _send_event notified r) s)).
Proof.
  unfold announcing, mbind, M_bind.
  destruct (_autodelete_if_required delay now r s) as [s1 [[]|e]] eqn:E; apply autodelete_cases in E.
  - eapply touches_trans; [exact E|apply send_event_cases|]. eauto.
  - cbn [fst]. eapply touches_trans; [exact E|apply (touches_update r (fun l l' => l' = lose_event l)); done|].
    intros l l1 l2 _ <- ->. eauto with vdsm.
Qed.

(** The change of a thread's position follows what it did. *)
Lemma touches_then r (R R' : life → life → Prop) f s s' :
  touches r R s s' → (∀ l l', objects s !! r = Some l → R l l' → R' l (f l')) → touches r R' s (update r f s').
Proof.
  intros H HR. eapply touches_trans; [exact H|apply (touches_update r (fun l l' => l' = f l)); done|].
  intros l l1 l2 Hl ? ->. by apply HR.
Qed.

Definition may_change (l l' : life) : Prop := l' = l ∨ change l l'.

Lemma run_step_touches o notified now r i s : touches r may_change s (run_step delay o notified now r i s).
Proof.
  unfold run_step. destruct (runs (life_of s r) !! i) as [[]|] eqn:Ei; [..|apply touches_refl; by left].
  - apply touches_update. intros l Hl. rewrite (life_of_lookup _ _ _ Hl) in *. right. by constructor.
  - unfold announcing. destruct (_autodelete_if_required delay now r s) as [s1 [u|e]] eqn:E; apply autodelete_cases in E.
    + eapply touches_then; [exact E|]. intros l l' Hl Hs. rewrite (life_of_lookup _ _ _ Hl) in *. right. by constructor.
    + eapply (touches_then r (fun l l' => l' = lose_event l)).
      * eapply touches_then; [exact E|]. by intros l l' _ <-.
      * intros l l' Hl ->. rewrite (life_of_lookup _ _ _ Hl) in *. right. by constructor.
  - eapply touches_then; [apply send_event_cases|]. intros l l' Hl Hs. rewrite (life_of_lookup _ _ _ Hl) in *. right. by econstructor.
Qed.

Lemma may_run_touches r s : touches r may_change s (fst (_may_run r s)).
Proof.
  unfold _may_run. destruct (_status (job_of s r)) eqn:E; cbn [fst]; try (apply touches_refl; by left).
  apply touches_update. intros l Hl. unfold job_of in E. rewrite (life_of_lookup _ _ _ Hl) in E. right. by constructor.
Qed.

Lemma abort_touches child notified now r s : touches r may_change s (fst (Job_abort delay child notified now r s)).
Proof.
  unfold Job_abort. destruct (_status (job_of s r)) eqn:E; cbn [fst]; try (apply touches_refl; by left).
  - eapply touches_trans; [apply (touches_update r (fun l l' => l' = on_job (set_status ABORTED) l)); done|apply announce_cases|].
    intros l l1 l2 Hl -> (l3 & Hs & Ht). unfold job_of in E. rewrite (life_of_lookup _ _ _ Hl) in E. right. by econstructor.
  - apply touches_update. intros l Hl. unfold job_of in E. rewrite (life_of_lookup _ _ _ Hl) in E. right. by constructor.
Qed.
End Facts.
