(* ===== verification/JobsSpec.v ===== *)
(** * Jobs: what the module promises

    The invariant of a job object and of the system of [Jobs], the life cycle of a job,
    its events, its deletion by the scheduler, and the answers of the API. *)
From Stdlib Require Import ZArith Lia.
From stdpp Require Import base gmap list relations.
From S2P Require Import Prelude Heap Schedule Jobs.

(** ** One job *)

Definition ended (st : STATUS) : bool := match st with DONE | ABORTED | FAILED => true | _ => false end.

(** The transitions of a status, staying included *)
Definition legal (a b : STATUS) : bool :=
  match a, b with
  | PENDING, (RUNNING | ABORTED) => true
  | RUNNING, (ABORTING | DONE | ABORTED | FAILED) => true
  | ABORTING, (DONE | ABORTED) => true
  | _, _ => bool_decide (a = b)
  end.

(** A job that was not started has no history; any other has one thread in [run], or one
    event sent or lost.  The body is entered once; an event with an ended status
    tells the status for good; the deletion is scheduled once, after the body. *)
Record ok (l : life) : Prop := {
  ok_told : (length (runs l) + length (events l) + lost l = if decide (_status (job l) = PENDING) then 0 else 1)%nat;
  ok_bodies : match _status (job l) with PENDING => bodies l = 0 | ABORTED => bodies l <= 1 | _ => bodies l = 1 end%nat;
  ok_pending : _status (job l) = PENDING → deletion l = [];
  ok_runs : runs l ≠ [] → bodies l = 1%nat;
  ok_body : Body ∈ runs l → _status (job l) = RUNNING ∨ _status (job l) = ABORTING;
  ok_deletion : (length (deletion l) <= 1)%nat;
  ok_early : Body ∈ runs l ∨ Finally ∈ runs l → deletion l = [];
  ok_events : ∀ i, i ∈ events l → ended (i_status i) = true → _status (job l) = i_status i;
}.

Lemma legal_refl a : legal a a = true.
Proof. by destruct a. Qed.

Lemma legal_ended a b : ended a = true → legal a b = true → b = a.
Proof. by destruct a, b. Qed.

(** A thread in [run] is the only one, and no event was sent yet. *)
Lemma ok_alone l i p : ok l → runs l !! i = Some p → i = 0%nat ∧ runs l = [p] ∧ events l = [] ∧ lost l = 0%nat ∧ _status (job l) ≠ PENDING.
Proof.
  intros H Hi. pose proof (ok_told l H) as Ht. pose proof (lookup_lt_Some _ _ _ Hi).
  destruct (runs l) as [|q [|q' rest]], (events l); cbn in *; repeat case_decide; try lia.
  destruct i as [|i]; [|done]. injection Hi as ->. split_and!; try done; lia.
Qed.

Lemma ok_unstarted l : ok l → _status (job l) = PENDING → runs l = [] ∧ events l = [] ∧ lost l = 0%nat ∧ bodies l = 0%nat ∧ deletion l = [].
Proof.
  intros H Es. pose proof (ok_told l H) as Ht. pose proof (ok_bodies l H) as Hb. rewrite decide_True in Ht by done. rewrite Es in Hb.
  split_and!; [by destruct (runs l)|by destruct (runs l), (events l)|lia|done|by apply ok_pending].
Qed.

Lemma ok_fresh_job job_id d ty p auto : ok (mkLife (Job_init job_id d ty p auto) [] 0 [] 0 []).
Proof. split; cbn; try done; try lia; try set_solver. Qed.

Lemma ok_changed l l' : ok l → change l l' → ok l'.
Proof.
  intros H Hc. destruct Hc as [l Es|l i o Hi|l l1 i Hi Hs|l i Hi|l l1 i Hi Ht|l l1 l2 Es Hs Ht|l Es].
  - destruct (ok_unstarted l H Es) as (Er & Ee & El & Hb & Hd).
    split; cbn; rewrite ?Er, ?Ee, ?El, ?Hb, ?Hd; cbn; try done; try lia; try set_solver.
  - destruct (ok_alone l i _ H Hi) as (-> & Er & Ee & El & Hp). pose proof (ok_body l H) as Hst. pose proof (ok_runs l H) as Hb.
    pose proof (ok_early l H) as Hd. rewrite Er in *. specialize (Hst ltac:(left)). specialize (Hb ltac:(done)). specialize (Hd ltac:(by left; left)).
    split; cbn; rewrite ?Er, ?Ee, ?El, ?Hb, ?Hd; cbn; try done; try lia; try set_solver;
      destruct Hst as [Hst|Hst], o; cbn; rewrite ?Hst; cbn; repeat case_decide; try done; lia.
  - destruct (ok_alone l i _ H Hi) as (-> & Er & Ee & El & Hp). pose proof (ok_early l H) as Hd. pose proof (ok_runs l H) as Hb. pose proof (ok_bodies l H) as Hbo.
    rewrite Er in *. specialize (Hb ltac:(done)). specialize (Hd ltac:(right; left)).
    destruct Hs; split; cbn; rewrite ?Er, ?Ee, ?El, ?Hb, ?Hd; cbn; try rewrite decide_False by done; try done; try lia; try set_solver;
      by rewrite Hb in Hbo.
  - destruct (ok_alone l i _ H Hi) as (-> & Er & Ee & El & Hp). pose proof (ok_early l H) as Hd. pose proof (ok_runs l H) as Hb. pose proof (ok_bodies l H) as Hbo.
    rewrite Er in *. specialize (Hb ltac:(done)). specialize (Hd ltac:(right; left)).
    split; cbn; rewrite ?Er, ?Ee, ?El, ?Hb, ?Hd; cbn; try rewrite decide_False by done; try done; try lia; try set_solver;
      by rewrite Hb in Hbo.
  - destruct (ok_alone l i _ H Hi) as (-> & Er & Ee & El & Hp). pose proof (ok_runs l H) as Hb. pose proof (ok_bodies l H) as Hbo.
    pose proof (ok_deletion l H). rewrite Er in *. specialize (Hb ltac:(done)).
    destruct Ht; split; cbn; rewrite ?Er, ?Ee, ?El, ?Hb; cbn; try rewrite decide_False by done; try done; try lia; try set_solver;
      try (by rewrite Hb in Hbo).
  - destruct (ok_unstarted l H Es) as (Er & Ee & El & Hb & Hd).
    destruct Ht; inversion Hs; subst; split; cbn; rewrite ?Er, ?Ee, ?El, ?Hb, ?Hd; cbn; try done; try lia; try set_solver.
  - destruct H as [H1 H2 H3 H4 H5 H6 H7 H8]. rewrite Es in *. split; cbn; try done; try set_solver.
    intros i Hi He. specialize (H8 i Hi He). rewrite <- H8 in He. done.
Qed.

Lemma changed_legal l l' : ok l → change l l' → legal (_status (job l)) (_status (job l')) = true.
Proof.
  intros H Hc. destruct Hc as [l Es|l i o Hi|l l1 i Hi Hs|l i Hi|l l1 i Hi Ht|l l1 l2 Es Hs Ht|l Es]; cbn;
    try (inversion Hs; subst); try (inversion Ht; subst); cbn; rewrite ?Es, ?legal_refl; try done.
  destruct (ok_alone l i _ H Hi) as (-> & Er & _). destruct (ok_body l H) as [Hst|Hst]; [rewrite Er; left|..];
    destruct o; cbn; rewrite ?Hst; by repeat case_decide.
Qed.

(** Only a pending job enters its body. *)
Lemma changed_bodies l l' : change l l' → bodies l' = bodies l ∨ _status (job l) = PENDING ∧ _status (job l') = RUNNING.
Proof.
  intros Hc. destruct Hc as [|l i o Hi|? ? ? ? Hs| |? ? ? ? Ht|? ? ? ? Hs Ht|]; auto;
    try (inversion Hs; subst); try (inversion Ht; subst); auto.
Qed.

Lemma changed_id l l' : change l l' → _id (job l') = _id (job l).
Proof.
  intros Hc. destruct Hc as [|l i o Hi|? ? ? ? Hs| |? ? ? ? Ht|? ? ? ? Hs Ht|];
    try (inversion Hs; subst); try (inversion Ht; subst); try done. by destruct o.
Qed.

Lemma changed_deletion l l' t : change l l' → t ∈ deletion l → t ∈ deletion l'.
Proof.
  intros Hc Hin. destruct Hc as [|l i o Hi|? ? ? ? Hs| |? ? ? ? Ht|? ? ? ? Hs Ht|];
    try (inversion Hs; subst); try (inversion Ht; subst); try done; cbn; set_solver.
Qed.

(** ** The system *)

Section System.
  Context (delay : Z).

Record table_inv (s : state) : Prop := {
  in_ref : ∀ r, is_Some (objects s !! r) ↔ (r < next_ref s)%nat;
  in_ok : ∀ r l, objects s !! r = Some l → ok l;
  in_table : ∀ job_id r, _jobs s !! job_id = Some r → ∃ l, objects s !! r = Some l ∧ _id (job l) = job_id;
}.

(** A job whose deletion was scheduled at the time *)
Definition doomed (s : state) (r : nat) (t : Z) : Prop := ∃ l, objects s !! r = Some l ∧ t ∈ deletion l.

Record sched_inv (s : state) : Prop := {
  in_sched : Schedule.reachable (scheduler s);
  in_deletions : ∀ c r t, deletions s !! c = Some (r, t) →
    (c < next_id (scheduler s))%nat ∧ deadline (Schedule.objects (scheduler s)) c = t + delay ∧ doomed s r t;
  in_log : ∀ r t0 t, (r, t0, t) ∈ autodeleted s → t0 + delay <= t ∧ doomed s r t0;
}.

(** *** Objects and table *)

Lemma may_change_id l l' : may_change l l' → _id (job l') = _id (job l).
Proof. intros [->|Hc]; [done|by apply changed_id]. Qed.

Lemma touched_table s s' r : table_inv s → (r < next_ref s)%nat → touches r may_change s s' → table_inv s'.
Proof.
  intros [H1 H2 H3] Hr (T1 & T2 & T3 & T4). apply H1 in Hr as [l Hl]. destruct (T4 l Hl) as (l' & Hl' & Hc). split.
  - intros x. rewrite T1, <- H1. destruct (decide (x = r)) as [->|Hne]; [|by rewrite T3]. rewrite Hl, Hl'. done.
  - intros x lx. destruct (decide (x = r)) as [->|Hne]; [|rewrite T3 by done; apply H2]. rewrite Hl'. intros [= <-].
    destruct Hc as [->|Hc]; [by eapply H2|]. by eapply ok_changed; [eapply H2|].
  - intros job_id x. rewrite T2. intros Hx. destruct (H3 _ _ Hx) as (lx & Hlx & Hid).
    destruct (decide (x = r)) as [->|Hne]; [|rewrite T3 by done; eauto]. exists l'. split; [done|].
    rewrite (may_change_id _ _ Hc). congruence.
Qed.

Lemma add_table s r : table_inv s → (r < next_ref s)%nat → table_inv (fst (add r s)).
Proof.
  intros H Hr. unfold add. destruct (_jobs s !! _); [done|]. cbn [fst]. destruct H as [H1 H2 H3]. split; cbn; [done|done|].
  intros job_id x. destruct (decide (_id (job_of s r) = job_id)) as [<-|Hne].
  - rewrite lookup_insert_eq. intros [= <-]. apply H1 in Hr as [l Hl]. exists l. split; [done|]. unfold job_of. by rewrite (life_of_lookup _ _ _ Hl).
  - rewrite lookup_insert_ne by done. apply H3.
Qed.

Lemma delete_effect job_id s :
  ∃ t, fst (_delete job_id s) = set_table t s ∧ (∀ k r, t !! k = Some r → _jobs s !! k = Some r).
Proof.
  unfold _delete. destruct (_jobs s !! job_id); [destruct (active _)|]; cbn [fst].
  1, 3: exists (_jobs s); by destruct s.
  eexists. split; [done|]. intros k r. by intros [_ ?]%lookup_delete_Some.
Qed.

Lemma set_table_table t s : table_inv s → (∀ k r, t !! k = Some r → _jobs s !! k = Some r) → table_inv (set_table t s).
Proof. intros [H1 H2 H3] Ht. split; [done|done|]. intros k r Hk. apply H3. by apply Ht. Qed.

Lemma new_table s job_id d ty p auto : table_inv s → table_inv (new_job (Job_init job_id d ty p auto) s).
Proof.
  intros [H1 H2 H3]. assert (objects s !! next_ref s = None) as Hn.
  { apply eq_None_not_Some. rewrite H1. lia. }
  split; cbn.
  - intros r. destruct (decide (r = next_ref s)) as [->|Hne].
    + rewrite lookup_insert_eq. split; [lia|by eexists].
    + rewrite lookup_insert_ne by done. rewrite H1. lia.
  - intros r l [[<- <-]|[_ Hl]]%lookup_insert_Some; [apply ok_fresh_job|by eapply H2].
  - intros k r Hk. destruct (H3 _ _ Hk) as (l & Hl & Hid). exists l. split; [|done]. rewrite lookup_insert_ne; [done|]. congruence.
Qed.

Lemma same_table s s' : objects s' = objects s → next_ref s' = next_ref s → _jobs s' = _jobs s → table_inv s → table_inv s'.
Proof. intros E1 E2 E3 [H1 H2 H3]. split; rewrite ?E1, ?E2, ?E3; done. Qed.

Lemma scheduler_step_effect now s :
  ∃ t log, scheduler_step now s = mkState (objects s) (next_ref s) t (started s) (thread_step now (scheduler s)) (deletions s) log ∧
    (∀ k r, t !! k = Some r → _jobs s !! k = Some r) ∧
    (log = autodeleted s ∨ ∃ c f rest r t0 t1, _thread (scheduler s) = Loaded c (Some f) rest t1 ∧ deletions s !! c = Some (r, t0) ∧
       log = autodeleted s ++ [(r, t0, t1)]).
Proof.
  unfold scheduler_step. set (s1 := set_scheduler _ s).
  assert (∃ t log, s1 = mkState (objects s) (next_ref s) t (started s) (thread_step now (scheduler s)) (deletions s) log ∧
    (∀ k r, t !! k = Some r → _jobs s !! k = Some r) ∧ (log = autodeleted s ∨ ∃ c f rest r t0 t1, _thread (scheduler s) = Loaded c (Some f) rest t1 ∧
      deletions s !! c = Some (r, t0) ∧ log = autodeleted s ++ [(r, t0, t1)])) as Hs1 by (eexists _, _; split_and!; [done|done|by left]).
  destruct (_thread (scheduler s)) as [| | | | |c [f|] rest t1| |] eqn:Et; try exact Hs1.
  destruct (deletions s !! c) as [[r t0]|] eqn:Ed; [|exact Hs1].
  unfold Job__delete. destruct (delete_effect (_id (job_of s1 r)) s1) as (t & -> & Ht).
  exists t, (autodeleted s ++ [(r, t0, t1)]). split_and!; [done|exact Ht|]. right. by exists c, f, rest, r, t0, t1.
Qed.

Lemma table_step s s' : table_inv s → step delay s s' → table_inv s'.
Proof.
  intros H Hst.
  destruct Hst as [s job_id d ty p auto|s r Hr|s r Hr|s o notified now r i Hr|s child notified now r Hr|s job_id|s|s now|s sc E Et|s|s sc now d f call E|s call E].
  - by apply new_table.
  - by apply add_table.
  - eapply touched_table; [done|exact Hr|apply may_run_touches].
  - eapply touched_table; [done|exact Hr|apply run_step_touches].
  - eapply touched_table; [done|exact Hr|apply abort_touches].
  - destruct (delete_effect job_id s) as (t & -> & Ht). by apply set_table_table.
  - by eapply same_table, H.
  - destruct (scheduler_step_effect now s) as (t & log & -> & Ht & _).
    eapply same_table, (set_table_table t s H Ht); done.
  - by eapply same_table, H.
  - by eapply same_table, H.
  - by eapply same_table, H.
  - by eapply same_table, H.
Qed.
(** *** The scheduler *)

Definition moves (s s' : state) : Prop :=
  autodeleted s' = autodeleted s ∧
  (scheduler s' = scheduler s ∧ deletions s' = deletions s ∨
   ∃ now r call, schedule now delay r (scheduler s) = (scheduler s', Ok call) ∧
     deletions s' = <[call := (r, now)]> (deletions s) ∧ doomed s' r now).

Lemma doomed_update s r f x t : (∀ l, deletion (f l) = deletion l) → doomed s x t → doomed (update r f s) x t.
Proof.
  intros Hf (l & Hl & Ht). unfold doomed. rewrite lookup_update. case_decide; [subst|by eauto].
  rewrite Hl. cbn. exists (f l). by rewrite Hf.
Qed.

Lemma moves_update s s' r f : (∀ l, deletion (f l) = deletion l) → moves s s' → moves s (update r f s').
Proof.
  intros Hf (H1 & [H2|(now & x & call & H2 & H3 & H4)]); split; [done|by left|done|].
  right. exists now, x, call. split_and!; [done|done|]. by apply doomed_update.
Qed.

Lemma moves_refl s : moves s s.
Proof. split; [done|by left]. Qed.

Lemma autodelete_moves now r s : is_Some (objects s !! r) → moves s (fst (_autodelete_if_required delay now r s)).
Proof.
  intros [l Hl]. unfold _autodelete_if_required. destruct (_ && _); [|apply moves_refl].
  destruct (started s); cbn [negb]; [|apply moves_refl].
  destruct (schedule now delay r (scheduler s)) as [sc [call|e]] eqn:E; cbn [fst].
  - split; [done|]. right. exists now, r, call. split_and!; [done|done|].
    exists (add_deletion now l). split; [|cbn; set_solver]. cbn. by rewrite lookup_alter_eq, Hl.
  - apply schedule_refused in E as ->. split; [done|by left].
Qed.

Lemma send_event_moves notified s s' r : moves s s' → moves s (fst (_send_event notified r s')).
Proof. intros H. unfold _send_event. destruct (started s'); cbn [negb fst]; by apply moves_update. Qed.

Lemma announcing_moves {A} s s' r (m : M state exn A) : moves s (fst (m s')) → moves s (fst (announcing r m s')).
Proof.
  unfold announcing. destruct (m s') as [s1 [a|e]]; cbn [fst]; [done|]. by apply moves_update.
Qed.

Lemma run_step_moves o notified now r i s : is_Some (objects s !! r) → moves s (run_step delay o notified now r i s).
Proof.
  intros Hr. unfold run_step. destruct (runs (life_of s r) !! i) as [[]|]; [..|apply moves_refl].
  - by apply moves_update; [|apply moves_refl].
  - pose proof (announcing_moves s s r _ (autodelete_moves now r s Hr)) as Hm.
    destruct (announcing r _ s) as [s1 [u|e]]; by apply moves_update.
  - apply moves_update; [done|]. apply send_event_moves, moves_refl.
Qed.

Lemma bind_moves notified s s' now r : moves s (fst (announcing r (_autodelete_if_required delay now r) s')) →
  moves s (fst ((announcing r (_autodelete_if_required delay now r) ;; _send_event notified r) s')).
Proof.
  unfold mbind, M_bind. destruct (announcing r _ s') as [s1 [u|e]]; [|done]. apply send_event_moves.
Qed.

Lemma abort_moves child notified now r s : is_Some (objects s !! r) → moves s (fst (Job_abort delay child notified now r s)).
Proof.
  intros Hr. unfold Job_abort. destruct (_status (job_of s r)); try apply moves_refl.
  - apply bind_moves, announcing_moves.
    destruct (autodelete_moves now r (update r (on_job (set_status ABORTED)) s)) as (H1 & H2); [|by split].
    rewrite lookup_update, decide_True by done. by destruct (objects s !! r).
  - by apply moves_update; [|apply moves_refl].
Qed.

Lemma touches_doomed s s' x r t : touches x may_change s s' → doomed s r t → doomed s' r t.
Proof.
  intros (_ & _ & T3 & T4) (l & Hl & Ht). destruct (decide (r = x)) as [->|Hne].
  - destruct (T4 l Hl) as (l' & Hl' & [->|Hc]); [by exists l|]. exists l'. split; [done|]. by eapply changed_deletion.
  - exists l. by rewrite T3.
Qed.

Lemma sched_moved s s' x : sched_inv s → touches x may_change s s' → moves s s' → sched_inv s'.
Proof.
  intros [H1 H2 H3] Ht (M1 & M2). assert (∀ r t, doomed s r t → doomed s' r t) as Hd by (intros; by eapply touches_doomed).
  split.
  - destruct M2 as [[-> _]|(now & r & call & E & _)]; [done|]. eapply rtc_r; [exact H1|]. by eapply Schedule.step_schedule.
  - intros c r t. destruct M2 as [[-> ->]|(now & y & call & E & -> & Hdy)].
    + intros Hc. destruct (H2 c r t Hc) as (? & ? & ?). auto.
    + destruct (schedule_effect _ _ _ _ _ _ E) as (-> & -> & -> & _).
      intros [[<- [= <- <-]]|[Hne Hc]]%lookup_insert_Some.
      * split_and!; [lia| |done]. unfold deadline. by rewrite lookup_insert_eq.
      * destruct (H2 c r t Hc) as (? & Hdl & ?). rewrite deadline_new by done. split_and!; [lia|done|auto].
  - intros r t0 t. rewrite M1. intros Hin. destruct (H3 r t0 t Hin). auto.
Qed.

(** Steps of the scheduler that other users make *)
Lemma sched_others s sc :
  sched_inv s → Schedule.step (scheduler s) sc → (next_id (scheduler s) <= next_id sc)%nat →
  (∀ c, (c < next_id (scheduler s))%nat → deadline (Schedule.objects sc) c = deadline (Schedule.objects (scheduler s)) c) →
  sched_inv (set_scheduler sc s).
Proof.
  intros [H1 H2 H3] Hst Hn Hd. split; cbn.
  - by eapply rtc_r.
  - intros c r t Hc. destruct (H2 c r t Hc) as (? & ? & ?). rewrite Hd by done. split_and!; [lia|done|done].
  - done.
Qed.

Lemma sched_thread s now : sched_inv s → sched_inv (scheduler_step now s).
Proof.
  intros H. destruct (scheduler_step_effect now s) as (t & log & -> & _ & Hlog).
  destruct (thread_step_keeps now (scheduler s)) as [Hn Hd].
  pose proof (sched_others s (thread_step now (scheduler s)) H (Schedule.step_thread _ now) ltac:(lia) ltac:(intros; apply Hd)) as [G1 G2 G3].
  split; cbn in *; [done|done|]. destruct Hlog as [->|(c & f & rest & r & t0 & t1 & Et & Ec & ->)]; [done|].
  intros r' t0' t' [Hin|[= -> -> ->]%list_elem_of_singleton]%elem_of_app; [by apply G3|].
  destruct (in_deletions s H c r t0 Ec) as (_ & <- & Hdo). split; [|done].
  pose proof (inv_time _ (calls_inv _ (in_sched s H)) c) as Ht. unfold executing in Ht. rewrite Et in Ht. apply Ht. left.
Qed.

Lemma sched_same s s' : scheduler s' = scheduler s → deletions s' = deletions s → autodeleted s' = autodeleted s →
  (∀ r t, doomed s r t → doomed s' r t) → sched_inv s → sched_inv s'.
Proof.
  intros E1 E2 E3 Hd [H1 H2 H3]. split; rewrite ?E1, ?E2, ?E3; [done| |].
  - intros c r t Hc. destruct (H2 c r t Hc) as (? & ? & ?). auto.
  - intros r t0 t Hin. destruct (H3 r t0 t Hin). auto.
Qed.

Lemma sched_step s s' : table_inv s → sched_inv s → step delay s s' → sched_inv s'.
Proof.
  intros HT H Hst.
  destruct Hst as [s job_id d ty p auto|s r Hr|s r Hr|s o notified now r i Hr|s child notified now r Hr|s job_id|s|s now|s sc E Et|s|s sc now d f call E|s call E];
    try (apply (in_ref s HT) in Hr).
  - eapply sched_same, H; try done. intros r t (l & Hl & Ht). exists l. split; [|done]. cbn. rewrite lookup_insert_ne; [done|].
    intros <-. assert (is_Some (objects s !! next_ref s)) as Hi by eauto. apply (in_ref s HT) in Hi. lia.
  - unfold add. destruct (_jobs s !! _); [done|]. by eapply sched_same, H.
  - eapply sched_moved; [done|apply may_run_touches|]. unfold _may_run. destruct (_status _); try apply moves_refl.
    by apply moves_update; [|apply moves_refl].
  - eapply sched_moved; [done|apply run_step_touches|by apply run_step_moves].
  - eapply sched_moved; [done|apply abort_touches|by apply abort_moves].
  - destruct (delete_effect job_id s) as (t & -> & Ht). by eapply sched_same, H.
  - by eapply sched_same, H.
  - by apply sched_thread.
  - apply sched_others; [done|by apply Schedule.step_start|..]; unfold Schedule.start in E; destruct (_running _); simplify_eq; done.
  - apply sched_others; [done|apply Schedule.step_stop|..]; unfold stop, notify; by destruct (_thread _).
  - destruct (schedule_effect _ _ _ _ _ _ E) as (-> & En & Eo & _). apply sched_others; [done|by eapply Schedule.step_schedule|lia|].
    intros c Hc. rewrite Eo. apply deadline_new. lia.
  - apply sched_others; [done|apply Schedule.step_cancel|done|]. intros c _. apply deadline_invalidate.
Qed.

Lemma init_inv : table_inv init ∧ sched_inv init.
Proof.
  split; split; cbn; try done.
  - intros r. rewrite lookup_empty. split; [by intros []|lia].
  - constructor.
  - by intros ? ? ? ?%elem_of_nil.
Qed.

Lemma jobs_steps_inv s s' : rtc (step delay) s s' → table_inv s ∧ sched_inv s → table_inv s' ∧ sched_inv s'.
Proof.
  induction 1 as [|s s1 s' H1 H IH]; [done|]. intros [HT HS]. apply IH. split; [by eapply table_step|by eapply sched_step].
Qed.

Lemma jobs_inv s : reachable delay s → table_inv s ∧ sched_inv s.
Proof. intros H. eapply jobs_steps_inv, init_inv. exact H. Qed.
End System.

(** ** What the module promises *)

(** A step of the system changes a job by at most one [change]. *)
Lemma step_changes delay s s' r l :
  table_inv s → step delay s s' → objects s !! r = Some l → ∃ l', objects s' !! r = Some l' ∧ may_change l l'.
Proof.
  intros HT Hst Hl.
  assert (∀ x s1, touches x may_change s s1 → ∃ l', objects s1 !! r = Some l' ∧ may_change l l') as Ht.
  { intros x s1 (_ & _ & T3 & T4). destruct (decide (r = x)) as [<-|Hne]; [by apply T4|]. exists l. rewrite T3 by done. split; [done|by left]. }
  assert (∀ s1, objects s1 = objects s → ∃ l', objects s1 !! r = Some l' ∧ may_change l l') as Hs by (intros s1 ->; exists l; split; [done|by left]).
  destruct Hst as [s job_id d ty p auto|s x Hr|s x Hr|s o notified now x i Hr|s child notified now x Hr|s job_id|s|s now|s sc E Et|s|s sc now d f call E|s call E];
    try (by apply Hs); try (by eapply Ht; first [apply may_run_touches|apply run_step_touches|apply abort_touches]).
  - exists l. split; [|by left]. cbn. rewrite lookup_insert_ne; [done|].
    intros <-. assert (is_Some (objects s !! next_ref s)) as Hi by eauto. apply (in_ref s HT) in Hi. lia.
  - unfold add. destruct (_jobs s !! _); by apply Hs.
  - destruct (delete_effect job_id s) as (t & -> & _). by apply Hs.
  - destruct (scheduler_step_effect now s) as (t & log & -> & _). by apply Hs.
Qed.

(** Facts about a job that every change keeps are kept by the system. *)
Lemma steps_keep delay (P : life → Prop) s s' r l :
  (∀ l l', ok l → P l → change l l' → P l') →
  table_inv s → rtc (step delay) s s' → objects s !! r = Some l → P l →
  ∃ l', objects s' !! r = Some l' ∧ ok l' ∧ P l'.
Proof.
  intros HP HT Hst. revert l HT. induction Hst as [s|s s1 s' H1 H IH]; intros l HT Hl Hp.
  { exists l. split_and!; [done|by eapply in_ok|done]. }
  destruct (step_changes _ _ _ _ _ HT H1 Hl) as (l1 & Hl1 & Hc). eapply IH; [by eapply table_step|done|].
  destruct Hc as [->|Hc]; [done|]. eapply HP; [by eapply in_ok|exact Hp|exact Hc].
Qed.

(** C28: The life cycle of a job.  Whatever threads do, from any reachable state: the
    status of a job moves only along the documented transitions, an ended job keeps
    its status, the body is entered at most once, and a job that ended before it
    was run (aborted while pending) never enters its body. *)
Theorem job_lifecycle delay s s' r l :
  reachable delay s → rtc (step delay) s s' → objects s !! r = Some l →
  ∃ l', objects s' !! r = Some l' ∧
    rtc (fun a b => legal a b = true) (_status (job l)) (_status (job l')) ∧
    (bodies l' <= 1)%nat ∧
    (ended (_status (job l)) = true → _status (job l') = _status (job l) ∧ bodies l' = bodies l).
Proof.
  intros Hr Hst Hl. destruct (jobs_inv delay s Hr) as [HT _].
  destruct (steps_keep delay (fun l' => rtc (fun a b => legal a b = true) (_status (job l)) (_status (job l')) ∧
    (ended (_status (job l)) = true → _status (job l') = _status (job l) ∧ bodies l' = bodies l)) s s' r l) as (l' & Hl' & Hok & Hp & He); try done.
  - intros l1 l2 Hok [H1 H2] Hc. pose proof (changed_legal _ _ Hok Hc) as Hlegal. split; [by eapply rtc_r|].
    intros He. destruct (H2 He) as [E1 E2]. rewrite <- E1 in He. pose proof (legal_ended _ _ He Hlegal). split; [congruence|].
    destruct (changed_bodies _ _ Hc) as [->|[Ep _]]; [done|]. by rewrite Ep in He.
  - exists l'. split_and!; try done. pose proof (ok_bodies l' Hok). destruct (_status (job l')); lia.
Qed.

(** While the scheduler and the notifier are there nothing raises before the notifier is called. *)
Lemma autodelete_runs delay now r s l :
  started s = true → _running (scheduler s) = true → objects s !! r = Some l →
  ∃ s1 l1, announcing r (_autodelete_if_required delay now r) s = (s1, Ok ()) ∧ started s1 = true ∧
    objects s1 !! r = Some l1 ∧ job l1 = job l ∧ events l1 = events l ∧ lost l1 = lost l.
Proof.
  intros Es Er Hl. unfold announcing, _autodelete_if_required. destruct (_ && _); [|by eexists s, l].
  rewrite Es. cbn [negb]. unfold schedule. rewrite Er. cbn [negb]. eexists _, (add_deletion now l). split_and!; try done.
  cbn. by rewrite lookup_alter_eq, Hl.
Qed.

Lemma run_step_lost delay o notified now r i s l :
  started s = true → _running (scheduler s) = true → objects s !! r = Some l →
  ∃ l', objects (run_step delay o notified now r i s) !! r = Some l' ∧ lost l' = lost l ∧
    events l' = events l ++ (if decide (runs l !! i = Some Notify) then [Job_info (job l)] else []).
Proof.
  intros Es Er Hl. unfold run_step. rewrite (life_of_lookup _ _ _ Hl). destruct (runs l !! i) as [[]|]; [| | |exists l; by rewrite app_nil_r].
  - rewrite lookup_update, decide_True, Hl by done. eexists. cbn. by rewrite app_nil_r.
  - destruct (autodelete_runs delay now r s l Es Er Hl) as (s1 & l1 & -> & _ & Hl1 & _ & He & Hlo).
    rewrite lookup_update, decide_True, Hl1 by done. eexists. cbn. by rewrite app_nil_r.
  - unfold _send_event. rewrite Es. cbn [negb fst]. rewrite !lookup_update, !decide_True, Hl by done. by eexists.
Qed.

Lemma abort_lost delay child notified now r s l :
  started s = true → _running (scheduler s) = true → objects s !! r = Some l →
  ∃ l', objects (fst (Job_abort delay child notified now r s)) !! r = Some l' ∧ lost l' = lost l ∧
    events l' = events l ++ (if decide (_status (job l) = PENDING) then [Job_info (job l')] else []).
Proof.
  intros Es Er Hl. unfold Job_abort, job_of. rewrite (life_of_lookup _ _ _ Hl).
  destruct (_status (job l)) eqn:Est; try (exists l; cbn; by rewrite app_nil_r).
  - set (s0 := update r (on_job (set_status ABORTED)) s).
    destruct (autodelete_runs delay now r s0 (on_job (set_status ABORTED) l)) as (s1 & l1 & E & Es1 & Hl1 & Hj & He & Hlo); [done|done| |].
    { unfold s0. by rewrite lookup_update, decide_True, Hl. }
    assert ((announcing r (_autodelete_if_required delay now r) ;; _send_event notified r) s0 = (update r add_event s1, notified)) as ->
      by (unfold mbind, M_bind; rewrite E; unfold _send_event; by rewrite Es1).
    cbn [fst]. rewrite lookup_update, decide_True, Hl1 by done. eexists. split_and!; [done|done|]. cbn. by rewrite He.
  - cbn [fst]. rewrite lookup_update, decide_True, Hl by done. eexists. cbn. by rewrite app_nil_r.
Qed.

(** C29: The events of a job.  In every reachable state the notifier was not called for a
    job that was not started; any other job has one thread in [run], or none and then
    the notifier was called for it exactly once, unless an exception came before the
    call; an event with an ended status tells the status the job has and keeps.
    While the scheduler runs and the notifier is set no exception comes before
    the call, neither in [run] nor in [abort]: a thread that is to announce its job and an abort of a pending job
    call the notifier once, with the job's info, whatever the notifier then makes
    of the event and whether or not it raises. *)
Theorem job_events delay s r l :
  reachable delay s → objects s !! r = Some l →
  (length (runs l) + length (events l) + lost l = if decide (_status (job l) = PENDING) then 0 else 1)%nat ∧
  (∀ i, i ∈ events l → ended (i_status i) = true → _status (job l) = i_status i) ∧
  (started s = true → _running (scheduler s) = true →
     (∀ o notified now i, ∃ l', objects (run_step delay o notified now r i s) !! r = Some l' ∧ lost l' = lost l ∧
        events l' = events l ++ (if decide (runs l !! i = Some Notify) then [Job_info (job l)] else [])) ∧
     (∀ child notified now, ∃ l', objects (fst (Job_abort delay child notified now r s)) !! r = Some l' ∧ lost l' = lost l ∧
        events l' = events l ++ (if decide (_status (job l) = PENDING) then [Job_info (job l')] else []))).
Proof.
  intros Hr Hl. destruct (jobs_inv delay s Hr) as [HT _]. pose proof (in_ok s HT r l Hl) as Hok.
  split_and!; [by apply ok_told|by apply ok_events|]. intros. split; intros; [by apply run_step_lost|by apply abort_lost].
Qed.

(** What the answer of an abort means.  When the API answers that a job was aborted,
    the job's status is ABORTED or ABORTING, and it is never seen running or failed
    afterwards; when the job was pending, its body never runs. *)
Theorem abort_answer delay child notified now job_id s s' :
  reachable delay s → abort delay child notified now job_id s = (s', Ok None) →
  ∃ r l, _jobs s !! job_id = Some r ∧ objects s !! r = Some l ∧
  ∀ s2, rtc (step delay) s' s2 → ∃ l2, objects s2 !! r = Some l2 ∧
    (_status (job l2) = ABORTING ∨ _status (job l2) = ABORTED ∨ _status (job l2) = DONE) ∧
    (_status (job l) = PENDING → _status (job l2) = ABORTED ∧ bodies l2 = 0%nat).
Proof.
  intros Hr E. destruct (jobs_inv delay s Hr) as [HT _]. unfold abort, response, mbind, M_bind, get in E.
  destruct (_jobs s !! job_id) as [r|] eqn:Ej; [|by simplify_eq/=]. destruct (in_table s HT _ _ Ej) as (l & Hl & _).
  exists r, l. split_and!; [done|done|]. intros s2 Hst.
  destruct (Job_abort delay (child r) notified now r s) as [s1 x] eqn:Ea.
  assert (s' = s1 ∧ x = Ok ()) as [-> ->] by (destruct x as [[]|e]; [by simplify_eq|destruct (ClientError e); simplify_eq]).
  assert (r < next_ref s)%nat as Hlt by (apply (in_ref s HT); eauto).
  assert (step delay s s1) as Hs1 by (replace s1 with (fst (Job_abort delay (child r) notified now r s)) by (by rewrite Ea); by constructor).
  assert (table_inv s1) as HT1 by by eapply table_step.
  assert (∃ l1, objects s1 !! r = Some l1 ∧ (_status (job l) = PENDING → _status (job l1) = ABORTED ∧ bodies l1 = 0%nat) ∧
    (_status (job l1) = ABORTING ∨ _status (job l1) = ABORTED)) as (l1 & Hl1 & Hpend & Hst1).
  { pose proof (in_ok s HT r l Hl) as Hok. unfold Job_abort, job_of in Ea. rewrite (life_of_lookup _ _ _ Hl) in Ea.
    destruct (_status (job l)) eqn:Es; try by simplify_eq.
    - pose proof (announce_cases delay notified now r (update r (on_job (set_status ABORTED)) s)) as (_ & _ & _ & T4).
      rewrite Ea in T4. cbn [fst] in T4.
      destruct (T4 (on_job (set_status ABORTED) l)) as (l1 & Hl1 & l3 & Hs & Ht).
      { by rewrite lookup_update, decide_True, Hl by done. }
      destruct (ok_unstarted l Hok Es) as (_ & _ & _ & Hb & _).
      exists l1. split; [done|]. inversion Hs; subst; inversion Ht; subst; cbn; auto.
    - simplify_eq. rewrite lookup_update, decide_True, Hl by done. eexists. split_and!; [done|done|by left].
    - simplify_eq. exists l. rewrite Es. split_and!; [done|done|by left]. }
  destruct (steps_keep delay (fun l2 => (_status (job l2) = ABORTING ∨ _status (job l2) = ABORTED ∨ _status (job l2) = DONE) ∧
    (_status (job l) = PENDING → _status (job l2) = ABORTED ∧ bodies l2 = 0%nat)) s1 s2 r l1) as (l2 & Hl2 & _ & Hp); try done.
  - intros la lb Hok [H1 H2] Hc. pose proof (changed_legal _ _ Hok Hc) as Hlegal. split.
    + destruct H1 as [H1|[H1|H1]]; rewrite H1 in Hlegal; destruct (_status (job lb)); auto; done.
    + intros Ep. destruct (H2 Ep) as [Ha Hb]. split; [by apply legal_ended in Hlegal; [congruence|rewrite Ha]|].
      destruct (changed_bodies _ _ Hc) as [->|[? _]]; congruence.
  - split; [tauto|done].
  - eauto.
Qed.

(** The report of jobs.  In every reachable state [info] tells of exactly the jobs of
    the table that pass its filters, each under its id. *)
Theorem info_reports delay s ty ids job_id i :
  reachable delay s →
  info ty ids s !! job_id = Some i ↔
  ∃ r l, _jobs s !! job_id = Some r ∧ objects s !! r = Some l ∧ selected ty ids (job l) = true ∧ i = Job_info (job l).
Proof.
  intros Hr. destruct (jobs_inv delay s Hr) as [HT _]. unfold info. set (L := filter _ _).
  assert (∀ k r, (k, r) ∈ map_to_list (_jobs s) → ∃ l, objects s !! r = Some l ∧ job_of s r = job l ∧ _id (job l) = k) as Hmem.
  { intros k r Hk. apply elem_of_map_to_list in Hk. destruct (in_table s HT _ _ Hk) as (l & Hl & Hid). exists l.
    unfold job_of. by rewrite (life_of_lookup _ _ _ Hl). }
  assert (NoDup ((fun j => (_id j, Job_info j)) <$> L).*1) as Hnd.
  { rewrite <- list_fmap_compose. assert (NoDup (_id <$> (job_of s <$> (map_to_list (_jobs s)).*2))) as Hids.
    { replace (_id <$> _) with ((map_to_list (_jobs s)).*1); [apply NoDup_fst_map_to_list|].
      rewrite <- !list_fmap_compose. apply list_fmap_ext. intros n [k r] Hn. apply list_elem_of_lookup_2 in Hn.
      destruct (Hmem k r Hn) as (l & _ & E & Hid). cbn. by rewrite E. }
    unfold L. clear L Hmem. induction (job_of s <$> _) as [|j js IH]; [by rewrite filter_nil; constructor|].
    cbn in Hids. apply NoDup_cons in Hids as [Hni Hids]. rewrite filter_cons. case_decide; [|by apply IH].
    cbn. apply NoDup_cons. split; [|by apply IH]. intros (j' & E & Hj')%list_elem_of_fmap. apply Hni.
    apply list_elem_of_fmap. exists j'. split; [exact E|]. by apply list_elem_of_filter in Hj' as [_ ?]. }
  rewrite <- (elem_of_list_to_map _ _ _ Hnd), list_elem_of_fmap. split.
  - intros (j & [= -> ->] & [Hsel Hj]%list_elem_of_filter). apply list_elem_of_fmap in Hj as (r & -> & Hj).
    apply list_elem_of_fmap in Hj as ([k r'] & -> & Hj). destruct (Hmem k r' Hj) as (l & Hl & E & Hid). cbn in *. rewrite E in *.
    exists r', l. apply elem_of_map_to_list in Hj. rewrite Hid. split_and!; try done. by apply Is_true_eq_true.
  - intros (r & l & Hj & Hl & Hsel & ->). destruct (in_table s HT _ _ Hj) as (l' & Hl' & Hid). simplify_eq.
    exists (job l). split; [done|]. apply list_elem_of_filter. split; [by rewrite Hsel|].
    apply list_elem_of_fmap. exists r. unfold job_of. rewrite (life_of_lookup _ _ _ Hl). split; [done|].
    apply list_elem_of_fmap. exists (_id (job l), r). split; [done|]. by apply elem_of_map_to_list.
Qed.

(** The deletion of ended jobs, in the system of the jobs and their scheduler.  The
    scheduler runs as it does alone; every deletion it makes comes at least the
    configured delay after it was scheduled, of a job that was started or aborted,
    that has no thread in its body, and whose deletion was scheduled once. *)
Theorem autodelete_delayed delay s :
  reachable delay s →
  Schedule.reachable (scheduler s) ∧
  ∀ r t0 t, (r, t0, t) ∈ autodeleted s → t0 + delay <= t ∧
    ∃ l, objects s !! r = Some l ∧ deletion l = [t0] ∧ _status (job l) ≠ PENDING ∧ Body ∉ runs l.
Proof.
  intros Hr. destruct (jobs_inv delay s Hr) as [HT HS]. split; [apply HS|].
  intros r t0 t Hin. destruct (in_log delay s HS r t0 t Hin) as [Hle (l & Hl & Ht)]. split; [done|].
  exists l. pose proof (in_ok s HT r l Hl) as Hok. pose proof (ok_deletion l Hok) as Hlen.
  destruct (deletion l) as [|x [|y rest]] eqn:Ed; [by apply elem_of_nil in Ht| |cbn in Hlen; lia].
  apply list_elem_of_singleton in Ht as ->. split_and!; [done|done| |].
  - intros Ep. pose proof (ok_pending l Hok Ep). congruence.
  - intros Hb. pose proof (ok_early l Hok ltac:(by left)). congruence.
Qed.

(** ** A run *)

Module Sample.
Definition s1 : state := set_scheduler (fst (Schedule.start Scheduler_init)) (Jobs.start init).
(** Two jobs; the first is run, the second aborted while pending. *)
Definition s2 : state := new_job (Job_init [2] [] None None false) (new_job (Job_init [1] [] None None true) s1).
Definition s3 : state := fst (add 1 (fst (add 0 s2))).
Definition s4 : state := fst (_may_run 0 s3).
Definition s5 : state := fst (abort 10 (fun _ => Ok ()) (Ok ()) 5 [2] s4).
(** The first ends at 7 and sends its event. *)
Definition s6 : state := run_step 10 Completed (Ok ()) 7 0 0 (run_step 10 Completed (Ok ()) 7 0 0 (run_step 10 Completed (Ok ()) 7 0 0 s5)).
(** The scheduler waits, wakes up at 17 and deletes it. *)
Definition s7 : state := scheduler_step 17 (scheduler_step 17 (scheduler_step 17 (scheduler_step 17 (scheduler_step 8 s6)))).

Lemma to_s4 : reachable 10 s4.
Proof.
  eapply rtc_l; [apply Jobs.step_start|]. eapply rtc_l; [by apply (step_sched_start _ _ (fst (Schedule.start Scheduler_init)))|].
  eapply rtc_l; [apply (step_new _ _ [1] [] None None true)|]. eapply rtc_l; [apply (step_new _ _ [2] [] None None false)|].
  eapply rtc_l; [apply (step_add _ _ 0); vm_compute; lia|]. eapply rtc_l; [apply (step_add _ _ 1); vm_compute; lia|].
  eapply rtc_l; [apply (step_run _ _ 0); vm_compute; lia|]. reflexivity.
Qed.

Lemma to_s5 : rtc (step 10) s4 s5.
Proof. apply rtc_once. exact (step_abort 10 s4 (Ok ()) (Ok ()) 5 1 ltac:(vm_compute; lia)). Qed.

Lemma to_s7 : rtc (step 10) s5 s7.
Proof.
  unfold s7, s6. do 3 (eapply rtc_l; [apply (step_thread 10 _ Completed (Ok ()) 7 0 0); vm_compute; lia|]).
  eapply rtc_l; [apply (step_scheduler 10 _ 8)|]. do 4 (eapply rtc_l; [apply (step_scheduler 10 _ 17)|]). apply rtc_refl.
Qed.
End Sample.

Lemma sample_s5 : reachable 10 Sample.s5.
Proof. unfold reachable. etrans; [exact Sample.to_s4|exact Sample.to_s5]. Qed.

Lemma sample_s7 : reachable 10 Sample.s7.
Proof. unfold reachable. etrans; [exact sample_s5|exact Sample.to_s7]. Qed.

Lemma job_lifecycle_witness :
  ended (_status (job (life_of Sample.s5 1))) = true ∧
  ∃ l', objects Sample.s7 !! 1%nat = Some l' ∧ _status (job l') = ABORTED ∧ bodies l' = 0%nat.
Proof.
  split; [vm_compute; reflexivity|].
  destruct (job_lifecycle 10 Sample.s5 Sample.s7 1 (life_of Sample.s5 1) sample_s5 Sample.to_s7 ltac:(vm_compute; reflexivity))
    as (l' & Hl' & _ & _ & He).
  exists l'. split; [exact Hl'|]. exact (He eq_refl).
Defined.

Lemma job_events_witness :
  ∃ i, events (life_of Sample.s7 0) = [i] ∧ i_status i = DONE ∧ _status (job (life_of Sample.s7 0)) = i_status i.
Proof.
  destruct (job_events 10 Sample.s7 0 (life_of Sample.s7 0) sample_s7 ltac:(vm_compute; reflexivity)) as (_ & He & _).
  exists (Job_info (job (life_of Sample.s7 0))). split; [vm_compute; reflexivity|]. split; [vm_compute; reflexivity|].
  apply He; [|vm_compute; reflexivity].
  assert (events (life_of Sample.s7 0) = [Job_info (job (life_of Sample.s7 0))]) as -> by (vm_compute; reflexivity). left.
Defined.

Lemma abort_answer_witness :
  ∃ l2, objects Sample.s7 !! 1%nat = Some l2 ∧ _status (job l2) = ABORTED ∧ bodies l2 = 0%nat.
Proof.
  destruct (abort_answer 10 (fun _ => Ok ()) (Ok ()) 5 [2] Sample.s4 Sample.s5 Sample.to_s4 ltac:(vm_compute; reflexivity)) as (r & l & Hr & Hl & H).
  assert (r = 1%nat) as -> by (vm_compute in Hr; congruence).
  destruct (H Sample.s7 Sample.to_s7) as (l2 & Hl2 & _ & Hp). exists l2. split; [exact Hl2|]. apply Hp.
  assert (objects Sample.s4 !! 1%nat = Some (life_of Sample.s4 1)) as E by (vm_compute; reflexivity).
  assert (l = life_of Sample.s4 1) as -> by congruence. vm_compute. reflexivity.
Defined.

Lemma info_reports_witness : info None [] Sample.s7 !! [2] = Some (Job_info (job (life_of Sample.s7 1))).
Proof.
  apply (info_reports 10 Sample.s7 None [] [2] _ sample_s7). exists 1%nat, (life_of Sample.s7 1).
  split; [vm_compute; reflexivity|]. split; [vm_compute; reflexivity|]. split; reflexivity.
Defined.

Lemma autodelete_delayed_witness : autodeleted Sample.s7 = [(0%nat, 7, 17)] ∧ _jobs Sample.s7 !! [1] = None ∧ 7 + 10 <= 17.
Proof.
  split; [vm_compute; reflexivity|]. split; [vm_compute; reflexivity|].
  apply (proj2 (autodelete_delayed 10 Sample.s7 sample_s7) 0%nat). assert (autodeleted Sample.s7 = [(0%nat, 7, 17)]) as -> by (vm_compute; reflexivity). left.
Defined.

(** ** Corners *)

(** A job that does not support aborting is left ABORTING when it is asked to abort, and
    can then be deleted from the table while its thread is in its body. *)
Lemma unsupported_abort :
  let s := fst (abort 10 (fun _ => Job__abort) (Ok ()) 5 [1] Sample.s4) in
  snd (abort 10 (fun _ => Job__abort) (Ok ()) 5 [1] Sample.s4) = Ok (Some AbortNotSupported) ∧
  _status (job_of s 0) = ABORTING ∧ runs (life_of s 0) = [Body] ∧ snd (delete [1] s) = Ok None ∧ _jobs (fst (delete [1] s)) !! [1] = None.
Proof. vm_compute. repeat split. Qed.

(** The deletion goes by the id: a job that was deleted and whose id was added again takes
    the new job with it, here an aborted one that does not ask for it. *)
Lemma deletes_namesake :
  let s := fst (delete [1] Sample.s6) in
  let s' := fst (abort 10 (fun _ => Ok ()) (Ok ()) 16 [1] (fst (add 2 (new_job (Job_init [1] [] None None false) s)))) in
  _jobs s' !! [1] = Some 2%nat ∧ deletion (life_of s' 2) = [] ∧
  _jobs (scheduler_step 17 (scheduler_step 17 (scheduler_step 17 (scheduler_step 17 (scheduler_step 8 s'))))) !! [1] = None.
Proof. vm_compute. repeat split. Qed.
