(* ===== verification/Executor.v ===== *)
(** * The executor: [vdsm/executor.py]

    Worker threads take tasks from a bounded queue; a worker that a check finds blocked on
    a task is discarded and replaced.  The steps of the system are those of the
    workers' threads, of the scheduler's thread that runs the checks, and of callers; a
    body under one lock is one step, and a body that takes several locks is several.
    The scheduler is seen through its interface: it keeps calls, which it may run
    at any time once, unless they were canceled before, and it refuses calls when it
    was stopped.  Workers are kept in a list, also those whose thread has ended. *)
From Stdlib Require Import ZArith Lia.
From stdpp Require Import base gmap list relations.
From S2P Require Import Prelude.

(** ** Data *)

Inductive exn := NotRunning | AlreadyStarted | ResourceExhausted | WorkerDiscarded | AssertionError | AttributeError | KeyError.

Record Task := mkTask { callable : nat; timeout : option Z; discard : bool }.

(** An item of the queue *)
Inductive item := STOP | Run (t : Task).

(** Where a worker's thread is in [_run] and [_execute_task] *)
Inductive position :=
| Next                       (* in [_next_task] *)
| Got (t : Task)             (* before the check is armed *)
| Armed (t : Task)           (* before [self._task = task] *)
| InTask (t : Task)          (* in [task()] *)
| Disarming (escapes : bool) (* [_task] is [None]; before the lock; an exception that is not caught passes *)
| Disarmed (escapes : bool)  (* before the test of [_discarded] *)
| Leaving                    (* before [_worker_stopped] *)
| Gone.

Record _Worker := mkWorker {
  _discarded : bool;
  _task_counter : nat;
  _task : option Task;
  _scheduled_check : option nat;
  _thread : position;
  member : bool;             (* in [Executor._workers] *)
}.

Record state := mkState {
  _running : bool;
  _tasks : list item;                  (* [TaskQueue._tasks] *)
  _workers : list _Worker;             (* all workers; the number of a worker is its index *)
  checks : gmap nat (nat * nat);       (* calls the scheduler keeps: the worker and the task number *)
  next_call : nat;
  discarding : list nat;               (* [_worker_discarded] calls about to be made *)
  dispatching : list Task;             (* [dispatch] calls past the test of [_running] *)
  stopping : nat;                      (* markers that [stop], holding the lock, still puts *)
  stopped : bool;                      (* the last [stop] put all its markers so far *)
  accepted : list Task;                (* tasks put into the queue *)
  taken : list Task;                   (* tasks taken from the queue *)
  dropped : list Task;                 (* tasks cleared from the queue *)
  ran : list Task;                     (* tasks that were called *)
}.

Definition init : state := mkState false [] [] ∅ 0 [] [] 0 false [] [] [] [].

(** [_Worker.__init__], started and added *)
Definition new_worker : _Worker := mkWorker false 0 None None Next true.

Definition set_running (b : bool) (s : state) : state :=
  mkState b (_tasks s) (_workers s) (checks s) (next_call s) (discarding s) (dispatching s) (stopping s) (stopped s) (accepted s) (taken s) (dropped s) (ran s).
Definition set_workers (ws : list _Worker) (s : state) : state :=
  mkState (_running s) (_tasks s) ws (checks s) (next_call s) (discarding s) (dispatching s) (stopping s) (stopped s) (accepted s) (taken s) (dropped s) (ran s).
Definition set_checks (c : gmap nat (nat * nat)) (n : nat) (s : state) : state :=
  mkState (_running s) (_tasks s) (_workers s) c n (discarding s) (dispatching s) (stopping s) (stopped s) (accepted s) (taken s) (dropped s) (ran s).
Definition set_discarding (l : list nat) (s : state) : state :=
  mkState (_running s) (_tasks s) (_workers s) (checks s) (next_call s) l (dispatching s) (stopping s) (stopped s) (accepted s) (taken s) (dropped s) (ran s).
Definition set_dispatching (l : list Task) (s : state) : state :=
  mkState (_running s) (_tasks s) (_workers s) (checks s) (next_call s) (discarding s) l (stopping s) (stopped s) (accepted s) (taken s) (dropped s) (ran s).
Definition set_stopping (n : nat) (b : bool) (s : state) : state :=
  mkState (_running s) (_tasks s) (_workers s) (checks s) (next_call s) (discarding s) (dispatching s) n b (accepted s) (taken s) (dropped s) (ran s).
(** The queue, with the tasks that were put, taken, dropped and called *)
Definition set_queue (q : list item) (a t d r : list Task) (s : state) : state :=
  mkState (_running s) q (_workers s) (checks s) (next_call s) (discarding s) (dispatching s) (stopping s) (stopped s) a t d r.

Definition set_thread (p : position) (w : _Worker) : _Worker :=
  mkWorker (_discarded w) (_task_counter w) (_task w) (_scheduled_check w) p (member w).
Definition set_check (c : option nat) (w : _Worker) : _Worker :=
  mkWorker (_discarded w) (_task_counter w) (_task w) c (_thread w) (member w).
Definition set_task (t : option Task) (w : _Worker) : _Worker :=
  mkWorker (_discarded w) (_task_counter w) t (_scheduled_check w) (_thread w) (member w).
Definition set_discarded (w : _Worker) : _Worker :=
  mkWorker true (_task_counter w) (_task w) (_scheduled_check w) (_thread w) (member w).
Definition count_task (w : _Worker) : _Worker :=
  mkWorker (_discarded w) (S (_task_counter w)) (_task w) (_scheduled_check w) (_thread w) (member w).
Definition unmember (w : _Worker) : _Worker :=
  mkWorker (_discarded w) (_task_counter w) (_task w) (_scheduled_check w) (_thread w) false.

Definition put_worker (i : nat) (w : _Worker) (s : state) : state := set_workers (<[i := w]> (_workers s)) s.

Definition task_of (it : item) : option Task := match it with Run t => Some t | STOP => None end.
Definition tasks_of (q : list item) : list Task := omap task_of q.

Section Operations.
  Context (workers_count : nat) (max_workers : option nat) (max_tasks : nat).

(** ** The task queue *)

(** [TaskQueue.put] *)
Definition put (it : item) : M state exn unit := fun s =>
  if decide (length (_tasks s) = max_tasks) then (s, Raise ResourceExhausted)
  else (set_queue (_tasks s ++ [it]) (accepted s ++ tasks_of [it]) (taken s) (dropped s) (ran s) s, Ok ()).

(** [TaskQueue.get]: [None] when the queue is empty and the caller waits. *)
Definition get (s : state) : state * option item :=
  match _tasks s with
  | [] => (s, None)
  | it :: q => (set_queue q (accepted s) (taken s ++ tasks_of [it]) (dropped s) (ran s) s, Some it)
  end.

(** [TaskQueue.clear] *)
Definition clear (s : state) : state :=
  set_queue [] (accepted s) (taken s) (dropped s ++ tasks_of (_tasks s)) (ran s) s.

(** ** The executor *)

Definition active (w : _Worker) : bool := member w && negb (_discarded w).

Definition _active_workers (s : state) : nat := length (filter active (_workers s)).
Definition _total_workers (s : state) : nat := length (filter member (_workers s)).

Definition _may_add_workers (s : state) : bool :=
  (_active_workers s <? workers_count)%nat
  && match max_workers with None => true | Some m => (_total_workers s <? m)%nat end.

Definition _add_worker (s : state) : state := set_workers (_workers s ++ [new_worker]) s.

Definition start : M state exn unit := fun s =>
  if _running s then (s, Raise AlreadyStarted)
  else (Nat.iter workers_count _add_worker (set_stopping (stopping s) false (set_running true s)), Ok ()).

(** [stop] takes the lock, and puts its markers one by one: *)
Definition stop (s : state) : state := set_stopping workers_count true (clear (set_running false s)).

(** one marker; [stop] fails when the queue is full. *)
Definition stop_put (s : state) : state :=
  match stopping s with
  | O => s
  | S n => match put STOP s with
           | (s', Ok _) => set_stopping n (stopped s') s'
           | (s', Raise _) => set_stopping 0 false s'
           end
  end.

(** [dispatch]: the test, and then the call of [put] *)
Definition dispatch (t : Task) : M state exn unit := fun s =>
  if negb (_running s) then (s, Raise NotRunning) else (set_dispatching (dispatching s ++ [t]) s, Ok ()).

Definition dispatch_put (k : nat) (s : state) : state :=
  match dispatching s !! k with
  | None => s
  | Some t => fst (put (Run t) (set_dispatching (delete k (dispatching s)) s))
  end.

(** The common end of the two calls below *)
Definition replenish (s : state) : state :=
  if negb (_running s) then s else if _may_add_workers s then _add_worker s else s.

Definition _worker_discarded (s : state) : state := replenish s.

Definition _worker_stopped (i : nat) : M state exn unit := fun s =>
  match _workers s !! i with
  | Some w => if member w then (replenish (put_worker i (unmember w) s), Ok ()) else (s, Raise KeyError)
  | None => (s, Raise KeyError)
  end.

(** ** Workers *)

(** [_check_after]: the scheduler keeps a call, or refuses it. *)
Definition _check_after (accept : bool) (i n : nat) (timeout : option Z) : M state exn (option nat) := fun s =>
  match timeout with
  | None => (s, Ok None)
  | Some _ =>
      if accept then (set_checks (<[next_call s := (i, n)]> (checks s)) (S (next_call s)) s, Ok (Some (next_call s)))
      else (s, Raise AssertionError)
  end.

(** [ScheduledCall.cancel] *)
Definition cancel (c : option nat) (s : state) : state :=
  match c with Some c => set_checks (delete c (checks s)) (next_call s) s | None => s end.

(** One step of a worker's thread.  [accept] is the scheduler's answer, [escapes] whether
    the task ends with an exception that is not an [Exception]. *)
Definition worker_step (accept escapes : bool) (i : nat) (s : state) : state :=
  match _workers s !! i with
  | None => s
  | Some w =>
      match _thread w with
      | Next =>
          match get s with
          | (_, None) => s
          | (s', Some STOP) => put_worker i (set_thread Leaving w) s'
          | (s', Some (Run t)) => put_worker i (set_thread (Got t) w) s'
          end
      | Got t =>
          match _check_after accept i (_task_counter w) (timeout t) s with
          | (s', Ok c) => put_worker i (set_thread (Armed t) (set_check c w)) s'
          | (s', Raise _) => put_worker i (set_thread Leaving w) s'
          end
      | Armed t =>
          put_worker i (set_thread (InTask t) (set_task (Some t) w))
            (set_queue (_tasks s) (accepted s) (taken s) (dropped s) (ran s ++ [t]) s)
      | InTask _ => put_worker i (set_thread (Disarming escapes) (set_task None w)) s
      | Disarming b =>
          put_worker i (set_thread (Disarmed b) (count_task (set_check None w))) (cancel (_scheduled_check w) s)
      | Disarmed b => put_worker i (set_thread (if _discarded w || b then Leaving else Next) w) s
      | Leaving =>
          (* the executor's lock is free *)
          if decide (stopping s = 0%nat) then
            match _worker_stopped i (put_worker i (set_thread Gone w) s) with (s', _) => s' end
          else s
      | Gone => s
      end
  end.

(** [_check_task], the part under the worker's lock: tells whether the worker is to be
    replaced. *)
Definition _check_task (accept : bool) (i n : nat) : M state exn bool := fun s =>
  match _workers s !! i with
  | None => (s, Ok false)
  | Some w =>
      if decide (n = _task_counter w) then
        match _task w with
        | None => (s, Raise AttributeError)
        | Some t =>
            if discard t then
              if _discarded w then (s, Raise AssertionError)
              else (put_worker i (set_discarded w) s, Ok true)
            else match _check_after accept i (_task_counter w) (timeout t) s with
                 | (s', Ok c) => (put_worker i (set_check c w) s', Ok (_discarded w))
                 | (s', Raise e) => (s', Raise e)
                 end
        end
      else (s, Ok false)
  end.

(** The scheduler runs a call: an exception is logged; a worker that was discarded is then
    reported to the executor. *)
Definition check_step (accept : bool) (c : nat) (s : state) : state :=
  match checks s !! c with
  | None => s
  | Some (i, n) =>
      match _check_task accept i n (cancel (Some c) s) with
      | (s', Ok true) => set_discarding (discarding s' ++ [i]) s'
      | (s', _) => s'
      end
  end.

(** The report, which takes the executor's lock *)
Definition discarded_step (k : nat) (s : state) : state :=
  match discarding s !! k with
  | None => s
  | Some _ =>
      if decide (stopping s = 0%nat) then _worker_discarded (set_discarding (delete k (discarding s)) s) else s
  end.

(** Whatever threads do to an executor that is started once, before it has workers, as the modules that use it do *)
Inductive step : state → state → Prop :=
| step_start s s' : start s = (s', Ok ()) → _workers s = [] → stopping s = 0%nat → step s s'
| step_stop s : stopping s = 0%nat → step s (stop s)
| step_stop_put s : step s (stop_put s)
| step_dispatch s s' t : dispatch t s = (s', Ok ()) → step s s'
| step_dispatch_put s k : step s (dispatch_put k s)
| step_worker s accept escapes i : step s (worker_step accept escapes i s)
| step_check s accept c : step s (check_step accept c s)
| step_discarded s k : step s (discarded_step k s).

Definition reachable (s : state) : Prop := rtc step init s.
End Operations.
