(* ===== verification/ExecutorSpec.v ===== *)
(** * The executor: what it promises

    Invariants of the system of [Executor]: the queue loses and repeats no task, the number
    of workers stays in its bounds, discarded workers are replaced, no worker is
    discarded twice, and a stopped executor lets every worker go. *)
From Stdlib Require Import ZArith Lia.
From stdpp Require Import base gmap list relations.
From S2P Require Import Prelude Executor.

(** ** Counting workers *)

Definition count (P : _Worker → bool) (l : list _Worker) : nat := length (filter P l).
Arguments count : simpl never.

Lemma count_perm P l k : l ≡ₚ k → count P l = count P k.
Proof. intros H. unfold count. by rewrite H. Qed.

Lemma count_cons P w l : count P (w :: l) = (Nat.b2n (P w) + count P l)%nat.
Proof. unfold count. rewrite filter_cons. by destruct (P w). Qed.

Lemma count_snoc P l w : count P (l ++ [w]) = (count P l + Nat.b2n (P w))%nat.
Proof. rewrite (count_perm P _ (w :: l)) by by rewrite Permutation_app_comm. rewrite count_cons. lia. Qed.

Lemma count_insert P l i w w' :
  l !! i = Some w → (count P (<[i := w']> l) + Nat.b2n (P w) = count P l + Nat.b2n (P w'))%nat.
Proof.
  intros Hi. rewrite (count_perm P _ _ (insert_delete_perm l i w w' Hi)), (count_perm P l (w :: base.delete i l) (delete_Permutation l i w Hi)).
  rewrite !count_cons. lia.
Qed.

Lemma count_le (P Q : _Worker → bool) l : (∀ i w, l !! i = Some w → P w = true → Q w = true) → (count P l <= count Q l)%nat.
Proof.
  induction l as [|w l IH]; intros H; [done|]. rewrite !count_cons.
  specialize (IH (fun i w' Hi => H (S i) w' Hi)). pose proof (H 0%nat w eq_refl) as Hw. destruct (P w), (Q w); cbn; lia || by specialize (Hw eq_refl).
Qed.

(** ** Tasks *)

(** The task a worker took and has not called yet *)
Definition hand (w : _Worker) : option Task := match _thread w with Got t | Armed t => Some t | _ => None end.

Definition held (l : list _Worker) : list Task := omap hand l.

Definition somes {A} (o : option A) : list A := match o with Some a => [a] | None => [] end.

Lemma held_cons w l : held (w :: l) = somes (hand w) ++ held l.
Proof. unfold held. cbn. by destruct (hand w). Qed.

Lemma held_insert l i w w' : l !! i = Some w → somes (hand w) ++ held (<[i := w']> l) ≡ₚ somes (hand w') ++ held l.
Proof.
  intros Hi. assert (∀ a b, a ≡ₚ b → held a ≡ₚ held b) as Hperm by (intros a b E; unfold held; by rewrite E).
  rewrite (Hperm _ _ (insert_delete_perm l i w w' Hi)), (Hperm _ _ (delete_Permutation l i w Hi)), !held_cons. apply Permutation_app_swap_app.
Qed.

Lemma held_snoc l : held (l ++ [new_worker]) = held l.
Proof. unfold held. rewrite omap_app. cbn. by rewrite app_nil_r. Qed.

Lemma tasks_of_app q q' : tasks_of (q ++ q') = tasks_of q ++ tasks_of q'.
Proof. apply omap_app. Qed.

Lemma put_worker_twice i a b s : put_worker i a (put_worker i b s) = put_worker i a s.
Proof. unfold put_worker, set_workers. cbn. by rewrite list_insert_insert_eq. Qed.

Section Spec.
  Context (workers_count : nat) (max_workers : option nat) (max_tasks : nat).
  Notation step := (step workers_count max_workers max_tasks).
  Notation reachable := (reachable workers_count max_workers max_tasks).

Record queue_inv (s : state) : Prop := {
  q_len : (length (_tasks s) <= max_tasks)%nat;
  q_tasks : accepted s ≡ₚ taken s ++ dropped s ++ tasks_of (_tasks s);
  q_fifo : dropped s = [] → accepted s = taken s ++ tasks_of (_tasks s);
  q_ran : ran s ++ held (_workers s) ⊆+ taken s;
}.

(** Nothing that concerns tasks changes. *)
Definition same_tasks (s s' : state) : Prop :=
  _tasks s' = _tasks s ∧ accepted s' = accepted s ∧ taken s' = taken s ∧ dropped s' = dropped s ∧ ran s' = ran s ∧
  held (_workers s') ⊆+ held (_workers s).

Lemma queue_same s s' : queue_inv s → same_tasks s s' → queue_inv s'.
Proof.
  intros [H1 H2 H3 H4] (E1 & E2 & E3 & E4 & E5 & E6). split; rewrite ?E1, ?E2, ?E3, ?E4, ?E5; try done.
  etrans; [|exact H4]. by apply submseteq_app.
Qed.

Lemma same_tasks_refl s : same_tasks s s.
Proof. by split_and!. Qed.

(** A worker that keeps or drops its task *)
Lemma held_put l i w w' : l !! i = Some w → hand w' = hand w ∨ hand w' = None → held (<[i := w']> l) ⊆+ held l.
Proof.
  intros Hi Hh. pose proof (held_insert l i w w' Hi) as Hp. destruct Hh as [E|E]; rewrite E in Hp.
  - apply (inj (app (somes (hand w)))) in Hp. by rewrite Hp.
  - cbn in Hp. rewrite <- Hp. by apply submseteq_inserts_l.
Qed.

Lemma queue_put s it s' x : queue_inv s → put max_tasks it s = (s', x) → queue_inv s'.
Proof.
  intros [H1 H2 H3 H4]. unfold put. case_decide as Hl; intros [= <- <-]; [by split|].
  split; cbn -[tasks_of]; rewrite ?tasks_of_app.
  - rewrite length_app. cbn. lia.
  - rewrite H2. by rewrite <- !app_assoc.
  - intros Hd. rewrite (H3 Hd). by rewrite <- app_assoc.
  - done.
Qed.

Lemma replenish_tasks s : same_tasks s (replenish workers_count max_workers s).
Proof.
  unfold replenish. destruct (_running s); cbn [negb]; [|apply same_tasks_refl].
  destruct (_may_add_workers _ _ s); [|apply same_tasks_refl]. split_and!; try done. cbn. by rewrite held_snoc.
Qed.

Lemma same_tasks_trans s s1 s2 : same_tasks s s1 → same_tasks s1 s2 → same_tasks s s2.
Proof. intros (A1&A2&A3&A4&A5&A6) (B1&B2&B3&B4&B5&B6). split_and!; try congruence. by etrans. Qed.

Lemma queue_worker s accept escapes i : queue_inv s → queue_inv (worker_step workers_count max_workers accept escapes i s).
Proof.
  intros H. unfold worker_step. destruct (_workers s !! i) as [w|] eqn:Ei; [|done].
  assert (∀ w' s1, hand w' = None → same_tasks s s1 → _workers s1 = _workers s → queue_inv (put_worker i w' s1)) as Hput.
  { intros w' s1 Hh (E1&E2&E3&E4&E5&E6) Ew. eapply queue_same; [exact H|]. split_and!; try done.
    cbn. rewrite Ew. eapply held_put; [exact Ei|by right]. }
  destruct (_thread w) as [|t|t|t|b|b| |] eqn:Et.
  - unfold get. destruct (_tasks s) as [|[|t] q] eqn:Eq; [done|..].
    + destruct H as [H1 H2 H3 H4]. rewrite Eq in *. cbn in *. split; cbn; rewrite ?app_nil_r; try done; [lia|].
      etrans; [|exact H4]. apply submseteq_app; [done|]. eapply held_put; [exact Ei|by right].
    + destruct H as [H1 H2 H3 H4]. rewrite Eq in *. cbn in *. split; cbn; try lia.
      * rewrite H2, <- app_assoc. cbn. by rewrite <- !Permutation_middle.
      * intros Hd. rewrite (H3 Hd). by rewrite <- app_assoc.
      * pose proof (held_insert (_workers s) i w (set_thread (Got t) w) Ei) as Hp. unfold hand in Hp at 1. rewrite Et in Hp. cbn in Hp.
        rewrite Hp. rewrite <- Permutation_middle, Permutation_cons_append. by apply submseteq_app.
  - unfold _check_after. assert (queue_inv (put_worker i (set_thread Leaving w) s)) by by apply Hput.
    assert (∀ c s1, same_tasks s s1 → _workers s1 = _workers s → queue_inv (put_worker i (set_thread (Armed t) (set_check c w)) s1)) as Harm.
    { intros c s1 (E1&E2&E3&E4&E5&E6) Ew. eapply queue_same; [exact H|]. split_and!; try done.
      cbn. rewrite Ew. eapply held_put; [exact Ei|]. left. unfold hand. by rewrite Et. }
    destruct (timeout t); [destruct accept|]; [by apply Harm|done|by apply Harm].
  - destruct H as [H1 H2 H3 H4]. split; cbn; try done. etrans; [|exact H4].
    pose proof (held_insert (_workers s) i w (set_thread (InTask t) (set_task (Some t) w)) Ei) as Hp. unfold hand in Hp at 1. rewrite Et in Hp. cbn in Hp.
    rewrite <- app_assoc. cbn. by rewrite Hp.
  - by apply Hput.
  - apply Hput; [done|..]; destruct (_scheduled_check w); by try apply same_tasks_refl.
  - apply Hput; [by destruct (_ || _)|apply same_tasks_refl|done].
  - case_decide; [|done]. unfold _worker_stopped. cbn. rewrite list_lookup_insert_eq by by eapply lookup_lt_Some.
    assert (queue_inv (put_worker i (set_thread Gone w) s)) as Hg by (apply Hput; [done|apply same_tasks_refl|done]).
    cbn [member set_thread]. destruct (member w); [|done]. eapply queue_same, replenish_tasks. rewrite put_worker_twice.
    apply Hput; [done|apply same_tasks_refl|done].
  - done.
Qed.

Lemma started_workers n s :
  Nat.iter n _add_worker s = set_workers (_workers s ++ replicate n new_worker) s.
Proof.
  induction n as [|n IH]; [|change (Nat.iter (S n) _add_worker s) with (_add_worker (Nat.iter n _add_worker s))].
  - cbn. unfold set_workers. cbn. rewrite app_nil_r. by destruct s.
  - rewrite IH. unfold _add_worker, set_workers. cbn. by rewrite <- app_assoc, <- replicate_cons_app.
Qed.

Lemma held_started l n : held (l ++ replicate n new_worker) = held l.
Proof.
  unfold held. rewrite omap_app. replace (omap hand (replicate n new_worker)) with (@nil Task) by (by induction n). apply app_nil_r.
Qed.

Lemma check_after_effect accept i n timeout s :
  (∃ c cs nc, _check_after accept i n timeout s = (set_checks cs nc s, Ok c)) ∨ _check_after accept i n timeout s = (s, Raise AssertionError).
Proof.
  unfold _check_after. destruct timeout; [destruct accept|]; eauto 6. left. exists None, (checks s), (next_call s). by destruct s.
Qed.

Lemma same_put s s1 i w w' :
  _workers s !! i = Some w → hand w' = hand w → same_tasks s s1 → _workers s1 = _workers s → same_tasks s (put_worker i w' s1).
Proof.
  intros Hi Hh (E1&E2&E3&E4&E5&E6) Ew. split_and!; try done. cbn. rewrite Ew. eapply held_put; [exact Hi|by left].
Qed.

Lemma check_step_tasks accept c s : same_tasks s (check_step accept c s).
Proof.
  unfold check_step. destruct (checks s !! c) as [[i n]|]; [|apply same_tasks_refl]. unfold _check_task. cbn.
  destruct (_workers s !! i) as [w|] eqn:Ei; [|by split_and!]. case_decide; [|by split_and!]. destruct (_task w) as [t|]; [|by split_and!].
  destruct (discard t).
  - destruct (_discarded w); [by split_and!|]. by eapply (same_put s (set_checks (base.delete c (checks s)) (next_call s) s)).
  - destruct (check_after_effect accept i (_task_counter w) (timeout t) (set_checks (base.delete c (checks s)) (next_call s) s))
      as [(c' & cs & nc & ->)| ->]; [|by split_and!].
    destruct (_discarded w); by eapply (same_put s (set_checks cs nc s)).
Qed.

Lemma queue_step s s' : queue_inv s → step s s' → queue_inv s'.
Proof.
  intros H Hst. destruct Hst as [s s' E Ew Es|s Es|s|s s' t E|s k|s accept escapes i|s accept c|s k].
  - unfold start in E. destruct (_running s); [done|]. injection E as <-. rewrite started_workers.
    eapply queue_same; [exact H|]. split_and!; try done. cbn. by rewrite held_started.
  - destruct H as [H1 H2 H3 H4]. split; cbn; try done; [lia|by rewrite app_nil_r|].
    intros [Hd Hq]%app_nil. rewrite (H3 Hd). by f_equal.
  - unfold stop_put. destruct (stopping s); [done|]. destruct (put max_tasks STOP s) as [s' x] eqn:E.
    apply (queue_put _ _ _ _ H) in E. destruct x; by eapply queue_same.
  - unfold dispatch in E. destruct (_running s); [|done]. injection E as <-. by eapply queue_same.
  - unfold dispatch_put. destruct (dispatching s !! k) as [t|]; [|done].
    destruct (put max_tasks (Run t) _) as [s' x] eqn:E. eapply queue_put; [|exact E]. by eapply queue_same.
  - by apply queue_worker.
  - eapply queue_same; [exact H|apply check_step_tasks].
  - unfold discarded_step. destruct (discarding s !! k); [|done]. case_decide; [|done].
    eapply queue_same, replenish_tasks. by eapply queue_same.
Qed.

(** ** Workers and their checks *)

Record worker_ok (w : _Worker) : Prop := {
  w_idle : match _thread w with
           | Next | Got _ => _scheduled_check w = None ∧ _discarded w = false
           | Disarmed _ => _scheduled_check w = None
           | _ => True
           end;
  w_member : member w = match _thread w with Gone => false | _ => true end;
}.

(** A check of the task a worker is at is the one it armed, and the worker was not
    discarded for this task; other checks are late ones. *)
Record work_inv (s : state) : Prop := {
  wk_ok : ∀ i w, _workers s !! i = Some w → worker_ok w;
  wk_checks : ∀ c i n, checks s !! c = Some (i, n) → (c < next_call s)%nat ∧
    ∃ w, _workers s !! i = Some w ∧ (n <= _task_counter w)%nat ∧
      (n = _task_counter w → _scheduled_check w = Some c ∧ _discarded w = false);
}.

Lemma worker_ok_new : worker_ok new_worker.
Proof. by split. Qed.

(** A worker changes without its counter, check and mark. *)
Lemma work_put s i w w' :
  work_inv s → _workers s !! i = Some w → worker_ok w' → _task_counter w' = _task_counter w →
  _scheduled_check w' = _scheduled_check w → _discarded w' = _discarded w → work_inv (put_worker i w' s).
Proof.
  intros [H1 H2] Hi Hok Ec Es Ed. split; cbn.
  - intros j v [(-> & <- & _)|[_ Hj]]%list_lookup_insert_Some; [done|by eapply H1].
  - intros c j n Hc. destruct (H2 c j n Hc) as (Hlt & v & Hj & Hn & Hv). split; [done|].
    destruct (decide (j = i)) as [->|Hne]; [|exists v; by rewrite list_lookup_insert_ne].
    simplify_eq. exists w'. rewrite list_lookup_insert_eq by by eapply lookup_lt_Some. by rewrite Ec, Es, Ed.
Qed.

(** Workers are only added, and checks only disappear. *)
Lemma work_grow s s' ws :
  work_inv s → _workers s' = _workers s ++ ws → Forall worker_ok ws → next_call s' = next_call s →
  (∀ c x, checks s' !! c = Some x → checks s !! c = Some x) → work_inv s'.
Proof.
  intros [H1 H2] Ew Hws En Ec. split; rewrite ?Ew, ?En.
  - intros j v [Hj|[_ Hj]]%lookup_app_Some; [by eapply H1|]. by eapply Forall_lookup in Hj.
  - intros c j n Hc%Ec. destruct (H2 c j n Hc) as (Hlt & v & Hj & Hn & Hv). split; [done|]. exists v.
    by rewrite lookup_app_l by by eapply lookup_lt_Some.
Qed.

Lemma work_same s s' :
  work_inv s → _workers s' = _workers s → next_call s' = next_call s → (∀ c x, checks s' !! c = Some x → checks s !! c = Some x) → work_inv s'.
Proof. intros H Ew En Ec. eapply (work_grow s s' []); try done. by rewrite app_nil_r. Qed.

Lemma work_replenish s : work_inv s → work_inv (replenish workers_count max_workers s).
Proof.
  intros H. unfold replenish. destruct (_running s); cbn [negb]; [|done]. destruct (_may_add_workers _ _ s); [|done].
  eapply (work_grow s _ [new_worker]); try done. repeat constructor.
Qed.

(** A check is armed, or armed again, when no other one of this task is left. *)
Lemma work_arm s i w w' accept timeout s' c :
  work_inv s → _workers s !! i = Some w → _discarded w = false → (∀ c, checks s !! c ≠ Some (i, _task_counter w)) →
  _check_after accept i (_task_counter w) timeout s = (s', Ok c) →
  worker_ok w' → _task_counter w' = _task_counter w → _scheduled_check w' = c → _discarded w' = false → work_inv (put_worker i w' s').
Proof.
  intros [H1 H2] Hi Hd Hno E Hok Ec Es Ed. pose proof (lookup_lt_Some _ _ _ Hi).
  assert (_workers s' = _workers s ∧ (next_call s <= next_call s')%nat ∧
    ∀ x i' n, checks s' !! x = Some (i', n) → checks s !! x = Some (i', n) ∨ (x < next_call s')%nat ∧ c = Some x ∧ i' = i ∧ n = _task_counter w) as (Ew & En & Ech).
  { unfold _check_after in E. destruct timeout; [destruct accept|]; simplify_eq/=.
    - split_and!; [done|lia|]. intros x i' n [[<- [= <- <-]]|[_ ?]]%lookup_insert_Some; [right; split_and!; [lia|done..]|by left].
    - split_and!; [done|lia|]. auto. }
  split; cbn; rewrite Ew.
  - intros j v [(-> & <- & _)|[_ Hj]]%list_lookup_insert_Some; [done|by eapply H1].
  - intros x j n [Hx|(Hlt & -> & -> & ->)]%Ech.
    + destruct (H2 x j n Hx) as (Hlt & v & Hj & Hn & Hv). split; [lia|].
      destruct (decide (j = i)) as [->|Hne]; [|exists v; by rewrite list_lookup_insert_ne].
      simplify_eq. exists w'. rewrite list_lookup_insert_eq by done. rewrite Ec. split_and!; [done|done|].
      intros ->. by apply Hno in Hx.
    + split; [done|]. exists w'. rewrite list_lookup_insert_eq by done. rewrite Ec. done.
Qed.

(** A worker without a check has none for its task. *)
Lemma unarmed s i w : work_inv s → _workers s !! i = Some w → _scheduled_check w = None → ∀ c, checks s !! c ≠ Some (i, _task_counter w).
Proof.
  intros H Hi Hc c Hx. destruct (wk_checks s H _ _ _ Hx) as (_ & v & Hv & _ & Hn). simplify_eq. destruct (Hn eq_refl). congruence.
Qed.

(** The check is canceled and the task counted. *)
Lemma work_disarm s i w b :
  work_inv s → _workers s !! i = Some w → _thread w = Disarming b →
  work_inv (put_worker i (set_thread (Disarmed b) (count_task (set_check None w))) (cancel (_scheduled_check w) s)).
Proof.
  intros H Hi Et. destruct (wk_ok s H i w Hi) as [_ Hm]. rewrite Et in Hm.
  assert (_workers (cancel (_scheduled_check w) s) = _workers s ∧ next_call (cancel (_scheduled_check w) s) = next_call s ∧
    ∀ c x, checks (cancel (_scheduled_check w) s) !! c = Some x → checks s !! c = Some x) as (Ew & En & Ech).
  { destruct (_scheduled_check w); [|done]. split_and!; [done|done|]. cbn. by intros c x [_ ?]%lookup_delete_Some. }
  split; cbn; rewrite Ew.
  - intros j v [(-> & <- & _)|[_ Hj]]%list_lookup_insert_Some; [by split|by eapply wk_ok].
  - intros c j n Hc%Ech. rewrite En. destruct (wk_checks s H c j n Hc) as (Hlt & v & Hj & Hn & Hv). split; [done|].
    destruct (decide (j = i)) as [->|Hne]; [|exists v; by rewrite list_lookup_insert_ne]. simplify_eq.
    eexists. rewrite list_lookup_insert_eq by by eapply lookup_lt_Some. split_and!; [done|cbn; lia|cbn; lia].
Qed.

Lemma work_worker s accept escapes i : work_inv s → work_inv (worker_step workers_count max_workers accept escapes i s).
Proof.
  intros H. unfold worker_step. destruct (_workers s !! i) as [w|] eqn:Ei; [|done].
  destruct (wk_ok s H i w Ei) as [Hidle Hm]. destruct (_thread w) as [|t|t|t|b|b| |] eqn:Et.
  - unfold get. destruct (_tasks s) as [|[|t] q]; [done|..];
      (eapply work_put; [by eapply (work_same s)|exact Ei|by split|done..]).
  - destruct Hidle as [Hc Hd]. destruct (_check_after accept i (_task_counter w) (timeout t) s) as [s' [c|e]] eqn:E.
    + eapply (work_arm s i w); try done. by apply unarmed.
    + destruct (check_after_effect accept i (_task_counter w) (timeout t) s) as [(? & ? & ? & E')|E']; rewrite E' in E; simplify_eq.
      eapply work_put; [done|exact Ei|by split|done..].
  - eapply work_put; [by eapply (work_same s)|exact Ei|by split|done..].
  - eapply work_put; [done|exact Ei|by split|done..].
  - by apply work_disarm.
  - eapply work_put; [done|exact Ei| |done..]. split; cbn; [|by destruct (_ || _)]. by destruct (_discarded w), b.
  - case_decide; [|done]. unfold _worker_stopped. cbn. rewrite list_lookup_insert_eq by by eapply lookup_lt_Some.
    cbn [member set_thread]. rewrite Hm. apply work_replenish. rewrite put_worker_twice. eapply work_put; [done|exact Ei|by split|done..].
  - done.
Qed.

(** No worker is discarded twice: a check that finds its task finds a worker that was not
    discarded. *)
Lemma check_task_inv s accept c i n :
  work_inv s → checks s !! c = Some (i, n) →
  work_inv (fst (_check_task accept i n (cancel (Some c) s))) ∧
  (snd (_check_task accept i n (cancel (Some c) s)) = Raise AssertionError → accept = false).
Proof.
  intros H Hc. destruct (wk_checks s H c i n Hc) as (Hlt & w & Hi & Hn & Hw).
  assert (work_inv (cancel (Some c) s)) as H1.
  { eapply work_same; [exact H|done..|]. cbn. by intros c' x [_ ?]%lookup_delete_Some. }
  unfold _check_task. change (_workers (cancel (Some c) s)) with (_workers s). rewrite Hi. case_decide as En; [|done].
  destruct (Hw En) as [Hs Hd]. destruct (_task w) as [t|]; [|done]. pose proof (wk_ok s H i w Hi) as Hok.
  assert (∀ c', checks (cancel (Some c) s) !! c' ≠ Some (i, _task_counter w)) as Hno.
  { intros c' Hc'. destruct (wk_checks _ H1 _ _ _ Hc') as (_ & v & Hv & _ & Hcv). cbn in Hv. simplify_eq.
    destruct (Hcv eq_refl) as [Hs' _]. assert (c' = c) as -> by congruence. cbn in Hc'. by rewrite lookup_delete_eq in Hc'. }
  assert (match _thread w with Next | Got _ | Disarmed _ => False | _ => True end) as Hth.
  { pose proof (w_idle w Hok) as Hidle. destruct (_thread w); try done; [destruct Hidle; congruence..|congruence]. }
  destruct (discard t).
  - rewrite Hd. cbn [fst snd]. split; [|done]. split; cbn.
    + intros j v [(-> & <- & _)|[_ Hj]]%list_lookup_insert_Some; [|by eapply wk_ok]. destruct Hok as [_ Hm]. split; cbn; [by destruct (_thread w)|done].
    + intros c' j n' Hc'. change (base.delete c (checks s)) with (checks (cancel (Some c) s)) in Hc'.
      destruct (wk_checks _ H1 _ _ _ Hc') as (Hlt' & v & Hj & Hn' & Hv). split; [done|]. cbn in Hj.
      destruct (decide (j = i)) as [->|Hne]; [|exists v; by rewrite list_lookup_insert_ne]. simplify_eq.
      eexists. rewrite list_lookup_insert_eq by by eapply lookup_lt_Some. split_and!; [done|done|]. cbn. intros ->. by apply Hno in Hc'.
  - destruct (_check_after accept i (_task_counter w) (timeout t) (cancel (Some c) s)) as [s' [c'|e]] eqn:E; cbn [fst snd].
    + split; [|done]. eapply (work_arm (cancel (Some c) s) i w); try done. destruct Hok as [Hi' Hm]. split; [|done]. cbn. by destruct (_thread w).
    + destruct (check_after_effect accept i (_task_counter w) (timeout t) (cancel (Some c) s)) as [(? & ? & ? & E')|E']; rewrite E' in E; simplify_eq.
      split; [done|]. intros _. unfold _check_after in E'. destruct (timeout t), accept; by simplify_eq.
Qed.

Lemma work_check s accept c : work_inv s → work_inv (check_step accept c s).
Proof.
  intros H. unfold check_step. destruct (checks s !! c) as [[i n]|] eqn:Ec; [|done].
  pose proof (proj1 (check_task_inv s accept c i n H Ec)) as H1. destruct (_check_task accept i n _) as [s' [[]|]]; [|done..].
  by eapply work_same.
Qed.

Lemma work_step s s' : work_inv s → step s s' → work_inv s'.
Proof.
  intros H Hst. destruct Hst as [s s' E Ew Es|s Es|s|s s' t E|s k|s accept escapes i|s accept c|s k].
  - unfold start in E. destruct (_running s); [done|]. injection E as <-. rewrite started_workers.
    eapply (work_grow s _ (replicate workers_count new_worker)); try done. apply Forall_replicate, worker_ok_new.
  - by eapply work_same.
  - unfold stop_put, put. destruct (stopping s); [done|]. case_decide; by eapply work_same.
  - unfold dispatch in E. destruct (_running s); [|done]. injection E as <-. by eapply work_same.
  - unfold dispatch_put, put. destruct (dispatching s !! k) as [t|]; [|done]. case_decide; by eapply work_same.
  - by apply work_worker.
  - by apply work_check.
  - unfold discarded_step. destruct (discarding s !! k); [|done]. case_decide; [|done]. apply work_replenish. by eapply work_same.
Qed.

(** ** The number of workers *)

(** The bounds, and that at most [slack] more workers are missing than there are reports
    of discarded workers to come, unless the limit is reached. *)
Record pool_inv (slack : nat) (s : state) : Prop := {
  p_active : (count active (_workers s) <= workers_count)%nat;
  p_total : ∀ m, max_workers = Some m → (count member (_workers s) <= Nat.max workers_count m)%nat;
  p_pool : _running s = true →
    (workers_count <= count active (_workers s) + length (discarding s) + slack)%nat ∨
    ∃ m, max_workers = Some m ∧ (m <= count member (_workers s) + slack)%nat;
}.

Lemma pool_replenish s : pool_inv 1 s → pool_inv 0 (replenish workers_count max_workers s).
Proof.
  intros [H1 H2 H3]. unfold replenish. destruct (_running s) eqn:Er; cbn [negb]; [|split; try done; congruence].
  unfold _may_add_workers, _active_workers, _total_workers. fold (count active (_workers s)) (count member (_workers s)).
  destruct (Nat.ltb_spec (count active (_workers s)) workers_count) as [Ha|Ha]; cbn [andb].
  - assert (∀ m, max_workers = Some m → (count member (_workers s) < m)%nat → pool_inv 0 (_add_worker s)) as Hadd.
    { intros m Em Hm. split; cbn; rewrite !count_snoc; cbn; [lia| |].
      - intros m' Em'. simplify_eq. lia.
      - intros _. destruct (H3 eq_refl) as [Hp|(m' & Em' & Hm')]; [left; lia|]. right. exists m'. split; [done|]. lia. }
    destruct max_workers as [m|] eqn:Em in |- *.
    + destruct (Nat.ltb_spec (count member (_workers s)) m); [by eapply Hadd|]. split; try done. intros _. right. exists m. split; [done|]. lia.
    + split; cbn; rewrite ?count_snoc; cbn; [lia|congruence|]. intros _. destruct (H3 eq_refl) as [Hp|(m' & Em' & _)]; [left; lia|congruence].
  - split; try done. intros _. left. lia.
Qed.

Lemma pool_same s s' n : pool_inv n s →
  count active (_workers s') = count active (_workers s) → count member (_workers s') = count member (_workers s) →
  (_running s' = true → _running s = true) → discarding s' = discarding s → pool_inv n s'.
Proof. intros [H1 H2 H3] Ea Em Er Ed. split; rewrite ?Ea, ?Em, ?Ed; auto. Qed.

(** A worker changes, but for its mark and membership. *)
Lemma pool_put s s1 i w w' :
  pool_inv 0 s → _workers s !! i = Some w → _discarded w' = _discarded w → member w' = member w →
  _workers s1 = _workers s → _running s1 = _running s → discarding s1 = discarding s → pool_inv 0 (put_worker i w' s1).
Proof.
  intros H Hi Ed Em Ew Er Edi. pose proof (count_insert active _ i w w' Hi) as Ha. pose proof (count_insert member _ i w w' Hi) as Hm.
  assert (active w' = active w) as Ea by (unfold active; congruence). rewrite Ea in Ha. rewrite Em in Hm.
  eapply pool_same; [exact H|cbn; rewrite ?Ew..]; [lia|lia|congruence|done].
Qed.

Lemma check_after_same accept i n timeout s s' x :
  _check_after accept i n timeout s = (s', x) → _workers s' = _workers s ∧ _running s' = _running s ∧ discarding s' = discarding s ∧
  _tasks s' = _tasks s ∧ stopping s' = stopping s ∧ stopped s' = stopped s.
Proof.
  intros E. destruct (check_after_effect accept i n timeout s) as [(? & ? & ? & E')|E']; rewrite E' in E; by simplify_eq.
Qed.

Lemma pool_worker s accept escapes i : pool_inv 0 s → pool_inv 0 (worker_step workers_count max_workers accept escapes i s).
Proof.
  intros H. unfold worker_step. destruct (_workers s !! i) as [w|] eqn:Ei; [|done].
  destruct (_thread w) as [|t|t|t|b|b| |] eqn:Et; try (by eapply pool_put).
  - unfold get. destruct (_tasks s) as [|[|t] q]; [done|..]; by eapply pool_put.
  - destruct (_check_after accept i (_task_counter w) (timeout t) s) as [s' [c|e]] eqn:E;
      apply check_after_same in E as (? & ? & ? & _); by eapply pool_put.
  - destruct (_scheduled_check w); by eapply pool_put.
  - case_decide; [|done]. unfold _worker_stopped. cbn. rewrite list_lookup_insert_eq by by eapply lookup_lt_Some.
    cbn [member set_thread]. destruct (member w) eqn:Em; [|by eapply pool_put]. apply pool_replenish. rewrite put_worker_twice.
    pose proof (count_insert active _ i w (unmember (set_thread Gone w)) Ei) as Ha.
    pose proof (count_insert member _ i w (unmember (set_thread Gone w)) Ei) as Hm. rewrite Em in Hm. cbn in Ha, Hm.
    assert (Nat.b2n (active w) <= 1)%nat as Hb by (destruct (active w); cbn; lia).
    destruct H as [A1 A2 A3]. split; cbn; [lia| |].
    + intros m Hmax. specialize (A2 m Hmax). lia.
    + intros Hr. destruct (A3 Hr) as [Hp|(m & Hmax & Hp)]; [left; lia|right; exists m; split; [done|lia]].
  - done.
Qed.

Lemma pool_check s accept c : work_inv s → pool_inv 0 s → pool_inv 0 (check_step accept c s).
Proof.
  intros HW H. unfold check_step. destruct (checks s !! c) as [[i n]|] eqn:Ec; [|done].
  unfold _check_task. change (_workers (cancel (Some c) s)) with (_workers s).
  assert (pool_inv 0 (cancel (Some c) s)) as H1 by by eapply pool_same.
  destruct (_workers s !! i) as [w|] eqn:Ei; [|done]. case_decide; [|done]. destruct (_task w) as [t|]; [|done]. destruct (discard t).
  - destruct (_discarded w) eqn:Ed; [done|].
    pose proof (count_insert active _ i w (set_discarded w) Ei) as Ha. pose proof (count_insert member _ i w (set_discarded w) Ei) as Hm.
    change (member (set_discarded w)) with (member w) in Hm.
    assert (Nat.b2n (active (set_discarded w)) = 0)%nat as E0 by (unfold active; cbn; by rewrite andb_false_r).
    assert (Nat.b2n (active w) <= 1)%nat as Hb by (destruct (active w); cbn; lia).
    destruct H as [A1 A2 A3]. split; cbn; rewrite ?length_app; cbn; [lia| |].
    + intros m Hmax. specialize (A2 m Hmax). lia.
    + intros Hr. destruct (A3 Hr) as [Hp|(m & Hmax & Hp)]; [left; lia|right; exists m; split; [done|lia]].
  - destruct (_check_after accept i _ (timeout t) _) as [s' [c'|e]] eqn:E; apply check_after_same in E as (E1 & E2 & E3 & _).
    + destruct (wk_checks s HW c i n Ec) as (_ & v & Hv & _ & Hd). simplify_eq. destruct (Hd eq_refl) as [_ ->].
      by eapply (pool_put (cancel (Some c) s)).
    + eapply pool_same; [exact H1|congruence..].
Qed.

Lemma count_replicate P n : count P (replicate n new_worker) = if P new_worker then n else 0%nat.
Proof. induction n as [|n IH]; cbn [replicate]; [by destruct (P _)|]. rewrite count_cons, IH. by destruct (P _). Qed.

Lemma pool_step s s' : work_inv s → pool_inv 0 s → step s s' → pool_inv 0 s'.
Proof.
  intros HW H Hst. destruct Hst as [s s' E Ew Es|s Es|s|s s' t E|s k|s accept escapes i|s accept c|s k].
  - unfold start in E. destruct (_running s); [done|]. injection E as <-. rewrite started_workers.
    split; cbn; rewrite Ew; cbn; rewrite !count_replicate; cbn; [lia|intros; lia|intros; left; lia].
  - by eapply pool_same.
  - unfold stop_put, put. destruct (stopping s); [done|]. case_decide; by eapply pool_same.
  - unfold dispatch in E. destruct (_running s) eqn:Er; [|done]. injection E as <-. by eapply pool_same.
  - unfold dispatch_put, put. destruct (dispatching s !! k) as [t|]; [|done]. case_decide; by eapply pool_same.
  - by apply pool_worker.
  - by apply pool_check.
  - unfold discarded_step. destruct (discarding s !! k) as [x|] eqn:Ek; [|done]. case_decide; [|done]. apply pool_replenish.
    destruct H as [H1 H2 H3]. pose proof (lookup_lt_Some _ _ _ Ek). split; cbn; [done|done|].
    intros Hr. rewrite length_delete by by eapply lookup_lt_is_Some_2.
    destruct (H3 Hr) as [Hp|(m & Hmax & Hp)]; [left; lia|right; exists m; split; [done|lia]].
Qed.

(** ** Stopping *)

Definition markers (q : list item) : nat := length (filter (fun it => task_of it = None) q).
Arguments markers : simpl never.

(** Workers that will ask the queue again *)
Definition takes (w : _Worker) : bool := negb (_discarded w) && match _thread w with Leaving | Gone => false | _ => true end.

(** There is a marker for every worker that will ask, put or to be put. *)
Definition stop_inv (s : state) : Prop :=
  stopped s = true → _running s = false ∧ (count takes (_workers s) <= markers (_tasks s) + stopping s)%nat.

Lemma markers_app q q' : markers (q ++ q') = (markers q + markers q')%nat.
Proof. unfold markers. by rewrite filter_app, length_app. Qed.

Lemma count_put_le P l i w w' : l !! i = Some w → (P w' = true → P w = true) → (count P (<[i := w']> l) <= count P l)%nat.
Proof.
  intros Hi H. pose proof (count_insert P l i w w' Hi). destruct (P w), (P w'); cbn in *; lia || by specialize (H eq_refl).
Qed.

Lemma stop_put_le s s1 i w w' :
  stop_inv s → _workers s !! i = Some w → (takes w' = true → takes w = true) →
  _workers s1 = _workers s → _running s1 = _running s → _tasks s1 = _tasks s → stopping s1 = stopping s → stopped s1 = stopped s →
  stop_inv (put_worker i w' s1).
Proof.
  intros H Hi Ht Ew Er Eq En Es Hs. cbn in *. rewrite Es in Hs. destruct (H Hs) as [Hr Hle]. rewrite Er, Ew, Eq, En. split; [done|].
  pose proof (count_put_le takes _ i w w' Hi Ht). lia.
Qed.

Lemma stop_replenish s : stop_inv s → stop_inv (replenish workers_count max_workers s).
Proof.
  intros H Hs. unfold replenish in *. destruct (_running s) eqn:Er; cbn [negb] in *; [|by apply H].
  assert (stopped s = true) as Hs' by (by destruct (_may_add_workers _ _ s)). destruct (H Hs'). congruence.
Qed.

Lemma stop_worker s accept escapes i : work_inv s → stop_inv s → stop_inv (worker_step workers_count max_workers accept escapes i s).
Proof.
  intros HW H. unfold worker_step. destruct (_workers s !! i) as [w|] eqn:Ei; [|done]. destruct (wk_ok s HW i w Ei) as [Hidle Hm].
  assert (∀ p, (match p with Leaving | Gone => False | _ => True end → match _thread w with Leaving | Gone => False | _ => True end) →
    ∀ c t, takes (set_thread p (set_check c (set_task t w))) = true → takes w = true) as Hpos.
  { intros p Hp c t. unfold takes. cbn. destruct (_discarded w); [done|]. cbn. destruct p, (_thread w); naive_solver. }
  destruct (_thread w) as [|t|t|t|b|b| |] eqn:Et.
  - unfold get. destruct (_tasks s) as [|[|t] q] eqn:Eq; [done|..]; intros Hs; cbn in *; destruct (H Hs) as [Hr Hle]; rewrite Eq in Hle; (split; [done|]).
    + change (markers (STOP :: q)) with (S (markers q)) in Hle.
      pose proof (count_insert takes _ i w (set_thread Leaving w) Ei) as Hc. unfold takes in Hc at 2 4. rewrite Et, (proj2 Hidle) in Hc. cbn in *. rewrite andb_false_r in Hc. cbn in Hc. lia.
    + change (markers (Run t :: q)) with (markers q) in Hle. etrans; [|exact Hle]. apply (count_put_le takes _ i w); [done|]. intros _. unfold takes. by rewrite Et, (proj2 Hidle).
  - destruct (_check_after accept i (_task_counter w) (timeout t) s) as [s' [c|e]] eqn:E;
      apply check_after_same in E as (? & ? & ? & ? & ? & ?); (eapply stop_put_le; [exact H|exact Ei| |done..]).
    + by apply (Hpos (Armed t) ltac:(done) c (_task w)).
    + by apply (Hpos Leaving ltac:(done) (_scheduled_check w) (_task w)).
  - eapply stop_put_le; [exact H|exact Ei| |done..]. by apply (Hpos (InTask t) ltac:(done) (_scheduled_check w) (Some t)).
  - eapply stop_put_le; [exact H|exact Ei| |done..]. by apply (Hpos (Disarming escapes) ltac:(done) (_scheduled_check w) None).
  - eapply (stop_put_le s); [exact H|exact Ei| |by destruct (_scheduled_check w)..].
    by apply (Hpos (Disarmed b) ltac:(done) None (_task w)).
  - eapply stop_put_le; [exact H|exact Ei| |done..]. by apply (Hpos _ ltac:(done) (_scheduled_check w) (_task w)).
  - case_decide; [|done]. unfold _worker_stopped. cbn. rewrite list_lookup_insert_eq by by eapply lookup_lt_Some.
    cbn [member set_thread]. rewrite Hm. apply stop_replenish. rewrite put_worker_twice.
    eapply stop_put_le; [exact H|exact Ei| |done..]. unfold takes. cbn. by rewrite andb_false_r.
  - done.
Qed.

Lemma stop_check s accept c : stop_inv s → stop_inv (check_step accept c s).
Proof.
  intros H. unfold check_step. destruct (checks s !! c) as [[i n]|] eqn:Ec; [|done].
  unfold _check_task. change (_workers (cancel (Some c) s)) with (_workers s).
  destruct (_workers s !! i) as [w|] eqn:Ei; [|done]. case_decide; [|done]. destruct (_task w) as [t|]; [|done]. destruct (discard t).
  - destruct (_discarded w) eqn:Ed; [done|]. exact (stop_put_le s (cancel (Some c) s) i w (set_discarded w) H Ei ltac:(done) eq_refl eq_refl eq_refl eq_refl eq_refl).
  - destruct (_check_after accept i _ (timeout t) _) as [s' [c'|e]] eqn:E; apply check_after_same in E as (E1 & E2 & E3 & E4 & E5 & E6).
    + assert (stop_inv (put_worker i (set_check c' w) s')) as H1 by (eapply (stop_put_le s); [exact H|exact Ei|done|assumption..]).
      by destruct (_discarded w).
    + intros Hs. rewrite E1, E2, E4, E5. rewrite E6 in Hs. by apply H.
Qed.

Lemma takes_active s : work_inv s → (count takes (_workers s) <= count active (_workers s))%nat.
Proof.
  intros HW. apply count_le. intros i w Hi. destruct (wk_ok s HW i w Hi) as [_ Hm]. unfold takes, active. rewrite Hm.
  destruct (_discarded w), (_thread w); done.
Qed.

Lemma stop_inv_step s s' : work_inv s → pool_inv 0 s → stop_inv s → step s s' → stop_inv s'.
Proof.
  intros HW HP H Hst. destruct Hst as [s s' E Ew Es|s Es|s|s s' t E|s k|s accept escapes i|s accept c|s k].
  - unfold start in E. destruct (_running s); [done|]. injection E as <-. rewrite started_workers. done.
  - intros _. cbn. split; [done|]. pose proof (takes_active s HW). pose proof (p_active _ s HP). lia.
  - unfold stop_put, put. destruct (stopping s) as [|n] eqn:En; [done|]. case_decide; [done|].
    intros Hs. cbn in *. destruct (H Hs) as [Hr Hle]. split; [done|]. rewrite markers_app. change (markers [STOP]) with 1%nat. rewrite En in Hle. lia.
  - unfold dispatch in E. destruct (_running s) eqn:Er; [|done]. injection E as <-. exact H.
  - unfold dispatch_put, put. destruct (dispatching s !! k) as [t|]; [|done]. case_decide; [exact H|].
    intros Hs. cbn in *. destruct (H Hs) as [Hr Hle]. split; [done|]. rewrite markers_app. change (markers [Run t]) with 0%nat. lia.
  - by apply stop_worker.
  - by apply stop_check.
  - unfold discarded_step. destruct (discarding s !! k) as [x|] eqn:Ek; [|done]. case_decide; [|done]. by apply stop_replenish.
Qed.

(** ** What the executor promises *)

Lemma executor_steps s s' :
  rtc step s s' → queue_inv s ∧ work_inv s ∧ pool_inv 0 s ∧ stop_inv s → queue_inv s' ∧ work_inv s' ∧ pool_inv 0 s' ∧ stop_inv s'.
Proof.
  induction 1 as [|s s1 s' H1 H IH]; [done|]. intros (HQ & HW & HP & HS). apply IH.
  split_and!; [by eapply queue_step|by eapply work_step|by eapply pool_step|by eapply stop_inv_step].
Qed.

Lemma executor_inv s : reachable s → queue_inv s ∧ work_inv s ∧ pool_inv 0 s ∧ stop_inv s.
Proof.
  intros H. eapply executor_steps; [exact H|]. split_and!; [split; cbn; done || lia|split; [done|by intros c i n ?]|split; cbn; [apply Nat.le_0_l|intros; apply Nat.le_0_l|done]|done].
Qed.

(** *** Termination of [stop] *)

(** What is left to do before a thread ends *)
Definition rank (p : position) : nat :=
  match p with Got _ => 6 | Armed _ => 5 | InTask _ => 4 | Disarming _ => 3 | Disarmed _ => 2 | Next | Leaving => 1 | Gone => 0 end.

Definition ranks (l : list _Worker) : nat := sum_list (rank ∘ _thread <$> l).

Arguments ranks : simpl never.

Definition measure (s : state) : nat := (ranks (_workers s) + 6 * length (_tasks s))%nat.

Lemma ranks_insert l i w w' : l !! i = Some w → (ranks (<[i := w']> l) + rank (_thread w) = ranks l + rank (_thread w'))%nat.
Proof.
  assert (∀ v k, ranks (v :: k) = rank (_thread v) + ranks k)%nat as Hcons by done.
  revert i. induction l as [|v l IH]; intros [|i] Hi; simplify_eq/=; rewrite !Hcons; [lia|]. specialize (IH i Hi). lia.
Qed.

Lemma measure_put s s1 i w w' :
  _workers s !! i = Some w → _workers s1 = _workers s →
  (rank (_thread w') + 6 * length (_tasks s1) < rank (_thread w) + 6 * length (_tasks s))%nat →
  (measure (put_worker i w' s1) < measure s)%nat.
Proof.
  intros Hi Ew Hr. unfold measure. cbn. rewrite Ew. pose proof (ranks_insert _ i w w' Hi). lia.
Qed.

(** A worker of a stopped executor has work to do until its thread ends. *)
Lemma stopped_progress s accept escapes i w :
  work_inv s → stop_inv s → stopped s = true → stopping s = 0%nat → _workers s !! i = Some w → _thread w ≠ Gone →
  (measure (worker_step workers_count max_workers accept escapes i s) < measure s)%nat.
Proof.
  intros HW HS Hs Hn Ei Hg. destruct (HS Hs) as [Hr Hle]. rewrite Hn in Hle. destruct (wk_ok s HW i w Ei) as [Hidle Hm].
  unfold worker_step. rewrite Ei. destruct (_thread w) as [|t|t|t|b|b| |] eqn:Et; [..|done].
  - assert (0 < count takes (_workers s))%nat.
    { pose proof (count_insert takes _ i w (set_thread Gone w) Ei) as Hc. unfold takes in Hc at 2. rewrite Et, (proj2 Hidle) in Hc. cbn in Hc. unfold takes in Hc at 3. cbn in Hc.
      rewrite andb_false_r in Hc. cbn in Hc. lia. }
    unfold get. destruct (_tasks s) as [|it q] eqn:Eq; [cbn in Hle; change (markers []) with 0%nat in Hle; lia|].
    destruct it as [|t]; (eapply measure_put; [exact Ei|done|]; rewrite Et, Eq; cbn; lia).
  - destruct (_check_after accept i (_task_counter w) (timeout t) s) as [s' [c|e]] eqn:E;
      apply check_after_same in E as (Ew & _ & _ & Eq & _); (eapply measure_put; [exact Ei|done|]; rewrite Et, Eq; cbn; lia).
  - eapply measure_put; [exact Ei|done|]. rewrite Et. cbn. lia.
  - eapply measure_put; [exact Ei|done|]. rewrite Et. cbn. lia.
  - eapply measure_put; [exact Ei|by destruct (_scheduled_check w)|]. rewrite Et. destruct (_scheduled_check w); cbn; lia.
  - eapply measure_put; [exact Ei|done|]. rewrite Et. destruct (_ || _); cbn; lia.
  - rewrite decide_True by done. unfold _worker_stopped. cbn. rewrite list_lookup_insert_eq by by eapply lookup_lt_Some.
    cbn [member set_thread]. rewrite Hm, put_worker_twice. unfold replenish. cbn. rewrite Hr. cbn.
    eapply measure_put; [exact Ei|done|]. rewrite Et. cbn. lia.
Qed.

(** Nothing a worker does undoes the stop. *)
Lemma worker_step_stopped s accept escapes i :
  stopped (worker_step workers_count max_workers accept escapes i s) = stopped s ∧
  stopping (worker_step workers_count max_workers accept escapes i s) = stopping s.
Proof.
  unfold worker_step. destruct (_workers s !! i) as [w|] eqn:Ei; [|done]. destruct (_thread w) as [|t|t|t|b|b| |]; try done.
  - unfold get. by destruct (_tasks s) as [|[|t] q].
  - destruct (_check_after accept i (_task_counter w) (timeout t) s) as [s' [c|e]] eqn:E; by apply check_after_same in E as (_ & _ & _ & _ & ? & ?).
  - by destruct (_scheduled_check w).
  - case_decide; [|done]. unfold _worker_stopped. cbn. rewrite list_lookup_insert_eq by by eapply lookup_lt_Some.
    cbn [member set_thread]. destruct (member w); [|done]. unfold replenish. cbn. destruct (_running s); cbn; [|done]. by destruct (_may_add_workers _ _ _).
Qed.

Lemma stopped_ends n s :
  (measure s <= n)%nat → reachable s → stopped s = true → stopping s = 0%nat →
  ∃ s', rtc step s s' ∧ Forall (fun w => _thread w = Gone) (_workers s').
Proof.
  revert s. induction n as [n IH] using lt_wf_ind. intros s Hn Hr Hs H0.
  destruct (decide (Forall (fun w => match _thread w with Gone => true | _ => false end = true) (_workers s))) as [Hall|Hnot].
  - exists s. split; [done|]. eapply Forall_impl; [exact Hall|]. intros w. cbn. by destruct (_thread w).
  - apply not_Forall_Exists in Hnot; [|apply _]. apply Exists_exists in Hnot as (w & Hin & Hw).
    apply list_elem_of_lookup in Hin as (i & Hi). destruct (executor_inv s Hr) as (_ & HW & _ & HS).
    assert (_thread w ≠ Gone) as Hg by (intros E; apply Hw; by rewrite E).
    pose proof (stopped_progress s true false i w HW HS Hs H0 Hi Hg) as Hlt.
    destruct (worker_step_stopped s true false i) as [E1 E2].
    destruct (IH (measure (worker_step workers_count max_workers true false i s)) ltac:(lia) (worker_step workers_count max_workers true false i s))
      as (s' & Hst & Hall); [done| |congruence..|].
    + eapply rtc_r; [exact Hr|apply step_worker].
    + exists s'. split; [|done]. eapply rtc_l; [|exact Hst]. apply step_worker.
Qed.

(** The queue of the executor.  In every reachable state the queue is within its
    limit; the tasks put into it are exactly those taken, those cleared by a stop and
    those still there, taken in the order they were put unless a stop cleared some;
    and a task is called at most as often as it was put. *)
Theorem executor_queue s :
  reachable s →
  (length (_tasks s) <= max_tasks)%nat ∧
  accepted s ≡ₚ taken s ++ dropped s ++ tasks_of (_tasks s) ∧
  (dropped s = [] → accepted s = taken s ++ tasks_of (_tasks s)) ∧
  ran s ⊆+ accepted s.
Proof.
  intros Hr. destruct (executor_inv s Hr) as ([H1 H2 H3 H4] & _). split_and!; try done.
  rewrite H2. etrans; [|apply submseteq_inserts_r, H4]. by apply submseteq_inserts_r.
Qed.

(** C30: The size of the pool.  In every reachable state at most [workers_count] workers are
    not discarded, and with a limit on the workers there are no more than the limit
    (or the initial number, if that is larger); no worker is discarded twice: a
    check fails its assertion only when the scheduler refuses a call. *)
Theorem executor_bounds s :
  reachable s →
  (_active_workers s <= workers_count)%nat ∧
  (∀ m, max_workers = Some m → (_total_workers s <= Nat.max workers_count m)%nat) ∧
  (∀ c i n, checks s !! c = Some (i, n) → snd (_check_task true i n (cancel (Some c) s)) ≠ Raise AssertionError).
Proof.
  intros Hr. destruct (executor_inv s Hr) as (_ & HW & [H1 H2 _] & _). split_and!; [done|done|].
  intros c i n Hc E. by apply (proj2 (check_task_inv s true c i n HW Hc)) in E.
Qed.

(** Discarded workers are replaced.  In every reachable state of a running executor in
    which every discarded worker was reported, the full number of workers serves the
    queue, or the limit on the workers is reached. *)
Theorem pool_replenished s :
  reachable s → _running s = true → discarding s = [] →
  _active_workers s = workers_count ∨ ∃ m, max_workers = Some m ∧ (m <= _total_workers s)%nat.
Proof.
  intros Hr Hrun Hd. destruct (executor_inv s Hr) as (_ & _ & [H1 _ H3] & _). destruct (H3 Hrun) as [Hp|(m & Hm & Hp)].
  - left. rewrite Hd in Hp. cbn in Hp. unfold _active_workers. fold (count active (_workers s)). lia.
  - right. exists m. split; [done|]. unfold _total_workers. fold (count member (_workers s)). lia.
Qed.

(** C31: Stopping lets every worker go.  After a stop that put all its markers, every worker
    whose thread has not ended can make a step, which brings the end nearer whatever
    the scheduler answers and however its task ends; so all threads end, and a
    caller that joins them is not blocked. *)
Theorem stop_completes s :
  reachable s → stopped s = true → stopping s = 0%nat →
  (∀ accept escapes i w, _workers s !! i = Some w → _thread w ≠ Gone →
     (measure (worker_step workers_count max_workers accept escapes i s) < measure s)%nat) ∧
  ∃ s', rtc step s s' ∧ Forall (fun w => _thread w = Gone) (_workers s').
Proof.
  intros Hr Hs H0. destruct (executor_inv s Hr) as (_ & HW & _ & HS). split; [|by eapply stopped_ends].
  intros accept escapes i w Hi Hg. by apply (stopped_progress s accept escapes i w).
Qed.
End Spec.

(** ** Runs *)

Module Sample.
(** Two workers, of at most three, and a queue of two. *)
Definition slow : Task := mkTask 7 (Some 5) true.
Definition s1 : state := fst (start 2 init).
Definition s2 : state := dispatch_put 2 0 (fst (dispatch slow s1)).
(** The first worker takes the task and is in it. *)
Definition w (i : nat) : state → state := worker_step 2 (Some 3%nat) true false i.
Definition s3 : state := w 0 (w 0 (w 0 s2)).
(** The check finds it blocked; a third worker is added. *)
Definition s4 : state := check_step true 0 s3.
Definition s5 : state := discarded_step 2 (Some 3%nat) 0 s4.
(** The executor is stopped. *)
Definition s6 : state := stop_put 2 (stop_put 2 (stop 2 s5)).

Lemma to_s3 : reachable 2 (Some 3%nat) 2 s3.
Proof.
  eapply rtc_l; [by apply (step_start _ _ _ _ s1)|].
  eapply rtc_l; [by apply (step_dispatch _ _ _ _ (fst (dispatch slow s1)) slow)|].
  eapply rtc_l; [apply (step_dispatch_put _ _ _ _ 0)|]. unfold s3, w.
  do 3 (eapply rtc_l; [apply (step_worker _ _ _ _ true false 0)|]). apply rtc_refl.
Qed.

Lemma reach_s5 : reachable 2 (Some 3%nat) 2 s5.
Proof.
  unfold reachable. etrans; [exact to_s3|]. eapply rtc_l; [apply (step_check _ _ _ _ true 0)|]. eapply rtc_l; [apply (step_discarded _ _ _ _ 0)|]. apply rtc_refl.
Qed.

Lemma to_s6 : reachable 2 (Some 3%nat) 2 s6.
Proof.
  unfold reachable. etrans; [exact reach_s5|]. eapply rtc_l; [by apply step_stop|]. do 2 (eapply rtc_l; [apply step_stop_put|]). apply rtc_refl.
Qed.
End Sample.

Lemma executor_queue_witness : ran Sample.s5 = [Sample.slow] ∧ ran Sample.s5 ⊆+ accepted Sample.s5.
Proof. split; [vm_compute; reflexivity|]. apply (executor_queue 2 (Some 3%nat) 2 Sample.s5 Sample.reach_s5). Defined.

Lemma executor_bounds_witness : _total_workers Sample.s5 = 3%nat ∧ (_active_workers Sample.s5 <= 2)%nat.
Proof. split; [vm_compute; reflexivity|]. exact (proj1 (executor_bounds 2 (Some 3%nat) 2 Sample.s5 Sample.reach_s5)). Defined.

Lemma pool_replenished_witness : _active_workers Sample.s5 = 2%nat ∨ ∃ m, Some 3%nat = Some m ∧ (m <= _total_workers Sample.s5)%nat.
Proof. apply (pool_replenished 2 (Some 3%nat) 2 Sample.s5 Sample.reach_s5); vm_compute; reflexivity. Defined.

Lemma stop_completes_witness :
  ∃ s', rtc (step 2 (Some 3%nat) 2) Sample.s6 s' ∧ Forall (fun w => _thread w = Gone) (_workers s').
Proof. apply (stop_completes 2 (Some 3%nat) 2 Sample.s6 Sample.to_s6); vm_compute; reflexivity. Defined.

(** ** Corners *)

(** A check that runs just before the task is noted, or just after it ended, finds no task:
    it raises, and the worker is not discarded. *)
Lemma check_without_task :
  let before := Sample.w 0 (Sample.w 0 Sample.s2) in
  let after := Sample.w 0 Sample.s3 in
  snd (_check_task true 0 0 (cancel (Some 0%nat) before)) = Raise AttributeError ∧
  snd (_check_task true 0 0 (cancel (Some 0%nat) after)) = Raise AttributeError ∧
  discarding (check_step true 0 after) = [] ∧ (_discarded <$> _workers (check_step true 0 after)) = [false; false].
Proof. vm_compute. repeat split. Qed.

(** With a queue shorter than the number of workers, [stop] fails in the middle. *)
Lemma stop_exhausted :
  let s := stop_put 1 (stop_put 1 (stop 2 (fst (start 2 init)))) in
  stopped s = false ∧ _tasks s = [STOP] ∧ snd (put 1 STOP (stop_put 1 (stop 2 (fst (start 2 init))))) = Raise ResourceExhausted.
Proof. vm_compute. repeat split. Qed.
