(* ===== verification/ThreadPool.v ===== *)
(** * The thread pool of the storage tasks: [vdsm/storage/threadPool.py]

    A fixed number of threads take tasks from a bounded queue.  The steps of the system are
    those of the pool's threads and of callers that queue tasks or join the pool;
    operations of the queue are atomic, and what a thread does between them is split
    where another thread may see the difference. *)
From Stdlib Require Import ZArith Lia.
From stdpp Require Import base list relations.
From S2P Require Import Prelude.

(** ** Data *)

(** A queued task: [(id, task, args)]; an id that is [None] marks an empty result.  What
    [cmd] does is not seen here, its identity is enough. *)
Record entry := mkEntry { e_id : option text; e_cmd : nat }.

(** Where a thread is in [run] and [_processNextTask] *)
Inductive position :=
| Loop                 (* before the test of [__isDying] *)
| Getting              (* in [getNextTask] *)
| Have (e : entry)     (* a task was taken *)
| Starting (e : entry) (* before [_task_started] *)
| Running (e : entry)  (* in [cmd(args)], until [_task_finished] *)
| Ended
| Crashed.             (* an exception left [run] *)

Record WorkerThread := mkThread { __isDying : bool; __at : position }.

Record ThreadPool := mkPool {
  __tasks : list entry;
  __isJoining : bool;
  __runningTasks : Z;
  __threads : list WorkerThread;
  queueing : list entry;     (* [queueTask] calls past their tests *)
  queued : list entry;       (* entries put into the queue *)
  called : list entry;       (* entries whose [cmd] was called *)
  skipped : list entry;      (* entries without an id, which are not run *)
  lost : list entry;         (* entries taken by a thread that crashed *)
}.

Definition set_thread (i : nat) (t : WorkerThread) (s : ThreadPool) : ThreadPool :=
  mkPool (__tasks s) (__isJoining s) (__runningTasks s) (<[i := t]> (__threads s)) (queueing s) (queued s) (called s) (skipped s) (lost s).
Definition set_joining (s : ThreadPool) : ThreadPool :=
  mkPool (__tasks s) true (__runningTasks s) (__threads s) (queueing s) (queued s) (called s) (skipped s) (lost s).
Definition set_running (n : Z) (s : ThreadPool) : ThreadPool :=
  mkPool (__tasks s) (__isJoining s) n (__threads s) (queueing s) (queued s) (called s) (skipped s) (lost s).
Definition set_threads (l : list WorkerThread) (s : ThreadPool) : ThreadPool :=
  mkPool (__tasks s) (__isJoining s) (__runningTasks s) l (queueing s) (queued s) (called s) (skipped s) (lost s).
Definition set_tasks (q : list entry) (s : ThreadPool) : ThreadPool :=
  mkPool q (__isJoining s) (__runningTasks s) (__threads s) (queueing s) (queued s) (called s) (skipped s) (lost s).
Definition set_queueing (q : list entry) (s : ThreadPool) : ThreadPool :=
  mkPool (__tasks s) (__isJoining s) (__runningTasks s) (__threads s) q (queued s) (called s) (skipped s) (lost s).
(** What happened to entries *)
Definition log (a c k x : list entry) (s : ThreadPool) : ThreadPool :=
  mkPool (__tasks s) (__isJoining s) (__runningTasks s) (__threads s) (queueing s) (queued s ++ a) (called s ++ c) (skipped s ++ k) (lost s ++ x).

(** ** Operations *)

Section Pool.
  (** [maxTasks]; a queue without a limit is one with a limit that is not reached. *)
  Context (numThreads maxTasks : nat).

(** [ThreadPool.__init__] *)
Definition ThreadPool_init : ThreadPool :=
  mkPool [] false 0 (replicate numThreads (mkThread false Loop)) [] [] [] [] [].

(** The tests of [queueTask]; [callable] is whether the task is. *)
Definition queueTask_test (e : entry) (callable : bool) (s : ThreadPool) : ThreadPool * bool :=
  if __isJoining s then (s, false)
  else if negb callable then (s, false)
  else (set_queueing (queueing s ++ [e]) s, true).

(** [Queue.put]: [None] when the queue is full and the caller waits. *)
Definition queue_put (e : entry) (s : ThreadPool) : option ThreadPool :=
  if (length (__tasks s) <? maxTasks)%nat then Some (log [e] [] [] [] (set_tasks (__tasks s ++ [e]) s)) else None.

Definition queueTask_put (k : nat) (s : ThreadPool) : ThreadPool :=
  match queueing s !! k with
  | None => s
  | Some e => match queue_put e (set_queueing (delete k (queueing s)) s) with Some s' => s' | None => s end
  end.

(** [getNextTask]: the first entry, or the empty result after the wait *)
Definition getNextTask (s : ThreadPool) : ThreadPool * option entry :=
  match __tasks s with
  | [] => (s, None)
  | e :: q => (set_tasks q s, Some e)
  end.

Definition _task_started (s : ThreadPool) : ThreadPool := set_running (__runningTasks s + 1) s.
Definition _task_finished (s : ThreadPool) : ThreadPool := set_running (__runningTasks s - 1) s.

(** One step of a thread.  [timed_out] is whether the wait for a task ended before one
    came.  A task that is to be returned to the queue is looked for under
    [self.__pool.__tasks], which the class's name turns into an attribute that the
    pool does not have: the exception ends the thread. *)
Definition thread_step (timed_out : bool) (i : nat) (s : ThreadPool) : ThreadPool :=
  match __threads s !! i with
  | None => s
  | Some t =>
      let go p := set_thread i (mkThread (__isDying t) p) in
      match __at t with
      | Loop => go (if __isDying t then Ended else Getting) s
      | Getting =>
          match getNextTask s with
          | (s', Some e) => go (Have e) s'
          | (_, None) => if timed_out then go Loop s else s
          end
      | Have e =>
          match e_id e with
          | None => log [] [] [e] [] (go Loop s)
          | Some _ => if __isDying t then log [] [] [] [e] (go Crashed s) else go (Starting e) s
          end
      | Starting e => log [] [e] [] [] (go (Running e) (_task_started s))
      | Running e => go Loop (_task_finished s)
      | Ended | Crashed => s
      end
  end.

(** [WorkerThread.goAway] *)
Definition goAway (t : WorkerThread) : WorkerThread := mkThread true (__at t).

(** [joinAll] up to the joins: the pool stops taking tasks; only with [waitForThreads] are
    the threads told to go away. *)
Definition joinAll (waitForThreads : bool) (s : ThreadPool) : ThreadPool :=
  let s' := set_joining s in
  if waitForThreads then set_threads (goAway <$> __threads s') s' else s'.

(** The joins: [joinAll] returns when all threads have ended. *)
Definition joined (s : ThreadPool) : bool :=
  forallb (fun t => match __at t with Ended | Crashed => true | _ => false end) (__threads s).

Inductive step : ThreadPool → ThreadPool → Prop :=
| step_queue s e callable : step s (fst (queueTask_test e callable s))
| step_put s k : step s (queueTask_put k s)
| step_thread s timed_out i : step s (thread_step timed_out i s)
| step_join s wait : step s (joinAll wait s).

Definition reachable (s : ThreadPool) : Prop := rtc step ThreadPool_init s.

(** ** Every entry is accounted for *)

Definition in_hand (t : WorkerThread) : option entry := match __at t with Have e | Starting e => Some e | _ => None end.
Definition hands (l : list WorkerThread) : list entry := omap in_hand l.

Definition is_running (t : WorkerThread) : bool := match __at t with Running _ => true | _ => false end.
Definition runners (l : list WorkerThread) : Z := Z.of_nat (length (filter is_running l)).

Record inv (s : ThreadPool) : Prop := {
  t_len : (length (__tasks s) <= maxTasks)%nat;
  t_entries : queued s ≡ₚ called s ++ skipped s ++ lost s ++ hands (__threads s) ++ __tasks s;
  t_running : __runningTasks s = runners (__threads s);
  t_dying : ∀ i t, __threads s !! i = Some t → __isDying t = true → __isJoining s = true;
  t_lost : lost s ≠ [] → __isJoining s = true;
  t_skipped : Forall (fun e => e_id e = None) (skipped s);
  t_ids : Forall (fun e => e_id e ≠ None) (called s ++ lost s);
  t_starting : ∀ i t e, __threads s !! i = Some t → __at t = Starting e → e_id e ≠ None;
}.

Lemma hands_insert l i t t' : l !! i = Some t →
  ∃ k, hands l ≡ₚ option_list (in_hand t) ++ k ∧ hands (<[i := t']> l) ≡ₚ option_list (in_hand t') ++ k.
Proof.
  intros Hi. assert (∀ a b, a ≡ₚ b → hands a ≡ₚ hands b) as Hperm by (intros a b E; unfold hands; by rewrite E).
  exists (hands (delete i l)). rewrite (Hperm _ _ (insert_delete_perm l i t t' Hi)), (Hperm _ _ (delete_Permutation l i t Hi)).
  unfold hands. cbn. by destruct (in_hand t), (in_hand t').
Qed.

Lemma runners_insert l i t t' : l !! i = Some t →
  runners (<[i := t']> l) = runners l - Z.b2z (is_running t) + Z.b2z (is_running t').
Proof.
  intros Hi. assert (∀ a b, a ≡ₚ b → runners a = runners b) as Hperm by (intros a b E; unfold runners; by rewrite E).
  rewrite (Hperm _ _ (insert_delete_perm l i t t' Hi)), (Hperm _ _ (delete_Permutation l i t Hi)).
  assert (∀ u k, runners (u :: k) = Z.b2z (is_running u) + runners k) as Hcons.
  { intros u k. unfold runners. rewrite filter_cons. destruct (is_running u); [|done].
    rewrite decide_True by done. cbn [length Z.b2z]. lia. }
  rewrite !Hcons. lia.
Qed.

(** A thread moves: what it held and what it holds, with the log of the step *)
Lemma entry_move s s1 i t p :
  inv s → __threads s !! i = Some t → __threads s1 = __threads s → __isJoining s1 = __isJoining s →
  (length (__tasks s1) <= maxTasks)%nat →
  (∀ k, hands (__threads s) ≡ₚ option_list (in_hand t) ++ k →
     queued s1 ≡ₚ called s1 ++ skipped s1 ++ lost s1 ++ (option_list (in_hand (mkThread (__isDying t) p)) ++ k) ++ __tasks s1) →
  __runningTasks s1 = runners (__threads s) - Z.b2z (is_running t) + Z.b2z (is_running (mkThread (__isDying t) p)) →
  (lost s1 ≠ [] → __isJoining s = true) → Forall (fun e => e_id e = None) (skipped s1) →
  Forall (fun e => e_id e ≠ None) (called s1 ++ lost s1) → (∀ e, p = Starting e → e_id e ≠ None) →
  inv (set_thread i (mkThread (__isDying t) p) s1).
Proof.
  intros H Hi Et Ej Hlen Hent Hrun Hl Hsk Hids Hst. destruct (hands_insert _ i t (mkThread (__isDying t) p) Hi) as (k & E1 & E2).
  split; cbn; rewrite ?Et, ?Ej; try done.
  - rewrite E2. by apply Hent.
  - by rewrite (runners_insert _ i t).
  - intros j u [(-> & <- & _)|[_ Hj]]%list_lookup_insert_Some; [exact (t_dying s H _ t Hi)|by apply (t_dying s H j u)].
  - intros j u e [(-> & <- & _)|[_ Hj]]%list_lookup_insert_Some Hu; [by apply Hst|by eapply (t_starting s H)].
Qed.

Lemma pool_thread_inv s timed_out i : inv s → inv (thread_step timed_out i s).
Proof.
  intros H. unfold thread_step. destruct (__threads s !! i) as [t|] eqn:Ei; [|done]. pose proof H as [H1 H2 H3 H4 H5 H6 H7 H8].
  assert (∀ k, hands (__threads s) ≡ₚ k → queued s ≡ₚ called s ++ skipped s ++ lost s ++ k ++ __tasks s) as Hq by (intros k <-; exact H2).
  destruct (__at t) as [| |e|e|e| |] eqn:Et; try done.
  - apply (entry_move s); try done.
    + intros k Hk. unfold in_hand in Hk at 1. rewrite Et in Hk. cbn in Hk. rewrite (Hq _ Hk). by destruct (__isDying t).
    + rewrite H3. unfold is_running at 1. rewrite Et. destruct (__isDying t); cbn; lia.
    + intros e. by destruct (__isDying t).
  - unfold getNextTask. destruct (__tasks s) as [|e q] eqn:Eq; [destruct timed_out; [|done]|].
    + apply (entry_move s); try done.
      * by rewrite Eq.
      * intros k Hk. unfold in_hand in Hk at 1. rewrite Et in Hk. cbn in *. by rewrite (Hq _ Hk), Eq.
      * rewrite H3. unfold is_running at 1. rewrite Et. cbn. lia.
    + apply (entry_move s); try done.
      * cbn in *. lia.
      * intros k Hk. unfold in_hand in Hk at 1. rewrite Et in Hk. cbn in *. rewrite (Hq _ Hk). by rewrite <- !Permutation_middle.
      * cbn. rewrite H3. unfold is_running at 1. rewrite Et. cbn. lia.
  - destruct (e_id e) as [id|] eqn:Eid; [destruct (__isDying t) eqn:Ed|].
    + assert (inv (set_thread i (mkThread (__isDying t) Crashed) (log [] [] [] [e] s))) as Hg; [|by rewrite Ed in Hg].
      apply (entry_move s); try done; cbn; rewrite ?app_nil_r.
      * intros k Hk. unfold in_hand in Hk at 1. rewrite Et in Hk. cbn in *. rewrite (Hq _ Hk). by rewrite <- !app_assoc.
      * rewrite H3. unfold is_running at 1. rewrite Et. cbn. lia.
      * intros _. by apply (H4 i t).
      * done.
      * rewrite app_assoc. apply Forall_app. split; [done|]. constructor; [congruence|done].
    + assert (inv (set_thread i (mkThread (__isDying t) (Starting e)) s)) as Hg; [|by rewrite Ed in Hg].
      apply (entry_move s); try done; cbn.
      * intros k Hk. unfold in_hand in Hk at 1. rewrite Et in Hk. cbn in *. by rewrite (Hq _ Hk).
      * rewrite H3. unfold is_running at 1. rewrite Et. cbn. lia.
      * intros e' [= <-]. congruence.
    + assert (inv (set_thread i (mkThread (__isDying t) Loop) (log [] [] [e] [] s))) as Hg; [|done].
      apply (entry_move s); try done; cbn; rewrite ?app_nil_r; try done.
      * intros k Hk. unfold in_hand in Hk at 1. rewrite Et in Hk. cbn in *. rewrite (Hq _ Hk), <- !app_assoc. cbn.
        by rewrite <- !Permutation_middle.
      * rewrite H3. unfold is_running at 1. rewrite Et. cbn. lia.
      * apply Forall_app. split; [done|]. by constructor.
  - assert (inv (set_thread i (mkThread (__isDying t) (Running e)) (log [] [e] [] [] (_task_started s)))) as Hg; [|done].
    apply (entry_move s); try done; cbn; rewrite ?app_nil_r; try done.
    + intros k Hk. unfold in_hand in Hk at 1. rewrite Et in Hk. cbn in *. rewrite (Hq _ Hk), <- !app_assoc. cbn.
      by rewrite <- !Permutation_middle.
    + rewrite H3. unfold is_running at 1. rewrite Et. cbn. lia.
    + rewrite <- app_assoc. apply Forall_app in H7 as [? ?]. apply Forall_app. split; [done|]. apply Forall_app. split; [|done].
      constructor; [by eapply H8|done].
  - apply (entry_move s); try done; cbn.
    + intros k Hk. unfold in_hand in Hk at 1. rewrite Et in Hk. cbn in *. by rewrite (Hq _ Hk).
    + rewrite H3. unfold is_running at 1. rewrite Et. cbn. lia.
Qed.

Lemma pool_step_inv s s' : inv s → step s s' → inv s'.
Proof.
  intros H Hst. destruct Hst as [s e callable|s k|s timed_out i|s wait].
  - unfold queueTask_test. destruct (__isJoining s) eqn:Ej; [done|]. destruct callable; [|done]. destruct H. by split.
  - unfold queueTask_put, queue_put. destruct (queueing s !! k) as [e|]; [|done]. cbn [__tasks set_queueing].
    destruct (Nat.ltb_spec (length (__tasks s)) maxTasks); [|done]. destruct H as [H1 H2 H3 H4 H5 H6 H7 H8].
    split; cbn; rewrite ?app_nil_r; try done.
    + rewrite length_app. cbn. lia.
    + rewrite H2. by rewrite <- !app_assoc.
  - by apply pool_thread_inv.
  - destruct H as [H1 H2 H3 H4 H5 H6 H7 H8]. destruct wait; [|by split].
    assert (hands (goAway <$> __threads s) = hands (__threads s)) as E.
    { clear. unfold hands. induction (__threads s) as [|t l IH]; [done|]. cbn. change (in_hand (goAway t)) with (in_hand t).
      destruct (in_hand t); [f_equal|]; exact IH. }
    assert (runners (goAway <$> __threads s) = runners (__threads s)) as Er.
    { clear. unfold runners. f_equal. induction (__threads s) as [|t l IH]; [done|]. cbn [fmap list_fmap]. rewrite !filter_cons.
      change (is_running (goAway t)) with (is_running t). destruct (decide (is_running t)); [|exact IH]. cbn [length]. f_equal. exact IH. }
    split; cbn [joinAll set_threads set_joining __tasks __isJoining __runningTasks __threads queued called skipped lost]; rewrite ?E, ?Er; try done.
    intros i t e Hi Hp. apply list_lookup_fmap_Some in Hi as (u & -> & Hu). by eapply (H8 i u).
Qed.

Lemma pool_inv_init : inv ThreadPool_init.
Proof.
  assert (hands (replicate numThreads (mkThread false Loop)) = [] ∧ runners (replicate numThreads (mkThread false Loop)) = 0) as [E1 E2].
  { unfold hands, runners. induction numThreads as [|n [IH1 IH2]]; [done|]. cbn [replicate]. rewrite filter_cons. cbn. split; [exact IH1|]. exact IH2. }
  split; cbn [ThreadPool_init __tasks __isJoining __runningTasks __threads queued called skipped lost]; rewrite ?E1, ?E2; cbn; try done; try lia.
  - by intros i t [-> _]%lookup_replicate.
  - by intros i t e [-> _]%lookup_replicate.
Qed.

Lemma pool_reachable_inv s : reachable s → inv s.
Proof.
  intros H. assert (∀ a b, rtc step a b → inv a → inv b) as Hrtc.
  { induction 1 as [|a b c H1 H2 IH]; [done|]. intros Ha. apply IH. by eapply pool_step_inv. }
  eapply Hrtc; [exact H|apply pool_inv_init].
Qed.

(** Every task is accounted for.  In every reachable state the queue is within its
    limit, the count of running tasks is the number of threads in a task, and every
    task put into the queue was called once, or is in the hand of a thread or in
    the queue, or was left out for having no id, or was lost by a thread that was
    told to go away; no task is lost before the pool is joined. *)
Theorem pool_accounts s :
  reachable s →
  (length (__tasks s) <= maxTasks)%nat ∧
  __runningTasks s = runners (__threads s) ∧
  queued s ≡ₚ called s ++ skipped s ++ lost s ++ hands (__threads s) ++ __tasks s ∧
  Forall (fun e => e_id e = None) (skipped s) ∧ Forall (fun e => e_id e ≠ None) (called s ++ lost s) ∧
  (__isJoining s = false → lost s = []).
Proof.
  intros Hr. destruct (pool_reachable_inv s Hr) as [H1 H2 H3 H4 H5 H6 H7 H8]. split_and!; try done.
  intros Hj. destruct (lost s) as [|e l] eqn:El; [done|]. specialize (H5 ltac:(done)). congruence.
Qed.

(** *** Joining *)

(** What a thread that is told to go away still does *)
Definition rank (p : position) : nat :=
  match p with Getting => 5 | Have _ => 4 | Starting _ => 3 | Running _ => 2 | Loop => 1 | Ended | Crashed => 0 end.
Definition ranks (l : list WorkerThread) : nat := sum_list (rank ∘ __at <$> l).

Arguments ranks : simpl never.

Lemma pool_ranks l i t t' : l !! i = Some t → (ranks (<[i := t']> l) + rank (__at t) = ranks l + rank (__at t'))%nat.
Proof.
  assert (∀ v k, ranks (v :: k) = rank (__at v) + ranks k)%nat as Hcons by done.
  revert i. induction l as [|v l IH]; intros [|i] Hi; simplify_eq/=; rewrite !Hcons; [lia|]. specialize (IH i Hi). lia.
Qed.

(** A thread that is told to go away makes progress until it ends; waiting for a task ends
    with the timeout. *)
Lemma dying_progress s i t :
  __threads s !! i = Some t → __isDying t = true → (0 < rank (__at t))%nat →
  (ranks (__threads (thread_step true i s)) < ranks (__threads s))%nat.
Proof.
  intros Hi Hd Hr. unfold thread_step. rewrite Hi, Hd.
  assert (∀ p s1, __threads s1 = __threads s → (rank p < rank (__at t))%nat → (ranks (__threads (set_thread i (mkThread true p) s1)) < ranks (__threads s))%nat) as Hp.
  { intros p s1 E Hlt. cbn. rewrite E. pose proof (pool_ranks _ i t (mkThread true p) Hi) as Hs. cbn in Hs. lia. }
  destruct (__at t) as [| |e|e|e| |] eqn:Et; cbn in Hr; try lia.
  - by apply Hp.
  - unfold getNextTask. destruct (__tasks s); (apply Hp; [done|cbn; lia]).
  - destruct (e_id e); apply Hp; try done; cbn; lia.
  - apply Hp; [done|cbn; lia].
  - apply Hp; [done|cbn; lia].
Qed.

Definition all_dying (s : ThreadPool) : Prop := Forall (fun t => __isDying t = true) (__threads s).

Lemma thread_step_dying timed_out i s : all_dying s → all_dying (thread_step timed_out i s).
Proof.
  intros H. unfold thread_step. destruct (__threads s !! i) as [t|] eqn:Ei; [|done].
  assert (__isDying t = true) as Hd by (exact (Forall_lookup_1 _ _ _ _ H Ei)).
  assert (∀ p s1, __threads s1 = __threads s → all_dying (set_thread i (mkThread (__isDying t) p) s1)) as Hp
    by (intros p s1 E; unfold all_dying; cbn; rewrite E; by apply Forall_insert).
  destruct (__at t) as [| |e|e|e| |]; try done; try by apply Hp.
  - unfold getNextTask. destruct (__tasks s); [destruct timed_out; [by apply Hp|done]|by apply Hp].
  - destruct (e_id e); [|exact (Hp Loop s eq_refl)]. pose proof (Hp Crashed s eq_refl) as Hc.
    rewrite Hd in *. exact Hc.
Qed.

Lemma dying_ends n s : (ranks (__threads s) <= n)%nat → all_dying s → ∃ s', rtc step s s' ∧ joined s' = true.
Proof.
  revert s. induction n as [n IH] using lt_wf_ind. intros s Hn Hd. destruct (joined s) eqn:Ej; [by exists s|].
  assert (∃ i t, __threads s !! i = Some t ∧ (0 < rank (__at t))%nat) as (i & t & Hi & Hr).
  { unfold joined in Ej. clear -Ej. induction (__threads s) as [|t l IH]; [done|]. cbn in Ej.
    destruct (__at t) eqn:Et; try (exists 0%nat, t; split; [done|rewrite Et; cbn; lia]);
      destruct (IH Ej) as (i & u & Hi & Hr); by exists (S i), u. }
  assert (__isDying t = true) as Hdt by (unfold all_dying in Hd; rewrite Forall_lookup in Hd; by eapply Hd).
  pose proof (dying_progress s i t Hi Hdt Hr) as Hlt.
  destruct (IH (ranks (__threads (thread_step true i s))) ltac:(lia) (thread_step true i s) ltac:(lia) (thread_step_dying true i s Hd)) as (s' & Hst & Hj).
  exists s'. split; [|done]. eapply rtc_l; [apply step_thread|exact Hst].
Qed.

(** Joining the pool with its threads.  Once all threads were told to go away, each
    that has not ended makes progress with every step that does not wait, so that all
    of them end and [joinAll] returns. *)
Theorem join_completes s :
  all_dying (joinAll true s) ∧
  (∀ i t, __threads (joinAll true s) !! i = Some t → (0 < rank (__at t))%nat →
     (ranks (__threads (thread_step true i (joinAll true s))) < ranks (__threads (joinAll true s)))%nat) ∧
  ∃ s', rtc step (joinAll true s) s' ∧ joined s' = true.
Proof.
  assert (all_dying (joinAll true s)) as Hd by (unfold all_dying; cbn; by apply Forall_fmap, Forall_true). split_and!; [done| |].
  - intros i t Hi Hr. eapply dying_progress; [exact Hi| |exact Hr]. unfold all_dying in Hd. rewrite Forall_lookup in Hd. by eapply Hd.
  - by eapply dying_ends.
Qed.
End Pool.

(** ** Runs and corners *)

Module Sample.
Definition e1 : entry := mkEntry (Some [1]) 7.
Definition s1 : ThreadPool := queueTask_put 5 0 (fst (queueTask_test e1 true (ThreadPool_init 1))).
Definition s2 : ThreadPool := thread_step true 0 (thread_step true 0 s1).

Lemma to_s2 : reachable 1 5 s2.
Proof.
  eapply rtc_l; [apply (step_queue _ _ e1 true)|]. eapply rtc_l; [apply (step_put _ _ 0)|].
  do 2 (eapply rtc_l; [apply (step_thread _ _ true 0)|]). apply rtc_refl.
Qed.
End Sample.

Lemma pool_accounts_witness : hands (__threads Sample.s2) = [Sample.e1] ∧ lost Sample.s2 = [].
Proof.
  split; [vm_compute; reflexivity|].
  destruct (pool_accounts 1 5 Sample.s2 Sample.to_s2) as (_ & _ & _ & _ & _ & H). apply H. vm_compute. reflexivity.
Defined.

(** A thread that took a task when it is told to go away loses it. *)
Lemma task_lost : let s := thread_step true 0 (joinAll true Sample.s2) in lost s = [Sample.e1] ∧ __tasks s = [] ∧ __at <$> __threads s = [Crashed].
Proof. vm_compute. repeat split. Qed.

(** Joining without waiting neither clears the queue nor stops the threads. *)
Lemma join_without_wait :
  let s := joinAll false Sample.s1 in
  __tasks s = [Sample.e1] ∧ called (thread_step true 0 (thread_step true 0 (thread_step true 0 (thread_step true 0 s)))) = [Sample.e1].
Proof. vm_compute. repeat split. Qed.
