(* ===== verification/TaskManager.v ===== *)
(** * The task manager: [vdsm/storage/taskManager.py]

    The manager registers tasks by id and hands their methods to the thread pool of
    [ThreadPool]; after a restart it loads the tasks it finds in the store and queues
    their recovery.  Bodies are sequential; a call that waits for room in the pool's
    queue is the result [Waits].  What the methods of a task do is modelled in [Task]
    and its companions: here they are results the operations are given. *)
From Stdlib Require Import ZArith Lia.
From stdpp Require Import base gmap list strings.
From S2P Require Import Prelude ThreadPool.

Inductive exn :=
| AddTaskError | UnknownTask | InvalidParameterException
| Waits                    (* the call has not returned yet *)
| TaskError (code : Z).    (* raised by a method of a task *)

(** A task as the manager sees it; [method] tells its bound methods apart. *)
Record task := mkTask { task_id : text; tag : text; ref : nat }.

Definition commit (t : task) : nat := 2 * ref t.
Definition recover (t : task) : nat := 2 * ref t + 1.

Record TaskManager := mkManager {
  tp : ThreadPool;
  _tasks : gmap text task;
  _unqueuedTasks : list task;
}.

Definition set_tp (p : ThreadPool) (s : TaskManager) : TaskManager := mkManager p (_tasks s) (_unqueuedTasks s).
Definition set_tasks (m : gmap text task) (s : TaskManager) : TaskManager := mkManager (tp s) m (_unqueuedTasks s).
Definition set_unqueued (l : list task) (s : TaskManager) : TaskManager := mkManager (tp s) (_tasks s) l.

(** [Task.validateID] *)
Definition validateID (taskID : text) : res exn unit :=
  if bool_decide (taskID = []) || bool_decide (46 ∈ taskID) then Raise InvalidParameterException else Ok ().

(** [tag in task.getTags()]: of two strings, whether one contains the other *)
Definition has_tag (tag' : option text) (t : task) : bool :=
  match tag' with
  | None | Some [] => true
  | Some s => bool_decide (is_Some (search s (tag t)))
  end.

Section Manager.
  Context (tpSize maxTasks : nat).

(** [TaskManager.__init__] *)
Definition TaskManager_init : TaskManager := mkManager (ThreadPool_init tpSize) ∅ [].

(** [ThreadPool.queueTask] as one call *)
Definition queueTask (id : text) (cmd : nat) : M ThreadPool exn bool := fun p =>
  match queueTask_test (mkEntry (Some id) cmd) true p with
  | (p', false) => (p', Ok false)
  | (_, true) => match queue_put maxTasks (mkEntry (Some id) cmd) p with Some p' => (p', Ok true) | None => (p, Raise Waits) end
  end.

Definition _queueTask (t : task) (method : nat) : M TaskManager exn text := fun s =>
  match _tasks s !! task_id t with
  | Some _ => (s, Raise AddTaskError)
  | None =>
      let s1 := set_tasks (<[task_id t := t]> (_tasks s)) s in
      match queueTask (task_id t) method (tp s1) with
      | (p, Ok true) => (set_tp p s1, Ok (task_id t))
      | (p, Ok false) => (set_tasks (delete (task_id t) (_tasks s1)) (set_tp p s1), Raise AddTaskError)
      | (p, Raise e) => (set_tp p s1, Raise e)
      end
  end.

Definition queue (t : task) : M TaskManager exn text := _queueTask t (commit t).
Definition queueRecovery (t : task) : M TaskManager exn text := _queueTask t (recover t).

Definition _getTask (taskID : text) : M TaskManager exn task := fun s =>
  match validateID taskID with
  | Raise e => (s, Raise e)
  | Ok _ => match _tasks s !! taskID with Some t => (s, Ok t) | None => (s, Raise UnknownTask) end
  end.

Definition prepareForShutdown (wait : bool) (s : TaskManager) : TaskManager := set_tp (joinAll wait (tp s)) s.

(** [getTaskStatus], [getTaskInfo]: what the task's method gives *)
Definition getTaskStatus {A} (method : task → res exn A) (taskID : text) : M TaskManager exn A :=
  t ← _getTask taskID; lift (method t).

(** The loop of [getAllTasksStatuses], [getAllTasks] and [getAllTasksInfo] over the items *)
Fixpoint collect {A} (tag' : option text) (method : task → res exn A) (items : list (text * task)) (subRes : gmap text A)
    : res exn (gmap text A) :=
  match items with
  | [] => Ok subRes
  | (taskID, t) :: items' =>
      if has_tag tag' t then
        match method t with
        | Ok v => collect tag' method items' (<[taskID := v]> subRes)
        | Raise UnknownTask => collect tag' method items' subRes
        | Raise e => Raise e
        end
      else collect tag' method items' subRes
  end.

Definition getAllTasksStatuses {A} (tag' : option text) (method : task → res exn A) (s : TaskManager) : res exn (gmap text A) :=
  collect tag' method (map_to_list (_tasks s)) ∅.

Definition getAllTasks {A} (method : task → res exn A) (s : TaskManager) : res exn (gmap text A) := getAllTasksStatuses None method s.

Definition unloadTasks (tag' : option text) (s : TaskManager) : TaskManager :=
  set_tasks (foldl (fun m '(taskID, t) => if has_tag tag' t then delete taskID m else m) (_tasks s) (map_to_list (_tasks s))) s.

(** [stopTask], [revertTask] *)
Definition stopTask (method : task → res exn unit) (taskID : text) : M TaskManager exn bool :=
  t ← _getTask taskID; _ ← lift (method t); mret true.

Definition revertTask (method : task → res exn unit) (taskID : text) : M TaskManager exn unit :=
  t ← _getTask taskID; lift (method t).

Definition clearTask (clean : task → res exn unit) (taskID : text) : M TaskManager exn unit :=
  t ← _getTask taskID; _ ← lift (clean t); modify (fun s => set_tasks (delete taskID (_tasks s)) s).

(** ** After a restart *)

(** [os.path.splitext(name)[0]]: up to the last dot, unless only dots come before it *)
Fixpoint rfind_dot (l : text) : option nat :=
  match l with
  | [] => None
  | c :: l' => match rfind_dot l' with
               | Some n => Some (S n)
               | None => if c =? 46 then Some 0%nat else None
               end
  end.

Definition splitext_root (name : text) : text :=
  match rfind_dot name with
  | None => name
  | Some n => if forallb (Z.eqb 46) (take n name) then name else take n name
  end.

(** [Task.loadTask] and [setPersistence] of an id: [None] when one of them raises. *)
Context (loaded : text → option task).

Fixpoint load_each (tasksIDs : list text) (unqueued : list task) : list task :=
  match tasksIDs with
  | [] => unqueued
  | taskID :: rest => match loaded taskID with
                      | Some t => load_each rest (unqueued ++ [t])
                      | None => load_each rest unqueued
                      end
  end.

(** [loadDumpedTasks] of the names found in the store ([None]: no such directory);
    [iterate] is the order in which a set is iterated over. *)
Definition loadDumpedTasks (iterate : list text → list text) (names : option (list text)) (s : TaskManager) : TaskManager :=
  match names with
  | None => s
  | Some names => set_unqueued (load_each (iterate (splitext_root <$> names)) (_unqueuedTasks s)) s
  end.

(** [l.remove(t)]: the first object that is the same *)
Fixpoint remove_task (t : task) (l : list task) : list task :=
  match l with
  | [] => []
  | u :: l' => if decide (ref u = ref t) then l' else u :: remove_task t l'
  end.

Definition recoverDumpedTasks : M TaskManager exn unit := fun s =>
  for_each (_unqueuedTasks s) (fun t =>
    _ ← queueRecovery t; modify (fun s => set_unqueued (remove_task t (_unqueuedTasks s)) s)) s.
End Manager.

(** ** Registering *)

(** Registering and queueing a task.  A task whose id is in use is refused; so is one
    when the pool is being joined; both leave the manager as it was.  Otherwise the
    task is registered and, when the queue has room, its method is put at the end of
    the pool's queue, once. *)
Theorem queue_outcomes maxTasks t method s :
  _queueTask maxTasks t method s =
    match _tasks s !! task_id t with
    | Some _ => (s, Raise AddTaskError)
    | None =>
        if __isJoining (tp s) then (s, Raise AddTaskError)
        else let s' := set_tasks (<[task_id t := t]> (_tasks s)) s in
             if (length (__tasks (tp s)) <? maxTasks)%nat
             then (set_tp (log [mkEntry (Some (task_id t)) method] [] [] [] (ThreadPool.set_tasks (__tasks (tp s) ++ [mkEntry (Some (task_id t)) method]) (tp s))) s', Ok (task_id t))
             else (s', Raise Waits)
    end.
Proof.
  unfold _queueTask, queueTask, queueTask_test, queue_put. destruct (_tasks s !! task_id t) eqn:E; [done|]. cbn [tp set_tasks].
  destruct (__isJoining (tp s)); cbn [negb].
  - unfold set_tasks, set_tp. cbn. rewrite delete_insert_id by done. by destruct s.
  - destruct (_ <? _)%nat; [done|]. by destruct s.
Qed.

(** ** Views *)

Lemma collect_spec {A} tag' (method : task → res exn A) items acc :
  NoDup items.*1 → (∀ taskID t, (taskID, t) ∈ items → acc !! taskID = None) →
  (∀ taskID t e, (taskID, t) ∈ items → has_tag tag' t = true → method t = Raise e → e = UnknownTask) →
  ∃ m, collect tag' method items acc = Ok m ∧
    ∀ taskID v, m !! taskID = Some v ↔ acc !! taskID = Some v ∨ ∃ t, (taskID, t) ∈ items ∧ has_tag tag' t = true ∧ method t = Ok v.
Proof.
  revert acc. induction items as [|[k t] items IH]; intros acc Hnd Hacc He; cbn [collect].
  { exists acc. split; [done|]. intros. split; [by left|]. intros [?|(? & []%elem_of_nil & _)]. done. }
  cbn in Hnd. apply NoDup_cons in Hnd as [Hk Hnd].
  assert (∀ u, (k, u) ∉ items) as Hno by (intros u Hu; apply Hk, list_elem_of_fmap; by exists (k, u)).
  assert (∀ taskID t0 e, (taskID, t0) ∈ items → has_tag tag' t0 = true → method t0 = Raise e → e = UnknownTask) as He'
    by (intros ? ? ? Hin; eapply He; by right).
  destruct (has_tag tag' t) eqn:Ht; [destruct (method t) as [v|e] eqn:Em|].
  - destruct (IH (<[k := v]> acc)) as (m & -> & Hm); [done| |done|].
    { intros k' t' Hin. rewrite lookup_insert_ne; [apply (Hacc k' t'); by right|]. intros <-. by apply (Hno t'). }
    exists m. split; [done|]. intros k' v'. rewrite Hm, lookup_insert_Some. specialize (Hacc k t ltac:(left)). split.
    + intros [[[<- <-]|[_ Ha]]|(u & Hu & ? & ?)]; [right; exists t; split_and!; [left|done..]|by left|right; exists u; split_and!; [by right|done..]].
    + intros [Ha|(u & [[= -> ->]|Hu]%elem_of_cons & Htu & Hmu)]; [left; right; split; congruence|left; left; split; congruence|right; eauto].
  - assert (e = UnknownTask) as -> by (eapply He; [left|done|done]).
    destruct (IH acc) as (m & -> & Hm); [done|intros k' t' Hin; apply (Hacc k' t'); by right|done|].
    exists m. split; [done|]. intros k' v'. rewrite Hm. split.
    + intros [Ha|(u & Hu & ? & ?)]; [by left|right; exists u; split_and!; [by right|done..]].
    + intros [Ha|(u & [[= -> ->]|Hu]%elem_of_cons & Htu & Hmu)]; [by left|congruence|right; eauto].
  - destruct (IH acc) as (m & -> & Hm); [done|intros k' t' Hin; apply (Hacc k' t'); by right|done|].
    exists m. split; [done|]. intros k' v'. rewrite Hm. split.
    + intros [Ha|(u & Hu & ? & ?)]; [by left|right; exists u; split_and!; [by right|done..]].
    + intros [Ha|(u & [[= -> ->]|Hu]%elem_of_cons & Htu & Hmu)]; [by left|congruence|right; eauto].
Qed.

Lemma unload_items (tag' : option text) (items : list (text * task)) (m : gmap text task) (taskID : text) (t : task) :
  foldl (fun m '(k, t) => if has_tag tag' t then delete k m else m) m items !! taskID = Some t ↔
  m !! taskID = Some t ∧ ∀ u, (taskID, u) ∈ items → has_tag tag' u = false.
Proof.
  revert m. induction items as [|[k v] items IH]; intros m; cbn [foldl].
  { split; [|by intros [? _]]. intros Hm. split; [done|]. by intros u ?%elem_of_nil. }
  rewrite IH. destruct (has_tag tag' v) eqn:Hv.
  - rewrite lookup_delete_Some. split.
    + intros [[Hne Hm] Hu]. split; [done|]. intros u [[= -> ->]|Hin]%elem_of_cons; [done|by apply Hu].
    + intros [Hm Hu]. split_and!; [|done|intros u Hin; apply Hu; by right]. intros <-. specialize (Hu v ltac:(left)). congruence.
  - split; intros [Hm Hu]; (split; [done|]); intros u Hin; [|apply Hu; by right].
    apply elem_of_cons in Hin as [[= -> ->]|Hin]; [done|by apply Hu].
Qed.

(** The views of the manager.  When the tasks that pass the filter answer, or are
    already gone, the table of answers has exactly the tasks that are registered, pass
    the filter and answered; and unloading by a tag leaves exactly the tasks that do
    not pass the filter. *)
Theorem manager_views {A} tag' (method : task → res exn A) s :
  (∀ taskID t e, _tasks s !! taskID = Some t → has_tag tag' t = true → method t = Raise e → e = UnknownTask) →
  (∃ m, getAllTasksStatuses tag' method s = Ok m ∧
     ∀ taskID v, m !! taskID = Some v ↔ ∃ t, _tasks s !! taskID = Some t ∧ has_tag tag' t = true ∧ method t = Ok v) ∧
  (∀ taskID t, _tasks (unloadTasks tag' s) !! taskID = Some t ↔ _tasks s !! taskID = Some t ∧ has_tag tag' t = false).
Proof.
  intros He. split.
  - destruct (collect_spec tag' method (map_to_list (_tasks s)) ∅) as (m & Em & Hm).
    + apply NoDup_fst_map_to_list.
    + intros. apply lookup_empty.
    + intros taskID t e Hin. apply He with taskID. by apply elem_of_map_to_list.
    + exists m. split; [done|]. intros taskID v. rewrite Hm, lookup_empty. split.
      * intros [?|(t & Ht & ?)]; [done|]. exists t. by rewrite elem_of_map_to_list in Ht.
      * intros (t & Ht & ?). right. exists t. by rewrite elem_of_map_to_list.
  - intros taskID t. cbn. rewrite unload_items. split; intros [Hm Hu]; (split; [done|]).
    + apply Hu. by apply elem_of_map_to_list.
    + intros u Hin. apply elem_of_map_to_list in Hin. congruence.
Qed.

(** ** Recovery *)

(** The names of the directories of a task have its id as their root. *)
Lemma rfind_dot_none l : 46 ∉ l → rfind_dot l = None.
Proof.
  induction l as [|c l IH]; intros H; [done|]. cbn. apply not_elem_of_cons in H as [Hc Hl]. rewrite IH by done.
  destruct (Z.eqb_spec c 46); [by subst|done].
Qed.

Lemma rfind_dot_ext l ext : 46 ∉ ext → rfind_dot (l ++ 46 :: ext) = Some (length l).
Proof.
  intros H. induction l as [|c l IH]; cbn; [by rewrite rfind_dot_none|]. by rewrite IH.
Qed.

Lemma root_of_dirs taskID ext : 46 ∉ taskID → 46 ∉ ext → taskID ≠ [] →
  splitext_root taskID = taskID ∧ splitext_root (taskID ++ 46 :: ext) = taskID.
Proof.
  intros Hid Hext Hne. unfold splitext_root. rewrite rfind_dot_none, rfind_dot_ext, take_app_length by done. split; [done|].
  destruct taskID as [|c l]; [done|]. cbn [forallb]. destruct (Z.eqb_spec 46 c); [|done]. subst. destruct Hid. left.
Qed.

Section Recovery.
  Context (maxTasks : nat) (loaded : text → option task).
  Context (iterate : list text → list text).
  (** Iterating over a set gives each element once. *)
  Context (iterate_set : ∀ l, NoDup (iterate l) ∧ ∀ x, x ∈ iterate l ↔ x ∈ l).
  (** A loaded task has the id it was loaded by. *)
  Context (loaded_id : ∀ taskID t, loaded taskID = Some t → task_id t = taskID).

Lemma load_each_omap ids acc : load_each loaded ids acc = acc ++ omap loaded ids.
Proof.
  revert acc. induction ids as [|k ids IH]; intros acc; cbn; [by rewrite app_nil_r|].
  destruct (loaded k); rewrite IH; [by rewrite <- app_assoc|done].
Qed.

Definition entry_of (t : task) : entry := mkEntry (Some (task_id t)) (recover t).

(** Queueing the recoveries one by one *)
Lemma recover_each l s :
  NoDup (task_id <$> l) → Forall (fun t => _tasks s !! task_id t = None) l →
  __isJoining (tp s) = false → (length (__tasks (tp s)) + length l <= maxTasks)%nat → _unqueuedTasks s = l →
  ∃ s', for_each l (fun t => _ ← queueRecovery maxTasks t; modify (fun s => set_unqueued (remove_task t (_unqueuedTasks s)) s)) s = (s', Ok ()) ∧
    _unqueuedTasks s' = [] ∧ __tasks (tp s') = __tasks (tp s) ++ (entry_of <$> l) ∧
    ∀ k t, _tasks s' !! k = Some t ↔ _tasks s !! k = Some t ∨ t ∈ l ∧ task_id t = k.
Proof.
  revert s. induction l as [|t l IH]; intros s Hnd Hnew Hj Hroom Hu.
  { exists s. rewrite app_nil_r. split_and!; try done. intros k u. split; [by left|]. by intros [?|[?%elem_of_nil _]]. }
  cbn in Hnd. apply NoDup_cons in Hnd as [Hid Hnd]. inversion Hnew as [|? ? Ht Hnew']; subst. cbn in Hroom.
  assert (queueRecovery maxTasks t s = (set_tp (log [entry_of t] [] [] [] (ThreadPool.set_tasks (__tasks (tp s) ++ [entry_of t]) (tp s)))
    (set_tasks (<[task_id t := t]> (_tasks s)) s), Ok (task_id t))) as Eq0.
  { unfold queueRecovery, _queueTask, queueTask, queueTask_test, queue_put. rewrite Ht. cbn [tp set_tasks]. rewrite Hj. cbn [negb].
    by rewrite (proj2 (Nat.ltb_lt _ _)) by lia. }
  cbn [for_each]. unfold mbind, M_bind. rewrite Eq0. unfold modify at 1.
  match goal with |- context [for_each l _ ?x] => set (s1 := x) end.
  destruct (IH s1) as (s' & Es & Eu & Eq & Em); try done.
  - apply Forall_forall. intros u Hin. cbn. rewrite lookup_insert_ne; [by eapply Forall_forall in Hnew'|].
    intros E. apply Hid. rewrite E. by apply list_elem_of_fmap_2.
  - cbn. rewrite length_app. cbn. lia.
  - cbn. rewrite Hu. cbn [remove_task]. by rewrite decide_True.
  - exists s'. split_and!; [exact Es|done|rewrite Eq; cbn; by rewrite <- app_assoc|].
    intros k u. rewrite Em. cbn. rewrite lookup_insert_Some, elem_of_cons. split.
    + intros [[[<- <-]|[Hne Hk]]|[Hin Hk]]; [right; split; [by left|done]|by left|right; split; [by right|done]].
    + intros [Hk|[[->|Hin] Hk]]; [|by left; left|by right]. left. destruct (decide (task_id t = k)) as [<-|]; [congruence|by right].
Qed.

(** C33: Recovery after a restart.  A manager that starts, with room in the queue of its
    pool, loads every task that the names in the store stand for and that can be
    loaded, once, however many directories it has; then it registers them all, each
    under its id, and queues the recovery of each once, leaving none behind. *)
Theorem recover_after_restart names s :
  _tasks s = ∅ → _unqueuedTasks s = [] → __isJoining (tp s) = false →
  (length (__tasks (tp s)) + length names <= maxTasks)%nat →
  ∃ s' l, recoverDumpedTasks maxTasks (loadDumpedTasks loaded iterate (Some names) s) = (s', Ok ()) ∧
    _unqueuedTasks s' = [] ∧
    (∀ k, _tasks s' !! k = if decide (k ∈ splitext_root <$> names) then loaded k else None) ∧
    __tasks (tp s') = __tasks (tp s) ++ (entry_of <$> l) ∧ NoDup (task_id <$> l) ∧
    (∀ t, t ∈ l ↔ ∃ k, k ∈ splitext_root <$> names ∧ loaded k = Some t).
Proof.
  intros E0 Eu Hj Hroom. set (ids := iterate (splitext_root <$> names)). destruct (iterate_set (splitext_root <$> names)) as [Hnd Hmem].
  fold ids in Hnd, Hmem. set (l := omap loaded ids).
  assert (∀ t, t ∈ l ↔ ∃ k, k ∈ splitext_root <$> names ∧ loaded k = Some t) as Hl.
  { intros t. unfold l. rewrite list_elem_of_omap. split; intros (k & Hk & E); exists k; split; try done; by apply Hmem. }
  assert (NoDup (task_id <$> l)) as Hndl.
  { unfold l. clear Hl Hmem. induction ids as [|k ids IH]; [constructor|]. apply NoDup_cons in Hnd as [Hk Hnd]. cbn.
    destruct (loaded k) as [t|] eqn:Ek; [|by apply IH]. cbn. apply NoDup_cons. split; [|by apply IH].
    intros (u & E & Hu)%list_elem_of_fmap. apply list_elem_of_omap in Hu as (k' & Hk' & Eu').
    apply loaded_id in Ek, Eu'. assert (k' = k) as -> by congruence. done. }
  assert (length l <= length names)%nat as Hlen.
  { rewrite <- (length_fmap task_id l), <- (length_fmap splitext_root names). apply submseteq_length, NoDup_submseteq; [done|].
    intros k (t & -> & Ht)%list_elem_of_fmap. apply Hl in Ht as (k & Hk & E). by rewrite (loaded_id _ _ E). }
  unfold recoverDumpedTasks, loadDumpedTasks. rewrite load_each_omap, Eu. cbn [app]. fold ids l.
  destruct (recover_each l (set_unqueued l s)) as (s' & Es & Eu' & Eq & Em); try done.
  { apply Forall_forall. intros t _. cbn. rewrite E0. apply lookup_empty. } { cbn. lia. }
  exists s', l. split_and!; try done. intros k. apply option_eq. intros t. rewrite Em. cbn. rewrite E0, lookup_empty, Hl. case_decide as Hk.
  - split; [intros [?|[(k' & Hk' & E) Hid]]; [done|]; by rewrite <- Hid, (loaded_id _ _ E)|].
    intros E. right. split; [by exists k|by apply loaded_id].
  - split; [|done]. intros [?|[(k' & Hk' & E) Hid]]; [done|]. apply loaded_id in E. congruence.
Qed.
End Recovery.

(** ** Runs and corners *)

Module Sample.
Definition t1 : task := mkTask (str "a") (str "spm") 1.
(** A store in which only one task can be loaded *)
Definition loaded (k : text) : option task := if bool_decide (k = str "a") then Some t1 else None.
Definition names : list text := [str "a.temp"; str "a.backup"; str "b"].
Definition s0 : TaskManager := TaskManager_init 1.
Definition s1 : TaskManager := fst (queue 4 t1 s0).

Lemma remove_dups_set (l : list text) : NoDup (remove_dups l) ∧ ∀ x, x ∈ remove_dups l ↔ x ∈ l.
Proof. split; [apply NoDup_remove_dups|]. intros x. apply elem_of_remove_dups. Qed.

Lemma loaded_by_id k t : loaded k = Some t → task_id t = k.
Proof. unfold loaded. case_bool_decide; [|done]. by intros [= <-]. Qed.
End Sample.

Lemma recover_after_restart_witness :
  ∃ s' l, recoverDumpedTasks 4 (loadDumpedTasks Sample.loaded remove_dups (Some Sample.names) Sample.s0) = (s', Ok ()) ∧
    _tasks s' !! str "a" = Some Sample.t1 ∧ __tasks (tp s') = entry_of <$> l ∧ Sample.t1 ∈ l.
Proof.
  destruct (recover_after_restart 4 Sample.loaded remove_dups Sample.remove_dups_set Sample.loaded_by_id Sample.names Sample.s0
    eq_refl eq_refl eq_refl ltac:(vm_compute; lia)) as (s' & l & E & _ & Ht & Eq & _ & Hl).
  exists s', l. split; [exact E|]. rewrite Ht. split; [vm_compute; reflexivity|]. split; [exact Eq|].
  apply Hl. exists (str "a"). split; [vm_compute; left|vm_compute; reflexivity].
Defined.

Lemma manager_views_witness :
  ∃ m, getAllTasksStatuses (Some (str "spm")) (fun t => Ok (ref t)) Sample.s1 = Ok m ∧ m !! str "a" = Some 1%nat.
Proof.
  destruct (manager_views (Some (str "spm")) (fun t => Ok (ref t)) Sample.s1 ltac:(done)) as [(m & E & Hm) _].
  exists m. split; [exact E|]. apply Hm. exists Sample.t1. split; [vm_compute; reflexivity|]. split; vm_compute; reflexivity.
Defined.

(** The tag is looked for inside the task's tag: a tag that is a part of another one
    selects its tasks too. *)
Lemma tag_substring : has_tag (Some (str "s")) Sample.t1 = true ∧ _tasks (unloadTasks (Some (str "s")) Sample.s1) = ∅.
Proof. split; vm_compute; reflexivity. Qed.

(** A task is left registered when the pool was full: the call that queues it waits, and
    the task is seen by the others meanwhile. *)
Lemma registered_while_waiting :
  let '(s, r) := queue 0 Sample.t1 Sample.s0 in r = Raise Waits ∧ _tasks s !! str "a" = Some Sample.t1 ∧ __tasks (tp s) = [].
Proof. vm_compute. repeat split. Qed.
