(* ===== verification/Check.v ===== *)
(** * Path checking: [vdsm/storage/check.py] and [asyncutils.LoopingCall]

    A checker starts a process that reads from a path, every interval, on an event loop:
    all its methods run on the loop's thread, one at a time, so each callback is one
    step.  The loop, the clock and the processes are inputs: the steps choose the
    times, whether a process can be started and how it ends.  Times are integers of one
    unit.  The complete callback does not call back into the checker. *)
From Stdlib Require Import ZArith Lia.
From stdpp Require Import base gmap list relations.
From S2P Require Import Prelude.

Inductive exn := AssertionError | RuntimeError | KeyError.

Inductive checker_state := IDLE | RUNNING | STOPPING.

#[export] Instance checker_state_eq_dec : EqDecision checker_state.
Proof. solve_decision. Defined.

(** [asyncutils.LoopingCall]; [_timer] is the time of the call that the loop keeps. *)
Record LoopingCall := mkLoop { _running : bool; _deadline : Z; _interval : Z; _timer : option Z }.

(** [CheckResult], with the text left out *)
Record CheckResult := mkResult { rc : Z; time : Z; elapsed : Z }.

Record DirectioChecker := mkChecker {
  _state : checker_state;
  _looper : LoopingCall;
  _check_time : Z;
  _proc : bool;
  _reader : bool;
  _reaper : bool;
  _completed : bool;
  _stopped : bool;
  results : list CheckResult;   (* handed to the complete callback *)
  begun : nat;                  (* checks that were begun *)
  dropped : nat;                (* checks that ended after the checker was stopped *)
}.

Definition EXEC_ERROR : Z := 127.

Definition LoopingCall_init : LoopingCall := mkLoop false 0 0 None.

(** [DirectioChecker.__init__] *)
Definition DirectioChecker_init : DirectioChecker :=
  mkChecker IDLE LoopingCall_init 0 false false false false false [] 0 0.

Definition set_state (st : checker_state) (c : DirectioChecker) : DirectioChecker :=
  mkChecker st (_looper c) (_check_time c) (_proc c) (_reader c) (_reaper c) (_completed c) (_stopped c) (results c) (begun c) (dropped c).
Definition set_looper (l : LoopingCall) (c : DirectioChecker) : DirectioChecker :=
  mkChecker (_state c) l (_check_time c) (_proc c) (_reader c) (_reaper c) (_completed c) (_stopped c) (results c) (begun c) (dropped c).
Definition set_process (p rd rp : bool) (c : DirectioChecker) : DirectioChecker :=
  mkChecker (_state c) (_looper c) (_check_time c) p rd rp (_completed c) (_stopped c) (results c) (begun c) (dropped c).
Definition set_completed (b : bool) (c : DirectioChecker) : DirectioChecker :=
  mkChecker (_state c) (_looper c) (_check_time c) (_proc c) (_reader c) (_reaper c) b (_stopped c) (results c) (begun c) (dropped c).
Definition set_stopped (b : bool) (c : DirectioChecker) : DirectioChecker :=
  mkChecker (_state c) (_looper c) (_check_time c) (_proc c) (_reader c) (_reaper c) (_completed c) b (results c) (begun c) (dropped c).
Definition begin_check (now : Z) (c : DirectioChecker) : DirectioChecker :=
  mkChecker (_state c) (_looper c) now (_proc c) (_reader c) (_reaper c) false (_stopped c) (results c) (S (begun c)) (dropped c).
Definition add_result (r : CheckResult) (c : DirectioChecker) : DirectioChecker :=
  mkChecker (_state c) (_looper c) (_check_time c) (_proc c) (_reader c) (_reaper c) (_completed c) (_stopped c) (results c ++ [r]) (begun c) (dropped c).
Definition drop_check (c : DirectioChecker) : DirectioChecker :=
  mkChecker (_state c) (_looper c) (_check_time c) (_proc c) (_reader c) (_reaper c) (_completed c) (_stopped c) (results c) (begun c)
    (dropped c + if _completed c then 0 else 1)%nat.

(** ** The looping call *)

(** [LoopingCall._schedule_next_call] *)
Definition _schedule_next_call (now : Z) (l : LoopingCall) : LoopingCall :=
  let d := _deadline l + _interval l in
  let d' := if d <=? now then d + ((now - d) / _interval l + 1) * _interval l else d in
  mkLoop (_running l) d' (_interval l) (Some d').

(** [LoopingCall.stop] *)
Definition looper_stop (l : LoopingCall) : LoopingCall := mkLoop false (_deadline l) (_interval l) None.

(** [LoopingCall.__call__] with the callback of the checker; the clock is read again when
    the callback has returned. *)
Definition looper_call (callback : M DirectioChecker exn unit) (later : Z) : M DirectioChecker exn unit := fun c =>
  if negb (_running (_looper c)) then (c, Ok ())
  else let '(c', r) := callback c in
       (if _running (_looper c') then set_looper (_schedule_next_call later (_looper c')) c' else c', r).

(** [LoopingCall.start] *)
Definition looper_start (interval now : Z) (callback : M DirectioChecker exn unit) (later : Z) : M DirectioChecker exn unit := fun c =>
  if _running (_looper c) then (c, Raise AssertionError)
  else looper_call callback later (set_looper (mkLoop true now interval (_timer (_looper c))) c).

(** ** The checker *)

Definition _stop_completed (c : DirectioChecker) : DirectioChecker := set_stopped true (set_state IDLE c).

Definition _check_completed (code now : Z) : M DirectioChecker exn unit := fun c =>
  if decide (_state c = IDLE) then (c, Raise AssertionError)
  else
    let c := set_process false (_reader c) false c in
    if decide (_state c = STOPPING) then (_stop_completed (drop_check c), Ok ())
    else if _completed c then (c, Ok ())
    else (add_result (mkResult code (_check_time c) (now - _check_time c)) (set_completed true c), Ok ()).

Definition _read_timeout (now : Z) : M DirectioChecker exn unit := fun c =>
  if decide (_state c = IDLE) then (c, Raise AssertionError)
  else (add_result (mkResult 1 (_check_time c) (now - _check_time c)) (set_completed true c), Ok ()).

(** [_start_process]: with a process comes the reader of its errors. *)
Definition _start_process (c : DirectioChecker) : DirectioChecker := set_process true true (_reaper c) c.

(** [_check]; [spawned] is whether the process could be started. *)
Definition _check (spawned : bool) (now : Z) : M DirectioChecker exn unit := fun c =>
  if negb (bool_decide (_state c = RUNNING)) then (c, Raise AssertionError)
  else if _proc c then (if _completed c then (c, Ok ()) else _read_timeout now c)
  else
    let c := begin_check now c in
    if spawned then (_start_process c, Ok ()) else _check_completed EXEC_ERROR now c.

(** [_read_completed]; [code] is what [poll] gives. *)
Definition _read_completed (code : option Z) (now : Z) : M DirectioChecker exn unit := fun c =>
  if decide (_state c = IDLE) then (c, Raise AssertionError)
  else
    let c := set_process (_proc c) false (_reaper c) c in
    match code with
    | None => (set_process (_proc c) (_reader c) true c, Ok ())
    | Some code => _check_completed code now c
    end.

Section Checker.
  Context (interval : Z).

Definition start (spawned : bool) (now later : Z) : M DirectioChecker exn unit := fun c =>
  if negb (bool_decide (_state c = IDLE)) then (c, Raise RuntimeError)
  else looper_start interval now (_check spawned now) later (set_stopped false (set_state RUNNING c)).

Definition stop (c : DirectioChecker) : DirectioChecker :=
  if negb (bool_decide (_state c = RUNNING)) then c
  else
    let c := set_looper (looper_stop (_looper c)) (set_state STOPPING c) in
    if _proc c then c else _stop_completed c.

(** What the event loop runs *)
Inductive event :=
| Start (spawned : bool) (now later : Z)
| Stop
| TimerFired (spawned : bool) (now later : Z)
| ReadCompleted (code : option Z) (now : Z)
| Reaped (code now : Z).

(** A timer, a reader and a reaper call back only while the loop keeps them. *)
Definition enabled (e : event) (c : DirectioChecker) : bool :=
  match e with
  | Start _ _ _ | Stop => true
  | TimerFired _ _ _ => bool_decide (is_Some (_timer (_looper c)))
  | ReadCompleted _ _ => _reader c
  | Reaped _ _ => _reaper c
  end.

Definition run (e : event) : M DirectioChecker exn unit :=
  match e with
  | Start spawned now later => start spawned now later
  | Stop => modify stop
  | TimerFired spawned now later => looper_call (_check spawned now) later
  | ReadCompleted code now => _read_completed code now
  | Reaped code now => _check_completed code now
  end.

Inductive step : DirectioChecker → DirectioChecker → Prop :=
| step_event e c : enabled e c = true → step c (fst (run e c)).

Definition reachable (c : DirectioChecker) : Prop := rtc step DirectioChecker_init c.

(** ** Invariant *)

Record inv (c : DirectioChecker) : Prop := {
  k_state : match _state c with
            | IDLE => _proc c = false ∧ _running (_looper c) = false
            | RUNNING => _running (_looper c) = true ∧ (_proc c = false → _completed c = true)
            | STOPPING => _proc c = true ∧ _running (_looper c) = false
            end;
  k_timer : is_Some (_timer (_looper c)) ↔ _running (_looper c) = true;
  k_callbacks : _proc c = xorb (_reader c) (_reaper c) ∧ (_reader c && _reaper c) = false;
  k_count : begun c = (length (results c) + dropped c + if _proc c && negb (_completed c) then 1 else 0)%nat;
}.

Lemma check_inv_init : inv DirectioChecker_init.
Proof. split; try done. split; [by intros [? ?]|done]. Qed.

(** The end of a process, in any state but IDLE *)
Lemma check_completed_inv code now c c1 :
  _state c ≠ IDLE → _proc c = true →
  (_state c = RUNNING → _running (_looper c) = true) → (_state c = STOPPING → _running (_looper c) = false) →
  (is_Some (_timer (_looper c)) ↔ _running (_looper c) = true) → _reader c = false →
  begun c = (length (results c) + dropped c + if negb (_completed c) then 1 else 0)%nat →
  _check_completed code now c = (c1, Ok ()) → inv c1.
Proof.
  intros Hs Hp Hr Hst Ht Hrd Hc. unfold _check_completed. rewrite decide_False by done. cbn [_state set_process _completed].
  destruct (_state c) eqn:Es; [done|..].
  - rewrite decide_False by done. destruct (_completed c) eqn:Ec; cbn in Hc; intros [= <-]; split; cbn; rewrite ?Es, ?Hrd, ?Ec; try done; try (split; [by apply Hr|done]).
    rewrite length_app. cbn. lia.
  - rewrite decide_True by done. intros [= <-]. split; cbn; rewrite ?Hrd; try done; [split; [done|by apply Hst]|].
    destruct (_completed c); cbn in *; lia.
Qed.

(** What [_check] does in a running checker, its timer aside *)
Lemma check_runs spawned now c :
  _state c = RUNNING → _running (_looper c) = true → _proc c = xorb (_reader c) (_reaper c) → (_reader c && _reaper c) = false →
  (_proc c = true → begun c = (length (results c) + dropped c + if _completed c then 0 else 1)%nat) →
  (_proc c = false → begun c = (length (results c) + dropped c)%nat) →
  ∃ c1, _check spawned now c = (c1, Ok ()) ∧ _state c1 = RUNNING ∧ _looper c1 = _looper c ∧ (_proc c1 = false → _completed c1 = true) ∧
    _proc c1 = xorb (_reader c1) (_reaper c1) ∧ (_reader c1 && _reaper c1) = false ∧
    begun c1 = (length (results c1) + dropped c1 + if _proc c1 && negb (_completed c1) then 1 else 0)%nat.
Proof.
  intros Es Hr Hx Ha Hp Hn. unfold _check. rewrite bool_decide_eq_true_2 by done. cbn [negb].
  destruct (_proc c) eqn:Ep.
  - specialize (Hp eq_refl). destruct (_completed c) eqn:Ec.
    + exists c. rewrite Ep, Ec. cbn in *. split_and!; try done; lia.
    + unfold _read_timeout. rewrite Es. rewrite decide_False by done. eexists. split; [done|]. cbn. rewrite Ep, length_app. cbn. split_and!; try done; lia.
  - specialize (Hn eq_refl). destruct spawned.
    + eexists. split; [done|]. unfold _start_process. cbn. destruct (_reader c), (_reaper c); cbn in *; try done; split_and!; try done; lia.
    + unfold _check_completed. cbn. rewrite Es. rewrite !decide_False by done. eexists. split; [done|]. cbn. rewrite length_app. cbn.
      destruct (_reader c), (_reaper c); cbn in *; try done; split_and!; try done; lia.
Qed.

(** The rest of [LoopingCall.__call__] *)
Lemma looper_inv c1 later :
  _state c1 = RUNNING → _running (_looper c1) = true → (_proc c1 = false → _completed c1 = true) →
  _proc c1 = xorb (_reader c1) (_reaper c1) → (_reader c1 && _reaper c1) = false →
  begun c1 = (length (results c1) + dropped c1 + if _proc c1 && negb (_completed c1) then 1 else 0)%nat →
  inv (set_looper (_schedule_next_call later (_looper c1)) c1).
Proof. intros Es Hr Hc Hx Ha Hb. split; cbn; rewrite ?Es, ?Hr; try done. Qed.

Lemma run_inv e c : inv c → enabled e c = true → inv (fst (run e c)) ∧ snd (run e c) ≠ Raise AssertionError.
Proof.
  intros H He. pose proof H as [H1 H2 [H3 H3'] H4]. destruct e as [spawned now later| |spawned now later|code now|code now]; cbn [run] in *.
  - unfold start. destruct (decide (_state c = IDLE)) as [Es|Es]; [|by rewrite bool_decide_eq_false_2].
    rewrite bool_decide_eq_true_2 by done. cbn [negb]. rewrite Es in H1. destruct H1 as [Hp Hr]. rewrite Hp in *. cbn in H4.
    unfold looper_start. cbn [_looper set_stopped set_state]. rewrite Hr. unfold looper_call. cbn [_looper set_looper _running negb].
    match goal with |- context [_check spawned now ?x] => set (c0 := x) end.
    destruct (check_runs spawned now c0) as (c1 & -> & Es1 & El & Hc1 & Hx1 & Ha1 & Hb1);
      [done|done|cbn; congruence|done|cbn; congruence|cbn; intros _; lia|].
    assert (_running (_looper c1) = true) as Hr1 by (by rewrite El). rewrite Hr1. split; [|done]. by apply looper_inv.
  - split; [|done]. cbn. unfold stop. destruct (decide (_state c = RUNNING)) as [Es|Es]; [|by rewrite bool_decide_eq_false_2].
    rewrite bool_decide_eq_true_2 by done. cbn [negb]. rewrite Es in H1. destruct H1 as [Hr Hc].
    destruct (_proc c) eqn:Ep; cbn [_proc set_looper set_state]; rewrite Ep.
    + split; cbn; rewrite ?Ep; try done; by split; [intros [? ?]|].
    + split; cbn; rewrite ?Ep; try done; by split; [intros [? ?]|].
  - cbn in He. apply bool_decide_eq_true_1 in He. apply H2 in He. unfold looper_call. rewrite He. cbn [negb].
    assert (_state c = RUNNING) as Es by (destruct (_state c); [destruct H1; congruence|done|destruct H1; congruence]).
    destruct (check_runs spawned now c) as (c1 & -> & Es1 & El & Hc1 & Hx1 & Ha1 & Hb1); try done.
    { intros Ep. rewrite Ep in H4. cbn in H4. by destruct (_completed c). }
    { intros Ep. rewrite Ep in H4. cbn in H4. lia. }
    assert (_running (_looper c1) = true) as Hr1 by (by rewrite El). rewrite Hr1. split; [|done]. by apply looper_inv.
  - cbn in He. rewrite He in *. cbn in H3, H3'. assert (_reaper c = false) as Erp by done. rewrite Erp in H3. cbn in H3.
    assert (_state c ≠ IDLE) as Hs by (intros Es; rewrite Es in H1; destruct H1; congruence).
    rewrite H3 in H4. cbn in H4. unfold _read_completed. rewrite decide_False by done.
    destruct code as [code|].
    + match goal with |- context [_check_completed code now ?x] => destruct (_check_completed code now x) as [c1 r] eqn:E end.
      assert (r = Ok ()) as -> by (unfold _check_completed in E; cbn in E; rewrite decide_False in E by done; destruct (decide _), (_completed c); simplify_eq; done).
      split; [|done]. eapply check_completed_inv; [..|exact E]; cbn; try done; intros E1; rewrite E1 in H1; apply H1.
    + split; [|done]. cbn. split; cbn; rewrite ?H3, ?Erp; try done. destruct (_state c); try done; by rewrite ?H3 in H1.
  - cbn in He. rewrite He in *. rewrite andb_true_r in H3'. rewrite H3' in H3. cbn in H3.
    assert (_state c ≠ IDLE) as Hs by (intros Es; rewrite Es in H1; destruct H1; congruence).
    rewrite H3 in H4. cbn in H4. destruct (_check_completed code now c) as [c1 r] eqn:E.
    assert (r = Ok ()) as -> by (unfold _check_completed in E; cbn in E; rewrite decide_False in E by done; destruct (decide _), (_completed c); simplify_eq; done).
    split; [|done]. eapply check_completed_inv; [..|exact E]; try done; intros E1; rewrite E1 in H1; apply H1.
Qed.

Lemma check_reachable_inv c : reachable c → inv c.
Proof.
  intros H. assert (∀ a b, rtc step a b → inv a → inv b) as Hrtc.
  { induction 1 as [|a b c' H1 H2 IH]; [done|]. intros Ha. apply IH. destruct H1. by apply run_inv. }
  eapply Hrtc; [exact H|apply check_inv_init].
Qed.

(** C34: Safety of a checker.  In every reachable state, whatever the event loop runs next:
    no assertion fails; an idle checker has no process, no timer and no callback to
    come; a process is watched by exactly one of the reader and the reaper; and every
    check that was begun gave exactly one result, or is still running, or ended
    after the checker was stopped. *)
Theorem checker_safety c :
  reachable c →
  (∀ e, enabled e c = true → snd (run e c) ≠ Raise AssertionError) ∧
  (_state c = IDLE → _proc c = false ∧ _reader c = false ∧ _reaper c = false ∧ _timer (_looper c) = None) ∧
  (_state c = RUNNING → is_Some (_timer (_looper c))) ∧
  begun c = (length (results c) + dropped c + if _proc c && negb (_completed c) then 1 else 0)%nat.
Proof.
  intros Hr. pose proof (check_reachable_inv c Hr) as H. pose proof H as [H1 H2 [H3 H3'] H4]. split_and!; [|..|done].
  - intros e He. by apply run_inv.
  - intros Es. rewrite Es in H1. destruct H1 as [Hp Hrun]. rewrite Hp in *. split_and!; [done|..].
    + by destruct (_reader c), (_reaper c).
    + by destruct (_reader c), (_reaper c).
    + destruct (_timer (_looper c)) eqn:Et; [|done]. destruct H2 as [H2 _]. specialize (H2 ltac:(done)). congruence.
  - intros Es. rewrite Es in H1. apply H2, H1.
Qed.

(** Stopping a checker.  A stop in any reachable state leaves the checker stopped, or
    waiting for its process only: then the end of the process, seen by the reader or
    the reaper, makes it idle and wakes up who waits for it; and no result is handed out
    on the way. *)
Theorem checker_stops c :
  reachable c → _state c ≠ IDLE →
  let s := stop c in
  results s = results c ∧
  (_state s = IDLE ∧ _stopped s = true ∨
   _state s = STOPPING ∧ _timer (_looper s) = None ∧
   ((_reader s = true ∧ ∀ code now, let s' := fst (run (ReadCompleted (Some code) now) s) in _state s' = IDLE ∧ _stopped s' = true ∧ results s' = results c) ∨
    (_reaper s = true ∧ ∀ code now, let s' := fst (run (Reaped code now) s) in _state s' = IDLE ∧ _stopped s' = true ∧ results s' = results c))).
Proof.
  intros Hr Hne s. pose proof (run_inv Stop c (check_reachable_inv c Hr) eq_refl) as [H _]. cbn in H. fold s in H.
  assert (results s = results c) as Er.
  { unfold s, stop. destruct (negb _); [done|]. cbn. by destruct (_proc c). }
  split; [done|]. assert (_state s = IDLE ∧ _stopped s = true ∨ _state s = STOPPING) as [Hs|Hs].
  { unfold s, stop. destruct (decide (_state c = RUNNING)) as [Es|Es].
    - rewrite bool_decide_eq_true_2 by done. cbn. destruct (_proc c); cbn; auto.
    - rewrite bool_decide_eq_false_2 by done. cbn. destruct (_state c); auto; done. }
  { by left. }
  right. destruct H as [H1 H2 [H3 H3'] H4]. rewrite Hs in H1. destruct H1 as [Hp Hrun]. rewrite Hp in H3. split_and!; [done| |].
  - destruct (_timer (_looper s)) eqn:Et; [|done]. destruct H2 as [H2 _]. specialize (H2 ltac:(done)). congruence.
  - destruct (_reader s) eqn:Erd.
    + left. split; [done|]. intros code now. cbn. unfold _read_completed. rewrite decide_False by (by rewrite Hs). unfold _check_completed. cbn.
      rewrite Hs. rewrite decide_False, decide_True by done. cbn. done.
    + right. destruct (_reaper s); [|done]. split; [done|]. intros code now. cbn. unfold _check_completed. rewrite decide_False by (by rewrite Hs). cbn.
      rewrite Hs. rewrite decide_True by done. done.
Qed.
End Checker.

(** The deadlines of a looping call.  For a positive interval the next deadline is in
    the future, a whole number of intervals after the last one, and the first such time
    that is not missed. *)
Theorem next_deadline now l :
  0 < _interval l →
  let l' := _schedule_next_call now l in
  _timer l' = Some (_deadline l') ∧ _deadline l' ≠ now ∧
  ∃ k, 0 < k ∧ _deadline l' = _deadline l + k * _interval l ∧ now < _deadline l' ∧
    (∀ j, 0 < j < k → _deadline l + j * _interval l <= now).
Proof.
  intros Hi. cbn. destruct (Z.leb_spec (_deadline l + _interval l) now) as [Hle|Hlt].
  - set (q := (now - (_deadline l + _interval l)) / _interval l).
    pose proof (Z.mul_div_le (now - (_deadline l + _interval l)) (_interval l) Hi) as Hq1.
    pose proof (Z.mul_succ_div_gt (now - (_deadline l + _interval l)) (_interval l) Hi) as Hq2. fold q in Hq1, Hq2.
    assert (0 <= q) by (apply Z.div_pos; lia).
    split_and!; [done|nia|]. exists (q + 2). split_and!; [lia|nia|nia|]. intros j Hj. nia.
  - split_and!; [done|lia|]. exists 1. split_and!; [lia|lia|lia|]. intros j Hj. lia.
Qed.

(** ** The check service *)

(** What a thread asks the loop to run *)
Inductive request := StartChecker | StopChecker.

Record CheckService := mkService {
  _checkers : gmap text nat;
  checkers : gmap nat DirectioChecker;   (* all checkers that were made *)
  next_checker : nat;
  _loop : list (nat * request);          (* callbacks for the loop, in order *)
}.

Definition CheckService_init : CheckService := mkService ∅ ∅ 0 [].

(** [start_checking] under the lock, and the call after it *)
Definition start_checking (path : text) : M CheckService exn nat := fun s =>
  match _checkers s !! path with
  | Some _ => (s, Raise RuntimeError)
  | None => (mkService (<[path := next_checker s]> (_checkers s)) (<[next_checker s := DirectioChecker_init]> (checkers s))
               (S (next_checker s)) (_loop s), Ok (next_checker s))
  end.

Definition call_soon_threadsafe (i : nat) (r : request) (s : CheckService) : CheckService :=
  mkService (_checkers s) (checkers s) (next_checker s) (_loop s ++ [(i, r)]).

(** [stop_checking] under the lock *)
Definition stop_checking (path : text) : M CheckService exn nat := fun s =>
  match _checkers s !! path with
  | None => (s, Raise KeyError)
  | Some i => (mkService (delete path (_checkers s)) (checkers s) (next_checker s) (_loop s), Ok i)
  end.

(** [CheckService.stop], up to the stop of the loop *)
Definition service_stop (s : CheckService) : CheckService :=
  foldl (fun s '(_, i) => call_soon_threadsafe i StopChecker s) (mkService ∅ (checkers s) (next_checker s) (_loop s)) (map_to_list (_checkers s)).

Definition is_checking (path : text) (s : CheckService) : bool := bool_decide (is_Some (_checkers s !! path)).

(** The loop runs its first callback; an exception is logged. *)
Definition loop_step (spawned : bool) (interval now : Z) (s : CheckService) : CheckService :=
  match _loop s with
  | [] => s
  | (i, r) :: rest =>
      let f := match r with StartChecker => fun c => fst (start interval spawned now now c) | StopChecker => stop end in
      mkService (_checkers s) (alter f i (checkers s)) (next_checker s) rest
  end.

(** Stopping the service asks every checker that it has to stop, and forgets them. *)
Lemma service_stop_spec s :
  _checkers (service_stop s) = ∅ ∧
  ∃ l, _loop (service_stop s) = _loop s ++ l ∧ l ≡ₚ (fun i => (i, StopChecker)) <$> (map_to_list (_checkers s)).*2.
Proof.
  unfold service_stop.
  assert (∀ (items : list (text * nat)) s0, _checkers (foldl (fun s '(_, i) => call_soon_threadsafe i StopChecker s) s0 items) = _checkers s0 ∧
    _loop (foldl (fun s '(_, i) => call_soon_threadsafe i StopChecker s) s0 items) = _loop s0 ++ ((fun i => (i, StopChecker)) <$> items.*2)) as H.
  { clear s. intros items. induction items as [|[p i] items IH]; intros s0; [by rewrite app_nil_r|]. cbn [foldl].
    destruct (IH (call_soon_threadsafe i StopChecker s0)) as [E1 E2]. split; [exact E1|]. rewrite E2. cbn. by rewrite <- app_assoc. }
  destruct (H (map_to_list (_checkers s)) (mkService ∅ (checkers s) (next_checker s) (_loop s))) as [E1 E2].
  split; [exact E1|]. eexists. split; [exact E2|done].
Qed.

(** ** Runs and corners *)

Module Sample.
(** A check that times out, and whose process ends after a stop *)
Definition c1 : DirectioChecker := fst (run 10 (Start true 0 0) DirectioChecker_init).
Definition c2 : DirectioChecker := fst (run 10 (TimerFired true 10 10) c1).

Lemma to_c1 : reachable 10 c1.
Proof. eapply rtc_l; [by apply (step_event 10 (Start true 0 0))|]. apply rtc_refl. Qed.

Lemma to_c2 : reachable 10 c2.
Proof. unfold reachable. etrans; [exact to_c1|]. eapply rtc_l; [by apply (step_event 10 (TimerFired true 10 10))|]. apply rtc_refl. Qed.
End Sample.

Lemma checker_safety_witness : results Sample.c2 = [mkResult 1 0 10] ∧ is_Some (_timer (_looper Sample.c2)).
Proof.
  split; [vm_compute; reflexivity|]. apply (checker_safety 10 Sample.c2 Sample.to_c2). vm_compute. reflexivity.
Defined.

Lemma checker_stops_witness : results (stop Sample.c2) = results Sample.c2 ∧ _state (stop Sample.c2) = STOPPING.
Proof.
  split; [|vm_compute; reflexivity]. exact (proj1 (checker_stops 10 Sample.c2 Sample.to_c2 ltac:(vm_compute; discriminate))).
Defined.

Lemma next_deadline_witness : _deadline (_schedule_next_call 25 (mkLoop true 0 10 None)) = 30 ∧ 25 ≠ 30.
Proof.
  split; [vm_compute; reflexivity|]. destruct (next_deadline 25 (mkLoop true 0 10 None) ltac:(vm_compute; reflexivity)) as (_ & H & _).
  intros E. by apply H.
Defined.

(** A checker is started by the loop after the lock was released: when another thread stops
    checking the path in between, its stop is run first and ignored, and the checker
    runs on although the service does not know it any more. *)
Lemma stop_overtakes_start :
  let s1 := fst (start_checking [47] CheckService_init) in
  let s2 := fst (stop_checking [47] s1) in
  let s3 := call_soon_threadsafe 0 StartChecker (call_soon_threadsafe 0 StopChecker s2) in
  let s4 := loop_step true 10 0 (loop_step true 10 0 s3) in
  is_checking [47] s4 = false ∧ (_state <$> checkers s4 !! 0%nat) = Some RUNNING ∧ _loop s4 = [].
Proof. vm_compute. repeat split. Qed.
