(* ===== verification/Concurrent.v ===== *)
(** * Threads that wait for each other: [common/concurrent.py]

    [ValidatingEvent], [Barrier] and [tmap].  A method that takes the condition's
    lock is a step; where it sleeps in [Condition.wait] the thread is kept in the
    state, so the runs below are all the interleavings of the threads.  The
    clock is an argument of the steps that read it. *)
From Stdlib Require Import ZArith Lia.
From stdpp Require Import base gmap list fin_maps strings.
From S2P Require Import Prelude.
Open Scope Z_scope.

(** ** ValidatingEvent *)

Inductive exn := InvalidEvent | Timeout | ValueError.

#[export] Instance exn_eq_dec : EqDecision exn.
Proof. solve_decision. Defined.

(** [sleeping] are the threads in [Condition.wait], [notified] those that were woken and
    have not taken the lock again; [expired] are those whose timeout woke them. *)
Record ValidatingEvent := mkEvent {
  _flag : bool;
  _valid : bool;
  sleeping : list nat;
  notified : list nat;
  expired : list nat;
}.

Definition new_event : ValidatingEvent := mkEvent false true [] [] [].

Definition is_set (e : ValidatingEvent) : bool := _flag e.
Definition valid (e : ValidatingEvent) : bool := _valid e.

(** [self._cond.notify_all()] *)
Definition notify_all (e : ValidatingEvent) : ValidatingEvent :=
  mkEvent (_flag e) (_valid e) [] (notified e ++ sleeping e) (expired e).

Definition set (e : ValidatingEvent) : ValidatingEvent :=
  notify_all (mkEvent true (_valid e) (sleeping e) (notified e) (expired e)).

Definition clear (e : ValidatingEvent) : ValidatingEvent :=
  mkEvent false (_valid e) (sleeping e) (notified e) (expired e).

Definition set_valid (value : bool) (e : ValidatingEvent) : ValidatingEvent :=
  let wake_up := _valid e && negb value in
  let e := mkEvent (_flag e) value (sleeping e) (notified e) (expired e) in
  if wake_up then notify_all e else e.

(** [wait] up to [self._cond.wait]; [None] is a thread that sleeps. *)
Definition wait_enter (t : nat) (e : ValidatingEvent) : ValidatingEvent * option (res exn bool) :=
  if negb (_valid e) then (e, Some (Raise InvalidEvent))
  else if negb (_flag e) then (mkEvent (_flag e) (_valid e) (sleeping e ++ [t]) (notified e) (expired e), None)
  else (e, Some (Ok (_flag e))).

(** The rest of [wait], when the thread has the lock again. *)
Definition wait_exit (t : nat) (e : ValidatingEvent) : ValidatingEvent * res exn bool :=
  let e := mkEvent (_flag e) (_valid e) (sleeping e) (filter (fun u => u ≠ t) (notified e)) (filter (fun u => u ≠ t) (expired e)) in
  (e, if negb (_valid e) then Raise InvalidEvent else Ok (_flag e)).

(** The timeout of a sleeping thread. *)
Definition wait_expire (t : nat) (e : ValidatingEvent) : ValidatingEvent :=
  mkEvent (_flag e) (_valid e) (filter (fun u => u ≠ t) (sleeping e)) (notified e ++ [t]) (expired e ++ [t]).

Inductive event_act :=
| ESet | EClear | EValid (value : bool)
| EWait (t : nat) | EExpire (t : nat) | EWake (t : nat).

(** A step and what a [wait] that ends in it gives, with whether its timeout had expired. *)
Inductive event_step : event_act → ValidatingEvent → ValidatingEvent → option (nat * bool * res exn bool) → Prop :=
| step_set e : event_step ESet e (set e) None
| step_clear e : event_step EClear e (clear e) None
| step_valid b e : event_step (EValid b) e (set_valid b e) None
| step_wait t e e' r :
    t ∉ sleeping e ++ notified e → wait_enter t e = (e', r) →
    event_step (EWait t) e e' ((fun r => (t, false, r)) <$> r)
| step_expire t e : t ∈ sleeping e → event_step (EExpire t) e (wait_expire t e) None
| step_wake t e e' r :
    t ∈ notified e → wait_exit t e = (e', r) →
    event_step (EWake t) e e' (Some (t, bool_decide (t ∈ expired e), r)).

Inductive event_run : ValidatingEvent → list event_act → ValidatingEvent → Prop :=
| event_nil e : event_run e [] e
| event_snoc e acts a e' e'' o : event_run e acts e' → event_step a e' e'' o → event_run e (acts ++ [a]) e''.

(** Neither [clear] nor a new validation of the event. *)
Definition keeps (a : event_act) : Prop := match a with EClear | EValid true => False | _ => True end.

#[export] Instance keeps_dec a : Decision (keeps a).
Proof. destruct a as [| |[]| | |]; apply _. Defined.

(** Nobody is left asleep in an event that is set or invalid. *)
Definition event_inv (e : ValidatingEvent) : Prop :=
  NoDup (sleeping e ++ notified e)
  ∧ (_flag e = true ∨ _valid e = false → sleeping e = [])
  ∧ (∀ t, t ∈ expired e → t ∈ notified e).

Lemma notify_all_inv e :
  NoDup (sleeping e ++ notified e) → (∀ t, t ∈ expired e → t ∈ notified e) → event_inv (notify_all e).
Proof.
  intros Hn He. split_and!; cbn; [by rewrite (Permutation_app_comm (notified e))|done|set_solver].
Qed.

Lemma wait_enter_inv t e e' r :
  event_inv e → t ∉ sleeping e ++ notified e → wait_enter t e = (e', r) → event_inv e'.
Proof.
  intros Hinv Ht. pose proof Hinv as (Hn & Hs & He). unfold wait_enter.
  destruct (_valid e) eqn:Ev; cbn; [|by intros [= <- _]].
  destruct (_flag e) eqn:Ef; cbn; intros [= <- _]; [done|]. split_and!; cbn; try done.
  - rewrite <-app_assoc. apply NoDup_app. apply NoDup_app in Hn as (H1 & H2 & H3).
    split_and!; [done|set_solver|]. apply NoDup_app. split_and!; [apply NoDup_singleton|set_solver|done].
  - intros [?|?]; congruence.
Qed.

Lemma NoDup_filter_app (P : nat → Prop) `{!∀ x, Decision (P x)} (l k : list nat) :
  NoDup (l ++ k) → NoDup (l ++ filter P k) ∧ NoDup (filter P l ++ k).
Proof.
  rewrite !NoDup_app. intros (H1 & H2 & H3).
  split; (split_and!; [try done; by apply NoDup_filter| |try done; by apply NoDup_filter]);
    intros x Hx; [rewrite list_elem_of_filter; naive_solver|rewrite list_elem_of_filter in Hx; naive_solver].
Qed.

Lemma event_step_inv a e e' o : event_inv e → event_step a e e' o → event_inv e'.
Proof.
  intros Hinv Hstep. pose proof Hinv as (Hn & Hs & He). inversion Hstep; subst.
  - by apply notify_all_inv.
  - split_and!; cbn; [done| |done]. intros [?|?]; [done|auto].
  - unfold set_valid. destruct (_valid e) eqn:Ev, b; cbn.
    + split_and!; cbn; [done| |done]. intros [?|?]; auto.
    + by apply notify_all_inv.
    + split_and!; cbn; [done| |done]. auto.
    + split_and!; cbn; [done| |done]. auto.
  - eapply wait_enter_inv; eauto.
  - split_and!; cbn.
    + apply NoDup_app in Hn as (H1 & H2 & H3). rewrite app_assoc. apply NoDup_app.
      split_and!; [apply NoDup_app; split_and!; [by apply NoDup_filter| |done]| |apply NoDup_singleton].
      all: intros x Hx; rewrite ?elem_of_app, ?list_elem_of_filter in Hx; set_solver.
    + intros Hor. by rewrite Hs.
    + set_solver.
  - injection H0 as <- <-. split_and!; cbn; [by apply NoDup_filter_app|done|].
    intros u. rewrite !list_elem_of_filter. naive_solver.
Qed.

Lemma event_run_inv e acts e' : event_inv e → event_run e acts e' → event_inv e'.
Proof. intros Hinv Hrun. induction Hrun; eauto using event_step_inv. Qed.

Lemma new_event_inv : event_inv new_event.
Proof. split_and!; cbn; [constructor|done|set_solver]. Qed.

(** While nobody clears or validates the event, a thread is awake for one of the
    three reasons [wait] has. *)
Definition awake_reason (e : ValidatingEvent) : Prop :=
  _flag e = false → _valid e = true → ∀ t, t ∈ notified e → t ∈ expired e.

Lemma event_step_reason a e e' o : keeps a → awake_reason e → event_step a e e' o → awake_reason e'.
Proof.
  intros Hk Hw Hstep. inversion Hstep; subst; unfold awake_reason; cbn in *; try done.
  - unfold set_valid. destruct b; [done|]. destruct (_valid e); done.
  - unfold wait_enter in *. destruct (_valid e) eqn:Ev, (_flag e) eqn:Ef; cbn in *; simplify_eq; cbn in *; naive_solver.
  - intros Hf Hv u [Hu|Hu]%elem_of_app; apply elem_of_app; auto.
  - injection H0 as <- <-. cbn. intros Hf Hv u. rewrite !list_elem_of_filter. naive_solver.
Qed.

Lemma event_run_reason e acts e' : Forall keeps acts → awake_reason e → event_run e acts e' → awake_reason e'.
Proof.
  intros Hk Hw Hrun. induction Hrun; [done|]. apply Forall_app in Hk as [Hk [Ha _]%Forall_cons].
  eauto using event_step_reason.
Qed.

(** [ValidatingEvent] loses no waiter, whatever the interleaving: nobody sleeps in an
    event that is set or invalid; a [wait] raises [InvalidEvent] exactly when the event is
    invalid as it returns, else gives the flag; and it keeps the promise of its
    documentation, that it gives False only when its timeout expired, in every run in which
    nobody clears the event or makes it valid again after a thread was woken. *)
Theorem validating_event acts e :
  event_run new_event acts e →
  ((is_set e = true ∨ valid e = false) → sleeping e = [])
  ∧ NoDup (sleeping e ++ notified e)
  ∧ (∀ a e' t x r, event_step a e e' (Some (t, x, r)) →
       t ∉ sleeping e' ++ notified e'
       ∧ (r = Raise InvalidEvent ↔ valid e' = false)
       ∧ (∀ b, r = Ok b → b = is_set e' ∧ (b = false → Forall keeps acts → x = true))).
Proof.
  intros Hrun. pose proof (event_run_inv _ _ _ new_event_inv Hrun) as (Hn & Hs & He).
  split_and!; [done..|]. intros a e' t x r Hstep.
  inversion Hstep; subst; cbn in *.
  - unfold wait_enter in *. destruct (_valid e) eqn:Ev, (_flag e) eqn:Ef; cbn in *; simplify_eq.
    all: unfold valid, is_set; rewrite ?Ev, ?Ef; naive_solver.
  - match goal with H : wait_exit _ _ = _ |- _ => injection H as <- <- end. unfold valid, is_set. cbn. split_and!.
    + apply NoDup_app in Hn as (_ & Hn & _). rewrite elem_of_app, list_elem_of_filter. naive_solver.
    + destruct (_valid e); naive_solver.
    + intros b Hb. destruct (_valid e) eqn:Ev; [|done]. injection Hb as <-.
      split; [done|]. intros Ef Hk. apply bool_decide_eq_true.
      eapply (event_run_reason new_event acts e); try done. by intros ? ? ? ?%elem_of_nil.
Qed.

(** A waiter that is set free and then finds the flag cleared gives False without a timeout. *)
Lemma wait_gives_false :
  ∃ e e', event_run new_event [EWait 1; ESet; EClear] e ∧ event_step (EWake 1) e e' (Some (1%nat, false, Ok false)).
Proof.
  exists (clear (set (fst (wait_enter 1 new_event)))). eexists. split.
  - eapply (event_snoc _ [EWait 1; ESet] EClear _ _ None); [|constructor].
    eapply (event_snoc _ [EWait 1] ESet _ _ None); [|constructor].
    eapply (event_snoc _ [] (EWait 1) new_event _ None); [constructor|].
    eapply (step_wait 1 new_event _ None); [by intros ?%elem_of_nil|reflexivity].
  - eapply (step_wake 1); [by left|reflexivity].
Qed.

(** Thread 1 sleeps, its timeout expires and it is told so; then the event is set. *)
Lemma validating_event_witness :
  ∃ e, event_run new_event [EWait 1; EExpire 1] e ∧ NoDup (sleeping e ++ notified e)
    ∧ ∃ e', event_step (EWake 1) e e' (Some (1%nat, true, Ok false)).
Proof.
  eexists (wait_expire 1 (fst (wait_enter 1 new_event))).
  assert (H : event_run new_event [EWait 1; EExpire 1] (wait_expire 1 (fst (wait_enter 1 new_event)))).
  { eapply (event_snoc _ [EWait 1] (EExpire 1)); [|constructor; by left].
    eapply (event_snoc _ [] (EWait 1) new_event _ None); [constructor|].
    eapply (step_wait 1 new_event _ None); [by intros ?%elem_of_nil|reflexivity]. }
  split; [exact H|]. split; [exact (proj1 (proj2 (validating_event _ _ H)))|].
  eexists. eapply (step_wake 1); [by left|reflexivity].
Defined.

(** ** Barrier *)

Inductive barrier_state := FILLING | DRAINING.

#[export] Instance barrier_state_eq_dec : EqDecision barrier_state.
Proof. solve_decision. Defined.

(** A thread in [_wait_for_state]: its deadline and whether it was woken. *)
Record waiter := mkWaiter { deadline : option Z; awake : bool }.

(** [entering] are the threads that wait for FILLING, [inside] those that were counted and
    wait for DRAINING; [round] counts the times the barrier was drained and [passed] has the
    threads that left [wait] without an error, with the round of each. *)
Record Barrier := mkBarrier {
  _count : Z;
  _waiting : Z;
  _state : barrier_state;
  entering : gmap nat waiter;
  inside : gmap nat waiter;
  round : nat;
  passed : list (nat * nat);
}.

(** [Barrier.__init__] *)
Definition new_barrier (count : Z) : res exn Barrier :=
  if count <? 1 then Raise ValueError else Ok (mkBarrier count 0 FILLING ∅ ∅ 0 []).

Definition wake (w : waiter) : waiter := mkWaiter (deadline w) true.

(** [_change_state] *)
Definition _change_state (s : barrier_state) (b : Barrier) : Barrier :=
  mkBarrier (_count b) (_waiting b) s (wake <$> entering b) (wake <$> inside b)
    (if decide (_state b = DRAINING ∧ s = FILLING) then S (round b) else round b) (passed b).

Definition set_waiting (n : Z) (b : Barrier) : Barrier :=
  mkBarrier (_count b) n (_state b) (entering b) (inside b) (round b) (passed b).
Definition set_entering (m : gmap nat waiter) (b : Barrier) : Barrier :=
  mkBarrier (_count b) (_waiting b) (_state b) m (inside b) (round b) (passed b).
Definition set_inside (m : gmap nat waiter) (b : Barrier) : Barrier :=
  mkBarrier (_count b) (_waiting b) (_state b) (entering b) m (round b) (passed b).
Definition pass (t : nat) (b : Barrier) : Barrier :=
  mkBarrier (_count b) (_waiting b) (_state b) (entering b) (inside b) (round b) (passed b ++ [(t, round b)]).

(** One turn of [_wait_for_state]: go on, sleep, or raise [Timeout]. *)
Inductive turn := Go | Sleep | TimedOut.

Definition _wait_for_state (state : barrier_state) (d : option Z) (now : Z) (b : Barrier) : turn :=
  if decide (_state b = state) then Go
  else match d with
       | Some d => if d <=? now then TimedOut else Sleep
       | None => Sleep
       end.

(** The [finally] clause of [wait]. *)
Definition leave (b : Barrier) : Barrier :=
  let b := set_waiting (_waiting b - 1) b in
  if _waiting b =? 0 then _change_state FILLING b else b.

(** [wait] from [self._waiting += 1]: a result, or [None] when the thread sleeps. *)
Definition wait_counted (t : nat) (d : option Z) (now : Z) (b : Barrier) : Barrier * option (res exn unit) :=
  let b := set_waiting (_waiting b + 1) b in
  if _waiting b =? _count b then (leave (pass t (_change_state DRAINING b)), Some (Ok ()))
  else match _wait_for_state DRAINING d now b with
       | Go => (leave (pass t b), Some (Ok ()))
       | Sleep => (set_inside (<[t := mkWaiter d false]> (inside b)) b, None)
       | TimedOut => (leave b, Some (Raise Timeout))
       end.

(** [wait] from its start, and when a thread wakes up in its first loop. *)
Definition wait_filling (t : nat) (d : option Z) (now : Z) (b : Barrier) : Barrier * option (res exn unit) :=
  match _wait_for_state FILLING d now b with
  | Go => wait_counted t d now b
  | Sleep => (set_entering (<[t := mkWaiter d false]> (entering b)) b, None)
  | TimedOut => (b, Some (Raise Timeout))
  end.

(** [wait]: [now] is the clock at the call, [now'] in the loops. *)
Definition wait (t : nat) (timeout : option Z) (now now' : Z) (b : Barrier) : Barrier * option (res exn unit) :=
  wait_filling t ((fun s => now + s) <$> timeout) now' b.

(** A thread wakes up in the first and in the second loop. *)
Definition wake_entering (t : nat) (w : waiter) (now : Z) (b : Barrier) : Barrier * option (res exn unit) :=
  wait_filling t (deadline w) now (set_entering (delete t (entering b)) b).

Definition wake_inside (t : nat) (w : waiter) (now : Z) (b : Barrier) : Barrier * option (res exn unit) :=
  let b := set_inside (delete t (inside b)) b in
  match _wait_for_state DRAINING (deadline w) now b with
  | Go => (leave (pass t b), Some (Ok ()))
  | Sleep => (set_inside (<[t := mkWaiter (deadline w) false]> (inside b)) b, None)
  | TimedOut => (leave b, Some (Raise Timeout))
  end.

Inductive barrier_step : Barrier → Barrier → option (nat * res exn unit) → Prop :=
| barrier_wait t timeout now now' b b' r :
    entering b !! t = None → inside b !! t = None → wait t timeout now now' b = (b', r) →
    barrier_step b b' ((fun r => (t, r)) <$> r)
| barrier_wake_entering t w now b b' r :
    entering b !! t = Some w → wake_entering t w now b = (b', r) → barrier_step b b' ((fun r => (t, r)) <$> r)
| barrier_wake_inside t w now b b' r :
    inside b !! t = Some w → wake_inside t w now b = (b', r) → barrier_step b b' ((fun r => (t, r)) <$> r).

Inductive barrier_reach (count : Z) : Barrier → Prop :=
| barrier_init b : new_barrier count = Ok b → barrier_reach count b
| barrier_next b b' o : barrier_reach count b → barrier_step b b' o → barrier_reach count b'.

(** The passes of a round. *)
Definition passes (r : nat) (l : list (nat * nat)) : Z := zlen (filter (fun p => snd p = r) l).

Definition barrier_inv (count : Z) (b : Barrier) : Prop :=
  _count b = count ∧ 1 <= count
  ∧ _waiting b = Z.of_nat (size (inside b))
  ∧ _waiting b < count ∧ (_state b = DRAINING → 0 < _waiting b)
  ∧ (∀ r, (r < round b)%nat → passes r (passed b) = count)
  ∧ passes (round b) (passed b) = (if decide (_state b = DRAINING) then count - _waiting b else 0)
  ∧ (∀ t r, (t, r) ∈ passed b → (r <= round b)%nat ∧ (r = round b → inside b !! t = None))
  ∧ NoDup (passed b)
  ∧ (∀ t w, entering b !! t = Some w → awake w = false → _state b = DRAINING)
  ∧ (∀ t w, inside b !! t = Some w → awake w = false → _state b = FILLING)
  ∧ (∀ t w, entering b !! t = Some w → inside b !! t = None).

(** The state while a counted thread [t] holds the lock. *)
Definition barrier_mid (count : Z) (t : nat) (b : Barrier) : Prop :=
  _count b = count ∧ 1 <= count
  ∧ _waiting b = Z.of_nat (size (inside b)) + 1 ∧ _waiting b <= count
  ∧ (∀ r, (r < round b)%nat → passes r (passed b) = count)
  ∧ passes (round b) (passed b) = (if decide (_state b = DRAINING) then count - _waiting b else 0)
  ∧ (∀ t r, (t, r) ∈ passed b → (r <= round b)%nat ∧ (r = round b → inside b !! t = None))
  ∧ NoDup (passed b) ∧ (t, round b) ∉ passed b
  ∧ (∀ t w, entering b !! t = Some w → awake w = false → _state b = DRAINING)
  ∧ (∀ t w, inside b !! t = Some w → awake w = false → _state b = FILLING)
  ∧ (∀ t w, entering b !! t = Some w → inside b !! t = None)
  ∧ entering b !! t = None ∧ inside b !! t = None.

Lemma passes_snoc r p l : passes r (l ++ [p]) = passes r l + (if decide (snd p = r) then 1 else 0).
Proof.
  unfold passes. rewrite filter_app. rewrite zlen_app. f_equal. cbn.
  by case_decide.
Qed.

Lemma passes_zero r l : passes r l = 0 → ∀ t, (t, r) ∉ l.
Proof.
  unfold passes. intros Hz t Hin.
  assert (H : (t, r) ∈ filter (fun p => snd p = r) l) by (by apply list_elem_of_filter).
  destruct (filter _ l); [by apply elem_of_nil in H|]. cbn in Hz. unfold zlen in Hz. cbn in Hz. lia.
Qed.

Lemma passes_later r l : (∀ t s, (t, s) ∈ l → (s < r)%nat) → passes r l = 0.
Proof.
  intros H. unfold passes. destruct (filter _ l) as [|[t s] k] eqn:E; [done|].
  assert (Hin : (t, s) ∈ filter (fun p => snd p = r) l) by (rewrite E; by left).
  apply list_elem_of_filter in Hin as [<- Hin]. apply H in Hin. cbn in Hin. lia.
Qed.

Lemma lookup_wake_None (m : gmap nat waiter) t : (wake <$> m) !! t = None ↔ m !! t = None.
Proof. by rewrite lookup_fmap, fmap_None. Qed.

Lemma lookup_wake_Some (m : gmap nat waiter) t w : (wake <$> m) !! t = Some w → awake w = true ∧ is_Some (m !! t).
Proof. rewrite lookup_fmap. intros (w' & -> & ->)%fmap_Some. split; [done|by eexists]. Qed.

Lemma mid_count count t b :
  barrier_inv count b → _state b = FILLING → entering b !! t = None → inside b !! t = None →
  barrier_mid count t (set_waiting (_waiting b + 1) b).
Proof.
  intros (H1 & H2 & H3 & H4 & H5 & H6 & H7 & H8 & H9 & H10 & H11 & H12) Hs He Hi.
  rewrite Hs in *. unfold barrier_mid; cbn. rewrite Hs.
  split_and!; try done; try lia. by apply passes_zero.
Qed.

Lemma mid_inside count t w b :
  barrier_inv count b → inside b !! t = Some w → barrier_mid count t (set_inside (delete t (inside b)) b).
Proof.
  intros (H1 & H2 & H3 & H4 & H5 & H6 & H7 & H8 & H9 & H10 & H11 & H12) Hi.
  assert (Hsz : size (inside b) = S (size (delete t (inside b)))).
  { rewrite map_size_delete_Some by eauto. assert (size (inside b) ≠ 0)%nat; [|lia].
    rewrite map_size_empty_iff. intros E. by rewrite E in Hi. }
  split_and!; cbn; try done; try lia.
  - intros u r Hu. destruct (H8 _ _ Hu) as [? Hn]. split; [done|]. intros Hr.
    rewrite lookup_delete_None. auto.
  - intros Hin. destruct (H8 _ _ Hin) as [_ Hn]. rewrite Hn in Hi; done.
  - intros u w' [_ Hu]%lookup_delete_Some. eauto.
  - intros u w' Hu. rewrite lookup_delete_None. eauto.
  - destruct (entering b !! t) eqn:E; [|done]. rewrite (H12 _ _ E) in Hi. done.
  - apply lookup_delete_eq.
Qed.

Lemma mid_drain count t b :
  barrier_mid count t b → _state b = FILLING → _waiting b = count → barrier_mid count t (_change_state DRAINING b).
Proof.
  intros (H1 & H2 & H3 & H4 & H5 & H6 & H7 & H8 & H9 & H10 & H11 & H12 & H13 & H14) Hs Hw.
  rewrite Hs in *. unfold barrier_mid, _change_state; cbn. rewrite Hs.
  rewrite (decide_False (P := FILLING = DRAINING ∧ _)) by naive_solver.
  rewrite map_size_fmap. rewrite decide_True by done. rewrite decide_False in H6 by done.
  split_and!; try done; try lia.
  - intros u r Hu. rewrite lookup_wake_None. auto.
  - intros u w [Hu _]%lookup_wake_Some. congruence.
  - intros u w [_ [w' Hu]]%lookup_wake_Some. rewrite lookup_wake_None. eauto.
  - by rewrite lookup_wake_None.
  - by rewrite lookup_wake_None.
Qed.

Lemma mid_sleep count t d b :
  barrier_mid count t b → _state b = FILLING → _waiting b < count →
  barrier_inv count (set_inside (<[t := mkWaiter d false]> (inside b)) b).
Proof.
  intros (H1 & H2 & H3 & H4 & H5 & H6 & H7 & H8 & H9 & H10 & H11 & H12 & H13 & H14) Hs Hw.
  rewrite Hs in *. unfold barrier_inv; cbn. rewrite Hs, map_size_insert_None by done.
  split_and!; try done; try lia.
  - intros u r Hu. destruct (H7 _ _ Hu) as [? Hn]. split; [done|]. intros ->.
    by apply passes_zero in Hu.
  - intros u w Hu. destruct (decide (t = u)) as [->|]; [congruence|].
    rewrite lookup_insert_ne by done. eauto.
Qed.

(** A thread leaves without an error while the barrier is drained; the last one ends the
    round. *)
Lemma leave_pass count t b :
  barrier_mid count t b → _state b = DRAINING → barrier_inv count (leave (pass t b)).
Proof.
  intros (H1 & H2 & H3 & H4 & H5 & H6 & H7 & H8 & H9 & H10 & H11 & H12 & H13 & H14) Hs.
  rewrite Hs in *. rewrite decide_True in H6 by done.
  assert (Hnd : NoDup (passed b ++ [(t, round b)])).
  { apply NoDup_app. split_and!; [done| |apply NoDup_singleton].
    intros p Hp ->%list_elem_of_singleton. done. }
  assert (Hold : ∀ r, (r < round b)%nat → passes r (passed b ++ [(t, round b)]) = count).
  { intros r Hr. rewrite passes_snoc. cbn. rewrite decide_False by lia. rewrite H5 by done. lia. }
  assert (Hnew : passes (round b) (passed b ++ [(t, round b)]) = count - _waiting b + 1).
  { rewrite passes_snoc. cbn. rewrite decide_True by done. lia. }
  assert (Hp : ∀ u r, (u, r) ∈ passed b ++ [(t, round b)] → (r <= round b)%nat ∧ (r = round b → inside b !! u = None)).
  { intros u r [Hu|[= -> ->]%list_elem_of_singleton]%elem_of_app; auto. }
  unfold leave. cbn. destruct (Z.eqb_spec (_waiting b - 1) 0) as [E|E].
  - unfold barrier_inv, _change_state; cbn. rewrite Hs, map_size_fmap.
    rewrite (decide_True (P := _ ∧ _)) by done. rewrite (decide_False (P := FILLING = DRAINING)) by done.
    split_and!; try done; try lia.
    + intros r Hr. destruct (decide (r = round b)) as [->|]; [lia|]. apply Hold. lia.
    + apply passes_later. intros u r Hu. apply Hp in Hu. lia.
    + intros u r Hu. apply Hp in Hu as [Hu _]. split; lia.
    + intros u w [Hu _]%lookup_wake_Some. congruence.
    + intros u w [_ [w' Hu]]%lookup_wake_Some. rewrite lookup_wake_None. eauto.
  - unfold barrier_inv; cbn. rewrite Hs, decide_True by done. split_and!; try done; lia.
Qed.

Lemma leave_timeout count t b :
  barrier_mid count t b → _state b = FILLING → _waiting b < count + 1 → barrier_inv count (leave b).
Proof.
  intros (H1 & H2 & H3 & H4 & H5 & H6 & H7 & H8 & H9 & H10 & H11 & H12 & H13 & H14) Hs Hw.
  rewrite Hs in *. rewrite decide_False in H6 by done.
  unfold leave. cbn. destruct (Z.eqb_spec (_waiting b - 1) 0) as [E|E].
  - unfold barrier_inv, _change_state; cbn. rewrite Hs, map_size_fmap.
    rewrite (decide_False (P := _ ∧ _)) by naive_solver. rewrite (decide_False (P := FILLING = DRAINING)) by done.
    split_and!; try done; try lia.
    + intros u r Hu. rewrite lookup_wake_None. auto.
    + intros u w [Hu _]%lookup_wake_Some. congruence.
    + intros u w [_ [w' Hu]]%lookup_wake_Some. rewrite lookup_wake_None. eauto.
  - unfold barrier_inv; cbn. rewrite Hs, decide_False by done. split_and!; try done; lia.
Qed.

Lemma wait_for_state_go s d now b : _wait_for_state s d now b = Go ↔ _state b = s.
Proof. unfold _wait_for_state. case_decide; [done|]. split; [|done]. destruct d as [d|]; [destruct (d <=? now)|]; done. Qed.

Lemma barrier_neq b s : _state b ≠ s → _state b = match s with FILLING => DRAINING | DRAINING => FILLING end.
Proof. destruct (_state b), s; done. Qed.

Lemma wait_counted_inv count t d now b b' r :
  barrier_inv count b → _state b = FILLING → entering b !! t = None → inside b !! t = None →
  wait_counted t d now b = (b', r) → barrier_inv count b'.
Proof.
  intros Hinv Hs He Hi. pose proof (mid_count _ _ _ Hinv Hs He Hi) as Hmid.
  pose proof Hmid as (Hc & _ & _ & Hle & _). unfold wait_counted.
  set (b1 := set_waiting (_waiting b + 1) b) in *. assert (Hs1 : _state b1 = FILLING) by done.
  destruct (Z.eqb_spec (_waiting b1) (_count b1)) as [E|E].
  - intros [= <- _]. apply leave_pass; [|done]. apply mid_drain; [done|done|lia].
  - destruct (_wait_for_state DRAINING d now b1) eqn:Ew; intros [= <- _].
    + apply wait_for_state_go in Ew. congruence.
    + apply (mid_sleep count t d b1); [done|done|lia].
    + apply (leave_timeout count t b1); [done|done|lia].
Qed.

Lemma set_entering_inv count m b :
  barrier_inv count b → (∀ t w, m !! t = Some w → (awake w = false → _state b = DRAINING) ∧ inside b !! t = None) →
  barrier_inv count (set_entering m b).
Proof.
  intros (H1 & H2 & H3 & H4 & H5 & H6 & H7 & H8 & H9 & H10 & H11 & H12) Hm.
  split_and!; cbn; try done; intros u w Hu; by apply Hm in Hu as [??].
Qed.

Lemma wait_filling_inv count t d now b b' r :
  barrier_inv count b → entering b !! t = None → inside b !! t = None →
  wait_filling t d now b = (b', r) → barrier_inv count b'.
Proof.
  intros Hinv He Hi. unfold wait_filling. destruct (_wait_for_state FILLING d now b) eqn:Ew.
  - apply wait_for_state_go in Ew. by apply wait_counted_inv.
  - intros [= <- _]. apply set_entering_inv; [done|]. pose proof Hinv as (_ & _ & _ & _ & _ & _ & _ & _ & _ & H10 & _ & H12).
    intros u w [[<- <-]|[Hne Hu]]%lookup_insert_Some; [|eauto].
    split; [|done]. intros _. apply (barrier_neq b FILLING).
    rewrite <-(wait_for_state_go _ d now). by rewrite Ew.
  - by intros [= <- _].
Qed.

Lemma barrier_step_inv count b b' o : barrier_inv count b → barrier_step b b' o → barrier_inv count b'.
Proof.
  intros Hinv Hstep. pose proof Hinv as (_ & _ & _ & _ & _ & _ & _ & _ & _ & H10 & _ & H12).
  destruct Hstep as [t ? ? ? b b' r He Hi Hw|t w now b b' r He Hw|t w now b b' r Hi Hw].
  - eapply wait_filling_inv; eauto.
  - eapply wait_filling_inv in Hw; [done| |apply lookup_delete_eq|cbn; eauto].
    apply set_entering_inv; [done|]. intros u w' [_ Hu]%lookup_delete_Some. eauto.
  - pose proof (mid_inside _ _ _ _ Hinv Hi) as Hmid. unfold wake_inside in Hw.
    set (b1 := set_inside (delete t (inside b)) b) in *.
    assert (Hlt : _waiting b1 < count) by (by destruct Hinv as (_ & _ & _ & ? & _)).
    destruct (_wait_for_state DRAINING (deadline w) now b1) eqn:Ew; injection Hw as <- _.
    + apply wait_for_state_go in Ew. by apply leave_pass.
    + apply (mid_sleep count t (deadline w) b1); [done| |lia]. apply (barrier_neq b1 DRAINING).
      rewrite <-(wait_for_state_go _ (deadline w) now). by rewrite Ew.
    + apply (leave_timeout count t b1); [done| |lia]. apply (barrier_neq b1 DRAINING).
      rewrite <-(wait_for_state_go _ (deadline w) now). by rewrite Ew.
Qed.

Lemma barrier_reach_inv count b : barrier_reach count b → barrier_inv count b.
Proof.
  induction 1 as [b Hb|b b' o _ IH Hstep]; [|by eapply barrier_step_inv].
  unfold new_barrier in Hb. destruct (Z.ltb_spec count 1); [done|]. injection Hb as <-.
  split_and!; cbn; try done; try lia; try set_solver; constructor.
Qed.

(** the threads of a [Barrier] pass it in rounds of exactly [_count], whatever the
    interleaving and the timeouts: [_waiting] counts the threads inside and stays below
    [_count]; every round that was drained let [_count] different threads pass, and the one
    being drained as many as have left it; nobody sleeps once the state it waits for has come;
    and a thread inside a draining barrier passes however late its deadline is checked. *)
Theorem barrier_rounds count b :
  barrier_reach count b →
  _waiting b = Z.of_nat (size (inside b)) ∧ _waiting b < count
  ∧ (∀ r, (r < round b)%nat → passes r (passed b) = count)
  ∧ passes (round b) (passed b) = (if decide (_state b = DRAINING) then count - _waiting b else 0)
  ∧ NoDup (passed b)
  ∧ (∀ t w, entering b !! t = Some w → awake w = false → _state b = DRAINING)
  ∧ (∀ t w, inside b !! t = Some w → awake w = false → _state b = FILLING)
  ∧ (∀ t w now, inside b !! t = Some w → _state b = DRAINING → snd (wake_inside t w now b) = Some (Ok ())).
Proof.
  intros H%barrier_reach_inv. pose proof H as (H1 & H2 & H3 & H4 & H5 & H6 & H7 & H8 & H9 & H10 & H11 & H12).
  split_and!; try done. intros t w now Hi Hs. unfold wake_inside, _wait_for_state. cbn.
  by rewrite decide_True.
Qed.

(** Threads 1 and 2 meet, then thread 1 waits for the next round. *)
Definition barrier_run : Barrier :=
  fst (wait 1 (Some 5) 20 20 (fst (wake_inside 1 (mkWaiter (Some 15) true) 30
    (fst (wait 2 None 12 12 (fst (wait 1 (Some 5) 10 10 (mkBarrier 2 0 FILLING ∅ ∅ 0 [])))))))).

Lemma reach_wait count t timeout now now' b :
  barrier_reach count b → entering b !! t = None → inside b !! t = None →
  barrier_reach count (fst (wait t timeout now now' b)).
Proof. intros. eapply barrier_next; [done|]. eapply barrier_wait; [done..|apply surjective_pairing]. Qed.

Lemma reach_wake_inside count t w now b :
  barrier_reach count b → inside b !! t = Some w → barrier_reach count (fst (wake_inside t w now b)).
Proof. intros. eapply barrier_next; [done|]. eapply barrier_wake_inside; [done|apply surjective_pairing]. Qed.

Lemma barrier_run_reach : barrier_reach 2 barrier_run.
Proof.
  apply reach_wait; [|reflexivity..]. apply reach_wake_inside; [|reflexivity].
  do 2 (apply reach_wait; [|reflexivity..]). by constructor.
Qed.

Lemma barrier_rounds_witness :
  passed barrier_run = [(2, 0); (1, 0)]%nat ∧ round barrier_run = 1%nat ∧ _waiting barrier_run = 1
  ∧ passes 0 (passed barrier_run) = 2.
Proof.
  split; [reflexivity|]. split; [reflexivity|]. split; [reflexivity|].
  apply (proj1 (proj2 (proj2 (barrier_rounds 2 barrier_run barrier_run_reach))) 0%nat). vm_compute. lia.
Defined.

(** A thread times out and the others of its stage still pass: of three threads, 1 gives up
    and 2, 3 and 4 meet. *)
Lemma timeout_spares_the_stage :
  let b := fst (wait 2 None 10 10 (fst (wait 1 (Some 5) 10 10 (mkBarrier 3 0 FILLING ∅ ∅ 0 [])))) in
  let '(b1, r1) := wake_inside 1 (mkWaiter (Some 15) true) 15 b in
  let b2 := fst (wait 4 None 16 16 (fst (wait 3 None 16 16 b1))) in
  r1 = Some (Raise Timeout) ∧ snd (wake_inside 2 (mkWaiter None true) 17 b2) = Some (Ok ()).
Proof. split; reflexivity. Qed.

(** ** tmap *)

Section tmap.
Context {V R E : Type}.

(** What [func] does with a value; [Killed] is an exception that is not an [Exception], such
    as SystemExit, which ends the thread of the worker. *)
Inductive outcome := Returned (r : R) | Raised (e : E) | Killed.

(** [Result(succeeded, value)] *)
Inductive Result := Succeeded (r : R) | Failed (e : E).

Inductive worker := Looping | Working (value : V) | Finished.

Record tmap_state := mkTmap {
  pending : list V;
  results : list Result;
  workers : list worker;
  yielded : list Result;
  left_ : nat;
}.

Context (func : V → outcome).

(** [tmap] up to its first [yield] *)
Definition tmap (values : list V) (max_workers : Z) : res exn tmap_state :=
  if max_workers <? 1 then Raise ValueError
  else
    let count := length values in
    let workers_needed := Z.to_nat (Z.min (Z.of_nat count) max_workers) in
    Ok (mkTmap values [] (replicate workers_needed Looping) [] count).

Definition result_of (o : outcome) : option Result :=
  match o with Returned r => Some (Succeeded r) | Raised e => Some (Failed e) | Killed => None end.

(** A step of [worker]: take a value, or put the result of the one it has. *)
Definition worker_step (i : nat) (s : tmap_state) : option tmap_state :=
  w ← workers s !! i;
  match w with
  | Looping =>
      match pending s with
      | [] => Some (mkTmap [] (results s) (<[i := Finished]> (workers s)) (yielded s) (left_ s))
      | value :: rest => Some (mkTmap rest (results s) (<[i := Working value]> (workers s)) (yielded s) (left_ s))
      end
  | Working value =>
      match result_of (func value) with
      | Some r => Some (mkTmap (pending s) (results s ++ [r]) (<[i := Looping]> (workers s)) (yielded s) (left_ s))
      | None => Some (mkTmap (pending s) (results s) (<[i := Finished]> (workers s)) (yielded s) (left_ s))
      end
  | Finished => None
  end.

(** [yield results.get()] *)
Definition tmap_yield (s : tmap_state) : option tmap_state :=
  match left_ s, results s with
  | S n, r :: rest => Some (mkTmap (pending s) rest (workers s) (yielded s ++ [r]) n)
  | _, _ => None
  end.

Inductive tmap_step : tmap_state → tmap_state → Prop :=
| step_worker i s s' : worker_step i s = Some s' → tmap_step s s'
| step_yield s s' : tmap_yield s = Some s' → tmap_step s s'.

Definition working (w : worker) : option V := match w with Working v => Some v | _ => None end.
Definition in_work (s : tmap_state) : list V := omap working (workers s).

(** The results of values, for a [func] that is never killed. *)
Definition outcomes (l : list V) : list Result := omap (fun v => result_of (func v)) l.

Definition tmap_inv (values : list V) (s : tmap_state) : Prop :=
  yielded s ++ results s ++ outcomes (in_work s ++ pending s) ≡ₚ outcomes values
  ∧ (∀ v, v ∈ in_work s ++ pending s → v ∈ values)
  ∧ (length (yielded s) + left_ s = length values)%nat
  ∧ (pending s ≠ [] → ∃ i w, workers s !! i = Some w ∧ w ≠ Finished).

(** What is left to do: a bound on the steps. *)
Definition worker_weight (w : worker) : nat := match w with Looping => 1 | Working _ => 3 | Finished => 0 end.
Definition weight (s : tmap_state) : nat :=
  4 * length (pending s) + length (results s) + sum_list_with worker_weight (workers s).

Lemma in_work_insert i w w' l :
  l !! i = Some w →
  omap working (<[i := w']> l) ++ option_list (working w) ≡ₚ omap working l ++ option_list (working w').
Proof.
  intros Hi. pose proof (insert_delete_perm l i w w' Hi) as H1.
  pose proof (insert_delete_perm l i w w Hi) as H2. rewrite (list_insert_id l i w Hi) in H2.
  rewrite H1. generalize dependent (base.delete i l). intros d _ H2. rewrite H2. destruct w, w'; cbn; rewrite ?app_nil_r; try done.
  all: rewrite <-?Permutation_cons_append; try done. by constructor.
Qed.

Lemma weight_insert i w w' l :
  l !! i = Some w →
  (sum_list_with worker_weight (<[i := w']> l) + worker_weight w = sum_list_with worker_weight l + worker_weight w')%nat.
Proof.
  revert i. induction l as [|x l IH]; intros [|i] Hi; simpl in *; try done.
  - injection Hi as ->. lia.
  - rewrite <-!Nat.add_assoc. f_equal. by apply IH.
Qed.

Lemma outcomes_app l k : outcomes (l ++ k) = outcomes l ++ outcomes k.
Proof. apply omap_app. Qed.

Lemma worker_step_inv values i s s' :
  (∀ v, v ∈ values → func v ≠ Killed) →
  tmap_inv values s → worker_step i s = Some s' → tmap_inv values s' ∧ (weight s' < weight s)%nat.
Proof.
  intros Hk (H1 & H2 & H3 & H4). unfold worker_step.
  destruct (workers s !! i) as [w|] eqn:Ew; cbn; [|done].
  destruct w as [|v|]; [destruct (pending s) as [|v rest] eqn:Ep| |]; [| | |done].
  - intros [= <-]. pose proof (in_work_insert i Looping Finished _ Ew) as Hw.
    pose proof (weight_insert i Looping Finished _ Ew) as Hwt.
    cbn in Hw. rewrite !app_nil_r in Hw. split; [|unfold weight; cbn in *; lia].
    unfold tmap_inv, in_work in *; cbn. rewrite Hw. split_and!; try done.
    intros v Hv. apply H2. by rewrite <-Hw.
  - intros [= <-]. pose proof (in_work_insert i Looping (Working v) _ Ew) as Hw.
    pose proof (weight_insert i Looping (Working v) _ Ew) as Hwt.
    cbn in Hw. rewrite app_nil_r in Hw. split; [|unfold weight; rewrite ?Ep; cbn in *; lia].
    assert (Hp : omap working (<[i := Working v]> (workers s)) ++ rest ≡ₚ in_work s ++ v :: rest).
    { rewrite Hw, <-app_assoc. done. }
    unfold tmap_inv; cbn. split_and!; [| |done|].
    + etrans; [|exact H1]. do 2 f_equiv. unfold outcomes, in_work; cbn. by rewrite Hp.
    + intros u Hu. apply H2. rewrite <-Hp. done.
    + intros _. exists i, (Working v). rewrite list_lookup_insert_eq; [done|]. by eapply lookup_lt_Some.
  - assert (Hv : v ∈ values).
    { apply H2, elem_of_app. left. apply list_elem_of_omap. exists (Working v). split; [|done]. by eapply list_elem_of_lookup_2. }
    destruct (result_of (func v)) as [r|] eqn:Er; [|destruct (func v) eqn:Ef; try done; by apply Hk in Hv].
    intros [= <-]. pose proof (in_work_insert i (Working v) Looping _ Ew) as Hw.
    pose proof (weight_insert i (Working v) Looping _ Ew) as Hwt.
    cbn in Hw. rewrite app_nil_r in Hw. split; [|unfold weight; cbn in *; rewrite length_app; cbn; lia].
    unfold tmap_inv; cbn. split_and!; [| |done|].
    + etrans; [|exact H1]. rewrite <-app_assoc. do 2 f_equiv. rewrite !outcomes_app. unfold in_work, outcomes; cbn.
      rewrite <-Hw, omap_app. cbn. rewrite Er. rewrite <-app_assoc. by apply Permutation_middle.
    + intros u Hu. apply H2. unfold in_work. rewrite <-Hw. set_solver.
    + intros Hp. destruct (H4 Hp) as (j & w & Hj & Hw'). exists i, Looping.
      rewrite list_lookup_insert_eq; [done|]. by eapply lookup_lt_Some.
Qed.

Lemma tmap_step_inv values s s' :
  (∀ v, v ∈ values → func v ≠ Killed) →
  tmap_inv values s → tmap_step s s' → tmap_inv values s' ∧ (weight s' < weight s)%nat.
Proof.
  intros Hk Hinv Hstep. destruct Hstep as [i s s' Hs|s s' Hs]; [by eapply worker_step_inv|].
  destruct Hinv as (H1 & H2 & H3 & H4). unfold tmap_yield in Hs.
  destruct (left_ s) as [|n] eqn:En; [done|]. destruct (results s) as [|r rest] eqn:Er; [done|].
  injection Hs as <-. split; [|unfold weight; cbn; rewrite Er; cbn; lia].
  unfold tmap_inv; cbn. split_and!; try done.
  - etrans; [|exact H1]. rewrite <-app_assoc. done.
  - rewrite length_app. cbn. lia.
Qed.

Lemma tmap_init_inv values max_workers s : tmap values max_workers = Ok s → tmap_inv values s.
Proof.
  unfold tmap. destruct (Z.ltb_spec max_workers 1); [done|]. intros [= <-].
  assert (Hw : ∀ n, omap working (replicate n Looping) = []) by (induction n; done).
  unfold tmap_inv, in_work; cbn. rewrite Hw. split_and!; try done.
  intros Hne. exists 0%nat, Looping. split; [|done]. apply lookup_replicate. split; [done|].
  destruct values; [done|]. cbn. lia.
Qed.

(** A value that is not yielded yet can be worked on. *)
Lemma tmap_progress values s :
  (∀ v, v ∈ values → func v ≠ Killed) → tmap_inv values s → (0 < left_ s)%nat → ∃ s', tmap_step s s'.
Proof.
  intros Hk (H1 & H2 & H3 & H4) Hl.
  assert (Hs : ∀ i w, workers s !! i = Some w → w ≠ Finished → ∃ s', tmap_step s s').
  { intros i w Hi Hw. destruct (worker_step i s) as [s'|] eqn:Es; [exists s'; by eapply step_worker|].
    exfalso. revert Es. unfold worker_step. rewrite Hi. cbn. destruct w; [|destruct (result_of _)|]; try done.
    by destruct (pending s). }
  destruct (results s) as [|r rest] eqn:Er.
  - destruct (pending s) as [|v p] eqn:Ep; [|destruct H4 as (i & w & ? & ?); [done|]; eauto].
    destruct (in_work s) as [|v l] eqn:Ei.
    + exfalso. cbn in H1. rewrite app_nil_r in H1. apply Permutation_length in H1.
      assert (Hlen : ∀ l, (∀ v, v ∈ l → func v ≠ Killed) → length (outcomes l) = length l).
      { clear. induction l as [|v l IH]; intros H; [done|]. cbn. specialize (H v) as Hv.
        destruct (func v); cbn; try (f_equal; apply IH; intros u Hu; apply H; by right).
        exfalso. apply Hv; [by left|done]. }
      rewrite Hlen in H1 by done. lia.
    + assert (Hin : v ∈ in_work s) by (rewrite Ei; by left). unfold in_work in Hin.
      apply list_elem_of_omap in Hin as (w & Hw & Hwv). apply list_elem_of_lookup_1 in Hw as [i Hi].
      apply (Hs i w Hi). by intros ->.
  - destruct (left_ s) as [|n] eqn:En; [lia|]. eexists. eapply step_yield. unfold tmap_yield. by rewrite En, Er.
Qed.

Lemma tmap_step_workers s s' : tmap_step s s' → length (workers s') = length (workers s).
Proof.
  intros [i s1 s1' Hs|s1 s1' Hs].
  - unfold worker_step in Hs. destruct (workers s1 !! i) as [[|v|]|]; cbn in Hs; try done.
    + destruct (pending s1); simplify_eq; cbn; by rewrite length_insert.
    + destruct (result_of (func v)); simplify_eq; cbn; by rewrite length_insert.
  - unfold tmap_yield in Hs. destruct (left_ s1); [done|]. by destruct (results s1); simplify_eq.
Qed.

Lemma tmap_run_inv values n s0 s :
  (∀ v, v ∈ values → func v ≠ Killed) → tmap_inv values s0 → nsteps tmap_step n s0 s →
  tmap_inv values s ∧ (n + weight s <= weight s0)%nat ∧ length (workers s) = length (workers s0).
Proof.
  intros Hk Hinv Hrun. induction Hrun as [s0|n s0 s1 s Hs _ IH]; [split_and!; [done|lia|done]|].
  destruct (tmap_step_inv _ _ _ Hk Hinv Hs) as [H1 Hw]. destruct (IH H1) as (H2 & H3 & H4).
  rewrite <-(tmap_step_workers _ _ Hs). split_and!; [done|lia|done].
Qed.

Lemma length_omap_le l : (length (outcomes l) <= length l)%nat.
Proof. induction l as [|v l IH]; cbn; [done|]. destruct (result_of (func v)); cbn; unfold outcomes in *; lia. Qed.

(** [tmap] yields the result of [func] for every value, each once and nothing else, for any
    number of workers and any interleaving, when no call of [func] ends its thread: what was
    yielded, what waits in the queue and what is still to be computed are together the
    results of the values; the workers are no more than [max_workers] and no more than the
    values; while a value is missing some thread can go on; and the run ends within [weight] steps,
    so the iterator has then given a permutation of the results. *)
Theorem tmap_yields_all values max_workers s0 n s :
  tmap values max_workers = Ok s0 → (∀ v, v ∈ values → func v ≠ Killed) → nsteps tmap_step n s0 s →
  yielded s ++ results s ++ outcomes (in_work s ++ pending s) ≡ₚ outcomes values
  ∧ Z.of_nat (length (workers s)) <= max_workers ∧ (length (workers s) <= length values)%nat
  ∧ (n + weight s <= weight s0)%nat
  ∧ ((0 < left_ s)%nat → ∃ s', tmap_step s s')
  ∧ (left_ s = 0%nat → yielded s ≡ₚ outcomes values).
Proof.
  intros Hi Hk Hrun. pose proof (tmap_init_inv _ _ _ Hi) as H0.
  destruct (tmap_run_inv _ _ _ _ Hk H0 Hrun) as ((H1 & H2 & H3 & H4) & Hw & Hl).
  assert (Hlen : Z.of_nat (length (workers s0)) <= max_workers ∧ (length (workers s0) <= length values)%nat).
  { unfold tmap in Hi. destruct (Z.ltb_spec max_workers 1); [done|]. injection Hi as <-. cbn.
    rewrite length_replicate. lia. }
  split_and!; [done|lia|lia|done| |].
  - apply (tmap_progress values); [done|by split_and!].
  - intros Hz. apply Permutation_length in H1 as Hlen1. rewrite !length_app in Hlen1.
    assert (length (outcomes values) <= length values)%nat by apply length_omap_le.
    destruct (results s ++ outcomes (in_work s ++ pending s)) as [|r l] eqn:Er.
    + by rewrite app_nil_r in H1.
    + apply (f_equal length) in Er. rewrite length_app in Er. cbn in Er. lia.
Qed.
End tmap.

Definition half (n : Z) : outcome (R := Z) (E := text) :=
  if n mod 2 =? 0 then Returned (n / 2) else Raised (str "odd"%string).

Definition tmap_run : option tmap_state :=
  s ← match tmap (V := Z) (R := Z) (E := text) [4; 5; 6] 2 with Ok s => Some s | Raise _ => None end;
  s ← worker_step half 0 s; s ← worker_step half 1 s; s ← worker_step half 1 s; s ← tmap_yield s;
  s ← worker_step half 0 s; s ← worker_step half 1 s; s ← tmap_yield s; s ← worker_step half 1 s; tmap_yield s.

Ltac tmap_w i := eapply nsteps_l; [apply (step_worker half i); vm_compute; reflexivity|].
Ltac tmap_y := eapply nsteps_l; [apply step_yield; vm_compute; reflexivity|].

Lemma tmap_yields_all_witness :
  ∃ s, tmap_run = Some s ∧ yielded s = [Failed (str "odd"%string); Succeeded 2; Succeeded 3]
    ∧ yielded s ≡ₚ outcomes half [4; 5; 6].
Proof.
  eexists. split; [vm_compute; reflexivity|]. split; [reflexivity|].
  refine (proj2 (proj2 (proj2 (proj2 (proj2 (tmap_yields_all half [4; 5; 6] 2 _ 9 _ eq_refl _ _))))) _); [| |reflexivity].
  - intros v _. unfold half. destruct (v mod 2 =? 0); discriminate.
  - tmap_w 0%nat. tmap_w 1%nat. tmap_w 1%nat. tmap_y. tmap_w 0%nat. tmap_w 1%nat. tmap_y. tmap_w 1%nat. tmap_y. constructor.
Defined.

(** A call that ends its thread leaves the iterator waiting: no step is left and a value was
    not yielded. *)
Lemma tmap_killed :
  ∃ s0 s, tmap (V := Z) (R := Z) (E := text) [4] 2 = Ok s0 ∧ nsteps (tmap_step (fun _ => Killed)) 2 s0 s
    ∧ left_ s = 1%nat ∧ ∀ s', ¬ tmap_step (fun _ => Killed) s s'.
Proof.
  eexists _, (mkTmap [] [] [Finished] [] 1). split; [reflexivity|]. split_and!; [|done|].
  - do 2 (eapply nsteps_l; [apply (step_worker _ 0); reflexivity|]). constructor.
  - intros s' Hs. inversion Hs as [i ? ? Hw|? ? Hy]; subst; [|done].
    destruct i as [|[|i]]; done.
Qed.
