(* ===== verification/ClusterLock.v ===== *)
(** * Cluster locks: [storage/clusterlock.py]

    [SANLock], [LocalLock], [SafeLease] and [alignment].  The sanlock daemon is the class
    [Sanlock]: its calls on an abstract world, that answer or raise SanlockException with an
    errno.  The kernel behind [LocalLock] is its descriptor table and the flocks of the files. *)
From Stdlib Require Import ZArith Lia.
From stdpp Require Import base gmap list strings.
From S2P Require Import Prelude Concurrent.
Open Scope Z_scope.

Definition ENOENT := 2.
Definition EBADF := 9.
Definition EAGAIN := 11.
Definition EACCES := 13.
Definition EEXIST := 17.
Definition EPIPE := 32.
Definition EINPROGRESS := 115.

Definition MAX_HOST_ID := 250.

Inductive host_status :=
| HOST_STATUS_UNAVAILABLE | HOST_STATUS_UNKNOWN | HOST_STATUS_FREE
| HOST_STATUS_LIVE | HOST_STATUS_FAIL | HOST_STATUS_DEAD.

#[export] Instance host_status_eq_dec : EqDecision host_status.
Proof. solve_decision. Defined.

(** [Lease = collections.namedtuple("Lease", "name, path, offset")] *)
Record Lease := mkLease { name : text; path : text; offset : Z }.

#[export] Instance Lease_eq_dec : EqDecision Lease.
Proof. solve_decision. Defined.

(** What the operations raise; [InvalidEvent] is raised by [ValidatingEvent.wait]. *)
Inductive error :=
| MultipleLeasesNotSupported (lease : Lease)
| InvalidLeaseName (resource : bytes) (lease : Lease)
| TemporaryFailure (lease : Lease)
| ClusterLockInitError
| AcquireHostIdFailure
| ReleaseHostIdFailure
| AcquireLockFailure (rc : Z)
| ReleaseLockFailure
| InquireNotSupportedError
| UnsupportedOperation
| InvalidParameterException
| EventError (e : Concurrent.exn)
| SanlockException (errno : Z)
| IOError (errno : Z)
| UnicodeEncodeError
| RuntimeError
| KeyError
| IndexError.

(** [s.encode("utf-8")] *)
Definition encode (s : text) : res error bytes :=
  match utf8_encode s with Some b => Ok b | None => Raise UnicodeEncodeError end.

(** ** The sanlock daemon *)

(** The dicts the daemon answers with. *)
Record host := mkHost { h_flags : Z; h_generation : Z }.
Record resource := mkResource { r_resource : bytes; r_version : Z }.
Record owner := mkOwner { o_host_id : Z; o_generation : Z }.

(** A call: the world after it and an answer or the errno of a SanlockException. *)
Class Sanlock (W : Type) := {
  HOST_UNKNOWN : Z;
  HOST_FREE : Z;
  HOST_LIVE : Z;
  HOST_FAIL : Z;
  HOST_DEAD : Z;
  write_lockspace : bytes → text → Z → Z → Z → W → W * res Z unit;
  write_resource : bytes → bytes → text * Z → Z → Z → W → W * res Z unit;
  (** lockspace, host id, path, io timeout, wait *)
  add_lockspace : bytes → Z → text → Z → bool → W → W * res Z unit;
  (** None while the lockspace is being added or removed *)
  inq_lockspace : bytes → Z → text → bool → W → W * res Z (option bool);
  (** lockspace, host id, path, unused, wait *)
  rem_lockspace : bytes → Z → text → bool → bool → W → W * res Z unit;
  get_hosts : bytes → Z → W → W * res Z (list host);
  register : W → W * res Z Z;
  sanlock_acquire : bytes → bytes → text * Z → Z → option bool → W → W * res Z unit;
  sanlock_release : bytes → bytes → text * Z → option Z → W → W * res Z unit;
  read_resource : text → Z → Z → Z → W → W * res Z resource;
  read_resource_owners : bytes → bytes → text * Z → Z → Z → W → W * res Z (list owner);
}.

(** ** SANLock *)

(** The attributes of an instance that do not change. *)
Record san_config := mkSan {
  _sdUUID : text;
  _idsPath : text;
  _alignment : Z;
  _block_size : Z;
  _io_timeout : Z;
  supports_lvb : bool;
}.

(** The state of an instance, with the descriptor the class shares and the daemon. *)
Record SANLock (W : Type) := mkSANLock {
  world : W;
  _sanlock_fd : option Z;
  _ready : ValidatingEvent;
  _add_lockspace_start : option Z;
}.
Arguments mkSANLock {W}.
Arguments world {W}.
Arguments _sanlock_fd {W}.
Arguments _ready {W}.
Arguments _add_lockspace_start {W}.

Section SANLock.
Context {W : Type} `{!Sanlock W} (self : san_config).

(** [SANLock.__init__] *)
Definition new_SANLock (w : W) (fd : option Z) : SANLock W := mkSANLock w fd new_event None.

Definition set_world (w : W) (s : SANLock W) : SANLock W := mkSANLock w (_sanlock_fd s) (_ready s) (_add_lockspace_start s).
Definition set_fd (fd : option Z) (s : SANLock W) : SANLock W := mkSANLock (world s) fd (_ready s) (_add_lockspace_start s).
Definition set_ready (f : ValidatingEvent → ValidatingEvent) (s : SANLock W) : SANLock W :=
  mkSANLock (world s) (_sanlock_fd s) (f (_ready s)) (_add_lockspace_start s).
Definition set_start (t : option Z) (s : SANLock W) : SANLock W := mkSANLock (world s) (_sanlock_fd s) (_ready s) t.

(** A call of the daemon. *)
Definition call {A} (f : W → W * res Z A) : M (SANLock W) error A := fun s =>
  let '(w, r) := f (world s) in
  (set_world w s, match r with Ok a => Ok a | Raise e => Raise (SanlockException e) end).

(** [try: m except sanlock.SanlockException as e: h(e) else: k] *)
Definition try_sanlock {A B} (m : M (SANLock W) error A) (h : Z → M (SANLock W) error B) (k : A → M (SANLock W) error B) :
    M (SANLock W) error B := fun s =>
  let '(s, r) := m s in
  match r with
  | Ok a => k a s
  | Raise (SanlockException e) => h e s
  | Raise x => (s, Raise x)
  end.

Definition _lockspace_name : M (SANLock W) error bytes := lift (encode (_sdUUID self)).

Definition STATUS_NAME : gmap Z host_status :=
  <[HOST_DEAD := HOST_STATUS_DEAD]> (<[HOST_FAIL := HOST_STATUS_FAIL]> (<[HOST_LIVE := HOST_STATUS_LIVE]>
    (<[HOST_FREE := HOST_STATUS_FREE]> (<[HOST_UNKNOWN := HOST_STATUS_UNKNOWN]> ∅)))).

Definition status_name (flags : Z) : res error host_status :=
  match STATUS_NAME !! flags with Some st => Ok st | None => Raise KeyError end.

Definition initLock (lease : Lease) : M (SANLock W) error unit :=
  resource_name ← lift (encode (name lease));
  try_sanlock
    (ls ← _lockspace_name;
     _ ← call (write_lockspace ls (_idsPath self) (_io_timeout self) (_alignment self) (_block_size self));
     call (write_resource ls resource_name (path lease, offset lease) (_alignment self) (_block_size self)))
    (fun _ => raise ClusterLockInitError)
    (fun _ => mret ()).

Definition getReservedId : Z := MAX_HOST_ID.

Definition _start_add_lockspace (now : Z) : M (SANLock W) error unit :=
  modify (fun s => match _add_lockspace_start s with None => set_start (Some now) s | Some _ => s end).

Definition _cancel_add_lockspace : M (SANLock W) error unit := modify (set_start None).

(** The elapsed time is only logged. *)
Definition _end_add_lockspace : M (SANLock W) error unit :=
  modify (fun s => match _add_lockspace_start s with None => s | Some _ => set_start None s end).

Definition ready_set : M (SANLock W) error unit := modify (set_ready set).

(** [acquireHostId] under [self._lock] *)
Definition acquireHostId_locked (hostId : Z) (wait : bool) (now : Z) : M (SANLock W) error unit :=
  _ ← _start_add_lockspace now;
  try_sanlock
    (ls ← _lockspace_name; call (add_lockspace ls hostId (_idsPath self) (_io_timeout self) wait))
    (fun e =>
       if e =? EINPROGRESS then
         if wait then
           ls ← _lockspace_name;
           r ← call (inq_lockspace ls hostId (_idsPath self) true);
           match r with
           | Some true => _ ← _end_add_lockspace; ready_set
           | _ => raise AcquireHostIdFailure
           end
         else mret ()
       else if e =? EEXIST then _ ← _cancel_add_lockspace; ready_set
       else _ ← _cancel_add_lockspace; raise AcquireHostIdFailure)
    (fun _ => if wait then _ ← _end_add_lockspace; ready_set else mret ()).

(** [acquireHostId] before it takes the lock *)
Definition acquireHostId_begin : M (SANLock W) error unit := modify (set_ready (set_valid true)).

Definition acquireHostId (hostId : Z) (wait : bool) (now : Z) : M (SANLock W) error unit :=
  _ ← acquireHostId_begin;
  acquireHostId_locked hostId wait now.

(** [releaseHostId] under [self._lock] *)
Definition releaseHostId_locked (hostId : Z) (wait unused : bool) : M (SANLock W) error unit :=
  try_sanlock
    (ls ← _lockspace_name; call (rem_lockspace ls hostId (_idsPath self) unused wait))
    (fun e => if negb (e =? ENOENT) then raise ReleaseHostIdFailure else mret ())
    (fun _ => mret ()).

(** [releaseHostId] before it takes the lock *)
Definition releaseHostId_begin : M (SANLock W) error unit := modify (set_ready (set_valid false)).

Definition releaseHostId (hostId : Z) (wait unused : bool) : M (SANLock W) error unit :=
  _ ← releaseHostId_begin;
  releaseHostId_locked hostId wait unused.

Definition hasHostId (hostId : Z) : M (SANLock W) error (option bool) :=
  try_sanlock
    (ls ← _lockspace_name; call (inq_lockspace ls hostId (_idsPath self) false))
    (fun _ => mret (Some false))
    (fun has_host_id =>
       _ ← match has_host_id with
           | Some true => _ ← ready_set; _end_add_lockspace
           | _ => modify (set_ready clear)
           end;
       mret has_host_id).

Definition getHostStatus (hostId : Z) : M (SANLock W) error host_status :=
  try_sanlock
    (ls ← _lockspace_name; call (get_hosts ls hostId))
    (fun _ => mret HOST_STATUS_UNAVAILABLE)
    (fun hosts => match hosts with h :: _ => lift (status_name (h_flags h)) | [] => raise IndexError end).

(** The loop of [acquire]; [None] when [fuel] is not enough. *)
Fixpoint acquire_loop (fuel : nat) (lease : Lease) (lvb : bool) (s : SANLock W) : option (SANLock W * res error unit) :=
  match fuel with
  | O => None
  | S fuel =>
      let '(s, r) :=
        match _sanlock_fd s with
        | None => let '(w, r) := register (world s) in
                  match r with
                  | Ok fd => (set_fd (Some fd) (set_world w s), Ok fd)
                  | Raise e => (set_world w s, Raise (AcquireLockFailure e))
                  end
        | Some fd => (s, Ok fd)
        end in
      match r with
      | Raise x => Some (s, Raise x)
      | Ok fd =>
          match encode (name lease), encode (_sdUUID self) with
          | Ok resource_name, Ok ls =>
              let '(w, r) := sanlock_acquire ls resource_name (path lease, offset lease) fd
                               (if supports_lvb self then Some lvb else None) (world s) in
              let s := set_world w s in
              match r with
              | Ok _ => Some (s, Ok ())
              | Raise e => if negb (e =? EPIPE) then Some (s, Raise (AcquireLockFailure e))
                           else acquire_loop fuel lease lvb (set_fd None s)
              end
          | Raise x, _ | _, Raise x => Some (s, Raise x)
          end
      end
  end.

(** [acquire]; [ready] is what [self._ready.wait] gives. *)
Definition acquire (fuel : nat) (lease : Lease) (lvb : bool) (ready : res Concurrent.exn bool) (s : SANLock W) :
    option (SANLock W * res error unit) :=
  if lvb && negb (supports_lvb self) then Some (s, Raise UnsupportedOperation)
  else match ready with
       | Raise e => Some (s, Raise (EventError e))
       | Ok false => Some (s, Raise AcquireHostIdFailure)
       | Ok true => acquire_loop fuel lease lvb s
       end.

Definition inquire (lease : Lease) : M (SANLock W) error (option Z * option Z) :=
  resource ← call (read_resource (path lease) (offset lease) (_alignment self) (_block_size self));
  resource_name ← lift (encode (name lease));
  if negb (bool_decide (r_resource resource = resource_name)) then raise (InvalidLeaseName (r_resource resource) lease)
  else
    ls ← _lockspace_name;
    owners ← call (read_resource_owners ls resource_name (path lease, offset lease) (_alignment self) (_block_size self));
    match owners with
    | [] => mret (None, None)
    | resource_owner :: more =>
        if negb (bool_decide (more = [])) then raise RuntimeError
        else
          let resource_version := r_version resource in
          let host_id := o_host_id resource_owner in
          try_sanlock
            (ls ← _lockspace_name; call (get_hosts ls host_id))
            (fun e =>
               if e =? ENOENT then raise (TemporaryFailure lease)
               else if e =? EAGAIN then mret (Some resource_version, Some host_id)
               else raise (SanlockException e))
            (fun hosts =>
               match hosts with
               | [] => raise IndexError
               | host :: _ =>
                   host_status ← lift (status_name (h_flags host));
                   if negb (o_generation resource_owner =? h_generation host) then mret (Some resource_version, None)
                   else if bool_decide (host_status = HOST_STATUS_DEAD) || bool_decide (host_status = HOST_STATUS_FREE)
                   then mret (Some resource_version, None)
                   else mret (Some resource_version, Some host_id)
               end)
    end.

Definition release (lease : Lease) : M (SANLock W) error unit := fun s =>
  try_sanlock
    (resource_name ← lift (encode (name lease));
     ls ← _lockspace_name;
     call (sanlock_release ls resource_name (path lease, offset lease) (_sanlock_fd s)))
    (fun _ => raise ReleaseLockFailure)
    (fun _ => mret ()) s.
End SANLock.
