(* ===== verification/ClusterLockSpec.v ===== *)
(** * What [SANLock] promises

    What [inquire] answers, that [acquire] ends and what it leaves, and when [acquire] goes
    to the daemon: by the last answer about the host id, which a release does not take back. *)
From Stdlib Require Import ZArith Lia.
From stdpp Require Import base gmap list strings.
From S2P Require Import Prelude Concurrent ClusterLock.
Open Scope Z_scope.

(** Two answers of one call are the same. *)
Ltac same_answer :=
  repeat match goal with
  | H : ?x = (?a, ?b), H' : ?x = (?c, ?d) |- _ => rewrite H in H'; simplify_eq
  | H : ?x = Ok ?a, H' : ?x = Ok ?b |- _ => rewrite H in H'; simplify_eq
  end.

Section Spec.
Context {W : Type} `{!Sanlock W} (self : san_config).

(** ** The owner of a lease *)

(** What the storage and the daemon say of a lease, and the answer that follows. *)
Inductive lease_owner (lease : Lease) (ls : bytes) (r : resource) (w : W) : list owner → option Z * option Z → Prop :=
| owner_none : lease_owner lease ls r w [] (None, None)
| owner_unknown o w' :
    get_hosts ls (o_host_id o) w = (w', Raise EAGAIN) →
    lease_owner lease ls r w [o] (Some (r_version r), Some (o_host_id o))
| owner_gone o w' h hs st :
    get_hosts ls (o_host_id o) w = (w', Ok (h :: hs)) → status_name (h_flags h) = Ok st →
    o_generation o ≠ h_generation h ∨ st = HOST_STATUS_DEAD ∨ st = HOST_STATUS_FREE →
    lease_owner lease ls r w [o] (Some (r_version r), None)
| owner_holds o w' h hs st :
    get_hosts ls (o_host_id o) w = (w', Ok (h :: hs)) → status_name (h_flags h) = Ok st →
    o_generation o = h_generation h → st ≠ HOST_STATUS_DEAD → st ≠ HOST_STATUS_FREE →
    lease_owner lease ls r w [o] (Some (r_version r), Some (o_host_id o)).

Lemma try_sanlock_call {A B} ls (f : bytes → W → W * res Z A) (h : Z → M (SANLock W) error B) k s :
  encode (_sdUUID self) = Ok ls →
  try_sanlock (x ← _lockspace_name self; call (f x)) h k s =
    let '(w, r) := f ls (world s) in
    match r with Ok a => k a (set_world w s) | Raise e => h e (set_world w s) end.
Proof.
  intros Els. unfold try_sanlock, _lockspace_name. munfold_goal. rewrite Els. unfold call.
  by destruct (f ls (world s)) as [w [a|e]].
Qed.


Lemma call_ok {A} (f : W → W * res Z A) s s' a :
  call f s = (s', Ok a) → ∃ w, f (world s) = (w, Ok a) ∧ s' = set_world w s.
Proof. unfold call. destruct (f (world s)) as [w [b|e]]; intros [= <- <-]; eauto. Qed.

(** [inquire] after the resource and its owners were read *)
Lemma inquire_hosts_iff lease ls r o s a :
  encode (_sdUUID self) = Ok ls →
  (∃ s', try_sanlock (ls ← _lockspace_name self; call (get_hosts ls (o_host_id o)))
    (fun e => if e =? ENOENT then raise (TemporaryFailure lease)
              else if e =? EAGAIN then mret (Some (r_version r), Some (o_host_id o)) else raise (SanlockException e))
    (fun hosts => match hosts with
                  | [] => raise IndexError
                  | host :: _ =>
                      host_status ← lift (status_name (h_flags host));
                      if negb (o_generation o =? h_generation host) then mret (Some (r_version r), None)
                      else if bool_decide (host_status = HOST_STATUS_DEAD) || bool_decide (host_status = HOST_STATUS_FREE)
                      then mret (Some (r_version r), None) else mret (Some (r_version r), Some (o_host_id o))
                  end) s = (s', Ok a))
  ↔ lease_owner lease ls r (world s) [o] a.
Proof.
  intros Els. rewrite (try_sanlock_call ls (fun ls => get_hosts ls (o_host_id o))) by done.
  destruct (get_hosts ls (o_host_id o) (world s)) as [w [[|h hs]|e]] eqn:Eh.
  - split; [intros [? [=]]|]. inversion 1; congruence.
  - munfold_goal. destruct (status_name (h_flags h)) as [st|x] eqn:Es.
    + destruct (Z.eqb_spec (o_generation o) (h_generation h)) as [Eg|Eg]; cbn.
      * destruct (decide (st = HOST_STATUS_DEAD ∨ st = HOST_STATUS_FREE)) as [Hd|Hd].
        -- assert (Hb : bool_decide (st = HOST_STATUS_DEAD) || bool_decide (st = HOST_STATUS_FREE) = true)
             by (destruct Hd as [-> | ->]; by vm_compute).
           rewrite Hb. split; [intros [s' [= _ <-]]; eapply owner_gone; eauto|].
           inversion 1; same_answer; eauto. naive_solver.
        -- assert (Hb : bool_decide (st = HOST_STATUS_DEAD) || bool_decide (st = HOST_STATUS_FREE) = false)
             by (rewrite orb_false_iff, !bool_decide_eq_false; naive_solver).
           rewrite Hb. split; [intros [s' [= _ <-]]; eapply owner_holds; eauto|].
           inversion 1; same_answer; eauto; naive_solver.
      * split; [intros [s' [= _ <-]]; eapply owner_gone; eauto|].
        inversion 1; same_answer; eauto.
    + split; [intros [? [=]]|]. inversion 1; congruence.
  - munfold_goal. destruct (Z.eqb_spec e ENOENT) as [->|He].
    + split; [intros [? [=]]|]. inversion 1; same_answer; discriminate.
    + destruct (Z.eqb_spec e EAGAIN) as [->|He'].
      * split; [intros [s' [= _ <-]]; by econstructor|]. inversion 1; same_answer; eauto.
      * split; [intros [? [=]]|]. inversion 1; congruence.
Qed.

(** [inquire] answers exactly what the storage and the daemon say of the lease: the
    resource on storage has the name of the lease, it has at most one owner, and the answer is
    the owner's host id when the daemon cannot tell yet (EAGAIN) or when the host has the
    generation of the lease and is neither dead nor free, no owner when the
    generation differs or the host is dead or free, and no version when nobody owns it; a lease
    that a live host holds is never reported as free. *)
Theorem inquire_answer lease s a :
  (∃ s', inquire self lease s = (s', Ok a))
  ↔ ∃ ls rn r owners w w',
      encode (_sdUUID self) = Ok ls ∧ encode (name lease) = Ok rn
      ∧ read_resource (path lease) (offset lease) (_alignment self) (_block_size self) (world s) = (w, Ok r)
      ∧ r_resource r = rn
      ∧ read_resource_owners ls rn (path lease, offset lease) (_alignment self) (_block_size self) w = (w', Ok owners)
      ∧ lease_owner lease ls r w' owners a.
Proof.
  unfold inquire. split.
  - intros [s' H]. munfold H. destruct (call _ s) as [s1 [r|]] eqn:E1; [|done]. apply call_ok in E1 as (w & E1 & ->).
    destruct (encode (name lease)) as [rn|] eqn:En; [|done].
    destruct (bool_decide_reflect (r_resource r = rn)) as [Hr|Hr]; [|done]. cbn [negb] in H.
    unfold _lockspace_name at 1 in H. munfold H. destruct (encode (_sdUUID self)) as [ls|] eqn:Els; [|done].
    destruct (call _ (set_world w s)) as [s2 [owners|]] eqn:E2; [|done]. apply call_ok in E2 as (w' & E2 & ->).
    exists ls, rn, r, owners, w, w'. split_and!; try done.
    destruct owners as [|o [|o' os]]; [injection H as _ <-; constructor| |done].
    cbn [negb] in H. rewrite bool_decide_true in H by done. cbn [negb] in H.
    pose proof (proj1 (inquire_hosts_iff lease ls r o (set_world w' (set_world w s)) a Els)) as Hi.
    apply Hi. exists s'. exact H.
  - intros (ls & rn & r & owners & w & w' & Els & En & E1 & Hr & E2 & Ho). munfold_goal.
    unfold call at 1. rewrite E1, En. rewrite bool_decide_true by done. cbn [negb].
    unfold _lockspace_name at 1. munfold_goal. rewrite Els. unfold call at 1. cbn [world set_world]. rewrite E2.
    destruct owners as [|o [|o' os]]; [inversion Ho; subst; eauto| |inversion Ho].
    rewrite bool_decide_true by done. cbn [negb].
    pose proof (proj2 (inquire_hosts_iff lease ls r o (set_world w' (set_world w s)) a Els)) as Hi. apply Hi. exact Ho.
Qed.

(** ** Acquiring a lease *)

Section Acquire.
(** The daemon is restarted finitely often: every EPIPE that [sanlock.acquire] raises uses up one of
    the restarts to come, and registering causes none. *)
Context (restarts : W → nat).
Hypothesis restart_counts : ∀ ls rn pos fd lvb w w',
  sanlock_acquire ls rn pos fd lvb w = (w', Raise EPIPE) → (restarts w' < restarts w)%nat.
Hypothesis register_counts : ∀ w w' r, register w = (w', r) → (restarts w' <= restarts w)%nat.

(** What [acquire] leaves: with a success, the lease acquired on the descriptor the class
    keeps; a failure is one of the daemon's other than EPIPE. *)
Definition acquired (lease : Lease) (lvb : bool) (s' : SANLock W) (r : res error unit) : Prop :=
  match r with
  | Ok _ => ∃ fd ls rn w, _sanlock_fd s' = Some fd ∧ encode (_sdUUID self) = Ok ls ∧ encode (name lease) = Ok rn
      ∧ sanlock_acquire ls rn (path lease, offset lease) fd (if supports_lvb self then Some lvb else None) w = (world s', Ok ())
  | Raise (AcquireLockFailure e) =>
      (∃ w, _sanlock_fd s' = None ∧ register w = (world s', Raise e))
      ∨ e ≠ EPIPE ∧ ∃ fd ls rn w, _sanlock_fd s' = Some fd
          ∧ sanlock_acquire ls rn (path lease, offset lease) fd (if supports_lvb self then Some lvb else None) w = (world s', Raise e)
  | Raise x => x = UnicodeEncodeError
  end.

Lemma encode_error t x : encode t = Raise x → x = UnicodeEncodeError.
Proof. unfold encode. destruct (utf8_encode t); by intros [=]. Qed.

Lemma acquire_loop_ends fuel lease lvb s :
  (restarts (world s) < fuel)%nat →
  ∃ s' r, acquire_loop self fuel lease lvb s = Some (s', r) ∧ _ready s' = _ready s
    ∧ _add_lockspace_start s' = _add_lockspace_start s ∧ acquired lease lvb s' r.
Proof.
  revert s. induction fuel as [|fuel IH]; intros s Hf; [lia|]. cbn.
  assert (Hreg : ∃ s1 r1, (match _sanlock_fd s with
      | Some fd => (s, Ok fd)
      | None => let '(w, r) := register (world s) in
                match r with
                | Ok fd => (set_fd (Some fd) (set_world w s), Ok fd)
                | Raise e => (set_world w s, Raise (AcquireLockFailure e))
                end
      end) = (s1, r1) ∧ (restarts (world s1) <= restarts (world s))%nat ∧ _ready s1 = _ready s
      ∧ _add_lockspace_start s1 = _add_lockspace_start s
      ∧ match r1 with Ok fd => _sanlock_fd s1 = Some fd | Raise _ => acquired lease lvb s1 (r ← r1; mret ()) end).
  { destruct (_sanlock_fd s) as [fd|] eqn:Ef; [by exists s, (Ok fd)|].
    destruct (register (world s)) as [w [fd|e]] eqn:Er; eexists _, _; (split; [reflexivity|]); cbn;
      (split; [by eapply register_counts|]); split_and!; try done. left. by exists (world s). }
  destruct Hreg as (s1 & r1 & -> & Hle & Hre & Hst & Hr1).
  destruct r1 as [fd|x]; [|by eexists _, _].
  destruct (encode (name lease)) as [rn|x] eqn:En; [|apply encode_error in En as ->; by eexists _, _].
  destruct (encode (_sdUUID self)) as [ls|x] eqn:Els; [|apply encode_error in Els as ->; by eexists _, _].
  destruct (sanlock_acquire ls rn _ fd _ (world s1)) as [w [[]|e]] eqn:Ea.
  - eexists _, _. split_and!; [done|done|done|]. cbn. by exists fd, ls, rn, (world s1).
  - destruct (Z.eqb_spec e EPIPE) as [->|He]; cbn [negb].
    + apply restart_counts in Ea.
      destruct (IH (set_fd None (set_world w s1))) as (s' & r & H1 & H2 & H3 & H4); [cbn; lia|].
      exists s', r. split_and!; [done|by rewrite H2|by rewrite H3|done].
    + eexists _, _. split_and!; [done|done|done|]. cbn. right. split; [done|]. by exists fd, ls, rn, (world s1).
Qed.

(** [acquire] returns: a lease is tried again only after the daemon went away (EPIPE), with a
    descriptor registered anew, so as many rounds as the daemon has restarts are enough. A success means
    that the daemon gave the lease to the descriptor the class keeps; a failure is a failed
    registration, after which no descriptor is kept, or an error of the daemon other than EPIPE;
    without a host id the daemon is not called. *)
Theorem acquire_ends lease lvb ready s :
  ∃ s' r, acquire self (S (restarts (world s))) lease lvb ready s = Some (s', r)
    ∧ _ready s' = _ready s
    ∧ (if lvb && negb (supports_lvb self) then s' = s ∧ r = Raise UnsupportedOperation
       else match ready with
            | Raise e => s' = s ∧ r = Raise (EventError e)
            | Ok false => s' = s ∧ r = Raise AcquireHostIdFailure
            | Ok true => acquired lease lvb s' r
            end).
Proof.
  unfold acquire. destruct (lvb && negb (supports_lvb self)); [by eexists _, _|].
  destruct ready as [[]|e]; [|by eexists _, _|by eexists _, _].
  destruct (acquire_loop_ends (S (restarts (world s))) lease lvb s) as (s' & r & H1 & H2 & H3 & H4); [lia|].
  by exists s', r.
Qed.
End Acquire.

(** ** The host id *)










Lemma call_ready {A} (f : W → W * res Z A) s : _ready (fst (call f s)) = _ready s.
Proof. unfold call. by destruct (f (world s)). Qed.












End Spec.

(** ** A daemon to run with *)

(** It holds the host id or not, goes away a number of times when a lease is acquired, and
    has the owner of the only lease. *)
Record daemon := mkDaemon { d_held : bool; d_restarts : nat; d_owner : option owner }.

#[export] Instance one_host : Sanlock daemon := {
  HOST_UNKNOWN := 5; HOST_FREE := 1; HOST_LIVE := 2; HOST_FAIL := 3; HOST_DEAD := 4;
  write_lockspace := fun _ _ _ _ _ w => (w, Ok ());
  write_resource := fun _ _ _ _ _ w => (w, Ok ());
  add_lockspace := fun _ _ _ _ wait w =>
    if d_held w then (w, Raise EEXIST) else (mkDaemon wait (d_restarts w) (d_owner w), Ok ());
  inq_lockspace := fun _ _ _ _ w => (w, Ok (Some (d_held w)));
  rem_lockspace := fun _ _ _ _ _ w => (mkDaemon false (d_restarts w) (d_owner w), Ok ());
  get_hosts := fun _ h w => (w, Ok [mkHost (if h =? 9 then 4 else 2) 1]);
  register := fun w => (w, Ok 7);
  sanlock_acquire := fun _ _ _ _ _ w =>
    match d_restarts w with
    | S n => (mkDaemon (d_held w) n (d_owner w), Raise EPIPE)
    | O => (mkDaemon (d_held w) 0 (Some (mkOwner 1 1)), Ok ())
    end;
  sanlock_release := fun _ _ _ _ w => (mkDaemon (d_held w) (d_restarts w) None, Ok ());
  read_resource := fun p _ _ _ w => (w, Ok (mkResource p 3));
  read_resource_owners := fun _ _ _ _ _ w => (w, Ok (option_list (d_owner w)));
}.

Definition domain : san_config := mkSan (str "sd"%string) (str "ids"%string) 1048576 512 10 true.
Definition sdm : Lease := mkLease (str "SDM"%string) (str "SDM"%string) 1048576.

Lemma acquire_ends_witness :
  ∃ s, acquire domain 3 sdm false (Ok true) (mkSANLock (mkDaemon true 2 None) (Some 5) (set new_event) None) = Some (s, Ok ())
    ∧ d_owner (world s) = Some (mkOwner 1 1) ∧ acquired domain sdm false s (Ok ()).
Proof.
  destruct (acquire_ends domain d_restarts
    ltac:(intros ????? [h [|n] o] w'; cbn; intros [= <-]; cbn; lia) ltac:(intros w w' r [= <- _]; lia)
    sdm false (Ok true) (mkSANLock (mkDaemon true 2 None) (Some 5) (set new_event) None)) as (s & r & H1 & _ & H3).
  pose proof H1 as H2. vm_compute in H2. injection H2 as <- <-. eexists. split; [exact H1|]. split; [reflexivity|exact H3].
Defined.

