(* ===== verification/LocalLock.v ===== *)
(** * Local cluster locks: [LocalLock], [SafeLease] and [alignment] of [storage/clusterlock.py]

    [LocalLock] keeps the host id and the descriptor of the lock of every domain in one map of the
    process and locks the ids file of the domain with flock.  The kernel is the descriptor
    table of the process and the flock of every file, held by a descriptor of the process or by another
    process. *)
From Stdlib Require Import ZArith Lia.
From stdpp Require Import base gmap list strings.
From S2P Require Import Prelude ClusterLock.
Open Scope Z_scope.

(** ** The kernel *)

Inductive holder := Fd (fd : Z) | Foreign.

Record kernel := mkKernel { fds : gmap Z text; locks : gmap text holder }.

(** [fcntl(fd, F_GETFD)] *)
Definition fcntl_getfd (fd : Z) (k : kernel) : res Z unit :=
  match fds k !! fd with Some _ => Ok () | None => Raise EBADF end.

(** [os.open(path, os.O_RDONLY)]; [fd] is the descriptor the kernel chose. *)
Definition os_open (p : text) (fd : Z) (k : kernel) : kernel := mkKernel (<[fd := p]> (fds k)) (locks k).

(** [flock(fd, LOCK_EX | LOCK_NB)]; [failure] is an error that is not about who holds the lock. *)
Definition flock (fd : Z) (failure : option Z) (k : kernel) : kernel * res Z unit :=
  match failure with
  | Some e => (k, Raise e)
  | None =>
      match fds k !! fd with
      | None => (k, Raise EBADF)
      | Some p =>
          match locks k !! p with
          | None => (mkKernel (fds k) (<[p := Fd fd]> (locks k)), Ok ())
          | Some (Fd fd') => if fd' =? fd then (k, Ok ()) else (k, Raise EAGAIN)
          | Some Foreign => (k, Raise EAGAIN)
          end
      end
  end.

(** [osutils.close_fd(fd)]; the flock of a descriptor goes with it. *)
Definition close_fd (fd : Z) (k : kernel) : kernel * res Z unit :=
  match fds k !! fd with
  | None => (k, Raise EBADF)
  | Some p =>
      (mkKernel (delete fd (fds k))
         (match locks k !! p with Some (Fd fd') => if fd' =? fd then delete p (locks k) else locks k | _ => locks k end),
       Ok ())
  end.

(** ** LocalLock *)

(** The map of the class, with the kernel. *)
Record LocalLocks := mkLocal { kern : kernel; _globalLockMap : gmap text (option Z * option Z) }.

Record local_config := mkLocalConfig { l_sdUUID : text; l_idsPath : text; _lease : Lease }.

(** [if lockFile]: a descriptor that is not 0 *)
Definition truthy (lockFile : option Z) : bool :=
  match lockFile with Some fd => negb (fd =? 0) | None => false end.

Definition LVER := 0.

Section LocalLock.
Context (self : local_config).

Definition set_map (m : gmap text (option Z * option Z)) (s : LocalLocks) : LocalLocks := mkLocal (kern s) m.
Definition set_kern (k : kernel) (s : LocalLocks) : LocalLocks := mkLocal k (_globalLockMap s).

Definition _getLease (s : LocalLocks) : option Z * option Z :=
  default (None, None) (_globalLockMap s !! l_sdUUID self).

Definition initLock (lease : Lease) : M LocalLocks error unit :=
  if negb (bool_decide (lease = _lease self)) then raise (MultipleLeasesNotSupported lease) else mret ().

Definition acquireHostId (hostId : Z) : M LocalLocks error unit := fun s =>
  let '(currentHostId, lockFile) := _getLease s in
  if negb (bool_decide (currentHostId = None)) && negb (bool_decide (currentHostId = Some hostId))
  then (s, Raise AcquireHostIdFailure)
  else (set_map (<[l_sdUUID self := (Some hostId, lockFile)]> (_globalLockMap s)) s, Ok ()).

Definition releaseHostId (hostId : Z) : M LocalLocks error unit := fun s =>
  let '(currentHostId, lockFile) := _getLease s in
  if negb (bool_decide (currentHostId = None)) && negb (bool_decide (currentHostId = Some hostId))
  then (s, Raise ReleaseHostIdFailure)
  else if negb (bool_decide (lockFile = None)) then (s, Raise ReleaseHostIdFailure)
  else match _globalLockMap s !! l_sdUUID self with
       | None => (s, Raise KeyError)
       | Some _ => (set_map (delete (l_sdUUID self) (_globalLockMap s)) s, Ok ())
       end.

Definition hasHostId (hostId : Z) (s : LocalLocks) : bool := bool_decide (fst (_getLease s) = Some hostId).

(** [acquire] from the opening of the ids file; [opened] is the descriptor or the errno of
    [os.open], [failure] an error of [flock]. *)
Definition acquire_open (hostId : option Z) (opened : res Z Z) (failure : option Z) : M LocalLocks error unit := fun s =>
  match opened with
  | Raise e => (s, Raise (IOError e))
  | Ok lockFile =>
      let '(k, r) := flock lockFile failure (os_open (l_idsPath self) lockFile (kern s)) in
      match r with
      | Ok _ => (set_map (<[l_sdUUID self := (hostId, Some lockFile)]> (_globalLockMap s)) (set_kern k s), Ok ())
      | Raise e =>
          let '(k, r) := close_fd lockFile k in
          match r with
          | Raise e => (set_kern k s, Raise (IOError e))
          | Ok _ => (set_kern k s,
                     Raise (if (e =? EACCES) || (e =? EAGAIN) then AcquireLockFailure e else IOError e))
          end
      end
  end.

Definition acquire (lease : Lease) (opened : res Z Z) (failure : option Z) : M LocalLocks error unit := fun s =>
  if negb (bool_decide (lease = _lease self)) then (s, Raise (MultipleLeasesNotSupported lease))
  else
    let '(hostId, lockFile) := _getLease s in
    match lockFile with
    | Some fd =>
        if truthy (Some fd) then
          match fcntl_getfd fd (kern s) with
          | Ok _ => (s, Ok ())
          | Raise e =>
              let s := set_map (delete (l_sdUUID self) (_globalLockMap s)) s in
              if negb (e =? EBADF) then (s, Raise (IOError e)) else acquire_open hostId opened failure s
          end
        else acquire_open hostId opened failure s
    | None => acquire_open hostId opened failure s
    end.

Definition inquire (lease : Lease) (s : LocalLocks) : res error (Z * option Z) :=
  if negb (bool_decide (lease = _lease self)) then Raise (MultipleLeasesNotSupported lease)
  else let '(hostId, lockFile) := _getLease s in Ok (LVER, if truthy lockFile then hostId else None).

Definition release (lease : Lease) : M LocalLocks error unit := fun s =>
  if negb (bool_decide (lease = _lease self)) then (s, Raise (MultipleLeasesNotSupported lease))
  else
    let '(hostId, lockFile) := _getLease s in
    match lockFile with
    | Some fd =>
        if truthy (Some fd) then
          let '(k, r) := close_fd fd (kern s) in
          match r with
          | Raise e => (set_kern k s, Raise (IOError e))
          | Ok _ => (set_map (<[l_sdUUID self := (hostId, None)]> (_globalLockMap s)) (set_kern k s), Ok ())
          end
        else (s, Ok ())
    | None => (s, Ok ())
    end.
End LocalLock.

(** ** SafeLease *)

(** [subprocess.list2cmdline]: an argument is quoted when it is empty or has a space or a tab; the backslashes
    before a quote are doubled. *)
Fixpoint quote_arg (bs : nat) (quoted : bool) (arg : text) : text :=
  match arg with
  | [] => replicate bs 92 ++ (if quoted then replicate bs 92 else [])
  | c :: arg =>
      if c =? 92 then quote_arg (S bs) quoted arg
      else if c =? 34 then replicate (2 * bs) 92 ++ 92 :: 34 :: quote_arg 0 quoted arg
      else replicate bs 92 ++ c :: quote_arg 0 quoted arg
  end.

Definition needquote (arg : text) : bool :=
  bool_decide (arg = []) || existsb (fun c => (c =? 32) || (c =? 9)) arg.

Definition list2cmdline1 (arg : text) : text :=
  if needquote arg then 34 :: quote_arg 0 true arg ++ [34] else quote_arg 0 false arg.

Fixpoint list2cmdline (args : list text) : text :=
  match args with
  | [] => []
  | [a] => list2cmdline1 a
  | a :: args => list2cmdline1 a ++ 32 :: list2cmdline args
  end.

Record SafeLease := mkSafeLease {
  s_sdUUID : text;
  s_lease : Lease;
  _lockRenewalIntervalSec : Z;
  _leaseTimeSec : Z;
  _leaseFailRetry : Z;
  _ioOpTimeoutSec : Z;
}.

(** [SafeLease.setParams] *)
Definition setParams (renewal leaseTime failRetry ioTimeout : Z) (s : SafeLease) : SafeLease :=
  mkSafeLease (s_sdUUID s) (s_lease s) renewal leaseTime failRetry ioTimeout.

Section SafeLease.
(** The paths of the configuration, the pid, and the return code of a command. *)
Context (lockUtil freeLockUtil safelease su iouser sh : text) (pid : Z) (execCmd : list text → Z).

Definition s_initLock (lease : Lease) (s : SafeLease) : res error unit :=
  if negb (bool_decide (lease = s_lease s)) then Raise (MultipleLeasesNotSupported lease)
  else if negb (execCmd [safelease; str "release"%string; str "-f"%string; path lease; str "0"%string] =? 0)
  then Raise ClusterLockInitError else Ok ().

(** The command line [acquire] gives to the shell. *)
Definition acquireLockCommand (hostID : Z) (lease : Lease) (s : SafeLease) : text :=
  list2cmdline [lockUtil; str "start"%string; s_sdUUID s; str_d hostID; str_d (_lockRenewalIntervalSec s); path lease;
    str_d (_leaseTimeSec s * 1000); str_d (_ioOpTimeoutSec s * 1000); str_d (_leaseFailRetry s); str_d pid].

Definition s_acquire (hostID : Z) (lease : Lease) (s : SafeLease) : res error unit :=
  if negb (bool_decide (lease = s_lease s)) then Raise (MultipleLeasesNotSupported lease)
  else
    let rc := execCmd [su; iouser; str "-s"%string; sh; str "-c"%string; acquireLockCommand hostID lease s] in
    if negb (rc =? 0) then Raise (AcquireLockFailure rc) else Ok ().

Definition s_inquire : res error unit := Raise InquireNotSupportedError.

Definition s_release (lease : Lease) (s : SafeLease) : res error unit :=
  if negb (bool_decide (lease = s_lease s)) then Raise (MultipleLeasesNotSupported lease)
  else if negb (execCmd [freeLockUtil; s_sdUUID s] =? 0) then Ok () else Ok ().
End SafeLease.

(** ** Alignment *)

Definition MiB := 1048576.
Definition ALIGNMENT_1M := 1 * MiB.
Definition ALIGNMENT_2M := 2 * MiB.
Definition ALIGNMENT_4M := 4 * MiB.
Definition ALIGNMENT_8M := 8 * MiB.
Definition BLOCK_SIZE_512 := 512.
Definition BLOCK_SIZE_4K := 4096.
Definition HOSTS_MAX := 2000.
Definition HOSTS_4K_1M := 250.
Definition HOSTS_4K_2M := 500.
Definition HOSTS_4K_4M := 1000.

Definition alignment (block_size max_hosts : Z) : res error Z :=
  if (max_hosts <? 1) || (max_hosts >? HOSTS_MAX) then Raise InvalidParameterException
  else if negb ((block_size =? BLOCK_SIZE_512) || (block_size =? BLOCK_SIZE_4K)) then Raise InvalidParameterException
  else if block_size =? BLOCK_SIZE_512 then Ok ALIGNMENT_1M
  else if max_hosts >? HOSTS_4K_4M then Ok ALIGNMENT_8M
  else if max_hosts >? HOSTS_4K_2M then Ok ALIGNMENT_4M
  else if max_hosts >? HOSTS_4K_1M then Ok ALIGNMENT_2M
  else Ok ALIGNMENT_1M.

(** ** The locks of a process *)

Section Process.
(** The ids file and the lease of a domain. *)
Context (path_of : text → text) (lease_of : text → Lease).

Definition lock_of (sd : text) : local_config := mkLocalConfig sd (path_of sd) (lease_of sd).

(** [fd] is the descriptor in the entry of a domain. *)
Definition lockfile (s : LocalLocks) (sd : text) (fd : Z) : Prop := ∃ h, _globalLockMap s !! sd = Some (h, Some fd).

(** A descriptor the kernel may give. *)
Definition fresh (opened : res Z Z) (s : LocalLocks) : Prop :=
  match opened with Ok fd => fds (kern s) !! fd = None | Raise _ => True end.

(** The operations of the process's locks, other processes that lock and unlock the files, and the rest of
    the process, which opens and closes descriptors of its own. *)
Inductive local_step : LocalLocks → LocalLocks → Prop :=
| local_acquire_id sd h s : local_step s (fst (acquireHostId (lock_of sd) h s))
| local_release_id sd h s : local_step s (fst (releaseHostId (lock_of sd) h s))
| local_acquire sd lease opened failure s :
    fresh opened s → local_step s (fst (acquire (lock_of sd) lease opened failure s))
| local_release sd lease s : local_step s (fst (release (lock_of sd) lease s))
| local_foreign_lock p s :
    locks (kern s) !! p = None → local_step s (set_kern (mkKernel (fds (kern s)) (<[p := Foreign]> (locks (kern s)))) s)
| local_foreign_unlock p s :
    locks (kern s) !! p = Some Foreign → local_step s (set_kern (mkKernel (fds (kern s)) (delete p (locks (kern s)))) s)
| local_other fds' s :
    (∀ sd fd, lockfile s sd fd → fds' !! fd = fds (kern s) !! fd) → fds' !! 0 = fds (kern s) !! 0 →
    local_step s (set_kern (mkKernel fds' (locks (kern s))) s).

(** At the start nothing is locked; descriptor 0 is open. *)
Inductive local_reach : LocalLocks → Prop :=
| local_init f p : f !! 0 = Some p → local_reach (mkLocal (mkKernel f ∅) ∅)
| local_next s s' : local_reach s → local_step s s' → local_reach s'.

Definition local_inv (s : LocalLocks) : Prop :=
  (∀ sd fd, lockfile s sd fd →
     fd ≠ 0 ∧ fds (kern s) !! fd = Some (path_of sd) ∧ locks (kern s) !! path_of sd = Some (Fd fd))
  ∧ (∀ p fd, locks (kern s) !! p = Some (Fd fd) → ∃ sd, lockfile s sd fd ∧ path_of sd = p)
  ∧ (∀ sd sd' fd, lockfile s sd fd → lockfile s sd' fd → sd = sd')
  ∧ is_Some (fds (kern s) !! 0).

Lemma lockfile_insert s sd v sd' fd :
  lockfile (set_map (<[sd := v]> (_globalLockMap s)) s) sd' fd ↔ (sd = sd' ∧ snd v = Some fd) ∨ (sd ≠ sd' ∧ lockfile s sd' fd).
Proof.
  unfold lockfile; cbn. destruct (decide (sd = sd')) as [->|Hne].
  - setoid_rewrite lookup_insert_eq. destruct v as [h o]; cbn. naive_solver.
  - setoid_rewrite lookup_insert_ne; [|done]. naive_solver.
Qed.

(** A change of the host id in an entry leaves the descriptors where they are. *)
Lemma local_inv_same_files s m :
  local_inv s → (∀ sd fd, lockfile (set_map m s) sd fd ↔ lockfile s sd fd) → local_inv (set_map m s).
Proof.
  intros (H1 & H2 & H3 & H4) Hm. split_and!; [| | |done].
  - intros sd fd Hl%Hm. by apply H1.
  - intros p fd (sd & Hl & Hp)%H2. exists sd. by rewrite Hm.
  - intros sd sd' fd Hl%Hm Hl'%Hm. by eapply H3.
Qed.

Lemma getLease_lockfile s sd h fd : _getLease (lock_of sd) s = (h, Some fd) → lockfile s sd fd.
Proof.
  unfold _getLease. cbn. destruct (_globalLockMap s !! sd) as [[h' o]|] eqn:E; cbn; intros [= -> ->]. by exists h.
Qed.

Lemma getLease_None s sd h fd : _getLease (lock_of sd) s = (h, None) → ¬ lockfile s sd fd.
Proof. unfold _getLease, lockfile. cbn. intros He [h' Hl]. by rewrite Hl in He. Qed.

Lemma acquireHostId_files sd h s : (∀ sd' fd, lockfile (fst (acquireHostId (lock_of sd) h s)) sd' fd ↔ lockfile s sd' fd)
  ∧ kern (fst (acquireHostId (lock_of sd) h s)) = kern s.
Proof.
  unfold acquireHostId. destruct (_getLease (lock_of sd) s) as [cur lf] eqn:El.
  destruct (_ && _); [done|]. cbn. split; [|done]. intros sd' fd. rewrite lockfile_insert. cbn.
  destruct (decide (sd = sd')) as [->|]; [|naive_solver].
  destruct lf as [f|].
  - pose proof (getLease_lockfile _ _ _ _ El) as [h' Hl]. unfold lockfile. rewrite Hl. naive_solver.
  - pose proof (getLease_None _ _ _ fd El). naive_solver.
Qed.

Lemma acquire_fresh_inv sd h fd s :
  local_inv s → fds (kern s) !! fd = None → (∀ fd', ¬ lockfile s sd fd') → locks (kern s) !! path_of sd = None →
  local_inv (set_map (<[sd := (h, Some fd)]> (_globalLockMap s))
    (set_kern (mkKernel (<[fd := path_of sd]> (fds (kern s))) (<[path_of sd := Fd fd]> (locks (kern s)))) s)).
Proof.
  intros (H1 & H2 & H3 & [p0 H4]) Hf Hno Hl.
  assert (Hfd : ∀ sd', ¬ lockfile s sd' fd) by (intros sd' (_ & Hfd & _)%H1; congruence).
  assert (Hfiles : ∀ sd' fd', lockfile (set_map (<[sd := (h, Some fd)]> (_globalLockMap s))
      (set_kern (mkKernel (<[fd := path_of sd]> (fds (kern s))) (<[path_of sd := Fd fd]> (locks (kern s)))) s)) sd' fd'
    ↔ (sd = sd' ∧ fd = fd') ∨ (sd ≠ sd' ∧ lockfile s sd' fd')).
  { intros sd' fd'. rewrite (lockfile_insert (set_kern _ s)). cbn. naive_solver. }
  split_and!; cbn.
  - intros sd' fd' [[<- <-]|[Hne Hl']]%Hfiles.
    + split_and!; [congruence|apply lookup_insert_eq|apply lookup_insert_eq].
    + pose proof (H1 _ _ Hl') as (? & Hp & Hk). split_and!; [done| |].
      * rewrite lookup_insert_ne; [done|]. intros ->. by apply Hfd in Hl'.
      * rewrite lookup_insert_ne; [done|]. congruence.
  - intros p fd' [[<- [= <-]]|[Hne Hk]]%lookup_insert_Some.
    + exists sd. rewrite Hfiles. auto.
    + apply H2 in Hk as (sd' & Hl' & Hp). exists sd'. rewrite Hfiles. split; [right; split; [congruence|done]|done].
  - intros sd1 sd2 fd' [[<- <-]|[Hne1 Hl1]]%Hfiles [[<- E2]|[Hne2 Hl2]]%Hfiles; try done.
    + by apply Hfd in Hl2.
    + subst. by apply Hfd in Hl1.
    + by eapply H3.
  - exists p0. rewrite lookup_insert_ne; [done|congruence].
Qed.

(** Opening and closing a descriptor that holds no lock changes nothing. *)
Lemma close_opened s p fd :
  local_inv s → fds (kern s) !! fd = None → close_fd fd (os_open p fd (kern s)) = (kern s, Ok ()).
Proof.
  intros (H1 & H2 & _) Hf. unfold close_fd, os_open; cbn. rewrite lookup_insert_eq, delete_insert_id by done.
  assert (Hk : match locks (kern s) !! p with Some (Fd fd') => if fd' =? fd then delete p (locks (kern s)) else locks (kern s) | _ => locks (kern s) end = locks (kern s)).
  { destruct (locks (kern s) !! p) as [[fd'|]|] eqn:E; try done.
    destruct (Z.eqb_spec fd' fd) as [->|]; [|done]. apply H2 in E as (sd & Hl & _). apply H1 in Hl as (_ & ? & _). congruence. }
  rewrite Hk. by destruct (kern s).
Qed.

(** The domain is locked anew. *)
Definition locked_state (sd : text) (h : option Z) (fd : Z) (s : LocalLocks) : LocalLocks :=
  set_map (<[sd := (h, Some fd)]> (_globalLockMap s))
    (set_kern (mkKernel (<[fd := path_of sd]> (fds (kern s))) (<[path_of sd := Fd fd]> (locks (kern s)))) s).

Lemma set_kern_id s : set_kern (kern s) s = s.
Proof. by destruct s. Qed.

Lemma acquire_open_cases sd h opened failure s s' r :
  local_inv s → fresh opened s → acquire_open (lock_of sd) h opened failure s = (s', r) →
  (r = Ok () ∧ ∃ fd, opened = Ok fd ∧ locks (kern s) !! path_of sd = None ∧ s' = locked_state sd h fd s)
  ∨ (s' = s ∧ ∃ x, r = Raise x).
Proof.
  intros Hinv Hf. unfold acquire_open. destruct opened as [fd|e]; [|intros [= <- <-]; eauto]. cbn in Hf.
  pose proof (close_opened s (path_of sd) fd Hinv Hf) as Hc.
  assert (Hfail : ∀ e, flock fd failure (os_open (path_of sd) fd (kern s)) = (os_open (path_of sd) fd (kern s), Raise e)
     → (let '(k, r) := flock fd failure (os_open (path_of sd) fd (kern s)) in
        match r with
        | Ok _ => (set_map (<[sd := (h, Some fd)]> (_globalLockMap s)) (set_kern k s), Ok ())
        | Raise e => let '(k, r) := close_fd fd k in
            match r with
            | Raise e => (set_kern k s, Raise (IOError e))
            | Ok _ => (set_kern k s, Raise (if (e =? EACCES) || (e =? EAGAIN) then AcquireLockFailure e else IOError e))
            end
        end) = (s', r) → s' = s ∧ ∃ x, r = Raise x).
  { intros e ->. rewrite Hc. intros [= <- <-]. rewrite set_kern_id. eauto. }
  cbn [l_idsPath l_sdUUID lock_of].
  destruct failure as [e|]; [intros H; right; by apply (Hfail e)|].
  destruct (locks (kern s) !! path_of sd) as [hd|] eqn:El.
  - intros H. right. apply (Hfail EAGAIN); [|done]. unfold flock, os_open; cbn. rewrite lookup_insert_eq, El.
    destruct hd as [fd'|]; [|done]. destruct (Z.eqb_spec fd' fd) as [->|]; [|done].
    destruct Hinv as (H1 & H2 & _). apply H2 in El as (sd' & Hl & _). apply H1 in Hl as (_ & ? & _). congruence.
  - unfold flock, os_open; cbn. rewrite lookup_insert_eq, El. intros [= <- <-]. left. eauto.
Qed.

Lemma acquire_cases sd lease opened failure s s' r :
  local_inv s → fresh opened s → acquire (lock_of sd) lease opened failure s = (s', r) →
  (r = Ok () ∧ lease = lease_of sd
     ∧ ((s' = s ∧ ∃ fd, lockfile s sd fd)
        ∨ ∃ fd h, opened = Ok fd ∧ _getLease (lock_of sd) s = (h, None) ∧ locks (kern s) !! path_of sd = None
            ∧ s' = locked_state sd h fd s))
  ∨ (s' = s ∧ ∃ x, r = Raise x).
Proof.
  intros Hinv Hf. unfold acquire. cbn [_lease lock_of].
  destruct (bool_decide_reflect (lease = lease_of sd)) as [->|]; cbn [negb]; [|intros [= <- <-]; eauto].
  destruct (_getLease (lock_of sd) s) as [h [fd|]] eqn:El.
  - pose proof (getLease_lockfile _ _ _ _ El) as Hl. destruct Hinv as (H1 & _). destruct (H1 _ _ Hl) as (Hfd & Ho & _).
    unfold truthy, fcntl_getfd. destruct (Z.eqb_spec fd 0); [done|]. cbn [negb]. rewrite Ho. intros [= <- <-]. left. eauto 10.
  - intros [(-> & fd & -> & Hk & ->)|[-> [x ->]]]%acquire_open_cases; [left|right|done|done]; eauto 10.
Qed.

Lemma release_cases sd lease s s' r :
  local_inv s → release (lock_of sd) lease s = (s', r) →
  (s' = s ∧ ((∃ x, r = Raise x) ∨ (r = Ok () ∧ ∀ fd, ¬ lockfile s sd fd)))
  ∨ ∃ fd h, r = Ok () ∧ _globalLockMap s !! sd = Some (h, Some fd)
      ∧ s' = set_map (<[sd := (h, None)]> (_globalLockMap s)) (set_kern (mkKernel (delete fd (fds (kern s))) (delete (path_of sd) (locks (kern s)))) s).
Proof.
  intros Hinv. unfold release. cbn [_lease lock_of].
  destruct (bool_decide_reflect (lease = lease_of sd)) as [->|]; cbn [negb]; [|intros [= <- <-]; eauto].
  destruct (_getLease (lock_of sd) s) as [h [fd|]] eqn:El.
  - pose proof (getLease_lockfile _ _ _ _ El) as Hl. destruct Hinv as (H1 & _). destruct (H1 _ _ Hl) as (Hfd & Ho & Hk).
    unfold truthy, close_fd. destruct (Z.eqb_spec fd 0); [done|]. cbn [negb]. rewrite Ho, Hk, Z.eqb_refl.
    intros [= <- <-]. right. exists fd, h. split_and!; [done| |done].
    destruct Hl as [h' Hm]. unfold _getLease in El. cbn in El. rewrite Hm in El. cbn in El. by injection El as ->.
  - intros [= <- <-]. left. split; [done|]. right. split; [done|]. intros fd. by apply (getLease_None _ _ h).
Qed.

Lemma release_inv sd h fd s :
  local_inv s → _globalLockMap s !! sd = Some (h, Some fd) →
  local_inv (set_map (<[sd := (h, None)]> (_globalLockMap s)) (set_kern (mkKernel (delete fd (fds (kern s))) (delete (path_of sd) (locks (kern s)))) s)).
Proof.
  intros (H1 & H2 & H3 & H4) Hm. assert (Hl : lockfile s sd fd) by (by exists h).
  destruct (H1 _ _ Hl) as (Hfd & Ho & Hk). set (k' := mkKernel _ _).
  assert (Hfiles : ∀ sd' fd', lockfile (set_map (<[sd := (h, None)]> (_globalLockMap s)) (set_kern k' s)) sd' fd'
    ↔ sd ≠ sd' ∧ lockfile s sd' fd').
  { intros sd' fd'. rewrite (lockfile_insert (set_kern k' s)). cbn. naive_solver. }
  split_and!; cbn.
  - intros sd' fd' [Hne Hl']%Hfiles. destruct (H1 _ _ Hl') as (? & Ho' & Hk').
    assert (fd ≠ fd') by (intros ->; apply Hne; by eapply H3).
    split_and!; [done|by rewrite lookup_delete_ne|]. rewrite lookup_delete_ne; [done|]. intros E. rewrite E in Hk. congruence.
  - intros p fd' [Hne (sd' & Hl' & Hp)%H2]%lookup_delete_Some. exists sd'. rewrite Hfiles. split; [|done].
    split; [congruence|done].
  - intros sd1 sd2 fd' [_ Hl1]%Hfiles [_ Hl2]%Hfiles. by eapply H3.
  - by rewrite lookup_delete_ne.
Qed.

Lemma local_step_inv s s' : local_inv s → local_step s s' → local_inv s'.
Proof.
  intros Hinv Hs. destruct Hs as [sd h s|sd h s|sd lease opened failure s Hf|sd lease s|p s Hp|p s Hp|fds' s Ho H0].
  - destruct (acquireHostId_files sd h s) as [Hf Hk]. destruct (acquireHostId (lock_of sd) h s) as [s' r]; cbn in *.
    replace s' with (set_map (_globalLockMap s') s) by (destruct s, s'; cbn in *; by subst).
    apply local_inv_same_files; [done|]. intros sd' fd. by rewrite <-Hf.
  - unfold releaseHostId. destruct (_getLease (lock_of sd) s) as [cur lf] eqn:El.
    destruct (_ && _); [done|]. destruct lf as [fd|]; cbn; [done|].
    destruct (_globalLockMap s !! sd) eqn:Em; [|done]. cbn. apply local_inv_same_files; [done|].
    intros sd' fd. unfold lockfile; cbn. destruct (decide (sd = sd')) as [<-|].
    + rewrite lookup_delete_eq. split; [intros [? [=]]|intros Hx; by destruct (getLease_None s sd cur fd El)].
    + by rewrite lookup_delete_ne.
  - destruct (acquire (lock_of sd) lease opened failure s) as [s' r] eqn:Ea.
    apply acquire_cases in Ea as [(-> & _ & [[-> _]|(fd & h & -> & El & Hk & ->)])|[-> _]]; try done.
    apply acquire_fresh_inv; [done|done| |done]. intros fd'. by eapply getLease_None.
  - destruct (release (lock_of sd) lease s) as [s' r] eqn:Er.
    apply release_cases in Er as [[-> _]|(fd & h & -> & Hm & ->)]; [done| |done]. by apply release_inv.
  - destruct Hinv as (H1 & H2 & H3 & H4). split_and!; [| |done|done]; cbn.
    + intros sd fd (? & ? & ?)%H1. rewrite lookup_insert_ne by congruence. done.
    + intros q fd [[_ [=]]|[_ Hq]]%lookup_insert_Some. by apply H2.
  - destruct Hinv as (H1 & H2 & H3 & H4). split_and!; [| |done|done]; cbn.
    + intros sd fd (? & ? & ?)%H1. rewrite lookup_delete_ne by congruence. done.
    + intros q fd [_ Hq]%lookup_delete_Some. by apply H2.
  - destruct Hinv as (H1 & H2 & H3 & H4). split_and!; [|done|done|cbn; by rewrite H0].
    intros sd fd Hl. cbn. destruct (H1 _ _ Hl) as (? & ? & ?). rewrite (Ho sd) by done. done.
Qed.

Lemma local_reach_inv s : local_reach s → local_inv s.
Proof.
  induction 1 as [f p Hf|s s' _ IH Hs]; [|by eapply local_step_inv].
  split_and!; cbn; [intros ? ? [? [=]]|done|intros ? ? ? [? [=]]|by eexists].
Qed.

Lemma getLease_of s sd v : _globalLockMap s !! sd = Some v → _getLease (lock_of sd) s = v.
Proof. unfold _getLease. cbn. by intros ->. Qed.

Lemma inquire_lockfile s sd fd :
  local_inv s → lockfile s sd fd → inquire (lock_of sd) (lease_of sd) s = Ok (LVER, fst (_getLease (lock_of sd) s)).
Proof.
  intros (H1 & _) Hl. destruct (H1 _ _ Hl) as (Hfd & _). destruct Hl as [h Hm].
  unfold inquire. cbn [_lease lock_of]. rewrite bool_decide_true by done. rewrite (getLease_of _ _ _ Hm). cbn.
  by destruct (Z.eqb_spec fd 0).
Qed.

(** the locks of a process are the flocks it holds, whatever other processes lock and whatever else the
    process opens: a file is locked by a descriptor of the process exactly when the map has that
    descriptor for the domain of the file, so two processes never both hold it. [acquire]
    succeeds only with the lock held, keeps the host id and makes [inquire] report it, and
    when it raises it leaves neither a descriptor nor a change behind; [release] gives the lock up and keeps
    the host id. *)
Theorem local_lock_safety s :
  local_reach s →
  (∀ p fd, locks (kern s) !! p = Some (Fd fd) ↔ ∃ sd, lockfile s sd fd ∧ path_of sd = p)
  ∧ (∀ sd lease opened failure s' r, fresh opened s → acquire (lock_of sd) lease opened failure s = (s', r) →
       match r with
       | Ok _ => ∃ fd, lockfile s' sd fd ∧ locks (kern s') !! path_of sd = Some (Fd fd)
                   ∧ inquire (lock_of sd) lease s' = Ok (LVER, fst (_getLease (lock_of sd) s))
       | Raise _ => s' = s
       end)
  ∧ (∀ sd s' r, release (lock_of sd) (lease_of sd) s = (s', r) →
       r = Ok () ∧ (∀ fd, ¬ lockfile s' sd fd) ∧ inquire (lock_of sd) (lease_of sd) s' = Ok (LVER, None)
       ∧ fst (_getLease (lock_of sd) s') = fst (_getLease (lock_of sd) s)).
Proof.
  intros Hinv%local_reach_inv. pose proof Hinv as (H1 & H2 & H3 & H4). split_and!.
  - intros p fd. split; [apply H2|]. intros (sd & Hl & <-). by apply H1.
  - intros sd lease opened failure s' r Hf Ha. pose proof Ha as Hc.
    apply acquire_cases in Hc as [(-> & -> & Hs')|[-> [x ->]]]; [|done|done|done].
    assert (Hinv' : local_inv s').
    { eapply local_step_inv; [done|]. pose proof (local_acquire sd (lease_of sd) opened failure s Hf) as Hs. by rewrite Ha in Hs. }
    destruct Hs' as [[-> [fd Hl]]|(fd & h & -> & El & Hk & ->)]; exists fd.
    + split_and!; [done|by apply H1|]. by eapply inquire_lockfile.
    + assert (Hl : lockfile (locked_state sd h fd s) sd fd) by (exists h; apply lookup_insert_eq).
      split_and!; [done|apply lookup_insert_eq|]. rewrite (inquire_lockfile _ _ fd) by done.
      rewrite (getLease_of _ sd (h, Some fd)) by apply lookup_insert_eq. by rewrite El.
  - intros sd s' r Hr. pose proof Hr as Hc. apply release_cases in Hc as [[-> [[x ->]|[-> Hno]]]|(fd & h & -> & Hm & ->)]; [| | |done].
    + exfalso. revert Hr. unfold release. cbn [_lease lock_of]. rewrite bool_decide_true by done. cbn [negb].
      destruct (_getLease (lock_of sd) s) as [h [fd|]] eqn:El; [|done].
      destruct (H1 _ _ (getLease_lockfile _ _ _ _ El)) as (? & Ho & _). unfold close_fd. rewrite Ho.
      by destruct (truthy (Some fd)).
    + split_and!; [done|done| |done]. unfold inquire. cbn [_lease lock_of]. rewrite bool_decide_true by done. cbn [negb].
      destruct (_getLease (lock_of sd) s) as [h [fd|]] eqn:El; [|done].
      by destruct (Hno fd (getLease_lockfile _ _ _ _ El)).
    + rewrite (getLease_of s sd (h, Some fd)) by done. unfold inquire. cbn [_lease lock_of]. rewrite bool_decide_true by done.
      rewrite (getLease_of _ sd (h, None)) by apply lookup_insert_eq. split_and!; try done.
      intros fd' [h' Hl]. cbn in Hl. by rewrite lookup_insert_eq in Hl.
Qed.
End Process.

(** A process with its standard input open locks a domain. *)
Definition ids (sd : text) : text := str "/rhev/"%string ++ sd.
Definition spm_lease (sd : text) : Lease := mkLease (str "SDM"%string) sd 0.
Definition process0 : LocalLocks := mkLocal (mkKernel {[0 := str "/dev/null"%string]} ∅) ∅.
Definition sd1 : text := str "sd1"%string.

Lemma local_lock_safety_witness :
  ∃ s s', local_reach ids spm_lease s ∧ acquire (lock_of ids spm_lease sd1) (spm_lease sd1) (Ok 7) None s = (s', Ok ())
    ∧ inquire (lock_of ids spm_lease sd1) (spm_lease sd1) s' = Ok (0, Some 3).
Proof.
  set (s := fst (acquireHostId (lock_of ids spm_lease sd1) 3 process0)).
  assert (Hr : local_reach ids spm_lease s).
  { eapply local_next; [apply (local_init _ _ {[0 := str "/dev/null"%string]} (str "/dev/null"%string)); reflexivity|].
    apply (local_acquire_id ids spm_lease sd1 3 process0). }
  exists s, (fst (acquire (lock_of ids spm_lease sd1) (spm_lease sd1) (Ok 7) None s)).
  split; [exact Hr|]. split; [vm_compute; reflexivity|].
  destruct (proj1 (proj2 (local_lock_safety ids spm_lease s Hr)) sd1 (spm_lease sd1) (Ok 7) None
    (fst (acquire (lock_of ids spm_lease sd1) (spm_lease sd1) (Ok 7) None s)) (Ok ())) as (fd & _ & _ & H);
    [vm_compute; reflexivity|vm_compute; reflexivity|]. exact H.
Defined.

(** Without a host id the lock is taken all the same, and [inquire] reports the held lock as free. *)
Lemma lock_without_host_id :
  let '(s, r) := acquire (lock_of ids spm_lease sd1) (spm_lease sd1) (Ok 7) None process0 in
  r = Ok () ∧ locks (kern s) !! ids sd1 = Some (Fd 7)
  ∧ inquire (lock_of ids spm_lease sd1) (spm_lease sd1) s = Ok (LVER, None).
Proof. vm_compute. by repeat split. Qed.

(** [alignment] accepts one to [HOSTS_MAX] hosts and the two block sizes, and then gives one of the four
    alignments of sanlock, in which a lease with its two leading sectors and a sector for
    every host fits; more hosts never need less. *)
Theorem alignment_fits block_size max_hosts :
  match alignment block_size max_hosts with
  | Raise _ => max_hosts < 1 ∨ HOSTS_MAX < max_hosts ∨ (block_size ≠ BLOCK_SIZE_512 ∧ block_size ≠ BLOCK_SIZE_4K)
  | Ok a =>
      1 <= max_hosts <= HOSTS_MAX ∧ (block_size = BLOCK_SIZE_512 ∨ block_size = BLOCK_SIZE_4K)
      ∧ a ∈ [ALIGNMENT_1M; ALIGNMENT_2M; ALIGNMENT_4M; ALIGNMENT_8M] ∧ a mod block_size = 0
      ∧ (2 + max_hosts) * block_size <= a
      ∧ ∀ m b, max_hosts <= m → alignment block_size m = Ok b → a <= b
  end.
Proof.
  unfold alignment, BLOCK_SIZE_512, BLOCK_SIZE_4K, HOSTS_MAX, HOSTS_4K_4M, HOSTS_4K_2M, HOSTS_4K_1M,
    ALIGNMENT_1M, ALIGNMENT_2M, ALIGNMENT_4M, ALIGNMENT_8M, MiB.
  destruct ((max_hosts <? 1) || (max_hosts >? 2000)) eqn:E1; [lia|].
  destruct ((block_size =? 512) || (block_size =? 4096)) eqn:E2; cbn [negb]; [|lia].
  destruct (Z.eqb_spec block_size 512) as [->|Hb].
  - split_and!; [lia|lia|lia|set_solver|done|lia|]. intros m b Hm. cbn.
    repeat (destruct (_ || _)); try done. intros [= <-]. lia.
  - assert (block_size = 4096) as -> by lia. cbn [orb negb Z.eqb Pos.eqb].
    destruct (Z.gtb_spec max_hosts 1000); [|destruct (Z.gtb_spec max_hosts 500); [|destruct (Z.gtb_spec max_hosts 250)]].
    all: split_and!; [lia|lia|lia|set_solver|reflexivity|lia|]; intros m b Hm;
      destruct ((m <? 1) || (m >? 2000)); try done; cbn;
      destruct (Z.gtb_spec m 1000); [|destruct (Z.gtb_spec m 500); [|destruct (Z.gtb_spec m 250)]];
      intros [= <-]; lia.
Qed.
