(* ===== verification/EventLoop.v ===== *)
(** * The event loop: [storage/asyncevent.py]

    [EventLoop] with its ready queue and its heap of timers, [Handle] and [Timer], [BufferedReader] and [Reaper].  A
    cycle of the loop is taken apart into the calls it makes, so that other threads may call
    [call_soon_threadsafe] between any two of them.  What the callbacks of the program do is
    a parameter: the calls they make of the loop, which may depend on its state. *)
From Stdlib Require Import ZArith Lia.
From stdpp Require Import base gmap list.
From S2P Require Import Prelude Heap.
Open Scope Z_scope.

Inductive error := RuntimeError.

(** [_callback] of a handle: a function of the program, [_readwrite] for an event, [_raise_stop_error], [_CANCELLED],
    or None once it has run. *)
Inductive callback := Func (f : nat) | Readwrite (fd obj flags : Z) | RaiseStopError | CANCELLED | NoCallback.

#[export] Instance callback_eq_dec : EqDecision callback.
Proof. solve_decision. Defined.

(** A [Handle], or a [Timer] when it has [_when]. *)
Record Handle := mkHandle { _callback : callback; _when : option Z }.

(** Where [run_forever] is: not running, at the start of a cycle, in [poll] with a
    timeout, or with handles of the cycle left to do. *)
Inductive position := Stopped | Top | Polling (timeout : option Z) | Running (ntodo : nat).

(** [ran] are the handles that were run, with the clock of their cycle; [todo] is the ready
    queue when the cycle began to run its handles. *)
Record EventLoop := mkLoop {
  handles : gmap nat Handle;
  next : nat;
  _scheduled : list nat;
  _ready : list nat;
  _channels : gmap Z Z;
  _running : bool;
  _closed : bool;
  pos : position;
  clock : Z;
  todo : list nat;
  ran : list (nat * Z);
}.

(** The state of a new loop; the waker is the only channel. *)
Definition new_loop (wfd waker : Z) : EventLoop := mkLoop ∅ 0 [] [] {[wfd := waker]} false false Stopped 0 [] [].

Definition when_of (hs : gmap nat Handle) (h : nat) : Z :=
  match hs !! h with Some (mkHandle _ (Some w)) => w | _ => 0 end.

(** [Handle._cancelled] *)
Definition _cancelled (hs : gmap nat Handle) (h : nat) : bool :=
  match hs !! h with Some hd => bool_decide (_callback hd = CANCELLED) | None => false end.

Definition set_callback (c : callback) (h : nat) (s : EventLoop) : EventLoop :=
  mkLoop (alter (fun hd => mkHandle c (_when hd)) h (handles s)) (next s) (_scheduled s) (_ready s) (_channels s)
    (_running s) (_closed s) (pos s) (clock s) (todo s) (ran s).

(** [Handle.cancel] *)
Definition cancel (h : nat) (s : EventLoop) : EventLoop := set_callback CANCELLED h s.

Definition set_scheduled (l : list nat) (s : EventLoop) : EventLoop :=
  mkLoop (handles s) (next s) l (_ready s) (_channels s) (_running s) (_closed s) (pos s) (clock s) (todo s) (ran s).
Definition set_ready (l : list nat) (s : EventLoop) : EventLoop :=
  mkLoop (handles s) (next s) (_scheduled s) l (_channels s) (_running s) (_closed s) (pos s) (clock s) (todo s) (ran s).
Definition set_pos (p : position) (s : EventLoop) : EventLoop :=
  mkLoop (handles s) (next s) (_scheduled s) (_ready s) (_channels s) (_running s) (_closed s) p (clock s) (todo s) (ran s).
Definition set_running (b : bool) (s : EventLoop) : EventLoop :=
  mkLoop (handles s) (next s) (_scheduled s) (_ready s) (_channels s) b (_closed s) (pos s) (clock s) (todo s) (ran s).
Definition begin_cycle (now : Z) (s : EventLoop) : EventLoop :=
  mkLoop (handles s) (next s) (_scheduled s) (_ready s) (_channels s) (_running s) (_closed s)
    (Running (length (_ready s))) now (_ready s) (ran s).
Definition log_run (h : nat) (s : EventLoop) : EventLoop :=
  mkLoop (handles s) (next s) (_scheduled s) (_ready s) (_channels s) (_running s) (_closed s) (pos s) (clock s) (todo s)
    (ran s ++ [(h, clock s)]).

(** [_call_soon] *)
Definition _call_soon (c : callback) (s : EventLoop) : EventLoop :=
  mkLoop (<[next s := mkHandle c None]> (handles s)) (S (next s)) (_scheduled s) (_ready s ++ [next s]) (_channels s)
    (_running s) (_closed s) (pos s) (clock s) (todo s) (ran s).

(** [call_at] after [_check_closed] *)
Definition _call_at (w : Z) (c : callback) (s : EventLoop) : EventLoop :=
  let hs := <[next s := mkHandle c (Some w)]> (handles s) in
  mkLoop hs (S (next s)) (heappush (when_of hs) (_scheduled s) (next s)) (_ready s) (_channels s)
    (_running s) (_closed s) (pos s) (clock s) (todo s) (ran s).

Definition _check_closed : M EventLoop error unit := fun s => (s, if _closed s then Raise RuntimeError else Ok ()).

(** The handle a call makes is its result. *)
Definition new_handle (f : EventLoop → EventLoop) : M EventLoop error nat := fun s => (f s, Ok (next s)).

Definition call_soon (f : nat) : M EventLoop error nat := _ ← _check_closed; new_handle (_call_soon (Func f)).

(** [call_soon_threadsafe]: no error when the loop is closed; the write to the waker only ends
    the [poll]. *)
Definition call_soon_threadsafe (f : nat) : M EventLoop error nat := new_handle (_call_soon (Func f)).

Definition call_at (w : Z) (f : nat) : M EventLoop error nat := _ ← _check_closed; new_handle (_call_at w (Func f)).

Definition call_later (now delay : Z) (f : nat) : M EventLoop error nat := call_at (now + delay) f.

Definition stop : M EventLoop error unit := _ ← _check_closed; modify (_call_soon RaiseStopError).

(** [close]; [asyncore.close_all] closes the channels. *)
Definition close : M EventLoop error unit := fun s =>
  if _running s then (s, Raise RuntimeError)
  else if _closed s then (s, Ok ())
  else (mkLoop (handles s) (next s) [] [] ∅ (_running s) true (pos s) (clock s) (todo s) (ran s), Ok ()).

(** What a callback may do with the loop; an error ends it. *)
Inductive action := ACallSoon (f : nat) | ACallAt (w : Z) (f : nat) | ACallLater (now delay : Z) (f : nat) | ACancel (h : nat) | AStop | AClose.

Definition do_action (a : action) : M EventLoop error unit :=
  match a with
  | ACallSoon f => _ ← call_soon f; mret ()
  | ACallAt w f => _ ← call_at w f; mret ()
  | ACallLater now delay f => _ ← call_later now delay f; mret ()
  | ACancel h => modify (cancel h)
  | AStop => stop
  | AClose => close
  end.

Fixpoint do_actions (l : list action) : M EventLoop error unit :=
  match l with [] => mret () | a :: l => _ ← do_action a; do_actions l end.

Section Loop.
(** What a function of the program and an event of a dispatcher do. *)
Context (body : nat → EventLoop → list action) (readwrite : Z → Z → EventLoop → list action).

(** [_readwrite]: only a dispatcher that is still registered gets the event. *)
Definition _readwrite (fd obj flags : Z) (s : EventLoop) : EventLoop :=
  if bool_decide (_channels s !! fd = Some obj) then fst (do_actions (readwrite obj flags s) s) else s.

(** [Handle._run]: an Exception is logged; [_StopError] is not an Exception and leaves the handle as it is. *)
Definition _run (h : nat) (s : EventLoop) : EventLoop * bool :=
  let s := log_run h s in
  match handles s !! h with
  | Some (mkHandle RaiseStopError _) => (s, true)
  | Some (mkHandle (Func f) _) => (set_callback NoCallback h (fst (do_actions (body f s) s)), false)
  | Some (mkHandle (Readwrite fd obj flags) _) => (set_callback NoCallback h (_readwrite fd obj flags s), false)
  | _ => (set_callback NoCallback h s, false)
  end.

(** Remove cancelled timers from the head of the heap. *)
Fixpoint drop_cancelled (fuel : nat) (hs : gmap nat Handle) (l : list nat) : list nat :=
  match fuel with
  | O => l
  | S fuel =>
      match l with
      | [] => l
      | h :: _ => if _cancelled hs h
                  then match heappop (when_of hs) l with Some (_, l') => drop_cancelled fuel hs l' | None => l end
                  else l
      end
  end.

(** Move the timers that are due to the ready queue. *)
Fixpoint take_due (fuel : nat) (hs : gmap nat Handle) (now : Z) (l ready : list nat) : list nat * list nat :=
  match fuel with
  | O => (l, ready)
  | S fuel =>
      match l with
      | [] => (l, ready)
      | h :: _ => if now <? when_of hs h then (l, ready)
                  else match heappop (when_of hs) l with
                       | Some (h, l') => take_due fuel hs now l' (ready ++ [h])
                       | None => (l, ready)
                       end
      end
  end.

(** [_process_events] *)
Definition _process_events (events : list (Z * Z * Z)) (s : EventLoop) : EventLoop :=
  foldl (fun s '(fd, obj, flags) => _call_soon (Readwrite fd obj flags) s) s events.

(** [run_forever] up to its loop *)
Definition run_forever : M EventLoop error unit :=
  _ ← _check_closed;
  s ← get;
  if _running s then raise RuntimeError else put (set_pos Top (set_running true s)).

(** [_run_once] up to [poll]; [now] is the clock *)
Definition cycle_start (now : Z) (s : EventLoop) : EventLoop :=
  let scheduled := drop_cancelled (length (_scheduled s)) (handles s) (_scheduled s) in
  let timeout := match _ready s, scheduled with
                 | _ :: _, _ => Some 0
                 | [], h :: _ => Some (Z.max 0 (when_of (handles s) h - now))
                 | [], [] => None
                 end in
  set_pos (Polling timeout) (set_scheduled scheduled s).

(** [_run_once] from the return of [poll] to the loop over the ready handles *)
Definition cycle_poll (events : list (Z * Z * Z)) (now : Z) (s : EventLoop) : EventLoop :=
  let s := _process_events events s in
  let '(scheduled, ready) := take_due (length (_scheduled s)) (handles s) now (_scheduled s) (_ready s) in
  begin_cycle now (set_ready ready (set_scheduled scheduled s)).

(** One turn of the loop over the ready handles *)
Definition cycle_run (n : nat) (s : EventLoop) : EventLoop :=
  match _ready s with
  | [] => s
  | h :: ready =>
      let s := set_pos (Running n) (set_ready ready s) in
      if _cancelled (handles s) h then s
      else let '(s, stopped) := _run h s in
           if stopped then set_pos Stopped (set_running false s) else s
  end.

(** A step of the loop; [events] and [now] are what [poll] and the clock give. *)
Definition loop_step (events : list (Z * Z * Z)) (now : Z) (s : EventLoop) : EventLoop :=
  match pos s with
  | Stopped => s
  | Top => cycle_start now s
  | Polling _ => cycle_poll events now s
  | Running O => set_pos Top s
  | Running (S n) => cycle_run n s
  end.

(** The loop, its thread outside of [run_forever], and the other threads; the clock is monotonic. *)
Inductive step : EventLoop → EventLoop → Prop :=
| step_loop events now s : clock s <= now → step s (loop_step events now s)
| step_run s : pos s = Stopped → step s (fst (run_forever s))
| step_action a s : pos s = Stopped → step s (fst (do_action a s))
| step_thread f s : step s (fst (call_soon_threadsafe f s))
| step_cancel h s : step s (cancel h s).

Inductive reach (s0 : EventLoop) : EventLoop → Prop :=
| reach_refl : reach s0 s0
| reach_step s s' : reach s0 s → step s s' → reach s0 s'.
End Loop.

(** ** BufferedReader *)

(** [_complete] is whether the function is still to be called; [completed] has what it was called with. *)
Record BufferedReader := mkReader {
  _data : bytes;
  _complete : bool;
  closing : bool;
  completed : list bytes;
}.

Definition new_reader : BufferedReader := mkReader [] true false [].

(** [close]: nothing is called once the reader is closed. *)
Definition reader_close (r : BufferedReader) : BufferedReader :=
  if closing r then r else mkReader (_data r) false true (completed r).

Definition handle_close (r : BufferedReader) : BufferedReader :=
  reader_close (if _complete r then mkReader (_data r) false (closing r) (completed r ++ [_data r]) else r).

Definition handle_read (chunk : bytes) (r : BufferedReader) : BufferedReader :=
  match chunk with
  | [] => handle_close r
  | _ => mkReader (_data r ++ chunk) (_complete r) (closing r) (completed r)
  end.

Definition handle_error (r : BufferedReader) : BufferedReader := handle_close r.

Inductive reader_event := RRead (chunk : bytes) | RClosed | RError | RClose.

Definition reader_step (r : BufferedReader) (e : reader_event) : BufferedReader :=
  match e with
  | RRead chunk => handle_read chunk r
  | RClosed => handle_close r
  | RError => handle_error r
  | RClose => reader_close r
  end.

(** ** Reaper *)

(** [calls] are the delays of the calls of [reap] the reaper asked for, [codes] what it completed with. *)
Record Reaper := mkReaper {
  _interval : Z;
  _max_interval : Z;
  _count : nat;
  calls : list Z;
  codes : list Z;
}.

(** [Reaper.__init__] *)
Definition new_reaper (min_interval max_interval : Z) : Reaper := mkReaper min_interval max_interval 0 [min_interval] [].

(** [reap]; [rc] is what [poll] gives. *)
Definition reap (rc : option Z) (r : Reaper) : Reaper :=
  match rc with
  | None =>
      let interval := if _interval r <? _max_interval r then _interval r * 2 else _interval r in
      mkReaper interval (_max_interval r) (S (_count r)) (calls r ++ [interval]) (codes r)
  | Some rc => mkReaper (_interval r) (_max_interval r) (S (_count r)) (calls r) (codes r ++ [rc])
  end.
