(* ===== verification/EventLoopSpec.v ===== *)
(** * What the event loop promises

    Every handle runs at most once and no timer early, a cancelled handle never, nothing is lost, and a
    cycle runs the handles that were ready when it began, in their order. *)
From Stdlib Require Import ZArith Lia.
From stdpp Require Import base gmap list.
From S2P Require Import Prelude Heap EventLoop.
Open Scope Z_scope.

(** The handles that wait, are scheduled, or have run. *)
Definition ids (s : EventLoop) : list nat := _ready s ++ _scheduled s ++ (ran s).*1.
Arguments ids : simpl never.

Record base_inv (s : EventLoop) : Prop := {
  b_nodup : NoDup (ids s);
  b_dom : ∀ h, is_Some (handles s !! h) ↔ (h < next s)%nat;
  b_ids : ∀ h, h ∈ ids s → (h < next s)%nat;
  b_heap : heap_ordered (when_of (handles s)) (_scheduled s);
  b_sched : ∀ h, h ∈ _scheduled s → ∃ c w, handles s !! h = Some (mkHandle c (Some w));
  b_ready : ∀ h c w, h ∈ _ready s → handles s !! h = Some (mkHandle c (Some w)) → w <= clock s;
  b_ran : ∀ h t c w, (h, t) ∈ ran s → handles s !! h = Some (mkHandle c (Some w)) → w <= t;
  b_all : _closed s = false → ∀ h, (h < next s)%nat → h ∈ ids s ∨ _cancelled (handles s) h = true;
}.

(** What the calls of a callback leave alone. *)
Record grows (s s' : EventLoop) : Prop := {
  g_ready : ∃ new, _ready s' = _ready s ++ new;
  g_ran : ran s' = ran s;
  g_pos : pos s' = pos s;
  g_clock : clock s' = clock s;
  g_todo : todo s' = todo s;
  g_running : _running s' = _running s;
  g_closed : _closed s' = _closed s;
  g_cancelled : ∀ h, _cancelled (handles s) h = true → _cancelled (handles s') h = true;
}.

Lemma grows_refl s : grows s s.
Proof. constructor; try done. exists []. by rewrite app_nil_r. Qed.

Lemma grows_trans s1 s2 s3 : grows s1 s2 → grows s2 s3 → grows s1 s3.
Proof.
  intros [[n1 A1] A2 A3 A4 A5 A6 A7 A8] [[n2 B1] B2 B3 B4 B5 B6 B7 B8]. constructor; try congruence; [|auto].
  exists (n1 ++ n2). by rewrite B1, A1, app_assoc.
Qed.

(** A new handle *)
Lemma handles_new s h hd :
  base_inv s → (h < next s)%nat → (<[next s := hd]> (handles s)) !! h = handles s !! h.
Proof. intros _ Hh. apply lookup_insert_ne. lia. Qed.

Lemma cancelled_ext hs hs' h : hs !! h = hs' !! h → _cancelled hs h = _cancelled hs' h.
Proof. unfold _cancelled. by intros ->. Qed.

Lemma when_ext hs hs' h : hs !! h = hs' !! h → when_of hs h = when_of hs' h.
Proof. unfold when_of. by intros ->. Qed.

Lemma next_fresh s : base_inv s → next s ∉ ids s.
Proof. intros H Hin. apply (b_ids s H) in Hin. lia. Qed.

Lemma cancelled_lt s h : base_inv s → _cancelled (handles s) h = true → (h < next s)%nat.
Proof. intros H Hc. apply (b_dom s H). unfold _cancelled in Hc. destruct (handles s !! h); [eauto|done]. Qed.

Lemma dom_new s hd : base_inv s → ∀ h, is_Some ((<[next s := hd]> (handles s)) !! h) ↔ (h < S (next s))%nat.
Proof.
  intros H h. rewrite lookup_insert_is_Some'. rewrite (b_dom s H). lia.
Qed.

Lemma base_call_soon c s : base_inv s → base_inv (_call_soon c s) ∧ grows s (_call_soon c s).
Proof.
  intros H. pose proof (next_fresh s H) as Hf. destruct H as [H1 H2 H3 H4 H5 H6 H7 H8] eqn:EH; clear EH.
  assert (Hold : ∀ h, (h < next s)%nat → (<[next s := mkHandle c None]> (handles s)) !! h = handles s !! h)
    by (intros h Hh; apply lookup_insert_ne; lia).
  assert (Hids : ids (_call_soon c s) ≡ₚ next s :: ids s).
  { unfold ids; cbn. rewrite <-app_assoc. cbn. by rewrite <-Permutation_middle. }
  split; constructor; cbn; try done.
  - rewrite Hids. by constructor.
  - by apply dom_new.
  - intros h. rewrite Hids. intros [->|Hh]%elem_of_cons; [lia|]. apply H3 in Hh. lia.
  - eapply heap_key_ext; [|done]. intros h Hh. apply when_ext. symmetry. apply Hold, H3. unfold ids. set_solver.
  - intros h Hh. rewrite Hold; [by apply H5|]. apply H3. unfold ids. set_solver.
  - intros h c' w [Hh|Hh]%elem_of_app.
    + rewrite Hold; [by apply H6|]. apply H3. unfold ids. set_solver.
    + apply list_elem_of_singleton in Hh as ->. rewrite lookup_insert_eq. by intros [=].
  - intros h t c' w Hh. rewrite Hold; [by apply H7|]. apply H3. unfold ids. rewrite !elem_of_app. right. right.
    apply list_elem_of_fmap. by exists (h, t).
  - intros Hc h Hh. rewrite Hids, elem_of_cons. destruct (decide (h = next s)) as [->|]; [auto|].
    destruct (H8 Hc h ltac:(lia)) as [?|Hx]; [auto|]. right. rewrite (cancelled_ext _ (handles s)); [done|]. apply Hold. lia.
  - eauto.
  - intros h Hc. rewrite (cancelled_ext _ (handles s)); [done|]. apply Hold.
    apply H2. unfold _cancelled in Hc. destruct (handles s !! h); [eauto|done].
Qed.

Lemma base_call_at w c s : base_inv s → base_inv (_call_at w c s) ∧ grows s (_call_at w c s).
Proof.
  intros H. pose proof (next_fresh s H) as Hf. destruct H as [H1 H2 H3 H4 H5 H6 H7 H8] eqn:EH; clear EH.
  set (hs := <[next s := mkHandle c (Some w)]> (handles s)).
  assert (Hold : ∀ h, (h < next s)%nat → hs !! h = handles s !! h) by (intros h Hh; apply lookup_insert_ne; lia).
  assert (Hp : heappush (when_of hs) (_scheduled s) (next s) ≡ₚ next s :: _scheduled s) by apply heappush_perm.
  assert (Hids : ids (_call_at w c s) ≡ₚ next s :: ids s).
  { unfold ids; cbn. fold hs. rewrite Hp. cbn. by rewrite <-Permutation_middle. }
  split; constructor; cbn; fold hs; try change (ids _) with (ids (_call_at w c s)) in *; try done.
  - rewrite Hids. by constructor.
  - by apply dom_new.
  - intros h. rewrite Hids. intros [->|Hh]%elem_of_cons; [lia|]. apply H3 in Hh. lia.
  - apply heappush_ordered. eapply heap_key_ext; [|done]. intros h Hh. apply when_ext. symmetry. apply Hold, H3. unfold ids. set_solver.
  - intros h. rewrite Hp. intros [->|Hh]%elem_of_cons; [exists c, w; apply lookup_insert_eq|].
    rewrite Hold; [by apply H5|]. apply H3. unfold ids. set_solver.
  - intros h c' w' Hh. rewrite Hold; [by apply H6|]. apply H3. unfold ids. set_solver.
  - intros h t c' w' Hh. rewrite Hold; [by apply H7|]. apply H3. unfold ids. rewrite !elem_of_app. right. right.
    apply list_elem_of_fmap. by exists (h, t).
  - intros Hc h Hh. rewrite Hids, elem_of_cons. destruct (decide (h = next s)) as [->|]; [auto|].
    destruct (H8 Hc h ltac:(lia)) as [?|Hx]; [auto|]. right. rewrite (cancelled_ext _ (handles s)); [done|]. apply Hold. lia.
  - exists []. by rewrite app_nil_r.
  - intros h Hc. rewrite (cancelled_ext _ (handles s)); [done|]. apply Hold.
    apply H2. unfold _cancelled in Hc. destruct (handles s !! h); [eauto|done].
Qed.

(** A callback is replaced *)
Lemma lookup_set_callback c h s h' hd :
  handles (set_callback c h s) !! h' = Some hd → ∃ c', handles s !! h' = Some (mkHandle c' (_when hd)).
Proof.
  cbn. rewrite lookup_alter_Some. intros [(-> & hd' & He & ->)|[_ He]].
  - exists (_callback hd'). cbn. by destruct hd'.
  - exists (_callback hd). by destruct hd.
Qed.

Lemma when_set_callback c h s h' : when_of (handles (set_callback c h s)) h' = when_of (handles s) h'.
Proof.
  unfold when_of. cbn. destruct (decide (h = h')) as [->|]; [|by rewrite lookup_alter_ne].
  rewrite lookup_alter_eq. by destruct (handles s !! h') as [[? []]|].
Qed.

Lemma cancelled_set_callback c h s h' :
  _cancelled (handles s) h' = true → c = CANCELLED ∨ h ≠ h' → _cancelled (handles (set_callback c h s)) h' = true.
Proof.
  unfold _cancelled. cbn. destruct (decide (h = h')) as [->|]; [|by rewrite lookup_alter_ne].
  rewrite lookup_alter_eq. destruct (handles s !! h') as [[? []]|]; cbn; naive_solver.
Qed.

Lemma base_set_callback c h s :
  base_inv s → c = CANCELLED ∨ h ∈ (ran s).*1 → base_inv (set_callback c h s).
Proof.
  intros [H1 H2 H3 H4 H5 H6 H7 H8] Hc. constructor; try done.
  - intros h'. cbn. rewrite lookup_alter_is_Some. apply H2.
  - eapply heap_key_ext; [|exact H4]. intros h' _. by rewrite when_set_callback.
  - intros h' Hh. destruct (H5 h' Hh) as (c' & w & He). cbn. destruct (decide (h = h')) as [->|].
    + rewrite lookup_alter_eq, He. cbn. eauto.
    + rewrite lookup_alter_ne by done. eauto.
  - intros h' c' w Hh (c'' & He)%lookup_set_callback. by eapply H6.
  - intros h' t c' w Hh (c'' & He)%lookup_set_callback. by eapply H7.
  - intros Hcl h' Hh. destruct (H8 Hcl h' Hh) as [?|Hx]; [by left|].
    destruct Hc as [->|Hr]; [right; apply cancelled_set_callback; auto|].
    destruct (decide (h = h')) as [<-|]; [left; unfold ids; rewrite !elem_of_app; auto|].
    right. apply cancelled_set_callback; auto.
Qed.

Lemma base_cancel h s : base_inv s → base_inv (cancel h s) ∧ grows s (cancel h s).
Proof.
  intros H. split; [apply base_set_callback; auto|]. constructor; try done.
  - exists []. cbn. by rewrite app_nil_r.
  - intros h' Hc. apply cancelled_set_callback; auto.
Qed.

(** The calls a callback makes while the loop runs *)
Lemma base_action a s :
  base_inv s → _running s = true → base_inv (fst (do_action a s)) ∧ grows s (fst (do_action a s)).
Proof.
  intros H Hr. destruct a; cbn; unfold call_soon, call_later, call_at, stop, _check_closed, close; munfold_goal; cbn.
  all: try (by apply base_cancel).
  all: rewrite ?Hr; try (by split; [done|apply grows_refl]).
  all: destruct (_closed s); cbn; try (by split; [done|apply grows_refl]).
  all: auto using base_call_soon, base_call_at.
Qed.

Lemma base_actions l s :
  base_inv s → _running s = true → base_inv (fst (do_actions l s)) ∧ grows s (fst (do_actions l s)).
Proof.
  revert s. induction l as [|a l IH]; intros s H Hr; cbn; [split; [done|apply grows_refl]|].
  destruct (base_action a s H Hr) as [H1 G1]. munfold_goal.
  destruct (do_action a s) as [s1 [[]|e]]; cbn in *; [|done].
  destruct (IH s1 H1) as [H2 G2]; [by rewrite (g_running _ _ G1)|]. eauto using grows_trans.
Qed.

(** ** The heap of the timers *)

Lemma drop_cancelled_spec fuel hs l :
  heap_ordered (when_of hs) l →
  heap_ordered (when_of hs) (drop_cancelled fuel hs l)
  ∧ ∃ dropped, l ≡ₚ dropped ++ drop_cancelled fuel hs l ∧ ∀ h, h ∈ dropped → _cancelled hs h = true.
Proof.
  revert l. induction fuel as [|fuel IH]; intros l Hh; cbn; [split; [done|]; exists []; set_solver|].
  destruct l as [|h l]; [split; [done|]; exists []; set_solver|].
  destruct (_cancelled hs h) eqn:Ec; [|split; [done|]; exists []; set_solver].
  destruct (heappop_spec (when_of hs) (h :: l) Hh) as (x & l' & -> & Hx & Hp & Hh'); [done|]. injection Hx as <-.
  destruct (IH l' Hh') as [H1 (d & H2 & H3)]. split; [done|]. exists (h :: d). split; [|set_solver].
  rewrite Hp. cbn. by constructor.
Qed.

Lemma take_due_spec fuel hs now l ready l' ready' :
  heap_ordered (when_of hs) l → (length l <= fuel)%nat → take_due fuel hs now l ready = (l', ready') →
  heap_ordered (when_of hs) l' ∧ (∀ h, h ∈ l' → now < when_of hs h)
  ∧ ∃ due, ready' = ready ++ due ∧ l ≡ₚ due ++ l' ∧ ∀ h, h ∈ due → when_of hs h <= now.
Proof.
  revert l ready. induction fuel as [|fuel IH]; intros l ready Hh Hf; cbn.
  { intros [= <- <-]. destruct l; [|cbn in Hf; lia]. split_and!; [done|set_solver|]. exists []. rewrite app_nil_r. set_solver. }
  destruct l as [|h l].
  { intros [= <- <-]. split_and!; [done|set_solver|]. exists []. rewrite app_nil_r. set_solver. }
  destruct (Z.ltb_spec now (when_of hs h)) as [Hlt|Hge].
  { intros [= <- <-]. split_and!; [done| |].
    - intros h' Hin. pose proof (heap_head (when_of hs) (h :: l) h Hh eq_refl h' Hin). lia.
    - exists []. rewrite app_nil_r. set_solver. }
  destruct (heappop_spec (when_of hs) (h :: l) Hh) as (x & l1 & -> & Hx & Hp & Hh'); [done|]. injection Hx as <-.
  intros E. apply IH in E as (H1 & H2 & due & -> & H3 & H4); [|done|apply Permutation_length in Hp; cbn in *; lia].
  split_and!; [done|done|]. exists (h :: due). split_and!; [by rewrite <-app_assoc| |set_solver].
  rewrite Hp. cbn. by constructor.
Qed.

Lemma base_events events s :
  base_inv s → base_inv (_process_events events s) ∧ grows s (_process_events events s).
Proof.
  revert s. induction events as [|[[fd obj] flags] events IH]; intros s H; cbn; [split; [done|apply grows_refl]|].
  destruct (base_call_soon (Readwrite fd obj flags) s H) as [H1 G1]. destruct (IH _ H1) as [H2 G2].
  eauto using grows_trans.
Qed.

(** ** A cycle *)

(** The handles of the cycle that are done, those of them that ran, in order, and those to come. *)
Definition cycle_inv (n : nat) (s : EventLoop) : Prop :=
  ∃ done before runs,
    (n <= length (_ready s))%nat ∧ todo s = done ++ take n (_ready s)
    ∧ ran s = before ++ runs ∧ runs.*1 `sublist_of` done
    ∧ ∀ h, h ∈ done → h ∉ before.*1 ∧ (h ∈ (ran s).*1 ∨ _cancelled (handles s) h = true).

Record loop_inv (s : EventLoop) : Prop := {
  l_base : base_inv s;
  l_running : _running s = true ↔ pos s ≠ Stopped;
  l_closed : _closed s = true → pos s = Stopped;
  l_cycle : ∀ n, pos s = Running n → cycle_inv n s;
}.

Lemma cycle_grows n s s' : cycle_inv n s → grows s s' → cycle_inv n s'.
Proof.
  intros (d & b & r & H1 & H2 & H3 & H4 & H5) [[new G1] G2 G3 G4 G5 G6 G7 G8].
  exists d, b, r. rewrite G1, G2, G5. split_and!; try done.
  - rewrite length_app. lia.
  - rewrite take_app_le by done. done.
  - intros h Hh. destruct (H5 h Hh) as [? [?|?]]; auto.
Qed.

Lemma cycle_none n h s : cycle_inv n s → h ∈ (ran s).*1 → cycle_inv n (set_callback NoCallback h s).
Proof.
  intros (d & b & r & H1 & H2 & H3 & H4 & H5) Hh. exists d, b, r. split_and!; try done.
  intros h' Hd. destruct (H5 h' Hd) as [? [?|?]]; [by auto|]. split; [done|].
  destruct (decide (h = h')) as [<-|]; [by left|]. right. apply cancelled_set_callback; auto.
Qed.

Lemma loop_grows s s' : loop_inv s → grows s s' → base_inv s' → loop_inv s'.
Proof.
  intros [H1 H2 H3 H4] G Hb. pose proof G as [G1 G2 G3 G4 G5 G6 G7 G8].
  constructor; [done|by rewrite G6, G3|by rewrite G7, G3|]. rewrite G3. intros n Hp. eauto using cycle_grows.
Qed.

Lemma base_cycle_start now s : base_inv s → base_inv (cycle_start now s).
Proof.
  intros [H1 H2 H3 H4 H5 H6 H7 H8]. unfold cycle_start.
  destruct (drop_cancelled_spec (length (_scheduled s)) (handles s) (_scheduled s) H4) as [Hh (d & Hp & Hd)].
  set (l := drop_cancelled _ _ _) in *.
  assert (Hids : ids s ≡ₚ d ++ (_ready s ++ l ++ (ran s).*1)).
  { unfold ids. rewrite Hp, <-(app_assoc d). by rewrite Permutation_app_swap_app. }
  constructor; cbn; try done.
  - rewrite Hids in H1. by apply NoDup_app in H1 as (_ & _ & ?).
  - intros h Hh'. apply H3. rewrite Hids, elem_of_app. by right.
  - intros h Hin. apply H5. rewrite Hp. set_solver.
  - intros Hc h Hlt. destruct (H8 Hc h Hlt) as [Hin|?]; [|by right].
    rewrite Hids, elem_of_app in Hin. destruct Hin as [?|?]; [right; by apply Hd|by left].
Qed.

Lemma base_cycle_poll events now s :
  base_inv s → clock s <= now → base_inv (cycle_poll events now s) ∧ (∀ h, h ∈ _scheduled (cycle_poll events now s) → now < when_of (handles (cycle_poll events now s)) h)
  ∧ (∃ due, _ready (cycle_poll events now s) = _ready (_process_events events s) ++ due)
  ∧ pos (cycle_poll events now s) = Running (length (_ready (cycle_poll events now s)))
  ∧ todo (cycle_poll events now s) = _ready (cycle_poll events now s) ∧ ran (cycle_poll events now s) = ran s
  ∧ _running (cycle_poll events now s) = _running s ∧ _closed (cycle_poll events now s) = _closed s.
Proof.
  intros H Hnow. unfold cycle_poll. destruct (base_events events s H) as [[H1 H2 H3 H4 H5 H6 H7 H8] G].
  pose proof (g_clock _ _ G) as Gc. pose proof (g_ran _ _ G) as Gr. pose proof (g_running _ _ G). pose proof (g_closed _ _ G).
  set (s1 := _process_events events s) in *.
  destruct (take_due _ _ _ _ _) as [l r] eqn:E. apply take_due_spec in E as (Hh & Hlate & due & -> & Hp & Hdue); [|done|lia].
  assert (Hids : ids s1 ≡ₚ (_ready s1 ++ due) ++ l ++ (ran s1).*1).
  { unfold ids. by rewrite Hp, <-!app_assoc. }
  split_and!; cbn; try done; [|by exists due]. constructor; cbn; try done.
  - by rewrite <-Hids.
  - intros h Hin. apply H3. by rewrite Hids.
  - intros h Hin. apply H5. rewrite Hp. set_solver.
  - intros h c w [Hin|Hin]%elem_of_app He.
    + specialize (H6 h c w Hin He). lia.
    + specialize (Hdue h Hin). unfold when_of in Hdue. by rewrite He in Hdue.
  - intros Hc h Hlt. destruct (H8 Hc h Hlt) as [Hin|?]; [left|by right]. by rewrite Hids in Hin.
Qed.

(** The next handle of the cycle is taken and not run *)
Lemma skip_cancelled n h l s :
  base_inv s → cycle_inv (S n) s → _ready s = h :: l → _cancelled (handles s) h = true →
  base_inv (set_pos (Running n) (set_ready l s)) ∧ cycle_inv n (set_pos (Running n) (set_ready l s)).
Proof.
  intros [H1 H2 H3 H4 H5 H6 H7 H8] (d & b & r & C1 & C2 & C3 & C4 & C5) Hl Hc.
  assert (Hids : ids s = h :: ids (set_pos (Running n) (set_ready l s))) by (unfold ids; cbn; by rewrite Hl).
  rewrite Hids in *. apply NoDup_cons in H1 as [Hnin H1]. rewrite Hl in *. cbn in C1. split.
  - constructor; try done.
    + intros h' Hin. apply H3. by right.
    + intros h' c w Hin. apply H6. by right.
    + intros Hcl h' Hlt. destruct (H8 Hcl h' Hlt) as [[->|?]%elem_of_cons|?]; auto.
  - exists (d ++ [h]), b, r. cbn. split_and!; [lia| |done| |].
    + rewrite C2. cbn. by rewrite <-app_assoc.
    + by apply sublist_inserts_r.
    + intros h' [Hd| ->%list_elem_of_singleton]%elem_of_app; [by apply C5|]. split; [|by right].
      intros Hb. apply Hnin. unfold ids; cbn. rewrite C3, fmap_app. set_solver.
Qed.

(** ... and run *)
Lemma take_and_log n h l s :
  base_inv s → cycle_inv (S n) s → _ready s = h :: l → _cancelled (handles s) h = false →
  let s' := log_run h (set_pos (Running n) (set_ready l s)) in base_inv s' ∧ cycle_inv n s'.
Proof.
  intros [H1 H2 H3 H4 H5 H6 H7 H8] (d & b & r & C1 & C2 & C3 & C4 & C5) Hl Hc s'.
  assert (Hran : (ran s').*1 = (ran s).*1 ++ [h]) by (unfold s'; cbn; by rewrite fmap_app).
  assert (Hids : ids s' ≡ₚ ids s).
  { unfold ids. rewrite Hran, Hl. unfold s'; cbn. rewrite !app_assoc. by rewrite <-Permutation_cons_append. }
  split.
  - constructor; unfold s'; cbn; fold s'; try done.
    + by rewrite Hids.
    + intros h' Hin. apply H3. by rewrite <-Hids.
    + intros h' c w Hin. apply H6. rewrite Hl. by right.
    + intros h' t c w [Hin|[= -> ->]%list_elem_of_singleton]%elem_of_app; [by apply H7|].
      apply H6. rewrite Hl. by left.
    + intros Hcl h' Hlt. rewrite Hids. auto.
  - exists (d ++ [h]), b, (r ++ [(h, clock s)]). rewrite Hran. unfold s'; cbn. rewrite Hl in C1, C2. cbn in C1.
    split_and!; [lia| | | |].
    + rewrite C2. cbn. by rewrite <-app_assoc.
    + by rewrite C3, app_assoc.
    + rewrite fmap_app. by apply sublist_app.
    + intros h' [Hd| ->%list_elem_of_singleton]%elem_of_app.
      * destruct (C5 h' Hd) as [? [?|?]]; split; [done| |done|]; [left; set_solver|by right].
      * split; [|left; set_solver]. intros Hb. rewrite <-Hids in H1. unfold ids in H1. rewrite Hran in H1.
        apply NoDup_app in H1 as (_ & _ & H1). apply NoDup_app in H1 as (_ & _ & H1). apply NoDup_app in H1 as (_ & H1 & _).
        apply (H1 h); [rewrite C3, fmap_app; set_solver|set_solver].
Qed.

Section Run.
Context (body : nat → EventLoop → list action) (readwrite : Z → Z → EventLoop → list action).

Lemma loop_cycle_run n s :
  loop_inv s → pos s = Running (S n) →
  loop_inv (cycle_run body readwrite n s)
  ∧ (pos (cycle_run body readwrite n s) = Running n ∨ pos (cycle_run body readwrite n s) = Stopped)
  ∧ ∀ h, _cancelled (handles s) h = true → h ∈ (ran (cycle_run body readwrite n s)).*1 → h ∈ (ran s).*1.
Proof.
  intros [Hb Hr Hcl Hc] Hp. specialize (Hc _ Hp). unfold cycle_run.
  assert (Hrun : _running s = true) by (apply Hr; by rewrite Hp).
  assert (Hopen : _closed s = false) by (destruct (_closed s); [rewrite Hcl in Hp; done|done]).
  destruct (_ready s) as [|h l] eqn:El.
  { destruct Hc as (d & b & r & C1 & _). rewrite El in C1. cbn in C1. lia. }
  destruct (_cancelled (handles (set_pos (Running n) (set_ready l s))) h) eqn:Ec.
  { destruct (skip_cancelled n h l s Hb Hc El Ec) as [H1 H2]. split_and!; [|by left|done].
    constructor; cbn; [done|by rewrite Hrun|by rewrite Hopen|by intros m [= <-]]. }
  destruct (take_and_log n h l s Hb Hc El Ec) as [H1 H2].
  set (s1 := log_run h (set_pos (Running n) (set_ready l s))) in *.
  assert (Hh : h ∈ (ran s1).*1) by (unfold s1; cbn; rewrite fmap_app; set_solver).
  assert (Hran : ∀ h', _cancelled (handles s) h' = true → h' ∈ (ran s1).*1 → h' ∈ (ran s).*1).
  { intros h' Hc'. unfold s1. cbn. rewrite fmap_app. intros [?|Hx%list_elem_of_singleton]%elem_of_app; [done|].
    cbn in Hx. subst. cbn in Ec. congruence. }
  assert (Hgo : ∀ s2, base_inv s2 → grows s1 s2 →
    loop_inv (set_callback NoCallback h s2) ∧ (pos s2 = Running n ∨ pos s2 = Stopped)
    ∧ ∀ h', _cancelled (handles s) h' = true → h' ∈ (ran s2).*1 → h' ∈ (ran s).*1).
  { intros s2 B2 G. pose proof G as [G1 G2 G3 G4 G5 G6 G7 G8]. rewrite <-G2 in Hh. split_and!.
    - constructor; cbn; [by apply base_set_callback; auto| | |].
      + rewrite G6, G3. unfold s1; cbn. by rewrite Hrun.
      + rewrite G7. unfold s1; cbn. by rewrite Hopen.
      + intros m Hm. rewrite G3 in Hm. unfold s1 in Hm; cbn in Hm. injection Hm as <-.
        apply cycle_none; [|done]. by eapply cycle_grows.
    - left. by rewrite G3.
    - intros h' Hc'. rewrite G2. by apply Hran. }
  unfold _run. fold s1. destruct (handles s1 !! h) as [[c w]|]; [destruct c as [f|fd obj flags| | |]|]; cbn.
  - destruct (base_actions (body f s1) s1 H1) as [B2 G]; [done|]. by apply Hgo.
  - unfold _readwrite. destruct (bool_decide _); [|by apply Hgo, grows_refl].
    destruct (base_actions (readwrite obj flags s1) s1 H1) as [B2 G]; [done|]. by apply Hgo.
  - split_and!; [|by right|exact Hran]. constructor; cbn; try done. by destruct H1; constructor.
  - by apply Hgo, grows_refl.
  - by apply Hgo, grows_refl.
  - by apply Hgo, grows_refl.
Qed.

(** What a step keeps, and that it runs nothing that was cancelled. *)
Lemma loop_step_inv s s' :
  loop_inv s → step body readwrite s s' →
  loop_inv s' ∧ ∀ h, _cancelled (handles s) h = true → h ∈ (ran s').*1 → h ∈ (ran s).*1.
Proof.
  intros Hi Hs. pose proof Hi as [Hb Hr Hcl Hc].
  assert (Hgrow : ∀ s', base_inv s' → grows s s' → loop_inv s' ∧ ∀ h, _cancelled (handles s) h = true → h ∈ (ran s').*1 → h ∈ (ran s).*1).
  { intros t Ht G. split; [by eapply loop_grows|]. intros h _. by rewrite (g_ran _ _ G). }
  destruct Hs as [events now s Hnow|s Hp|a s Hp|f s|h s].
  - unfold loop_step. destruct (pos s) as [| |timeout|[|n]] eqn:Hp; [by split| | | |].
    + split; [|done]. constructor; [by apply base_cycle_start| | |done]; cbn.
      * split; [done|]. intros _. by apply Hr.
      * intros Hx. by apply Hcl in Hx.
    + destruct (base_cycle_poll events now s Hb Hnow) as (B & _ & _ & P & T & R & Ru & Cl).
      split; [|intros h _; by rewrite R]. constructor; [done| | |].
      * rewrite Ru, P. by rewrite Hr.
      * rewrite Cl. intros Hx. by apply Hcl in Hx.
      * rewrite P. intros m [= <-]. exists [], (ran s), []. rewrite T, R. cbn.
        split_and!; [done|by rewrite firstn_all|by rewrite app_nil_r|done|set_solver].
    + split; [|done]. constructor; cbn; [by destruct Hb; constructor| | |done].
      * split; [done|]. intros _. by apply Hr.
      * intros Hx. by apply Hcl in Hx.
    + by destruct (loop_cycle_run n s Hi Hp) as (H1 & _ & H2).
  - unfold run_forever, _check_closed. munfold_goal. cbn. destruct (_closed s) eqn:Ecl; cbn; [by split|].
    destruct (_running s) eqn:Er; cbn; [by split|]. split; [|done].
    constructor; cbn; [by destruct Hb; constructor|done|congruence|done].
  - assert (Er : _running s = false) by (destruct (_running s); [by destruct (proj1 Hr eq_refl)|done]).
    destruct a; cbn; unfold call_soon, call_later, call_at, stop, _check_closed, close; munfold_goal; cbn; rewrite ?Er.
    all: destruct (_closed s) eqn:Ecl; cbn; try (by split; [done|]).
    + destruct (base_call_soon (Func f) s Hb). by apply (Hgrow (_call_soon (Func f) s)).
    + destruct (base_call_at w (Func f) s Hb). by apply (Hgrow (_call_at w (Func f) s)).
    + destruct (base_call_at (now + delay) (Func f) s Hb). by apply (Hgrow (_call_at (now + delay) (Func f) s)).
    + destruct (base_cancel h s Hb). by apply (Hgrow (cancel h s)).
    + destruct (base_cancel h s Hb). by apply (Hgrow (cancel h s)).
    + destruct (base_call_soon RaiseStopError s Hb). by apply (Hgrow (_call_soon RaiseStopError s)).
    + split; [|done]. destruct Hb as [H1 H2 H3 H4 H5 H6 H7 H8]. constructor; cbn; [|done|done|by rewrite Hp].
      assert (Hsub : ∀ h, h ∈ (ran s).*1 → h ∈ ids s) by (intros h Hh; unfold ids; set_solver).
      constructor; cbn; try done; unfold ids in *; cbn in *.
      * apply NoDup_app in H1 as (_ & _ & H1). by apply NoDup_app in H1 as (_ & _ & ?).
      * intros h Hh. by apply H3, Hsub.
      * intros i Hlt. cbn in Hlt. lia.
      * by intros h ?%elem_of_nil.
      * by intros h c w ?%elem_of_nil.
  - destruct (base_call_soon (Func f) s Hb). by apply (Hgrow (_call_soon (Func f) s)).
  - destruct (base_cancel h s Hb). by apply (Hgrow (cancel h s)).
Qed.

Lemma new_loop_inv wfd waker : loop_inv (new_loop wfd waker).
Proof.
  constructor; [|done|done|done]. constructor; cbn.
  - constructor.
  - intros h. rewrite lookup_empty. split; [by intros [? [=]]|lia].
  - by intros h ?%elem_of_nil.
  - intros i Hi. cbn in Hi. lia.
  - by intros h ?%elem_of_nil.
  - by intros h c w ?%elem_of_nil.
  - by intros h t c w ?%elem_of_nil.
  - lia.
Qed.

Lemma reach_inv wfd waker s : reach body readwrite (new_loop wfd waker) s → loop_inv s.
Proof. induction 1 as [|s s' _ IH Hs]; [apply new_loop_inv|by apply loop_step_inv in Hs as [? _]]. Qed.

(** C36: however callbacks, other threads and the clock interleave, the loop calls every handle at most
    once, a timer never before its time and a cancelled handle never; and no handle is
    lost: until the loop is closed a handle waits in the ready queue or the heap, has
    run, or was cancelled. *)
Theorem event_loop_safety wfd waker s :
  reach body readwrite (new_loop wfd waker) s →
  NoDup (_ready s ++ _scheduled s ++ (ran s).*1)
  ∧ (∀ h now c w, (h, now) ∈ ran s → handles s !! h = Some (mkHandle c (Some w)) → w <= now)
  ∧ (∀ s' h, step body readwrite s s' → _cancelled (handles s) h = true → h ∈ (ran s').*1 → h ∈ (ran s).*1)
  ∧ (_closed s = false → ∀ h, is_Some (handles s !! h) →
       h ∈ _ready s ++ _scheduled s ++ (ran s).*1 ∨ _cancelled (handles s) h = true).
Proof.
  intros Hi%reach_inv. pose proof (l_base s Hi) as [H1 H2 H3 H4 H5 H6 H7 H8]. split_and!; [done|done| |].
  - intros s' h Hs Hx Hy. destruct (loop_step_inv _ _ Hi Hs) as [_ Hz]. by apply Hz.
  - intros Hc h Hh. apply H8; [done|]. by apply H2.
Qed.

Lemma stopped_stays n events now s :
  pos s = Stopped → nsteps (fun s s' => s' = loop_step body readwrite events now s) n s s.
Proof. intros Hp. induction n as [|n IH]; [constructor|]. eapply nsteps_l; [|exact IH]. unfold loop_step. by rewrite Hp. Qed.

(** a cycle runs what was ready when it began and nothing else. After [poll] every timer that is due is in the queue of the
    cycle, behind what was ready; while the cycle runs, the handles it is done with have run in
    their order or were cancelled, those to come are the front of the queue, and what the callbacks add stands
    behind them; and the cycle ends: as many steps as it has handles left end it or stop the loop. *)
Theorem cycle_runs_ready wfd waker s :
  reach body readwrite (new_loop wfd waker) s →
  (∀ events now timeout, pos s = Polling timeout → clock s <= now →
     let s' := loop_step body readwrite events now s in
     (∀ h, h ∈ _scheduled s' → now < when_of (handles s') h)
     ∧ (∃ new, _ready s' = _ready s ++ new) ∧ todo s' = _ready s' ∧ pos s' = Running (length (todo s')))
  ∧ (∀ n, pos s = Running n → ∃ done before runs,
       todo s = done ++ take n (_ready s) ∧ (n <= length (_ready s))%nat
       ∧ ran s = before ++ runs ∧ runs.*1 `sublist_of` done
       ∧ ∀ h, h ∈ done → h ∈ runs.*1 ∨ _cancelled (handles s) h = true)
  ∧ (∀ n events now, pos s = Running n →
       ∃ s', nsteps (fun s s' => s' = loop_step body readwrite events now s) n s s' ∧ (pos s' = Running 0 ∨ pos s' = Stopped)).
Proof.
  intros Hi%reach_inv. pose proof Hi as [Hb Hr Hcl Hc]. split_and!.
  - intros events now timeout Hp Hnow. unfold loop_step. rewrite Hp.
    destruct (base_cycle_poll events now s Hb Hnow) as (B & L & [due D] & P & T & R & Ru & Cl).
    destruct (base_events events s Hb) as [_ [[new G] _ _ _ _ _ _ _]].
    split_and!; [done| |done|by rewrite P, T]. exists (new ++ due). by rewrite D, G, app_assoc.
  - intros n Hp. destruct (Hc n Hp) as (d & b & r & C1 & C2 & C3 & C4 & C5). exists d, b, r. split_and!; try done.
    intros h Hd. destruct (C5 h Hd) as [Hnb [Hin|?]]; [|by right]. left. rewrite C3, fmap_app in Hin. set_solver.
  - intros n events now. revert s Hi Hb Hr Hcl Hc. induction n as [|n IH]; intros s Hi _ _ _ _ Hp; [exists s; split; [constructor|by left]|].
    destruct (loop_cycle_run n s Hi Hp) as (H1 & H2 & _).
    assert (He : loop_step body readwrite events now s = cycle_run body readwrite n s) by (unfold loop_step; by rewrite Hp).
    destruct H2 as [H2|H2].
    + destruct (IH _ H1 (l_base _ H1) (l_running _ H1) (l_closed _ H1) (l_cycle _ H1) H2) as (s' & Hn & Hs).
      exists s'. split; [|done]. eapply nsteps_l; [|exact Hn]. done.
    + exists (cycle_run body readwrite n s). split; [|by right]. eapply nsteps_l; [symmetry; exact He|].
      by apply stopped_stays.
Qed.
End Run.

(** ** A run *)

(** Function 1 schedules function 2, cancels the timer and stops the loop. *)
Definition program (f : nat) (s : EventLoop) : list action := if (f =? 1)%nat then [ACallSoon 2; ACancel 1; AStop] else [].
Definition no_events (obj flags : Z) (s : EventLoop) : list action := [].

Definition loop_s0 : EventLoop := fst (run_forever (fst (do_action (ACallAt 15 3) (fst (do_action (ACallSoon 1) (new_loop 9 9)))))).
Definition loop_s1 : EventLoop := loop_step program no_events [] 10 (loop_step program no_events [] 10 loop_s0).
Definition loop_s2 : EventLoop :=
  loop_step program no_events [] 20 (loop_step program no_events [] 20 (loop_step program no_events [] 20
    (loop_step program no_events [] 20 (loop_step program no_events [] 20 (loop_step program no_events [] 20 loop_s1))))).

Ltac loop_tick := eapply reach_step; [|apply step_loop; vm_compute; discriminate].

Lemma loop_s1_reach : reach program no_events (new_loop 9 9) loop_s1.
Proof.
  unfold loop_s1. do 2 loop_tick. eapply reach_step; [|by apply step_run]. do 2 (eapply reach_step; [|by apply step_action]). constructor.
Qed.

Lemma event_loop_safety_witness :
  ran loop_s2 = [(0%nat, 10); (2%nat, 20); (3%nat, 20)] ∧ pos loop_s2 = Stopped ∧ NoDup (_ready loop_s2 ++ _scheduled loop_s2 ++ (ran loop_s2).*1).
Proof.
  split; [vm_compute; reflexivity|]. split; [vm_compute; reflexivity|].
  refine (proj1 (event_loop_safety program no_events 9 9 loop_s2 _)).
  unfold loop_s2. do 6 loop_tick. exact loop_s1_reach.
Defined.

Lemma cycle_runs_ready_witness :
  pos loop_s1 = Running 1 ∧ ∃ s', nsteps (fun s s' => s' = loop_step program no_events [] 20 s) 1 loop_s1 s' ∧ (pos s' = Running 0 ∨ pos s' = Stopped).
Proof.
  split; [vm_compute; reflexivity|].
  refine (proj2 (proj2 (cycle_runs_ready program no_events 9 9 loop_s1 loop_s1_reach)) 1%nat [] 20 _). vm_compute. reflexivity.
Defined.

(** ** BufferedReader and Reaper *)

(** The chunks that are read up to the first empty one, which ends the file. *)
Fixpoint read_chunks (es : list reader_event) : bytes * list reader_event :=
  match es with
  | RRead (c :: chunk) :: es => let '(d, rest) := read_chunks es in ((c :: chunk) ++ d, rest)
  | _ => ([], es)
  end.

Lemma reader_closed es r :
  closing r = true → _complete r = false → completed (foldl reader_step r es) = completed r.
Proof.
  revert r. induction es as [|e es IH]; intros r Hc Hn; [done|]. cbn. rewrite IH.
  all: destruct e as [[|c chunk]| | |]; cbn; unfold handle_error, handle_close, reader_close; rewrite ?Hn; cbn; by rewrite ?Hc.
Qed.

Lemma reader_reads es r :
  closing r = false → _complete r = true →
  completed (foldl reader_step r es) =
    completed r ++ match snd (read_chunks es) with
                   | [] | RClose :: _ => []
                   | _ => [_data r ++ fst (read_chunks es)]
                   end.
Proof.
  revert r. induction es as [|e es IH]; intros r Hc Hn; [by rewrite app_nil_r|].
  destruct e as [[|c chunk]| | |]; cbn.
  - rewrite reader_closed; unfold handle_close, reader_close; rewrite Hn; cbn; rewrite ?Hc; cbn; by rewrite ?app_nil_r.
  - rewrite IH by done. destruct (read_chunks es) as [d rest]; cbn. by rewrite <-app_assoc.
  - rewrite reader_closed; unfold handle_close, reader_close; rewrite Hn; cbn; rewrite ?Hc; cbn; by rewrite ?app_nil_r.
  - rewrite reader_closed; unfold handle_error, handle_close, reader_close; rewrite Hn; cbn; rewrite ?Hc; cbn; by rewrite ?app_nil_r.
  - rewrite reader_closed; unfold reader_close; rewrite Hc; cbn; by rewrite ?app_nil_r.
Qed.

Lemma reap_intervals n lo hi r :
  0 < lo <= _interval r → _interval r <= Z.max lo (2 * hi) → _max_interval r = hi →
  let r' := Nat.iter n (reap None) r in
  lo <= _interval r' <= Z.max lo (2 * hi) ∧ _max_interval r' = hi ∧ codes r' = codes r
  ∧ calls r' = calls r ++ drop (length (calls r)) (calls r') ∧ length (calls r') = (length (calls r) + n)%nat.
Proof.
  intros Hlo Hhi Hm. induction n as [|n IH]; [cbn|rewrite Nat.iter_succ].
  { split_and!; [lia|lia|done|done|by rewrite drop_all, app_nil_r|lia]. }
  destruct (Nat.iter n (reap None) r) as [i m c cs k]; cbn in *. destruct IH as (H1 & H2 & H3 & H4 & H5). subst m.
  split_and!; [destruct (Z.ltb_spec i hi); lia|destruct (Z.ltb_spec i hi); lia|done|done| |rewrite length_app; cbn; lia].
  rewrite drop_app_le by lia. rewrite app_assoc, <-H4. done.
Qed.

(** a [BufferedReader] calls its completion exactly once, with all that was read until the end of the
    file, the close of its peer or an error, whatever events follow, and never once it
    was closed; a [Reaper] asks for one call of [reap] after every poll of a live process,
    never waits longer than twice the maximum interval, and reports the exit code once. *)
Theorem reader_and_reaper :
  (∀ es, completed (foldl reader_step new_reader es) =
     match snd (read_chunks es) with [] | RClose :: _ => [] | _ => [fst (read_chunks es)] end)
  ∧ (∀ lo hi n rc, 0 < lo <= hi →
       let r := reap (Some rc) (Nat.iter n (reap None) (new_reaper lo hi)) in
       codes r = [rc] ∧ length (calls r) = S n ∧ _interval r <= 2 * hi).
Proof.
  split.
  - intros es. by rewrite reader_reads.
  - intros lo hi n rc Hlo. destruct (reap_intervals n lo hi (new_reaper lo hi)) as (H1 & H2 & H3 & H4 & H5); cbn; try lia.
    cbn in *. split_and!; [by rewrite H3|lia|lia].
Qed.
