(* ===== verification/Monitor.v ===== *)
(** * Domain monitoring: [storage/monitor.py]

    [Status] and its parts, [MonitorThread] with the thread that sets a domain up, checks it and keeps its
    host id, and [DomainMonitor] with the monitors of the domains.  The storage domain, its cache and the path
    checker are parameters: every call of them is an input, the answer with the events that
    other threads cause while it runs (a path was checked, the monitor is stopped). *)
From Stdlib Require Import ZArith Lia.
From stdpp Require Import base gmap list.
From S2P Require Import Prelude.
Open Scope Z_scope.

(** An Exception, by a number, or [utils.Canceled], which is not one. *)
Inductive exn := Error (e : Z) | Canceled.

#[export] Instance exn_eq_dec : EqDecision exn.
Proof. solve_decision. Defined.

(** ** Status *)

Record PathStatus := mkPath { p_readDelay : Z; p_error : option Z; p_actual : bool }.

Record DomainStatus := mkDomain {
  d_error : option Z;
  d_actual : bool;
  diskUtilization : option Z * option Z;
  masterMounted : bool;
  masterValid : bool;
  d_hasHostId : option bool;
  vgMdUtilization : Z * Z;
  vgMdHasEnoughFreeSpace : bool;
  vgMdFreeBelowThreashold : bool;
  d_isoPrefix : option text;
  d_version : Z;
}.

(** [DomainStatus(error, actual)] *)
Definition new_domain_status (error : option Z) (actual : bool) : DomainStatus :=
  mkDomain error actual (None, None) false false (Some false) (0, 0) true true None (-1).

Record Status := mkStatus { _path_status : PathStatus; _domain_status : DomainStatus }.

(** [Status.error], [valid] and [actual] *)
Definition status_error (s : Status) : option Z :=
  match p_error (_path_status s) with Some e => Some e | None => d_error (_domain_status s) end.

Definition status_valid (s : Status) : bool := bool_decide (status_error s = None).

Definition status_actual (s : Status) : bool :=
  if negb (status_valid s) then true else p_actual (_path_status s) && d_actual (_domain_status s).

Definition hasHostId (s : Status) : option bool := d_hasHostId (_domain_status s).

(** ** MonitorThread *)

(** Where the thread is: in the set up loop, in the monitor loop, in the [finally] clause of
    [_run], or done. *)
Inductive position := SettingUp | Monitoring | Finishing | Done.

#[export] Instance position_eq_dec : EqDecision position.
Proof. solve_decision. Defined.

(** [emitted] are the validities given to [changeEvent.emit]; [checking] is whether the checker was told to
    check the path; [acquires] are the calls of [domain.acquireHostId], each with the status whose validity was
    tested before it and the status when it was made, and [releases] counts the calls of [domain.releaseHostId]. *)
Record MonitorThread := mkMonitor {
  stopEvent : bool;
  wasShutdown : bool;
  domain : bool;
  monitoringPath : option text;
  status : Status;
  isIsoDomain : option bool;
  isoPrefix : option text;
  lastRefresh : Z;
  pos : position;
  emitted : list bool;
  checking : bool;
  acquires : list (Status * Status);
  releases : nat;
}.

(** [MonitorThread.__init__] *)
Definition new_monitor (now : Z) : MonitorThread :=
  mkMonitor false false false None (mkStatus (mkPath 0 None false) (new_domain_status None false)) None None now
    SettingUp [] false [] 0.

Definition set_status (st : Status) (m : MonitorThread) : MonitorThread :=
  mkMonitor (stopEvent m) (wasShutdown m) (domain m) (monitoringPath m) st (isIsoDomain m) (isoPrefix m) (lastRefresh m)
    (pos m) (emitted m) (checking m) (acquires m) (releases m).
Definition set_pos (p : position) (m : MonitorThread) : MonitorThread :=
  mkMonitor (stopEvent m) (wasShutdown m) (domain m) (monitoringPath m) (status m) (isIsoDomain m) (isoPrefix m) (lastRefresh m)
    p (emitted m) (checking m) (acquires m) (releases m).
Definition set_domain (d : bool) (m : MonitorThread) : MonitorThread :=
  mkMonitor (stopEvent m) (wasShutdown m) d (monitoringPath m) (status m) (isIsoDomain m) (isoPrefix m) (lastRefresh m)
    (pos m) (emitted m) (checking m) (acquires m) (releases m).
Definition set_path (p : option text) (m : MonitorThread) : MonitorThread :=
  mkMonitor (stopEvent m) (wasShutdown m) (domain m) p (status m) (isIsoDomain m) (isoPrefix m) (lastRefresh m)
    (pos m) (emitted m) (checking m) (acquires m) (releases m).
Definition set_iso (iso : option bool) (prefix : option text) (m : MonitorThread) : MonitorThread :=
  mkMonitor (stopEvent m) (wasShutdown m) (domain m) (monitoringPath m) (status m) iso prefix (lastRefresh m)
    (pos m) (emitted m) (checking m) (acquires m) (releases m).
Definition set_refresh (t : Z) (m : MonitorThread) : MonitorThread :=
  mkMonitor (stopEvent m) (wasShutdown m) (domain m) (monitoringPath m) (status m) (isIsoDomain m) (isoPrefix m) t
    (pos m) (emitted m) (checking m) (acquires m) (releases m).
Definition set_checking (b : bool) (m : MonitorThread) : MonitorThread :=
  mkMonitor (stopEvent m) (wasShutdown m) (domain m) (monitoringPath m) (status m) (isIsoDomain m) (isoPrefix m) (lastRefresh m)
    (pos m) (emitted m) b (acquires m) (releases m).
Definition emit (v : bool) (m : MonitorThread) : MonitorThread :=
  mkMonitor (stopEvent m) (wasShutdown m) (domain m) (monitoringPath m) (status m) (isIsoDomain m) (isoPrefix m) (lastRefresh m)
    (pos m) (emitted m ++ [v]) (checking m) (acquires m) (releases m).
Definition record_acquire (tested : Status) (m : MonitorThread) : MonitorThread :=
  mkMonitor (stopEvent m) (wasShutdown m) (domain m) (monitoringPath m) (status m) (isIsoDomain m) (isoPrefix m) (lastRefresh m)
    (pos m) (emitted m) (checking m) (acquires m ++ [(tested, status m)]) (releases m).
Definition count_release (m : MonitorThread) : MonitorThread :=
  mkMonitor (stopEvent m) (wasShutdown m) (domain m) (monitoringPath m) (status m) (isIsoDomain m) (isoPrefix m) (lastRefresh m)
    (pos m) (emitted m) (checking m) (acquires m) (S (releases m)).

(** [MonitorThread.stop] *)
Definition stop (shutdown : bool) (m : MonitorThread) : MonitorThread :=
  mkMonitor true shutdown (domain m) (monitoringPath m) (status m) (isIsoDomain m) (isoPrefix m) (lastRefresh m)
    (pos m) (emitted m) (checking m) (acquires m) (releases m).

(** *** Handling status changes *)

Definition _statusDidChange (st : Status) (m : MonitorThread) : bool :=
  if negb (status_actual st) then false
  else if negb (status_actual (status m)) then true
  else negb (bool_decide (status_valid (status m) = status_valid st)).

(** [_notifyStatusChanges]: an error of the receivers is logged. *)
Definition _notifyStatusChanges (st : Status) (m : MonitorThread) : MonitorThread := emit (status_valid st) m.

Definition notify_if_changed (st : Status) (m : MonitorThread) : MonitorThread :=
  if _statusDidChange st m then _notifyStatusChanges st m else m.

Definition _updateStatus (st : Status) (m : MonitorThread) : MonitorThread := set_status st (notify_if_changed st m).

(** [_pathChecked]; [delay] is what [result.delay()] gives. *)
Definition _pathChecked (delay : res Z Z) (m : MonitorThread) : MonitorThread :=
  let path_status := match delay with Ok d => mkPath d None true | Raise e => mkPath 0 (Some e) true end in
  _updateStatus (mkStatus path_status (_domain_status (status m))) m.

(** What other threads do to a monitor *)
Inductive event := EPath (delay : res Z Z) | EStop (shutdown : bool).

Definition handle (m : MonitorThread) (e : event) : MonitorThread :=
  match e with EPath delay => _pathChecked delay m | EStop shutdown => stop shutdown m end.

(** A call of the domain, the cache or the checker. *)
Definition input (A : Type) : Type := list event * res Z A.
Definition ask {A} (i : input A) : M MonitorThread exn A := fun m =>
  (foldl handle m (fst i), match snd i with Ok a => Ok a | Raise e => Raise (Error e) end).

(** [utils.cancelpoint] *)
Definition cancelpoint {A} (meth : M MonitorThread exn A) : M MonitorThread exn A :=
  m ← get;
  if stopEvent m then raise Canceled
  else value ← meth; m ← get; if stopEvent m then raise Canceled else mret value.

(** *** Setting up *)

Record setup_inputs := mkSetup {
  s_now : Z;
  s_remove : input unit;           (* sdCache.manuallyRemoveDomain *)
  s_refreshed : Z;
  s_produce : input unit;          (* sdCache.produce *)
  s_setup : input unit;            (* domain.setup *)
  s_path : input text;             (* domain.getMonitoringPath *)
  s_start : input unit;            (* checker.start_checking *)
  s_isISO : input bool;
  s_images : input text;           (* domain.getIsoDomainImagesDir *)
}.

Definition _shouldRefreshDomain (refreshTime now : Z) (m : MonitorThread) : bool := now - lastRefresh m >? refreshTime.

Definition _refreshDomain (remove : input unit) (now : Z) : M MonitorThread exn unit :=
  cancelpoint (_ ← ask remove; modify (set_refresh now)).

Definition _setupDomain (produce setup : input unit) : M MonitorThread exn unit :=
  cancelpoint (_ ← ask produce; _ ← ask setup; modify (set_domain true)).

Definition _setIsoDomainInfo (isISO : input bool) (images : input text) : M MonitorThread exn unit :=
  cancelpoint (
    iso ← ask isISO;
    _ ← (if iso : bool then dir ← ask images; modify (fun m => set_iso (isIsoDomain m) (Some dir) m) else mret ());
    modify (fun m => set_iso (Some iso) (isoPrefix m) m)).

Definition _startChecking (path : input text) (start : input unit) : M MonitorThread exn unit :=
  p ← ask path;
  _ ← modify (set_path (Some p));
  _ ← ask start;
  modify (set_checking true).

Section MonitorThread.
Context (refreshTime : Z).

Definition _setupMonitor (i : setup_inputs) : M MonitorThread exn unit :=
  m ← get;
  _ ← (if _shouldRefreshDomain refreshTime (s_now i) m then _refreshDomain (s_remove i) (s_refreshed i) else mret ());
  m ← get;
  _ ← (if domain m then mret () else _setupDomain (s_produce i) (s_setup i));
  m ← get;
  _ ← (if bool_decide (monitoringPath m = None) then _startChecking (s_path i) (s_start i) else mret ());
  m ← get;
  if bool_decide (isIsoDomain m = None) then _setIsoDomainInfo (s_isISO i) (s_images i) else mret ().

(** The end of a cycle: [self.stopEvent.wait(self.interval)] with what happens meanwhile *)
Definition wait_interval (meanwhile : list event) (m : MonitorThread) : MonitorThread :=
  let m := foldl handle m meanwhile in
  if stopEvent m then set_pos Finishing m else m.

(** A turn of [_setupLoop].  The status is read, compared and written without the lock: [race1]
    and [race2] are what happens between. *)
Definition setup_turn (i : setup_inputs) (race1 race2 meanwhile : list event) (m : MonitorThread) : MonitorThread :=
  let '(m, r) := _setupMonitor i m in
  match r with
  | Ok _ => set_pos Monitoring m
  | Raise Canceled => set_pos Finishing m
  | Raise (Error e) =>
      let path_status := _path_status (status m) in
      let m := foldl handle m race1 in
      let st := mkStatus path_status (new_domain_status (Some e) true) in
      let m := foldl handle (notify_if_changed st m) race2 in
      wait_interval meanwhile (set_status st m)
  end.

(** *** Monitoring *)

(** The dicts of [domain.getStats()] and [domain.validateMaster()] *)
Record stats := mkStats { disktotal : Z; diskfree : Z; mdasize : Z; mdafree : Z; mdavalid : bool; mdathreshold : bool }.

Record check_inputs := mkCheck {
  c_now : Z;
  c_remove : input unit;
  c_refreshed : Z;
  c_selftest : input unit;
  c_stats : input stats;
  c_master : input (bool * bool);      (* valid, mount *)
  c_hasHostId : input (option bool);
  c_version : input Z;
  c_races : list event * list event * list event * list event;
  c_acquire : input unit;
}.

Definition set_d_error (e : Z) (d : DomainStatus) : DomainStatus :=
  mkDomain (Some e) (d_actual d) (diskUtilization d) (masterMounted d) (masterValid d) (d_hasHostId d) (vgMdUtilization d)
    (vgMdHasEnoughFreeSpace d) (vgMdFreeBelowThreashold d) (d_isoPrefix d) (d_version d).
Definition set_d_stats (st : stats) (d : DomainStatus) : DomainStatus :=
  mkDomain (d_error d) (d_actual d) (Some (disktotal st), Some (diskfree st)) (masterMounted d) (masterValid d) (d_hasHostId d)
    (mdasize st, mdafree st) (mdavalid st) (mdathreshold st) (d_isoPrefix d) (d_version d).
Definition set_d_master (ms : bool * bool) (d : DomainStatus) : DomainStatus :=
  mkDomain (d_error d) (d_actual d) (diskUtilization d) (snd ms) (fst ms) (d_hasHostId d) (vgMdUtilization d)
    (vgMdHasEnoughFreeSpace d) (vgMdFreeBelowThreashold d) (d_isoPrefix d) (d_version d).
Definition set_d_host (h : option bool) (d : DomainStatus) : DomainStatus :=
  mkDomain (d_error d) (d_actual d) (diskUtilization d) (masterMounted d) (masterValid d) h (vgMdUtilization d)
    (vgMdHasEnoughFreeSpace d) (vgMdFreeBelowThreashold d) (d_isoPrefix d) (d_version d).
Definition set_d_version (prefix : option text) (v : Z) (d : DomainStatus) : DomainStatus :=
  mkDomain (d_error d) (d_actual d) (diskUtilization d) (masterMounted d) (masterValid d) (d_hasHostId d) (vgMdUtilization d)
    (vgMdHasEnoughFreeSpace d) (vgMdFreeBelowThreashold d) prefix v.

(** A call in the [try] of [_checkDomainStatus]: an error keeps the fields that were set. *)
Definition probe {A} (i : input A) (upd : A → MonitorThread → DomainStatus → DomainStatus)
    (k : MonitorThread → DomainStatus → MonitorThread * DomainStatus) (m : MonitorThread) (d : DomainStatus) :
    MonitorThread * DomainStatus :=
  let m := foldl handle m (fst i) in
  match snd i with Ok a => k m (upd a m d) | Raise e => (m, set_d_error e d) end.

Definition collect (i : check_inputs) (m : MonitorThread) : MonitorThread * DomainStatus :=
  probe (c_selftest i) (fun _ _ d => d)
    (probe (c_stats i) (fun st _ => set_d_stats st)
      (probe (c_master i) (fun ms _ => set_d_master ms)
        (probe (c_hasHostId i) (fun h _ => set_d_host h)
          (probe (c_version i) (fun v m => set_d_version (isoPrefix m) v) pair)))) m (new_domain_status None true).

(** [_shouldAcquireHostId] reads [self.status] three times without the lock: [st1], [st2] and [st3]. *)
Definition _shouldAcquireHostId (iso : option bool) (st1 st2 st3 : Status) : bool :=
  if bool_decide (iso = Some true) then false
  else if negb (status_actual st1) then false
  else if negb (status_valid st2) then false
  else bool_decide (hasHostId st3 = Some false).

(** [_acquireHostId]: an error of the domain is logged. *)
Definition _acquireHostId (tested : Status) (i : input unit) : M MonitorThread exn unit :=
  cancelpoint (fun m => (foldl handle (record_acquire tested m) (fst i), Ok ())).

(** The end of [_checkDomainStatus], outside the lock; [c_races] is what happens before each read of the status
    and before the call. *)
Definition acquire_if_needed (i : check_inputs) : M MonitorThread exn unit := fun m =>
  let '(race1, race2, race3, race4) := c_races i in
  let m := foldl handle m race1 in
  let st1 := status m in
  let m := foldl handle m race2 in
  let st2 := status m in
  let m := foldl handle m race3 in
  if _shouldAcquireHostId (isIsoDomain m) st1 st2 (status m) then _acquireHostId st2 (c_acquire i) (foldl handle m race4)
  else (m, Ok ()).

Definition _checkDomainStatus (i : check_inputs) : M MonitorThread exn unit :=
  cancelpoint (fun m =>
    let '(m, domain_status) := collect i m in
    acquire_if_needed i (_updateStatus (mkStatus (_path_status (status m)) domain_status) m)).

Definition _monitorDomain (i : check_inputs) : M MonitorThread exn unit :=
  m ← get;
  _ ← (if _shouldRefreshDomain refreshTime (c_now i) m then _refreshDomain (c_remove i) (c_refreshed i) else mret ());
  _checkDomainStatus i.

(** A turn of [_monitorLoop] *)
Definition monitor_turn (i : check_inputs) (meanwhile : list event) (m : MonitorThread) : MonitorThread :=
  let '(m, r) := _monitorDomain i m in
  match r with Raise Canceled => set_pos Finishing m | _ => wait_interval meanwhile m end.

(** *** Finishing *)

(** [_stopCheckingPath]: an error is logged. *)
Definition _stopCheckingPath (i : input unit) (m : MonitorThread) : MonitorThread :=
  if bool_decide (monitoringPath m = None) then m
  else let '(m, r) := ask i m in if is_ok r then set_checking false m else m.

Definition _shouldReleaseHostId (m : MonitorThread) : bool :=
  if negb (domain m) then false
  else if bool_decide (isIsoDomain m = Some true) then false
  else if wasShutdown m then false
  else if negb (status_actual (status m)) then false
  else true.

Definition _releaseHostId (i : input unit) (m : MonitorThread) : MonitorThread := foldl handle (count_release m) (fst i).

(** [_teardownDomain]: an error is logged. *)
Definition _teardownDomain (i : input unit) (m : MonitorThread) : MonitorThread :=
  if negb (domain m) then m else set_domain false (foldl handle m (fst i)).

(** The [finally] clause of [_run] *)
Definition finish (stop_checking release teardown : input unit) (m : MonitorThread) : MonitorThread :=
  let m := _stopCheckingPath stop_checking m in
  let m := if _shouldReleaseHostId m then _releaseHostId release m else m in
  set_pos Done (_teardownDomain teardown m).

Inductive monitor_step : MonitorThread → MonitorThread → Prop :=
| step_setup i race1 race2 meanwhile m : pos m = SettingUp → monitor_step m (setup_turn i race1 race2 meanwhile m)
| step_monitor i meanwhile m : pos m = Monitoring → monitor_step m (monitor_turn i meanwhile m)
| step_finish i1 i2 i3 m : pos m = Finishing → monitor_step m (finish i1 i2 i3 m)
| step_event e m : monitor_step m (handle m e).

Inductive monitor_reach (now : Z) : MonitorThread → Prop :=
| reach_new : monitor_reach now (new_monitor now)
| reach_next m m' : monitor_reach now m → monitor_step m m' → monitor_reach now m'.
End MonitorThread.
