(* ===== verification/MonitorSpec.v ===== *)
(** * What a domain monitor promises

    What the engine is told of a domain, and that a host id that was asked for is given back. *)
From Stdlib Require Import ZArith Lia.
From stdpp Require Import base gmap list.
From S2P Require Import Prelude Monitor.
Open Scope Z_scope.

(** Both parts of a status were checked. *)
Definition checked (st : Status) : Prop := p_actual (_path_status st) = true ∧ d_actual (_domain_status st) = true.

(** No two notices of a valid domain follow each other. *)
Definition no_repeat (l : list bool) : Prop := ∀ l1 l2, l ≠ l1 ++ true :: true :: l2.

(** The host id was asked for on the strength of a status in which both parts were checked, without an error and
    with the host id not acquired; when it was asked, only the path could have been checked again. *)
Definition asked_well (ask : Status * Status) : Prop :=
  let '(tested, current) := ask in
  checked tested ∧ status_valid tested = true ∧ hasHostId tested = Some false ∧
  _domain_status current = _domain_status tested.

Record minv (m : MonitorThread) : Prop := {
  i_last : status_actual (status m) = true → last (emitted m) = Some (status_valid (status m));
  i_true : true ∈ emitted m → checked (status m);
  i_alt : no_repeat (emitted m);
  i_acq : acquires m ≠ [] → isIsoDomain m ≠ Some true ∧ checked (status m) ∧ (pos m ≠ Done → domain m = true);
  i_rel : (pos m ≠ Done → releases m = 0%nat) ∧ (releases m <= 1)%nat;
  i_setup : pos m = SettingUp → true ∉ emitted m ∧ acquires m = []
              ∧ (d_error (_domain_status (status m)) ≠ None ∨ d_actual (_domain_status (status m)) = false);
  i_dom : pos m = Monitoring → domain m = true;
  i_asked : Forall asked_well (acquires m);
}.

Lemma actual_or st : status_actual st = true → status_valid st = false ∨ checked st.
Proof.
  unfold status_actual, checked. destruct (status_valid st); cbn; [|auto].
  intros [??]%andb_true_iff. auto.
Qed.

Lemma checked_actual st : checked st → status_actual st = true.
Proof. unfold checked, status_actual. intros [-> ->]. by destruct (status_valid st). Qed.

Lemma setup_not_valid st :
  d_error (_domain_status st) ≠ None ∨ d_actual (_domain_status st) = false →
  status_actual st = true → status_valid st = false.
Proof.
  intros Hd Ha%actual_or. destruct Ha as [?|[_ Hc]]; [done|]. destruct Hd as [Hd|Hd]; [|congruence].
  apply bool_decide_eq_false. unfold status_error. destruct (p_error (_path_status st)); [done|done].
Qed.

Lemma last_snoc_bool (l : list bool) b : last (l ++ [b]) = Some b.
Proof. apply last_snoc. Qed.

Lemma no_repeat_snoc l b : no_repeat l → (b = true → last l ≠ Some true) → no_repeat (l ++ [b]).
Proof.
  intros Hl Hb l1 l2 He. destruct l2 as [|x l2 _] using rev_ind.
  - change [true; true] with ([true] ++ [true]) in He. rewrite app_assoc in He. apply app_inj_tail in He as [-> ->].
    apply Hb; [done|apply last_snoc].
  - replace (l1 ++ true :: true :: l2 ++ [x]) with ((l1 ++ true :: true :: l2) ++ [x]) in He by (by rewrite <-app_assoc).
    apply app_inj_tail in He as [-> _]. by apply (Hl l1 l2).
Qed.

(** [_updateStatus] under the lock *)
Lemma update_inv st m :
  minv m → (checked (status m) → checked st) →
  (pos m = SettingUp → d_error (_domain_status st) ≠ None ∨ d_actual (_domain_status st) = false) →
  minv (_updateStatus st m).
Proof.
  intros [H1 H2 H3 H4 H5 H6 H7 H8] Hck Hs. unfold _updateStatus, notify_if_changed.
  assert (Hacq : acquires m ≠ [] → isIsoDomain m ≠ Some true ∧ checked st ∧ (pos m ≠ Done → domain m = true)).
  { intros (Ha & Hb & Hc)%H4. auto. }
  destruct (_statusDidChange st m) eqn:Ec.
  - assert (Hact : status_actual st = true).
    { unfold _statusDidChange in Ec. by destruct (status_actual st). }
    assert (Hval : status_valid st = true → last (emitted m) ≠ Some true).
    { intros Hv Hl. unfold _statusDidChange in Ec. rewrite Hact in Ec. cbn in Ec.
      assert (Ht : true ∈ emitted m) by (by apply last_Some_elem_of).
      rewrite (checked_actual _ (H2 Ht)) in Ec. cbn in Ec.
      rewrite (H1 (checked_actual _ (H2 Ht))) in Hl. injection Hl as Hl. rewrite Hl, Hv in Ec. done. }
    constructor; cbn; try done.
    + intros _. apply last_snoc.
    + intros [Ht|Ht]%elem_of_app; [auto|]. apply list_elem_of_singleton in Ht.
      destruct (actual_or st Hact) as [Hx|?]; [congruence|done].
    + apply no_repeat_snoc; auto.
    + intros Hp. specialize (Hs Hp). destruct (H6 Hp) as (? & ? & _). split_and!; [|done|done].
      intros [?|Ht%list_elem_of_singleton]%elem_of_app; [done|]. rewrite (setup_not_valid st Hs Hact) in Ht. done.
  - constructor; cbn; try done; auto.
    + intros Hact. unfold _statusDidChange in Ec. rewrite Hact in Ec. cbn in Ec.
      destruct (status_actual (status m)) eqn:Ea; [|done]. cbn in Ec.
      rewrite negb_false_iff, bool_decide_eq_true in Ec. rewrite <-Ec. auto.
    + intros Hp. specialize (Hs Hp). destruct (H6 Hp) as (? & ? & _). auto.
Qed.

(** ** Events of other threads *)

Record same (m m' : MonitorThread) : Prop := {
  f_pos : pos m' = pos m;
  f_domain : domain m' = domain m;
  f_iso : isIsoDomain m' = isIsoDomain m;
  f_acq : acquires m' = acquires m;
  f_rel : releases m' = releases m;
  f_status : _domain_status (status m') = _domain_status (status m);
  f_emitted : ∃ l, emitted m' = emitted m ++ l;
  f_path : monitoringPath m' = monitoringPath m;
  f_checking : checking m' = checking m;
}.

Lemma handle_inv e m : minv m → minv (handle m e) ∧ same m (handle m e).
Proof.
  intros H. destruct e as [delay|b]; cbn.
  - split.
    + apply update_inv; [done| |].
      * intros [_ Hd]. split; [by destruct delay|done].
      * intros Hp. by destruct (i_setup m H Hp) as (_ & _ & ?).
    + unfold _pathChecked, _updateStatus, notify_if_changed. destruct (_statusDidChange _ m); constructor; cbn; try done; [eauto|].
      exists []. by rewrite app_nil_r.
  - split; [by destruct H; constructor|]. constructor; cbn; try done. exists []. by rewrite app_nil_r.
Qed.

Lemma same_refl m : same m m.
Proof. constructor; try done. exists []. by rewrite app_nil_r. Qed.

Lemma same_trans m1 m2 m3 : same m1 m2 → same m2 m3 → same m1 m3.
Proof.
  intros [A1 A2 A3 A4 A5 A6 [l1 A7] A8 A9] [B1 B2 B3 B4 B5 B6 [l2 B7] B8 B9]. constructor; try congruence.
  exists (l1 ++ l2). by rewrite B7, A7, app_assoc.
Qed.

Lemma events_inv l m : minv m → minv (foldl handle m l) ∧ same m (foldl handle m l).
Proof.
  revert m. induction l as [|e l IH]; intros m H; [split; [done|apply same_refl]|]. cbn.
  destruct (handle_inv e m H) as [H1 S1]. destruct (IH _ H1) as [H2 S2]. eauto using same_trans.
Qed.

(** ** Setting up *)

Definition sinv (m : MonitorThread) : Prop := minv m ∧ pos m = SettingUp.

(** [c] keeps the invariant of the set up; from [P] it gives [Q] when it raises nothing. *)
Definition triple {A} (P : MonitorThread → Prop) (c : M MonitorThread exn A) (Q : MonitorThread → Prop) : Prop :=
  ∀ m, sinv m → P m → sinv (fst (c m)) ∧ (is_ok (snd (c m)) = true → Q (fst (c m))).

Lemma triple_bind {A B} P Q R (c : M MonitorThread exn A) (k : A → M MonitorThread exn B) :
  triple P c Q → (∀ a, triple Q (k a) R) → triple P (a ← c; k a) R.
Proof.
  intros Hc Hk m Hs Hp. munfold_goal. destruct (Hc m Hs Hp) as [H1 H2].
  destruct (c m) as [m' [a|e]]; cbn in *; [by apply Hk; auto|done].
Qed.

(** With the state that was read *)
Lemma triple_get {B} P R (k : MonitorThread → M MonitorThread exn B) :
  (∀ m0, triple (fun m => P m ∧ m = m0) (k m0) R) → triple P (m ← get; k m) R.
Proof. intros Hk m Hs Hp. by apply (Hk m m Hs). Qed.

Lemma triple_ret {A} (P : MonitorThread → Prop) (a : A) : triple P (mret a) P.
Proof. intros m Hs Hp. by split. Qed.

Lemma triple_raise {A} P Q e : triple P (raise e : M MonitorThread exn A) Q.
Proof. intros m Hs Hp. split; [done|]. by intros [=]. Qed.

Lemma triple_ask {A} P (i : input A) : (∀ m m', same m m' → P m → P m') → triple P (ask i) P.
Proof.
  intros HP m [Hi Hpos] Hp. destruct (events_inv (fst i) m Hi) as [H1 S1]. cbn.
  split; [split; [done|by rewrite (f_pos _ _ S1)]|]. intros _. by eapply HP.
Qed.

Lemma triple_modify (P Q : MonitorThread → Prop) f :
  (∀ m, sinv m → P m → sinv (f m) ∧ Q (f m)) → triple P (modify f) Q.
Proof. intros Hf m Hs Hp. destruct (Hf m Hs Hp). by split. Qed.

Lemma triple_conseq {A} (P P' Q Q' : MonitorThread → Prop) (c : M MonitorThread exn A) :
  (∀ m, P m → P' m) → (∀ m, Q' m → Q m) → triple P' c Q' → triple P c Q.
Proof. intros HP HQ Hc m Hs Hp. destruct (Hc m Hs (HP _ Hp)). auto. Qed.

Lemma triple_cancelpoint {A} P Q (c : M MonitorThread exn A) : triple P c Q → triple P (cancelpoint c) Q.
Proof.
  intros Hc. unfold cancelpoint. apply triple_get. intros m0. destruct (stopEvent m0); [apply triple_raise|].
  eapply triple_bind; [eapply triple_conseq; [|done|exact Hc]; naive_solver|]. intros a. apply triple_get. intros m1.
  destruct (stopEvent m1); [apply triple_raise|]. eapply triple_conseq; [| |apply (triple_ret Q)]; naive_solver.
Qed.

(** The fields the set up changes are not in the invariant. *)
Lemma sinv_change m m' :
  sinv m → status m' = status m → emitted m' = emitted m → pos m' = pos m → acquires m' = acquires m → releases m' = releases m →
  sinv m'.
Proof.
  intros [[H1 H2 H3 H4 H5 H6 H7 H8] Hp] E1 E2 E3 E4 E5. destruct (H6 Hp) as (? & Hz & ?). split; [|congruence].
  constructor; rewrite ?E1, ?E2, ?E3, ?E4, ?E5; auto; [by rewrite Hz|]. rewrite Hp. done.
Qed.

Definition any (m : MonitorThread) : Prop := True.
Definition set_up (m : MonitorThread) : Prop := domain m = true.

Lemma same_set_up m m' : same m m' → set_up m → set_up m'.
Proof. intros S. unfold set_up. by rewrite (f_domain _ _ S). Qed.

Lemma setup_triple refreshTime i : triple any (_setupMonitor refreshTime i) set_up.
Proof.
  unfold _setupMonitor. apply triple_get. intros m0.
  apply (triple_bind _ any); [destruct (_shouldRefreshDomain _ _ _)|intros _].
  { apply triple_cancelpoint. eapply (triple_bind _ any); [eapply triple_conseq; [| |apply (triple_ask any)]; done|intros _].
    apply triple_modify. intros m Hs _. split; [|done]. by eapply sinv_change. }
  { eapply triple_conseq; [| |apply (triple_ret any)]; done. }
  apply triple_get. intros m1. apply (triple_bind _ set_up); [destruct (domain m1) eqn:Ed|intros _].
  { eapply triple_conseq; [| |apply (triple_ret set_up)]; [|done]. intros m [_ ->]. done. }
  { apply triple_cancelpoint. eapply (triple_bind _ any); [eapply triple_conseq; [| |apply (triple_ask any)]; done|intros _].
    eapply (triple_bind _ any); [by apply triple_ask|intros _].
    apply triple_modify. intros m Hs _. split; [|done]. by eapply sinv_change. }
  apply triple_get. intros m2. apply (triple_bind _ set_up).
  { destruct (bool_decide (monitoringPath m2 = None)); [|eapply triple_conseq; [| |apply (triple_ret set_up)]; naive_solver].
    unfold _startChecking. eapply (triple_bind _ set_up); [eapply triple_conseq; [| |apply (triple_ask set_up); apply same_set_up]; naive_solver|intros p].
    eapply (triple_bind _ set_up); [apply triple_modify; intros m Hs Hd; split; [by eapply sinv_change|done]|intros _].
    eapply (triple_bind _ set_up); [apply triple_ask; apply same_set_up|intros _].
    apply triple_modify; intros m Hs Hd; split; [by eapply sinv_change|done]. }
  intros _. apply triple_get. intros m3.
  destruct (bool_decide (isIsoDomain m3 = None)); [|eapply triple_conseq; [| |apply (triple_ret set_up)]; naive_solver].
  apply triple_cancelpoint.
  eapply (triple_bind _ set_up); [eapply triple_conseq; [| |apply (triple_ask set_up); apply same_set_up]; naive_solver|intros iso].
  eapply (triple_bind _ set_up); [|intros _; apply triple_modify; intros m Hs Hd; split; [by eapply sinv_change|done]].
  destruct iso; [|apply triple_ret].
  eapply (triple_bind _ set_up); [apply triple_ask; apply same_set_up|intros dir].
  apply triple_modify; intros m Hs Hd; split; [by eapply sinv_change|done].
Qed.

Lemma set_pos_inv p m :
  minv m → p ≠ SettingUp → pos m ≠ Done → (p = Monitoring → domain m = true) → p ≠ Done → minv (set_pos p m).
Proof.
  intros [H1 H2 H3 H4 H5 H6 H7 H8] Hp Hd Hm Hn. constructor; cbn; try done; auto.
  - intros (? & ? & Hx)%H4. auto.
  - destruct H5 as [Hr ?]. auto.
Qed.

Lemma wait_inv l m : minv m → pos m ≠ Done → minv (wait_interval l m).
Proof.
  intros H Hp. unfold wait_interval. destruct (events_inv l m H) as [H1 S1].
  destruct (stopEvent _); [|done]. apply set_pos_inv; try done. by rewrite (f_pos _ _ S1).
Qed.

(** In the set up nothing was announced but that the domain is not valid. *)
Lemma setup_last m : sinv m → emitted m ≠ [] → last (emitted m) = Some false.
Proof.
  intros [H Hp] Hne. destruct (i_setup m H Hp) as (Ht & _). destruct (last (emitted m)) as [[]|] eqn:El; [|done|].
  - by apply last_Some_elem_of in El.
  - by apply last_None in El.
Qed.

Lemma setup_failed_inv st race2 m :
  sinv m → status_valid st = false → d_error (_domain_status st) ≠ None →
  sinv (set_status st (foldl handle (notify_if_changed st m) race2)).
Proof.
  intros Hs Hv Hd. pose proof Hs as [H Hp]. pose proof (i_setup m H Hp) as (Ht & Hz & Hst).
  assert (Hact : status_actual st = true) by (unfold status_actual; by rewrite Hv).
  assert (H1 : sinv (notify_if_changed st m) ∧ emitted (notify_if_changed st m) ≠ []).
  { unfold notify_if_changed. destruct (_statusDidChange st m) eqn:Ec.
    - split; [|cbn; by intros [_ [=]]%app_nil]. split; [|done]. destruct H as [A1 A2 A3 A4 A5 A6 A7 A8]. constructor; cbn; try done; auto.
      + intros Ha. rewrite (setup_not_valid _ Hst Ha), Hv. apply last_snoc.
      + intros [?|?%list_elem_of_singleton]%elem_of_app; congruence.
      + apply no_repeat_snoc; congruence.
      + intros _. split_and!; [|done|done]. rewrite Hv. intros [?|?%list_elem_of_singleton]%elem_of_app; done.
    - split; [done|]. unfold _statusDidChange in Ec. rewrite Hact in Ec. cbn in Ec.
      destruct (status_actual (status m)) eqn:Ea; [|done]. pose proof (i_last m H Ea) as Hl. by destruct (emitted m). }
  destruct H1 as [[H1 P1] Hne]. destruct (events_inv race2 _ H1) as [H2 S2].
  set (m2 := foldl handle (notify_if_changed st m) race2) in *.
  assert (Hs2 : sinv m2) by (split; [done|by rewrite (f_pos _ _ S2)]).
  assert (Hne2 : emitted m2 ≠ []).
  { destruct (f_emitted _ _ S2) as [l ->]. by destruct (emitted (notify_if_changed st m)). }
  pose proof (setup_last m2 Hs2 Hne2) as Hl. split; [|apply Hs2].
  destruct Hs2 as [_ P2]. destruct H2 as [B1 B2 B3 B4 B5 B6 B7 B8]. destruct (B6 P2) as (Bt & Bz & _).
  constructor; cbn; try done; auto.
  - intros _. by rewrite Hv.
Qed.

Section Steps.
Context (refreshTime : Z).

Lemma setup_turn_inv i race1 race2 meanwhile m :
  sinv m → minv (setup_turn refreshTime i race1 race2 meanwhile m).
Proof.
  intros Hs. unfold setup_turn. destruct (setup_triple refreshTime i m Hs I) as [H1 H2].
  destruct (_setupMonitor refreshTime i m) as [m1 [[]|[e|]]]; cbn in *; destruct H1 as [H1 P1].
  - apply set_pos_inv; try done; [congruence|]. intros _. by apply H2.
  - destruct (events_inv race1 m1 H1) as [H3 S3]. set (st := mkStatus _ _).
    assert (Hf : sinv (set_status st (foldl handle (notify_if_changed st (foldl handle m1 race1)) race2))).
    { apply setup_failed_inv; [split; [done|by rewrite (f_pos _ _ S3)]| |done].
      apply bool_decide_eq_false. unfold status_error. cbn. by destruct (p_error _). }
    apply wait_inv; [apply Hf|]. by rewrite (proj2 Hf).
  - apply set_pos_inv; try done. congruence.
Qed.

(** A check of the domain *)
Definition ninv (m : MonitorThread) : Prop := minv m ∧ pos m = Monitoring.

Lemma ninv_events l m : ninv m → ninv (foldl handle m l).
Proof. intros [H P]. destruct (events_inv l m H) as [H1 S1]. split; [done|by rewrite (f_pos _ _ S1)]. Qed.

Lemma probe_inv {A} (i : input A) upd k m d :
  ninv m → d_actual d = true → (∀ a m d, d_actual d = true → d_actual (upd a m d) = true) →
  (∀ m d, ninv m → d_actual d = true → ninv (fst (k m d)) ∧ d_actual (snd (k m d)) = true) →
  ninv (fst (probe i upd k m d)) ∧ d_actual (snd (probe i upd k m d)) = true.
Proof.
  intros Hm Hd Hu Hk. unfold probe. pose proof (ninv_events (fst i) m Hm). destruct (snd i); [by apply Hk; auto|done].
Qed.

Lemma collect_inv i m : ninv m → ninv (fst (collect i m)) ∧ d_actual (snd (collect i m)) = true.
Proof.
  intros Hm. unfold collect. apply probe_inv; [done|done|done|]. clear m Hm. intros m d Hm Hd.
  do 4 (apply probe_inv; [done|done|done|]; clear m Hm d Hd; intros m d Hm Hd). by split.
Qed.

(** [c] keeps the invariant of the monitor loop. *)
Definition keeps {A} (c : M MonitorThread exn A) : Prop := ∀ m, ninv m → ninv (fst (c m)).

Lemma keeps_cancelpoint {A} (c : M MonitorThread exn A) : keeps c → keeps (cancelpoint c).
Proof.
  intros Hc m Hm. unfold cancelpoint, get. munfold_goal. destruct (stopEvent m); [done|]. specialize (Hc m Hm).
  destruct (c m) as [m' [a|e]]; [|done]. cbn in *. by destruct (stopEvent m').
Qed.

(** Events change the path part only by checking it. *)
Lemma path_changes l m :
  p_actual (_path_status (status (foldl handle m l))) = true ∨ _path_status (status (foldl handle m l)) = _path_status (status m).
Proof.
  revert m. induction l as [|e l IH]; intros m; [by right|]. cbn. destruct (IH (handle m e)) as [H|H]; [by left|].
  rewrite H. destruct e as [[]|]; [by left|by left|by right].
Qed.

(** A status that is valid after an actual one was checked in both parts. *)
Lemma shouldAcquire_spec m l :
  d_actual (_domain_status (status m)) = true → _domain_status (status (foldl handle m l)) = _domain_status (status m) →
  status_actual (status m) = true → status_valid (status (foldl handle m l)) = true → checked (status (foldl handle m l)).
Proof.
  intros Hd Hs Ha Hv. split; [|by rewrite Hs]. destruct (path_changes l m) as [H|H]; [done|].
  assert (E : status (foldl handle m l) = status m) by (destruct (status (foldl handle m l)), (status m); cbn in *; congruence).
  rewrite E in *. destruct (actual_or _ Ha) as [?|[??]]; [congruence|done].
Qed.

Lemma acquire_keeps i m : d_actual (_domain_status (status m)) = true → ninv m → ninv (fst (acquire_if_needed i m)).
Proof.
  intros Hd H0. unfold acquire_if_needed. destruct (c_races i) as [[[l1 l2] l3] l4].
  destruct (events_inv l1 m (proj1 H0)) as [_ S1]. pose proof (ninv_events l1 m H0) as H1. set (m1 := foldl handle m l1) in *.
  destruct (events_inv l2 m1 (proj1 H1)) as [_ S2]. pose proof (ninv_events l2 m1 H1) as H2.
  pose proof (shouldAcquire_spec m1 l2) as Hck. set (m2 := foldl handle m1 l2) in *.
  destruct (events_inv l3 m2 (proj1 H2)) as [_ S3]. pose proof (ninv_events l3 m2 H2) as H3. set (m3 := foldl handle m2 l3) in *.
  unfold _shouldAcquireHostId. destruct (bool_decide_reflect (isIsoDomain m3 = Some true)) as [|Hiso]; [done|].
  destruct (status_actual (status m1)) eqn:Ea; [|done]. destruct (status_valid (status m2)) eqn:Ev; [|done]. cbn.
  destruct (bool_decide_reflect (hasHostId (status m3) = Some false)) as [Eh|]; [|done].
  destruct (events_inv l4 m3 (proj1 H3)) as [_ S4]. pose proof (ninv_events l4 m3 H3) as H4. set (m4 := foldl handle m3 l4) in *.
  unfold _acquireHostId, cancelpoint, get. munfold_goal. destruct (stopEvent m4); [done|]. cbn.
  assert (Hc2 : checked (status m2)) by (apply Hck; [by rewrite (f_status _ _ S1)|apply S2|done|done]).
  assert (H5 : ninv (record_acquire (status m2) m4)).
  { assert (Hc4 : checked (status m4)).
    { split; [|rewrite (f_status _ _ S4), (f_status _ _ S3); apply Hc2].
      destruct (path_changes l4 m3) as [H|H]; [done|]. unfold m4. rewrite H.
      destruct (path_changes l3 m2) as [H'|H']; [done|]. unfold m3. rewrite H'. apply Hc2. }
    destruct H4 as [[A1 A2 A3 A4 A5 A6 A7 A8] P4]. split; [|done]. constructor; cbn; try done; auto.
    - intros _. rewrite (f_iso _ _ S4). auto.
    - rewrite P4. done.
    - apply Forall_app_2; [done|]. apply Forall_singleton. unfold asked_well.
      rewrite (f_status _ _ S4), (f_status _ _ S3). unfold hasHostId in *. rewrite (f_status _ _ S3) in Eh. done. }
  pose proof (ninv_events (fst (c_acquire i)) _ H5) as H6. by destruct (stopEvent _).
Qed.

Lemma check_keeps i : keeps (_checkDomainStatus i).
Proof.
  apply keeps_cancelpoint. intros m Hm. destruct (collect_inv i m Hm) as [H1 H2].
  destruct (collect i m) as [m1 d]; cbn in *. apply acquire_keeps; [done|]. destruct H1 as [H1 P1]. split.
  - apply update_inv; [done| |congruence]. intros [Hp _]. by split.
  - unfold _updateStatus, notify_if_changed. by destruct (_statusDidChange _ m1).
Qed.

Lemma monitor_turn_inv i meanwhile m : ninv m → minv (monitor_turn refreshTime i meanwhile m).
Proof.
  intros Hm. unfold monitor_turn.
  assert (H1 : ninv (fst (_monitorDomain refreshTime i m))).
  { unfold _monitorDomain, get. munfold_goal. destruct (_shouldRefreshDomain _ _ m); [|by apply check_keeps].
    assert (Hr : ninv (fst (_refreshDomain (c_remove i) (c_refreshed i) m))).
    { apply keeps_cancelpoint; [|done]. clear. intros m Hm. unfold ask. munfold_goal.
      pose proof (ninv_events (fst (c_remove i)) m Hm) as [H P]. destruct (snd (c_remove i)); [|done]. cbn.
      split; [|done]. by destruct H; constructor. }
    destruct (_refreshDomain _ _ m) as [m1 [[]|e]]; [by apply check_keeps|done]. }
  destruct (_monitorDomain refreshTime i m) as [m1 r]; cbn in H1. destruct H1 as [H1 P1].
  assert (Hw : minv (wait_interval meanwhile m1)) by (apply wait_inv; [done|by rewrite P1]).
  destruct r as [[]|[e|]]; [done|done|]. apply set_pos_inv; try done. by rewrite P1.
Qed.

Lemma stopChecking_inv i m : minv m → minv (_stopCheckingPath i m) ∧ pos (_stopCheckingPath i m) = pos m
  ∧ acquires (_stopCheckingPath i m) = acquires m.
Proof.
  intros H. unfold _stopCheckingPath. destruct (bool_decide _); [done|]. unfold ask.
  destruct (events_inv (fst i) m H) as [H1 S1]. destruct S1.
  destruct (is_ok _); [|done]. split_and!; [by destruct H1; constructor|done|done].
Qed.

Lemma set_pos_events p l m : foldl handle (set_pos p m) l = set_pos p (foldl handle m l).
Proof.
  revert m. induction l as [|e l IH]; intros m; [done|]. cbn. rewrite <-IH. f_equal.
  destruct e as [delay|b]; [|done]. cbn. unfold _pathChecked, _updateStatus, notify_if_changed.
  change (_statusDidChange ?x (set_pos p m)) with (_statusDidChange x m). by destruct (_statusDidChange _ m).
Qed.

Lemma teardown_spec i m :
  minv (set_pos Done m) →
  minv (set_pos Done (_teardownDomain i m)) ∧ acquires (set_pos Done (_teardownDomain i m)) = acquires m
  ∧ releases (set_pos Done (_teardownDomain i m)) = releases m ∧ domain (set_pos Done (_teardownDomain i m)) = false.
Proof.
  intros H. unfold _teardownDomain. destruct (domain m) eqn:Ed; cbn [negb]; [|done].
  destruct (events_inv (fst i) _ H) as [H2 S2]. rewrite set_pos_events in H2, S2. destruct S2 as [? ? ? S3 S4 ? ? ? ?]. cbn in S3, S4.
  split_and!; [|done|done|done]. destruct H2 as [B1 B2 B3 B4 B5 B6 B7 B8]. constructor; cbn in *; try done.
  intros (? & ? & _)%B4. done.
Qed.

(** After the [finally] clause: the host id was released unless it was never asked for or the monitor is shut down. *)
Lemma finish_spec i1 i2 i3 m :
  minv m → pos m = Finishing →
  minv (finish i1 i2 i3 m) ∧ acquires (finish i1 i2 i3 m) = acquires m
  ∧ (acquires m ≠ [] → wasShutdown (_stopCheckingPath i1 m) = false → releases (finish i1 i2 i3 m) = 1%nat)
  ∧ (wasShutdown (_stopCheckingPath i1 m) = true → releases (finish i1 i2 i3 m) = 0%nat)
  ∧ domain (finish i1 i2 i3 m) = false.
Proof.
  intros H P. unfold finish. destruct (stopChecking_inv i1 m H) as (H1 & P1 & A1).
  set (m1 := _stopCheckingPath i1 m) in *. rewrite P in P1.
  assert (R1 : releases m1 = 0%nat) by (apply (i_rel m1 H1); by rewrite P1).
  assert (Hacq : acquires m ≠ [] → wasShutdown m1 = false → _shouldReleaseHostId m1 = true).
  { rewrite <-A1. intros (Hiso & Hck & Hd)%(i_acq m1 H1) Hw. unfold _shouldReleaseHostId.
    rewrite Hd by (by rewrite P1). rewrite bool_decide_eq_false_2 by done. by rewrite Hw, (checked_actual _ Hck). }
  assert (Hshut : wasShutdown m1 = true → _shouldReleaseHostId m1 = false).
  { intros Hw. unfold _shouldReleaseHostId. rewrite Hw. destruct (negb (domain m1)); [done|]. by destruct (bool_decide _). }
  assert (Hd : minv (set_pos Done m1)).
  { destruct H1 as [B1 B2 B3 B4 B5 B6 B7 B8]. constructor; cbn; try done; [|split; [done|lia]]. intros (? & ? & _)%B4. done. }
  set (m2 := if _shouldReleaseHostId m1 then _releaseHostId i2 m1 else m1).
  assert (H2 : minv (set_pos Done m2) ∧ acquires m2 = acquires m1
    ∧ releases m2 = (if _shouldReleaseHostId m1 then 1 else 0)%nat).
  { unfold m2, _releaseHostId. destruct (_shouldReleaseHostId m1); [|done]. rewrite <-set_pos_events.
    assert (Hc : minv (set_pos Done (count_release m1))).
    { destruct Hd as [B1 B2 B3 B4 B5 B6 B7 B8]. cbn in *. constructor; cbn; try done. split; [done|lia]. }
    destruct (events_inv (fst i2) _ Hc) as [H2 S2]. rewrite set_pos_events in S2. destruct S2 as [? ? ? S3 S4 ? ? ? ?]. cbn in S3, S4.
    split_and!; [done|done|]. lia. }
  destruct H2 as (H2 & A2 & R2). destruct (teardown_spec i3 m2 H2) as (H3 & A3 & R3 & D3).
  rewrite A3, R3, A2, A1. split_and!; [done|done| | |done].
  - intros Ha Hw. by rewrite R2, Hacq.
  - intros Hw. by rewrite R2, Hshut.
Qed.

Lemma monitor_step_inv m m' : minv m → monitor_step refreshTime m m' → minv m'.
Proof.
  intros H Hs. destruct Hs as [i r1 r2 l m1 P|i l m1 P|i1 i2 i3 m1 P|e m1].
  - by apply setup_turn_inv.
  - by apply monitor_turn_inv.
  - exact (proj1 (finish_spec i1 i2 i3 m1 H P)).
  - exact (proj1 (handle_inv e m1 H)).
Qed.

Lemma monitor_reach_inv now m : monitor_reach refreshTime now m → minv m.
Proof.
  induction 1 as [|m m' _ IH Hs]; [|by eapply monitor_step_inv].
  constructor; cbn; try done; try lia.
  - by intros ?%elem_of_nil.
  - by intros [] l2.
  - intros _. split_and!; [by intros ?%elem_of_nil|done|by right].
Qed.

(** C37: the engine knows the state of a domain: whenever the status is actual, the last notice that was sent is
    its validity, even while the set up writes the status without the lock; a notice that
    the domain is valid is sent only when its path and the domain were both checked, and never twice in a row; and no
    notice says valid before the set up is done. *)
Theorem status_notices now m :
  monitor_reach refreshTime now m →
  (status_actual (status m) = true → last (emitted m) = Some (status_valid (status m)))
  ∧ (true ∈ emitted m → p_actual (_path_status (status m)) = true ∧ d_actual (_domain_status (status m)) = true)
  ∧ (∀ l1 l2, emitted m ≠ l1 ++ true :: true :: l2)
  ∧ (pos m = SettingUp → true ∉ emitted m).
Proof.
  intros [H1 H2 H3 H4 H5 H6 H7 H8]%monitor_reach_inv. split_and!; try done. intros Hp. by destruct (H6 Hp).
Qed.

(** C38: a monitor gives back the host id it asked for. It asks for it only for a domain that was set up and is not an
    ISO domain; each time the status whose validity it tested had both the path and the domain checked, no error, and
    the host id not acquired, and when it asked the result of the domain check was still that one (the path may have
    been checked again since the test); when its thread ends after it has asked, and the monitor was not
    shut down, it has released the host id exactly once; a monitor that is shut down
    does not release it; and the domain is torn down. *)
Theorem host_id_given_back now m i1 i2 i3 :
  monitor_reach refreshTime now m → pos m = Finishing →
  let m' := finish i1 i2 i3 m in
  (acquires m ≠ [] → isIsoDomain m ≠ Some true ∧ domain m = true)
  ∧ (∀ tested current, (tested, current) ∈ acquires m →
       p_actual (_path_status tested) = true ∧ d_actual (_domain_status tested) = true ∧ status_error tested = None
       ∧ hasHostId tested = Some false ∧ _domain_status current = _domain_status tested)
  ∧ (acquires m ≠ [] → wasShutdown (_stopCheckingPath i1 m) = false → releases m' = 1%nat)
  ∧ (wasShutdown (_stopCheckingPath i1 m) = true → releases m' = 0%nat)
  ∧ acquires m' = acquires m ∧ pos m' = Done ∧ domain m' = false.
Proof.
  intros H%monitor_reach_inv P. destruct (finish_spec i1 i2 i3 m H P) as (H1 & H2 & H3 & H4 & H5).
  split_and!; try done.
  - intros (Hi & Hc & Hd)%(i_acq m H). split; [done|by apply Hd; rewrite P].
  - intros tested current Hin. pose proof (i_asked m H) as Hall. rewrite Forall_forall in Hall.
    destruct (Hall _ Hin) as ([??] & Hv & ? & ?). unfold status_valid in Hv. rewrite bool_decide_eq_true in Hv. done.
Qed.
End Steps.

(** ** A run *)

Definition answer {A} (a : A) : input A := ([], Ok a).
Definition easy_setup : setup_inputs :=
  mkSetup 0 (answer ()) 0 (answer ()) (answer ()) (answer [1]) (answer ()) (answer false) (answer []).
Definition easy_check : check_inputs :=
  mkCheck 0 (answer ()) 0 (answer ()) (answer (mkStats 100 50 10 5 true false)) (answer (true, false)) (answer (Some false))
    (answer 5) ([], [], [], []) (answer ()).

(** Set up, the path is checked, the domain is checked and its host id asked for. *)
Definition monitored : MonitorThread :=
  monitor_turn 300 easy_check [] (handle (setup_turn 300 easy_setup [] [] [] (new_monitor 0)) (EPath (Ok 1))).

(** ... and the monitor is stopped. *)
Definition stopped : MonitorThread := monitor_turn 300 easy_check [] (handle monitored (EStop false)).

Lemma monitored_reach : monitor_reach 300 0 monitored.
Proof.
  eapply reach_next; [|by apply step_monitor]. eapply reach_next; [|apply step_event].
  eapply reach_next; [apply reach_new|by apply step_setup].
Qed.

Lemma stopped_reach : monitor_reach 300 0 stopped.
Proof.
  eapply reach_next; [|by apply step_monitor]. eapply reach_next; [exact monitored_reach|apply step_event].
Qed.

Lemma status_notices_witness :
  emitted monitored = [true] ∧ status_actual (status monitored) = true
  ∧ last (emitted monitored) = Some (status_valid (status monitored)).
Proof.
  split; [reflexivity|]. split; [reflexivity|].
  exact (proj1 (status_notices 300 0 monitored monitored_reach) eq_refl).
Defined.

Lemma host_id_given_back_witness :
  length (acquires stopped) = 1%nat ∧ pos stopped = Finishing ∧ releases (finish (answer ()) (answer ()) (answer ()) stopped) = 1%nat.
Proof.
  split; [reflexivity|]. split; [reflexivity|].
  refine (proj1 (proj2 (proj2 (host_id_given_back 300 0 stopped (answer ()) (answer ()) (answer ()) stopped_reach eq_refl))) _ eq_refl).
  vm_compute. discriminate.
Defined.

(** When [start_checking] raises, the path is kept and a later set up does not start the check: the domain
    is monitored without its path being checked. *)
Lemma path_never_checked :
  let i := mkSetup 0 (answer ()) 0 (answer ()) (answer ()) (answer [1]) ([], Raise 5) (answer false) (answer []) in
  let m := setup_turn 300 easy_setup [] [] [] (setup_turn 300 i [] [] [] (new_monitor 0)) in
  pos m = Monitoring ∧ checking m = false ∧ status_actual (status (monitor_turn 300 easy_check [] m)) = false.
Proof. vm_compute. done. Qed.
