(* ===== verification/DomainMonitor.v ===== *)
(** * The monitors of the domains: [DomainMonitor] of [storage/monitor.py]

    The map of the monitors, the threads of the monitors it started, and the calls of
    [stopMonitoring] and [shutdown], which wait for the threads without the lock. *)
From Stdlib Require Import ZArith Lia.
From stdpp Require Import base gmap list strings.
From S2P Require Import Prelude Monitor.
Open Scope Z_scope.

Inductive error := ShuttingDownError | KeyError | ThreadError.

(** A [MonitorThread] with its attributes that the domain monitor uses. *)
Record monitor := mkMon { sdUUID : text; hostId : Z; poolDomain : bool; thread : MonitorThread }.

Definition set_pool (b : bool) (m : monitor) : monitor := mkMon (sdUUID m) (hostId m) b (thread m).
Definition set_thread (t : MonitorThread) (m : monitor) : monitor := mkMon (sdUUID m) (hostId m) (poolDomain m) t.

(** [objs] are the monitors that were made; [stopping] has, for every call that stops monitors, those it has still to wait for. *)
Record DomainMonitor := mkDM {
  _shutting_down : bool;
  objs : gmap nat monitor;
  next : nat;
  _monitors : gmap text nat;
  stopping : list (list nat);
}.

Definition new_DM : DomainMonitor := mkDM false ∅ 0 ∅ [].

Definition update (f : monitor → monitor) (id : nat) (d : DomainMonitor) : DomainMonitor :=
  mkDM (_shutting_down d) (alter f id (objs d)) (next d) (_monitors d) (stopping d).

(** [starts] is whether [monitor.start()] can start the thread; if not it raises, and the monitor is forgotten. *)
Definition startMonitoring (sd : text) (host : Z) (pool : bool) (now : Z) (starts : bool) : M DomainMonitor error unit := fun d =>
  if _shutting_down d then (d, Raise ShuttingDownError)
  else match _monitors d !! sd with
       | Some id =>
           if negb pool then (d, Ok ())
           else match objs d !! id with
                | Some m => if poolDomain m then (d, Ok ()) else (update (set_pool true) id d, Ok ())
                | None => (d, Ok ())
                end
       | None =>
           if negb starts then (d, Raise ThreadError)
           else
           (mkDM false (<[next d := mkMon sd host pool (new_monitor now)]> (objs d)) (S (next d))
              (<[sd := next d]> (_monitors d)) (stopping d), Ok ())
       end.

(** The monitors of the map, in the order of [_monitors.values()] *)
Definition values (d : DomainMonitor) : list nat := snd <$> map_to_list (_monitors d).

(** The first loop of [_stopMonitors]: the monitors are told to stop. *)
Definition signal (shutdown : bool) (ids : list nat) (d : DomainMonitor) : DomainMonitor :=
  mkDM (_shutting_down d) (foldr (alter (fun m => set_thread (stop shutdown (thread m)) m)) (objs d) ids) (next d) (_monitors d)
    (stopping d ++ [ids]).

(** [monitor.sdUUID in sdUUIDs] *)
Definition selected (sds : list text) (d : DomainMonitor) (id : nat) : bool :=
  match objs d !! id with Some m => bool_decide (sdUUID m ∈ sds) | None => false end.

(** [stopMonitoring] up to the waiting *)
Definition stopMonitoring (sds : list text) : M DomainMonitor error unit := fun d =>
  if _shutting_down d then (d, Raise ShuttingDownError)
  else
    let ids := filter (fun id => selected sds d id = true) (values d) in
    (signal false ids d, Ok ()).

(** [shutdown] up to the waiting *)
Definition shutdown : M DomainMonitor error unit := fun d =>
  if _shutting_down d then (d, Raise ShuttingDownError)
  else (signal true (values d) (mkDM true (objs d) (next d) (_monitors d) (stopping d)), Ok ()).

(** A turn of the second loop of [_stopMonitors], for the [k]-th call: the thread has ended and its
    entry is removed; a KeyError is logged. *)
Definition join_next (k : nat) (d : DomainMonitor) : option DomainMonitor :=
  match stopping d !! k with
  | Some (id :: ids) =>
      m ← objs d !! id;
      if bool_decide (pos (thread m) = Done)
      then Some (mkDM (_shutting_down d) (objs d) (next d) (delete (sdUUID m) (_monitors d)) (<[k := ids]> (stopping d)))
      else None
  | _ => None
  end.

(** A call that has waited for all returns. *)
Definition join_done (k : nat) (d : DomainMonitor) : DomainMonitor :=
  match stopping d !! k with
  | Some [] => mkDM (_shutting_down d) (objs d) (next d) (_monitors d) (delete k (stopping d))
  | _ => d
  end.

Definition domains (d : DomainMonitor) : list text := fst <$> map_to_list (_monitors d).

Definition poolDomains (d : DomainMonitor) : list text :=
  fst <$> filter (fun p => (match objs d !! snd p with Some m => poolDomain m | None => false end) = true) (map_to_list (_monitors d)).

Definition isMonitoring (sd : text) (d : DomainMonitor) : bool := bool_decide (is_Some (_monitors d !! sd)).

Definition getDomainsStatus (d : DomainMonitor) : list (text * Status) :=
  omap (fun p => m ← objs d !! snd p; Some (fst p, status (thread m))) (map_to_list (_monitors d)).

Definition getHostId (sd : text) (d : DomainMonitor) : res error Z :=
  match _monitors d !! sd ≫= fun id => objs d !! id with Some m => Ok (hostId m) | None => Raise KeyError end.

Section DomainMonitor.
(** [overlap]: whether calls that stop monitors may run at the same time *)
Context (overlap : bool) (refreshTime : Z).

Inductive dm_step : DomainMonitor → DomainMonitor → Prop :=
| dm_start sd host pool now starts d : dm_step d (fst (startMonitoring sd host pool now starts d))
| dm_stop sds d : (overlap = false → stopping d = []) → dm_step d (fst (stopMonitoring sds d))
| dm_shutdown d : (overlap = false → stopping d = []) → dm_step d (fst (shutdown d))
| dm_join k d d' : join_next k d = Some d' → dm_step d d'
| dm_return k d : dm_step d (join_done k d)
| dm_thread id m t d :
    objs d !! id = Some m → monitor_step refreshTime (thread m) t → dm_step d (update (set_thread t) id d).

Inductive dm_reach : DomainMonitor → Prop :=
| dm_new : dm_reach new_DM
| dm_next d d' : dm_reach d → dm_step d d' → dm_reach d'.

(** A monitor whose thread runs while the map does not have it. *)
Definition leaked (d : DomainMonitor) (id : nat) : Prop :=
  ∃ m, objs d !! id = Some m ∧ pos (thread m) ≠ Done ∧ _monitors d !! sdUUID m ≠ Some id.

Record dm_inv (d : DomainMonitor) : Prop := {
  d_fresh : ∀ id, is_Some (objs d !! id) → (id < next d)%nat;
  d_map : ∀ sd id, _monitors d !! sd = Some id → ∃ m, objs d !! id = Some m ∧ sdUUID m = sd;
  d_leak : ∀ id, ¬ leaked d id;
  d_stop : ∀ k ids, stopping d !! k = Some ids → k = 0%nat ∧ NoDup ids
             ∧ ∀ id, id ∈ ids → ∃ m, objs d !! id = Some m ∧ _monitors d !! sdUUID m = Some id;
  d_down : _shutting_down d = true → ∃ ids, (stopping d = [ids] ∨ (stopping d = [] ∧ ids = [])) ∧ ∀ sd id, _monitors d !! sd = Some id → id ∈ ids;
}.

Lemma done_stays t t' : pos t = Done → monitor_step refreshTime t t' → pos t' = Done.
Proof.
  intros P Hs. destruct Hs as [i r1 r2 l m Q|i l m Q|i1 i2 i3 m Q|e m]; [congruence..|].
  destruct e as [delay|b]; cbn; [|done]. unfold _pathChecked, _updateStatus, notify_if_changed. by destruct (_statusDidChange _ m).
Qed.

Lemma elem_of_values d id : id ∈ values d ↔ ∃ sd, _monitors d !! sd = Some id.
Proof.
  unfold values. rewrite list_elem_of_fmap. split.
  - intros ([sd id'] & -> & H%elem_of_map_to_list). by exists sd.
  - intros [sd H]. exists (sd, id). by rewrite elem_of_map_to_list.
Qed.

Lemma values_NoDup d : dm_inv d → NoDup (values d).
Proof.
  intros H. unfold values. apply NoDup_fmap_2_strong; [|apply NoDup_map_to_list].
  intros [sd1 id1] [sd2 id2] H1%elem_of_map_to_list H2%elem_of_map_to_list. cbn. intros ->.
  apply (d_map d H) in H1 as (m1 & E1 & <-). apply (d_map d H) in H2 as (m2 & E2 & <-). by simplify_eq.
Qed.

(** A change of the monitors that keeps their domains, and those that are done *)
Definition same_objs (o o' : gmap nat monitor) : Prop :=
  ∀ id, match o !! id, o' !! id with
        | Some m, Some m' => sdUUID m' = sdUUID m ∧ (pos (thread m) = Done → pos (thread m') = Done)
        | None, None => True
        | _, _ => False
        end.

Lemma same_objs_refl o : same_objs o o.
Proof. intros id. by destruct (o !! id). Qed.

Lemma same_objs_alter f id o o' :
  same_objs o o' → (∀ m, o' !! id = Some m → sdUUID (f m) = sdUUID m ∧ (pos (thread m) = Done → pos (thread (f m)) = Done)) →
  same_objs o (alter f id o').
Proof.
  intros H Hf id'. specialize (H id'). destruct (decide (id = id')) as [<-|]; [|by rewrite lookup_alter_ne].
  rewrite lookup_alter_eq. destruct (o !! id), (o' !! id) as [m'|] eqn:E; cbn; try done.
  destruct (Hf m' eq_refl) as [H1 H2]. destruct H as [H3 H4]. split; [congruence|auto].
Qed.

Lemma same_objs_lookup o o' id m : same_objs o o' → o !! id = Some m → ∃ m', o' !! id = Some m' ∧ sdUUID m' = sdUUID m.
Proof. intros H E. specialize (H id). rewrite E in H. destruct (o' !! id) as [m'|]; [|done]. exists m'. by destruct H. Qed.

Lemma same_objs_inv d o : dm_inv d → same_objs (objs d) o → dm_inv (mkDM (_shutting_down d) o (next d) (_monitors d) (stopping d)).
Proof.
  intros [H1 H2 H3 H4 H5] Hs. constructor; cbn; [| | | |done].
  - intros id Ho. apply H1. specialize (Hs id). destruct (objs d !! id); [eauto|]. destruct Ho as [m Ho]. by rewrite Ho in Hs.
  - intros sd id (m & E & <-)%H2. destruct (same_objs_lookup _ _ _ _ Hs E) as (m' & E' & ?). eauto.
  - intros id (m & E & P & Hl). cbn in *. specialize (Hs id). rewrite E in Hs.
    destruct (objs d !! id) as [m0|] eqn:E0; [|done]. destruct Hs as [Hsd Hd]. apply (H3 id). exists m0.
    split_and!; [done|auto|congruence].
  - intros k ids Hk. destruct (H4 k ids Hk) as (-> & Hn & Hin). split_and!; [done|done|].
    intros id (m & E & Hm)%Hin. destruct (same_objs_lookup _ _ _ _ Hs E) as (m' & E' & Hsd). exists m'. by rewrite Hsd.
Qed.

Lemma signal_objs b ids d : same_objs (objs d) (objs (signal b ids d)).
Proof.
  cbn. induction ids as [|id ids IH]; cbn; [apply same_objs_refl|]. apply same_objs_alter; [done|]. intros m _. done.
Qed.

Lemma signal_inv b ids d :
  dm_inv d → stopping d = [] → NoDup ids → (∀ id, id ∈ ids → id ∈ values d) →
  (_shutting_down d = true → ∀ id, id ∈ values d → id ∈ ids) → dm_inv (signal b ids d).
Proof.
  intros H Hs Hn Hin Hall. pose proof (same_objs_inv d _ H (signal_objs b ids d)) as [H1 H2 H3 H4 H5].
  constructor; cbn in *; try done; rewrite Hs in *; cbn in *.
  - intros [|k] ids' Hk; [|done]. injection Hk as <-. split_and!; [done|done|]. intros id Hid.
    apply Hin, elem_of_values in Hid as [sd Hm]. destruct (H2 sd id Hm) as (m & E & <-). eauto.
  - intros Hd. exists ids. split; [by left|]. intros sd id Hm. apply Hall; [done|]. apply elem_of_values. eauto.
Qed.

Lemma start_inv sd host pool now starts d : dm_inv d → dm_inv (fst (startMonitoring sd host pool now starts d)).
Proof.
  intros H. unfold startMonitoring. destruct (_shutting_down d) eqn:Ed; [done|].
  destruct (_monitors d !! sd) as [id|] eqn:Em.
  - destruct (negb pool); [done|]. destruct (objs d !! id) as [m|] eqn:Eo; [|done]. destruct (poolDomain m); [done|]. cbn.
    apply same_objs_inv; [done|]. apply same_objs_alter; [apply same_objs_refl|]. intros m' _. done.
  - destruct starts; [|done]. cbn. pose proof H as [H1 H2 H3 H4 H5].
    assert (Hf : objs d !! next d = None).
    { destruct (objs d !! next d) eqn:E; [|done]. specialize (H1 (next d) ltac:(eauto)). lia. }
    assert (Hne : ∀ id m, objs d !! id = Some m → id ≠ next d) by (intros id m E ->; congruence).
    constructor; cbn; [| | | |done].
    + intros id. rewrite lookup_insert_is_Some'. intros [<-|Ho]; [lia|]. apply H1 in Ho. lia.
    + intros sd' id [[<- <-]|[Hs Hm]]%lookup_insert_Some; [rewrite lookup_insert_eq; eauto|].
      apply H2 in Hm as (m & E & <-). exists m. rewrite lookup_insert_ne by (symmetry; eauto). done.
    + intros id (m & E & P & Hl). cbn in *. apply lookup_insert_Some in E as [[<- <-]|[Hne' E]].
      * cbn in Hl. by rewrite lookup_insert_eq in Hl.
      * apply (H3 id). exists m. split_and!; [done|done|]. intros Hm. apply Hl. rewrite lookup_insert_ne; [done|]. congruence.
    + intros k ids Hk. destruct (H4 k ids Hk) as (-> & Hn & Hin). split_and!; [done|done|].
      intros id (m & E & Hm)%Hin. exists m. rewrite lookup_insert_ne by (symmetry; eauto). split; [done|].
      rewrite lookup_insert_ne; [done|]. congruence.
Qed.

Lemma join_inv k d d' : dm_inv d → join_next k d = Some d' → dm_inv d'.
Proof.
  intros H. pose proof H as [H1 H2 H3 H4 H5]. unfold join_next. destruct (stopping d !! k) as [[|id ids]|] eqn:Ek; try done.
  destruct (objs d !! id) as [m|] eqn:Eo; [|done]. cbn. destruct (bool_decide_reflect (pos (thread m) = Done)) as [P|]; [|done].
  intros [= <-]. destruct (H4 k _ Ek) as (-> & [Hnin Hn]%NoDup_cons & Hin).
  assert (Hm : _monitors d !! sdUUID m = Some id).
  { destruct (Hin id ltac:(by left)) as (m' & E' & Hm'). by simplify_eq. }
  assert (Hone : ∀ k' ids', stopping d !! k' = Some ids' → k' = 0%nat ∧ ids' = id :: ids).
  { intros k' ids' Hk'. destruct (H4 k' ids' Hk') as (-> & _). by simplify_eq. }
  constructor; cbn; [done| | | |].
  - intros sd id' [_ Hm']%lookup_delete_Some. eauto.
  - intros id' (m' & E & P' & Hl). cbn in *. apply (H3 id'). exists m'. split_and!; [done|done|].
    intros Hm'. apply Hl. rewrite lookup_delete_ne; [done|]. intros Hsd. rewrite Hsd in Hm. simplify_eq.
  - intros k' ids' Hk'. apply list_lookup_insert_Some in Hk' as [(<- & <- & _)|[Hne Hk']].
    + split_and!; [done|done|]. intros id' Hid'. destruct (Hin id' ltac:(by right)) as (m' & E' & Hm'). exists m'. split; [done|].
      rewrite lookup_delete_ne; [done|]. intros Hsd. rewrite Hsd in Hm. simplify_eq. done.
    + apply Hone in Hk' as [-> _]. done.
  - intros Hd. destruct (H5 Hd) as (ids' & Hst & Hall). exists ids.
    destruct Hst as [Hst|[Hst _]]; [|by rewrite Hst in Ek].
    rewrite Hst in *. injection Ek as ->. split; [by left|].
    intros sd id' [Hne Hm']%lookup_delete_Some. pose proof (Hall _ _ Hm') as [->|?]%elem_of_cons; [|done].
    apply H2 in Hm' as (m' & E' & <-). simplify_eq.
Qed.
End DomainMonitor.

Lemma return_inv k d : dm_inv d → dm_inv (join_done k d).
Proof.
  intros H. unfold join_done. destruct (stopping d !! k) as [[|id ids]|] eqn:Ek; try done.
  destruct H as [H1 H2 H3 H4 H5]. destruct (H4 k [] Ek) as (-> & _).
  assert (Hs : stopping d = [[]]).
  { destruct (stopping d) as [|l [|l' ls]] eqn:E; try done; [by injection Ek as ->|].
    by destruct (H4 1%nat l' eq_refl) as [? _]. }
  constructor; cbn; rewrite ?Hs in *; try done.
  intros Hd. destruct (H5 Hd) as (ids & [[= <-]|[[=] _]] & Hall). exists []. split; [by right|done].
Qed.

Lemma dm_step_inv refreshTime d d' : dm_inv d → dm_step false refreshTime d d' → dm_inv d'.
Proof.
  intros H Hs. destruct Hs as [sd host pool now d|sds d Ho|d Ho|k d d' Hj|k d|id m t d Eo Ht].
  - by apply start_inv.
  - unfold stopMonitoring. destruct (_shutting_down d) eqn:Ed; [done|]. apply signal_inv; [done|auto| | |congruence].
    + by apply NoDup_filter, values_NoDup.
    + intros id Hid. by apply list_elem_of_filter in Hid as [_ ?].
  - unfold shutdown. destruct (_shutting_down d) eqn:Ed; [done|].
    set (d1 := mkDM true (objs d) (next d) (_monitors d) (stopping d)). specialize (Ho eq_refl).
    pose proof H as [H1 H2 H3 H4 H5]. pose proof (signal_objs true (values d) d) as Hso.
    pose proof (same_objs_inv d _ H Hso) as [B1 B2 B3 B4 B5]. constructor; cbn in *; try done; rewrite Ho in *; cbn in *.
    + intros [|k] ids Hk; [|done]. injection Hk as <-. split_and!; [done|by apply values_NoDup|].
      intros id [sd Hm]%elem_of_values. destruct (B2 sd id Hm) as (m & E & <-). eauto.
    + intros _. exists (values d). split; [by left|]. intros sd id Hm. apply elem_of_values. eauto.
  - by eapply join_inv.
  - by apply return_inv.
  - apply same_objs_inv; [done|]. apply same_objs_alter; [apply same_objs_refl|]. intros m' E. simplify_eq. split; [done|].
    intros P. by eapply done_stays.
Qed.

Lemma dm_reach_inv refreshTime d : dm_reach false refreshTime d → dm_inv d.
Proof.
  induction 1 as [|d d' _ IH Hs]; [|by eapply dm_step_inv].
  constructor; cbn; try done.
  - intros id [m E]. by apply lookup_empty_Some in E.
  - intros id (m & E & _). cbn in E. by apply lookup_empty_Some in E.
Qed.

(** C39: while calls that stop monitors do not overlap, a domain has one monitor at most and none is lost: the map has every
    monitor whose thread still runs, under its domain; and once [shutdown] has returned there is no
    monitor left and all threads have ended, and no domain can be monitored again. *)
Theorem monitors_accounted refreshTime d :
  dm_reach false refreshTime d →
  (∀ id m, objs d !! id = Some m → pos (thread m) ≠ Done → _monitors d !! sdUUID m = Some id)
  ∧ (∀ id id' m m', objs d !! id = Some m → objs d !! id' = Some m' → pos (thread m) ≠ Done → pos (thread m') ≠ Done →
       sdUUID m = sdUUID m' → id = id')
  ∧ (_shutting_down d = true → stopping d = [] →
       _monitors d = ∅ ∧ (∀ id m, objs d !! id = Some m → pos (thread m) = Done)
       ∧ ∀ sd host pool now starts, startMonitoring sd host pool now starts d = (d, Raise ShuttingDownError)).
Proof.
  intros [H1 H2 H3 H4 H5]%dm_reach_inv.
  assert (Hmap : ∀ id m, objs d !! id = Some m → pos (thread m) ≠ Done → _monitors d !! sdUUID m = Some id).
  { intros id m E P. destruct (decide (_monitors d !! sdUUID m = Some id)) as [|Hn]; [done|]. destruct (H3 id). by exists m. }
  split_and!; [done| |].
  - intros id id' m m' E E' P P' Hsd. apply Hmap in E; [|done]. apply Hmap in E'; [|done]. rewrite Hsd in E. congruence.
  - intros Hd Hs. destruct (H5 Hd) as (ids & Hst & Hall).
    assert (Hempty : _monitors d = ∅).
    { apply map_empty. intros sd. destruct (_monitors d !! sd) as [id|] eqn:E; [|done]. apply Hall in E.
      destruct Hst as [Hst|[_ ->]]; [congruence|]. by apply elem_of_nil in E. }
    split_and!; [done| |].
    + intros id m E. destruct (decide (pos (thread m) = Done)) as [|P]; [done|]. apply Hmap in E; [|done]. by rewrite Hempty in E.
    + intros sd host pool now starts. unfold startMonitoring. by rewrite Hd.
Qed.

(** ** A run with one domain *)

Definition nothing {A} (a : A) : input A := ([], Ok a).
Definition quiet : setup_inputs :=
  mkSetup 0 (nothing ()) 0 (nothing ()) (nothing ()) (nothing []) (nothing ()) (nothing false) (nothing []).
Definition sdA : text := str "sdA"%string.

Definition started : DomainMonitor := fst (startMonitoring sdA 1 true 0 true new_DM).
Definition ended (id : nat) (d : DomainMonitor) : DomainMonitor :=
  let end_thread f d := match objs d !! id with Some m => update (set_thread (f (thread m))) id d | None => d end in
  end_thread (finish (nothing ()) (nothing ()) (nothing ())) (end_thread (setup_turn 0 quiet [] [] []) d).

(** A monitor that was stopped gives up at its first cancellation point. *)
Lemma canceled_setup t :
  stopEvent t = true → domain t = false → lastRefresh t = 0 → pos (setup_turn 0 quiet [] [] [] t) = Finishing.
Proof. destruct t; cbn; intros -> -> ->. reflexivity. Qed.

Lemma ended_reach overlap d id m :
  dm_reach overlap 0 d → objs d !! id = Some m → pos (thread m) = SettingUp → stopEvent (thread m) = true → domain (thread m) = false → lastRefresh (thread m) = 0 →
  dm_reach overlap 0 (ended id d).
Proof.
  intros Hr E P Hs Hd Hl. unfold ended. rewrite E. set (d1 := update _ id d).
  assert (E1 : objs d1 !! id = Some (set_thread (setup_turn 0 quiet [] [] [] (thread m)) m)).
  { unfold d1, update; cbn. by rewrite lookup_alter_eq, E. }
  assert (P1 : pos (setup_turn 0 quiet [] [] [] (thread m)) = Finishing).
  { by apply canceled_setup. }
  assert (Hr1 : dm_reach overlap 0 d1).
  { eapply dm_next; [done|]. eapply dm_thread; [done|]. by apply step_setup. }
  rewrite E1. eapply dm_next; [exact Hr1|]. eapply dm_thread; [exact E1|]. by apply step_finish.
Qed.

Lemma monitors_accounted_witness :
  let d := ended 0 (fst (shutdown started)) in
  ∃ d1, join_next 0 d = Some d1 ∧ _monitors (join_done 0 d1) = ∅.
Proof.
  assert (Hr : dm_reach false 0 (ended 0 (fst (shutdown started)))).
  { eapply ended_reach; [|vm_compute; reflexivity..]. eapply dm_next; [|by apply dm_shutdown].
    eapply dm_next; [apply dm_new|]. apply dm_start. }
  eexists. split; [vm_compute; reflexivity|].
  refine (proj1 (proj2 (proj2 (monitors_accounted 0 _ _)) _ _)); [|vm_compute; reflexivity..].
  eapply dm_next; [|apply dm_return]. eapply dm_next; [exact Hr|]. apply (dm_join _ _ 0). vm_compute. reflexivity.
Defined.

(** Two overlapping calls that stop the same domain, and a start between their ends: the
    second removes the entry of the new monitor, whose thread runs on. *)
Lemma monitor_leaks :
  ∃ d, dm_reach true 0 d ∧ leaked d 1 ∧ isMonitoring sdA d = false.
Proof.
  set (d1 := ended 0 (fst (stopMonitoring [sdA] (fst (stopMonitoring [sdA] started))))).
  assert (Hr : dm_reach true 0 d1).
  { eapply ended_reach; [|vm_compute; reflexivity..]. do 2 (eapply dm_next; [|by apply dm_stop]).
    eapply dm_next; [apply dm_new|]. apply dm_start. }
  destruct (join_next 0 d1) as [d2|] eqn:E2; [|by vm_compute in E2].
  assert (Hr2 : dm_reach true 0 d2) by (eapply dm_next; [exact Hr|by eapply dm_join]).
  vm_compute in E2. injection E2 as <-. set (d2 := mkDM _ _ _ _ _) in Hr2.
  set (d3 := fst (startMonitoring sdA 1 true 0 true d2)).
  assert (Hr3 : dm_reach true 0 d3) by (eapply dm_next; [exact Hr2|apply dm_start]).
  destruct (join_next 1 d3) as [d4|] eqn:E4; [|by vm_compute in E4].
  exists d4. split; [eapply dm_next; [exact Hr3|by eapply dm_join]|].
  vm_compute in E4. injection E4 as <-. split; [|reflexivity].
  eexists. split_and!; [vm_compute; reflexivity|vm_compute; discriminate|vm_compute; discriminate].
Qed.
