(* ===== verification/Sampling.v ===== *)
(** * Sampling methods: [DynamicBarrier] and [SamplingMethod] of [storage/misc.py]

    Concurrent calls of a sampling method share one evaluation of its function.  The threads are kept where they are in
    [__call__] and [enter]; a body under the condition's lock is a step.  A counter of steps is the time of calls and evaluations. *)
From Stdlib Require Import ZArith Lia.
From stdpp Require Import base gmap list.
From S2P Require Import Prelude.

Section Sampling.
Context {R : Type}.

(** Where a thread is, with the time of its call: asleep in the first or the second [wait] of [enter], or woken from it;
    evaluating the function it entered for; about to [exit], with whether the function
    raised; and about to return the last result. *)
Inductive position :=
| Wait1 (called : nat) (awake : bool)
| Wait2 (called : nat) (awake : bool)
| Evaluating (called entered : nat)
| Exiting (called entered : nat) (raised : bool)
| Returning (called : nat).

(** [lastResult] has the time its evaluation was entered; [finished] is that of the last evaluation that
    ended and [failed] those that raised. *)
Record SamplingMethod := mkSampling {
  _busy : bool;
  lastResult : option (R * nat);
  threads : gmap nat position;
  now : nat;
  finished : nat;
  failed : list nat;
}.

Definition new_sampling : SamplingMethod := mkSampling false None ∅ 1 0 [].

Definition goto (t : nat) (p : position) (s : SamplingMethod) : SamplingMethod :=
  mkSampling (_busy s) (lastResult s) (<[t := p]> (threads s)) (S (now s)) (finished s) (failed s).

Definition set_busy (b : bool) (s : SamplingMethod) : SamplingMethod :=
  mkSampling b (lastResult s) (threads s) (now s) (finished s) (failed s).

(** [self._cond.notifyAll()] *)
Definition wake (p : position) : position :=
  match p with Wait1 c _ => Wait1 c true | Wait2 c _ => Wait2 c true | p => p end.

Definition notifyAll (s : SamplingMethod) : SamplingMethod :=
  mkSampling (_busy s) (lastResult s) (wake <$> threads s) (now s) (finished s) (failed s).

(** [enter] up to its first [wait] *)
Definition enter (t : nat) (s : SamplingMethod) : SamplingMethod :=
  if negb (_busy s) then goto t (Evaluating (now s) (now s)) (set_busy true s) else goto t (Wait1 (now s) false) s.

(** [enter] from the first [wait] *)
Definition enter_again (t called : nat) (s : SamplingMethod) : SamplingMethod :=
  if negb (_busy s) then goto t (Evaluating called (now s)) (set_busy true s) else goto t (Wait2 called false) s.

(** The function has returned or raised. *)
Definition evaluated (t called entered : nat) (r : option R) (s : SamplingMethod) : SamplingMethod :=
  match r with
  | Some v => mkSampling (_busy s) (Some (v, entered)) (<[t := Exiting called entered false]> (threads s)) (S (now s)) (finished s) (failed s)
  | None => mkSampling (_busy s) (lastResult s) (<[t := Exiting called entered true]> (threads s)) (S (now s)) (finished s) (entered :: failed s)
  end.

(** [exit]: [None] is its AssertionError. *)
Definition exit (t called entered : nat) (raised : bool) (s : SamplingMethod) : option SamplingMethod :=
  if negb (_busy s) then None
  else
    let s := notifyAll (set_busy false s) in
    Some (mkSampling (_busy s) (lastResult s)
            (if raised then delete t (threads s) else <[t := Returning called]> (threads s)) (S (now s)) entered (failed s)).

Definition return_last (t : nat) (s : SamplingMethod) : SamplingMethod :=
  mkSampling (_busy s) (lastResult s) (delete t (threads s)) (S (now s)) (finished s) (failed s).

Inductive sampling_step : SamplingMethod → SamplingMethod → Prop :=
| step_call t s : threads s !! t = None → sampling_step s (enter t s)
| step_wake1 t c s : threads s !! t = Some (Wait1 c true) → sampling_step s (enter_again t c s)
| step_wake2 t c s : threads s !! t = Some (Wait2 c true) → sampling_step s (goto t (Returning c) s)
| step_evaluate t c e r s : threads s !! t = Some (Evaluating c e) → sampling_step s (evaluated t c e r s)
| step_exit t c e b s s' : threads s !! t = Some (Exiting c e b) → exit t c e b s = Some s' → sampling_step s s'
| step_return t c s : threads s !! t = Some (Returning c) → sampling_step s (return_last t s).

Inductive sampling_reach : SamplingMethod → Prop :=
| reach_new : sampling_reach new_sampling
| reach_next s s' : sampling_reach s → sampling_step s s' → sampling_reach s'.

(** The thread inside the barrier, with the time it entered. *)
Definition inside (p : position) : option nat :=
  match p with Evaluating _ e | Exiting _ e _ => Some e | _ => None end.

(** What is known where a thread is: an evaluation that was entered after the call is running or
    has finished. *)
Definition known (s : SamplingMethod) (p : position) : Prop :=
  match p with
  | Wait1 c false => _busy s = true
  | Wait1 c true => ∀ t p' e, threads s !! t = Some p' → inside p' = Some e → (c < e)%nat
  | Wait2 c false => ∃ t p' e, threads s !! t = Some p' ∧ inside p' = Some e ∧ (c < e)%nat
  | Wait2 c true => (c < finished s)%nat
  | Evaluating c e => (c <= e)%nat
  | Exiting c e b => (c <= e)%nat ∧ (if b then e ∈ failed s else ∃ v, lastResult s = Some (v, e))
  | Returning c => (c <= finished s)%nat
  end.

Definition called (p : position) : nat :=
  match p with Wait1 c _ | Wait2 c _ | Evaluating c _ | Exiting c _ _ | Returning c => c end.

Record sampling_inv (s : SamplingMethod) : Prop := {
  i_busy : _busy s = true ↔ ∃ t p e, threads s !! t = Some p ∧ inside p = Some e;
  i_one : ∀ t1 t2 p1 p2 e1 e2, threads s !! t1 = Some p1 → threads s !! t2 = Some p2 → inside p1 = Some e1 → inside p2 = Some e2 → t1 = t2;
  i_known : ∀ t p, threads s !! t = Some p → known s p ∧ (0 < called p < now s)%nat;
  i_entered : ∀ t p e, threads s !! t = Some p → inside p = Some e → (finished s < e < now s)%nat;
  i_finished : (finished s < now s)%nat;
  i_last : (0 < finished s)%nat → finished s ∈ failed s ∨ ∃ v e, lastResult s = Some (v, e) ∧ (finished s <= e)%nat;
}.

Lemma goto_threads t p s u q :
  threads (goto t p s) !! u = Some q ↔ (u = t ∧ q = p) ∨ (u ≠ t ∧ threads s !! u = Some q).
Proof. cbn. rewrite lookup_insert_Some. naive_solver. Qed.

(** Nobody is inside a barrier that is not busy. *)
Lemma idle_inside s t p e : sampling_inv s → _busy s = false → threads s !! t = Some p → inside p = Some e → False.
Proof. intros H Hb Ht Hp. assert (_busy s = true) by (apply (i_busy s H); eauto). congruence. Qed.

(** A thread moves where it is neither inside nor was: nothing else changes. *)
Lemma goto_outside t p s :
  sampling_inv s → inside p = None → (∀ q, threads s !! t = Some q → inside q = None) →
  known s p → (0 < called p <= now s)%nat → sampling_inv (goto t p s).
Proof.
  intros [H1 H2 H3 H4 H5 H6] Hp Ht Hk Hc.
  assert (Hin : ∀ u q e, threads (goto t p s) !! u = Some q → inside q = Some e → threads s !! u = Some q).
  { intros u q e [[-> ->]|[? Hu]]%goto_threads He; [congruence|done]. }
  assert (Hin' : ∀ u q e, threads s !! u = Some q → inside q = Some e → threads (goto t p s) !! u = Some q).
  { intros u q e Hu He. apply goto_threads. right. split; [|done]. intros ->. rewrite (Ht q Hu) in He. done. }
  assert (Hkn : ∀ q, known s q → known (goto t p s) q).
  { intros q. destruct q as [c []|c []|c e|c e b|c]; cbn [known]; try done.
    - intros Hq u q' e Hu He. eauto.
    - intros (u & q' & e & Hu & He & Hlt). exists u, q', e. eauto. }
  constructor; cbn [_busy finished lastResult failed goto].
  - rewrite H1. split; intros (u & q & e & Hu & He); exists u, q, e; eauto.
  - intros t1 t2 p1 p2 e1 e2 Ht1 Ht2 He1 He2. eapply H2; eauto.
  - intros u q [[-> ->]|[? Hu]]%goto_threads; [split; [by apply Hkn|cbn; lia]|].
    destruct (H3 u q Hu). split; [by apply Hkn|cbn; lia].
  - intros u q e Hu He. cbn. specialize (H4 u q e (Hin u q e Hu He) He). lia.
  - cbn. lia.
  - done.
Qed.

(** A thread enters an idle barrier. *)
Lemma goto_entering t c s :
  sampling_inv s → _busy s = false → (0 < c <= now s)%nat → sampling_inv (goto t (Evaluating c (now s)) (set_busy true s)).
Proof.
  intros H Hb Hc. pose proof H as [H1 H2 H3 H4 H5 H6].
  assert (Hin : ∀ u q e, threads (goto t (Evaluating c (now s)) (set_busy true s)) !! u = Some q → inside q = Some e → u = t ∧ e = now s).
  { intros u q e [[-> ->]|[? Hu]]%goto_threads He; [by injection He|]. by destruct (idle_inside s u q e). }
  assert (Hkn : ∀ q, (0 < called q < now s)%nat → known s q → known (goto t (Evaluating c (now s)) (set_busy true s)) q).
  { intros q Hq. destruct q as [c' []|c' []|c' e|c' e b|c']; cbn [known]; try done.
    - intros _ u q' e Hu He. destruct (Hin u q' e Hu He) as [_ ->]. apply Hq.
    - intros (u & q' & e & Hu & He & Hlt). by destruct (idle_inside s u q' e). }
  constructor; cbn [_busy finished lastResult failed goto set_busy].
  - split; [|done]. intros _. exists t, (Evaluating c (now s)), (now s). split; [apply lookup_insert_eq|done].
  - intros t1 t2 p1 p2 e1 e2 Ht1 Ht2 He1 He2. destruct (Hin _ _ _ Ht1 He1), (Hin _ _ _ Ht2 He2). congruence.
  - intros u q [[-> ->]|[? Hu]]%goto_threads; [split; [cbn; lia|cbn; lia]|].
    destruct (H3 u q Hu). split; [by apply Hkn|cbn; lia].
  - intros u q e Hu He. destruct (Hin u q e Hu He) as [_ ->]. cbn. lia.
  - cbn. lia.
  - done.
Qed.

Lemma evaluated_inv t c e r s :
  sampling_inv s → threads s !! t = Some (Evaluating c e) → sampling_inv (evaluated t c e r s).
Proof.
  intros H Ht. pose proof H as [H1 H2 H3 H4 H5 H6]. destruct (H3 _ _ Ht) as [Hce Hnow]. cbn in Hce, Hnow.
  assert (Hone : ∀ u q e', threads s !! u = Some q → inside q = Some e' → u = t ∧ e' = e).
  { intros u q e' Hu He. assert (u = t) as -> by (eapply H2; eauto; done). rewrite Ht in Hu. injection Hu as <-. by injection He. }
  destruct (H4 _ _ _ Ht eq_refl) as [Hf He].
  set (p' := Exiting c e (match r with Some _ => false | None => true end)).
  assert (Hth : threads (evaluated t c e r s) = <[t := p']> (threads s)) by (by destruct r).
  assert (Hin : ∀ u q e', threads (evaluated t c e r s) !! u = Some q → inside q = Some e' → u = t ∧ e' = e).
  { intros u q e'. rewrite Hth. intros [[<- <-]|[? Hu]]%lookup_insert_Some Hq; [by injection Hq|]. by eapply Hone. }
  assert (Hkn : ∀ u q, u ≠ t → threads s !! u = Some q → known s q → known (evaluated t c e r s) q).
  { intros u q Hne Hu. destruct q as [c' []|c' []|c' e'|c' e' b|c']; cbn [known].
    - intros Hq v q' e' Hv He'. destruct (Hin v q' e' Hv He') as [-> ->]. by apply (Hq t (Evaluating c e)).
    - by destruct r.
    - by destruct r.
    - intros (v & q' & e' & Hv & He' & Hlt). destruct (Hone v q' e' Hv He') as [-> ->].
      exists t, p', e. rewrite Hth. split_and!; [apply lookup_insert_eq|done|done].
    - done.
    - intros _. by destruct (Hone u _ e' Hu eq_refl).
    - by destruct r. }
  assert (Hlast : (0 < finished s)%nat → finished s ∈ failed (evaluated t c e r s)
      ∨ ∃ v e', lastResult (evaluated t c e r s) = Some (v, e') ∧ (finished s <= e')%nat).
  { intros Hpos. destruct r as [v|]; cbn; [right; exists v, e; split; [done|lia]|].
    destruct (H6 Hpos) as [?|?]; [left; by right|by right]. }
  assert (Hb : _busy (evaluated t c e r s) = _busy s ∧ finished (evaluated t c e r s) = finished s ∧ now (evaluated t c e r s) = S (now s)) by (by destruct r).
  destruct Hb as (Hb & Hfin & Hnw). constructor.
  - rewrite Hb, H1. split; intros _; [exists t, p', e|exists t, (Evaluating c e), e]; (split; [|done]); [|done].
    rewrite Hth. apply lookup_insert_eq.
  - intros t1 t2 p1 p2 e1 e2 Ht1 Ht2 He1 He2. destruct (Hin _ _ _ Ht1 He1), (Hin _ _ _ Ht2 He2). congruence.
  - intros u q. rewrite Hth, Hnw. intros [[<- <-]|[? Hu]]%lookup_insert_Some.
    + split; [|cbn; lia]. unfold p'. cbn [known]. split; [done|]. destruct r as [v|]; cbn; [by exists v|by left].
    + destruct (H3 u q Hu). split; [by eapply Hkn|lia].
  - intros u q e' Hu He'. destruct (Hin u q e' Hu He') as [_ ->]. rewrite Hfin, Hnw. lia.
  - rewrite Hfin, Hnw. lia.
  - by rewrite Hfin.
Qed.

Lemma inside_wake p : inside (wake p) = inside p.
Proof. by destruct p. Qed.

Lemma called_wake p : called (wake p) = called p.
Proof. by destruct p. Qed.

Lemma exit_inv t c e b s s' :
  sampling_inv s → threads s !! t = Some (Exiting c e b) → exit t c e b s = Some s' → sampling_inv s'.
Proof.
  intros H Ht. pose proof H as [H1 H2 H3 H4 H5 H6]. destruct (H3 _ _ Ht) as [[Hce Hres] Hnow]. cbn in Hnow.
  destruct (H4 _ _ _ Ht eq_refl) as [Hf He].
  assert (Hone : ∀ u q e', threads s !! u = Some q → inside q = Some e' → u = t ∧ e' = e).
  { intros u q e' Hu He'. assert (u = t) as -> by (eapply H2; eauto; done). rewrite Ht in Hu. injection Hu as <-. by injection He'. }
  unfold exit. destruct (_busy s); [|done]. cbn [negb]. intros [= <-]. cbn.
  assert (Hth : ∀ u q, (if b then delete t (wake <$> threads s) else <[t := Returning c]> (wake <$> threads s)) !! u = Some q →
    (u = t ∧ q = Returning c) ∨ (u ≠ t ∧ ∃ q0, threads s !! u = Some q0 ∧ q = wake q0)).
  { intros u q. destruct b.
    - intros [Hne Hu]%lookup_delete_Some. rewrite lookup_fmap in Hu. apply fmap_Some in Hu as (q0 & ? & ?). right. split; [done|eauto].
    - intros [[<- <-]|[Hne Hu]]%lookup_insert_Some; [by left|]. rewrite lookup_fmap in Hu. apply fmap_Some in Hu as (q0 & ? & ?). right. split; [done|eauto]. }
  assert (Hno : ∀ u q e', (if b then delete t (wake <$> threads s) else <[t := Returning c]> (wake <$> threads s)) !! u = Some q → inside q = Some e' → False).
  { intros u q e' [[-> ->]|[Hne (q0 & Hu & ->)]]%Hth He'; [done|]. rewrite inside_wake in He'. by destruct (Hone u q0 e' Hu He'). }
  constructor; cbn.
  - split; [done|]. intros (u & q & e' & Hu & He'). by destruct (Hno u q e').
  - intros t1 t2 p1 p2 e1 e2 Ht1 Ht2 He1 He2. by destruct (Hno _ _ _ Ht1 He1).
  - intros u q [[-> ->]|[Hne (q0 & Hu & ->)]]%Hth; [cbn; split; lia|].
    destruct (H3 u q0 Hu) as [Hk Hc]. rewrite called_wake. split; [|lia].
    destruct q0 as [c' a|c' a|c' e'|c' e' b'|c']; cbn [known wake] in *.
    + intros v q' e' Hv He'. by destruct (Hno v q' e').
    + cbn. destruct a; [lia|]. destruct Hk as (v & q' & e' & Hv & He' & Hlt). destruct (Hone v q' e' Hv He') as [_ ->]. done.
    + by destruct (Hone u _ e' Hu eq_refl).
    + by destruct (Hone u _ e' Hu eq_refl).
    + cbn. lia.
  - intros u q e' Hu He'. by destruct (Hno u q e').
  - lia.
  - intros _. destruct b; [by left|]. right. destruct Hres as [v ->]. by exists v, e.
Qed.

Lemma return_last_inv t c s : sampling_inv s → threads s !! t = Some (Returning c) → sampling_inv (return_last t s).
Proof.
  intros [H1 H2 H3 H4 H5 H6] Ht.
  assert (Hin : ∀ u q e, threads s !! u = Some q → inside q = Some e → delete t (threads s) !! u = Some q).
  { intros u q e Hu He. apply lookup_delete_Some. split; [|done]. intros <-. rewrite Ht in Hu. by injection Hu as <-. }
  constructor; cbn.
  - rewrite H1. split; intros (u & q & e & Hu & He); exists u, q, e; [eauto|]. by apply lookup_delete_Some in Hu as [_ ?].
  - intros t1 t2 p1 p2 e1 e2 [_ Ht1]%lookup_delete_Some [_ Ht2]%lookup_delete_Some. by apply H2.
  - intros u q [Hne Hu]%lookup_delete_Some. destruct (H3 u q Hu) as [Hk Hc]. split; [|lia].
    destruct q as [c' []|c' []|c' e|c' e b|c']; cbn [known] in *; try done.
    + intros v q' e Hv. cbn in Hv. apply lookup_delete_Some in Hv as [_ Hv]. eauto.
    + destruct Hk as (v & q' & e & Hv & He & Hlt). exists v, q', e. eauto.
  - intros u q e [_ Hu]%lookup_delete_Some He. specialize (H4 u q e Hu He). lia.
  - lia.
  - done.
Qed.

Lemma sampling_step_inv s s' : sampling_inv s → sampling_step s s' → sampling_inv s'.
Proof.
  intros H Hs. pose proof H as [H1 H2 H3 H4 H5 H6]. destruct Hs as [t s Ht|t c s Ht|t c s Ht|t c e r s Ht|t c e b s s' Ht Hx|t c s Ht].
  - unfold enter. destruct (_busy s) eqn:Eb; cbn [negb]; [|apply goto_entering; [done|done|lia]].
    apply goto_outside; [done|done|by rewrite Ht|done|cbn; lia].
  - destruct (H3 _ _ Ht) as [Hk Hc]. cbn in Hc. unfold enter_again. destruct (_busy s) eqn:Eb; cbn [negb]; [|apply goto_entering; [done|done|lia]].
    apply goto_outside; [done|done| | |cbn; lia].
    + intros q Hq. rewrite Ht in Hq. by injection Hq as <-.
    + cbn. destruct (proj1 H1 eq_refl) as (u & q & e & Hu & He). exists u, q, e. split_and!; [done|done|]. by eapply Hk.
  - destruct (H3 _ _ Ht) as [Hk Hc]. cbn in Hc, Hk. apply goto_outside; [done|done| |cbn; lia|cbn; lia].
    intros q Hq. rewrite Ht in Hq. by injection Hq as <-.
  - by apply evaluated_inv.
  - by eapply exit_inv.
  - by eapply return_last_inv.
Qed.

Lemma sampling_reach_inv s : sampling_reach s → sampling_inv s.
Proof.
  induction 1 as [|s s' _ IH Hs]; [|by eapply sampling_step_inv].
  constructor; cbn; try lia; try done.
  - split; [done|]. intros (t & p & e & Ht & _). done.
Qed.

(** concurrent calls of a sampling method are served by one evaluation that is not older than they are: the
    function never runs twice at a time; a call returns the result of an evaluation that was entered after
    the call, unless such an evaluation raised, which only its caller is told; and no caller is
    left asleep: one that waits waits for a thread that is evaluating. *)
Theorem sampling_fresh s :
  sampling_reach s →
  (∀ t1 t2 p1 p2 e1 e2, threads s !! t1 = Some p1 → threads s !! t2 = Some p2 → inside p1 = Some e1 → inside p2 = Some e2 → t1 = t2)
  ∧ (∀ t c, threads s !! t = Some (Returning c) →
       (∃ v e, lastResult s = Some (v, e) ∧ (c <= e)%nat) ∨ (∃ e, e ∈ failed s ∧ (c <= e)%nat))
  ∧ (∀ t c, threads s !! t = Some (Wait1 c false) ∨ threads s !! t = Some (Wait2 c false) →
       ∃ u p e, threads s !! u = Some p ∧ inside p = Some e)
  ∧ (∀ t c e b, threads s !! t = Some (Exiting c e b) → is_Some (exit t c e b s)).
Proof.
  intros H%sampling_reach_inv. pose proof H as [H1 H2 H3 H4 H5 H6]. split_and!; [done| | |].
  - intros t c Ht. destruct (H3 _ _ Ht) as [Hk Hc]. cbn in Hk, Hc. destruct (decide (finished s = 0%nat)) as [Hz|Hz].
    + lia.
    + destruct H6 as [Hf|(v & e & He & Hle)]; [lia| |].
      * right. exists (finished s). auto.
      * left. exists v, e. split; [done|lia].
  - intros t c [Ht|Ht]; destruct (H3 _ _ Ht) as [Hk _]; cbn in Hk; [by apply H1|].
    destruct Hk as (u & p & e & Hu & He & _). eauto.
  - intros t c e b Ht. unfold exit. assert (_busy s = true) as -> by (apply H1; eauto). eauto.
Qed.
End Sampling.

(** Thread 1 evaluates; 2 and 3 come meanwhile, 2 evaluates for both. *)
Definition sampling_run1 : SamplingMethod (R := Z) :=
  let s := enter 3 (enter 2 (enter 1 new_sampling)) in
  default new_sampling (exit 1 1 1 false (evaluated 1 1 1 (Some 10) s)).

Definition sampling_run : SamplingMethod (R := Z) :=
  let s := enter_again 3 3 (enter_again 2 2 sampling_run1) in
  goto 3 (Returning 3) (default new_sampling (exit 2 2 6 false (evaluated 2 2 6 (Some 20) s))).

Lemma sampling_run1_reached : sampling_reach sampling_run1.
Proof.
  refine (reach_next _ _ (reach_next _ _ _ (step_evaluate 1 1 1 (Some 10) _ _)) (step_exit 1 1 1 false _ _ _ _)).
  refine (reach_next _ _ (reach_next _ _ (reach_next _ _ reach_new (step_call 1 _ _)) (step_call 2 _ _)) (step_call 3 _ _)); reflexivity.
  all: vm_compute; reflexivity.
Qed.

Lemma sampling_run_reached : sampling_reach sampling_run.
Proof.
  refine (reach_next _ _ _ (step_wake2 3 3 _ _)).
  refine (reach_next _ _ (reach_next _ _ _ (step_evaluate 2 2 6 (Some 20) _ _)) (step_exit 2 2 6 false _ _ _ _)).
  refine (reach_next _ _ (reach_next _ _ sampling_run1_reached (step_wake1 2 2 _ _)) (step_wake1 3 3 _ _)); vm_compute; reflexivity.
  all: vm_compute; reflexivity.
Qed.

Lemma sampling_fresh_witness :
  lastResult sampling_run = Some (20, 6%nat)
  ∧ ((∃ v e, lastResult sampling_run = Some (v, e) ∧ (3 <= e)%nat) ∨ (∃ e, e ∈ failed sampling_run ∧ (3 <= e)%nat)).
Proof.
  split; [vm_compute; reflexivity|].
  apply (proj1 (proj2 (sampling_fresh _ sampling_run_reached)) 3%nat 3%nat). vm_compute. reflexivity.
Defined.
