(* ===== verification/Operation.v ===== *)
(** * Storage commands: [storage/operation.py]

    [Command] runs a process in one thread while other threads may abort it.  Starting, killing and waiting for a process
    are calls of the system: their answers are inputs, and the processes that were started are kept with what the
    system knows of them.  Bodies under the lock are steps. *)
From Stdlib Require Import ZArith Lia.
From stdpp Require Import base gmap list.
From S2P Require Import Prelude.

Inductive op_state := CREATED | RUNNING | TERMINATED | ABORTING | ABORTED.

#[export] Instance op_state_eq_dec : EqDecision op_state.
Proof. solve_decision. Defined.

(** The exceptions: [Failed] is [cmdutils.Error], with the exit code and the output. *)
Inductive op_error :=
| ActionStopped
| Failed (rc : option Z) (out err : bytes)
| AlreadyRun
| InvalidState
| OSError (errno : Z)
| NoProcess.

Definition ESRCH : Z := 3.

(** A process: the code it has exited with, if it has, and the attribute [returncode] of its [Popen]. *)
Record Popen := mkPopen { exited : option Z; returncode : option Z }.

(** The attributes, [_proc] by its place among the processes that were started.  [kills] are the processes that
    were signalled and [aborts] is whether [abort] was called. *)
Record Command := mkCommand {
  _state : op_state;
  _proc : option nat;
  procs : list Popen;
  kills : list nat;
  aborts : bool;
}.

(** [Command.__init__] *)
Definition new_command : Command := mkCommand CREATED None [] [] false.

Definition set_state (st : op_state) (c : Command) : Command :=
  mkCommand st (_proc c) (procs c) (kills c) (aborts c).

(** [Popen.poll]: takes notice of the exit of the process. *)
Definition poll (p : Popen) : Popen :=
  match returncode p with Some _ => p | None => mkPopen (exited p) (exited p) end.

Definition poll_at (i : nat) (c : Command) : Command :=
  mkCommand (_state c) (_proc c) (alter poll i (procs c)) (kills c) (aborts c).

(** [_start_process]: [started] is the error of [commands.start], if it raises. *)
Definition _start_process (started : option Z) : M Command op_error unit := fun c =>
  match _state c with
  | ABORTED => (c, Raise ActionStopped)
  | CREATED =>
      match started with
      | Some errno => (c, Raise (OSError errno))
      | None => (mkCommand RUNNING (Some (length (procs c))) (procs c ++ [mkPopen None None]) (kills c) (aborts c), Ok ())
      end
  | _ => (c, Raise AlreadyRun)
  end.

(** [_kill_process]: [answer] is the error of [kill], if it raises. *)
Definition _kill_process (answer : option Z) : M Command op_error unit := fun c =>
  match _proc c with
  | None => (c, Raise NoProcess)
  | Some i =>
      let c := poll_at i c in
      match procs c !! i ≫= returncode with
      | Some _ => (c, Ok ())
      | None =>
          let c := mkCommand (_state c) (_proc c) (procs c) (kills c ++ [i]) (aborts c) in
          match answer with
          | None => (c, Ok ())
          | Some errno => if negb (errno =? ESRCH) then (c, Raise (OSError errno)) else (c, Ok ())
          end
      end
  end.

Definition abort (answer : option Z) : M Command op_error unit := fun c =>
  let c := mkCommand (_state c) (_proc c) (procs c) (kills c) true in
  match _state c with
  | CREATED => (set_state ABORTED c, Ok ())
  | RUNNING => _kill_process answer (set_state ABORTING c)
  | ABORTING => _kill_process answer c
  | TERMINATED => (c, Ok ())
  | ABORTED => (c, Ok ())
  end.

(** [communicate] and [receive] return when the process has exited, and set its [returncode]. *)
Definition communicated (c : Command) : option Command :=
  match _proc c with
  | None => None
  | Some i => match procs c !! i ≫= exited with Some _ => Some (poll_at i c) | None => None end
  end.

(** [_finalize] *)
Definition _finalize (out err : bytes) : M Command op_error unit := fun c =>
  match _proc c with
  | None => (c, Raise NoProcess)
  | Some i =>
      let rc := procs c !! i ≫= returncode in
      let c := mkCommand (_state c) None (procs c) (kills c) (aborts c) in
      match _state c with
      | ABORTING => (set_state ABORTED c, Raise ActionStopped)
      | RUNNING =>
          let c := set_state TERMINATED c in
          if negb (bool_decide (rc = Some 0)) then (c, Raise (Failed rc out err)) else (c, Ok ())
      | _ => (c, Raise InvalidState)
      end
  end.

(** The data of the process that [watch] yields and that it collects from stderr. *)
Inductive src := OUT | ERR.

Fixpoint watched (l : list (src * bytes)) : list bytes * bytes :=
  match l with
  | [] => ([], [])
  | (OUT, data) :: l' => (data :: (watched l').1, (watched l').2)
  | (ERR, data) :: l' => ((watched l').1, data ++ (watched l').2)
  end.

(** Where a thread is in [run] ([Run]) or [watch] ([Watch]): in [communicate] or [receive], or about to
    finalize with the output; and how the call has ended. *)
Inductive caller := Run | Watch.

Inductive runner :=
| Receiving (k : caller)
| Finalizing (k : caller) (data : list (src * bytes))
| Ended (r : res op_error bytes).

(** What [run] and [watch] have received of stdout, and give to [_finalize]. *)
Definition run_out (data : list (src * bytes)) : bytes := concat (watched data).1.

Definition finalize_args (k : caller) (data : list (src * bytes)) : bytes * bytes :=
  (match k with Run => run_out data | Watch => [] end, (watched data).2).

Record world := mkWorld { cmd : Command; runners : gmap nat runner }.

(** A call of [run] or [watch] up to the start of the process. *)
Definition run_start (t : nat) (k : caller) (started : option Z) (w : world) : world :=
  match _start_process started (cmd w) with
  | (c, Ok _) => mkWorld c (<[t := Receiving k]> (runners w))
  | (c, Raise e) => mkWorld c (<[t := Ended (Raise e)]> (runners w))
  end.

(** The rest of it. *)
Definition run_finish (t : nat) (k : caller) (data : list (src * bytes)) (w : world) : world :=
  let (out, err) := finalize_args k data in
  match _finalize out err (cmd w) with
  | (c, Ok _) => mkWorld c (<[t := Ended (Ok out)]> (runners w))
  | (c, Raise e) => mkWorld c (<[t := Ended (Raise e)]> (runners w))
  end.

(** A process exits. *)
Definition exits (i : nat) (rc : Z) (c : Command) : Command :=
  mkCommand (_state c) (_proc c)
    (alter (fun p => match exited p with Some _ => p | None => mkPopen (Some rc) (returncode p) end) i (procs c)) (kills c) (aborts c).

Inductive op_step : world → world → Prop :=
| op_run t k started w : runners w !! t = None → op_step w (run_start t k started w)
| op_received t k data c w : runners w !! t = Some (Receiving k) → communicated (cmd w) = Some c →
    op_step w (mkWorld c (<[t := Finalizing k data]> (runners w)))
| op_finish t k data w : runners w !! t = Some (Finalizing k data) → op_step w (run_finish t k data w)
| op_abort answer w : op_step w (mkWorld (abort answer (cmd w)).1 (runners w))
| op_exit i rc w : op_step w (mkWorld (exits i rc (cmd w)) (runners w)).

Inductive op_reach : world → Prop :=
| op_new : op_reach (mkWorld new_command ∅)
| op_next w w' : op_reach w → op_step w w' → op_reach w'.

(** ** Invariant *)

Definition active (r : runner) : bool := match r with Ended _ => false | _ => true end.

Definition noticed (p : Popen) : Prop := ∀ rc, returncode p = Some rc → exited p = Some rc.

(** What a state says of the process, of aborts and of the threads. *)
Definition state_ok (c : Command) (running : bool) : Prop :=
  match _state c with
  | CREATED => _proc c = None ∧ procs c = [] ∧ aborts c = false ∧ running = false
  | RUNNING => _proc c = Some 0%nat ∧ (∃ p, procs c = [p] ∧ noticed p) ∧ aborts c = false ∧ running = true
  | ABORTING => _proc c = Some 0%nat ∧ (∃ p, procs c = [p] ∧ noticed p) ∧ aborts c = true ∧ running = true
  | TERMINATED => _proc c = None ∧ (∃ p, procs c = [p]) ∧ running = false
  | ABORTED => _proc c = None ∧ (length (procs c) <= 1)%nat ∧ aborts c = true ∧ running = false
  end.

Definition op_inv (w : world) : Prop :=
  ∃ running, state_ok (cmd w) running
  ∧ (∀ t r, runners w !! t = Some r → active r = true → running = true)
  ∧ (∀ t1 t2 r1 r2, runners w !! t1 = Some r1 → runners w !! t2 = Some r2 → active r1 = true → active r2 = true → t1 = t2)
  ∧ (∀ t k data, runners w !! t = Some (Finalizing k data) → ∃ p rc, procs (cmd w) = [p] ∧ exited p = Some rc ∧ returncode p = Some rc).

Lemma noticed_poll p : noticed p → noticed (poll p).
Proof. unfold noticed, poll. destruct p as [e [r|]]; cbn; naive_solver. Qed.

(** What a kill leaves: the state of the command, its process, polled. *)
Lemma kill_keeps answer c p :
  _proc c = Some 0%nat → procs c = [p] →
  ∃ ks, (_kill_process answer c).1 = mkCommand (_state c) (Some 0%nat) [poll p] ks (aborts c).
Proof.
  intros Hp Hs. unfold _kill_process, poll_at. rewrite Hp, Hs. cbn. destruct (returncode (poll p)); [eauto|].
  destruct answer as [errno|]; [|eauto]. destruct (negb _); eauto.
Qed.

Lemma kill_result answer c :
  is_Some (_proc c) → (_kill_process answer c).2 = Ok ()
    ∨ ∃ errno, answer = Some errno ∧ errno ≠ ESRCH ∧ (_kill_process answer c).2 = Raise (OSError errno).
Proof.
  intros [i Hp]. unfold _kill_process. rewrite Hp. destruct (_ ≫= returncode); [by left|].
  destruct answer as [errno|]; [|by left]. destruct (errno =? ESRCH) eqn:E; [by left|]. right. exists errno. split_and!; [done| |done].
  apply Z.eqb_neq, E.
Qed.

Lemma abort_inv answer c running :
  state_ok c running → state_ok (abort answer c).1 running
  ∧ (procs (abort answer c).1 = procs c ∨ ∃ p, procs c = [p] ∧ procs (abort answer c).1 = [poll p]).
Proof.
  intros H. unfold abort. set (c' := mkCommand (_state c) (_proc c) (procs c) (kills c) true).
  cbn [_state c']. unfold state_ok in H. destruct (_state c) eqn:E.
  - destruct H as (Hp & Hs & Ha & ->). unfold state_ok. cbn. rewrite Hs. split; [|by left]. split_and!; [done|cbn; lia|done|done].
  - destruct H as (Hp & (p & Hs & Hn) & Ha & ->). destruct (kill_keeps answer (set_state ABORTING c') p) as [ks ->]; [done..|].
    unfold state_ok. cbn. split; [|right; eauto]. split_and!; [done| |done|done]. eauto using noticed_poll.
  - destruct H as (Hp & Hs & ->). unfold state_ok. cbn. rewrite ?E. auto.
  - destruct H as (Hp & (p & Hs & Hn) & Ha & ->). destruct (kill_keeps answer c' p) as [ks ->]; [done..|].
    unfold state_ok. cbn. rewrite ?E. split; [|right; eauto]. split_and!; [done| |done|done]. eauto using noticed_poll.
  - destruct H as (Hp & Hs & Ha & ->). unfold state_ok. cbn. rewrite ?E. auto.
Qed.

Lemma exits_inv i rc c running : state_ok c running → state_ok (exits i rc c) running.
Proof.
  intros H. unfold state_ok in *. cbn. destruct (_state c).
  - destruct H as (? & -> & ? & ?). cbn. by destruct i.
  - destruct H as (? & (p & -> & Hn) & ? & ?). split_and!; [done| |done|done]. destruct i as [|i]; cbn; [|eauto].
    eexists. split; [done|]. unfold noticed in *. destruct p as [[] r]; cbn in *; [done|]. intros rc' Hr. by specialize (Hn rc' Hr).
  - destruct H as (? & (p & ->) & ?). split_and!; [done| |done]. destruct i as [|i]; cbn; eauto.
  - destruct H as (? & (p & -> & Hn) & ? & ?). split_and!; [done| |done|done]. destruct i as [|i]; cbn; [|eauto].
    eexists. split; [done|]. unfold noticed in *. destruct p as [[] r]; cbn in *; [done|]. intros rc' Hr. by specialize (Hn rc' Hr).
  - destruct H as (? & Hl & ? & ?). split_and!; [done| |done|done]. by rewrite length_alter.
Qed.

(** The threads after one of them moves. *)
Lemma runners_move (m : gmap nat runner) t r u q :
  <[t := r]> m !! u = Some q → (u = t ∧ q = r) ∨ (u ≠ t ∧ m !! u = Some q).
Proof. rewrite lookup_insert_Some. naive_solver. Qed.

Lemma run_start_inv t k started w : op_inv w → runners w !! t = None → op_inv (run_start t k started w).
Proof.
  intros (running & Hs & Hr & Hu & Hf) Ht. unfold run_start.
  assert (Hend : ∀ e, op_inv (mkWorld (cmd w) (<[t := Ended (Raise e)]> (runners w)))).
  { intros e. exists running. cbn. split_and!; [done| | |].
    - intros u r [[-> ->]|[? Hl]]%runners_move Ha; [done|eauto].
    - intros t1 t2 r1 r2 [[-> ->]|[? H1]]%runners_move [[-> ->]|[? H2]]%runners_move; try done. by apply Hu.
    - intros u k' data [[-> ?]|[? Hl]]%runners_move; [done|eauto]. }
  unfold _start_process. destruct (_state (cmd w)) eqn:E; try apply Hend. destruct started as [errno|]; [apply Hend|].
  unfold state_ok in Hs. rewrite E in Hs. destruct Hs as (Hp & Hps & Ha & ->).
  assert (Hnone : ∀ u r, runners w !! u = Some r → active r = true → False) by (intros u r H1 H2; by specialize (Hr u r H1 H2)).
  exists true. cbn. rewrite Hps. cbn. split_and!; [done| |done|done|done| |].
  - exists (mkPopen None None). done.
  - intros t1 t2 r1 r2 [[-> ->]|[? H1]]%runners_move [[-> ->]|[? H2]]%runners_move ? ?; try done; exfalso; eauto.
  - intros u k' data [[-> ?]|[? Hl]]%runners_move; [done|]. exfalso. by eapply Hnone.
Qed.

Lemma received_inv t k data c w :
  op_inv w → runners w !! t = Some (Receiving k) → communicated (cmd w) = Some c →
  op_inv (mkWorld c (<[t := Finalizing k data]> (runners w))).
Proof.
  intros (running & Hs & Hr & Hu & Hf) Ht Hc. assert (running = true) as -> by (by eapply Hr).
  assert (Hall : ∀ u r, runners w !! u = Some r → active r = true → u = t) by (intros u r H1 H2; by eapply Hu).
  assert (Hp : _proc (cmd w) = Some 0%nat ∧ ∃ p, procs (cmd w) = [p] ∧ noticed p).
  { unfold state_ok in Hs. destruct (_state (cmd w)); naive_solver. }
  destruct Hp as (Hp & p & Hps & Hn). unfold communicated in Hc. rewrite Hp, Hps in Hc. cbn in Hc.
  destruct (exited p) as [rc|] eqn:Ex; [|done]. injection Hc as <-. exists true. unfold poll_at. rewrite Hps. cbn. split_and!.
  - unfold state_ok in *. cbn. destruct (_state (cmd w)); naive_solver eauto using noticed_poll.
  - done.
  - intros t1 t2 r1 r2 [[-> ->]|[? H1]]%runners_move [[-> ->]|[? H2]]%runners_move ? ?; try done; [by rewrite (Hall t2 r2)|by rewrite (Hall t1 r1)|by rewrite (Hall t1 r1), (Hall t2 r2)].
  - intros u k' d _. exists (poll p), rc. split; [done|]. unfold poll. destruct (returncode p) as [r|] eqn:Er; cbn; [|done].
    rewrite Ex, Er. split; [done|]. rewrite <- Ex. symmetry. by apply Hn.
Qed.

Lemma finish_inv t k data w :
  op_inv w → runners w !! t = Some (Finalizing k data) → op_inv (run_finish t k data w).
Proof.
  intros (running & Hs & Hr & Hu & Hf) Ht. assert (running = true) as -> by (by eapply Hr).
  assert (Hend : ∀ c r, state_ok c false → op_inv (mkWorld c (<[t := Ended r]> (runners w)))).
  { intros c r Hok. assert (Hno : ∀ u q, <[t := Ended r]> (runners w) !! u = Some q → active q = true → False).
    { intros u q [[-> ->]|[Hne H1]]%runners_move H2; [done|]. destruct Hne. by eapply Hu. }
    exists false. cbn. split_and!; [done| | |].
    - intros u q H1 H2. by destruct (Hno u q).
    - intros t1 t2 r1 r2 H1 _ H2 _. by destruct (Hno t1 r1).
    - intros u k' d H1. by destruct (Hno _ _ H1). }
  unfold run_finish. destruct (finalize_args k data) as [out err]. unfold _finalize.
  unfold state_ok in Hs. destruct (_state (cmd w)) eqn:E; try naive_solver.
  - destruct Hs as (-> & (p & -> & Hn) & Ha & _). cbn. rewrite ?E. destruct (negb _); apply Hend; unfold state_ok; cbn; eauto.
  - destruct Hs as (-> & (p & -> & Hn) & Ha & _). cbn. rewrite ?E. apply Hend. unfold state_ok. cbn. split_and!; [done|lia|done|done].
Qed.

Lemma op_step_inv w w' : op_inv w → op_step w w' → op_inv w'.
Proof.
  intros H Hs. destruct Hs as [t k started w Ht|t k data c w Ht Hc|t k data w Ht|answer w|i rc w].
  - by apply run_start_inv.
  - by eapply received_inv.
  - by apply finish_inv.
  - destruct H as (running & Hs & Hr & Hu & Hf). destruct (abort_inv answer _ _ Hs) as [Hs' Hp]. exists running. cbn. split_and!; [done..|].
    intros t k data Ht. destruct (Hf t k data Ht) as (p & rc & Hps & He & Hrc). destruct Hp as [->|(p' & Hp' & ->)]; [eauto|].
    rewrite Hps in Hp'. injection Hp' as <-. exists (poll p), rc. unfold poll. by rewrite Hrc.
  - destruct H as (running & Hs & Hr & Hu & Hf). exists running. cbn. split_and!; [by apply exits_inv|done|done|].
    intros t k data Ht. destruct (Hf t k data Ht) as (p & rc' & -> & He & Hrc). destruct i as [|i]; cbn; [rewrite He|]; eauto.
Qed.

Lemma op_reach_inv w : op_reach w → op_inv w.
Proof.
  induction 1 as [|w w' _ IH Hs]; [|by eapply op_step_inv]. exists false. by split_and!.
Qed.

(** a command runs its process at most once, in one thread, and ends as its calls say: a call of [run] or [watch] ends with
    ActionStopped when it was aborted before it finalized, else with the error of a non-zero exit code, else with the
    output; a call starts the process only when no other did and no abort came before; and [abort] raises
    nothing but the error of [kill], in every interleaving of runs, aborts and the exit of the process. *)
Theorem command_outcomes w :
  op_reach w →
  (length (procs (cmd w)) <= 1)%nat
  ∧ (∀ t1 t2 r1 r2, runners w !! t1 = Some r1 → runners w !! t2 = Some r2 → active r1 = true → active r2 = true → t1 = t2)
  ∧ (∀ t k data, runners w !! t = Some (Finalizing k data) →
       ∃ p rc, procs (cmd w) = [p] ∧ exited p = Some rc
       ∧ runners (run_finish t k data w) !! t = Some (Ended (
           let (out, err) := finalize_args k data in
           if aborts (cmd w) then Raise ActionStopped else if rc =? 0 then Ok out else Raise (Failed (Some rc) out err))))
  ∧ (∀ started, (_start_process started (cmd w)).2 = Ok () ↔ procs (cmd w) = [] ∧ aborts (cmd w) = false ∧ started = None)
  ∧ (∀ answer, (abort answer (cmd w)).2 = Ok ()
       ∨ ∃ errno, answer = Some errno ∧ errno ≠ ESRCH ∧ (abort answer (cmd w)).2 = Raise (OSError errno)).
Proof.
  intros (running & Hs & Hr & Hu & Hf)%op_reach_inv. unfold state_ok in Hs. split_and!; [|done| | |].
  - destruct (_state (cmd w)); [destruct Hs as (_ & -> & _)|destruct Hs as (_ & (? & -> & _) & _)|destruct Hs as (_ & (? & ->) & _)
      |destruct Hs as (_ & (? & -> & _) & _)|destruct Hs as (_ & ? & _); done]; cbn; lia.
  - intros t k data Ht. destruct (Hf t k data Ht) as (p & rc & Hps & He & Hrc). exists p, rc. split_and!; [done|done|].
    assert (running = true) as -> by (by eapply Hr). unfold run_finish. destruct (finalize_args k data) as [out err]. unfold _finalize.
    destruct (_state (cmd w)) eqn:E; try naive_solver; destruct Hs as (-> & _ & -> & _); rewrite Hps; cbn; rewrite ?E, ?Hrc; cbn.
    + destruct (Z.eqb_spec rc 0) as [->|Hne]; cbn; [apply lookup_insert_eq|]. rewrite bool_decide_false by congruence. apply lookup_insert_eq.
    + apply lookup_insert_eq.
  - intros started. clear Hr Hu Hf. unfold _start_process. 
    destruct (_state (cmd w)); [|destruct Hs as (_ & (? & -> & _) & _)|destruct Hs as (_ & (? & ->) & _)|destruct Hs as (_ & (? & -> & _) & _)|];
      [destruct Hs as (_ & -> & -> & _); destruct started; cbn; split; by (intros; destruct_and?)|by split; [|intros (? & _)]..|].
    destruct Hs as (_ & _ & -> & _). by split; [|intros (_ & ? & _)].
  - intros answer. unfold abort. cbn. destruct (_state (cmd w)); try (by left); apply kill_result; cbn; destruct Hs as (-> & _); eauto.
Qed.

(** A command is started and aborted; the kill is refused; the process exits with success and the call ends with ActionStopped. *)
Definition op_run1 : world :=
  let w := run_start 1 Run None (mkWorld new_command ∅) in
  let c := exits 0 0 (abort (Some 1) (cmd w)).1 in
  mkWorld (default new_command (communicated c)) (<[1%nat := Finalizing Run [(OUT, [65])]]> (runners w)).

Lemma op_run1_reached : op_reach op_run1.
Proof.
  refine (op_next _ _ (op_next _ _ (op_next _ _ (op_next _ _ op_new (op_run 1 Run None _ _)) (op_abort (Some 1) _)) (op_exit 0 0 _))
    (op_received 1 Run [(OUT, [65])] _ _ _ _)); reflexivity.
Qed.

Lemma command_outcomes_witness :
  (abort (Some 1) (cmd op_run1)).2 = Ok () ∧ kills (cmd op_run1) = [0%nat]
  ∧ ∃ p rc, procs (cmd op_run1) = [p] ∧ exited p = Some rc
    ∧ runners (run_finish 1 Run [(OUT, [65])] op_run1) !! 1%nat = Some (Ended (Raise ActionStopped)).
Proof.
  split; [reflexivity|]. split; [reflexivity|].
  exact (proj1 (proj2 (proj2 (command_outcomes _ op_run1_reached))) 1%nat Run [(OUT, [65])] eq_refl).
Defined.

(** A command that was aborted while it ran does not tell a second caller that it was already run. *)
Lemma second_run_stopped :
  (_start_process None (run_finish 1 Run [] op_run1).(cmd)).2 = Raise ActionStopped.
Proof. reflexivity. Qed.
