(* ===== verification/DomainCache.v ===== *)
(** * The cache of storage domains: [storage/sdc.py]

    Threads look domains up through [_realProduce], which refreshes the storage with a sampling method when it is stale; others
    invalidate the storage and change the cache.  The state holds the sampling method of [refreshStorage] and where every
    thread is.  What rescans and lookups of the modules of domains do is chosen by the steps; bodies under [_syncroot] are steps,
    and so are the reads and writes of the stale status that are made without it. *)
From Stdlib Require Import ZArith Lia.
From stdpp Require Import base gmap list.
From S2P Require Import Prelude Sampling.

Inductive stale := STORAGE_UPDATED | STORAGE_STALE | STORAGE_REFRESHING.

#[export] Instance stale_eq_dec : EqDecision stale.
Proof. solve_decision. Defined.

Section Cache.
Context {D : Type}.

(** Where a thread is in [_realProduce]: asleep or woken in [wait]; about to test the stale status; in [refreshStorage];
    about to look the domain up; in the [finally] clause, with what it returns or without when it raises. *)
Inductive lookup_pos :=
| Waiting (sd : text) (awake : bool)
| Checking (sd : text)
| Refreshing (sd : text)
| Finding (sd : text)
| Leaving (sd : text) (d : option D)
| Produced (sd : text) (d : option D).

(** [clock] counts the steps; [begun] holds the threads that are refreshing with the time their rescan begins, [invalidated] the
    time of the last invalidation and [rescanned] that of the last rescan after which the storage was flagged as updated. *)
Record StorageDomainCache := mkCache {
  domainCache : gmap text D;
  inProgress : gset text;
  staleStatus : stale;
  refresher : SamplingMethod (R := unit);
  lookups : gmap nat lookup_pos;
  begun : gmap nat nat;
  clock : nat;
  invalidated : nat;
  rescanned : nat;
}.

(** [StorageDomainCache.__init__] *)
Definition new_cache : StorageDomainCache := mkCache ∅ ∅ STORAGE_STALE new_sampling ∅ ∅ 1 0 0.

Implicit Types c : StorageDomainCache.

Definition set_cache (m : gmap text D) c : StorageDomainCache :=
  mkCache m (inProgress c) (staleStatus c) (refresher c) (lookups c) (begun c) (clock c) (invalidated c) (rescanned c).

Definition set_progress (s : gset text) c : StorageDomainCache :=
  mkCache (domainCache c) s (staleStatus c) (refresher c) (lookups c) (begun c) (clock c) (invalidated c) (rescanned c).

Definition set_refresher (r : SamplingMethod) c : StorageDomainCache :=
  mkCache (domainCache c) (inProgress c) (staleStatus c) r (lookups c) (begun c) (clock c) (invalidated c) (rescanned c).

Definition move (t : nat) (p : lookup_pos) c : StorageDomainCache :=
  mkCache (domainCache c) (inProgress c) (staleStatus c) (refresher c) (<[t := p]> (lookups c)) (begun c) (clock c) (invalidated c) (rescanned c).

(** ** Invalidating and refreshing the storage *)

Definition invalidateStorage c : StorageDomainCache :=
  mkCache (domainCache c) (inProgress c) STORAGE_STALE (refresher c) (lookups c) (begun c) (S (clock c)) (clock c) (rescanned c).

(** The start of [refreshStorage] *)
Definition refresh_begin (t : nat) c : StorageDomainCache :=
  mkCache (domainCache c) (inProgress c) STORAGE_REFRESHING (refresher c) (lookups c) (<[t := clock c]> (begun c)) (S (clock c)) (invalidated c) (rescanned c).

(** The end of it, after the rescan that began at [b]: [called] and [entered] are those of the sampling method. *)
Definition refresh_end (t called entered b : nat) c : StorageDomainCache :=
  let updated := bool_decide (staleStatus c = STORAGE_REFRESHING) in
  mkCache (domainCache c) (inProgress c) (if updated then STORAGE_UPDATED else staleStatus c)
    (evaluated t called entered (Some ()) (refresher c)) (lookups c) (delete t (begun c)) (S (clock c)) (invalidated c) (if updated then b else rescanned c).

(** [multipath.rescan], [resize_devices] or [lvm.invalidateCache] raises. *)
Definition refresh_raise (t called entered : nat) c : StorageDomainCache :=
  mkCache (domainCache c) (inProgress c) (staleStatus c) (evaluated t called entered None (refresher c)) (lookups c) (delete t (begun c))
    (S (clock c)) (invalidated c) (rescanned c).

(** A thread that is in [refreshStorage] for a lookup goes on when it returns or raises. *)
Definition after_refresh (t : nat) (raised : bool) c : StorageDomainCache :=
  match lookups c !! t with
  | Some (Refreshing sd) => move t (if raised then Leaving sd None else Finding sd) c
  | _ => c
  end.

(** [self.__barrier.exit()] and the return of the sampling method *)
Definition refresh_exit (t called entered : nat) (raised : bool) c : option StorageDomainCache :=
  match exit t called entered raised (refresher c) with
  | None => None
  | Some r => let c := set_refresher r c in Some (if raised then after_refresh t true c else c)
  end.

Definition refresh_return (t : nat) c : StorageDomainCache :=
  after_refresh t false (set_refresher (return_last t (refresher c)) c).

(** ** Looking a domain up *)

(** [_realProduce] under its first lock, from the top of the loop *)
Definition produce_locked (t : nat) (sd : text) c : StorageDomainCache :=
  match domainCache c !! sd with
  | Some d => move t (Produced sd (Some d)) c
  | None =>
      if bool_decide (sd ∉ inProgress c) then move t (Checking sd) (set_progress ({[sd]} ∪ inProgress c) c)
      else move t (Waiting sd false) c
  end.

(** [if self.__staleStatus != self.STORAGE_UPDATED: self.refreshStorage()] *)
Definition check_stale (t : nat) (sd : text) c : StorageDomainCache :=
  if bool_decide (staleStatus c ≠ STORAGE_UPDATED) then move t (Refreshing sd) (set_refresher (enter t (refresher c)) c)
  else move t (Finding sd) c.

(** What [findDomain] of a module answers: [FindError] is an Exception other than StorageDomainDoesNotExist. *)
Inductive find_answer := FoundDomain (d : D) | DoesNotExist | FindError.

(** The loop over the modules: without a domain it raises StorageDomainDoesNotExist. *)
Fixpoint _findUnfetchedDomain (mods : list find_answer) : option D :=
  match mods with
  | [] => None
  | FoundDomain d :: _ => Some d
  | DoesNotExist :: mods | FindError :: mods => _findUnfetchedDomain mods
  end.

(** [_findDomain]: [known] is the answer of the method in [knownSDs], if it has one. *)
Definition _findDomain (known : option find_answer) (mods : list find_answer) : option D :=
  match known with
  | Some (FoundDomain d) => Some d
  | Some _ => None
  | None => _findUnfetchedDomain mods
  end.

(** [_findDomain] has returned the domain, which is cached, or raised. *)
Definition found (t : nat) (sd : text) (d : option D) c : StorageDomainCache :=
  match d with
  | Some d => move t (Leaving sd (Some d)) (set_cache (<[sd := d]> (domainCache c)) c)
  | None => move t (Leaving sd None) c
  end.

Definition awaken (p : lookup_pos) : lookup_pos :=
  match p with Waiting sd _ => Waiting sd true | p => p end.

(** The [finally] clause: [None] is the KeyError of [remove]. *)
Definition leave (t : nat) (sd : text) (d : option D) c : option StorageDomainCache :=
  if bool_decide (sd ∈ inProgress c) then
    Some (mkCache (domainCache c) (inProgress c ∖ {[sd]}) (staleStatus c) (refresher c)
            (<[t := Produced sd d]> (awaken <$> lookups c)) (begun c) (clock c) (invalidated c) (rescanned c))
  else None.

(** ** Changing the cache *)

Definition refresh c : StorageDomainCache := set_cache ∅ c.
Definition manuallyAddDomain (sd : text) (d : D) c : StorageDomainCache := set_cache (<[sd := d]> (domainCache c)) c.
Definition manuallyRemoveDomain (sd : text) c : StorageDomainCache := set_cache (delete sd (domainCache c)) c.

(** ** Steps *)

Inductive cache_step : StorageDomainCache → StorageDomainCache → Prop :=
| s_invalidate c : cache_step c (invalidateStorage c)
| s_refresh_call t c : lookups c !! t = None → threads (refresher c) !! t = None → cache_step c (set_refresher (enter t (refresher c)) c)
| s_refresh_wake1 t n c : threads (refresher c) !! t = Some (Wait1 n true) → cache_step c (set_refresher (enter_again t n (refresher c)) c)
| s_refresh_wake2 t n c : threads (refresher c) !! t = Some (Wait2 n true) → cache_step c (set_refresher (goto t (Returning n) (refresher c)) c)
| s_begin t n e c : threads (refresher c) !! t = Some (Evaluating n e) → begun c !! t = None → cache_step c (refresh_begin t c)
| s_end t n e b c : threads (refresher c) !! t = Some (Evaluating n e) → begun c !! t = Some b → cache_step c (refresh_end t n e b c)
| s_raise t n e b c : threads (refresher c) !! t = Some (Evaluating n e) → begun c !! t = Some b → cache_step c (refresh_raise t n e c)
| s_exit t n e r c c' : threads (refresher c) !! t = Some (Exiting n e r) → refresh_exit t n e r c = Some c' → cache_step c c'
| s_return t n c : threads (refresher c) !! t = Some (Returning n) → cache_step c (refresh_return t c)
| s_produce t sd c : lookups c !! t = None → threads (refresher c) !! t = None → cache_step c (produce_locked t sd c)
| s_wake t sd c : lookups c !! t = Some (Waiting sd true) → cache_step c (produce_locked t sd c)
| s_check t sd c : lookups c !! t = Some (Checking sd) → cache_step c (check_stale t sd c)
| s_found t sd known mods c : lookups c !! t = Some (Finding sd) → cache_step c (found t sd (_findDomain known mods) c)
| s_leave t sd d c c' : lookups c !! t = Some (Leaving sd d) → leave t sd d c = Some c' → cache_step c c'
| s_refresh c : cache_step c (refresh c)
| s_add sd d c : cache_step c (manuallyAddDomain sd d c)
| s_remove sd c : cache_step c (manuallyRemoveDomain sd c).

Inductive cache_reach : StorageDomainCache → Prop :=
| c_new : cache_reach new_cache
| c_next c c' : cache_reach c → cache_step c c' → cache_reach c'.

(** ** Lookups *)

Implicit Types (lk : gmap nat lookup_pos) (ip : gset text) (th : gmap nat position).

(** The domain a thread is looking up. *)
Definition holds (p : lookup_pos) : option text :=
  match p with Checking sd | Refreshing sd | Finding sd | Leaving sd _ => Some sd | _ => None end.

(** The domains in progress are those that a thread is looking up, one thread each; who waits waits for one of them. *)
Record progress_inv lk ip : Prop := {
  p_held : ∀ sd, sd ∈ ip ↔ ∃ t p, lk !! t = Some p ∧ holds p = Some sd;
  p_one : ∀ t1 t2 p1 p2 sd, lk !! t1 = Some p1 → lk !! t2 = Some p2 → holds p1 = Some sd → holds p2 = Some sd → t1 = t2;
  p_wait : ∀ t sd, lk !! t = Some (Waiting sd false) → sd ∈ ip;
}.

Lemma move_lookup lk t p u q : <[t := p]> lk !! u = Some q ↔ (u = t ∧ q = p) ∨ (u ≠ t ∧ lk !! u = Some q).
Proof. rewrite lookup_insert_Some. naive_solver. Qed.

Lemma progress_keep lk ip t p0 p sd :
  progress_inv lk ip → lk !! t = Some p0 → holds p0 = Some sd → holds p = Some sd → progress_inv (<[t := p]> lk) ip.
Proof.
  intros [H1 H2 H3] Ht Hp0 Hp. constructor.
  - intros sd'. rewrite H1. split; intros (u & q & Hu & Hq).
    + destruct (decide (u = t)) as [->|Hne]; [|exists u, q; rewrite move_lookup; eauto].
      rewrite Ht in Hu. injection Hu as <-. exists t, p. rewrite move_lookup. split; [eauto|congruence].
    + apply move_lookup in Hu as [[-> ->]|[Hne Hu]]; [|eauto]. exists t, p0. split; [done|congruence].
  - intros t1 t2 p1 p2 sd' [[-> ->]|[Hn1 Hu1]]%move_lookup [[-> ->]|[Hn2 Hu2]]%move_lookup Hq1 Hq2; [done| | |by eapply H2].
    + eapply H2; eauto. congruence.
    + eapply H2; eauto. congruence.
  - intros u sd' [[-> <-]|[Hne Hu]]%move_lookup; [done|eauto].
Qed.

Lemma progress_out lk ip t p :
  progress_inv lk ip → (∀ p0, lk !! t = Some p0 → holds p0 = None) → holds p = None → (∀ sd, p = Waiting sd false → sd ∈ ip) →
  progress_inv (<[t := p]> lk) ip.
Proof.
  intros [H1 H2 H3] Ht Hp Hw. constructor.
  - intros sd. rewrite H1. split; intros (u & q & Hu & Hq).
    + exists u, q. split; [|done]. apply move_lookup. right. split; [|done]. intros ->. by rewrite (Ht q Hu) in Hq.
    + apply move_lookup in Hu as [[-> ->]|[Hne Hu]]; [congruence|eauto].
  - intros t1 t2 p1 p2 sd [[-> ->]|[Hn1 Hu1]]%move_lookup [[-> ->]|[Hn2 Hu2]]%move_lookup Hq1 Hq2; [congruence..|by eapply H2].
  - intros u sd [[-> <-]|[Hne Hu]]%move_lookup; eauto.
Qed.

Lemma progress_add lk ip t sd :
  progress_inv lk ip → (∀ p0, lk !! t = Some p0 → holds p0 = None) → sd ∉ ip → progress_inv (<[t := Checking sd]> lk) ({[sd]} ∪ ip).
Proof.
  intros [H1 H2 H3] Ht Hsd. constructor.
  - intros sd'. rewrite elem_of_union, elem_of_singleton, H1. split.
    + intros [->|(u & q & Hu & Hq)]; [exists t, (Checking sd); rewrite move_lookup; auto|].
      exists u, q. split; [|done]. apply move_lookup. right. split; [|done]. intros ->. by rewrite (Ht q Hu) in Hq.
    + intros (u & q & [[-> ->]|[Hne Hu]]%move_lookup & Hq); [left; by injection Hq|eauto].
  - intros t1 t2 p1 p2 sd' [[-> ->]|[Hn1 Hu1]]%move_lookup [[-> ->]|[Hn2 Hu2]]%move_lookup Hq1 Hq2; [done| | |by eapply H2].
    + injection Hq1 as <-. destruct Hsd. apply H1. eauto.
    + injection Hq2 as <-. destruct Hsd. apply H1. eauto.
  - intros u sd' [[-> ?]|[Hne Hu]]%move_lookup; [done|]. apply elem_of_union_r. eauto.
Qed.

Lemma awaken_lookup lk u q : (awaken <$> lk) !! u = Some q ↔ ∃ q0, lk !! u = Some q0 ∧ q = awaken q0.
Proof. rewrite lookup_fmap, fmap_Some. done. Qed.

Lemma holds_awaken p : holds (awaken p) = holds p.
Proof. by destruct p. Qed.

Lemma progress_leave lk ip t sd d :
  progress_inv lk ip → lk !! t = Some (Leaving sd d) → progress_inv (<[t := Produced sd d]> (awaken <$> lk)) (ip ∖ {[sd]}).
Proof.
  intros [H1 H2 H3] Ht. constructor.
  - intros sd'. rewrite elem_of_difference, elem_of_singleton, H1. split.
    + intros ((u & q & Hu & Hq) & Hne). exists u, (awaken q). rewrite move_lookup, awaken_lookup, holds_awaken. split; [|done].
      right. split; [|eauto]. intros ->. rewrite Ht in Hu. injection Hu as <-. injection Hq as <-. done.
    + intros (u & q & [[-> ->]|[Hne Hu]]%move_lookup & Hq); [done|]. apply awaken_lookup in Hu as (q0 & Hu & ->). rewrite holds_awaken in Hq.
      split; [eauto|]. intros ->. destruct Hne. by eapply H2.
  - intros t1 t2 p1 p2 sd' [[-> ->]|[Hn1 Hu1]]%move_lookup [[-> ->]|[Hn2 Hu2]]%move_lookup Hq1 Hq2; [done..|].
    apply awaken_lookup in Hu1 as (q1 & Hu1 & ->), Hu2 as (q2 & Hu2 & ->). rewrite holds_awaken in *. by eapply H2.
  - intros u sd' [[-> ?]|[Hne Hu]]%move_lookup; [done|]. apply awaken_lookup in Hu as (q0 & _ & Hq). by destruct q0.
Qed.

(** ** Lookups and the sampling method *)

(** A thread in [refreshStorage] calls it directly or for its lookup. *)
Record caller_inv lk th : Prop := {
  c_in : ∀ t, is_Some (th !! t) → lk !! t = None ∨ ∃ sd, lk !! t = Some (Refreshing sd);
  c_out : ∀ t sd, lk !! t = Some (Refreshing sd) → is_Some (th !! t);
}.

Lemma caller_same lk th th' : caller_inv lk th → (∀ u, is_Some (th' !! u) ↔ is_Some (th !! u)) → caller_inv lk th'.
Proof. intros [H1 H2] Hd. constructor; [intros t; rewrite Hd; auto|intros t sd; rewrite Hd; eauto]. Qed.

(** A thread outside [refreshStorage] moves in its lookup. *)
Lemma caller_move lk th t p :
  caller_inv lk th → (∀ sd, p ≠ Refreshing sd) → th !! t = None → caller_inv (<[t := p]> lk) th.
Proof.
  intros [H1 H2] Hp Ht. constructor.
  - intros u Hu. rewrite lookup_insert_ne; [auto|]. intros <-. rewrite Ht in Hu. by destruct Hu.
  - intros u sd [[-> <-]|[Hne Hu]]%move_lookup; [by destruct (Hp sd)|eauto].
Qed.

Lemma caller_enter lk th th' t sd :
  caller_inv lk th → (∀ u, is_Some (th' !! u) ↔ u = t ∨ is_Some (th !! u)) → caller_inv (<[t := Refreshing sd]> lk) th'.
Proof.
  intros [H1 H2] Hd. constructor.
  - intros u Hu. destruct (decide (u = t)) as [->|Hne]; [right; exists sd; apply lookup_insert_eq|].
    rewrite lookup_insert_ne by done. apply H1. apply Hd in Hu as [->|?]; done.
  - intros u sd' Hu. apply Hd. apply move_lookup in Hu as [[-> _]|[Hne Hu]]; [by left|]. right. eauto.
Qed.

Lemma caller_call lk th th' t :
  caller_inv lk th → lk !! t = None → (∀ u, is_Some (th' !! u) ↔ u = t ∨ is_Some (th !! u)) → caller_inv lk th'.
Proof.
  intros [H1 H2] Ht Hd. constructor; [|intros u sd Hu; apply Hd; eauto].
  intros u Hu. apply Hd in Hu as [->|Hu]; [by left|eauto].
Qed.

Lemma caller_awaken lk th t p :
  caller_inv lk th → (∀ sd, p ≠ Refreshing sd) → th !! t = None → caller_inv (<[t := p]> (awaken <$> lk)) th.
Proof.
  intros [H1 H2] Hp Ht. apply caller_move; [|done|done]. constructor.
  - intros u Hu. destruct (H1 u Hu) as [Hn|[sd Hn]]; [left; by rewrite lookup_fmap, Hn|]. right. exists sd. by rewrite lookup_fmap, Hn.
  - intros u sd Hu. apply awaken_lookup in Hu as (q0 & Hu & Hq). destruct q0; try done. injection Hq as <-. eauto.
Qed.

(** A thread leaves [refreshStorage]. *)
Lemma caller_left c t raised :
  caller_inv (lookups c) (<[t := Returning 0]> (threads (refresher c))) → threads (refresher c) !! t = None →
  caller_inv (lookups (after_refresh t raised c)) (threads (refresher (after_refresh t raised c))).
Proof.
  intros [H1 H2] Ht. unfold after_refresh.
  assert (Hkeep : ∀ u, is_Some (threads (refresher c) !! u) → u ≠ t ∧ is_Some (<[t := Returning 0]> (threads (refresher c)) !! u)).
  { intros u Hu. assert (u ≠ t) by (intros ->; rewrite Ht in Hu; by destruct Hu). by rewrite lookup_insert_ne. }
  destruct (H1 t) as [Hn|[sd Hn]]; [rewrite lookup_insert_eq; eauto| |]; rewrite Hn; cbn.
  - constructor; [intros u [_ Hu]%Hkeep; auto|]. intros u sd Hu. specialize (H2 u sd Hu). rewrite lookup_insert_ne in H2; [done|]. congruence.
  - constructor.
    + intros u [Hne Hu]%Hkeep. rewrite lookup_insert_ne by done. auto.
    + intros u sd' Hu. apply move_lookup in Hu as [[-> Hq]|[Hne Hu]]; [by destruct raised|]. specialize (H2 u sd' Hu). by rewrite lookup_insert_ne in H2.
Qed.

(** How the steps of the sampling method change the threads in it. *)
Lemma enter_threads t (r : SamplingMethod (R := unit)) u : is_Some (threads (enter t r) !! u) ↔ u = t ∨ is_Some (threads r !! u).
Proof.
  unfold enter. destruct (negb _); cbn; (destruct (decide (u = t)) as [->|]; [rewrite lookup_insert_eq|rewrite lookup_insert_ne by done]); naive_solver.
Qed.

Lemma present_insert th t p q u : th !! t = Some p → is_Some (<[t := q]> th !! u) ↔ is_Some (th !! u).
Proof.
  intros Ht. destruct (decide (u = t)) as [->|]; [rewrite lookup_insert_eq, Ht|rewrite lookup_insert_ne by done]; naive_solver.
Qed.

Lemma enter_again_threads t n p (r : SamplingMethod (R := unit)) u :
  threads r !! t = Some p → is_Some (threads (enter_again t n r) !! u) ↔ is_Some (threads r !! u).
Proof. intros Ht. unfold enter_again. destruct (negb _); cbn; by eapply present_insert. Qed.

Lemma evaluated_threads t n e v p (r : SamplingMethod (R := unit)) u :
  threads r !! t = Some p → is_Some (threads (evaluated t n e v r) !! u) ↔ is_Some (threads r !! u).
Proof. intros Ht. destruct v; cbn; by eapply present_insert. Qed.

(** The threads in the sampling method after [exit] *)
Lemma exit_threads t n e raised (r r' : SamplingMethod (R := unit)) p :
  threads r !! t = Some p → exit t n e raised r = Some r' →
  (∀ u, is_Some (<[t := Returning 0]> (threads r') !! u) ↔ is_Some (threads r !! u))
  ∧ (if raised then threads r' !! t = None else is_Some (threads r' !! t)).
Proof.
  intros Ht. unfold exit. destruct (negb _); [done|]. intros [= <-]. cbn. destruct raised.
  - split; [|apply lookup_delete_eq]. intros u. rewrite insert_delete_eq. destruct (decide (u = t)) as [->|]; [rewrite lookup_insert_eq, Ht; naive_solver|].
    rewrite lookup_insert_ne, lookup_fmap by done. apply fmap_is_Some.
  - split; [|rewrite lookup_insert_eq; eauto]. intros u. rewrite insert_insert_eq. destruct (decide (u = t)) as [->|]; [rewrite lookup_insert_eq, Ht; naive_solver|].
    rewrite lookup_insert_ne, lookup_fmap by done. apply fmap_is_Some.
Qed.

(** ** Staleness *)

Record time_inv (st : stale) (bg : gmap nat nat) (now invalid fresh : nat) : Prop := {
  t_now : (invalid < now)%nat ∧ (fresh < now)%nat ∧ ∀ t b, bg !! t = Some b → (b < now)%nat;
  t_refreshing : st = STORAGE_REFRESHING → ∀ t b, bg !! t = Some b → (invalid < b)%nat;
  t_updated : st = STORAGE_UPDATED → (invalid < fresh)%nat;
}.

Definition begun_ok (bg : gmap nat nat) th : Prop := ∀ t b, bg !! t = Some b → ∃ n e, th !! t = Some (Evaluating n e).

Record cache_inv c : Prop := {
  i_sampling : sampling_reach (refresher c);
  i_progress : progress_inv (lookups c) (inProgress c);
  i_caller : caller_inv (lookups c) (threads (refresher c));
  i_begun : begun_ok (begun c) (threads (refresher c));
  i_time : time_inv (staleStatus c) (begun c) (clock c) (invalidated c) (rescanned c);
}.

(** A thread that does not refresh moves; the others stay where they refresh. *)
Lemma begun_move bg th th' t :
  begun_ok bg th → (∀ n e, th !! t ≠ Some (Evaluating n e)) →
  (∀ u n e, u ≠ t → th !! u = Some (Evaluating n e) → th' !! u = Some (Evaluating n e)) → begun_ok bg th'.
Proof.
  intros H Ht Hu u b Hb. destruct (H u b Hb) as (n & e & He). exists n, e. apply Hu; [|done]. intros ->. by destruct (Ht n e).
Qed.

(** A thread has refreshed. *)
Lemma begun_done bg th t p : begun_ok bg th → begun_ok (delete t bg) (<[t := p]> th).
Proof. intros H u b [Hne Hb]%lookup_delete_Some. rewrite lookup_insert_ne by done. eauto. Qed.

Lemma goto_evaluating t p (r : SamplingMethod (R := unit)) u n e :
  u ≠ t → threads r !! u = Some (Evaluating n e) → threads (goto t p r) !! u = Some (Evaluating n e).
Proof. intros Hne Hu. cbn. by rewrite lookup_insert_ne. Qed.

Lemma enter_evaluating t (r : SamplingMethod (R := unit)) u n e :
  u ≠ t → threads r !! u = Some (Evaluating n e) → threads (enter t r) !! u = Some (Evaluating n e).
Proof. intros. unfold enter. destruct (negb _); by apply goto_evaluating. Qed.

(** The barrier lets one thread refresh at a time. *)
Lemma one_refreshes c t1 t2 b1 b2 : cache_inv c → begun c !! t1 = Some b1 → begun c !! t2 = Some b2 → t1 = t2.
Proof.
  intros H H1 H2. destruct (i_begun c H t1 b1 H1) as (n1 & e1 & E1), (i_begun c H t2 b2 H2) as (n2 & e2 & E2).
  by eapply (i_one _ (sampling_reach_inv _ (i_sampling c H))).
Qed.

(** A step of the sampling method alone *)
Lemma refresher_step c r t :
  cache_inv c → sampling_step (refresher c) r → caller_inv (lookups c) (threads r) →
  (∀ n e, threads (refresher c) !! t ≠ Some (Evaluating n e)) →
  (∀ u n e, u ≠ t → threads (refresher c) !! u = Some (Evaluating n e) → threads r !! u = Some (Evaluating n e)) →
  cache_inv (set_refresher r c).
Proof.
  intros [H1 H2 H3 H4 H5] Hs Hc Ht Hu. constructor; cbn; [by eapply reach_next|done|done|by eapply begun_move|done].
Qed.

(** A step of a lookup alone *)
Lemma lookup_step c c' :
  cache_inv c → refresher c' = refresher c → begun c' = begun c →
  (staleStatus c', clock c', invalidated c', rescanned c') = (staleStatus c, clock c, invalidated c, rescanned c) →
  progress_inv (lookups c') (inProgress c') → caller_inv (lookups c') (threads (refresher c)) → cache_inv c'.
Proof.
  intros [H1 H2 H3 H4 H5] Hr Hb Ht Hp Hc. injection Ht as E1 E2 E3 E4. constructor; rewrite ?Hr, ?Hb, ?E1, ?E2, ?E3, ?E4; done.
Qed.

Lemma invalidate_inv c : cache_inv c → cache_inv (invalidateStorage c).
Proof.
  intros [H1 H2 H3 H4 [(Hi & Hf & Hb) Hr Hu]]. constructor; cbn; try done. constructor; [|done|done].
  split; [lia|]. split; [lia|]. intros t b Ht. specialize (Hb t b Ht). lia.
Qed.

Lemma begin_inv c t n e : cache_inv c → threads (refresher c) !! t = Some (Evaluating n e) → cache_inv (refresh_begin t c).
Proof.
  intros H Ht. pose proof H as [H1 H2 H3 H4 [(Hi & Hf & Hb) Hr Hu]].
  assert (Hbg : begun_ok (<[t := clock c]> (begun c)) (threads (refresher c))).
  { intros u b [[<- <-]|[Hne Hub]]%lookup_insert_Some; eauto. }
  constructor; cbn; try done. constructor; [| |done].
  - split; [lia|]. split; [lia|]. intros u b [[<- <-]|[Hne Hub]]%lookup_insert_Some; [lia|]. specialize (Hb u b Hub). lia.
  - intros _ u b [[<- <-]|[Hne Hub]]%lookup_insert_Some; [lia|]. destruct (H4 u b Hub) as (n' & e' & Hu').
    destruct Hne. by eapply (i_one _ (sampling_reach_inv _ H1)).
Qed.

Lemma end_inv c t n e b :
  cache_inv c → threads (refresher c) !! t = Some (Evaluating n e) → begun c !! t = Some b → cache_inv (refresh_end t n e b c).
Proof.
  intros H Ht Hbt. pose proof H as [H1 H2 H3 H4 [(Hi & Hf & Hb) Hr Hu]]. constructor; cbn [refresher lookups inProgress begun staleStatus clock invalidated rescanned refresh_end].
  - eapply reach_next; [done|]. by apply (step_evaluate t n e (Some ())).
  - done.
  - eapply caller_same; [done|]. intros u. by eapply evaluated_threads.
  - cbn. by apply begun_done.
  - pose proof (Hb t b Hbt) as Hlt. constructor.
    + split; [lia|]. split; [destruct (bool_decide _); lia|]. intros u b' [_ Hub]%lookup_delete_Some. specialize (Hb u b' Hub). lia.
    + intros Hst u b' [Hne Hub]%lookup_delete_Some. destruct Hne. by eapply one_refreshes.
    + case_bool_decide as Hst; [intros _; by apply (Hr Hst t b)|]. done.
Qed.

Lemma raise_inv c t n e b :
  cache_inv c → threads (refresher c) !! t = Some (Evaluating n e) → begun c !! t = Some b → cache_inv (refresh_raise t n e c).
Proof.
  intros H Ht Hbt. pose proof H as [H1 H2 H3 H4 [(Hi & Hf & Hb) Hr Hu]]. constructor; cbn [refresher lookups inProgress begun staleStatus clock invalidated rescanned refresh_raise].
  - eapply reach_next; [done|]. by apply (step_evaluate t n e None).
  - done.
  - eapply caller_same; [done|]. intros u. by eapply evaluated_threads.
  - cbn. by apply begun_done.
  - constructor.
    + split; [lia|]. split; [lia|]. intros u b' [_ Hub]%lookup_delete_Some. specialize (Hb u b' Hub). lia.
    + intros Hst u b' [_ Hub]%lookup_delete_Some. eauto.
    + done.
Qed.

(** A thread has left [refreshStorage] and goes on with its lookup. *)
Lemma after_refresh_inv c t raised :
  progress_inv (lookups c) (inProgress c) →
  sampling_reach (refresher c) → begun_ok (begun c) (threads (refresher c)) →
  time_inv (staleStatus c) (begun c) (clock c) (invalidated c) (rescanned c) →
  caller_inv (lookups c) (<[t := Returning 0]> (threads (refresher c))) → threads (refresher c) !! t = None →
  cache_inv (after_refresh t raised c).
Proof.
  intros Hp Hs Hb Ht Hc Hn. pose proof (caller_left c t raised Hc Hn) as Hc'. revert Hc'.
  unfold after_refresh. destruct (lookups c !! t) as [[]|] eqn:El; intros Hc'; constructor; cbn; try done.
  eapply progress_keep; [done|done|done|by destruct raised].
Qed.

Lemma exit_evaluating t n e raised (r r' : SamplingMethod (R := unit)) u m k :
  exit t n e raised r = Some r' → u ≠ t → threads r !! u = Some (Evaluating m k) → threads r' !! u = Some (Evaluating m k).
Proof.
  unfold exit. destruct (negb _); [done|]. intros [= <-] Hne Hu. cbn.
  destruct raised; [rewrite lookup_delete_ne by done|rewrite lookup_insert_ne by done]; by rewrite lookup_fmap, Hu.
Qed.

Lemma refresh_exit_inv c c' t n e raised :
  cache_inv c → threads (refresher c) !! t = Some (Exiting n e raised) → refresh_exit t n e raised c = Some c' → cache_inv c'.
Proof.
  intros H Ht. pose proof H as [H1 H2 H3 H4 H5]. unfold refresh_exit. destruct (exit t n e raised (refresher c)) as [r|] eqn:Ex; [|done].
  intros [= <-]. destruct (exit_threads t n e raised _ _ _ Ht Ex) as [Hd Hr].
  assert (Hs : sampling_reach r) by (eapply reach_next; [done|by eapply step_exit]).
  assert (Hb : begun_ok (begun c) (threads r)).
  { eapply begun_move; [done|by rewrite Ht|]. intros u m k. by eapply exit_evaluating. }
  destruct raised.
  - apply after_refresh_inv; cbn; [done..| |done]. by eapply caller_same.
  - constructor; cbn; try done. eapply caller_same; [done|]. intros u. rewrite <- Hd. destruct Hr as [q Hq]. symmetry. by eapply present_insert.
Qed.

Lemma refresh_return_inv c t n : cache_inv c → threads (refresher c) !! t = Some (Returning n) → cache_inv (refresh_return t c).
Proof.
  intros [H1 H2 H3 H4 H5] Ht. apply after_refresh_inv; cbn; [done| | |done| |apply lookup_delete_eq].
  - eapply reach_next; [done|by eapply step_return].
  - eapply begun_move; [done|by rewrite Ht|]. intros u m k Hne Hu. cbn. by rewrite lookup_delete_ne.
  - eapply caller_same; [done|]. intros u. rewrite insert_delete_eq. by eapply present_insert.
Qed.

(** A thread that is not in [refreshStorage] is not in the sampling method. *)
Lemma not_refreshing c t p :
  cache_inv c → lookups c !! t = Some p → (∀ sd, p ≠ Refreshing sd) → threads (refresher c) !! t = None.
Proof.
  intros H Ht Hp. destruct (threads (refresher c) !! t) as [q|] eqn:E; [|done].
  destruct (c_in _ _ (i_caller c H) t) as [Hn|[sd Hn]]; [eauto|congruence|]. rewrite Hn in Ht. injection Ht as <-. by destruct (Hp sd).
Qed.

Lemma produce_inv c t sd :
  cache_inv c → threads (refresher c) !! t = None → (∀ p0, lookups c !! t = Some p0 → holds p0 = None) → cache_inv (produce_locked t sd c).
Proof.
  intros H Hth Hh. pose proof H as [H1 H2 H3 H4 H5]. unfold produce_locked. destruct (domainCache c !! sd) as [d|].
  - eapply lookup_step; cbn; eauto; [by apply progress_out|by apply caller_move].
  - case_bool_decide as Hin; eapply lookup_step; cbn; eauto; [by apply progress_add|by apply caller_move| |by apply caller_move].
    apply progress_out; [done..|]. intros sd' [= <-]. by destruct (decide (sd ∈ inProgress c)).
Qed.

Lemma check_inv c t sd : cache_inv c → lookups c !! t = Some (Checking sd) → cache_inv (check_stale t sd c).
Proof.
  intros H Ht. pose proof H as [H1 H2 H3 H4 H5]. assert (Hth : threads (refresher c) !! t = None) by (by eapply not_refreshing).
  unfold check_stale. case_bool_decide as Hst.
  - constructor; cbn; [|by eapply progress_keep| | |done].
    + eapply reach_next; [done|by apply step_call].
    + eapply caller_enter; [done|]. intros u. apply enter_threads.
    + eapply begun_move; [done|by rewrite Hth|]. intros u n e. apply enter_evaluating.
  - eapply lookup_step; cbn; eauto; [by eapply progress_keep|by apply caller_move].
Qed.

Lemma found_inv c t sd d : cache_inv c → lookups c !! t = Some (Finding sd) → cache_inv (found t sd d c).
Proof.
  intros H Ht. pose proof H as [H1 H2 H3 H4 H5]. assert (Hth : threads (refresher c) !! t = None) by (by eapply not_refreshing).
  unfold found. destruct d; eapply lookup_step; cbn; eauto; by first [eapply progress_keep|apply caller_move].
Qed.

Lemma leave_inv c c' t sd d : cache_inv c → lookups c !! t = Some (Leaving sd d) → leave t sd d c = Some c' → cache_inv c'.
Proof.
  intros H Ht. pose proof H as [H1 H2 H3 H4 H5]. assert (Hth : threads (refresher c) !! t = None) by (by eapply not_refreshing).
  unfold leave. case_bool_decide; [|done]. intros [= <-]. eapply lookup_step; cbn; eauto; [by apply progress_leave|by apply caller_awaken].
Qed.

Lemma cache_step_inv c c' : cache_inv c → cache_step c c' → cache_inv c'.
Proof.
  intros H Hs. pose proof H as [H1 H2 H3 H4 H5]. destruct Hs as [c|t c Hl Ht|t n c Ht|t n c Ht|t n e c Ht Hb|t n e b c Ht Hb|t n e b c Ht Hb|t n e r c c' Ht Hx|t n c Ht|t sd c Hl Ht|t sd c Hl|t sd c Hl|t sd known mods c Hl|t sd d c c' Hl Hx|c|sd d c|sd c].
  - by apply invalidate_inv.
  - eapply (refresher_step _ _ t); [done|by apply step_call| |by rewrite Ht|intros u n e; apply enter_evaluating].
    eapply caller_call; [done|done|]. intros u. apply enter_threads.
  - eapply (refresher_step _ _ t); [done|by apply step_wake1| |by rewrite Ht|intros u m e ? ?; unfold enter_again; destruct (negb _); by apply goto_evaluating].
    eapply caller_same; [done|]. intros u. by eapply enter_again_threads.
  - eapply (refresher_step _ _ t); [done|by apply step_wake2| |by rewrite Ht|intros u m e; apply goto_evaluating].
    eapply caller_same; [done|]. intros u. by eapply present_insert.
  - by eapply begin_inv.
  - by apply end_inv.
  - by eapply raise_inv.
  - by eapply refresh_exit_inv.
  - by eapply refresh_return_inv.
  - apply produce_inv; [done|done|]. congruence.
  - apply produce_inv; [done|by eapply not_refreshing|]. intros p0 Hp. rewrite Hl in Hp. by injection Hp as <-.
  - by apply check_inv.
  - by apply found_inv.
  - by eapply leave_inv.
  - by eapply lookup_step.
  - by eapply lookup_step.
  - by eapply lookup_step.
Qed.

Lemma cache_reach_inv c : cache_reach c → cache_inv c.
Proof.
  induction 1 as [|c c' _ IH Hs]; [|by eapply cache_step_inv]. constructor; cbn.
  - constructor.
  - constructor; [|done|done]. intros sd. split; [set_solver|]. by intros (t & p & Ht & _).
  - constructor; [intros t [? ?]|]; done.
  - done.
  - constructor; [split_and!; [lia|lia|done]|done|done].
Qed.

(** C40: however lookups, refreshes, invalidations and changes of the cache interleave: the storage is flagged as updated only when
    a whole rescan began after its last invalidation; a domain is looked up by one thread at a time; a thread that waits waits
    for one that is looking the domain up and will wake it; and the end of a lookup never raises. *)
Theorem storage_cache c :
  cache_reach c →
  (staleStatus c = STORAGE_UPDATED → (invalidated c < rescanned c)%nat)
  ∧ (∀ t1 t2 p1 p2 sd, lookups c !! t1 = Some p1 → lookups c !! t2 = Some p2 → holds p1 = Some sd → holds p2 = Some sd → t1 = t2)
  ∧ (∀ t sd, lookups c !! t = Some (Waiting sd false) → ∃ u p, lookups c !! u = Some p ∧ holds p = Some sd)
  ∧ (∀ t sd d, lookups c !! t = Some (Leaving sd d) → is_Some (leave t sd d c)).
Proof.
  intros [H1 H2 H3 H4 H5]%cache_reach_inv. split_and!.
  - apply (t_updated _ _ _ _ _ H5).
  - apply (p_one _ _ H2).
  - intros t sd Ht. by apply (p_held _ _ H2), (p_wait _ _ H2 t).
  - intros t sd d Ht. unfold leave. rewrite bool_decide_true; [eauto|]. apply (p_held _ _ H2). eauto.
Qed.

(** A module that fails keeps no domain from being found, and the first module that has it decides. *)
Lemma find_unfetched_first mods d :
  _findUnfetchedDomain mods = Some d ↔ ∃ pre post, mods = pre ++ FoundDomain d :: post ∧ ∀ d', FoundDomain d' ∉ pre.
Proof.
  split.
  - induction mods as [|a mods IH]; [done|]. destruct a as [d0| |]; cbn.
    + intros [= ->]. exists [], mods. split; [done|]. by intros d' ?%elem_of_nil.
    + intros (pre & post & -> & Hp)%IH. exists (DoesNotExist :: pre), post. split; [done|]. intros d' [?|Hd]%elem_of_cons; [done|by apply (Hp d')].
    + intros (pre & post & -> & Hp)%IH. exists (FindError :: pre), post. split; [done|]. intros d' [?|Hd]%elem_of_cons; [done|by apply (Hp d')].
  - intros (pre & post & -> & Hp). induction pre as [|a pre IH]; [done|]. destruct a as [d0| |]; [destruct (Hp d0); by left|..];
      cbn; apply IH; intros d' Hd; apply (Hp d'); by right.
Qed.

(** A domain that is removed from the cache while it is looked up is cached again. *)
Lemma removed_domain_cached t sd d c : domainCache (found t sd (Some d) (manuallyRemoveDomain sd c)) !! sd = Some d.
Proof. apply lookup_insert_eq. Qed.
End Cache.

(** Three lookups; every rescan raises: the third goes on, although no rescan has ever ended. *)
Definition cache_run1 : StorageDomainCache (D := Z) :=
  let c := produce_locked 3 [3] (produce_locked 2 [2] (produce_locked 1 [1] new_cache)) in
  refresh_begin 1 (check_stale 3 [3] (check_stale 2 [2] (check_stale 1 [1] c))).

Definition cache_run : StorageDomainCache (D := Z) :=
  let c := default new_cache (refresh_exit 1 1 1 true (refresh_raise 1 1 1 cache_run1)) in
  let c := set_refresher (enter_again 2 2 (refresher c)) c in
  let c := refresh_begin 2 (set_refresher (enter_again 3 3 (refresher c)) c) in
  let c := default new_cache (refresh_exit 2 2 6 true (refresh_raise 2 2 6 c)) in
  refresh_return 3 (set_refresher (goto 3 (Returning 3) (refresher c)) c).

Lemma cache_run1_reached : cache_reach cache_run1.
Proof.
  refine (c_next _ _ _ (s_begin 1 1 1 _ _ _)).
  refine (c_next _ _ (c_next _ _ (c_next _ _ _ (s_check 1 [1] _ _)) (s_check 2 [2] _ _)) (s_check 3 [3] _ _)).
  refine (c_next _ _ (c_next _ _ (c_next _ _ c_new (s_produce 1 [1] _ _ _)) (s_produce 2 [2] _ _ _)) (s_produce 3 [3] _ _ _)).
  all: vm_compute; reflexivity.
Qed.

Lemma cache_run_reached : cache_reach cache_run.
Proof.
  refine (c_next _ _ (c_next _ _ _ (s_refresh_wake2 3 3 _ _)) (s_return 3 3 _ _)).
  refine (c_next _ _ (c_next _ _ _ (s_raise 2 2 6 3 _ _ _)) (s_exit 2 2 6 true _ _ _ _)).
  refine (c_next _ _ (c_next _ _ (c_next _ _ _ (s_refresh_wake1 2 2 _ _)) (s_refresh_wake1 3 3 _ _)) (s_begin 2 2 6 _ _ _)).
  refine (c_next _ _ (c_next _ _ cache_run1_reached (s_raise 1 1 1 1 _ _ _)) (s_exit 1 1 1 true _ _ _ _)).
  all: vm_compute; reflexivity.
Qed.

Lemma lookup_without_rescan :
  lookups cache_run !! 3%nat = Some (Finding [3]) ∧ rescanned cache_run = 0%nat ∧ staleStatus cache_run = STORAGE_REFRESHING.
Proof. vm_compute. auto. Qed.

Lemma storage_cache_witness :
  lookups cache_run !! 1%nat = Some (Leaving [1] None) ∧ is_Some (leave 1 [1] None cache_run).
Proof.
  split; [vm_compute; reflexivity|]. apply (proj2 (proj2 (proj2 (storage_cache _ cache_run_reached))) 1%nat [1] None). vm_compute. reflexivity.
Defined.
