(* ===== verification/Periodic.v ===== *)
(** * Periodic operations: [virt/periodic.py]

    [Operation] dispatches its function to an executor and schedules its next call; [VmDispatcher] dispatches to every virtual
    machine.  Executor and scheduler are those of Executor.v and Schedule.v: here the answer of [dispatch] is an input and the calls that are
    scheduled, being fired, queued and executed are kept.  Bodies under the lock are steps; the call that is scheduled when a function
    has run is not under it. *)
From Stdlib Require Import ZArith Lia.
From stdpp Require Import base gmap list.
From S2P Require Import Prelude.

(** ** Operation *)

(** [executor.dispatch] queues the call, raises ResourceExhausted or another exception. *)
Inductive dispatch_answer := Dispatched | Exhausted | DispatchError.

Inductive start_error := InvalidValue | AlreadyRunning | DispatchRaised.

(** [scheduled] are the calls of the scheduler that are pending, [firing] the number of those that it has taken out but
    not yet run, [queued] and [executing] the calls of the operation that the executor holds and runs; [storing] are the calls that a
    thread has scheduled and not yet stored in [_call].  [starts] and [dropped] count the starts and the calls that a stopped executor dropped. *)
Record Operation := mkOperation {
  _period : Z;
  _exclusive : bool;
  _running : bool;
  _call : option nat;
  scheduled : list nat;
  firing : nat;
  queued : nat;
  executing : nat;
  storing : list nat;
  next_call : nat;
  starts : nat;
  dropped : nat;
}.

(** [Operation.__init__] *)
Definition new_operation (period : Z) (exclusive : bool) : Operation :=
  mkOperation period exclusive false None [] 0 0 0 [] 0 0 0.

Definition set_call (call : option nat) (o : Operation) : Operation :=
  mkOperation (_period o) (_exclusive o) (_running o) call (scheduled o) (firing o) (queued o) (executing o) (storing o) (next_call o) (starts o) (dropped o).

Definition set_running (b : bool) (o : Operation) : Operation :=
  mkOperation (_period o) (_exclusive o) b (_call o) (scheduled o) (firing o) (queued o) (executing o) (storing o) (next_call o) (starts o) (dropped o).

(** [self._scheduler.schedule(...)]: the new call is [next_call] *)
Definition schedule (o : Operation) : Operation :=
  mkOperation (_period o) (_exclusive o) (_running o) (_call o) (scheduled o ++ [next_call o]) (firing o) (queued o) (executing o)
    (storing o) (S (next_call o)) (starts o) (dropped o).

Definition _reschedule (o : Operation) : Operation := set_call (Some (next_call o)) (schedule o).

Definition enqueue (o : Operation) : Operation :=
  mkOperation (_period o) (_exclusive o) (_running o) (_call o) (scheduled o) (firing o) (S (queued o)) (executing o) (storing o) (next_call o) (starts o) (dropped o).

(** [_dispatch]: whether it raises, with the new state *)
Definition _dispatch (a : dispatch_answer) (o : Operation) : Operation * bool :=
  let o := set_call None o in
  match a with
  | Dispatched => (if negb (_exclusive o) then _reschedule (enqueue o) else enqueue o, false)
  | Exhausted => (_reschedule o, false)
  | DispatchError => (_reschedule o, true)
  end.

(** [start] *)
Definition start (a : dispatch_answer) : M Operation start_error unit := fun o =>
  if _period o <=? 0 then (o, Raise InvalidValue)
  else if _running o then (o, Raise AlreadyRunning)
  else
    let o := mkOperation (_period o) (_exclusive o) true (_call o) (scheduled o) (firing o) (queued o) (executing o) (storing o)
               (next_call o) (S (starts o)) (dropped o) in
    match _dispatch a o with (o, raised) => (o, if raised then Raise DispatchRaised else Ok ()) end.

(** [self._call.cancel()]: a call that is already taken out is not stopped. *)
Definition cancel (i : nat) (o : Operation) : Operation :=
  mkOperation (_period o) (_exclusive o) (_running o) (_call o) (filter (fun j => j ≠ i) (scheduled o)) (firing o) (queued o) (executing o)
    (storing o) (next_call o) (starts o) (dropped o).

Definition stop (o : Operation) : Operation :=
  if _running o then
    let o := set_running false o in
    match _call o with Some i => set_call None (cancel i o) | None => o end
  else o.

(** The scheduler takes call [i] out. *)
Definition fire (i : nat) (o : Operation) : Operation :=
  mkOperation (_period o) (_exclusive o) (_running o) (_call o) (filter (fun j => j ≠ i) (scheduled o)) (S (firing o)) (queued o) (executing o)
    (storing o) (next_call o) (starts o) (dropped o).

(** [_try_to_dispatch] *)
Definition _try_to_dispatch (a : dispatch_answer) (o : Operation) : Operation :=
  let o := mkOperation (_period o) (_exclusive o) (_running o) (_call o) (scheduled o) (pred (firing o)) (queued o) (executing o)
             (storing o) (next_call o) (starts o) (dropped o) in
  if _running o then (_dispatch a o).1 else o.

(** A worker takes the operation from the queue and calls it. *)
Definition execute (o : Operation) : Operation :=
  mkOperation (_period o) (_exclusive o) (_running o) (_call o) (scheduled o) (firing o) (pred (queued o)) (S (executing o))
    (storing o) (next_call o) (starts o) (dropped o).

(** The function has returned or raised: the [finally] clause of [__call__], up to the scheduler's answer. *)
Definition executed (o : Operation) : Operation :=
  let o := mkOperation (_period o) (_exclusive o) (_running o) (_call o) (scheduled o) (firing o) (queued o) (pred (executing o))
             (storing o) (next_call o) (starts o) (dropped o) in
  if _exclusive o then
    let i := next_call o in
    let o := schedule o in
    mkOperation (_period o) (_exclusive o) (_running o) (_call o) (scheduled o) (firing o) (queued o) (executing o)
      (i :: storing o) (next_call o) (starts o) (dropped o)
  else o.

(** [self._call = ...] with the scheduler's answer *)
Definition store_call (i : nat) (o : Operation) : Operation :=
  mkOperation (_period o) (_exclusive o) (_running o) (Some i) (scheduled o) (firing o) (queued o) (executing o)
    (filter (fun j => j ≠ i) (storing o)) (next_call o) (starts o) (dropped o).

(** A stopped executor drops a call. *)
Definition drop_queued (o : Operation) : Operation :=
  mkOperation (_period o) (_exclusive o) (_running o) (_call o) (scheduled o) (firing o) (pred (queued o)) (executing o)
    (storing o) (next_call o) (starts o) (S (dropped o)).

Inductive periodic_step : Operation → Operation → Prop :=
| p_start a o : periodic_step o (start a o).1
| p_stop o : periodic_step o (stop o)
| p_fire i o : i ∈ scheduled o → periodic_step o (fire i o)
| p_try a o : (0 < firing o)%nat → periodic_step o (_try_to_dispatch a o)
| p_execute o : (0 < queued o)%nat → periodic_step o (execute o)
| p_executed o : (0 < executing o)%nat → periodic_step o (executed o)
| p_store i o : i ∈ storing o → periodic_step o (store_call i o)
| p_drop o : (0 < queued o)%nat → periodic_step o (drop_queued o).

Inductive periodic_reach (period : Z) (exclusive : bool) : Operation → Prop :=
| p_new : periodic_reach period exclusive (new_operation period exclusive)
| p_next o o' : periodic_reach period exclusive o → periodic_step o o' → periodic_reach period exclusive o'.

(** The calls to come: each of them is one chain of executions. *)
Definition chains (o : Operation) : nat :=
  length (scheduled o) + firing o + (if _exclusive o then queued o + executing o else 0).

Record periodic_inv (period : Z) (exclusive : bool) (o : Operation) : Prop := {
  o_const : _period o = period ∧ _exclusive o = exclusive;
  o_calls : NoDup (scheduled o) ∧ ∀ i, i ∈ scheduled o → (i < next_call o)%nat;
  o_most : (chains o <= starts o)%nat;
  o_least : _running o = true → dropped o = 0%nat ∨ exclusive = false → (0 < chains o)%nat;
  o_period : _running o = true → 0 < period;
}.

Definition calls_ok (o : Operation) : Prop := NoDup (scheduled o) ∧ ∀ i, i ∈ scheduled o → (i < next_call o)%nat.

Lemma schedule_ok o : calls_ok o → calls_ok (schedule o).
Proof.
  intros [H1 H2]. split; cbn.
  - apply NoDup_app. split_and!; [done| |apply NoDup_singleton]. intros i Hi Hj%list_elem_of_singleton. specialize (H2 _ Hi). lia.
  - intros i [Hi|Hi%list_elem_of_singleton]%elem_of_app; [|lia]. specialize (H2 i Hi). lia.
Qed.

Lemma dispatch_ok a o : calls_ok o → calls_ok (_dispatch a o).1.
Proof.
  intros H. unfold _dispatch. destruct a; cbn; try by apply (schedule_ok o). destruct (negb _); [by apply (schedule_ok o)|done].
Qed.

(** A dispatch begins a chain, whatever the executor answers. *)
Lemma dispatch_chains a o : chains (_dispatch a o).1 = S (chains o).
Proof.
  unfold _dispatch, chains. destruct a; cbn; try (rewrite length_app; cbn; lia).
  destruct (_exclusive o) eqn:E; cbn; rewrite ?E; cbn; [lia|]. rewrite length_app. cbn. lia.
Qed.

Lemma dispatch_const a o :
  let o' := (_dispatch a o).1 in
  _period o' = _period o ∧ _exclusive o' = _exclusive o ∧ _running o' = _running o ∧ starts o' = starts o ∧ dropped o' = dropped o.
Proof. unfold _dispatch. destruct a; cbn; auto. destruct (negb _); auto. Qed.

Lemma filter_ne_length (i : nat) l : NoDup l → i ∈ l → S (length (filter (fun j => j ≠ i) l)) = length l.
Proof.
  intros Hn Hi. assert (Hp : i :: filter (fun j => j ≠ i) l ≡ₚ l).
  { apply NoDup_Permutation; [|done|].
    - apply NoDup_cons. split; [|by apply NoDup_filter]. rewrite list_elem_of_filter. naive_solver.
    - intros j. rewrite elem_of_cons, list_elem_of_filter. destruct (decide (j = i)); naive_solver. }
  by rewrite <- (Permutation_length Hp).
Qed.

Lemma filter_ok i o : calls_ok o → calls_ok (cancel i o).
Proof. intros [H1 H2]. split; cbn; [by apply NoDup_filter|]. intros j [_ Hj]%list_elem_of_filter. auto. Qed.

Lemma operation_start_inv p x a o : periodic_inv p x o → periodic_inv p x (start a o).1.
Proof.
  intros H. pose proof H as [[H1 H1'] H2 H3 H4 H5]. unfold start. destruct (Z.leb_spec (_period o) 0); [done|]. destruct (_running o) eqn:Er; [done|].
  set (o1 := mkOperation _ _ true _ _ _ _ _ _ _ _ _). destruct (_dispatch a o1) as [o2 raised] eqn:Ed. cbn.
  replace o2 with (_dispatch a o1).1 by (by rewrite Ed). destruct (dispatch_const a o1) as (E1 & E2 & E3 & E4 & E5).
  constructor; rewrite ?E1, ?E2, ?E3, ?E4, ?E5, ?dispatch_chains.
  - done.
  - by apply dispatch_ok.
  - unfold chains in *. cbn. lia.
  - lia.
  - intros _. rewrite <- H1. done.
Qed.

Lemma operation_stop_inv p x o : periodic_inv p x o → periodic_inv p x (stop o).
Proof.
  intros H. pose proof H as [H1 H2 H3 H4 H5]. unfold stop. destruct (_running o); [|done]. cbn. destruct (_call o) as [i|].
  - constructor; cbn; try done; [by apply (filter_ok i o)|]. unfold chains in *. cbn. pose proof (length_filter (fun j => j ≠ i) (scheduled o)). lia.
  - by constructor.
Qed.

Lemma fire_inv p x i o : periodic_inv p x o → i ∈ scheduled o → periodic_inv p x (fire i o).
Proof.
  intros [H1 H2 H3 H4 H5] Hi. pose proof (filter_ne_length i _ (proj1 H2) Hi) as Hl.
  assert (Hc : chains (fire i o) = chains o) by (unfold chains; cbn; lia).
  constructor; rewrite ?Hc; try done. by apply (filter_ok i o).
Qed.

Lemma try_inv p x a o : periodic_inv p x o → (0 < firing o)%nat → periodic_inv p x (_try_to_dispatch a o).
Proof.
  intros [[H1 H1'] H2 H3 H4 H5] Hf. unfold _try_to_dispatch. set (o1 := mkOperation _ _ _ _ _ _ _ _ _ _ _ _).
  assert (Hc : chains o = S (chains o1)) by (unfold chains; cbn; lia). rewrite Hc in *.
  change (_running o1) with (_running o). destruct (_running o) eqn:Er.
  - destruct (dispatch_const a o1) as (E1 & E2 & E3 & E4 & E5). constructor; rewrite ?E1, ?E2, ?E3, ?E4, ?E5, ?dispatch_chains; cbn; try done. by apply dispatch_ok.
  - constructor; try done; [change (starts o1) with (starts o); lia|cbn; by rewrite Er..].
Qed.

Lemma periodic_step_inv p x o o' : periodic_inv p x o → periodic_step o o' → periodic_inv p x o'.
Proof.
  intros H Hs. pose proof H as [[H1 H1'] H2 H3 H4 H5]. destruct Hs as [a o|o|i o Hi|a o Hf|o Hq|o He|i o Hi|o Hq].
  - by apply operation_start_inv.
  - by apply operation_stop_inv.
  - by apply fire_inv.
  - by apply try_inv.
  - assert (Hc : chains (execute o) = chains o) by (unfold chains; cbn; destruct (_exclusive o); lia).
    by constructor; rewrite ?Hc.
  - assert (Hc : chains (executed o) = chains o ∧ dropped (executed o) = dropped o ∧ starts (executed o) = starts o
        ∧ _running (executed o) = _running o ∧ _period (executed o) = _period o ∧ _exclusive (executed o) = _exclusive o ∧ calls_ok (executed o)).
    { unfold executed, chains. cbn. destruct (_exclusive o) eqn:E; cbn; rewrite ?E; [|done]. rewrite length_app. cbn.
      split_and!; [lia|done|done|done|done|done|exact (schedule_ok o H2)]. }
    destruct Hc as (E1 & E2 & E3 & E4 & E5 & E6 & E7). by constructor; rewrite ?E1, ?E2, ?E3, ?E4, ?E5, ?E6.
  - by constructor.
  - constructor; try done.
    + unfold chains in *. cbn. destruct (_exclusive o); lia.
    + intros Hr. cbn. intros [?| ->]; [done|]. specialize (H4 Hr (or_intror eq_refl)). unfold chains in *. cbn. rewrite H1' in *. lia.
Qed.

Lemma periodic_reach_inv p x o : periodic_reach p x o → periodic_inv p x o.
Proof.
  induction 1 as [|o o' _ IH Hs]; [|by eapply periodic_step_inv]. constructor; cbn; try done; [|unfold chains; cbn; destruct x; lia].
  split; [apply NoDup_nil_2|]. by intros i ?%elem_of_nil.
Qed.

(** an operation that was started is one chain of executions for each time it was started, so one that was started once
    is never scheduled twice, and if it is exclusive never runs twice at a time nor is scheduled while it runs; while it is
    running its next call is always to come, whatever the executor answers and the function does; and when it is not running
    nothing but a start hands it to the executor. *)
Theorem periodic_operation p x o :
  periodic_reach p x o →
  (length (scheduled o) + firing o <= starts o)%nat
  ∧ (x = true → (length (scheduled o) + firing o + queued o + executing o <= starts o)%nat)
  ∧ (_running o = true → dropped o = 0%nat ∨ x = false →
       scheduled o ≠ [] ∨ (0 < firing o)%nat ∨ x = true ∧ ((0 < queued o)%nat ∨ (0 < executing o)%nat))
  ∧ (∀ a, _running o = false → queued (_try_to_dispatch a o) = queued o ∧ scheduled (_try_to_dispatch a o) = scheduled o).
Proof.
  intros [[H1 H1'] H2 H3 H4 H5]%periodic_reach_inv. unfold chains in *. rewrite H1' in *. split_and!.
  - destruct x; lia.
  - intros ->. lia.
  - intros Hr Hd. specialize (H4 Hr Hd). destruct (scheduled o); [|by left]. right. cbn in H4. destruct (firing o); [|left; lia]. right.
    destruct x; [|lia]. split; [done|lia].
  - intros a Hr. unfold _try_to_dispatch. cbn. by rewrite Hr.
Qed.

(** An exclusive operation runs, is stopped and started again, and runs a second time at the same time; and both
    executions schedule the next one. *)
Definition restarted : Operation :=
  execute (start Dispatched (stop (execute (start Dispatched (new_operation 5 true)).1))).1.

Lemma restarted_reached : periodic_reach 5 true restarted.
Proof.
  refine (p_next _ _ _ _ (p_next _ _ _ _ (p_next _ _ _ _ (p_next _ _ _ _ (p_next _ _ _ _ (p_new 5 true) (p_start Dispatched _)) (p_execute _ _)) (p_stop _))
    (p_start Dispatched _)) (p_execute _ _)); cbn; lia.
Qed.

Lemma exclusive_twice : executing restarted = 2%nat ∧ length (scheduled (executed (executed restarted))) = 2%nat.
Proof. split; reflexivity. Qed.

Lemma periodic_operation_witness :
  let o := executed (execute (start Dispatched (new_operation 5 true)).1) in
  starts o = 1%nat ∧ (length (scheduled o) + firing o + queued o + executing o <= 1)%nat.
Proof.
  intros o. split; [reflexivity|]. apply (periodic_operation 5 true o); [|reflexivity].
  refine (p_next _ _ _ _ (p_next _ _ _ _ (p_next _ _ _ _ (p_new 5 true) (p_start Dispatched _)) (p_execute _ _)) (p_executed _ _)); cbn; lia.
Defined.

(** ** VmDispatcher *)

(** What a virtual machine answers: whether [create] returns an operation, its [required] and [runnable], without when they
    raise, and the answer of the executor. *)
Record vm_answer := mkVm { vm_id : text; created : bool; required : option bool; runnable : option bool; answer : dispatch_answer }.

Inductive vm_error := UnboundLocal | VmDispatchRaised.

(** [VmDispatcher.__call__]: [op] is whether the variable is bound.  The result is what was dispatched, and what is returned or raised. *)
Fixpoint dispatch_vms (vms : list vm_answer) (op : bool) (skipped : list text) : list text * res vm_error (list text) :=
  match vms with
  | [] => ([], Ok skipped)
  | vm :: vms =>
      let op := op || created vm in
      let failed := if op then dispatch_vms vms op skipped else ([], Raise UnboundLocal) in
      if negb (created vm) then failed
      else match required vm with
           | None => failed
           | Some false => dispatch_vms vms op skipped
           | Some true =>
               match runnable vm with
               | None => failed
               | Some false => dispatch_vms vms op (skipped ++ [vm_id vm])
               | Some true =>
                   match answer vm with
                   | Dispatched => let (ds, r) := dispatch_vms vms op skipped in (vm_id vm :: ds, r)
                   | Exhausted => dispatch_vms vms op (skipped ++ [vm_id vm])
                   | DispatchError => ([], Raise VmDispatchRaised)
                   end
               end
           end
  end.

Definition wanted (vm : vm_answer) : bool := created vm && bool_decide (required vm = Some true).

Definition vm_dispatched (vm : vm_answer) : bool :=
  wanted vm && bool_decide (runnable vm = Some true) && match answer vm with Dispatched => true | _ => false end.

Definition vm_skipped (vm : vm_answer) : bool :=
  wanted vm && (bool_decide (runnable vm = Some false) || (bool_decide (runnable vm = Some true) && match answer vm with Exhausted => true | _ => false end)).

Definition vm_raises (vm : vm_answer) : bool :=
  wanted vm && bool_decide (runnable vm = Some true) && match answer vm with DispatchError => true | _ => false end.

Lemma dispatch_vms_from vms op skipped :
  op || match vms with vm :: _ => created vm | [] => true end = true → forallb (fun vm => negb (vm_raises vm)) vms = true →
  dispatch_vms vms op skipped = (vm_id <$> List.filter vm_dispatched vms, Ok (skipped ++ (vm_id <$> List.filter vm_skipped vms))).
Proof.
  revert op skipped. induction vms as [|vm vms IH]; intros op skipped Hop Hr; cbn [dispatch_vms List.filter fmap list_fmap]; [by rewrite app_nil_r|].
  cbn in Hr. apply andb_true_iff in Hr as [Hv Hr]. rewrite Hop.
  assert (IH' : ∀ sk, dispatch_vms vms true sk = (vm_id <$> List.filter vm_dispatched vms, Ok (sk ++ (vm_id <$> List.filter vm_skipped vms)))) by (intros; by apply IH).
  unfold vm_raises, vm_dispatched, vm_skipped, wanted in *.
  destruct vm as [i [] [[]|] [[]|] []]; cbn in *; rewrite ?IH'; cbn; rewrite <- ?app_assoc; done.
Qed.

(** a dispatch to the virtual machines reaches every one: a machine that cannot be asked, is not to be handled or is blocked, or for
    which the executor has no room, keeps no other from its turn, and exactly the blocked ones and those without room are
    reported as skipped.  This holds when the operation of the first machine can be created and the executor runs. *)
Theorem vm_dispatch vms :
  match vms with vm :: _ => created vm | [] => true end = true → forallb (fun vm => negb (vm_raises vm)) vms = true →
  dispatch_vms vms false [] = (vm_id <$> List.filter vm_dispatched vms, Ok (vm_id <$> List.filter vm_skipped vms)).
Proof. intros H1 H2. by apply (dispatch_vms_from vms false []). Qed.

(** When it cannot be created, no machine gets its turn. *)
Lemma vm_dispatch_unbound vm vms : created vm = false → dispatch_vms (vm :: vms) false [] = ([], Raise UnboundLocal).
Proof. intros H. cbn. by rewrite H. Qed.

Lemma vm_dispatch_witness :
  dispatch_vms [mkVm [1] true None None Dispatched; mkVm [2] true (Some true) (Some false) Dispatched;
                mkVm [3] false None None Dispatched; mkVm [4] true (Some true) (Some true) Dispatched] false []
  = ([[4]], Ok [[2]]).
Proof. exact (vm_dispatch [mkVm [1] true None None Dispatched; mkVm [2] true (Some true) (Some false) Dispatched;
                mkVm [3] false None None Dispatched; mkVm [4] true (Some true) (Some true) Dispatched] eq_refl eq_refl). Defined.

(** ** _RunnableOnVm *)

Definition VIR_ERR_NO_DOMAIN : Z := 42.

(** How [_execute] ends. *)
Inductive execution := Executed | NotConnectedError | LibvirtError (code : Z) | OtherError (e : Z).

(** [__call__]: whether it raises.  [post_copy] is whether the phase is not NONE and [down] whether the status is DOWN. *)
Definition run_on_vm (migrating post_copy down : bool) (r : execution) : bool :=
  match r with
  | Executed => false
  | NotConnectedError => false
  | LibvirtError code =>
      if post_copy then false
      else if bool_decide (code ∈ [VIR_ERR_NO_DOMAIN]) then if migrating || down then false else true
      else true
  | OtherError _ => true
  end.

(** A libvirt error is passed over only in post-copy, or when the domain is gone and the machine is migrating or down. *)
Lemma run_on_vm_raises migrating post_copy down code :
  run_on_vm migrating post_copy down (LibvirtError code) = false ↔ post_copy = true ∨ code = VIR_ERR_NO_DOMAIN ∧ (migrating = true ∨ down = true).
Proof. unfold run_on_vm. case_bool_decide as H; rewrite list_elem_of_singleton in H; destruct post_copy, migrating, down; naive_solver. Qed.
