(* ===== verification/Misc.v ===== *)
(** * Block reads, sizes and events: [storage/misc.py]

    [readblock] reads a range of a device with [dd], which is a parameter with its documented behaviour as a law; [Event] keeps
    the functions that are called when it is emitted. *)
From Stdlib Require Import ZArith Lia.
From stdpp Require Import base gmap list.
From S2P Require Import Prelude Text.

(** ** Reading blocks *)

Definition KiB : Z := 1024.
Definition MiB : Z := 1024 ^ 2.
Definition GiB : Z := 1024 ^ 3.
Definition TiB : Z := 1024 ^ 4.

(** [_alignData], the loop over the units: [fuel] counts the halvings *)
Fixpoint align_loop (fuel : nat) (iounit length offset : Z) : Z * Z * Z :=
  match fuel with
  | O => (iounit, length, offset)
  | S fuel =>
      if iounit >? 1 then
        if (length >=? iounit) && (offset mod iounit =? 0) then (iounit, length / iounit, offset / iounit)
        else align_loop fuel (Z.shiftr iounit 1) length offset
      else (iounit, length, offset)
  end.

Definition _alignData (length offset : Z) : Z * Z * Z :=
  if (length <? MiB) && (offset mod length =? 0) && (length mod 512 =? 0) then (length, 1, offset / length)
  else align_loop 20 MiB length offset.

Inductive misc_error := MiscBlockReadException | MiscBlockReadIncomplete | InvalidParameter | IndexError | OutOfFuel.

(** [s.split()[0]] of bytes *)
Fixpoint take_word (s : bytes) : bytes :=
  match s with [] => [] | c :: s => if is_space_b c then [] else c :: take_word s end.

Definition first_word (s : bytes) : option bytes :=
  match lstripp is_space_b s with [] => None | s => Some (take_word s) end.

Definition validateDDBytes (ddstderr : list bytes) (size : Z) : res misc_error bool :=
  match ddstderr with
  | [_; _; line] =>
      match first_word line with
      | None => Raise IndexError
      | Some w => match py_int w with
                  | None => Raise InvalidParameter
                  | Some xferred => Ok (bool_decide (xferred = size))
                  end
      end
  | _ => Raise InvalidParameter
  end.

(** An answer of a command: its code, stdout and stderr *)
Abbreviation dd_answer := (Z * bytes * bytes)%type (only parsing).

Section Readblock.
(** [dd bs count skip] reads a device. *)
Variable dd : Z → Z → Z → dd_answer.

(** [readblock]; the state is the commands that were run *)
Fixpoint readblock_loop (fuel : nat) (base size left offset : Z) (ret : bytes) : M (list (Z * Z * Z)) misc_error bytes :=
  match fuel with
  | O => raise OutOfFuel
  | S fuel =>
      if left >? 0 then
        let '(iounit, count, iooffset) := _alignData left offset in
        modify (fun cmds => cmds ++ [(iounit, count, iooffset)]) ;;
        let '(rc, out, err) := dd iounit count iooffset in
        if negb (rc =? 0) then raise MiscBlockReadException
        else
          valid ← lift (validateDDBytes (splitlines err) (iounit * count));
          if negb valid then raise MiscBlockReadIncomplete
          else let left := left mod iounit in readblock_loop fuel base size left (base + size - left) (ret ++ out)
      else mret ret
  end.

Definition readblock (offset size : Z) : M (list (Z * Z * Z)) misc_error bytes :=
  if negb (size mod 512 =? 0) || negb (offset mod 512 =? 0) then raise MiscBlockReadException
  else readblock_loop 22 offset size size offset [].

(** ** Every command reads what is left, aligned *)

(** What [_alignData] answers: whole units, from [offset] on, of which less than one is left over. *)
Record aligned (length offset iounit count iooffset : Z) : Prop := {
  a_unit : 0 < iounit <= length;
  a_offset : iooffset * iounit = offset;
  a_count : iounit * count + length mod iounit = length;
  a_shrinks : ∀ k, 1 <= k → length < 2 ^ k → length mod iounit < 2 ^ (k - 1);
  a_power : length mod iounit < 2 ^ 20;
  a_direct : length mod 512 = 0 → offset mod 512 = 0 → iounit mod 512 = 0;
}.

Lemma power_aligned k length offset :
  0 <= k <= 20 → 2 ^ k <= length → offset mod 2 ^ k = 0 → (length mod 512 = 0 → offset mod 512 = 0 → 9 <= k) →
  aligned length offset (2 ^ k) (length / 2 ^ k) (offset / 2 ^ k).
Proof.
  intros Hk Hl Ho Hd. assert (Hp : 0 < 2 ^ k) by (apply Z.pow_pos_nonneg; lia). constructor.
  - lia.
  - pose proof (Z.div_mod offset (2 ^ k)). lia.
  - symmetry. apply Z.div_mod. lia.
  - intros j Hj Hlt. assert (k < j) by (apply (Z.pow_lt_mono_r_iff 2); lia).
    pose proof (Z.mod_pos_bound length (2 ^ k) Hp). assert (2 ^ k <= 2 ^ (j - 1)) by (apply Z.pow_le_mono_r; lia). lia.
  - pose proof (Z.mod_pos_bound length (2 ^ k) Hp). assert (2 ^ k <= 2 ^ 20) by (apply Z.pow_le_mono_r; lia). lia.
  - intros H1 H2. specialize (Hd H1 H2). replace k with (9 + (k - 9)) by lia. rewrite Z.pow_add_r by lia.
    rewrite Z.mul_comm. by apply Z.mod_mul.
Qed.

Lemma align_loop_aligned (fuel : nat) k length offset :
  0 <= k <= 20 → Z.of_nat fuel = k → 0 < length → 0 <= offset → (length mod 512 = 0 → offset mod 512 = 0 → 9 <= k) →
  let '(u, c, o) := align_loop fuel (2 ^ k) length offset in aligned length offset u c o.
Proof.
  revert k. induction fuel as [|fuel IH]; intros k Hk Hf Hl Ho Hd; cbn [align_loop].
  - replace k with 0 in * by lia. pose proof (power_aligned 0 length offset ltac:(lia) ltac:(cbn; lia) (Z.mod_1_r _) Hd) as H.
    by rewrite Z.pow_0_r, !Z.div_1_r in H.
  - assert (1 < 2 ^ k) by (apply Z.pow_gt_1; lia). destruct (Z.gtb_spec (2 ^ k) 1); [|lia].
    destruct ((length >=? 2 ^ k) && (offset mod 2 ^ k =? 0)) eqn:E.
    + apply andb_true_iff in E as [E1 E2]. apply power_aligned; [lia|lia|lia|done].
    + rewrite Z.shiftr_div_pow2 by lia. replace (2 ^ k / 2 ^ 1) with (2 ^ (k - 1)) by (by rewrite Z.pow_sub_r by lia).
      apply IH; [lia|lia|done|done|]. intros H1 H2. specialize (Hd H1 H2). destruct (decide (k = 9)) as [->|]; [|lia].
      exfalso. change (2 ^ 9) with 512 in E. rewrite H2 in E. pose proof (Z.div_mod length 512). lia.
Qed.

Lemma alignData_aligned length offset :
  0 < length → 0 <= offset → let '(u, c, o) := _alignData length offset in aligned length offset u c o.
Proof.
  intros Hl Ho. unfold _alignData. destruct ((length <? MiB) && _ && _) eqn:E.
  - apply andb_true_iff in E as [[E1 E2]%andb_true_iff E3]. pose proof (Z.div_mod offset length). pose proof (Z.mod_same length).
    constructor; lia.
  - apply (align_loop_aligned 20 20); [lia|lia|done|done|lia].
Qed.

(** ** [readblock] reads the range *)

(** The documented behaviour of [dd] on a device that holds [data]: when it succeeds it writes the blocks it was asked for, as
    far as the device has them, and the third line of its stderr begins with the number of their bytes. *)
Record dd_law (data : bytes) : Prop := {
  dd_reads : ∀ bs count skip out err, dd bs count skip = (0, out, err) → out = slice (skip * bs) ((skip + count) * bs) data;
  dd_reports : ∀ bs count skip out err, dd bs count skip = (0, out, err) →
    ∃ l1 l2 l3 w, splitlines err = [l1; l2; l3] ∧ first_word l3 = Some w ∧ py_int w = Some (zlen out);
}.

Definition direct (cmd : Z * Z * Z) : Prop := cmd.1.1 mod 512 = 0 ∧ 0 < cmd.1.1 ∧ 0 < cmd.1.2.

(** What a read of [left] bytes from [offset] gives after [ret]: the bytes of the device, or the exception of a command that failed or fell short. *)
Definition read_outcome (data ret : bytes) (offset left : Z) (r : res misc_error bytes) : Prop :=
  match r with
  | Ok b => b = ret ++ slice offset (offset + left) data ∧ zlen b = zlen ret + left
  | Raise MiscBlockReadException => ∃ bs count skip, (dd bs count skip).1.1 ≠ 0
  | Raise MiscBlockReadIncomplete => zlen data < offset + left
  | Raise _ => False
  end.

Lemma slice_length_short i j (data : bytes) : 0 <= i <= j → zlen (slice i j data) = j - i ∨ zlen data < j.
Proof. intros H. destruct (Z.leb_spec j (zlen data)); [left; by apply zlen_slice|by right]. Qed.

Lemma readblock_loop_spec data fuel base size left offset ret cmds :
  dd_law data → 0 <= left → offset = base + size - left → 0 <= offset → offset mod 512 = 0 → left mod 512 = 0 →
  left < 2 ^ (Z.of_nat fuel - 1) ∨ (22 <= fuel)%nat → Forall direct cmds →
  let '(cmds', r) := readblock_loop fuel base size left offset ret cmds in
  Forall direct cmds' ∧ read_outcome data ret offset left r.
Proof.
  intros Hdd. revert left offset ret cmds. induction fuel as [|fuel IH]; intros left offset ret cmds Hl Hoff Ho Ho5 Hl5 Hk Hc.
  { cbn in Hk. lia. }
  replace (Z.of_nat (S fuel) - 1) with (Z.of_nat fuel) in Hk by lia.
  cbn [readblock_loop]. destruct (Z.gtb_spec left 0) as [Hpos|Hz].
  2:{ cbn. split; [done|]. replace left with 0 by lia. rewrite Z.add_0_r. unfold slice. rewrite Z.sub_diag. cbn. rewrite app_nil_r, Z.add_0_r. done. }
  pose proof (alignData_aligned left offset Hpos Ho) as Ha. destruct (_alignData left offset) as [[u c] o]. destruct Ha as [Hu Hof Hco Hsh Hpw Hdi].
  specialize (Hdi Hl5 Ho5). cbn. pose proof (Z.mod_pos_bound left u ltac:(lia)) as Hmod.
  assert (Hc1 : 0 < c) by nia. assert (0 < u * c) by (apply Z.mul_pos_pos; lia).
  assert (Hc' : Forall direct (cmds ++ [(u, c, o)])).
  { apply Forall_app. split; [done|]. apply Forall_singleton. unfold direct. cbn. lia. }
  destruct (dd u c o) as [[rc out] err] eqn:Ed. destruct (Z.eqb_spec rc 0) as [->|Hrc]; cbn.
  2:{ split; [done|]. exists u, c, o. by rewrite Ed. }
  destruct (dd_reports _ Hdd _ _ _ _ _ Ed) as (l1 & l2 & l3 & w & Hs & Hw & Hi). rewrite Hs. cbn. rewrite Hw, Hi. cbn.
  pose proof (dd_reads _ Hdd _ _ _ _ _ Ed) as Hout. replace (o * u) with offset in Hout by lia.
  replace ((o + c) * u) with (offset + u * c) in Hout by lia.
  case_bool_decide as Hx; cbn.
  2:{ split; [done|]. unfold read_outcome. destruct (slice_length_short offset (offset + u * c) data) as [Hn|Hn]; [lia| |lia]. rewrite <- Hout in Hn. lia. }
  unfold mbind, M_bind, modify, lift. cbn [negb].
  assert (Hoff' : base + size - left mod u = offset + u * c) by lia.
  specialize (IH (left mod u) (offset + u * c) (ret ++ out) (cmds ++ [(u, c, o)])). rewrite Hoff'.
  destruct (readblock_loop fuel base size (left mod u) (offset + u * c) (ret ++ out) (cmds ++ [(u, c, o)])) as [cmds' r].
  destruct IH as [IH1 IH2]; [lia|lia|lia| | | |done|].
  - rewrite Z.add_mod, Ho5, Z.mul_mod, Hdi by lia. done.
  - replace (left mod u) with (left + - (u * c)) by lia. rewrite Z.add_mod, Hl5 by lia. rewrite <- Z.mul_opp_r, Z.mul_mod, Hdi by lia. done.
  - left. destruct Hk as [Hk|Hk].
    + apply Hsh; [|done]. destruct fuel; [cbn in Hk; lia|lia].
    + assert (2 ^ 20 <= 2 ^ (Z.of_nat fuel - 1)) by (apply Z.pow_le_mono_r; lia). lia.
  - split; [done|]. destruct r as [b|[]]; cbn in *; try done; [|lia].
    destruct IH2 as [-> IH2]. rewrite zlen_app in IH2. rewrite <- app_assoc, Hout, slice_app_slice by lia.
    split; [do 2 f_equal; lia|]. rewrite <- slice_app_slice with (j := offset + u * c) by lia. rewrite <- Hout. rewrite !zlen_app in *. lia.
Qed.

(** [readblock] of an aligned range returns exactly the bytes of the range when [dd] succeeds and the device holds it, in a
    bounded number of commands each of which is aligned for direct input and output; it raises MiscBlockReadException
    when a command fails, MiscBlockReadIncomplete only when the range goes past the end of the device, and
    it never returns short or wrong data. *)
Theorem readblock_range data offset size :
  dd_law data → 0 <= offset → 0 <= size →
  let '(cmds, r) := readblock offset size [] in
  Forall direct cmds
  ∧ (size mod 512 = 0 ∧ offset mod 512 = 0 → read_outcome data [] offset size r)
  ∧ (size mod 512 = 0 → offset mod 512 = 0 → offset + size <= zlen data → (∀ bs count skip, (dd bs count skip).1.1 = 0) →
       r = Ok (slice offset (offset + size) data)).
Proof.
  intros Hdd Ho Hs. unfold readblock.
  destruct (negb (size mod 512 =? 0) || negb (offset mod 512 =? 0)) eqn:E; [cbn; split; [constructor|]; split; [lia|lia]|].
  apply orb_false_iff in E as [E1%negb_false_iff E2%negb_false_iff].
  pose proof (readblock_loop_spec data 22 offset size size offset [] [] Hdd Hs ltac:(lia) Ho ltac:(lia) ltac:(lia) ltac:(lia) ltac:(constructor)) as H.
  destruct (readblock_loop 22 offset size size offset [] []) as [cmds r]. destruct H as [H1 H2]. split; [done|]. split; [done|].
  intros _ _ Hd Hrc. destruct r as [b|[]]; cbn in H2; try done; [by destruct H2 as [-> _]| |lia]. destruct H2 as (bs & c & sk & Hn). by rewrite Hrc in Hn.
Qed.
End Readblock.

(** A [dd] that always succeeds *)
Definition plain_dd (data : bytes) (bs count skip : Z) : dd_answer :=
  let out := slice (skip * bs) ((skip + count) * bs) data in (0, out, [49; 10; 49; 10] ++ dec (zlen out) ++ [10]).

Lemma digits_word l : l ≠ [] → Forall (fun c => is_digit c = true) l → first_word l = Some l.
Proof.
  intros Hne H. assert (Hw : take_word l = l).
  { clear Hne. induction H as [|c l Hc Hl IH]; cbn; [done|]. by rewrite (proj1 (is_digit_not_space c Hc)), IH. }
  unfold first_word. destruct H as [|c l Hc Hl]; [done|]. cbn [lstripp]. rewrite (proj1 (is_digit_not_space c Hc)). by rewrite Hw.
Qed.

Lemma plain_dd_law data : dd_law (plain_dd data) data.
Proof.
  constructor; intros bs count skip out err [= <- <-]; [done|]. set (n := zlen _). assert (0 <= n) by apply zlen_nonneg.
  pose proof (dec_is_digits n ltac:(done)) as Hd.
  exists [49], [49], (dec n), (dec n). split_and!.
  - cbn. assert (Hn : no_newline (dec n)).
    { rewrite Forall_forall in Hd. split; intros Hin; by specialize (Hd _ Hin). }
    pose proof (splitlines_line [] (dec n) [] Hn) as Hs. cbn in Hs. by rewrite Hs.
  - by apply digits_word, Hd; apply dec_nonempty.
  - rewrite py_int_all by (apply dec_nonempty || done). by rewrite dval_dec.
Qed.

Lemma readblock_range_witness :
  let data := zrepeat 4096 7 in
  readblock (plain_dd data) 512 1536 [] = ([(512, 3, 1)], Ok (slice 512 2048 data)).
Proof.
  intros data. pose proof (readblock_range (plain_dd data) data 512 1536 (plain_dd_law data) ltac:(lia) ltac:(lia)) as H.
  destruct (readblock (plain_dd data) 512 1536 []) as [cmds r] eqn:E. destruct H as (_ & _ & H).
  rewrite (H eq_refl eq_refl ltac:(vm_compute; discriminate) ltac:(done)) in E |- *.
  f_equal. apply (f_equal fst) in E. cbn in E. rewrite <- E. vm_compute. reflexivity.
Defined.

(** ** Event *)

(** [_registrar]: the functions by their identity with the flag [oneshot].  A function is kept by a weak reference: [alive] says
    whether it still exists. *)
Abbreviation registrar := (list (text * bool)) (only parsing).

Definition register (func : text) (oneshot : bool) (r : registrar) : registrar := dict_set func oneshot r.

(** [None] is KeyError. *)
Definition unregister (func : text) (r : registrar) : option registrar :=
  if dict_mem func r then Some (dict_del func r) else None.

(** [_emit]: the loop over the functions; the result is the registrar and the functions that are called, [None] is KeyError. *)
Fixpoint emit_loop (alive : text → bool) (ids : list text) (r : registrar) (called : list text) : option (registrar * list text) :=
  match ids with
  | [] => Some (r, called)
  | i :: ids =>
      match dict_get i r with
      | None => None
      | Some oneshot =>
          let r := if negb (alive i) || oneshot then dict_del i r else r in
          if negb (alive i) then emit_loop alive ids r called else emit_loop alive ids r (called ++ [i])
      end
  end.

Definition _emit (alive : text → bool) (r : registrar) : option (registrar * list text) := emit_loop alive (dict_keys r) r [].

(** The functions that stay registered *)
Definition stays (alive : text → bool) (kv : text * bool) : bool := alive kv.1 && negb kv.2.

Lemma dict_del_absent (k : text) (d : registrar) : k ∉ dict_keys d → dict_del k d = d.
Proof.
  induction d as [|[k' v] d IH]; [done|]. intros [Hne Hni]%not_elem_of_cons. unfold dict_del in *. rewrite filter_cons_True by (cbn; intros ->; done). by rewrite IH.
Qed.

Lemma dict_del_middle (k : text) v (d e : registrar) : k ∉ dict_keys d → k ∉ dict_keys e → dict_del k (d ++ (k, v) :: e) = d ++ e.
Proof.
  intros Hd He. pose proof (dict_del_absent k d Hd) as H1. pose proof (dict_del_absent k e He) as H2. unfold dict_del in *.
  rewrite filter_app, filter_cons_False by (cbn; naive_solver). by rewrite H1, H2.
Qed.

Lemma dict_get_middle (k : text) v (d e : registrar) : k ∉ dict_keys d → dict_get k (d ++ (k, v) :: e) = Some v.
Proof.
  induction d as [|[k' v'] d IH]; cbn; [by rewrite decide_True|]. intros [Hne Hni]%not_elem_of_cons. rewrite decide_False by done. auto.
Qed.

Lemma emit_loop_spec alive (d e : registrar) called :
  NoDup (dict_keys (d ++ e)) →
  emit_loop alive (dict_keys e) (d ++ e) called
  = Some (d ++ List.filter (stays alive) e, called ++ List.filter alive (dict_keys e)).
Proof.
  revert d called. induction e as [|[k oneshot] e IH]; intros d called Hn; cbn [dict_keys fmap list_fmap emit_loop fst List.filter]; [by rewrite !app_nil_r|].
  assert (Hk : k ∉ dict_keys d ∧ k ∉ dict_keys e ∧ NoDup (dict_keys (d ++ e))).
  { unfold dict_keys in *. rewrite fmap_app in *. cbn in Hn. apply NoDup_app in Hn as (Hd & Hx & [Hk He]%NoDup_cons).
    split_and!; [intros Hin; apply (Hx k Hin); by left|done|]. apply NoDup_app. split_and!; [done| |done]. intros x Hin Hin'. apply (Hx x Hin). by right. }
  destruct Hk as (Hkd & Hke & Hn'). rewrite dict_get_middle by done. unfold stays at 1. cbn [fst snd].
  assert (Hkeep : d ++ (k, oneshot) :: e = (d ++ [(k, oneshot)]) ++ e) by (by rewrite <- app_assoc).
  destruct (alive k), oneshot; cbn [negb orb andb]; rewrite ?dict_del_middle by done; fold (dict_keys e).
  - rewrite IH by done. by rewrite <- app_assoc.
  - rewrite Hkeep in *. rewrite IH by done. by rewrite <- !app_assoc.
  - by rewrite IH.
  - by rewrite IH.
Qed.

(** emitting an event calls every registered function that still exists exactly once, in the order of registration, and
    keeps exactly those of them that are not for one shot; it never raises. *)
Theorem event_emit alive (r : registrar) :
  NoDup (dict_keys r) → _emit alive r = Some (List.filter (stays alive) r, List.filter alive (dict_keys r)).
Proof. intros H. exact (emit_loop_spec alive [] r [] H). Qed.

Lemma event_emit_witness :
  _emit (fun f => bool_decide (f ≠ [2])) (register [3] false (register [2] false (register [1] true []))) = Some ([([3], false)], [[1]; [3]]).
Proof.
  rewrite (event_emit (fun f => bool_decide (f ≠ [2])) (register [3] false (register [2] false (register [1] true [])))).
  - vm_compute. reflexivity.
  - apply (bool_decide_unpack _). vm_compute. exact I.
Defined.

(** The registrar stays a dict: registering keeps keys distinct, so does what an emission leaves. *)
Lemma register_nodup f o (r : registrar) : NoDup (dict_keys r) → NoDup (dict_keys (register f o r)).
Proof. apply dict_set_nodup. Qed.
