(* ===== verification/Utils.v ===== *)
(** * Rollback, alternatives and small helpers: [utils.py]

    [RollbackContext] undoes the steps of a block, [CallbackChain] tries alternatives until one succeeds.  What the functions do
    is a parameter: each answers with how it ends. *)
From Stdlib Require Import ZArith Lia.
From stdpp Require Import base gmap list.
From S2P Require Import Prelude.

(** How a function ends: it returns, raises an Exception, or raises another BaseException. *)
Inductive ending := Returns | Raises (e : Z) | RaisesBase (e : Z).

(** ** RollbackContext *)

Section Rollback.
Context {F : Type} (run : F → ending).

(** [_finally] *)
Definition defer (f : F) (l : list F) : list F := l ++ [f].
Definition prependDefer (f : F) (l : list F) : list F := f :: l.

(** The loop of [__exit__]: the functions that are called and the exception that is kept, or a BaseException that stops it. *)
Fixpoint undo_loop (l : list F) (kept : option Z) : list F * (option Z + Z) :=
  match l with
  | [] => ([], inl kept)
  | f :: l =>
      match run f with
      | Returns => let (fs, r) := undo_loop l kept in (f :: fs, r)
      | Raises e => let (fs, r) := undo_loop l (match kept with Some e' => Some e' | None => Some e end) in (f :: fs, r)
      | RaisesBase e => ([f], inr e)
      end
  end.

(** The end of a [with] block: [exc] is the exception of the block; the result is the functions that were called and what the
    statement raises. *)
Definition rollback_exit (on_exception_only : bool) (l : list F) (exc : option Z) : list F * option Z :=
  if on_exception_only && bool_decide (exc = None) then ([], None)
  else match undo_loop l None with
       | (fs, inr e) => (fs, Some e)
       | (fs, inl kept) => (fs, match exc with Some e => Some e | None => kept end)
       end.

(** A block of steps, each of which defers its undo after it has succeeded, up to the one that fails. *)
Fixpoint block (steps : list (F * ending)) (l : list F) : list F * option Z :=
  match steps with
  | [] => (l, None)
  | (undo, Returns) :: steps => block steps (prependDefer undo l)
  | (_, Raises e) :: _ | (_, RaisesBase e) :: _ => (l, Some e)
  end.

Definition no_base (f : F) : bool := match run f with RaisesBase _ => false | _ => true end.

(** The first exception of the functions *)
Fixpoint first_raise (l : list F) : option Z :=
  match l with
  | [] => None
  | f :: l => match run f with Raises e => Some e | _ => first_raise l end
  end.

Lemma undo_loop_spec l kept :
  forallb no_base l = true → undo_loop l kept = (l, inl (match kept with Some e => Some e | None => first_raise l end)).
Proof.
  revert kept. induction l as [|f l IH]; intros kept; cbn; [by destruct kept|]. unfold no_base at 1.
  destruct (run f); cbn; intros Hl; [by rewrite IH|by rewrite IH; destruct kept|done].
Qed.

Lemma block_undos steps l :
  (block steps l).1 = reverse (take (length (block steps l).1 - length l) (fst <$> steps)) ++ l.
Proof.
  revert l. induction steps as [|[u r] steps IH]; intros l; cbn [block fmap list_fmap fst].
  - cbn. by rewrite take_nil.
  - destruct r; [|cbn; by rewrite Nat.sub_diag..]. assert (Hlen : (length (prependDefer u l) <= length (block steps (prependDefer u l)).1)%nat).
    { rewrite (IH (prependDefer u l)), length_app. lia. }
    specialize (IH (prependDefer u l)). unfold prependDefer in *. cbn [length] in *.
    replace (length (block steps (u :: l)).1 - length l)%nat with (S (length (block steps (u :: l)).1 - S (length l))) by lia.
    cbn [take]. rewrite reverse_cons, <- app_assoc. exact IH.
Qed.

(** a block of steps that each defer an undo in front is rolled back completely: when the undos raise no BaseException, the undos
    of exactly the steps that were done are called, once each and the last step's first, the exception of the failed
    step is raised whatever the undos raise, and without one the first exception of the undos is. *)
Theorem rollback_undoes steps only :
  let '(l, exc) := block steps [] in
  forallb no_base l = true →
  l = reverse (take (length l) (fst <$> steps))
  ∧ rollback_exit only l exc
    = if only && bool_decide (exc = None) then ([], None) else (l, match exc with Some e => Some e | None => first_raise l end).
Proof.
  pose proof (block_undos steps []) as Hb. destruct (block steps []) as [l exc]. cbn in Hb. rewrite app_nil_r, Nat.sub_0_r in Hb. intros Hl. split; [done|].
  unfold rollback_exit. by rewrite undo_loop_spec.
Qed.

(** An undo that raises a BaseException keeps the others from being called. *)
Lemma rollback_stops f l e only exc :
  run f = RaisesBase e → only && bool_decide (exc = None) = false → rollback_exit only (f :: l) exc = ([f], Some e).
Proof. intros Hf Ho. unfold rollback_exit. rewrite Ho. cbn. by rewrite Hf. Qed.
End Rollback.

Lemma rollback_undoes_witness :
  let run (f : nat) := if Nat.eqb f 1 then Raises 7 else Returns in
  forallb (no_base run) [1; 0]%nat = true ∧ rollback_exit run false [1; 0]%nat (Some 5) = ([1; 0]%nat, Some 5).
Proof.
  intros run. split; [reflexivity|]. exact (proj2 (rollback_undoes run [(0%nat, Returns); (1%nat, Returns); (2%nat, Raises 5)] false eq_refl)).
Defined.

(** ** CallbackChain *)

Section Chain.
Context {F : Type} (call : F → option bool).

(** [Callback.__call__]: [call] is without when the function raises an Exception. *)
Definition Callback_call (f : F) : bool := match call f with Some b => b | None => false end.

(** [run]: the callbacks that were called and those that are left *)
Fixpoint chain_run (l : list F) : list F * list F :=
  match l with
  | [] => ([], [])
  | f :: l => if Callback_call f then ([f], l) else let (fs, rest) := chain_run l in (f :: fs, rest)
  end.

(** A chain calls the callbacks in order up to the first that succeeds and no more; one that raises counts as one that fails. *)
Lemma chain_run_spec l :
  let '(fs, rest) := chain_run l in
  l = fs ++ rest
  ∧ ((∃ pre f, fs = pre ++ [f] ∧ Callback_call f = true ∧ Forall (fun g => Callback_call g = false) pre)
     ∨ (rest = [] ∧ Forall (fun g => Callback_call g = false) fs)).
Proof.
  induction l as [|f l IH]; cbn; [auto|]. destruct (Callback_call f) eqn:E; [split; [done|]; left; exists [], f; auto|].
  destruct (chain_run l) as [fs rest]. destruct IH as (-> & [(pre & g & -> & Hg & Hp)|[-> Hf]]); (split; [done|]); [left|right; auto].
  exists (f :: pre), g. auto.
Qed.
End Chain.

(** ** Numbers and sequences *)

(** [round]: for an integer [n] *)
Definition round (n size : Z) : Z := (n + size - 1) / size * size.

(** The least multiple of [size] that is not below [n] *)
Lemma round_least n size :
  0 < size → (size | round n size) ∧ n <= round n size < n + size ∧ ∀ m, (size | m) → n <= m → round n size <= m.
Proof.
  intros Hs. unfold round. pose proof (Z.div_mod (n + size - 1) size ltac:(lia)). pose proof (Z.mod_pos_bound (n + size - 1) size Hs).
  split_and!; [by exists ((n + size - 1) / size)|lia|lia|]. intros m [q ->] Hm. apply Z.mul_le_mono_nonneg_r; [lia|].
  apply Z.lt_succ_r, Z.div_lt_upper_bound; lia.
Qed.

(** [unique]: the keys of an ordered dict *)
Definition unique_step {A} `{EqDecision A} (seen : list A) (x : A) : list A := if decide (x ∈ seen) then seen else seen ++ [x].
Definition unique {A} `{EqDecision A} (l : list A) : list A := foldl unique_step [] l.

Lemma unique_from {A} `{EqDecision A} (l seen : list A) :
  NoDup seen → NoDup (foldl unique_step seen l) ∧ (∀ x, x ∈ foldl unique_step seen l ↔ x ∈ seen ∨ x ∈ l) ∧ ∃ l', foldl unique_step seen l = seen ++ l' ∧ l' `sublist_of` l.
Proof.
  revert seen. induction l as [|x l IH]; intros seen Hn; cbn.
  - split_and!; [done|set_solver|]. exists []. by rewrite app_nil_r.
  - unfold unique_step at 2 4 6. destruct (decide (x ∈ seen)) as [Hx|Hx].
    + destruct (IH seen Hn) as (H1 & H2 & l' & H3 & H4). split_and!; [done|intros y; rewrite H2; set_solver|]. exists l'. split; [done|by constructor].
    + destruct (IH (seen ++ [x])) as (H1 & H2 & l' & H3 & H4).
      { apply NoDup_app. split_and!; [done| |apply NoDup_singleton]. intros y Hy ->%list_elem_of_singleton. done. }
      split_and!; [done|intros y; rewrite H2; set_solver|]. exists (x :: l'). rewrite H3, <- app_assoc. split; [done|by constructor].
Qed.

(** Each item once, in the order of the first occurrences *)
Lemma unique_spec {A} `{EqDecision A} (l : list A) : NoDup (unique l) ∧ (∀ x, x ∈ unique l ↔ x ∈ l) ∧ unique l `sublist_of` l.
Proof.
  destruct (unique_from l []) as (H1 & H2 & l' & H3 & H4); [apply NoDup_nil_2|]. unfold unique. split_and!; [done|intros x; rewrite H2; set_solver|].
  by rewrite H3.
Qed.
