(* ===== verification/StompServer.v ===== *)
(** * The STOMP broker: [yajsonrpc/stompserver.py]

    Every connection has an adapter with its subscriptions and its outbox; all adapters of a server share the subscriptions by
    destination and the destinations of replies by request id.  A frame of a client is routed to subscribers and, on a request
    queue, to the JSON-RPC server, whose replies [StompServer.send] routes back.  [json.loads] is a parameter. *)
From Stdlib Require Import ZArith Lia.
From stdpp Require Import base gmap list strings.
From S2P Require Import Prelude Text Stomp JsonRpc.

(** A subscription, with an identity: two objects are equal only when they are the same. *)
Record Subscription := mkSub { oid : nat; client : nat; destination : text; subid : text; ack : text }.

#[export] Instance Subscription_eq_dec : EqDecision Subscription.
Proof. solve_decision. Defined.

(** [StompAdapterImpl] with the connection and the dispatcher it belongs to: [connected] is that of the dispatcher, [heartbeat] the
    outgoing and incoming intervals in milliseconds that it was given. *)
Record Adapter := mkAdapter {
  _outbox : list Frame;
  _sub_ids : gmap text Subscription;
  connected : bool;
  heartbeat : Z * Z;
}.

(** All adapters with what they share; [handled] are the messages that were given to the JSON-RPC server, with their connection and
    flow id, and [objects] counts the subscriptions that were made. *)
Record Broker := mkBroker {
  adapters : gmap nat Adapter;
  _sub_map : gmap text (list Subscription);
  _req_dest : list (json * option text);
  handled : list (nat * option text * option bytes);
  objects : nat;
}.

Inductive broker_error := KeyError | TypeError | AttributeError | ValueError.

Abbreviation BM A := (M Broker broker_error A).

Definition new_broker : Broker := mkBroker ∅ ∅ [] [] 0.

Definition new_adapter : Adapter := mkAdapter [] ∅ true (0, 0).

(** Names of commands and headers *)
Definition MESSAGE : text := str "MESSAGE".
Definition SEND : text := str "SEND".
Definition SUBSCRIBE : text := str "SUBSCRIBE".
Definition UNSUBSCRIBE : text := str "UNSUBSCRIBE".
Definition CONNECT : text := str "CONNECT".
Definition CONNECTED : text := str "CONNECTED".
Definition ERROR : text := str "ERROR".
Definition RECEIPT_CMD : text := str "RECEIPT".
Definition DISCONNECT : text := str "DISCONNECT".
Definition CONTENT_TYPE : text := str "content-type".
Definition FLOW_ID : text := str "ovirtCorrelationId".
Definition SUBSCRIPTION : text := str "subscription".
Definition RECEIPT : text := str "receipt".
Definition RECEIPT_ID : text := str "receipt-id".
Definition DESTINATION : text := str "destination".
Definition ACCEPT_VERSION : text := str "accept-version".
Definition REPLY_TO : text := str "reply-to".
Definition HEARTBEAT : text := str "heart-beat".

(** ** State *)

Definition set_adapters (m : gmap nat Adapter) (b : Broker) : Broker :=
  mkBroker m (_sub_map b) (_req_dest b) (handled b) (objects b).

Definition on_adapter (c : nat) (f : Adapter → Adapter) (b : Broker) : Broker :=
  set_adapters (alter f c (adapters b)) b.

Definition set_sub_map (m : gmap text (list Subscription)) (b : Broker) : Broker :=
  mkBroker (adapters b) m (_req_dest b) (handled b) (objects b).

Definition set_req_dest (d : list (json * option text)) (b : Broker) : Broker :=
  mkBroker (adapters b) (_sub_map b) d (handled b) (objects b).

(** [queue_frame], and [send_raw] of the connection *)
Definition queue_frame (f : Frame) (a : Adapter) : Adapter :=
  mkAdapter (_outbox a ++ [f]) (_sub_ids a) (connected a) (heartbeat a).

Definition send_raw (c : nat) (f : Frame) : Broker → Broker := on_adapter c (queue_frame f).

Definition set_sub_ids (m : gmap text Subscription) (a : Adapter) : Adapter :=
  mkAdapter (_outbox a) m (connected a) (heartbeat a).

Definition _send_error (msg : text) (c : nat) : Broker → Broker := send_raw c (mkFrame ERROR [] (Some msg)).

(** ** CONNECT *)

Definition parseHeartBeatHeader (v : text) : Z * Z :=
  match split_first 44 v with
  | None => (0, 0)
  | Some (x, y) => (default 0 (py_int_str x), default 0 (py_int_str y))
  end.

(** The interval is zero or at least a second. *)
Definition sane (x : Z) : Z := if negb (x =? 0) then Z.max x 1000 else x.

Definition _cmd_connect (c : nat) (f : Frame) (b : Broker) : Broker :=
  if negb (bool_decide (dict_get ACCEPT_VERSION (headers f) = Some (str "1.2"))) then
    on_adapter c (queue_frame (mkFrame ERROR [] (Some (str "Version unsupported")))) b
  else
    let (cx, cy) := parseHeartBeatHeader (default (str "0,0") (dict_get HEARTBEAT (headers f))) in
    let cx := sane cx in
    let cy := sane cy in
    let resp := mkFrame CONNECTED [(str "version", str "1.2"); (HEARTBEAT, str_d cy ++ [44] ++ str_d cx)] None in
    on_adapter c (fun a => queue_frame resp (mkAdapter (_outbox a) (_sub_ids a) (connected a) (cy, if negb (cx =? 0) then cx else (heartbeat a).2))) b.

(** ** Subscriptions *)

(** [not s] of a header *)
Definition empty (s : option text) : bool := match s with None | Some [] => true | _ => false end.

Definition sub_ids_of (c : nat) (b : Broker) : gmap text Subscription :=
  match adapters b !! c with Some a => _sub_ids a | None => ∅ end.

(** [self._sub_dests[d]] of the default dict, when it is read *)
Definition subs_at (d : text) (b : Broker) : list Subscription := default [] (_sub_map b !! d).

Definition _cmd_subscribe (c : nat) (f : Frame) (b : Broker) : Broker :=
  let dest := dict_get (str "destination") (headers f) in
  let id := dict_get (str "id") (headers f) in
  if empty dest || empty id then _send_error (str "Missing destination or subscription id header") c b
  else
    let dest := default [] dest in
    let id := default [] id in
    match sub_ids_of c b !! id with
    | Some _ => _send_error (str "Subscription id already exists") c b
    | None =>
        let sub := mkSub (objects b) c dest id (default (str "auto") (dict_get (str "ack") (headers f))) in
        let b := mkBroker (adapters b) (<[dest := subs_at dest b ++ [sub]]> (_sub_map b)) (_req_dest b) (handled b) (S (objects b)) in
        on_adapter c (fun a => set_sub_ids (<[id := sub]> (_sub_ids a)) a) b
    end.

Fixpoint remove_one (s : Subscription) (l : list Subscription) : list Subscription :=
  match l with [] => [] | x :: l => if decide (x = s) then l else x :: remove_one s l end.

Definition _remove_subscription (s : Subscription) (b : Broker) : Broker :=
  let subs := subs_at (destination s) b in
  if Nat.eqb (length subs) 1 then set_sub_map (delete (destination s) (_sub_map b)) b
  else set_sub_map (<[destination s := if bool_decide (s ∈ subs) then remove_one s subs else subs]> (_sub_map b)) b.

Definition _cmd_unsubscribe (c : nat) (f : Frame) (b : Broker) : Broker :=
  let id := dict_get (str "id") (headers f) in
  if empty id then _send_error (str "Missing id header") c b
  else
    let id := default [] id in
    match sub_ids_of c b !! id with
    | None => b
    | Some s => _remove_subscription s (on_adapter c (fun a => set_sub_ids (delete id (_sub_ids a)) a) b)
    end.

Definition remove_subscriptions (c : nat) (b : Broker) : Broker :=
  let b := foldl (fun b '(_, s) => _remove_subscription s b) b (map_to_list (sub_ids_of c b)) in
  on_adapter c (set_sub_ids ∅) b.

(** [None] is the KeyError of the missing header. *)
Definition _cmd_disconnect (c : nat) (f : Frame) (b : Broker) : option Broker :=
  match dict_get RECEIPT (headers f) with
  | None => None
  | Some [] => Some b
  | Some r => Some (send_raw c (mkFrame RECEIPT_CMD [(RECEIPT_ID, r)] None) b)
  end.

(** [handle_close], [handle_timeout] and [handle_error]: [connection.close()] and [remove_subscriptions] *)
Definition handle_close (c : nat) (b : Broker) : Broker :=
  let b := on_adapter c (fun a => mkAdapter (_outbox a) (_sub_ids a) false (heartbeat a)) b in
  remove_subscriptions c (remove_subscriptions c b).

(** ** SEND *)

(** [".".join(l)] *)
Fixpoint join_dots (l : list text) : text :=
  match l with [] => [] | [s] => s | s :: l => s ++ 46 :: join_dots l end.

Definition find_subscribers (dest : text) (b : Broker) : list Subscription :=
  let segments := split_all 46 dest in
  concat (map (fun parts => default [] (_sub_map b !! join_dots (take (S parts) segments))) (seq 0 (length segments))).

Definition _forward_frame (s : Subscription) (f : Frame) : Broker → Broker :=
  send_raw (client s) (mkFrame MESSAGE (dict_update (headers f) [(SUBSCRIPTION, subid s)]) (body f)).

(** [self._req_dest[id] = dest] and [del self._req_dest[id]] *)
Fixpoint req_set (k : json) (v : option text) (d : list (json * option text)) : list (json * option text) :=
  match d with
  | [] => [(k, v)]
  | (k', v') :: d' => if key_eq k k' then (k', v) :: d' else (k', v') :: req_set k v d'
  end.

Fixpoint req_get (k : json) (d : list (json * option text)) : option (option text) :=
  match d with [] => None | (k', v) :: d => if key_eq k k' then Some v else req_get k d end.

Definition req_del (k : json) (d : list (json * option text)) : list (json * option text) :=
  filter (fun kv => key_eq k kv.1 = false) d.

(** [_handle_destination]: what is recorded until an exception, if there is one, which the caller passes over *)
Fixpoint _handle_destination (dest : option text) (request : json) (d : list (json * option text)) : list (json * option text) * bool :=
  match request with
  | JList l =>
      (fix go (l : list json) (d : list (json * option text)) :=
         match l with
         | [] => (d, true)
         | r :: l => match _handle_destination dest r d with (d, true) => go l d | (d, false) => (d, false) end
         end) l d
  | JObj o =>
      let id := obj_get (str "id") JNull o in
      if hashable id then (req_set id dest d, true) else (d, false)
  | _ => (d, false)
  end.

Section Server.
(** [json.loads]: [None] is an exception *)
Context (loads : bytes → option json).
(** [config.get('addresses', 'request_queues').split(",")] *)
Context (request_queues : list text).

Definition _handle_internal (c : nat) (dest : option text) (flow_id : option text) (request : option bytes) (b : Broker) : Broker :=
  let d := match request ≫= loads with Some r => (_handle_destination dest r (_req_dest b)).1 | None => _req_dest b end in
  mkBroker (adapters b) (_sub_map b) d (handled b ++ [(c, flow_id, request)]) (objects b).

Definition on_queue (dest : text) : bool :=
  existsb (fun queue => bool_decide (dest = queue) || prefixb (queue ++ [46]) dest) request_queues.

(** [None] is the AttributeError of a missing destination. *)
Definition _cmd_send (c : nat) (f : Frame) (b : Broker) : option Broker :=
  match dict_get DESTINATION (headers f) with
  | None => None
  | Some dest =>
      let subs := find_subscribers dest b in
      let b := foldl (fun b s => _forward_frame s f b) b subs in
      if on_queue dest then
        Some (_handle_internal c (dict_get REPLY_TO (headers f)) (dict_get FLOW_ID (headers f)) (body f) b)
      else if bool_decide (subs = []) then Some (_send_error (str "Subscription not available") c b)
      else Some b
  end.

(** [handle_frame]: a KeyError of the table or of a handler is answered by a call of [handle_error] without its argument. *)
Definition handle_frame (c : nat) (f : Frame) : BM unit := fun b =>
  if bool_decide (command f = CONNECT) then (_cmd_connect c f b, Ok ())
  else if bool_decide (command f = SEND) then
    match _cmd_send c f b with Some b => (b, Ok ()) | None => (b, Raise AttributeError) end
  else if bool_decide (command f = SUBSCRIBE) then (_cmd_subscribe c f b, Ok ())
  else if bool_decide (command f = UNSUBSCRIBE) then (_cmd_unsubscribe c f b, Ok ())
  else if bool_decide (command f = DISCONNECT) then
    match _cmd_disconnect c f b with Some b => (b, Ok ()) | None => (b, Raise TypeError) end
  else (b, Raise TypeError).

(** An exception of [handle_read] makes the reactor call [handle_error] of the dispatcher, which closes the connection. *)
Definition receive (c : nat) (f : Frame) (b : Broker) : Broker :=
  match handle_frame c f b with
  | (b, Ok _) => b
  | (b, Raise _) => handle_close c b
  end.

(** [StompServer.send] *)
Definition reply_frame (dest : text) (message : bytes) (s : Subscription) : Frame :=
  mkFrame MESSAGE [(DESTINATION, dest); (CONTENT_TYPE, str "application/json"); (SUBSCRIPTION, subid s)] (Some message).

Definition send_open (dest : text) (message : bytes) (b : Broker) (s : Subscription) : Broker :=
  match adapters b !! client s with
  | Some a => if connected a then send_raw (client s) (reply_frame dest message s) b else b
  | None => b
  end.

(** The destination [None] is a key like any other; nobody subscribes to it. *)
Definition send (message : bytes) (dest : text) : BM unit := fun b =>
  match loads message with
  | None => (b, Raise ValueError)
  | Some (JObj o) =>
      let id := obj_get (str "id") JNull o in
      if negb (hashable id) then (b, Raise TypeError)
      else
        let '(dest, b) := match req_get id (_req_dest b) with
                          | Some d => (d, set_req_dest (req_del id (_req_dest b)) b)
                          | None => (Some dest, b)
                          end in
        match dest with
        | None => (b, Ok ())
        | Some d => (foldl (send_open d message) (set_sub_map (<[d := subs_at d b]> (_sub_map b)) b) (subs_at d b), Ok ())
        end
  | Some _ => (b, Raise ValueError)
  end.

(** [add_client] *)
Definition add_client (c : nat) (b : Broker) : Broker := set_adapters (<[c := new_adapter]> (adapters b)) b.
End Server.
