(* ===== verification/StompServerSpec.v ===== *)
(** * The STOMP broker: theorems

    The subscriptions by destination are those of the connections, a message reaches exactly the subscribers of its destination
    and of the parents of it, and a reply the subscribers of the destination that its request named. *)
From Stdlib Require Import ZArith Lia.
From stdpp Require Import base gmap list strings relations.
From S2P Require Import Prelude Text Stomp JsonRpc JsonRpcSpec StompServer.

(** ** Destinations and their parents *)

Lemma split_all_nonempty c s : split_all c s ≠ [].
Proof. destruct s as [|x s]; cbn; [done|]. destruct (split_all c s); [done|]. by destruct (x =? c). Qed.

Lemma split_all_app c p r : split_all c (p ++ c :: r) = split_all c p ++ split_all c r.
Proof.
  induction p as [|x p IH]; cbn.
  - rewrite Z.eqb_refl. destruct (split_all c r) eqn:E; [by destruct (split_all_nonempty c r)|done].
  - rewrite IH. destruct (split_all c p) as [|w ws] eqn:E; [by destruct (split_all_nonempty c p)|]. cbn. by destruct (x =? c).
Qed.

Lemma join_dots_cons s l : l ≠ [] → join_dots (s :: l) = s ++ 46 :: join_dots l.
Proof. by destruct l. Qed.

Lemma join_dots_app l1 l2 : l1 ≠ [] → l2 ≠ [] → join_dots (l1 ++ l2) = join_dots l1 ++ 46 :: join_dots l2.
Proof.
  intros H1 H2. induction l1 as [|s l1 IH]; [done|]. destruct l1 as [|s' l1]; [cbn [app]; by rewrite join_dots_cons|].
  change ((s :: s' :: l1) ++ l2) with (s :: ((s' :: l1) ++ l2)). rewrite !join_dots_cons, IH by done. by rewrite <- app_assoc.
Qed.

Lemma join_split s : join_dots (split_all 46 s) = s.
Proof.
  induction s as [|x s IH]; cbn; [done|]. destruct (split_all 46 s) as [|w ws] eqn:E; [by destruct (split_all_nonempty 46 s)|].
  destruct (Z.eqb_spec x 46) as [->|]; [by rewrite join_dots_cons, IH|]. rewrite <- IH. by destruct ws.
Qed.

(** [d] is the destination or one of its parents. *)
Definition covers (d dest : text) : Prop := dest = d ∨ ∃ r, dest = d ++ 46 :: r.

(** The destination up to a segment is it or a parent, and all parents are found so. *)
Lemma prefix_covers dest d :
  covers d dest ↔ ∃ k, (k < length (split_all 46 dest))%nat ∧ d = join_dots (take (S k) (split_all 46 dest)).
Proof.
  split.
  - assert (Hlen : ∀ s, (0 < length (split_all 46 s))%nat) by (intros s; pose proof (split_all_nonempty 46 s); destruct (split_all 46 s); [done|cbn; lia]).
    intros [->|[r ->]]; exists (length (split_all 46 d) - 1)%nat; specialize (Hlen d); replace (S (length (split_all 46 d) - 1)) with (length (split_all 46 d)) by lia.
    + split; [lia|]. by rewrite firstn_all, join_split.
    + rewrite split_all_app, length_app. split; [lia|]. by rewrite take_app_length, join_split.
  - intros (k & Hk & ->). set (l := split_all 46 dest) in *. destruct (decide (S k = length l)) as [He|Hne].
    + left. rewrite He, firstn_all. symmetry. apply join_split.
    + right. exists (join_dots (drop (S k) l)). rewrite <- join_dots_app, take_drop; [symmetry; apply join_split| |].
      * destruct l; [cbn in Hk; lia|done].
      * intros Hd. apply (f_equal length) in Hd. rewrite length_drop in Hd. cbn in Hd. lia.
Qed.

(** Longer prefixes are different. *)
Lemma prefix_length (l : list text) j k :
  (j < k)%nat → (k <= length l)%nat → (0 < j)%nat → (length (join_dots (take j l)) < length (join_dots (take k l)))%nat.
Proof.
  intros Hj Hk Hp. replace (take k l) with (take j l ++ take (k - j) (drop j l)) by (rewrite take_take_drop; f_equal; lia).
  rewrite join_dots_app, length_app; [cbn; lia| |].
  - destruct l; [cbn in Hk; lia|]. by destruct j; [lia|].
  - intros H. apply (f_equal length) in H. rewrite length_take, length_drop in H. cbn in H. lia.
Qed.

(** ** Subscriptions *)

Record broker_inv (b : Broker) : Prop := {
  v_in : ∀ d s, s ∈ subs_at d b → destination s = d ∧ sub_ids_of (client s) b !! subid s = Some s;
  v_out : ∀ c i s, sub_ids_of c b !! i = Some s → client s = c ∧ subid s = i ∧ s ∈ subs_at (destination s) b;
  v_nodup : ∀ d, NoDup (subs_at d b);
  v_fresh : ∀ d s, s ∈ subs_at d b → (oid s < objects b)%nat;
}.

(** A connection that is closed has no subscription. *)
Definition closed_ok (b : Broker) : Prop := ∀ c a, adapters b !! c = Some a → connected a = false → _sub_ids a = ∅.

(** Two states with the same subscriptions and connections *)
Definition same_subs (b b' : Broker) : Prop :=
  (∀ d, subs_at d b' = subs_at d b) ∧ objects b' = objects b
  ∧ ∀ c, (fun a => (_sub_ids a, connected a)) <$> adapters b' !! c = (fun a => (_sub_ids a, connected a)) <$> adapters b !! c.

#[export] Instance same_subs_equiv : Equivalence same_subs.
Proof.
  split.
  - intros b. by split_and!.
  - intros b b' (H1 & H2 & H3). by split_and!.
  - intros b1 b2 b3 (H1 & H2 & H3) (K1 & K2 & K3). split_and!; [intros d; by rewrite K1|by rewrite K2|intros c; by rewrite K3].
Qed.

#[export] Instance sub_ids_proper c : Proper (same_subs ==> eq) (sub_ids_of c).
Proof. intros b b' (_ & _ & H). specialize (H c). unfold sub_ids_of. by destruct (adapters b' !! c), (adapters b !! c); simplify_eq/=. Qed.

#[export] Instance broker_inv_proper : Proper (same_subs ==> iff) broker_inv.
Proof.
  assert (Himp : ∀ b b', same_subs b b' → broker_inv b → broker_inv b').
  { intros b b' Hs. pose proof Hs as (H1 & H2 & H3). intros [V1 V2 V3 V4]. constructor.
    - intros d s. rewrite H1, <- (sub_ids_proper (client s) b b' Hs). apply V1.
    - intros c i s. rewrite <- (sub_ids_proper c b b' Hs), H1. apply V2.
    - intros d. rewrite H1. apply V3.
    - intros d s. rewrite H1, H2. apply V4. }
  intros b b' Hs. split; apply Himp; [done|by symmetry].
Qed.

#[export] Instance closed_ok_proper : Proper (same_subs ==> iff) closed_ok.
Proof.
  assert (Himp : ∀ b b', same_subs b b' → closed_ok b → closed_ok b').
  { intros b b' (_ & _ & H3) V5 c a Ha Hc. specialize (H3 c). rewrite Ha in H3. destruct (adapters b !! c) as [a0|] eqn:E; cbn in H3; [|done].
    injection H3 as -> Hc0. apply (V5 c a0 E). congruence. }
  intros b b' Hs. split; apply Himp; [done|by symmetry].
Qed.

Lemma same_inv b b' : same_subs b b' → broker_inv b ∧ closed_ok b → broker_inv b' ∧ closed_ok b'.
Proof. intros Hs H. by rewrite <- Hs. Qed.

(** Queueing frames changes no subscription. *)
Lemma on_adapter_same c f b :
  (∀ a, _sub_ids (f a) = _sub_ids a ∧ connected (f a) = connected a) → same_subs b (on_adapter c f b).
Proof.
  intros Hf. split_and!; [done|done|]. intros c'. cbn. destruct (decide (c' = c)) as [->|Hne]; [|by rewrite lookup_alter_ne].
  rewrite lookup_alter_eq. destruct (adapters b !! c) as [a|]; [|done]. cbn. by destruct (Hf a) as [-> ->].
Qed.

Lemma send_raw_same c f b : same_subs b (send_raw c f b).
Proof. by apply on_adapter_same. Qed.

Lemma sub_ids_alter c f b c' :
  sub_ids_of c' (on_adapter c f b) = if decide (c' = c) then match adapters b !! c with Some a => _sub_ids (f a) | None => ∅ end else sub_ids_of c' b.
Proof.
  unfold sub_ids_of. cbn. case_decide as H; [subst; rewrite lookup_alter_eq; by destruct (adapters b !! c)|by rewrite lookup_alter_ne].
Qed.

Lemma elem_remove_one s l t : NoDup l → t ∈ remove_one s l ↔ t ∈ l ∧ t ≠ s.
Proof.
  induction l as [|x l IH]; cbn; [set_solver|]. intros [Hx Hn]%NoDup_cons. case_decide as Hd; [subst; set_solver|].
  rewrite !elem_of_cons, IH by done. set_solver.
Qed.

Lemma nodup_remove_one s l : NoDup l → NoDup (remove_one s l).
Proof.
  induction l as [|x l IH]; cbn; [done|]. intros [Hx Hn]%NoDup_cons. case_decide; [done|]. apply NoDup_cons. split; [|auto].
  rewrite elem_remove_one by done. naive_solver.
Qed.

Lemma subs_at_insert d l b d' : subs_at d' (set_sub_map (<[d := l]> (_sub_map b)) b) = if decide (d' = d) then l else subs_at d' b.
Proof. unfold subs_at. cbn. case_decide; [subst; by rewrite lookup_insert_eq|by rewrite lookup_insert_ne]. Qed.

(** Removing a subscription that is there *)
Lemma subs_at_remove s b d :
  s ∈ subs_at (destination s) b →
  subs_at d (_remove_subscription s b) = if decide (d = destination s) then remove_one s (subs_at d b) else subs_at d b.
Proof.
  intros Hs. unfold _remove_subscription. destruct (Nat.eqb_spec (length (subs_at (destination s) b)) 1) as [Hl|Hl].
  - unfold subs_at in *. cbn. case_decide as Hd; [subst|by rewrite lookup_delete_ne]. rewrite lookup_delete_eq. cbn.
    destruct (default [] (_sub_map b !! destination s)) as [|x [|]] eqn:E; cbn in *; [lia| |lia]. apply list_elem_of_singleton in Hs as ->. by rewrite decide_True.
  - rewrite subs_at_insert, bool_decide_true by done. by case_decide; subst.
Qed.

Lemma remove_subscription_frame s b :
  adapters (_remove_subscription s b) = adapters b ∧ objects (_remove_subscription s b) = objects b.
Proof. unfold _remove_subscription. by destruct (Nat.eqb _ _). Qed.

Lemma unsubscribe_inv c f b : broker_inv b ∧ closed_ok b → broker_inv (_cmd_unsubscribe c f b) ∧ closed_ok (_cmd_unsubscribe c f b).
Proof.
  intros H. pose proof H as [[V1 V2 V3 V4] V5]. unfold _cmd_unsubscribe. destruct (empty _); [by apply (same_inv b); [apply send_raw_same|]|].
  set (i := default [] _). destruct (sub_ids_of c b !! i) as [s|] eqn:E; [|done]. destruct (V2 c i s E) as (Hc & Hi & Hs).
  set (b1 := on_adapter c _ b). assert (Hs1 : s ∈ subs_at (destination s) b1) by done.
  destruct (remove_subscription_frame s b1) as [Ha Ho].
  assert (Hids : ∀ c', sub_ids_of c' (_remove_subscription s b1) = if decide (c' = c) then delete i (sub_ids_of c b) else sub_ids_of c' b).
  { intros c'. unfold sub_ids_of at 1. rewrite Ha. fold (sub_ids_of c' b1). unfold b1. rewrite sub_ids_alter. case_decide; [|done].
    unfold sub_ids_of in *. destruct (adapters b !! c); [done|]. by rewrite lookup_empty in E. }
  split; [constructor|].
  + intros d t. rewrite subs_at_remove, Hids by done. change (subs_at d b1) with (subs_at d b). intros Ht.
    assert (t ∈ subs_at d b ∧ t ≠ s) as [Ht' Hne].
    { case_decide as Hd; [by apply elem_remove_one in Ht|]. split; [done|]. intros ->. by destruct (V1 d s Ht). }
    destruct (V1 d t Ht') as [Hd Hid]. split; [done|]. destruct (decide (client t = c)) as [Hct|Hct]; [|done]. rewrite lookup_delete_ne; [by rewrite <- Hct|]. congruence.
  + intros c' j t. rewrite Hids. intros Ht. assert (Ht' : sub_ids_of c' b !! j = Some t ∧ (c' = c → j ≠ i)).
    { case_decide as Hd; [subst c'; by apply lookup_delete_Some in Ht as [? ?]|done]. }
    destruct Ht' as [Ht' Hne]. destruct (V2 c' j t Ht') as (Hct & Hjt & Hin). split_and!; [done|done|]. rewrite subs_at_remove by done.
    change (subs_at (destination t) b1) with (subs_at (destination t) b). destruct (decide (destination t = destination s)) as [Hd|Hd]; [|done]. apply elem_remove_one; [done|]. split; [done|].
    intros ->. apply Hne; congruence.
  + intros d. rewrite subs_at_remove by done. case_decide; [apply nodup_remove_one|]; apply V3.
  + intros d t. rewrite subs_at_remove, Ho by done. case_decide; [intros [Ht _]%elem_remove_one; [|apply V3]|intros Ht]; by apply (V4 d).
  + intros c' a. rewrite Ha. cbn. rewrite lookup_alter_Some. intros [(-> & a0 & E0 & ->)|[_ ?]] Hcn; [|by apply (V5 c')]. cbn in *.
    rewrite (V5 _ a0 E0 Hcn). apply delete_empty.
Qed.

(** Removing all subscriptions of a list *)
Lemma fold_remove (l : list (text * Subscription)) b :
  NoDup l.*2 → (∀ p, p ∈ l → p.2 ∈ subs_at (destination p.2) b) → (∀ d, NoDup (subs_at d b)) → (∀ d t, t ∈ subs_at d b → destination t = d) →
  let b' := foldl (fun b '(_, s) => _remove_subscription s b) b l in
  adapters b' = adapters b ∧ objects b' = objects b ∧ (∀ d, NoDup (subs_at d b')) ∧ ∀ d t, t ∈ subs_at d b' ↔ t ∈ subs_at d b ∧ t ∉ l.*2.
Proof.
  revert b. induction l as [|[i s] l IH]; intros b Hn Hin Hnd Hd; cbn; [split_and!; [done|done|done|set_solver]|].
  cbn in Hn. apply NoDup_cons in Hn as [Hs Hn]. assert (Hsin : s ∈ subs_at (destination s) b) by (apply (Hin (i, s)); by left).
  assert (Hel : ∀ d t, t ∈ subs_at d (_remove_subscription s b) ↔ t ∈ subs_at d b ∧ t ≠ s).
  { intros d t. rewrite subs_at_remove by done. destruct (decide (d = destination s)) as [->|Hne]; [by apply elem_remove_one|].
    split; [|naive_solver]. intros Ht. split; [done|]. intros ->. by rewrite (Hd d s Ht) in Hne. }
  destruct (remove_subscription_frame s b) as [Ha Ho].
  destruct (IH (_remove_subscription s b)) as (K1 & K2 & K3 & K4).
  - done.
  - intros p Hp. apply Hel. split; [apply Hin; by right|]. intros He. apply Hs. rewrite <- He. by apply list_elem_of_fmap_2.
  - intros d. rewrite subs_at_remove by done. destruct (decide (d = destination s)); [by apply nodup_remove_one|done].
  - intros d t [Ht _]%Hel. auto.
  - split_and!; [congruence|congruence|done|]. intros d t. rewrite K4, Hel, not_elem_of_cons. naive_solver.
Qed.

(** A connection that is closed loses its subscriptions, and no other does. *)
Lemma remove_all_spec c b :
  broker_inv b →
  let b' := remove_subscriptions c b in
  broker_inv b' ∧ (∀ d t, t ∈ subs_at d b' ↔ t ∈ subs_at d b ∧ client t ≠ c) ∧ (∀ c', adapters b' !! c' = (if decide (c' = c) then set_sub_ids ∅ else id) <$> adapters b !! c').
Proof.
  intros [V1 V2 V3 V4]. unfold remove_subscriptions. set (l := map_to_list (sub_ids_of c b)).
  assert (Hl : ∀ p, p ∈ l → sub_ids_of c b !! p.1 = Some p.2) by (intros [i s] Hp; by apply elem_of_map_to_list in Hp).
  assert (Hmem : ∀ d t, t ∈ subs_at d b → t ∈ l.*2 ↔ client t = c).
  { intros d t Ht. split.
    - intros ([i s] & -> & Hp)%list_elem_of_fmap. by destruct (V2 c i s (Hl _ Hp)).
    - intros <-. destruct (V1 d t Ht) as [_ Hi]. apply list_elem_of_fmap. exists (subid t, t). split; [done|]. by apply elem_of_map_to_list. }
  destruct (fold_remove l b) as (K1 & K2 & K3 & K4).
  - apply NoDup_fmap_2_strong; [|apply NoDup_map_to_list]. intros [i1 s1] [i2 s2] H1 H2 E. cbn in E. subst s2.
    destruct (V2 c i1 s1 (Hl _ H1)) as (_ & <- & _), (V2 c i2 s1 (Hl _ H2)) as (_ & <- & _). done.
  - intros p Hp. by apply (V2 c p.1 p.2 (Hl p Hp)).
  - done.
  - intros d t Ht. by apply V1.
  - set (b1 := foldl _ b l) in *. assert (Hsub : ∀ d t, t ∈ subs_at d (on_adapter c (set_sub_ids ∅) b1) ↔ t ∈ subs_at d b ∧ client t ≠ c).
    { intros d t. change (subs_at d (on_adapter c (set_sub_ids ∅) b1)) with (subs_at d b1). rewrite K4. split; intros [H1 H2]; (split; [done|]); by rewrite <- (Hmem d t H1) in *. }
    assert (Hids : ∀ c', sub_ids_of c' (on_adapter c (set_sub_ids ∅) b1) = if decide (c' = c) then ∅ else sub_ids_of c' b).
    { intros c'. rewrite sub_ids_alter, K1. case_decide; [by destruct (adapters b !! c)|]. unfold sub_ids_of. by rewrite K1. }
    split_and!; [|done|].
    2:{ intros c'. cbn. rewrite K1. destruct (decide (c' = c)) as [->|]; [by rewrite lookup_alter_eq|]. rewrite lookup_alter_ne by done. by destruct (adapters b !! c'). }
    constructor.
    + intros d t [Ht Hc]%Hsub. destruct (V1 d t Ht). rewrite Hids, decide_False by done. done.
    + intros c' i t. rewrite Hids. case_decide as Hc'; [by rewrite lookup_empty|]. intros Ht. destruct (V2 c' i t Ht) as (? & ? & ?). split_and!; [done|done|].
      apply Hsub. split; [done|congruence].
    + intros d. apply K3.
    + intros d t [Ht _]%Hsub. cbn. rewrite K2. by apply (V4 d).
Qed.

Lemma inv_ext b b' :
  (∀ d, subs_at d b' = subs_at d b) → (∀ c, sub_ids_of c b' = sub_ids_of c b) → objects b' = objects b → broker_inv b → broker_inv b'.
Proof.
  intros H1 H2 H3 [V1 V2 V3 V4]. constructor.
  - intros d s. rewrite H1, H2. apply V1.
  - intros c i s. rewrite H1, H2. apply V2.
  - intros d. rewrite H1. apply V3.
  - intros d s. rewrite H1, H3. apply V4.
Qed.

Lemma handle_close_inv c b :
  broker_inv b ∧ closed_ok b →
  (broker_inv (handle_close c b) ∧ closed_ok (handle_close c b))
  ∧ (∀ d t, t ∈ subs_at d (handle_close c b) ↔ t ∈ subs_at d b ∧ client t ≠ c)
  ∧ (∀ a, adapters (handle_close c b) !! c = Some a → connected a = false).
Proof.
  intros [H Hk]. unfold handle_close. set (b1 := on_adapter c _ b).
  assert (H1 : broker_inv b1).
  { apply (inv_ext b); [done| |done|done]. intros c'. unfold b1. rewrite sub_ids_alter. case_decide; [subst|done]. unfold sub_ids_of. by destruct (adapters b !! c). }
  destruct (remove_all_spec c b1 H1) as (K1 & K2 & K3). destruct (remove_all_spec c _ K1) as (L1 & L2 & L3).
  set (b2 := remove_subscriptions c b1) in *. set (b3 := remove_subscriptions c b2) in *.
  assert (Ha : ∀ c', adapters b3 !! c' = (if decide (c' = c) then (fun a => mkAdapter (_outbox a) ∅ false (heartbeat a)) else id) <$> adapters b !! c').
  { intros c'. rewrite L3, K3. cbn. destruct (decide (c' = c)) as [->|Hne].
    - rewrite lookup_alter_eq. by destruct (adapters b !! c).
    - rewrite lookup_alter_ne by done. by destruct (adapters b !! c'). }
  split_and!; [done| | |].
  - intros c' a. rewrite Ha. intros (a0 & E & ->)%fmap_Some Hc. destruct (decide (c' = c)); [done|]. by apply (Hk c' a0).
  - intros d t. rewrite L2, K2. change (subs_at d b1) with (subs_at d b). naive_solver.
  - intros a. rewrite Ha, decide_True by done. intros (a0 & _ & ->)%fmap_Some. done.
Qed.

Lemma subscribe_inv c f b a :
  adapters b !! c = Some a → connected a = true → broker_inv b ∧ closed_ok b → broker_inv (_cmd_subscribe c f b) ∧ closed_ok (_cmd_subscribe c f b).
Proof.
  intros Ea Hc H. pose proof H as [[V1 V2 V3 V4] V5]. unfold _cmd_subscribe. destruct (_ || _); [by apply (same_inv b); [apply send_raw_same|]|].
  
  set (d0 := default [] (dict_get (str "destination") (headers f))). set (i := default [] (dict_get (str "id") (headers f))). destruct (sub_ids_of c b !! i) as [s0|] eqn:E; [by apply (same_inv b); [apply send_raw_same|]|].
  set (s := mkSub _ _ _ _ _). set (b1 := mkBroker _ _ _ _ _). set (b2 := on_adapter c _ b1).
  assert (Hsub : ∀ d, subs_at d b2 = if decide (d = d0) then subs_at d b ++ [s] else subs_at d b).
  { intros d. unfold subs_at. cbn. case_decide; [subst; by rewrite lookup_insert_eq|by rewrite lookup_insert_ne]. }
  assert (Hids : ∀ c', sub_ids_of c' b2 = if decide (c' = c) then <[i := s]> (sub_ids_of c b) else sub_ids_of c' b).
  { intros c'. unfold b2. rewrite sub_ids_alter. cbn. unfold sub_ids_of. by rewrite Ea. }
  assert (Hel : ∀ d t, t ∈ subs_at d b2 ↔ t ∈ subs_at d b ∨ (t = s ∧ d = d0)).
  { intros d t. rewrite Hsub. destruct (decide (d = d0)) as [->|]; [rewrite elem_of_app, list_elem_of_singleton|]; naive_solver. }
  split; [constructor|].
  - intros d t [Ht|[-> ->]]%Hel; [|split; [done|]; rewrite Hids, decide_True by done; apply lookup_insert_eq].
    destruct (V1 d t Ht) as [Hd Hi]. split; [done|]. rewrite Hids. destruct (decide (client t = c)) as [Hct|]; [|done].
    rewrite Hct in Hi. rewrite lookup_insert_ne; [done|]. intros He. rewrite <- He in Hi. congruence.
  - intros c' j t. rewrite Hids. destruct (decide (c' = c)) as [->|Hne].
    + intros [[<- <-]|[Hji Ht]]%lookup_insert_Some; [split_and!; [done|done|]; apply Hel; by right|].
      destruct (V2 c j t Ht) as (? & ? & ?). split_and!; [done|done|]. apply Hel. by left.
    + intros Ht. destruct (V2 c' j t Ht) as (? & ? & ?). split_and!; [done|done|]. apply Hel. by left.
  - intros d. rewrite Hsub. destruct (decide (d = d0)); [|done]. apply NoDup_app. split_and!; [done| |apply NoDup_singleton].
    intros t Ht ->%list_elem_of_singleton. specialize (V4 d s Ht). cbn in V4. lia.
  - intros d t [Ht|[-> ->]]%Hel; [|cbn; lia]. specialize (V4 d t Ht). cbn. lia.
  - intros c' a'. cbn. rewrite lookup_alter_Some. intros [(-> & a0 & E0 & ->)|[_ ?]] Hcn; [|by apply (V5 c')]. cbn in Hcn. congruence.
Qed.

Lemma fold_forward_same (l : list Subscription) f b : same_subs b (foldl (fun b s => _forward_frame s f b) b l).
Proof. revert b. induction l as [|s l IH]; intros b; cbn; [done|]. etrans; [apply send_raw_same|apply IH]. Qed.

Lemma elem_concat_seq {A} (g : nat → list A) start n x :
  x ∈ concat (map g (seq start n)) ↔ ∃ k, (start <= k < start + n)%nat ∧ x ∈ g k.
Proof.
  revert start. induction n as [|n IH]; intros start; cbn; [split; [by intros ?%elem_of_nil|intros (k & ? & _); lia]|].
  rewrite elem_of_app, IH. split.
  - intros [H|(k & Hk & H)]; [exists start|exists k]; (split; [lia|done]).
  - intros (k & Hk & H). destruct (decide (k = start)) as [->|]; [by left|]. right. exists k. split; [lia|done].
Qed.

Lemma nodup_concat_seq {A} (g : nat → list A) start n :
  (∀ k, NoDup (g k)) → (∀ j k x, (start <= j < k)%nat → (k < start + n)%nat → x ∈ g j → x ∈ g k → False) →
  NoDup (concat (map g (seq start n))).
Proof.
  intros Hg. revert start. induction n as [|n IH]; intros start Hd; cbn; [constructor|]. apply NoDup_app. split_and!; [done| |].
  - intros x Hx (k & Hk & Hx')%elem_concat_seq. apply (Hd start k x); [lia|lia|done|done].
  - apply IH. intros j k x Hj Hk. apply Hd; lia.
Qed.

Section Broker.
Context (loads : bytes → option json) (request_queues : list text).

(** Whom a message is for: every subscription to the destination or a parent of it, once. *)
Lemma find_subscribers_spec dest b :
  broker_inv b →
  NoDup (find_subscribers dest b)
  ∧ ∀ s, s ∈ find_subscribers dest b ↔ covers (destination s) dest ∧ sub_ids_of (client s) b !! subid s = Some s.
Proof.
  intros [V1 V2 V3 V4]. unfold find_subscribers. set (l := split_all 46 dest).
  change (fun parts => default [] (_sub_map b !! join_dots (take (S parts) l))) with (fun parts => subs_at (join_dots (take (S parts) l)) b). split.
  - apply nodup_concat_seq; [intros k; apply V3|]. intros j k s Hjk Hk Hs Hs'. destruct (V1 _ _ Hs) as [E1 _], (V1 _ _ Hs') as [E2 _].
    pose proof (prefix_length l (S j) (S k) ltac:(lia) ltac:(lia) ltac:(lia)). rewrite <- E1, <- E2 in H. lia.
  - intros s. rewrite elem_concat_seq, prefix_covers. fold l. split.
    + intros (k & Hk & Hs). destruct (V1 _ _ Hs) as [Hd Hi]. split; [|done]. exists k. split; [lia|done].
    + intros ((k & Hk & Hd) & Hi). exists k. split; [lia|]. rewrite <- Hd. by apply (V2 _ _ _ Hi).
Qed.

Lemma cmd_send_same c f b b' : _cmd_send loads request_queues c f b = Some b' → same_subs b b'.
Proof.
  unfold _cmd_send. destruct (dict_get DESTINATION (headers f)) as [dest|]; [|done]. pose proof (fold_forward_same (find_subscribers dest b) f b) as Hf.
  destruct (on_queue _ _); [intros [= <-]; etrans; [exact Hf|]; by split_and!|]. case_bool_decide; intros [= <-]; [|done]. etrans; [exact Hf|]. apply send_raw_same.
Qed.

Lemma receive_inv c f b a :
  adapters b !! c = Some a → connected a = true → broker_inv b ∧ closed_ok b →
  broker_inv (receive loads request_queues c f b) ∧ closed_ok (receive loads request_queues c f b).
Proof.
  intros Ha Hc H. unfold receive, handle_frame. destruct (handle_close_inv c b H) as (Hclose & _).
  repeat case_bool_decide.
  - apply (same_inv b); [|done]. unfold _cmd_connect. destruct (negb _); [by apply on_adapter_same|]. destruct (parseHeartBeatHeader _). by apply on_adapter_same.
  - destruct (_cmd_send loads request_queues c f b) as [b'|] eqn:E; [|done]. by apply (same_inv b); [eapply cmd_send_same|].
  - by eapply subscribe_inv.
  - by apply unsubscribe_inv.
  - unfold _cmd_disconnect. destruct (dict_get RECEIPT (headers f)) as [[|x r]|]; [done| |done]. apply (same_inv b); [apply send_raw_same|done].
  - done.
Qed.

Lemma send_same m d b : same_subs b (send loads m d b).1.
Proof.
  assert (Hfold : ∀ e l b1, same_subs b1 (foldl (send_open e m) b1 l)).
  { intros e l. induction l as [|s l IH]; intros b1; cbn; [done|]. etrans; [|apply IH]. unfold send_open. destruct (adapters b1 !! client s) as [a|]; [|done].
    destruct (connected a); [apply send_raw_same|done]. }
  assert (Hat : ∀ e b1, same_subs b1 (foldl (send_open e m) (set_sub_map (<[e := subs_at e b1]> (_sub_map b1)) b1) (subs_at e b1))).
  { intros e b1. etrans; [|apply Hfold]. split_and!; [|done|done]. intros d'. rewrite subs_at_insert. by case_decide; subst. }
  unfold send. destruct (loads m) as [[]|]; try done. set (id := obj_get _ _ _). destruct (negb _); [done|].
  set (b1 := set_req_dest (req_del id (_req_dest b)) b). assert (Hb1 : same_subs b b1) by (by split_and!).
  destruct (req_get id _) as [[e|]|]; [etrans; [exact Hb1|exact (Hat e b1)]|exact Hb1|exact (Hat d b)].
Qed.

(** What clients, the JSON-RPC server and the writer of the connections do *)
Inductive broker_step : Broker → Broker → Prop :=
| b_client c b : adapters b !! c = None → broker_step b (add_client c b)
| b_frame c a f b : adapters b !! c = Some a → connected a = true → broker_step b (receive loads request_queues c f b)
| b_close c b : broker_step b (handle_close c b)
| b_send m d b : broker_step b (send loads m d b).1
| b_written c b : broker_step b (on_adapter c (fun a => mkAdapter (tail (_outbox a)) (_sub_ids a) (connected a) (heartbeat a)) b).

Inductive broker_reach : Broker → Prop :=
| b_new : broker_reach new_broker
| b_next b b' : broker_reach b → broker_step b b' → broker_reach b'.

Lemma broker_reach_inv b : broker_reach b → broker_inv b ∧ closed_ok b.
Proof.
  induction 1 as [|b b' _ IH Hs].
  - split; [constructor|done]; intros *; cbn; unfold subs_at, sub_ids_of; cbn; rewrite ?lookup_empty; cbn; try (by intros ?%elem_of_nil); [done|constructor].
  - destruct Hs as [c b Hc|c a f b Ha Hc|c b|m d b|c b].
    + destruct IH as [H V5]. split.
      * apply (inv_ext b); [done| |done|done]. intros c'. unfold sub_ids_of. cbn. destruct (decide (c' = c)) as [->|]; [by rewrite lookup_insert_eq, Hc|by rewrite lookup_insert_ne].
      * intros c' a. cbn. rewrite lookup_insert_Some. intros [[<- <-]|[_ Ha]] Hcn; [done|by apply (V5 c')].
    + by eapply receive_inv.
    + by apply handle_close_inv.
    + eapply same_inv; [apply send_same|done].
    + eapply same_inv; [by apply on_adapter_same|done].
Qed.

(** ** Messages *)

Definition outbox_of (c : nat) (b : Broker) : list Frame := default [] (_outbox <$> adapters b !! c).

Definition mine (c : nat) (l : list Subscription) : list Subscription := filter (fun s => client s = c) l.

(** The frame that a subscriber is sent for a message *)
Definition forwarded (f : Frame) (s : Subscription) : Frame :=
  mkFrame MESSAGE (dict_update (headers f) [(SUBSCRIPTION, subid s)]) (body f).

Lemma send_raw_outbox c f b c' :
  is_Some (adapters b !! c) → outbox_of c' (send_raw c f b) = outbox_of c' b ++ (if decide (c' = c) then [f] else []).
Proof.
  intros [a Ha]. unfold outbox_of. cbn. case_decide as Hc; [subst; by rewrite lookup_alter_eq, Ha|]. by rewrite lookup_alter_ne, app_nil_r.
Qed.

(** Sending a frame of its own to every subscription of a list *)
Lemma fold_send_outbox (frame : Subscription → Frame) (op : Broker → Subscription → Broker) (l : list Subscription) b :
  (∀ b1 s, s ∈ l → same_subs b b1 → op b1 s = send_raw (client s) (frame s) b1) → (∀ s, s ∈ l → is_Some (adapters b !! client s)) →
  (∀ c, outbox_of c (foldl op b l) = outbox_of c b ++ (frame <$> mine c l)) ∧ handled (foldl op b l) = handled b.
Proof.
  revert b. induction l as [|s l IH]; intros b Hop Hin; [cbn; split; [intros c; by rewrite app_nil_r|done]|]. cbn [foldl].
  rewrite (Hop b s) by (done || by left). set (b1 := send_raw _ _ b). assert (Hb1 : same_subs b b1) by apply send_raw_same.
  destruct (IH b1) as [IH1 IH2].
  - intros b2 t Ht Hb2. apply Hop; [by right|by etrans].
  - intros t Ht. destruct Hb1 as (_ & _ & H3). specialize (H3 (client t)). destruct (Hin t) as [a Ha]; [by right|]. rewrite Ha in H3.
    destruct (adapters b1 !! client t); [eauto|done].
  - split; [|done]. intros c. rewrite IH1. unfold b1. rewrite send_raw_outbox by (apply Hin; by left). rewrite <- app_assoc. f_equal.
    unfold mine. rewrite filter_cons. destruct (decide (c = client s)) as [->|Hne]; [by rewrite decide_True|]. rewrite decide_False by congruence. done.
Qed.

(** A live subscription belongs to a connection that is open. *)
Lemma live_connected b c i s :
  closed_ok b → sub_ids_of c b !! i = Some s → ∃ a, adapters b !! c = Some a ∧ connected a = true.
Proof.
  intros Hk Hi. unfold sub_ids_of in Hi. destruct (adapters b !! c) as [a|] eqn:Ha; [|by rewrite lookup_empty in Hi]. exists a. split; [done|].
  destruct (connected a) eqn:Hc; [done|]. by rewrite (Hk c a Ha Hc), lookup_empty in Hi.
Qed.

(** C25: a message that a client sends reaches exactly the live subscriptions to its destination or to a parent of it, each once and
    in one frame with its own subscription id, in every reachable state; a message on a request queue is also given once to the JSON-RPC
    server, and a message for nobody is answered with an error; nothing else is queued to any connection. *)
Theorem broker_routes b c a f dest :
  broker_reach b → adapters b !! c = Some a → connected a = true → command f = SEND → dict_get DESTINATION (headers f) = Some dest →
  let subs := find_subscribers dest b in
  let b' := receive loads request_queues c f b in
  let queued := on_queue request_queues dest in
  NoDup subs
  ∧ (∀ s, s ∈ subs ↔ covers (destination s) dest ∧ sub_ids_of (client s) b !! subid s = Some s)
  ∧ (∀ c', outbox_of c' b' = outbox_of c' b ++ (forwarded f <$> mine c' subs)
       ++ (if bool_decide (c' = c ∧ subs = []) && negb queued then [mkFrame ERROR [] (Some (str "Subscription not available"))] else []))
  ∧ handled b' = handled b ++ (if queued then [(c, dict_get FLOW_ID (headers f), body f)] else []).
Proof.
  intros [H Hk]%broker_reach_inv Ha Hc Hcmd Hd. destruct (find_subscribers_spec dest b H) as [Hn Hs].
  split_and!; [done|done|..]; cbn zeta.
  all: destruct (fold_send_outbox (forwarded f) (fun b s => _forward_frame s f b) (find_subscribers dest b) b) as [Ho Hh];
    [done|intros s [_ Hl]%Hs; destruct (live_connected b _ _ _ Hk Hl) as (a' & ? & _); eauto|].
  all: unfold receive, handle_frame; rewrite bool_decide_false, bool_decide_true by (rewrite Hcmd; done); unfold _cmd_send; rewrite Hd.
  all: destruct (on_queue request_queues dest); cbn [negb].
  - intros c'. rewrite andb_false_r, app_nil_r. apply Ho.
  - intros c'. rewrite andb_true_r. case_bool_decide as Hz.
    + rewrite Hz in *. unfold _send_error. rewrite send_raw_outbox by eauto. rewrite Ho.
      rewrite <- app_assoc. do 2 f_equal. destruct (decide (c' = c)) as [->|Hne]; [by rewrite bool_decide_true|rewrite bool_decide_false; [done|naive_solver]].
    + rewrite Ho. rewrite (bool_decide_false (c' = c ∧ _)) by naive_solver. by rewrite app_nil_r.
  - unfold _handle_internal. cbn [handled]. by rewrite Hh.
  - rewrite app_nil_r. case_bool_decide; cbn; done.
Qed.

(** ** Replies *)

Lemma req_get_set k v d : hashable k = true → req_get k (req_set k v d) = Some v.
Proof.
  intros Hk. induction d as [|[k' v'] d IH]; cbn; [by rewrite key_eq_refl|]. destruct (key_eq k k') eqn:E; cbn; by rewrite E.
Qed.

Lemma req_get_del k d : req_get k (req_del k d) = None.
Proof.
  unfold req_del. induction d as [|[k' v'] d IH]; [done|]. rewrite filter_cons. cbn [fst]. destruct (decide (key_eq k k' = false)) as [E|E]; [|done].
  cbn. by rewrite E.
Qed.

(** A request on a request queue records where its reply goes. *)
Lemma request_recorded b c f dest q o :
  command f = SEND → dict_get DESTINATION (headers f) = Some dest → on_queue request_queues dest = true → body f = Some q →
  loads q = Some (JObj o) → hashable (obj_get (str "id") JNull o) = true →
  req_get (obj_get (str "id") JNull o) (_req_dest (receive loads request_queues c f b)) = Some (dict_get REPLY_TO (headers f)).
Proof.
  intros Hcmd Hd Hq Hb Hl Hh. unfold receive, handle_frame. rewrite bool_decide_false, bool_decide_true by (rewrite Hcmd; done).
  unfold _cmd_send. rewrite Hd, Hq. unfold _handle_internal. rewrite Hb. cbn [mbind option_bind]. rewrite Hl. cbn [_handle_destination].
  set (id := obj_get _ _ _) in *. rewrite Hh. cbn [_req_dest fst]. by apply req_get_set.
Qed.

(** What [send] does with a message whose id has a recorded destination *)
Lemma send_recorded m o d dflt b :
  broker_inv b → closed_ok b → loads m = Some (JObj o) → hashable (obj_get (str "id") JNull o) = true →
  req_get (obj_get (str "id") JNull o) (_req_dest b) = Some (Some d) →
  (send loads m dflt b).2 = Ok ()
  ∧ (∀ c, outbox_of c (send loads m dflt b).1 = outbox_of c b ++ (reply_frame d m <$> mine c (subs_at d b)))
  ∧ req_get (obj_get (str "id") JNull o) (_req_dest (send loads m dflt b).1) = None.
Proof.
  intros [V1 V2 V3 V4] Hk Hl Hh Hr. unfold send. rewrite Hl. set (id := obj_get _ _ _) in *. rewrite Hh, Hr. cbn [negb fst snd].
  set (b0 := set_sub_map _ _). change (subs_at d (set_req_dest (req_del id (_req_dest b)) b)) with (subs_at d b).
  assert (Hlive : ∀ s, s ∈ subs_at d b → ∃ a, adapters b !! client s = Some a ∧ connected a = true).
  { intros s [_ Hi]%V1. by eapply live_connected. }
  assert (Hop : ∀ b1 s, s ∈ subs_at d b → same_subs b0 b1 → send_open d m b1 s = send_raw (client s) (reply_frame d m s) b1).
  { intros b1 s (a & Ha & Hc)%Hlive (_ & _ & H3). specialize (H3 (client s)). cbn in H3. rewrite Ha in H3. unfold send_open.
    destruct (adapters b1 !! client s) as [a1|]; [|done]. injection H3 as _ ->. by rewrite Hc. }
  split_and!; [done| |].
  - intros c. destruct (fold_send_outbox (reply_frame d m) (send_open d m) (subs_at d b) b0) as [Ho _]; [done| |by rewrite Ho].
    intros s (a & Ha & _)%Hlive. by exists a.
  - assert (Hreq : ∀ l b1, _req_dest (foldl (send_open d m) b1 l) = _req_dest b1).
    { intros l. induction l as [|s l IH]; intros b1; cbn; [done|]. rewrite IH. unfold send_open. destruct (adapters b1 !! client s) as [a|]; [|done]. by destruct (connected a). }
    rewrite Hreq. cbn. apply req_get_del.
Qed.

(** *** What leaves a recorded destination alone *)

Lemma key_eq_trans a b c : key_eq a b = true → key_eq b c = true → key_eq a c = true.
Proof.
  revert b c. induction a; intros [] []; cbn [key_eq number]; try done; rewrite ?bool_decide_eq_true; try congruence. apply IHa.
Qed.

Lemma key_eq_transfer k k' k'' : key_eq k k' = false → key_eq k' k'' = true → key_eq k k'' = false.
Proof.
  intros H1 H2. destruct (key_eq k k'') eqn:E; [|done]. rewrite key_eq_sym in H2. by rewrite (key_eq_trans _ _ _ E H2) in H1.
Qed.

Lemma req_get_set_ne k k' v d : key_eq k k' = false → req_get k (req_set k' v d) = req_get k d.
Proof.
  intros Hk. induction d as [|[k0 v0] d IH]; cbn; [by rewrite Hk|]. destruct (key_eq k' k0) eqn:E; cbn.
  - by rewrite (key_eq_transfer _ _ _ Hk E).
  - by rewrite IH.
Qed.

Lemma req_get_del_ne k k' d : key_eq k k' = false → req_get k (req_del k' d) = req_get k d.
Proof.
  intros Hk. unfold req_del. induction d as [|[k0 v0] d IH]; [done|]. rewrite filter_cons. cbn [fst].
  destruct (decide (key_eq k' k0 = false)) as [E|E]; cbn; rewrite IH; [done|].
  by rewrite (key_eq_transfer k k' k0 Hk) by (by destruct (key_eq k' k0)).
Qed.

(** The request, or one of the requests of a batch, has the id [k]. *)
Fixpoint names (k : json) (request : json) : bool :=
  match request with
  | JList l => existsb (names k) l
  | JObj o => key_eq k (obj_get (str "id") JNull o)
  | _ => false
  end.

Lemma destination_unnamed k dest : ∀ request d,
  names k request = false → req_get k (_handle_destination dest request d).1 = req_get k d.
Proof.
  fix IH 1. intros request. destruct request as [| | | | |l|o|]; try done.
  - intros d. cbn [names _handle_destination]. revert d. induction l as [|r l IHl]; intros d; [done|]. cbn [existsb].
    intros [Hr Hl]%orb_false_iff. pose proof (IH r d Hr) as E. destruct (_handle_destination dest r d) as [d' []]; cbn in E |- *; [|done].
    by rewrite IHl.
  - intros d Hn. cbn in *. destruct (hashable _); [|done]. by apply req_get_set_ne.
Qed.

Lemma fold_forward_req (l : list Subscription) f b : _req_dest (foldl (fun b s => _forward_frame s f b) b l) = _req_dest b.
Proof. revert b. induction l as [|s l IH]; intros b; cbn; [done|]. by rewrite IH. Qed.

Lemma remove_subscriptions_req c b : _req_dest (remove_subscriptions c b) = _req_dest b.
Proof.
  unfold remove_subscriptions. cbn. generalize (map_to_list (sub_ids_of c b)). intros l. revert b.
  induction l as [|[i s] l IH]; intros b; cbn; [done|]. rewrite IH. unfold _remove_subscription. by destruct (Nat.eqb _ 1).
Qed.

Lemma handle_close_req c b : _req_dest (handle_close c b) = _req_dest b.
Proof. unfold handle_close. by rewrite !remove_subscriptions_req. Qed.

(** A frame whose body is not a request with the id [k] *)
Lemma receive_req k c f b :
  (∀ j, body f ≫= loads = Some j → names k j = false) →
  req_get k (_req_dest (receive loads request_queues c f b)) = req_get k (_req_dest b).
Proof.
  intros Hn. unfold receive, handle_frame. repeat case_bool_decide.
  - unfold _cmd_connect. destruct (negb _); [done|]. by destruct (parseHeartBeatHeader _).
  - unfold _cmd_send. destruct (dict_get DESTINATION (headers f)) as [dest|]; [|by rewrite handle_close_req].
    pose proof (fold_forward_req (find_subscribers dest b) f b) as Hf. destruct (on_queue _ _).
    + unfold _handle_internal. cbn [_req_dest]. rewrite Hf. destruct (body f ≫= loads) as [j|]; [|done]. by apply destination_unnamed, Hn.
    + case_bool_decide; cbn; by rewrite Hf.
  - unfold _cmd_subscribe. destruct (_ || _); [done|]. by destruct (sub_ids_of c b !! _).
  - unfold _cmd_unsubscribe. destruct (empty _); [done|]. destruct (sub_ids_of c b !! _); [|done]. unfold _remove_subscription. by destruct (Nat.eqb _ 1).
  - unfold _cmd_disconnect. destruct (dict_get RECEIPT (headers f)) as [[]|]; [done|done|by rewrite handle_close_req].
  - by rewrite handle_close_req.
Qed.

(** A message that has not the id [k] *)
Lemma send_req k m d b :
  (∀ o, loads m = Some (JObj o) → key_eq k (obj_get (str "id") JNull o) = false) →
  req_get k (_req_dest (send loads m d b).1) = req_get k (_req_dest b).
Proof.
  intros Hn. assert (Hreq : ∀ e l b1, _req_dest (foldl (send_open e m) b1 l) = _req_dest b1).
  { intros e l. induction l as [|s l IH]; intros b1; cbn; [done|]. rewrite IH. unfold send_open. destruct (adapters b1 !! client s) as [a|]; [|done]. by destruct (connected a). }
  unfold send. destruct (loads m) as [[| | | | | |o|]|] eqn:E; try done. specialize (Hn o eq_refl). set (id := obj_get _ _ _) in *.
  destruct (negb _); [done|]. destruct (req_get id (_req_dest b)) as [[e|]|]; cbn [fst]; rewrite ?Hreq; cbn; [by apply req_get_del_ne|by apply req_get_del_ne|done].
Qed.

(** The steps of the broker other than a request with the id [k] coming in or a message with that id being sent *)
Inductive unrelated_step (k : json) : Broker → Broker → Prop :=
| u_client c b : adapters b !! c = None → unrelated_step k b (add_client c b)
| u_frame c a f b :
    adapters b !! c = Some a → connected a = true → (∀ j, body f ≫= loads = Some j → names k j = false) →
    unrelated_step k b (receive loads request_queues c f b)
| u_close c b : unrelated_step k b (handle_close c b)
| u_send m d b :
    (∀ o, loads m = Some (JObj o) → key_eq k (obj_get (str "id") JNull o) = false) → unrelated_step k b (send loads m d b).1
| u_written c b : unrelated_step k b (on_adapter c (fun a => mkAdapter (tail (_outbox a)) (_sub_ids a) (connected a) (heartbeat a)) b).

Lemma unrelated_keeps k b b' :
  rtc (unrelated_step k) b b' → broker_reach b → broker_reach b' ∧ req_get k (_req_dest b') = req_get k (_req_dest b).
Proof.
  induction 1 as [|b b1 b' Hs _ IH]; intros Hr; [done|].
  assert (broker_reach b1 ∧ req_get k (_req_dest b1) = req_get k (_req_dest b)) as [Hr1 E1].
  { destruct Hs as [c b Hc|c a f b Ha Hc Hn|c b|m d b Hn|c b]; split; try (by eapply b_next; [exact Hr|econstructor]); [done| | | |done].
    - by apply receive_req.
    - by rewrite handle_close_req.
    - by apply send_req. }
  destruct (IH Hr1) as [Hr' E']. split; [done|congruence].
Qed.

(** C26: the reply to a request goes where its client asked.  A request with a reply-to header came in on a request queue; then
    anything happened, connections opened, closed and timed out, clients subscribed and unsubscribed, other requests came in and other
    messages were sent, but no request with the same id came in and no message with that id was sent.  Then the message with its id that the
    JSON-RPC server sends is queued to exactly the live subscriptions to the destination of that header, each once, and the id is
    forgotten. *)
Theorem reply_routed b c a f dest q o r b2 m om dflt :
  let id := obj_get (str "id") JNull o in
  broker_reach b → adapters b !! c = Some a → connected a = true →
  command f = SEND → dict_get DESTINATION (headers f) = Some dest → on_queue request_queues dest = true → body f = Some q →
  loads q = Some (JObj o) → hashable id = true → dict_get REPLY_TO (headers f) = Some r →
  rtc (unrelated_step id) (receive loads request_queues c f b) b2 →
  loads m = Some (JObj om) → obj_get (str "id") JNull om = id →
  let b3 := (send loads m dflt b2).1 in
  (send loads m dflt b2).2 = Ok ()
  ∧ (∀ s, s ∈ subs_at r b2 ↔ destination s = r ∧ sub_ids_of (client s) b2 !! subid s = Some s)
  ∧ NoDup (subs_at r b2)
  ∧ (∀ c', outbox_of c' b3 = outbox_of c' b2 ++ (reply_frame r m <$> mine c' (subs_at r b2)))
  ∧ req_get id (_req_dest b3) = None.
Proof.
  intros id Hb0 Ha Hc Hcmd Hd Hq Hb Hl Hh Hr Hsteps Hm Hid.
  destruct (unrelated_keeps _ _ _ Hsteps) as [Hre Hkeep]; [by eapply b_next; [exact Hb0|econstructor]|].
  destruct (broker_reach_inv b2 Hre) as [H2 Hk2].
  unfold id in Hkeep. rewrite (request_recorded b c f dest q o Hcmd Hd Hq Hb Hl Hh), Hr in Hkeep. fold id in Hkeep. rewrite <- Hid in *.
  destruct (send_recorded m om r dflt b2 H2 Hk2 Hm Hh Hkeep) as (S1 & S2 & S3). split_and!; [done| |apply H2|done|done].
  intros s. split; [apply H2|]. intros [<- Hi]. by apply (v_out _ H2 _ _ _ Hi).
Qed.

(** ** What does not work *)

(** A reply that is a list, which is what a batch of requests gets, is refused and sent to nobody. *)
Lemma batch_reply_refused m l d b : loads m = Some (JList l) → send loads m d b = (b, Raise ValueError).
Proof. intros H. unfold send. by rewrite H. Qed.

(** After a request without an id and without a reply-to header, the next event is sent to nobody. *)
Lemma event_lost b c f dest q o m om event_queue :
  command f = SEND → dict_get DESTINATION (headers f) = Some dest → on_queue request_queues dest = true → body f = Some q →
  loads q = Some (JObj o) → obj_get (str "id") JNull o = JNull → dict_get REPLY_TO (headers f) = None →
  loads m = Some (JObj om) → obj_get (str "id") JNull om = JNull →
  let b1 := receive loads request_queues c f b in
  ∀ c', outbox_of c' (send loads m event_queue b1).1 = outbox_of c' b1.
Proof.
  intros Hcmd Hd Hq Hb Hl Hid Hr Hm Hidm. cbn zeta. intros c'. pose proof (request_recorded b c f dest q o Hcmd Hd Hq Hb Hl) as Hrec.
  rewrite Hid, Hr in Hrec. specialize (Hrec eq_refl). unfold send. rewrite Hm, Hidm. cbn [hashable negb]. by rewrite Hrec.
Qed.

(** A reply to a destination that nobody subscribes to leaves an entry for it: the map is a default dict. *)
Lemma unknown_destination_kept m om d dflt b :
  loads m = Some (JObj om) → hashable (obj_get (str "id") JNull om) = true →
  req_get (obj_get (str "id") JNull om) (_req_dest b) = Some (Some d) → _sub_map b !! d = None →
  _sub_map (send loads m dflt b).1 !! d = Some [].
Proof.
  intros Hl Hh Hr Hd. unfold send. rewrite Hl. set (id := obj_get _ _ _) in *. rewrite Hh, Hr. cbn [negb fst]. unfold subs_at. cbn [_sub_map set_req_dest]. rewrite Hd.
  cbn. apply lookup_insert_eq.
Qed.

(** The ids of all clients share one table: a request with the id of one that is not yet answered takes its reply. *)
Lemma reply_to_another b c f dest q o r id :
  command f = SEND → dict_get DESTINATION (headers f) = Some dest → on_queue request_queues dest = true → body f = Some q →
  loads q = Some (JObj o) → obj_get (str "id") JNull o = id → hashable id = true → dict_get REPLY_TO (headers f) = Some r →
  req_get id (_req_dest (receive loads request_queues c f b)) = Some (Some r).
Proof. intros Hcmd Hd Hq Hb Hl <- Hh Hr. rewrite <- Hr. by eapply request_recorded. Qed.

(** DISCONNECT without a receipt header is taken for an unknown command. *)
Lemma disconnect_without_receipt c f b :
  command f = DISCONNECT → dict_get RECEIPT (headers f) = None → handle_frame loads request_queues c f b = (b, Raise TypeError).
Proof. intros Hc Hr. unfold handle_frame. rewrite !Hc. repeat rewrite bool_decide_false by done. rewrite bool_decide_true by done. unfold _cmd_disconnect. by rewrite Hr. Qed.
End Broker.

(** Client 1 subscribes to the destination [a]; client 2 sends a message to [a.b] and a request with a reply to [a]. *)
Definition sample_loads (q : bytes) : option json := match q with [1] => Some (JObj [(str "id", JInt 7)]) | _ => None end.

Definition sample_broker : Broker :=
  receive sample_loads [str "req"] 1 (mkFrame SUBSCRIBE [(str "destination", str "a"); (str "id", str "s")] None)
    (add_client 2 (add_client 1 new_broker)).

Definition sample_message : Frame := mkFrame SEND [(DESTINATION, str "a.b")] (Some [5]).
Definition sample_request : Frame := mkFrame SEND [(DESTINATION, str "req"); (REPLY_TO, str "a")] (Some [1]).

Lemma sample_reached : broker_reach sample_loads [str "req"] sample_broker.
Proof.
  eapply b_next; [eapply b_next; [eapply b_next; [apply b_new|by apply (b_client _ _ 1)]|by apply (b_client _ _ 2)]|].
  by apply (b_frame _ _ 1 new_adapter).
Qed.

Lemma broker_routes_witness :
  outbox_of 1 (receive sample_loads [str "req"] 2 sample_message sample_broker)
  = [mkFrame MESSAGE [(SUBSCRIPTION, str "s"); (DESTINATION, str "a.b")] (Some [5])].
Proof.
  destruct (broker_routes sample_loads [str "req"] sample_broker 2 new_adapter sample_message (str "a.b")) as (_ & _ & H & _);
    [exact sample_reached|vm_compute; reflexivity|reflexivity|reflexivity|reflexivity|].
  rewrite H. vm_compute. reflexivity.
Defined.

(** The request, and then a third client comes and client 2 goes. *)
Lemma reply_routed_witness :
  let b2 := handle_close 2 (add_client 3 (receive sample_loads [str "req"] 2 sample_request sample_broker)) in
  outbox_of 1 (send sample_loads [1] (str "x") b2).1
  = [mkFrame MESSAGE [(DESTINATION, str "a"); (CONTENT_TYPE, str "application/json"); (SUBSCRIPTION, str "s")] (Some [1])].
Proof.
  intros b2.
  destruct (reply_routed sample_loads [str "req"] sample_broker 2 new_adapter sample_request (str "req") [1] [(str "id", JInt 7)] (str "a") b2
    [1] [(str "id", JInt 7)] (str "x") sample_reached eq_refl eq_refl eq_refl eq_refl eq_refl eq_refl eq_refl eq_refl eq_refl) as (_ & _ & _ & H & _).
  - eapply rtc_l; [apply (u_client _ _ _ 3); vm_compute; reflexivity|]. apply rtc_once, u_close.
  - reflexivity.
  - reflexivity.
  - rewrite H. vm_compute. reflexivity.
Defined.
