(* ===== verification/StompDispatcher.v ===== *)
(** * Writing and heartbeats of a STOMP connection: [AsyncDispatcher] of [yajsonrpc/stomp.py]

    The dispatcher writes the frames of its handler's outbox to the socket as far as it takes them, queues a heartbeat when nothing was sent
    for the outgoing interval, and gives a connection up when nothing was received for the incoming one.  Times are milliseconds;
    the clock and the answers of the socket are inputs. *)
From Stdlib Require Import ZArith Lia.
From stdpp Require Import base gmap list strings.
From S2P Require Import Prelude Text Stomp.

(** ** Writing *)

(** [queue] is the handler's outbox, [wire] what the socket has taken and [queued] all that was ever queued; [resends] are the frames given to
    [queue_resend]. *)
Record Writer := mkWriter {
  _outbuf : option bytes;
  queue : list item;
  wire : bytes;
  queued : list item;
  resends : list Frame;
}.

Definition new_writer : Writer := mkWriter None [] [] [] [].

Definition put_item (i : item) (w : Writer) : Writer := mkWriter (_outbuf w) (queue w ++ [i]) (wire w) (queued w ++ [i]) (resends w).

Inductive write_error := NoCommand | NoResend | EncodeError (e : error).

Section Write.
(** Whether the handler has [queue_resend]: that of the client has. *)
Context (has_resend : bool).

(** [handle_write]: [answers] are those of [dispatcher.send]; after them the socket would block, which is the answer 0. *)
Fixpoint handle_write (answers : list nat) (w : Writer) : Writer * res write_error unit :=
  match (match _outbuf w with
         | Some data => Some (Ok data)
         | None => match queue w with [] => None | i :: _ => Some (encode_item i) end
         end) with
  | None => (w, Ok ())
  | Some (Raise e) => (w, Raise (EncodeError e))
  | Some (Ok data) =>
      let w := mkWriter (Some data) (queue w) (wire w) (queued w) (resends w) in
      match answers with
      | [] | O :: _ =>
          match queue w with
          | [] => (w, Ok ())
          | Heartbeat :: _ => (w, Raise NoCommand)
          | Sent f :: _ =>
              if bool_decide (command f = str "SEND") then
                if has_resend then (mkWriter (_outbuf w) (queue w) (wire w) (queued w) (resends w ++ [f]), Ok ()) else (w, Raise NoResend)
              else (w, Ok ())
          end
      | n :: answers =>
          let w := mkWriter (_outbuf w) (queue w) (wire w ++ take n data) (queued w) (resends w) in
          if bool_decide (n < length data)%nat then (mkWriter (Some (drop n data)) (queue w) (wire w) (queued w) (resends w), Ok ())
          else handle_write answers (mkWriter None (tail (queue w)) (wire w) (queued w) (resends w))
      end
  end.

(** What is between the socket and the outbox: the frames that were written whole, and a part of the first that is queued. *)
Definition written (w : Writer) : Prop :=
  ∃ done_ enc part, queued w = done_ ++ queue w ∧ encode_stream done_ = Ok enc ∧ wire w = enc ++ part
  ∧ match _outbuf w with
    | None => part = []
    | Some rest => ∃ i q, queue w = i :: q ∧ encode_item i = Ok (part ++ rest)
    end.

Lemma encode_stream_snoc its i enc e :
  encode_stream its = Ok enc → encode_item i = Ok e → encode_stream (its ++ [i]) = Ok (enc ++ e).
Proof.
  revert enc. induction its as [|j its IH]; intros enc; cbn [app encode_stream].
  - intros [= <-] ->. cbn. by rewrite app_nil_r.
  - destruct (encode_item j) as [ej|]; [|done]. destruct (encode_stream its) as [es|]; [|done]. cbn. intros [= <-] He. rewrite (IH es eq_refl He). cbn. by rewrite <- app_assoc.
Qed.

(** The frame that is being written: begun just now or earlier *)
Lemma written_data w data :
  written w →
  match _outbuf w with
  | Some data => Some (Ok data)
  | None => match queue w with [] => None | i :: _ => Some (encode_item i) end
  end = Some (Ok data) →
  ∃ done_ enc part i q, queued w = done_ ++ i :: q ∧ queue w = i :: q ∧ encode_stream done_ = Ok enc ∧ wire w = enc ++ part ∧ encode_item i = Ok (part ++ data).
Proof.
  intros (dn & enc & part & Hq & He & Hw & Hb) Hd. destruct (_outbuf w) as [rest|].
  - injection Hd as ->. destruct Hb as (i & q & Hi & Hi'). exists dn, enc, part, i, q. rewrite Hi in Hq. auto.
  - subst part. destruct (queue w) as [|i q]; [done|]. injection Hd as Hd. exists dn, enc, [], i, q. auto.
Qed.

Lemma handle_write_written answers w : written w → written (handle_write answers w).1 ∧ queued (handle_write answers w).1 = queued w.
Proof.
  revert w. induction answers as [|n answers IH]; intros w Hw; cbn [handle_write];
    destruct (match _outbuf w with Some data => Some (Ok data) | None => _ end) as [[data|e]|] eqn:Ed; try done;
    destruct (written_data w data Hw Ed) as (dn & enc & part & i & q & Hq & Hqq & He & Hwi & Hi).
  - assert (Hin : written (mkWriter (Some data) (queue w) (wire w) (queued w) (resends w))).
    { exists dn, enc, part. rewrite Hqq. split_and!; [done|done|done|]. exists i, q. done. }
    cbn [queue]. destruct (queue w) as [|[|f] q'] eqn:Eq; try done. destruct (bool_decide _); [|done]. by destruct has_resend.
  - assert (Hin : written (mkWriter (Some data) (queue w) (wire w) (queued w) (resends w))).
    { exists dn, enc, part. rewrite Hqq. split_and!; [done|done|done|]. exists i, q. done. }
    destruct n as [|n].
    { cbn [queue]. destruct (queue w) as [|[|f] q'] eqn:Eq; try done. destruct (bool_decide _); [|done]. by destruct has_resend. }
    cbn [_outbuf queue wire queued resends]. case_bool_decide as Hn.
    + split; [|done]. exists dn, enc, (part ++ take (S n) data). cbn. rewrite Hqq, Hwi, <- app_assoc. split_and!; [done|done|done|].
      exists i, q. split; [done|]. by rewrite Hi, <- app_assoc, take_drop.
    + set (w1 := mkWriter None _ _ _ _). destruct (IH w1) as [IH1 IH2]; [|done]. exists (dn ++ [i]), (enc ++ (part ++ data)), []. cbn.
      rewrite Hqq, Hq, Hwi, take_ge, <- !app_assoc by lia. cbn. rewrite app_nil_r. split_and!; [done|by apply encode_stream_snoc|done|done].
Qed.
End Write.

(** Frames are queued and the socket becomes writable, in any order. *)
Inductive write_step (has_resend : bool) : Writer → Writer → Prop :=
| w_queue i w : write_step has_resend w (put_item i w)
| w_write answers w : write_step has_resend w (handle_write has_resend answers w).1.

Inductive write_reach (has_resend : bool) : Writer → Prop :=
| w_new : write_reach has_resend new_writer
| w_next w w' : write_reach has_resend w → write_step has_resend w w' → write_reach has_resend w'.

Lemma write_reach_written h w : write_reach h w → written w.
Proof.
  induction 1 as [|w w' _ IH Hs]; [exists [], [], []; by split_and!|]. destruct Hs as [i w|answers w]; [|by apply handle_write_written].
  destruct IH as (dn & enc & part & Hq & He & Hw & Hb). exists dn, enc, part. cbn. rewrite Hq, <- app_assoc. split_and!; [done|done|done|].
  destruct (_outbuf w); [|done]. destruct Hb as (j & q & -> & Hj). by exists j, (q ++ [i]).
Qed.

Lemma encode_stream_app a b all enc :
  encode_stream (a ++ b) = Ok all → encode_stream a = Ok enc → ∃ e, encode_stream b = Ok e ∧ all = enc ++ e.
Proof.
  revert all enc. induction a as [|i a IH]; intros all enc; cbn [app encode_stream]; [intros -> [= <-]; eauto|].
  destruct (encode_item i) as [ei|]; [|done]. destruct (encode_stream (a ++ b)) as [r|]; [|done]. destruct (encode_stream a) as [ea|]; [|done].
  cbn. intros [= <-] [= <-]. destruct (IH r ea eq_refl eq_refl) as (e & -> & ->). exists e. by rewrite <- app_assoc.
Qed.

(** A socket that takes every frame whole empties the outbox. *)
Lemma handle_write_drains h answers w N :
  written w → (0 < N)%nat → Forall (fun n => (N <= n)%nat) answers → (length (queue w) <= length answers)%nat →
  Forall (fun i => ∃ e, encode_item i = Ok e ∧ (length e <= N)%nat) (queue w) →
  (handle_write h answers w).2 = Ok () ∧ queue (handle_write h answers w).1 = [].
Proof.
  revert w. induction answers as [|n answers IH]; intros w Hw HN Ha Hl Hq; cbn [handle_write].
  - destruct (queue w) as [|i q] eqn:Eq; [|cbn in Hl; lia]. destruct Hw as (dn & enc & part & _ & _ & _ & Hb). rewrite Eq in Hb.
    destruct (_outbuf w); [by destruct Hb as (? & ? & ? & _)|]. cbn. by rewrite Eq.
  - apply Forall_cons in Ha as [Hn Ha].
    destruct (match _outbuf w with Some data => Some (Ok data) | None => _ end) as [[data|e]|] eqn:Ed.
    + destruct (written_data w data Hw Ed) as (dn & enc & part & i & q & Hqd & Hqq & He & Hwi & Hi). rewrite Hqq in Hq, Hl |- *.
      apply Forall_cons in Hq as [(e & Hie & Hle) Hq]. rewrite Hi in Hie. injection Hie as <-. rewrite length_app in Hle.
      destruct n as [|n]; [lia|]. cbn [_outbuf queue wire queued resends]. rewrite bool_decide_false by lia. apply IH; cbn [queue tail]; [|done|done|cbn in Hl; lia|done].
      exists (dn ++ [i]), (enc ++ (part ++ data)), []. cbn. rewrite Hqd, Hwi, take_ge, <- !app_assoc by lia. cbn. rewrite app_nil_r.
      split_and!; [done|by apply encode_stream_snoc|done|done].
    + exfalso. destruct (_outbuf w); [done|]. destruct (queue w) as [|i q]; [done|]. injection Ed as Ed. apply Forall_cons in Hq as [(e' & Hie & _) _]. congruence.
    + destruct (_outbuf w); [done|]. cbn. by destruct (queue w).
Qed.

(** however a socket takes the data, the bytes that are written are the encodings of the queued frames and heartbeats in order, each
    once: at any time they are a prefix of them, when the outbox is empty all of them were written, and a socket that takes frames
    whole empties the outbox. *)
Theorem write_stream h w :
  write_reach h w →
  (∀ all, encode_stream (queued w) = Ok all → wire w `prefix_of` all)
  ∧ (queue w = [] → encode_stream (queued w) = Ok (wire w))
  ∧ (∀ N answers, (0 < N)%nat → Forall (fun n => (N <= n)%nat) answers → (length (queue w) <= length answers)%nat →
       Forall (fun i => ∃ e, encode_item i = Ok e ∧ (length e <= N)%nat) (queue w) →
       (handle_write h answers w).2 = Ok () ∧ encode_stream (queued w) = Ok (wire (handle_write h answers w).1)).
Proof.
  intros Hw%write_reach_written.
  assert (Hempty : ∀ w, written w → queue w = [] → encode_stream (queued w) = Ok (wire w)).
  { intros w0 (dn & enc & part & Hq & He & Hwi & Hb) E. rewrite E in *. rewrite app_nil_r in Hq. destruct (_outbuf w0); [by destruct Hb as (? & ? & ? & _)|].
    subst part. by rewrite Hq, Hwi, app_nil_r. }
  split_and!; [|by apply Hempty|].
  - destruct Hw as (dn & enc & part & Hq & He & Hwi & Hb). intros all Hall. rewrite Hq in Hall. destruct (encode_stream_app _ _ _ _ Hall He) as (e & Hqe & ->).
    rewrite Hwi. apply prefix_app. destruct (_outbuf w) as [rest|]; [|subst part; apply prefix_nil]. destruct Hb as (i & q & Hqq & Hi). rewrite Hqq in Hqe. cbn in Hqe.
    rewrite Hi in Hqe. cbn in Hqe. destruct (encode_stream q) as [eq|]; [|done]. injection Hqe as <-. rewrite <- app_assoc. by apply prefix_app_r.
  - intros N answers HN Ha Hl Hq. destruct (handle_write_drains h answers w N Hw HN Ha Hl Hq) as [H1 H2]. split; [done|].
    destruct (handle_write_written h answers w Hw) as [H3 H4]. rewrite <- H4. by apply Hempty.
Qed.

(** A heartbeat that the socket does not take raises: it has no command to be compared. *)
Lemma blocked_heartbeat_raises h q w : _outbuf w = None → queue w = Heartbeat :: q → (handle_write h [] w).2 = Raise NoCommand.
Proof. intros H1 H2. cbn [handle_write]. rewrite H1, H2. done. Qed.

Lemma write_stream_witness :
  let w := (handle_write false [5%nat] (put_item (Sent (mkFrame (str "RECEIPT") [] None)) (put_item Heartbeat new_writer))).1 in
  queue w = [Sent (mkFrame (str "RECEIPT") [] None)] ∧ encode_stream (queued w) = Ok (wire (handle_write false [20%nat] w).1).
Proof.
  intros w. split; [reflexivity|]. apply (write_stream false w) with (N := 20%nat).
  - eapply w_next; [eapply w_next; [eapply w_next; [apply w_new|apply (w_queue _ Heartbeat)]|apply w_queue]|apply w_write].
  - lia.
  - apply Forall_cons. split; [lia|apply Forall_nil_2].
  - apply Nat.leb_le. vm_compute. reflexivity.
  - apply Forall_cons. split; [|apply Forall_nil_2]. eexists. split; [vm_compute; reflexivity|]. apply Nat.leb_le. reflexivity.
Defined.

(** ** Heartbeats *)

Definition DEFAULT_INTERVAL : Z := 30000.

(** The attributes that keep time; [closes] counts the calls of [connection.close()] and [given_up] those of the handler's [handle_timeout]. *)
Record Beat := mkBeat {
  incoming : Z;
  outgoing : Z;
  lastIncoming : Z;
  lastOutgoing : Z;
  _on_timeout : bool;
  _on_wait : bool;
  _start : Z;
  lastReconnect : Z;
  _count : Z;
  closes : nat;
  given_up : nat;
}.

Definition new_beat : Beat := mkBeat 0 0 0 0 false false 0 0 0 0 0.

Definition setHeartBeat (now out inc : Z) (b : Beat) : Beat :=
  mkBeat (if negb (inc =? 0) then inc else incoming b) out (if negb (inc =? 0) then now else lastIncoming b) now
    (_on_timeout b) (_on_wait b) (_start b) (lastReconnect b) (_count b) (closes b) (given_up b).

(** The end of [handle_read], and a [send] that took data *)
Definition has_read (now : Z) (b : Beat) : Beat :=
  mkBeat (incoming b) (outgoing b) (if negb (incoming b =? 0) then now else lastIncoming b) (lastOutgoing b)
    (_on_timeout b) (_on_wait b) (_start b) (lastReconnect b) (_count b) (closes b) (given_up b).

Definition has_sent (now : Z) (b : Beat) : Beat :=
  mkBeat (incoming b) (outgoing b) (lastIncoming b) now (_on_timeout b) (_on_wait b) (_start b) (lastReconnect b) (_count b) (closes b) (given_up b).

Definition _outgoing_heartbeat_expiration_interval (now : Z) (b : Beat) : Z :=
  if outgoing b =? 0 then DEFAULT_INTERVAL else outgoing b - (now - lastOutgoing b).

Definition _incoming_heartbeat_expiration_interval (now : Z) (b : Beat) : Z :=
  if incoming b =? 0 then DEFAULT_INTERVAL else incoming b - (now - lastIncoming b).

Section Timeouts.
(** The attributes of the handler, zero when it has none *)
Context (nr_retries reconnect_interval : Z).

Definition _reconnect_expiration_interval (now : Z) (b : Beat) : Z :=
  if negb (_on_timeout b) || (reconnect_interval =? 0) then DEFAULT_INTERVAL else reconnect_interval - (now - lastReconnect b).

Definition handle_timeout (now : Z) (b : Beat) : Beat :=
  if negb (_on_wait b) then
    mkBeat (incoming b) (outgoing b) (lastIncoming b) (lastOutgoing b) true true (now + reconnect_interval) (lastReconnect b) (_count b) (closes b) (given_up b)
  else if _count b >=? nr_retries then
    mkBeat (incoming b) (outgoing b) (lastIncoming b) (lastOutgoing b) false (_on_wait b) (_start b) (lastReconnect b) (_count b) (S (closes b)) (given_up b)
  else
    mkBeat (incoming b) (outgoing b) (lastIncoming b) (lastOutgoing b) true false (_start b) now (_count b + 1) (S (closes b)) (S (given_up b)).

Definition next_check_interval (now : Z) (b : Beat) : Beat * Z :=
  if _on_wait b then (if now >? _start b then handle_timeout now b else b, reconnect_interval)
  else
    let b := if (_reconnect_expiration_interval now b <=? 0) || (_incoming_heartbeat_expiration_interval now b <=? 0) then handle_timeout now b else b in
    (b, Z.max (_outgoing_heartbeat_expiration_interval now b) 0).

(** [writable]: [pending] is whether there is a frame or a rest to write.  The second result is whether a heartbeat is queued, the third what is returned. *)
Definition writable (pending : bool) (now : Z) (b : Beat) : Beat * bool * bool :=
  if pending then (b, false, true)
  else let (b, interval) := next_check_interval now b in
       if interval =? 0 then (b, true, true) else (b, false, false).

Definition readable (b : Beat) : bool := negb (_on_timeout b).
End Timeouts.

(** A connection of the server until it is closed; time goes on. *)
Inductive beat_step : Z * Beat → Z * Beat → Prop :=
| h_tick t t' b : t <= t' → beat_step (t, b) (t', b)
| h_read t b : closes b = 0%nat → readable b = true → beat_step (t, b) (t, has_read t b)
| h_set t out inc b : closes b = 0%nat → readable b = true → 0 <= inc → beat_step (t, b) (t, setHeartBeat t out inc b)
| h_sent t b : closes b = 0%nat → beat_step (t, b) (t, has_sent t b)
| h_check t b : closes b = 0%nat → beat_step (t, b) (t, (next_check_interval 0 0 t b).1).

Inductive beat_reach : Z * Beat → Prop :=
| h_new t : beat_reach (t, new_beat)
| h_next s s' : beat_reach s → beat_step s s' → beat_reach s'.

(** A connection that waits, or was closed, has been silent for its incoming interval. *)
Record beat_inv (t : Z) (b : Beat) : Prop := {
  e_in : 0 <= incoming b ∧ (incoming b ≠ 0 → lastIncoming b <= t);
  e_wait : _on_wait b = true → incoming b ≠ 0 ∧ lastIncoming b + incoming b <= _start b <= t;
  e_closed : closes b ≠ 0%nat → _on_wait b = true;
  e_timeout : closes b = 0%nat → _on_timeout b = _on_wait b;
  e_count : _count b = 0;
}.

Lemma beat_reach_inv s : beat_reach s → beat_inv s.1 s.2.
Proof.
  induction 1 as [t|s s' _ IH Hs]; [constructor; cbn; lia || done|]. destruct Hs as [t t' b Ht|t b Hc Hr|t out inc b Hc Hr Hi|t b Hc|t b Hc]; cbn [fst snd] in *;
    destruct IH as [[I1 I1'] I2 I3 I4 I5].
  - constructor; cbn; [split; [lia|]; intros; specialize (I1' ltac:(done)); lia| |done|done|done]. intros Hw. specialize (I2 Hw). lia.
  - unfold readable in Hr. rewrite (I4 Hc) in Hr. destruct (_on_wait b) eqn:Ew; [done|].
    constructor; cbn; rewrite ?Ew; try done. split; [done|]. intros Hz. destruct (Z.eqb_spec (incoming b) 0); [done|cbn; lia].
  - unfold readable in Hr. rewrite (I4 Hc) in Hr. destruct (_on_wait b) eqn:Ew; [done|].
    constructor; cbn; rewrite ?Ew; try done. destruct (Z.eqb_spec inc 0); cbn; [done|lia].
  - constructor; cbn; done.
  - unfold next_check_interval. destruct (_on_wait b) eqn:Ew.
    + destruct (I2 eq_refl) as [Hi Hst]. cbn [fst]. destruct (Z.gtb_spec t (_start b)); [|constructor; rewrite ?Ew; auto].
      unfold handle_timeout. rewrite Ew, I5. cbn [negb]. constructor; cbn; rewrite ?Ew; auto. done.
    + cbn [fst]. unfold _reconnect_expiration_interval, handle_timeout. rewrite Ew, orb_true_r. cbn [negb DEFAULT_INTERVAL Z.leb Z.compare orb].
      unfold _incoming_heartbeat_expiration_interval, DEFAULT_INTERVAL. destruct (Z.eqb_spec (incoming b) 0) as [Hz|Hz]; cbn [Z.leb Z.compare]; [constructor; rewrite ?Ew; auto|].
      destruct (Z.leb_spec (incoming b - (t - lastIncoming b)) 0); [|constructor; rewrite ?Ew; auto].
      constructor; cbn; auto. intros _. specialize (I1' Hz). lia.
Qed.

(** A connection that waits is closed by a check at a later time. *)
Lemma check_closes t b : _on_wait b = true → _count b = 0 → _start b < t → closes (next_check_interval 0 0 t b).1 ≠ 0%nat.
Proof.
  intros Hw Hc Ht. unfold next_check_interval, handle_timeout. rewrite Hw, Hc. destruct (Z.gtb_spec t (_start b)); [done|lia].
Qed.

(** One that was silent waits after a check. *)
Lemma check_waits t b :
  beat_inv t b → incoming b ≠ 0 → incoming b <= t - lastIncoming b →
  let b1 := (next_check_interval 0 0 t b).1 in _on_wait b1 = true ∧ _start b1 <= t ∧ _count b1 = 0.
Proof.
  intros [I1 I2 I3 I4 I5] Hi Hs. unfold next_check_interval. destruct (_on_wait b) eqn:Ew; cbn [fst].
  - specialize (I2 eq_refl). destruct (t >? _start b); [|split_and!; [done|lia|done]]. unfold handle_timeout. rewrite Ew, I5. cbn. split_and!; [done|lia|done].
  - assert (Hexp : _incoming_heartbeat_expiration_interval t b <=? 0 = true).
    { unfold _incoming_heartbeat_expiration_interval. destruct (Z.eqb_spec (incoming b) 0); [done|]. apply Z.leb_le. lia. }
    rewrite Hexp, orb_true_r. unfold handle_timeout. rewrite Ew. cbn. split_and!; [done|lia|done].
Qed.

(** heartbeats of a connection of the server: it is closed only when nothing was received for its incoming interval, and never without one;
    a connection that was silent for that long is given up by the next check and closed by the first one after it at a later time;
    and a connection with nothing to write queues a heartbeat exactly when its outgoing interval has passed, unless it is being given up. *)
Theorem heartbeats t b :
  beat_reach (t, b) →
  (closes b ≠ 0%nat → incoming b ≠ 0 ∧ incoming b <= t - lastIncoming b)
  ∧ (closes b = 0%nat → incoming b ≠ 0 → incoming b <= t - lastIncoming b →
       let b1 := (next_check_interval 0 0 t b).1 in
       _on_wait b1 = true ∧ ∀ t', t < t' → closes (next_check_interval 0 0 t' b1).1 ≠ 0%nat)
  ∧ (closes b = 0%nat → _on_wait b = false →
       (writable 0 0 false t b).1.2 = true ↔ outgoing b ≠ 0 ∧ outgoing b <= t - lastOutgoing b).
Proof.
  intros H%beat_reach_inv. cbn [fst snd] in H. pose proof H as [I1 I2 I3 I4 I5]. split_and!.
  - intros Hc. destruct (I2 (I3 Hc)) as [Hi Hs]. split; [done|lia].
  - intros Hc Hi Hsil. destruct (check_waits t b H Hi Hsil) as (W1 & W2 & W3). split; [done|]. intros t' Ht. apply check_closes; [done|done|lia].
  - intros Hc Hw. unfold writable, next_check_interval. rewrite Hw. set (x := _ || _). set (b1 := if x then handle_timeout 0 0 t b else b).
    assert (E : outgoing b1 = outgoing b ∧ lastOutgoing b1 = lastOutgoing b).
    { unfold b1, handle_timeout. rewrite Hw. cbn [negb]. by destruct x. }
    destruct E as [E1 E2]. unfold _outgoing_heartbeat_expiration_interval. rewrite E1, E2. unfold DEFAULT_INTERVAL.
    destruct (Z.eqb_spec (outgoing b) 0) as [Hz|Hz].
    + cbn. split; [done|]. lia.
    + destruct (Z.eqb_spec (Z.max (outgoing b - (t - lastOutgoing b)) 0) 0); cbn; split; try done; lia.
Qed.

Lemma heartbeats_witness :
  let b := setHeartBeat 1000 0 5000 new_beat in
  closes b = 0%nat ∧ closes (next_check_interval 0 0 6001 (next_check_interval 0 0 6000 b).1).1 ≠ 0%nat.
Proof.
  intros b. split; [reflexivity|].
  assert (H : beat_reach (6000, b)).
  { eapply h_next; [eapply h_next; [apply (h_new 1000)|by apply (h_set 1000 0 5000)]|apply (h_tick 1000 6000); lia]. }
  apply (proj2 (proj1 (proj2 (heartbeats 6000 b H)) eq_refl ltac:(discriminate) ltac:(cbn; lia)) 6001). lia.
Defined.
