(* ===== verification/ThinProvisioning.v ===== *)
(** * Thin provisioned drives: [virt/drivemonitor.py], and the drives of [virt/vmdevices/storage.py] and [virt/vm.py]

    A volume on block storage grows in chunks: libvirt reports when the guest has written up to a threshold, a periodic check asks
    for an extension (through the mailbox of [Mailbox.v] when the host is not the manager), and when the volume has
    grown a new threshold is set.  The answers of libvirt and of the storage are inputs.  The factor 1.1 of the
    format's overhead is the binary64 number of the source, multiplied as the language does. *)
From Stdlib Require Import ZArith Lia SpecFloat.
From stdpp Require Import base gmap list strings.
From S2P Require Import Prelude Utils Misc.

(** ** Drives *)

Inductive BLOCK_THRESHOLD := UNSET | SET_ | EXCEEDED.

#[export] Instance BLOCK_THRESHOLD_eq_dec : EqDecision BLOCK_THRESHOLD.
Proof. solve_decision. Defined.

Inductive DISK_TYPE := BLOCK | FILE | NETWORK.

#[export] Instance DISK_TYPE_eq_dec : EqDecision DISK_TYPE.
Proof. solve_decision. Defined.

(** The attributes that monitoring uses.  [diskReplicate] is there while the drive is replicated: the type and the format of the replica. *)
Record Drive := mkDrive {
  readonly : bool;
  _monitorable : bool;
  diskType : DISK_TYPE;
  format : text;
  diskReplicate : option (DISK_TYPE * text);
  _path : option text;
  _threshold_state : BLOCK_THRESHOLD;
  apparentsize : Z;
}.

Definition set_threshold_state (st : BLOCK_THRESHOLD) (d : Drive) : Drive :=
  mkDrive (readonly d) (_monitorable d) (diskType d) (format d) (diskReplicate d) (_path d) st (apparentsize d).

Definition chunked (d : Drive) : bool := bool_decide (diskType d = BLOCK) && bool_decide (format d = str "cow").

Definition replicaChunked (d : Drive) : bool :=
  match diskReplicate d with
  | Some (t, f) => bool_decide (t = BLOCK) && bool_decide (f = str "cow")
  | None => false
  end.

Definition isDiskReplicationInProgress (d : Drive) : bool := match diskReplicate d with Some _ => true | None => false end.

(** [path.setter] *)
Definition set_path (path : text) (d : Drive) : Drive :=
  let st := match _path d with Some p => if bool_decide (p ≠ path) then UNSET else _threshold_state d | None => _threshold_state d end in
  mkDrive (readonly d) (_monitorable d) (diskType d) (format d) (diskReplicate d) (Some path) st (apparentsize d).

Definition needs_monitoring (events_enabled : bool) (d : Drive) : bool :=
  if readonly d then false
  else if negb (_monitorable d) then false
  else if negb (chunked d || replicaChunked d) then false
  else if events_enabled then bool_decide (_threshold_state d ∈ [UNSET; EXCEEDED])
  else true.

(** [Drive.on_block_threshold] *)
Definition on_block_threshold (reported_path : text) (d : Drive) : Drive :=
  if bool_decide (Some reported_path ≠ _path d) then d else set_threshold_state EXCEEDED d.

(** ** Sizes *)

(** [float(n)] for an integer, [int(f)] for a float *)
Definition of_int (n : Z) : spec_float := binary_normalize 53 1024 n 0 false.

Definition to_int (f : spec_float) : Z :=
  match f with
  | S754_finite s m e => (if s then Z.opp else id) (if 0 <=? e then Z.pos m * 2 ^ e else Z.pos m / 2 ^ (- e))
  | _ => 0
  end.

(** [utils.round] of a float *)
Definition round_float (n : spec_float) (size : Z) : Z :=
  to_int (SFsub 53 1024 (SFadd 53 1024 n (of_int size)) (of_int 1)) / size * size.

(** 1.1 *)
Definition VOLWM_COW_OVERHEAD : spec_float := S754_finite false 4953959590107546 (-52).

Definition getMaxVolumeSize (capacity : Z) : Z := round_float (SFmul 53 1024 (of_int capacity) VOLWM_COW_OVERHEAD) MiB.

Example max_sizes : getMaxVolumeSize (10 * GiB) = 11264 * MiB ∧ getMaxVolumeSize GiB = 1127 * MiB ∧ getMaxVolumeSize 12345678901234 = 13580247236608.
Proof. vm_compute. auto. Qed.

Section Sizes.
(** From the configuration *)
Context (VOLWM_CHUNK_SIZE VOLWM_FREE_PCT : Z).

Definition VOLWM_CHUNK_REPLICATE_MULT : Z := 2.

Definition volExtensionChunk (d : Drive) : Z :=
  if isDiskReplicationInProgress d then VOLWM_CHUNK_SIZE * VOLWM_CHUNK_REPLICATE_MULT else VOLWM_CHUNK_SIZE.

Definition watermarkLimit (d : Drive) : Z := VOLWM_FREE_PCT * volExtensionChunk d / 100.

Definition getNextVolumeSize (d : Drive) (curSize capacity : Z) : Z :=
  Z.min (round (curSize + volExtensionChunk d) MiB) (getMaxVolumeSize capacity).

(** ** DriveMonitor *)

Definition monitored_drives (events_enabled : bool) (drives : list Drive) : list Drive :=
  List.filter (needs_monitoring events_enabled) drives.

Definition monitoring_needed (enabled events_enabled : bool) (drives : list Drive) : bool :=
  enabled && negb (bool_decide (monitored_drives events_enabled drives = [])).

Definition threshold_of (d : Drive) (size : Z) : Z := Z.max 1 (size - watermarkLimit d).

(** The state that [set_threshold] stores once [setBlockThreshold] has returned or raised *)
Definition set_threshold_store (accepted : bool) (d : Drive) : Drive := set_threshold_state (if accepted then SET_ else UNSET) d.

(** [set_threshold]: [accepted] is whether [setBlockThreshold] succeeds; the result has the threshold libvirt was given. *)
Definition set_threshold (events_enabled : bool) (d : Drive) (size : Z) (accepted : bool) : Drive * option Z :=
  if negb events_enabled then (d, None)
  else (set_threshold_store accepted d, if accepted then Some (threshold_of d size) else None).

(** [should_extend_volume]: without an answer it has paused the machine and raises ImprobableResizeRequestError. *)
Definition should_extend_volume (d : Drive) (capacity alloc physical : Z) : option bool :=
  if alloc >? getNextVolumeSize d physical capacity then None
  else if physical >=? getMaxVolumeSize capacity then Some false
  else if physical - alloc <? watermarkLimit d then Some true
  else Some false.

Definition update_threshold_state_exceeded (events_enabled : bool) (d : Drive) : Drive :=
  if negb (bool_decide (_threshold_state d = EXCEEDED)) && events_enabled then set_threshold_state EXCEEDED d else d.

(** ** The extension of a drive in [vm.py] *)

(** [getExtendInfo]: what [blockInfo] answers, [None] when libvirt raises, and the size of the replica, used for a drive that is only
    monitored for its replica *)
Definition getExtendInfo (d : Drive) (blockInfo : option (Z * Z * Z)) (replica_size : Z) : option (Z * Z * Z) :=
  match blockInfo with
  | None => None
  | Some (capacity, alloc, physical) => Some (capacity, alloc, if negb (chunked d) then replica_size else physical)
  end.

(** What a check does beside the drive: the threshold that was set, the request that was sent (whether for the replica, and the
    new size), and whether the machine was paused. *)
Record effects := mkEffects { given : option Z; request : option (bool * Z); paused : bool }.

(** [extendDriveVolume] *)
Definition extendDriveVolume (d : Drive) (curSize capacity : Z) : bool * Z := (replicaChunked d, getNextVolumeSize d curSize capacity).

(** [extend_drive_if_needed]: [None] in place of the result is the exception. *)
Definition extend_drive_if_needed (events_enabled : bool) (d : Drive) (info : option (Z * Z * Z)) (accepted : bool) : Drive * effects * option (option bool) :=
  if bool_decide (_threshold_state d = SET_) then (d, mkEffects None None false, Some None)
  else match info with
       | None => (d, mkEffects None None false, Some (Some false))
       | Some (capacity, alloc, physical) =>
           let '(d, th) := if bool_decide (_threshold_state d = UNSET) then set_threshold events_enabled d physical accepted else (d, None) in
           match should_extend_volume d capacity alloc physical with
           | None => (d, mkEffects th None true, None)
           | Some false => (d, mkEffects th None false, Some (Some false))
           | Some true =>
               let d := update_threshold_state_exceeded events_enabled d in
               (d, mkEffects th (Some (extendDriveVolume d physical capacity)) false, Some (Some true))
           end
       end.

(** [monitor_drives] over the drives and what a check of each meets: the drives, the effects, and whether one is being extended. *)
Fixpoint monitor_drives (events_enabled : bool) (drives : list (Drive * option (Z * Z * Z) * bool)) (extended : bool) : list Drive * list effects * bool :=
  match drives with
  | [] => ([], [], extended)
  | (d, info, accepted) :: drives =>
      if needs_monitoring events_enabled d then
        match extend_drive_if_needed events_enabled d info accepted with
        | (d, e, None) => (d :: ((fun x => x.1.1) <$> drives), [e], false)
        | (d, e, Some r) =>
            let '(ds, es, x) := monitor_drives events_enabled drives (extended || bool_decide (r = Some true)) in (d :: ds, e :: es, x)
        end
      else let '(ds, es, x) := monitor_drives events_enabled drives extended in (d :: ds, es, x)
  end.

(** How an extension ends for its callback *)
Inductive called := NotCalled | CalledOk | CalledError.

(** [after_volume_extension]: [refreshed] is whether the refresh succeeds, [size] the answer of [_getVolumeSize], without when it raises, and [resumed] whether the
    resume of the machine raises nothing but what is passed over; the callback does not raise.  The result has
    the threshold that was set, what the callback was told, and whether it raises. *)
Definition after_volume_extension (events_enabled : bool) (d : Drive) (refreshed : bool) (size : option Z) (newSize : Z) (internal callback accepted resumed : bool) :
    Drive * option Z * called * bool :=
  let failed := (d, None, if callback then CalledError else NotCalled, true) in
  if negb refreshed then failed
  else match size with
       | None => failed
       | Some volSize =>
           if volSize <? newSize then failed
           else
             let '(d, th) :=
               if negb internal then
                 let d := mkDrive (readonly d) (_monitorable d) (diskType d) (format d) (diskReplicate d) (_path d) (_threshold_state d) volSize in
                 set_threshold events_enabled d volSize accepted
               else (d, None) in
             if negb resumed then (d, th, if callback then CalledError else NotCalled, true)
             else (d, th, if callback then CalledOk else NotCalled, false)
       end.

(** [__afterReplicaExtension]: the request for the drive that follows, if one does, what the callback was told, and whether it raises *)
Definition afterReplicaExtension (d : Drive) (refreshed : bool) (size : option Z) (newSize : Z) (callback : bool) : option Z * called * bool :=
  if negb refreshed then (None, NotCalled, true)
  else match size with
       | None => (None, NotCalled, true)
       | Some volSize =>
           if volSize <? newSize then (None, NotCalled, true)
           else if negb (chunked d) then (None, NotCalled, false)
           else (Some newSize, NotCalled, false)
       end.

(** ** Extensions are asked for in time *)

Context (chunk_pos : 0 < VOLWM_CHUNK_SIZE) (pct : 0 <= VOLWM_FREE_PCT <= 100).

Lemma chunk_positive d : 0 < volExtensionChunk d.
Proof. unfold volExtensionChunk, VOLWM_CHUNK_REPLICATE_MULT. destruct (isDiskReplicationInProgress d); lia. Qed.

Lemma limit_bounds d : 0 <= watermarkLimit d <= volExtensionChunk d.
Proof.
  unfold watermarkLimit. pose proof (chunk_positive d). split; [apply Z.div_pos; nia|]. apply Z.div_le_upper_bound; nia.
Qed.

(** The next size is larger unless the volume has its maximal size, and it is that or at least a chunk larger. *)
Lemma next_size_grows d cur capacity :
  cur < getMaxVolumeSize capacity →
  cur < getNextVolumeSize d cur capacity <= getMaxVolumeSize capacity
  ∧ (getNextVolumeSize d cur capacity = getMaxVolumeSize capacity ∨ cur + volExtensionChunk d <= getNextVolumeSize d cur capacity < cur + volExtensionChunk d + MiB).
Proof.
  intros H. unfold getNextVolumeSize. pose proof (chunk_positive d). destruct (round_least (cur + volExtensionChunk d) MiB ltac:(done)) as (_ & Hr & _).
  destruct (Z.min_spec (round (cur + volExtensionChunk d) MiB) (getMaxVolumeSize capacity)) as [[H1 ->]|[H1 ->]]; split; lia.
Qed.

(** ** A drive of a running machine

    Checks of the periodic operation and ends of extensions run in threads of their own; libvirt's events and the writes of the
    guest come at any time between two of their steps.  A step is what is done up to and with the next access to the drive, to libvirt or to the storage. *)

(** Where a thread is: a check that found the drive to be monitored, that found its state not to be SET, and that has read the sizes; in [set_threshold], after libvirt
    was asked, for such a check or for an extension; a check before the decision; a check that is about to ask for an extension; and
    the end of an extension to a size, before and after the volume is refreshed. *)
Inductive pos :=
| Listed
| Tested
| Info (c a p : Z)
| Given (from : option (Z * Z * Z)) (accepted marked : bool)
| Decide (c a p : Z)
| Send (c p : Z)
| Replied (n : Z)
| Refreshed (size : Z).

(** The drive, with what libvirt and the storage know of it: the threshold that is set, how far the guest has written, the
    size of the volume and of the disk, the events that are on their way and the sizes that were asked for; the threads.  The
    last three are history: [quiet] while EXCEEDED was not stored since libvirt took a threshold, [overtaken] when the guest was past
    that threshold and no check saw it, or one saw it and paused the machine, [overwritten] when SET was stored over an EXCEEDED that came after libvirt took the threshold. *)
Record world := mkWorld {
  drv : Drive;
  armed : option Z;
  alloc : Z;
  physical : Z;
  capacity : Z;
  inflight : nat;
  pending : list Z;
  threads : list pos;
  quiet : bool;
  overtaken : bool;
  overwritten : bool;
}.

Definition set_drv (d : Drive) (w : world) : world :=
  mkWorld d (armed w) (alloc w) (physical w) (capacity w) (inflight w) (pending w) (threads w) (quiet w) (overtaken w) (overwritten w).
Definition set_armed (th : option Z) (n : nat) (w : world) : world :=
  mkWorld (drv w) th (alloc w) (physical w) (capacity w) n (pending w) (threads w) (quiet w) (overtaken w) (overwritten w).
Definition set_sizes (a p : Z) (w : world) : world :=
  mkWorld (drv w) (armed w) a p (capacity w) (inflight w) (pending w) (threads w) (quiet w) (overtaken w) (overwritten w).
Definition set_pending (l : list Z) (w : world) : world :=
  mkWorld (drv w) (armed w) (alloc w) (physical w) (capacity w) (inflight w) l (threads w) (quiet w) (overtaken w) (overwritten w).
Definition set_threads (ts : list pos) (w : world) : world :=
  mkWorld (drv w) (armed w) (alloc w) (physical w) (capacity w) (inflight w) (pending w) ts (quiet w) (overtaken w) (overwritten w).
Definition set_history (q ot ow : bool) (w : world) : world :=
  mkWorld (drv w) (armed w) (alloc w) (physical w) (capacity w) (inflight w) (pending w) (threads w) q ot ow.

Definition push (t : pos) (w : world) : world := set_threads (t :: threads w) w.

(** The guest writes up to [a], even past the end of the volume: an event is sent when it reaches the threshold, once. *)
Definition guest_writes (a : Z) (w : world) : world :=
  let w' := set_sizes (Z.max a (alloc w)) (physical w) w in
  match armed w with
  | Some th => if (alloc w <=? th) && (alloc w <? a) && (th <=? a) then set_armed None (S (inflight w)) w' else w'
  | None => w'
  end.

(** The drive [d] has the state EXCEEDED; the threads that are to store a state are marked. *)
Definition mark (t : pos) : pos := match t with Given from accepted _ => Given from accepted true | _ => t end.

Definition exceeded (d : Drive) (w : world) : world :=
  set_history false (overtaken w) (overwritten w) (set_threads (mark <$> threads w) (set_drv d w)).

Definition event_delivered (w : world) : world :=
  set_armed (armed w) (pred (inflight w)) (exceeded (on_block_threshold (default [] (_path (drv w))) (drv w)) w).

(** [setBlockThreshold] for a size in [set_threshold]; [seen] is the allocation that a check has read. *)
Definition give (seen : option Z) (size : Z) (accepted : bool) (w : world) : world :=
  let th := threshold_of (drv w) size in
  if accepted then
    set_history true ((th <? alloc w) && (match seen with Some a => a <=? th | None => true end)) (overwritten w)
      (set_armed (Some th) (inflight w) w)
  else w.

Definition set_apparentsize (size : Z) (d : Drive) : Drive :=
  mkDrive (readonly d) (_monitorable d) (diskType d) (format d) (diskReplicate d) (_path d) (_threshold_state d) size.

(** A request goes through the mailbox, which drops a message that it holds already. *)
Definition ask (n : Z) (w : world) : world := set_pending (if bool_decide (n ∈ pending w) then pending w else n :: pending w) w.

(** One step of a thread, with events enabled: [ok] is whether what it calls succeeds, [size] the size of the volume that it is told. *)
Definition act (ok : bool) (size : Z) (t : pos) (w : world) : world :=
  match t with
  | Listed => if bool_decide (_threshold_state (drv w) = SET_) then w else push Tested w
  | Tested => if ok then push (Info (capacity w) (alloc w) (physical w)) w else w
  | Info c a p =>
      if bool_decide (_threshold_state (drv w) = UNSET) then push (Given (Some (c, a, p)) ok false) (give (Some a) p ok w)
      else push (Decide c a p) w
  | Given from accepted marked =>
      let w := set_history (quiet w) (overtaken w) (if accepted then marked else overwritten w) (set_drv (set_threshold_store accepted (drv w)) w) in
      match from with Some (c, a, p) => push (Decide c a p) w | None => w end
  | Decide c a p =>
      match should_extend_volume (drv w) c a p with
      | None => set_history (quiet w) true (overwritten w) w
      | Some false => w
      | Some true => push (Send c p) (exceeded (update_threshold_state_exceeded true (drv w)) w)
      end
  | Send c p => ask (extendDriveVolume (drv w) p c).2 w
  | Replied n =>
      if negb ok then w
      else let w := set_sizes (alloc w) size w in
           if size <? n then w else push (Refreshed size) w
  | Refreshed size =>
      push (Given None ok false) (give None size ok (set_drv (set_apparentsize size (drv w)) w))
  end.

Inductive thin_step : world → world → Prop :=
| t_write a w : thin_step w (guest_writes a w)
| t_event w : (0 < inflight w)%nat → thin_step w (event_delivered w)
| t_cycle w : needs_monitoring true (drv w) = true → thin_step w (push Listed w)
| t_thread ok size t rest w : threads w ≡ₚ t :: rest → physical w <= size → thin_step w (act ok size t (set_threads rest w))
| t_reply n w : n ∈ pending w → thin_step w (push (Replied n) (set_pending (filter (fun m => m ≠ n) (pending w)) w)).

(** A chunked drive that is monitored *)
Definition thin (d : Drive) : Prop :=
  readonly d = false ∧ _monitorable d = true ∧ chunked d = true ∧ diskReplicate d = None ∧ is_Some (_path d).

Inductive thin_reach : world → Prop :=
| t_new d a p c : thin d → _threshold_state d = UNSET → thin_reach (mkWorld d None a p c 0 [] [] false false false)
| t_next w w' : thin_reach w → thin_step w w' → thin_reach w'.

(** A check that found less space than the limit and has not decided yet *)
Definition found_short (w : world) (t : pos) : Prop :=
  match t with
  | Given (Some (_, a, p)) _ _ | Decide _ a p => p - a < watermarkLimit (drv w)
  | _ => False
  end.

(** What a thread has read *)
Definition pos_ok (w : world) (t : pos) : Prop :=
  match t with
  | Info c _ p | Given (Some (c, _, p)) _ _ | Decide c _ p => c = capacity w ∧ p <= physical w
  | Send c p => c = capacity w ∧ p <= physical w ∧ p < getMaxVolumeSize c
  | Refreshed size => size <= physical w
  | _ => True
  end.

(** The guest is not past the threshold, or it will be known. *)
Definition covered (w : world) : Prop :=
  (∃ th, armed w = Some th ∧ alloc w <= th) ∨ (0 < inflight w)%nat ∨ Exists (found_short w) (threads w) ∨
  getMaxVolumeSize (capacity w) <= physical w.

(** A size that was asked for is the next one after a size that the volume had. *)
Definition asked (w : world) (n : Z) : Prop :=
  ∃ p, p <= physical w ∧ p < getMaxVolumeSize (capacity w) ∧ n = getNextVolumeSize (drv w) p (capacity w).

Record thin_inv (w : world) : Prop := {
  n_thin : thin (drv w);
  n_armed : ∀ th, armed w = Some th → th <= threshold_of (drv w) (physical w);
  n_threads : Forall (pos_ok w) (threads w);
  n_pending : Forall (asked w) (pending w);
  n_quiet : quiet w = true → overtaken w = false → covered w;
  n_set : _threshold_state (drv w) = SET_ → overwritten w = false → quiet w = true;
  n_window : Forall (fun t => ∀ from, t = Given from true false → quiet w = true) (threads w);
}.

(** All these drives have the same sizes. *)
Lemma thin_limit d d' : thin d → thin d' → watermarkLimit d' = watermarkLimit d.
Proof.
  intros (_ & _ & _ & R & _) (_ & _ & _ & R' & _). unfold watermarkLimit, volExtensionChunk, isDiskReplicationInProgress. by rewrite R, R'.
Qed.

Lemma thin_next d d' p c : thin d → thin d' → getNextVolumeSize d' p c = getNextVolumeSize d p c.
Proof.
  intros (_ & _ & _ & R & _) (_ & _ & _ & R' & _). unfold getNextVolumeSize, volExtensionChunk, isDiskReplicationInProgress. by rewrite R, R'.
Qed.

Lemma thin_state st d : thin (set_threshold_state st d) ↔ thin d.
Proof. done. Qed.

Lemma thin_update d : thin (update_threshold_state_exceeded true d) ↔ thin d.
Proof. unfold update_threshold_state_exceeded. by destruct (_ && _). Qed.

Lemma update_exceeded d : _threshold_state (update_threshold_state_exceeded true d) = EXCEEDED.
Proof. unfold update_threshold_state_exceeded. by case_bool_decide. Qed.

Lemma event_exceeded d : thin d → thin (on_block_threshold (default [] (_path d)) d) ∧ _threshold_state (on_block_threshold (default [] (_path d)) d) = EXCEEDED.
Proof.
  intros Ht. pose proof Ht as (_ & _ & _ & _ & [p Hp]). unfold on_block_threshold. rewrite Hp. cbn [default]. by rewrite bool_decide_false by naive_solver.
Qed.

(** What a check decides *)
Lemma should_extend_cases d c a p :
  match should_extend_volume d c a p with
  | None => getNextVolumeSize d p c < a
  | Some true => p < getMaxVolumeSize c ∧ p - a < watermarkLimit d ∧ a <= getNextVolumeSize d p c
  | Some false => getMaxVolumeSize c <= p ∨ watermarkLimit d <= p - a
  end.
Proof.
  unfold should_extend_volume. destruct (Z.gtb_spec a (getNextVolumeSize d p c)); [done|].
  destruct (Z.geb_spec p (getMaxVolumeSize c)); [by left|]. destruct (Z.ltb_spec (p - a) (watermarkLimit d)); [done|by right].
Qed.

(** ** The invariant *)

Lemma pos_ok_mono w w' t : capacity w' = capacity w → physical w <= physical w' → pos_ok w t → pos_ok w' t.
Proof. intros Hc Hp. destruct t as [| |c a p|[[[c a] p]|] ? ?|c a p|c p|n|size]; cbn; rewrite ?Hc; try done; lia. Qed.

Lemma asked_mono w w' n :
  thin (drv w) → thin (drv w') → capacity w' = capacity w → physical w <= physical w' → asked w n → asked w' n.
Proof. intros T T' Hc Hp (p & H1 & H2 & H3). exists p. rewrite Hc, (thin_next (drv w) (drv w')) by done. split_and!; [lia|done..]. Qed.

Lemma found_short_drv w w' t : thin (drv w) → thin (drv w') → found_short w t → found_short w' t.
Proof. intros T T'. destruct t as [| |c a p|[[[c a] p]|] ? ?|c a p|c p|n|size]; cbn; try done; by rewrite (thin_limit (drv w) (drv w')). Qed.

(** The drive, libvirt and the storage change: the invariant needs only what is about them. *)
Lemma inv_frame w w' :
  thin_inv w → thin (drv w') → capacity w' = capacity w → physical w <= physical w' → threads w' = threads w →
  Forall (asked w') (pending w') → (∀ th, armed w' = Some th → th <= threshold_of (drv w') (physical w')) →
  (quiet w' = true → overtaken w' = false → covered w') →
  (_threshold_state (drv w') = SET_ → overwritten w' = false → quiet w' = true) →
  (quiet w = true → quiet w' = true) → thin_inv w'.
Proof.
  intros [N1 N2 N3 N4 N5 N6 N7] T Hc Hp Ht Ha Hth Hq Hs Hqq. constructor; try done; rewrite Ht.
  - eapply Forall_impl; [exact N3|]. intros t. by apply pos_ok_mono.
  - eapply Forall_impl; [exact N7|]. cbn. eauto.
Qed.

Lemma inv_reorder w ts : thin_inv w → threads w ≡ₚ ts → thin_inv (set_threads ts w).
Proof.
  intros [N1 N2 N3 N4 N5 N6 N7] Hp. constructor; try done; cbn; [change (Forall (pos_ok w) ts); by rewrite <- Hp| |by rewrite <- Hp].
  intros Hq Ho. destruct (N5 Hq Ho) as [?|[?|[?|?]]]; [by left|by right; left| |by right; right; right].
  right. right. left. change (Exists (found_short w) ts). by rewrite <- Hp.
Qed.

Lemma inv_push w t : thin_inv w → pos_ok w t → (∀ from, t = Given from true false → quiet w = true) → thin_inv (push t w).
Proof.
  intros [N1 N2 N3 N4 N5 N6 N7] Ht Hw. constructor; try done; cbn; [by constructor| |by constructor].
  intros Hq Ho. destruct (N5 Hq Ho) as [?|[?|[?|?]]]; [by left|by right; left| |by right; right; right].
  right. right. left. by apply Exists_cons_tl.
Qed.

Lemma inv_pop w t : thin_inv (push t w) → ¬ found_short w t → thin_inv w ∧ pos_ok w t.
Proof.
  intros [N1 N2 N3 N4 N5 N6 N7] Hns. cbn in *. apply Forall_cons in N3 as [N3 N3']. apply Forall_cons in N7 as [_ N7].
  split; [|done]. constructor; try done.
  intros Hq Ho. destruct (N5 Hq Ho) as [?|[?|[[?|?]%Exists_cons|?]]]; [by left|by right; left|done|by right; right; left|by right; right; right].
Qed.

(** [setBlockThreshold], for a check that has read the sizes or for an extension *)
Lemma give_inv seen from size ok w :
  thin_inv w → size <= physical w → pos_ok w (Given from ok false) →
  match from with Some (_, a, p) => seen = Some a ∧ size = p | None => seen = None end →
  thin_inv (push (Given from ok false) (give seen size ok w)).
Proof.
  intros N Hsize Hok Hfrom. destruct ok; [|by apply inv_push]. unfold give.
  set (th := threshold_of (drv w) size). set (w1 := set_history _ _ _ _). pose proof (limit_bounds (drv w)) as Hl.
  destruct N as [N1 N2 N3 N4 N5 N6 N7]. constructor; cbn; try done.
  - intros t [= <-]. unfold th, threshold_of. lia.
  - constructor; [done|]. eapply Forall_impl; [exact N3|]. intros t. by apply pos_ok_mono.
  - intros _ Ho. destruct (Z.ltb_spec th (alloc w)) as [Hlt|Hge]; [|left; by exists th]. cbn [andb] in Ho.
    right. right. left. apply Exists_cons_hd. destruct from as [[[c a] p]|]; [|by subst seen]. destruct Hfrom as [-> ->].
    apply Z.leb_gt in Ho. cbn. change (watermarkLimit _) with (watermarkLimit (drv w)). unfold th, threshold_of in Ho. lia.
  - constructor; [done|]. by apply Forall_true.
Qed.

(** The state is stored. *)
Lemma store_inv from accepted marked w :
  thin_inv (push (Given from accepted marked) w) →
  thin_inv (act true 0 (Given from accepted marked) w).
Proof.
  intros N. pose proof N as [N1 N2 N3 N4 N5 N6 N7]. cbn in *.
  apply Forall_cons in N3 as [N3 N3']. apply Forall_cons in N7 as [N7 N7'].
  set (w1 := set_history _ _ _ _).
  assert (∀ ts, Forall (pos_ok w) ts → Forall (fun t => ∀ f, t = Given f true false → quiet w = true) ts →
    (quiet w = true → overtaken w = false → covered (set_threads ts w1)) → thin_inv (set_threads ts w1)) as Hgen.
  { intros ts H1 H2 H3. constructor; cbn; try done. intros Hst Ho. destruct accepted; [|done]. destruct marked; [done|]. by eapply N7. }
  destruct from as [[[c a] p]|].
  - apply (Hgen (Decide c a p :: threads w)); [by constructor|by constructor|].
    intros Hq Ho. destruct (N5 Hq Ho) as [?|[?|[H|?]]]; [by left|by right; left| |by right; right; right].
    right. right. left. cbn in *. apply Exists_cons in H as [?|?]; [by left|by right].
  - assert (set_threads (threads w1) w1 = w1) as <- by done. apply (Hgen (threads w)); try done.
    intros Hq Ho. destruct (N5 Hq Ho) as [?|[?|[H|?]]]; [by left|by right; left| |by right; right; right].
    right. right. left. cbn in *. apply Exists_cons in H as [?|?]; [done|done].
Qed.

(** EXCEEDED is stored. *)
Lemma exceeded_inv d w :
  thin (drv w) → (∀ th, armed w = Some th → th <= threshold_of (drv w) (physical w)) → Forall (pos_ok w) (threads w) → Forall (asked w) (pending w) →
  thin d → _threshold_state d = EXCEEDED → thin_inv (exceeded d w).
Proof.
  intros T Ha Hth Hp Td Hd. constructor; cbn; try done.
  - intros th Hth'. unfold threshold_of. rewrite (thin_limit (drv w) d) by done. by apply Ha.
  - apply Forall_fmap. eapply Forall_impl; [exact Hth|]. by intros [| | |[[[]]|]| | | |] ?.
  - eapply Forall_impl; [exact Hp|]. intros n. by apply asked_mono.
  - by rewrite Hd.
  - apply Forall_fmap, Forall_true. by intros [| | |[[[]]|]| | | |] f.
Qed.

Lemma decide_inv ok size c a p w : thin_inv (push (Decide c a p) w) → thin_inv (act ok size (Decide c a p) w).
Proof.
  intros N. cbn. pose proof (should_extend_cases (drv w) c a p) as Hc. destruct (should_extend_volume (drv w) c a p) as [[]|].
  - destruct N as [N1 N2 N3 N4 N5 N6 N7]. cbn in *. apply Forall_cons in N3 as [[Hcap Hp] N3]. cbn in Hcap, Hp. subst c.
    apply inv_push; [|split_and!; [done|done|apply Hc]|done]. apply exceeded_inv; try done; [by apply thin_update|apply update_exceeded].
  - destruct N as [N1 N2 N3 N4 N5 N6 N7]. cbn in *. apply Forall_cons in N3 as [[Hcap Hp] N3]. cbn in Hcap, Hp. subst c. apply Forall_cons in N7 as [_ N7].
    constructor; try done. intros Hq Ho. destruct (N5 Hq Ho) as [?|[?|[[H|?]%Exists_cons|?]]]; [by left|by right; left| |by right; right; left|by right; right; right].
    cbn in H. right. right. right. change (watermarkLimit _) with (watermarkLimit (drv w)) in H. lia.
  - destruct N as [N1 N2 N3 N4 N5 N6 N7]. cbn in *. apply Forall_cons in N3 as [_ N3]. apply Forall_cons in N7 as [_ N7]. by constructor.
Qed.

Lemma send_inv ok size c p w : thin_inv (push (Send c p) w) → thin_inv (act ok size (Send c p) w).
Proof.
  intros N. apply inv_pop in N as [N (Hcap & Hp & Hm)]; [|by intros []]. subst c. pose proof N as [N1 N2 N3 N4 N5 N6 N7].
  apply (inv_frame w); cbn; try done. case_bool_decide; [done|]. constructor; [|done]. by exists p.
Qed.

Lemma replied_inv ok size n w : thin_inv (push (Replied n) w) → physical w <= size → thin_inv (act ok size (Replied n) w).
Proof.
  intros N Hs. apply inv_pop in N as [N _]; [|by intros []]. cbn. destruct ok; cbn [negb]; [|done].
  assert (thin_inv (set_sizes (alloc w) size w)) as N'.
  { pose proof N as [N1 N2 N3 N4 N5 N6 N7]. apply (inv_frame w); cbn; try done.
    - eapply Forall_impl; [exact N4|]. intros m. by apply asked_mono.
    - intros th Hth. specialize (N2 th Hth). unfold threshold_of in *. lia.
    - intros Hq Ho. destruct (N5 Hq Ho) as [?|[?|[?|?]]]; [by left|by right; left|by right; right; left|].
      right. right. right. cbn. lia. }
  destruct (size <? n); [done|]. apply inv_push; [done|cbn; lia|done].
Qed.

Lemma act_inv ok size t w : thin_inv (push t w) → physical w <= size → thin_inv (act ok size t w).
Proof.
  intros N Hs. destruct t as [| |c a p|from acc m|c a p|c p|n|sz].
  - apply inv_pop in N as [N _]; [|by intros []]. cbn. case_bool_decide; [done|]. by apply inv_push.
  - apply inv_pop in N as [N _]; [|by intros []]. cbn. destruct ok; [|done]. apply inv_push; [done|cbn; lia|done].
  - apply inv_pop in N as [N [-> Hp]]; [|by intros []]. cbn. case_bool_decide; [|by apply inv_push]. by apply give_inv.
  - by apply (store_inv from acc m).
  - by apply decide_inv.
  - by apply send_inv.
  - by apply replied_inv.
  - apply inv_pop in N as [N Hsz]; [|by intros []]. cbn in Hsz |- *. apply give_inv; try done.
    pose proof N as [N1 N2 N3 N4 N5 N6 N7]. by apply (inv_frame w).
Qed.

Lemma write_inv a w : thin_inv w → thin_inv (guest_writes a w).
Proof.
  intros N. pose proof N as [N1 N2 N3 N4 N5 N6 N7]. unfold guest_writes. destruct (armed w) as [th|] eqn:E.
  - destruct ((alloc w <=? th) && (alloc w <? a) && (th <=? a)) eqn:Ef; apply (inv_frame w); cbn; try done; try lia.
    + intros _ _. right. left. cbn. lia.
    + by rewrite E.
    + intros Hq Ho. destruct (N5 Hq Ho) as [(th' & Hth & Hle)|?]; [|by right]. rewrite E in Hth. injection Hth as <-.
      left. exists th. cbn. split; [done|]. destruct (Z.max_spec a (alloc w)); lia.
  - apply (inv_frame w); cbn; try done; [by rewrite E|]. intros Hq Ho.
    destruct (N5 Hq Ho) as [(th' & Hth & _)|?]; [congruence|by right].
Qed.

Lemma thin_reach_inv w : thin_reach w → thin_inv w.
Proof.
  induction 1 as [d a p c Ht Hu|w w' _ IH Hs]; [by constructor; cbn; rewrite ?Hu|].
  destruct Hs as [a w|w Hf|w Hm|ok size t rest w Hp Hs|n w Hn].
  - by apply write_inv.
  - pose proof IH as [N1 N2 N3 N4 N5 N6 N7]. destruct (event_exceeded (drv w) N1) as [Td Hd].
    pose proof (exceeded_inv _ w N1 N2 N3 N4 Td Hd) as N. pose proof N as [M1 M2 M3 M4 M5 M6 M7].
    by apply (inv_frame (exceeded (on_block_threshold (default [] (_path (drv w))) (drv w)) w)).
  - by apply inv_push.
  - apply act_inv; [|done]. by apply (inv_reorder w (t :: rest)) in IH.
  - apply inv_push; [|done..]. pose proof IH as [N1 N2 N3 N4 N5 N6 N7]. apply (inv_frame w); cbn; try done.
    apply Forall_forall. intros m [_ Hm]%list_elem_of_filter. by apply (proj1 (Forall_forall _ _) N4).
Qed.

(** A check that nothing comes between is [extend_drive_if_needed]. *)
Fixpoint run_alone (oks : list bool) (w : world) : world :=
  match oks, threads w with
  | ok :: oks', t :: rest => run_alone oks' (act ok (physical w) t (set_threads rest w))
  | _, _ => w
  end.

Lemma run_cons ok oks t d ar al ph ca fl pe q ot ow :
  run_alone (ok :: oks) (mkWorld d ar al ph ca fl pe [t] q ot ow) = run_alone oks (act ok ph t (mkWorld d ar al ph ca fl pe [] q ot ow)).
Proof. done. Qed.

Lemma run_nil oks d ar al ph ca fl pe q ot ow :
  run_alone oks (mkWorld d ar al ph ca fl pe [] q ot ow) = mkWorld d ar al ph ca fl pe [] q ot ow.
Proof. by destruct oks. Qed.

Ltac go_on :=
  cbv [act push set_threads set_drv set_history set_armed set_sizes set_pending give ask exceeded mark set_threshold_store fmap list_fmap
       drv armed alloc physical capacity inflight pending threads quiet overtaken overwritten]; cbn beta iota.

Lemma check_alone (answered accepted : bool) w :
  threads w = [] →
  let '(d, e, _) := extend_drive_if_needed true (drv w) (if answered then Some (capacity w, alloc w, physical w) else None) accepted in
  let w' := run_alone [true; answered; accepted; true; true; true] (push Listed w) in
  threads w' = [] ∧ drv w' = d ∧ armed w' = match given e with Some th => Some th | None => armed w end ∧
  pending w' = match request e with Some (_, n) => if bool_decide (n ∈ pending w) then pending w else n :: pending w | None => pending w end.
Proof.
  intros Ht. destruct w as [d ar al ph ca fl pe ts q ot ow]. cbn in Ht. subst ts.
  assert (∀ st st' : BLOCK_THRESHOLD, st ≠ st' → bool_decide (st = st') = false) as Hne by (intros; by apply bool_decide_false).
  assert (∀ st : BLOCK_THRESHOLD, bool_decide (st = st) = true) as Heq by (intros; by apply bool_decide_true).
  unfold extend_drive_if_needed, set_threshold. cbn [negb]. go_on. rewrite run_cons. go_on.
  destruct (_threshold_state d) eqn:Es; rewrite ?Heq, ?Hne by done; cbn beta iota; [|by rewrite run_nil|].
  - rewrite run_cons. go_on. destruct answered; cbn beta iota; [|by rewrite run_nil].
    rewrite run_cons. go_on. rewrite Es, Heq. destruct accepted; cbn beta iota; rewrite run_cons; go_on; rewrite run_cons; go_on.
    + destruct (should_extend_volume (set_threshold_state SET_ d) ca al ph) as [[]|]; [rewrite run_cons; go_on|..]; by rewrite run_nil.
    + destruct (should_extend_volume (set_threshold_state UNSET d) ca al ph) as [[]|]; [rewrite run_cons; go_on|..]; by rewrite run_nil.
  - rewrite run_cons. go_on. destruct answered; cbn beta iota; [|by rewrite run_nil].
    rewrite run_cons. go_on. rewrite Es, Hne by done. rewrite run_cons. go_on.
    destruct (should_extend_volume d ca al ph) as [[]|]; [rewrite run_cons; go_on|..]; by rewrite run_nil.
Qed.

(** The end of an extension that nothing comes between is [after_volume_extension]. *)
Lemma extension_alone (refreshed accepted : bool) n size w :
  threads w = [] →
  let '(d, th, _, _) := after_volume_extension true (drv w) refreshed (Some size) n false false accepted true in
  let w' := run_alone [accepted; true] (act refreshed size (Replied n) w) in
  threads w' = [] ∧ drv w' = d ∧ armed w' = match th with Some t => Some t | None => armed w end.
Proof.
  intros Ht. destruct w as [d ar al ph ca fl pe ts q ot ow]. cbn in Ht. subst ts.
  unfold after_volume_extension, set_threshold. cbn [negb]. go_on. destruct refreshed; cbn [negb]; [|by rewrite run_nil].
  destruct (size <? n); [by rewrite run_nil|]. cbv zeta. rewrite run_cons. go_on.
  destruct accepted; cbn beta iota; rewrite run_cons; go_on; by rewrite run_nil.
Qed.

(** What a check does with a short volume *)
Lemma short_check d c a p accepted :
  thin d → _threshold_state d ≠ SET_ → p - a < watermarkLimit d → p < getMaxVolumeSize c →
  let '(_, e, _) := extend_drive_if_needed true d (Some (c, a, p)) accepted in
  (a <= getNextVolumeSize d p c ∧ request e = Some (false, getNextVolumeSize d p c)) ∨ (getNextVolumeSize d p c < a ∧ paused e = true).
Proof.
  intros Ht Hs Hsh Hm. unfold extend_drive_if_needed, set_threshold. rewrite bool_decide_false by done. cbn [negb].
  assert (∀ d' th, thin d' →
    let '(_, e, _) := match should_extend_volume d' c a p with
      | None => (d', mkEffects th None true, None)
      | Some false => (d', mkEffects th None false, Some (Some false))
      | Some true => (update_threshold_state_exceeded true d',
          mkEffects th (Some (extendDriveVolume (update_threshold_state_exceeded true d') p c)) false, Some (Some true))
      end in
    (a <= getNextVolumeSize d p c ∧ request e = Some (false, getNextVolumeSize d p c)) ∨ (getNextVolumeSize d p c < a ∧ paused e = true)) as H.
  { intros d' th Ht'. pose proof (should_extend_cases d' c a p) as Hc.
    rewrite (thin_next d d'), (thin_limit d d') in Hc by done. destruct (should_extend_volume d' c a p) as [[]|]; [left|lia|by right].
    split; [apply Hc|]. cbn. unfold extendDriveVolume. pose proof (proj2 (thin_update d') Ht') as Hu.
    rewrite (thin_next d _ _ _ Ht Hu). destruct Hu as (_ & _ & _ & Hr & _). unfold replicaChunked. by rewrite Hr. }
  case_bool_decide; by apply H.
Qed.

(** C32: a thin volume gets its extension in time.  Checks and ends of extensions run in threads, in any number, and the writes of the
    guest, even past the end of the volume, and the events of libvirt come between any two of their steps, also inside [set_threshold].
    When less free space than the limit is left in a volume that is below its maximal size: an event is
    on its way, or a check has read that little space is left and is about to decide, or the drive is picked up by the next check, which asks for the next size, or pauses the
    machine when the guest is even past that; or the drive was left with the state SET, because SET was stored over an EXCEEDED
    that came after libvirt had taken the threshold, or because the guest was past the threshold when libvirt took it, unseen by a check
    or seen by one that paused the machine.  A check that
    decides on little space marks the drive and asks.  A request is for the next size after one that the volume had: larger than that, at most the maximal one
    and at least a chunk larger unless it is that. *)
Theorem thin_extended_in_time w :
  thin_reach w →
  (1 < alloc w → physical w - alloc w < watermarkLimit (drv w) → physical w < getMaxVolumeSize (capacity w) →
     (0 < inflight w)%nat
     ∨ Exists (found_short w) (threads w)
     ∨ (needs_monitoring true (drv w) = true
        ∧ ∀ accepted, let '(_, e, _) := extend_drive_if_needed true (drv w) (Some (capacity w, alloc w, physical w)) accepted in
            let next := getNextVolumeSize (drv w) (physical w) (capacity w) in
            (alloc w <= next ∧ request e = Some (false, next)) ∨ (next < alloc w ∧ paused e = true))
     ∨ (_threshold_state (drv w) = SET_ ∧ (overwritten w = true ∨ overtaken w = true)))
  ∧ (∀ ok size c a p, Decide c a p ∈ threads w → p - a < watermarkLimit (drv w) → p < getMaxVolumeSize c →
       let w' := act ok size (Decide c a p) w in
       (_threshold_state (drv w') = EXCEEDED ∧ Send c p ∈ threads w') ∨ getNextVolumeSize (drv w) p c < a)
  ∧ (∀ n, n ∈ pending w → ∃ p, p <= physical w ∧ p < n <= getMaxVolumeSize (capacity w)
       ∧ (n = getMaxVolumeSize (capacity w) ∨ p + volExtensionChunk (drv w) <= n)).
Proof.
  intros [N1 N2 N3 N4 N5 N6 N7]%thin_reach_inv. split_and!.
  - intros Ha Hl Hmax. destruct (decide (_threshold_state (drv w) = SET_)) as [Hs|Hs].
    + destruct (overwritten w) eqn:Eo; [by right; right; right; auto|]. destruct (overtaken w) eqn:Et; [by right; right; right; auto|].
      destruct N5 as [(th & Hth & Hle)|[?|[?|?]]]; [by apply N6|done| |by left|by right; left|lia].
      specialize (N2 th Hth). unfold threshold_of in N2. lia.
    + right. right. left. split; [|intros accepted; by apply short_check].
      unfold needs_monitoring. destruct N1 as (-> & -> & -> & _). cbn. apply bool_decide_eq_true. destruct (_threshold_state (drv w)); set_solver.
  - intros ok size c a p Hin Hsh Hm. cbn. pose proof (should_extend_cases (drv w) c a p) as Hc.
    destruct (should_extend_volume (drv w) c a p) as [[]|]; [|lia|by right]. left. split; [apply update_exceeded|by left].
  - intros n Hn. destruct (proj1 (Forall_forall _ _) N4 n Hn) as (p & Hp & Hm & ->). exists p.
    destruct (next_size_grows (drv w) p (capacity w) Hm) as [H1 [H2|H2]]; split_and!; lia.
Qed.

(** The callback of an extension is not told when only the replica was extended, nor when its extension failed. *)
Lemma replica_callback_not_told d refreshed size n : (afterReplicaExtension d refreshed size n true).1.2 = NotCalled.
Proof. unfold afterReplicaExtension. destruct (negb refreshed); [done|]. destruct size as [v|]; [|done]. destruct (v <? n); [done|]. by destruct (negb (chunked d)). Qed.
End Sizes.

(** A drive with a volume of 1 GiB in which 600 MiB are written *)
Definition sample_drive : Drive := mkDrive false true BLOCK (str "cow") None (Some [47]) UNSET GiB.

Lemma thin_extended_in_time_witness :
  request (extend_drive_if_needed GiB 50 true sample_drive (Some (10 * GiB, 600 * MiB, GiB)) true).1.2 = Some (false, 2 * GiB).
Proof.
  set (w := mkWorld sample_drive None (600 * MiB) GiB (10 * GiB) 0 [] [] false false false).
  destruct (thin_extended_in_time GiB 50 ltac:(done) ltac:(lia) w) as [H _].
  - apply t_new; [by split_and!|done].
  - destruct H as [H|[H|[[_ H]|[H _]]]]; [vm_compute; reflexivity..|cbn in H; lia|by inversion H| |discriminate H].
    specialize (H true). cbn zeta in H. change (drv w) with sample_drive in H.
    change (alloc w) with (600 * MiB) in H. change (physical w) with GiB in H. change (capacity w) with (10 * GiB) in H.
    replace (getNextVolumeSize GiB sample_drive GiB (10 * GiB)) with (2 * GiB) in H by (vm_compute; reflexivity).
    destruct (extend_drive_if_needed GiB 50 true sample_drive (Some (10 * GiB, 600 * MiB, GiB)) true) as [[d e] r].
    destruct H as [[_ H]|[H _]]; [exact H|]. vm_compute in H. discriminate.
Defined.

(** The event comes between the call of libvirt and the store in [set_threshold]: the drive is left alone, although less
    space than the limit is left. *)
Lemma extension_missed :
  ∃ w, thin_reach GiB 50 w ∧ needs_monitoring true (drv w) = false ∧ threads w = [] ∧ inflight w = 0%nat ∧ armed w = None ∧ pending w = [] ∧
    overwritten w = true ∧ physical w - alloc w < watermarkLimit GiB 50 (drv w) ∧ physical w < getMaxVolumeSize (capacity w).
Proof.
  assert (∀ w t rest ok, threads w = t :: rest → thin_step GiB 50 w (act GiB 50 ok (physical w) t (set_threads rest w))) as Hrun.
  { intros w t rest ok E. apply t_thread; [by rewrite E|done]. }
  assert (thin_reach GiB 50 (mkWorld sample_drive None MiB GiB (10 * GiB) 0 [] [] false false false)) as H by (apply t_new; [by split_and!|done]).
  eapply t_next in H; [|by apply t_cycle]. vm_compute in H.
  do 3 (eapply t_next in H; [|eapply (Hrun _ _ _ true); reflexivity]; vm_compute in H).
  eapply t_next in H; [|apply (t_write _ _ GiB)]. vm_compute in H.
  eapply t_next in H; [|apply t_event; cbn; lia]. vm_compute in H.
  do 2 (eapply t_next in H; [|eapply (Hrun _ _ _ true); reflexivity]; vm_compute in H).
  eexists. split; [exact H|]. by vm_compute.
Qed.
